(* ===== verification/_CoqProject ===== *)
-Q . S2P
Prelude.v
GoNum.v
GoStrings.v
GoErr.v
Proto.v
Codec.v
Mux.v
Auth.v
Circuit.v
Moderation.v
Sse.v
Retry.v
Redis.v
Store.v
GoTime.v
GoDecimal.v
StoreSpec.v
Limiter.v
ContextAsm.v
Pipeline.v
PipelineTheory.v
Router.v
Telemetry.v
Config.v
Listener.v
GoUrl.v
Json.v
DifyApi.v
DifyMock.v
DifyMockTheory.v
Runtime.v
World.v
TestClient.v
AcceptLoop.v
Admission.v
Connection.v
Gateway.v
