(* ===== verification/Prelude.v ===== *)
(** * Verification of the Dify game AI gateway

    The gateway stands between game clients and the Dify HTTP API.  A client opens a TCP
    connection, authenticates with a JWT and sends length-prefixed protobuf envelopes; a
    chat request is rate limited, given its conversation and its context, moderated,
    streamed from Dify through the output filter and accounted.  This library models the
    program of src/ (Go) and proves it correct.  This file holds what all the others use:
    the result type, lists, tactics; its header is the map of the development.

    ** How the parts interact

    cmd/gateway ([main], in [Runtime]) loads the configuration and calls gateway.Run:
    [Build], then the admin server and the listener.  The
    listener reads frames ([Codec]) off a connection, keeps a session ([Auth]) and a
    registry of requests in flight ([Mux]) and starts a goroutine per chat request, which
    runs the pipeline's handler.  The handler ([Pipeline]) calls the limiter ([Limiter],
    which holds the circuit breaker, [Circuit]), the store ([Store]), the context assembler
    ([ContextAsm]), the moderator and its filter ([Moderation]) and, through the router
    ([Router]), the Dify client ([Retry], [Sse], [DifyApi]).  Limiter and store share a Redis
    server ([Redis]).

    ** Which file models what

    The language and its library: [GoNum] (int64 and uint32 with wrap-around, durations,
    strconv), [GoStrings] (bytes, UTF-8, package strings), [GoErr] (errors.Is and errors.As),
    [GoTime] (ParseDuration, the UTC calendar), [GoDecimal] (decimal digits), [GoUrl]
    (url.PathEscape, the path cleaning of ServeMux, multipart bodies), [Json] (encoding/json,
    printer, parser and the decoding of the structs the program reads).

    The program, each function a definition of the same name (a suffix or the package's
    name in front where two packages share one), its state a record:
    - [Proto]: api/proto/gateway.pb.go, the messages and their oneof bodies;
    - [Codec]: internal/codec/frame.go and envelope.go;
    - [Mux]: internal/mux/mux.go, modules [ConnWriter] and [Registry];
    - [Auth]: internal/session/session.go and internal/auth/auth.go;
    - [Listener]: internal/listener/listener.go and envelopes.go; [on_input] is one step of
      ServeConn or of a request goroutine, [life] a connection; [AcceptLoop]: the accept
      loop and the connections of the process; [Connection]: a connection with the handler
      in its goroutines, and what reaches its client;
    - [Pipeline]: internal/pipeline/handler.go, every handler and helper as a program of
      effects; [PipelineTheory] proves what all its runs do;
    - [Limiter] and [Circuit]: internal/limiter/limiter.go, with its four Lua scripts, and
      circuit.go; modules [Window] and [Slots] are the processes that share a key;
      [Admission]: the limiter's methods as steps of [Slots], and any number of runs of the
      handler over them;
    - [Gateway]: the whole gateway, every connection of [Connection] with the one limiter its
      requests share;
    - [Store]: internal/store/store.go; module [Locking] is all the clients of one lock;
      [StoreSpec]: the abstract store it implements;
    - [Redis]: the commands those send, by their documented effect, as classes ([Redis],
      [RedisLaws]) with an instance ([Keyspace]);
    - [Moderation]: internal/moderation/moderation.go;
    - [ContextAsm]: internal/context/context.go;
    - [Retry], [Sse], [DifyApi]: internal/dify/client.go, sse.go, api.go and types.go;
    - [DifyMock] and [DifyMockTheory]: internal/difymock/difymock.go, and the client against
      it;
    - [Router], [Runtime]: internal/gateway/dify_router.go and runtime.go, and
      cmd/gateway/main.go; [Telemetry]: internal/telemetry/telemetry.go;
    - [Config]: internal/config/config.go;
    - [World]: the handler composed with the store over several requests;
    - [TestClient]: internal/testsupport/testsupport.go, the no-op dependencies and the
      client's side of the protocol, composed with the handler and the codec.

    ** How the hard behaviours are modelled

    Concurrency: mutual exclusion by a Go mutex makes a method one function of the state;
    where an operation is not atomic ([ConnWriter.Send], the registry's [done], [Stop] and
    [CancelAll], the processes sharing Redis, the clients of a lock, a connection and its
    goroutines) the interleavings are the runs of a step relation or of a list of inputs,
    and the theorems are invariants of the reachable states.  Components are composed by
    interleaving too: [Admission]'s and [Connection]'s worlds hold runs of the handler, cut
    into their effects or their frames, beside the state of the limiter's slots or of the
    connection, and [Gateway]'s world, whose runs are cut into effects, projects on both.  The handler is verified
    against every environment: the answers of its dependencies are arbitrary functions of
    what happened before, so other requests, cancellations and faults at any point are
    covered.

    Errors: Go's [(T, error)] pairs are [res] where exactly one half is meaningful, a pair
    otherwise; a call to Redis can be lost before or after the server executed it ([fault]).

    Time: clock readings and server times are arguments.  Integers are [Z] with [wrap_int64]
    and the like where the code's arithmetic can wrap.

    Loops and fuel: loops over data are structural.  [lock_loop] of [Store] is unbounded in
    the code and takes fuel, [None] meaning that it still loops; [lock_reclaimed_after_ttl]
    says how much is enough.  Elsewhere fuel is a bound the loop cannot exceed: the bytes of
    the string ([duration_terms]), the bytes on the connection ([ReadTurn], with
    [ReadTurn_terminates]), the base-36 digits of a clock reading ([digits36]), the
    frames written ([Spec.frames], with [Spec_frames_concat]), the code points of a JSON
    text ([value], with [value_enough]), three attempts ([retry_loop]), the ten redirects an
    HTTP client follows ([visit]).

    ** What the theorems show

    - A chat request: [HandleChat_settles_once] (the limiter's slot is settled exactly once),
      [HandleChat_turn] (what the client is sent), [HandleChat_conversation] (which
      conversation is continued, and the creation lock), [upstream_outcome] and
      [upstream_request] (the call to Dify), [reply_is_moderated] (no banned word reaches
      the client).
    - The whole gateway, in every state any number of clients can bring it to while no
      request outlives the lease of its slot ([g_time]; the limiter does not see to that, and
      without it the bound fails, [stale_release_frees_anothers_slot]): [gateway_safe] (no
      more upstream calls than the maximum, each for the player a token presented on its own
      connection names and with a message the moderator passed, and every client sees its
      requests' turns whole and in order).
    - Requests together: [conversation_continues], [reset_forgets],
      [upstream_calls_bounded] (under the same condition the upstream calls in progress never
      exceed the maximum);
      end to end: [client_stream_is_turns] (a client can tell its requests' turns apart),
      [turn_reaches_client] (what the handler sends is what a client reads).
    - Limits: [inflight_never_exceeds_max], which [methods_refine_slots] carries to the
      limiter's methods, [rate_limit_sliding_window], [Allow_all_or_nothing],
      [budget_counts_the_day]; the breaker's [breaker_reachable_wf],
      [default_breaker_trips], [breaker_recovers], [single_probe].
    - Moderation: [filter_never_leaks], [filter_blocks_iff_banned] (the filter agrees with
      the check of the whole text however it is cut), [filter_buffer_bounded].
    - Store: [store_refines_map] (it implements an expiring map and locks),
      [lock_mutual_exclusion], [lock_reclaimed_after_ttl], [conversation_expires].
    - Connections: [connection_gate], [connection_teardown], [BindSession_binds_verified],
      [Verify_algorithm_pinned], [Registry_one_live_per_id], [process_connections]; the wire:
      [ReadFrame_WriteFrame], [ReadFrame_errors], [Send_frames_never_interleave].
    - Dify: [parseSSE_outcome], [doRequestWithRetry_policy], [ChatStream_one_response],
      [client_reads_mock], [Stop_reaches_mock], [CheckParameterContract_warnings].
    - Start-up: [Load_valid], [gateway_starts], [router_picks_npc_key], [Build_inputs].

    ** Not modelled

    - What is outside the repository enters as parameters, with what the code relies on as
      classes or hypotheses that a concrete instance satisfies: protobuf marshalling, the
      JWT library and the key decoders ([JwtEnv], [JwtParserLaws]), net/http round trips
      ([http_env]), the JSON decoders of the blocking chat's, the upload's and the
      parameters' replies, Redis ([RedisLaws]; a command is
      executed at most once: the client library's own retries of one whose reply was lost are
      left out), the Prometheus registry ([PrometheusLaws]), unicode case mapping
      ([UnicodeCase]), the MIME table.
    - Of gateway.pb.go the marshalling, reflection and accessor code protoc generates.
    - Loggers ([NewJSONLogger] and [DiscardLogger] build one, nothing reads what is logged)
      and latency histograms.  The counters the handler increments are effects, the gauges
      the limiter sets are parts of its state.
    - Sockets and their deadlines: what Accept and Read return is an input.  Of runtime.go
      the two servers' I/O: what their goroutines deliver is an input; likewise the signal
      that ends the context.  The HTTP server and the delays of the mock.
    - internal/loadtest: tests. *)

From stdpp Require Export base tactics list option numbers gmap strings.
From Stdlib Require Export ZArith Lia.

#[global] Open Scope Z_scope.

(** ** Results: a Go [(T, error)] pair of which exactly one half is meaningful. *)

Inductive res (E A : Type) : Type :=
| Ok (a : A)
| Err (e : E).
Arguments Ok {E A} a.
Arguments Err {E A} e.

Definition res_bind {E A B} (r : res E A) (k : A -> res E B) : res E B :=
  match r with Ok a => k a | Err e => Err e end.

Definition is_ok {E A} (r : res E A) : bool :=
  match r with Ok _ => true | Err _ => false end.

Declare Scope gw_scope.
Delimit Scope gw_scope with gw.
Notation "'try' x := r 'in' k" := (res_bind r (fun x => k))
  (at level 10, x pattern, r at level 100, k at level 200) : gw_scope.
#[global] Open Scope gw_scope.

#[export] Instance res_eq_dec {E A} `{EqDecision E, EqDecision A} : EqDecision (res E A).
Proof. solve_decision. Defined.

(** ** Lists *)

(** The last [n] elements of [l]. *)
Definition last_n {A} (n : nat) (l : list A) : list A := drop (length l - n) l.

(** [x] occurs as a contiguous block of [l]. *)
Definition infix_of {A} (x l : list A) : Prop := exists a b, l = a ++ x ++ b.

(** ** Tactics *)

(** Split every conjunction and existential of the context. *)
Ltac break :=
  repeat match goal with
  | H : _ /\ _ |- _ => destruct H
  | H : exists _, _ |- _ => destruct H
  end.

(** Case on the scrutinee of a [match] or [if] of the goal, remembering it. *)
Ltac case_goal :=
  match goal with
  | |- context [match ?x with _ => _ end] =>
      lazymatch x with context [match _ with _ => _ end] => fail | _ => destruct x eqn:? end
  end.

(** Same, for a hypothesis. *)
Ltac case_in H :=
  match type of H with
  | context [match ?x with _ => _ end] =>
      lazymatch x with context [match _ with _ => _ end] => fail | _ => destruct x eqn:? end
  end.

(** Reflect the boolean comparisons on [Z] and [nat] of the context and the goal. *)
Ltac bool_lia :=
  repeat match goal with
  | H : (_ && _)%bool = true |- _ => apply andb_prop in H; destruct H
  | H : negb _ = true |- _ => apply negb_true_iff in H
  | H : negb _ = false |- _ => apply negb_false_iff in H
  end; lia.

Create HintDb gw.

(** ** Lemmas on [last_n] *)

Lemma last_n_length {A} n (l : list A) : length (last_n n l) = Nat.min n (length l).
Proof. unfold last_n. rewrite length_drop. lia. Qed.

Lemma last_n_ge {A} n (l : list A) : (length l <= n)%nat -> last_n n l = l.
Proof. intros. unfold last_n. replace (length l - n)%nat with 0%nat by lia. done. Qed.

Lemma last_n_split {A} n (l : list A) : exists a, l = a ++ last_n n l.
Proof. exists (take (length l - n) l). unfold last_n. by rewrite take_drop. Qed.

Lemma last_n_app_last_n {A} n (l k : list A) :
  last_n n (last_n n l ++ k) = last_n n (l ++ k).
Proof.
  destruct (last_n_split n l) as [a Ha].
  destruct (decide (length l <= n)%nat).
  { by rewrite (last_n_ge n l). }
  assert (length (last_n n l) = n) as Hn by (rewrite last_n_length; lia).
  transitivity (drop (length k) (last_n n l ++ k)).
  { unfold last_n at 1. rewrite length_app, Hn. f_equal. lia. }
  rewrite Ha at 2. rewrite <- app_assoc. unfold last_n at 2.
  rewrite !length_app, Hn, (drop_app_ge a) by lia. f_equal. lia.
Qed.

Lemma last_n_Forall {A} (P : A -> Prop) n l : Forall P l -> Forall P (last_n n l).
Proof. intros. by apply Forall_drop. Qed.

#[export] Hint Resolve last_n_Forall : gw.

(** ** Lemmas on [infix_of] *)

Lemma infix_of_app_l {A} (x l k : list A) : infix_of x l -> infix_of x (l ++ k).
Proof. intros (a & b & ->). exists a, (b ++ k). by rewrite <- !app_assoc. Qed.

Lemma infix_of_app_r {A} (x l k : list A) : infix_of x l -> infix_of x (k ++ l).
Proof. intros (a & b & ->). exists (k ++ a), b. by rewrite <- !app_assoc. Qed.

Lemma infix_of_fmap {A B} (f : A -> B) x l : infix_of x l -> infix_of (f <$> x) (f <$> l).
Proof. intros (a & b & ->). exists (f <$> a), (f <$> b). by rewrite !fmap_app. Qed.

Lemma infix_of_length {A} (x l : list A) : infix_of x l -> (length x <= length l)%nat.
Proof. intros (a & b & ->). rewrite !length_app. lia. Qed.

#[export] Hint Resolve infix_of_app_l infix_of_app_r : gw.

(** An occurrence in [e ++ s] either lies in [e], or, when it is at most [n + 1] long,
    in the last [n] elements of [e] followed by [s]: the fact the overlap window of the
    output filter relies on. *)
Lemma infix_of_window {A} n (x e s : list A) :
  (length x <= S n)%nat ->
  infix_of x (e ++ s) -> infix_of x e \/ infix_of x (last_n n e ++ s).
Proof.
  intros Hlen (a & b & Heq).
  destruct (decide (length a + length x <= length e)%nat) as [Hin|Hout].
  - left. exists a, (drop (length a + length x) e).
    assert (take (length a + length x) (e ++ s) = a ++ x) as Ht.
    { rewrite Heq, app_assoc, <- length_app. by rewrite take_app_length. }
    rewrite take_app_le in Ht by lia.
    rewrite app_assoc, <- Ht. by rewrite take_drop.
  - right. destruct (last_n_split n e) as [p Hp].
    assert (length p <= length a)%nat as Hpa.
    { pose proof (f_equal length Hp) as Hl.
      rewrite length_app, last_n_length in Hl. lia. }
    exists (drop (length p) a), b.
    assert (p ++ (last_n n e ++ s) = a ++ x ++ b) as Heq2 by (by rewrite app_assoc, <- Hp).
    apply (f_equal (drop (length p))) in Heq2.
    rewrite drop_app_length in Heq2. rewrite Heq2.
    by rewrite drop_app_le by lia.
Qed.
