(* ===== verification/GoNum.v ===== *)
(** * Go's fixed-width integers, durations and [strconv]

    Machine integers are [Z] with their wrap-around written out; a [time.Time] is its
    number of nanoseconds since the Unix epoch and a [time.Duration] an int64 number of
    nanoseconds.  [parse_int64] is [strconv.Atoi] / [strconv.ParseInt(s, 10, 64)] on a
    64-bit platform; [format_int] is [strconv.FormatInt(_, 10)]. *)

From stdpp Require Import pretty.
From S2P Require Import Prelude.

(** ** Widths *)

Definition min_int64 : Z := - 2 ^ 63.
Definition max_int64 : Z := 2 ^ 63 - 1.
Definition in_int64 (z : Z) : Prop := min_int64 <= z <= max_int64.
Definition wrap_int64 (z : Z) : Z := (z + 2 ^ 63) mod 2 ^ 64 - 2 ^ 63.
Definition wrap_uint32 (z : Z) : Z := z mod 2 ^ 32.
Definition wrap_uint64 (z : Z) : Z := z mod 2 ^ 64.

(** ** Time *)

Definition Microsecond : Z := 1000.
Definition Millisecond : Z := 1000 * Microsecond.
Definition Second : Z := 1000 * Millisecond.
Definition Minute : Z := 60 * Second.
Definition Hour : Z := 60 * Minute.

(** [Time.Sub] saturates. *)
Definition time_sub (t u : Z) : Z := Z.max min_int64 (Z.min max_int64 (t - u)).

(** [Duration.Milliseconds] truncates toward zero. *)
Definition duration_ms (d : Z) : Z := Z.quot d Millisecond.

(** [Time.UnixMilli]: seconds times 1000 plus the nanosecond part over 10^6. *)
Definition unix_milli (t : Z) : Z := t / Millisecond.

(** ** strconv *)

Definition byte_of_ascii (a : Ascii.ascii) : Z := Z.of_N (Ascii.N_of_ascii a).

Fixpoint digits_value (l : list Ascii.ascii) (acc : Z) : option Z :=
  match l with
  | [] => Some acc
  | c :: l =>
      let v := byte_of_ascii c in
      if (48 <=? v) && (v <=? 57) then digits_value l (10 * acc + (v - 48)) else None
  end.

(** An unsigned decimal: at least one digit. *)
Definition parse_digits (l : list Ascii.ascii) : option Z :=
  match l with [] => None | _ => digits_value l 0 end.

Definition parse_int64 (s : string) : option Z :=
  let value :=
    match String.list_ascii_of_string s with
    | c :: l =>
        if byte_of_ascii c =? 45 then Z.opp <$> parse_digits l
        else if byte_of_ascii c =? 43 then parse_digits l
        else parse_digits (c :: l)
    | [] => None
    end in
  match value with
  | Some v => if (min_int64 <=? v) && (v <=? max_int64) then Some v else None
  | None => None
  end.

Definition format_int (z : Z) : string := pretty z.
Definition format_uint (n : N) : string := pretty n.

(** ** Lemmas *)

Lemma wrap_int64_id z : in_int64 z -> wrap_int64 z = z.
Proof. unfold in_int64, wrap_int64, min_int64, max_int64. intros. rewrite Z.mod_small; lia. Qed.

Lemma wrap_int64_range z : in_int64 (wrap_int64 z).
Proof.
  unfold in_int64, wrap_int64, min_int64, max_int64.
  pose proof (Z.mod_pos_bound (z + 2 ^ 63) (2 ^ 64)). lia.
Qed.

Lemma wrap_uint32_range z : 0 <= wrap_uint32 z < 2 ^ 32.
Proof. apply Z.mod_pos_bound. lia. Qed.

Lemma time_sub_exact t u : in_int64 (t - u) -> time_sub t u = t - u.
Proof. unfold in_int64, time_sub. lia. Qed.

(** A saturated difference still compares correctly with any positive duration. *)
Lemma time_sub_ge t u d : 0 < d <= max_int64 -> d <= time_sub t u <-> d <= t - u.
Proof. unfold time_sub, min_int64, max_int64. lia. Qed.

Lemma time_sub_lt t u d : 0 < d <= max_int64 -> time_sub t u < d <-> t - u < d.
Proof. intros Hd. by rewrite !Z.lt_nge, time_sub_ge. Qed.

Lemma unix_milli_mono t u : t <= u -> unix_milli t <= unix_milli u.
Proof. intros. apply Z.div_le_mono; [done | lia]. Qed.

#[export] Hint Resolve wrap_int64_range wrap_uint32_range unix_milli_mono : gw.

Lemma parse_int64_range s v : parse_int64 s = Some v -> in_int64 v.
Proof.
  unfold parse_int64, in_int64.
  match goal with |- context [match ?o with Some _ => _ | None => _ end = _] => destruct o as [w|] end;
    [|done].
  destruct (_ && _)%bool eqn:E; [|done]. intros. simplify_eq. bool_lia.
Qed.
