(* ===== verification/GoStrings.v ===== *)
(** * Go strings: bytes, UTF-8 and the parts of package [strings] the gateway uses

    A Go string is an arbitrary byte sequence: Rocq's [string], whose characters are
    bytes.  The functions work on its bytes as numbers ([list Z], each in 0..255).
    [decode] is the range loop of Go (the rune and the bytes of each step, an ill-formed
    byte giving U+FFFD of width 1); because UTF-8 is self-synchronising, stepping
    backwards with [DecodeLastRune] meets the same runes, so the functions that scan from
    the end ([TrimSpace], [LastIndexAny]) are defined on the forward decoding. *)

From S2P Require Import Prelude.

(** ** Bytes *)

Definition is_byte (b : Z) : Prop := 0 <= b < 256.

Definition bytes (s : string) : list Z :=
  (fun a => Z.of_N (Ascii.N_of_ascii a)) <$> String.list_ascii_of_string s.

Definition of_bytes (l : list Z) : string :=
  String.string_of_list_ascii ((fun z => Ascii.ascii_of_N (Z.to_N z)) <$> l).

Definition str_len (s : string) : Z := Z.of_nat (length (bytes s)).

(** ** UTF-8 *)

Definition RuneError : Z := 65533.

Definition valid_rune (r : Z) : Prop := 0 <= r < 55296 \/ 57344 <= r <= 1114111.

#[export] Instance valid_rune_dec r : Decision (valid_rune r).
Proof. unfold valid_rune. apply _. Defined.

(** [utf8.AppendRune]. *)
Definition encode_valid (r : Z) : list Z :=
  if r <? 128 then [r]
  else if r <? 2048 then [192 + r / 64; 128 + r mod 64]
  else if r <? 65536 then [224 + r / 4096; 128 + (r / 64) mod 64; 128 + r mod 64]
  else [240 + r / 262144; 128 + (r / 4096) mod 64; 128 + (r / 64) mod 64; 128 + r mod 64].

Definition encode (r : Z) : list Z :=
  if decide (valid_rune r) then encode_valid r else encode_valid RuneError.

Definition encode_all (rs : list Z) : list Z := rs ≫= encode.

Definition cont (b : Z) : bool := (128 <=? b) && (b <? 192).

(** The second byte's range depends on the first (package utf8's [acceptRanges]). *)
Definition second_ok (b0 b1 : Z) : bool :=
  (if b0 =? 224 then 160 <=? b1 else if b0 =? 240 then 144 <=? b1 else 128 <=? b1) &&
  (if b0 =? 237 then b1 <=? 159 else if b0 =? 244 then b1 <=? 143 else b1 <=? 191).

Definition rune2 (b0 b1 : Z) : Z := (b0 - 192) * 64 + (b1 - 128).
Definition rune3 (b0 b1 b2 : Z) : Z := (b0 - 224) * 4096 + (b1 - 128) * 64 + (b2 - 128).
Definition rune4 (b0 b1 b2 b3 : Z) : Z :=
  (b0 - 240) * 262144 + (b1 - 128) * 4096 + (b2 - 128) * 64 + (b3 - 128).

(** The steps of [for _, r := range s]: each rune with the bytes it was read from. *)
Fixpoint decode (l : list Z) : list (Z * list Z) :=
  match l with
  | [] => []
  | b0 :: l1 =>
      if b0 <? 128 then (b0, [b0]) :: decode l1
      else
        match l1 with
        | b1 :: l2 =>
            if (194 <=? b0) && (b0 <=? 223) && cont b1
            then (rune2 b0 b1, [b0; b1]) :: decode l2
            else
              match l2 with
              | b2 :: l3 =>
                  if (224 <=? b0) && (b0 <=? 239) && second_ok b0 b1 && cont b2
                  then (rune3 b0 b1 b2, [b0; b1; b2]) :: decode l3
                  else
                    match l3 with
                    | b3 :: l4 =>
                        if (240 <=? b0) && (b0 <=? 244) && second_ok b0 b1 && cont b2 && cont b3
                        then (rune4 b0 b1 b2 b3, [b0; b1; b2; b3]) :: decode l4
                        else (RuneError, [b0]) :: decode l1
                    | [] => (RuneError, [b0]) :: decode l1
                    end
              | [] => (RuneError, [b0]) :: decode l1
              end
        | [] => [(RuneError, [b0])]
        end
  end.

(** [[]rune(s)] and [string(runes)]. *)
Definition runes (s : string) : list Z := fst <$> decode (bytes s).
Definition string_of_runes (rs : list Z) : string := of_bytes (encode_all rs).

(** Well-formed UTF-8: what proto3 and encoding/json hand to the gateway. *)
Definition valid_utf8 (s : string) : Prop :=
  exists rs, Forall valid_rune rs /\ s = string_of_runes rs.

(** ** Package strings *)

(** [unicode.IsSpace]: the White_Space property. *)
Definition is_space (r : Z) : bool :=
  ((9 <=? r) && (r <=? 13)) || (r =? 32) || (r =? 133) || (r =? 160) || (r =? 5760) ||
  ((8192 <=? r) && (r <=? 8202)) || (r =? 8232) || (r =? 8233) || (r =? 8239) ||
  (r =? 8287) || (r =? 12288).

Fixpoint drop_while {A} (f : A -> bool) (l : list A) : list A :=
  match l with
  | [] => []
  | x :: l' => if f x then drop_while f l' else l
  end.

Definition drop_while_end {A} (f : A -> bool) (l : list A) : list A :=
  reverse (drop_while f (reverse l)).

Definition TrimSpace (s : string) : string :=
  let sp := fun c : Z * list Z => is_space c.1 in
  of_bytes (drop_while_end sp (drop_while sp (decode (bytes s))) ≫= snd).

(** [strings.TrimRight(s, "/")]. *)
Definition TrimRight_slash (s : string) : string :=
  of_bytes (drop_while_end (fun b => b =? 47) (bytes s)).

Fixpoint prefix_b (p l : list Z) : bool :=
  match p, l with
  | [], _ => true
  | x :: p, y :: l => (x =? y) && prefix_b p l
  | _ :: _, [] => false
  end.

Definition HasPrefix (s p : string) : bool := prefix_b (bytes p) (bytes s).

Definition TrimPrefix (s p : string) : string :=
  if HasPrefix s p then of_bytes (drop (length (bytes p)) (bytes s)) else s.

(** First position of [p] in [l] ([strings.Index]). *)
Fixpoint index_bytes (p l : list Z) : option nat :=
  if prefix_b p l then Some 0%nat
  else match l with
       | [] => None
       | _ :: l => S <$> index_bytes p l
       end.

Definition contains_b (l p : list Z) : bool := bool_decide (is_Some (index_bytes p l)).
Definition Contains (s p : string) : bool := contains_b (bytes s) (bytes p).

(** [strings.Cut]. *)
Definition Cut (s sep : string) : string * string * bool :=
  match index_bytes (bytes sep) (bytes s) with
  | Some i => (of_bytes (take i (bytes s)),
               of_bytes (drop (i + length (bytes sep)) (bytes s)), true)
  | None => (s, "", false)
  end.

(** [strings.Split] on a one-byte separator. *)
Fixpoint split_bytes (c : Z) (cur l : list Z) : list (list Z) :=
  match l with
  | [] => [cur]
  | b :: l => if b =? c then cur :: split_bytes c [] l else split_bytes c (cur ++ [b]) l
  end.

Definition Split (s : string) (c : Ascii.ascii) : list string :=
  of_bytes <$> split_bytes (Z.of_N (Ascii.N_of_ascii c)) [] (bytes s).

(** [strings.LastIndex] of a one-byte separator. *)
Fixpoint last_index_byte (c : Z) (l : list Z) : option nat :=
  match l with
  | [] => None
  | b :: l =>
      match last_index_byte c l with
      | Some i => Some (S i)
      | None => if b =? c then Some 0%nat else None
      end
  end.

(** [strings.LastIndexAny]: byte offset and width of the last rune satisfying [f]. *)
Fixpoint last_index_any (f : Z -> bool) (cs : list (Z * list Z)) : option (nat * nat) :=
  match cs with
  | [] => None
  | (r, bs) :: cs =>
      match last_index_any f cs with
      | Some (i, w) => Some ((length bs + i)%nat, w)
      | None => if f r then Some (0%nat, length bs) else None
      end
  end.

(** [strings.ReplaceAll] with a non-empty [old]; [skip] counts the bytes of a match
    still to be dropped. *)
Fixpoint replace_bytes (old new : list Z) (skip : nat) (l : list Z) : list Z :=
  match l with
  | [] => []
  | b :: l' =>
      match skip with
      | S k => replace_bytes old new k l'
      | O => if prefix_b old l then new ++ replace_bytes old new (length old - 1) l'
             else b :: replace_bytes old new 0 l'
      end
  end.

Definition ReplaceAll (s old new : string) : string :=
  of_bytes (replace_bytes (bytes old) (bytes new) 0 (bytes s)).

Definition ascii_lower (b : Z) : Z := if (65 <=? b) && (b <=? 90) then b + 32 else b.

(** [strings.EqualFold] against a constant none of whose letters folds to a non-ASCII
    rune: comparison up to ASCII case. *)
Definition EqualFold_ascii (s t : string) : bool :=
  bool_decide (ascii_lower <$> bytes s = ascii_lower <$> bytes t).

(** ** Unicode case mapping

    [unicode.ToLower] is a character table; the development uses it through this class,
    which only says that it maps valid runes to valid runes.  [ascii_case] is its
    restriction to ASCII. *)

Class UnicodeCase := {
  rune_lower : Z -> Z;
  rune_lower_valid : forall r, valid_rune r -> valid_rune (rune_lower r)
}.

(** [strings.ToLower]: rune by rune, ill-formed bytes becoming U+FFFD. *)
Definition ToLower `{UnicodeCase} (s : string) : string :=
  string_of_runes (rune_lower <$> runes s).

(** ** Lemmas: bytes and strings *)

Lemma of_bytes_bytes s : of_bytes (bytes s) = s.
Proof.
  unfold of_bytes, bytes. rewrite <- list_fmap_compose.
  rewrite <- (String.string_of_list_ascii_of_string s) at 2. f_equal.
  rewrite <- (list_fmap_id (String.list_ascii_of_string s)) at 2.
  apply list_fmap_ext. intros i a _. simpl.
  by rewrite N2Z.id, Ascii.ascii_N_embedding.
Qed.

Lemma bytes_of_bytes l : Forall is_byte l -> bytes (of_bytes l) = l.
Proof.
  intros Hl. unfold of_bytes, bytes.
  rewrite String.list_ascii_of_string_of_list_ascii, <- list_fmap_compose.
  rewrite <- (list_fmap_id l) at 2.
  apply list_fmap_ext. intros i b Hb. simpl.
  rewrite Forall_lookup in Hl. specialize (Hl _ _ Hb). unfold is_byte in Hl.
  rewrite Ascii.N_ascii_embedding by lia. lia.
Qed.

Lemma bytes_range s : Forall is_byte (bytes s).
Proof.
  unfold bytes. apply Forall_fmap, Forall_true. intros a. unfold is_byte; simpl.
  pose proof (Ascii.N_ascii_bounded a). lia.
Qed.

Lemma bytes_inj s t : bytes s = bytes t -> s = t.
Proof. intros H. rewrite <- (of_bytes_bytes s), <- (of_bytes_bytes t). by rewrite H. Qed.

Lemma bytes_app s t : bytes (s +:+ t) = bytes s ++ bytes t.
Proof. unfold bytes. induction s as [|a s IH]; simpl; [done|]. by f_equal. Qed.

Lemma of_bytes_app l k : of_bytes (l ++ k) = of_bytes l +:+ of_bytes k.
Proof.
  unfold of_bytes. induction l as [|b l IH]; [done|].
  rewrite <- app_comm_cons, !fmap_cons. cbn [String.string_of_list_ascii].
  rewrite IH. done.
Qed.

Lemma bytes_nil s : bytes s = [] <-> s = "".
Proof. split; [|by intros ->]. intros H. apply bytes_inj. by rewrite H. Qed.

Lemma string_app_assoc (s t u : string) : s +:+ (t +:+ u) = (s +:+ t) +:+ u.
Proof. apply bytes_inj. by rewrite !bytes_app, app_assoc. Qed.

Lemma string_app_nil_r (s : string) : s +:+ "" = s.
Proof. apply bytes_inj. by rewrite bytes_app, app_nil_r. Qed.

#[export] Hint Resolve bytes_range : gw.
Create Rewrite HintDb gw.
#[export] Hint Rewrite of_bytes_bytes bytes_app of_bytes_app : gw.

(** ** Lemmas: UTF-8 *)

Ltac Zify.zify_post_hook ::= Z.div_mod_to_equations.

(** A lead byte followed by continuation bytes. *)
Lemma encode_valid_shape r :
  valid_rune r ->
  exists b bs, encode_valid r = b :: bs /\ cont b = false /\ is_byte b /\
    Forall (fun c => cont c = true /\ is_byte c) bs.
Proof.
  unfold valid_rune, encode_valid, cont, is_byte. intros Hr.
  destruct (r <? 128) eqn:?; [|destruct (r <? 2048) eqn:?; [|destruct (r <? 65536) eqn:?]];
    eexists _, _; (split; [reflexivity|]); rewrite ?Forall_cons, ?Forall_nil;
    repeat split; lia.
Qed.

Lemma encode_shape r :
  exists b bs, encode r = b :: bs /\ cont b = false /\ is_byte b /\
    Forall (fun c => cont c = true /\ is_byte c) bs.
Proof.
  unfold encode. case_decide; apply encode_valid_shape; [done|].
  unfold valid_rune, RuneError. lia.
Qed.

Lemma encode_bytes r : Forall is_byte (encode r).
Proof.
  destruct (encode_shape r) as (b & bs & -> & _ & Hb & Hbs). constructor; [done|].
  eapply Forall_impl; [exact Hbs|]. naive_solver.
Qed.

Lemma encode_all_bytes rs : Forall is_byte (encode_all rs).
Proof. unfold encode_all. apply Forall_bind, Forall_true. apply encode_bytes. Qed.

Lemma encode_all_app rs qs : encode_all (rs ++ qs) = encode_all rs ++ encode_all qs.
Proof. apply bind_app. Qed.

Lemma encode_all_cons r rs : encode_all (r :: rs) = encode r ++ encode_all rs.
Proof. done. Qed.

Lemma encode_all_nil_inv rs : encode_all rs = [] -> rs = [].
Proof.
  destruct rs as [|r rs]; [done|]. rewrite encode_all_cons.
  by destruct (encode_shape r) as (b & bs & -> & _).
Qed.

#[export] Hint Resolve encode_bytes encode_all_bytes : gw.

Lemma decode_cons b0 l1 :
  decode (b0 :: l1) =
  if b0 <? 128 then (b0, [b0]) :: decode l1 else
  match l1 with
  | [] => [(RuneError, [b0])]
  | b1 :: l2 =>
    if (194 <=? b0) && (b0 <=? 223) && cont b1 then (rune2 b0 b1, [b0; b1]) :: decode l2 else
    match l2 with
    | [] => (RuneError, [b0]) :: decode l1
    | b2 :: l3 =>
      if (224 <=? b0) && (b0 <=? 239) && second_ok b0 b1 && cont b2
      then (rune3 b0 b1 b2, [b0; b1; b2]) :: decode l3 else
      match l3 with
      | [] => (RuneError, [b0]) :: decode l1
      | b3 :: l4 =>
        if (240 <=? b0) && (b0 <=? 244) && second_ok b0 b1 && cont b2 && cont b3
        then (rune4 b0 b1 b2 b3, [b0; b1; b2; b3]) :: decode l4
        else (RuneError, [b0]) :: decode l1
      end
    end
  end.
Proof. reflexivity. Qed.

Lemma decode_encode r l :
  valid_rune r -> decode (encode r ++ l) = (r, encode r) :: decode l.
Proof.
  intros Hr. unfold encode. rewrite decide_True by done.
  unfold valid_rune in Hr. unfold encode_valid.
  destruct (r <? 128) eqn:?; [|destruct (r <? 2048) eqn:?; [|destruct (r <? 65536) eqn:?]];
    rewrite <- ?app_comm_cons, app_nil_l, decode_cons.
  - by rewrite Heqb.
  - unfold cont, rune2.
    do 2 (case_goal; [try lia|]; try lia). repeat f_equal; lia.
  - unfold cont, second_ok, rune3.
    repeat (case_goal; try lia). all: try (repeat f_equal; lia).
  - unfold cont, second_ok, rune4.
    repeat (case_goal; try lia). all: try (repeat f_equal; lia).
Qed.

Lemma decode_encode_all_app rs l :
  Forall valid_rune rs ->
  decode (encode_all rs ++ l) = ((fun r => (r, encode r)) <$> rs) ++ decode l.
Proof.
  induction 1 as [|r rs Hr _ IH]; [done|].
  by rewrite encode_all_cons, <- app_assoc, decode_encode, IH.
Qed.

Lemma decode_encode_all rs :
  Forall valid_rune rs -> decode (encode_all rs) = (fun r => (r, encode r)) <$> rs.
Proof.
  intros H. pose proof (decode_encode_all_app rs [] H) as E.
  by rewrite !app_nil_r in E.
Qed.

Lemma bytes_string_of_runes rs : bytes (string_of_runes rs) = encode_all rs.
Proof. apply bytes_of_bytes, encode_all_bytes. Qed.

Lemma runes_string_of_runes rs : Forall valid_rune rs -> runes (string_of_runes rs) = rs.
Proof.
  intros H. unfold runes. rewrite bytes_string_of_runes, decode_encode_all by done.
  rewrite <- list_fmap_compose. apply list_fmap_id.
Qed.

Lemma string_of_runes_app rs qs :
  string_of_runes (rs ++ qs) = string_of_runes rs +:+ string_of_runes qs.
Proof. unfold string_of_runes. by rewrite encode_all_app, of_bytes_app. Qed.

Lemma string_of_runes_nil_inv rs : string_of_runes rs = "" -> rs = [].
Proof.
  intros H. apply encode_all_nil_inv. rewrite <- bytes_string_of_runes. by rewrite H.
Qed.

Lemma string_of_runes_inj rs qs :
  Forall valid_rune rs -> Forall valid_rune qs ->
  string_of_runes rs = string_of_runes qs -> rs = qs.
Proof.
  intros Hr Hq H. rewrite <- (runes_string_of_runes rs), <- (runes_string_of_runes qs) by done.
  by rewrite H.
Qed.

Lemma valid_utf8_app s t : valid_utf8 s -> valid_utf8 t -> valid_utf8 (s +:+ t).
Proof.
  intros (rs & Hr & ->) (qs & Hq & ->). exists (rs ++ qs).
  rewrite string_of_runes_app. split; [by apply Forall_app | done].
Qed.

Lemma runes_app s t : valid_utf8 s -> valid_utf8 t -> runes (s +:+ t) = runes s ++ runes t.
Proof.
  intros (rs & Hr & ->) (qs & Hq & ->).
  rewrite <- string_of_runes_app, !runes_string_of_runes; [done..|by apply Forall_app].
Qed.

#[export] Hint Resolve valid_utf8_app : gw.

(** A block of encoded runes starts on a rune boundary of the text it occurs in. *)
Lemma encode_all_aligned w rs x y :
  w <> [] -> encode_all rs = x ++ encode_all w ++ y ->
  exists p q, rs = p ++ q /\ x = encode_all p /\ encode_all q = encode_all w ++ y.
Proof.
  intros Hw. revert x. induction rs as [|r rs IH]; intros x Heq.
  - symmetry in Heq. apply app_nil in Heq as [-> Heq].
    by exists [], [].
  - destruct x as [|b x]; [by exists [], (r :: rs)|].
    rewrite encode_all_cons in Heq.
    destruct (encode_shape r) as (h & bs & Hr & Hh & _ & Hbs).
    rewrite Hr in Heq. injection Heq as -> Heq.
    destruct (decide (length bs <= length x)%nat) as [Hle|Hgt].
    + rewrite <- (take_drop (length bs) x), <- app_assoc in Heq.
      apply app_inj_1 in Heq as [Hbs' Heq]; [|rewrite length_take; lia].
      destruct (IH _ Heq) as (p & q & -> & Hp & Hq).
      exists (r :: p), q. split_and!; [done| |done].
      rewrite encode_all_cons, Hr, <- Hp. simpl. f_equal.
      rewrite Hbs' at 1. by rewrite take_drop.
    + exfalso. destruct w as [|w0 w]; [done|].
      destruct (encode_shape w0) as (h' & bs' & Hw0 & Hh' & _).
      rewrite encode_all_cons, Hw0 in Heq.
      assert (bs !! length x = Some h') as Hx.
      { rewrite <- (lookup_app_l bs (encode_all rs)) by lia.
        rewrite Heq, lookup_app_r, Nat.sub_diag by lia. done. }
      rewrite Forall_lookup in Hbs. destruct (Hbs _ _ Hx). congruence.
Qed.

(** Encodings are prefix-free. *)
Lemma encode_all_prefix w q y :
  Forall valid_rune w -> Forall valid_rune q -> encode_all q = encode_all w ++ y ->
  exists q', q = w ++ q'.
Proof.
  intros Hw. revert q. induction Hw as [|r w Hr Hw IH]; intros q Hq Heq.
  - by exists q.
  - destruct q as [|r' q].
    { exfalso. rewrite encode_all_cons in Heq.
      destruct (encode_shape r) as (? & ? & Hs & _). by rewrite Hs in Heq. }
    apply Forall_cons in Hq as [Hr' Hq].
    rewrite !encode_all_cons, <- app_assoc in Heq.
    pose proof (f_equal decode Heq) as Hd. rewrite !decode_encode in Hd by done.
    injection Hd as -> _ _. apply app_inv_head in Heq.
    destruct (IH _ Hq Heq) as [q' ->]. by exists q'.
Qed.

Lemma prefix_b_spec p l : prefix_b p l = true <-> exists k, l = p ++ k.
Proof.
  revert l. induction p as [|x p IH]; intros [|y l]; simpl.
  - split; [by exists []|done].
  - split; [by exists (y :: l)|done].
  - split; [done|]. by intros [k ?].
  - rewrite andb_true_iff, IH, Z.eqb_eq. split.
    + intros (-> & k & ->). by exists k.
    + intros [k [= -> ->]]. split; [done|]. by exists k.
Qed.

Lemma index_bytes_Some p l i :
  index_bytes p l = Some i -> exists a b, l = a ++ p ++ b /\ length a = i.
Proof.
  revert i. induction l as [|x l IH]; intros i; simpl; case_goal.
  - intros [= <-]. apply prefix_b_spec in Heqb as [k ->]. by exists [], k.
  - done.
  - intros [= <-]. apply prefix_b_spec in Heqb as [k ->]. by exists [], k.
  - intros H. apply fmap_Some in H as (j & Hj & ->).
    destruct (IH _ Hj) as (a & b & -> & <-). by exists (x :: a), b.
Qed.

Lemma index_bytes_None p l : index_bytes p l = None -> ~ infix_of p l.
Proof.
  induction l as [|x l IH]; simpl; case_goal; try done.
  - intros _ (a & b & H). symmetry in H. apply app_nil in H as [-> H].
    apply app_nil in H as [-> _]. done.
  - intros H (a & b & Heq). apply fmap_None in H. apply IH; [done|].
    destruct a as [|y a]; simpl in Heq.
    + assert (prefix_b p (x :: l) = true) by (apply prefix_b_spec; eauto). congruence.
    + injection Heq as -> ->. by exists a, b.
Qed.

Lemma contains_b_spec l p : contains_b l p = true <-> infix_of p l.
Proof.
  unfold contains_b. rewrite bool_decide_eq_true. split.
  - intros [i H]. destruct (index_bytes_Some _ _ _ H) as (a & b & -> & _). by exists a, b.
  - destruct (index_bytes p l) eqn:E; [eauto|]. intros Hi.
    by destruct (index_bytes_None _ _ E).
Qed.

(** Searching bytes is searching runes. *)
Lemma Contains_runes rs w :
  w <> [] -> Forall valid_rune w -> Forall valid_rune rs ->
  Contains (string_of_runes rs) (string_of_runes w) = true <-> infix_of w rs.
Proof.
  intros Hne Hw Hr. unfold Contains. rewrite contains_b_spec, !bytes_string_of_runes. split.
  - intros (a & b & Heq). destruct (encode_all_aligned _ _ _ _ Hne Heq) as (p & q & -> & _ & Hq).
    apply Forall_app in Hr as [_ Hr].
    destruct (encode_all_prefix _ _ _ Hw Hr Hq) as [q' ->]. by exists p, q'.
  - intros (a & b & ->). exists (encode_all a), (encode_all b).
    by rewrite !encode_all_app.
Qed.

Lemma infix_of_nil {A} (l : list A) : infix_of [] l.
Proof. by exists [], l. Qed.
