(* ===== verification/GoErr.v ===== *)
(** * Error values

    Go errors with the parts of their identity the gateway inspects: the sentinels it
    compares with [errors.Is] and the three typed Dify errors it extracts with
    [errors.As].  [EWrap] is [fmt.Errorf] with [%w]; [EText] is an error nobody looks
    into (a plain [fmt.Errorf], or an error of code outside the repository). *)

From S2P Require Import Prelude GoNum GoStrings.

(** The sentinel values: the gateway's own and those of the packages it calls. *)
Inductive sentinel :=
| ErrRateLimited | ErrBudgetExceeded | ErrInflightFull | ErrCircuitOpen
| ErrStreamIncomplete | ErrFrameTooLarge | ErrInvalidToken | ErrExpiredToken
| IoEOF | IoErrUnexpectedEOF | CtxCanceled | CtxDeadlineExceeded
| RedisNil | JwtErrTokenExpired.

#[export] Instance sentinel_eq_dec : EqDecision sentinel.
Proof. solve_decision. Defined.

(** Dify's typed errors. *)
Record UpstreamError := {
  Operation : string;
  StatusCode : Z;
  ErrBody : string;
  RetryAfter : Z
}.

Record StreamError := { SE_Code : string; SE_Message : string }.

Record MessageReplaceError := { Fallback : string }.

#[export] Instance upstream_error_eq_dec : EqDecision UpstreamError.
Proof. solve_decision. Defined.
#[export] Instance stream_error_eq_dec : EqDecision StreamError.
Proof. solve_decision. Defined.
#[export] Instance replace_error_eq_dec : EqDecision MessageReplaceError.
Proof. solve_decision. Defined.

Inductive error :=
| ESentinel (s : sentinel)
| EText (msg : string)
| EWrap (msg : string) (e : error)
| EUpstream (u : UpstreamError)
| EStream (e : StreamError)
| EReplace (e : MessageReplaceError).

#[export] Instance error_eq_dec : EqDecision error.
Proof. solve_decision. Defined.

(** [errors.Is] and [errors.As] walk the chain of wrapped errors. *)
Fixpoint errors_is (e : error) (s : sentinel) : bool :=
  match e with
  | ESentinel s' => bool_decide (s' = s)
  | EWrap _ e => errors_is e s
  | _ => false
  end.

Fixpoint as_upstream (e : error) : option UpstreamError :=
  match e with EUpstream u => Some u | EWrap _ e => as_upstream e | _ => None end.

Fixpoint as_stream (e : error) : option StreamError :=
  match e with EStream s => Some s | EWrap _ e => as_stream e | _ => None end.

Fixpoint as_replace (e : error) : option MessageReplaceError :=
  match e with EReplace r => Some r | EWrap _ e => as_replace e | _ => None end.

(** The [Error] methods. *)
Definition UpstreamError_Error (u : UpstreamError) : string :=
  let head := "Dify " +:+ Operation u +:+ " returned HTTP " +:+ format_int (StatusCode u) in
  if bool_decide (ErrBody u = "") then head else head +:+ ": " +:+ ErrBody u.

Definition StreamError_Error (e : StreamError) : string :=
  if bool_decide (SE_Code e = "") then SE_Message e else SE_Code e +:+ ": " +:+ SE_Message e.

Definition MessageReplaceError_Error (e : MessageReplaceError) : string :=
  "message replaced by upstream moderation".
