(* ===== verification/Proto.v ===== *)
(** * The client protocol's messages

    The messages of api/proto (as protoc-gen-go declares them in gateway.pb.go): a
    record per message, an inductive type per [oneof]; an envelope whose body is unset
    (empty or unknown frame) is [None]. *)

From S2P Require Import Prelude.

Record AuthRequest := { SessionToken : string; Auth_PlayerId : string }.

Record ChatRequest := {
  Chat_RequestId : string;
  Chat_ConversationId : string;
  Chat_NpcId : string;
  Chat_Query : string;
  Chat_Context : gmap string string
}.

Record StopRequest := { Stop_RequestId : string }.

Record ResetRequest := { Reset_RequestId : string; Reset_NpcId : string }.

Inductive ClientBody :=
| Client_Auth (m : AuthRequest)
| Client_Chat (m : ChatRequest)
| Client_Stop (m : StopRequest)
| Client_Ping
| Client_Reset (m : ResetRequest).

Definition ClientEnvelope : Type := option ClientBody.

Record AuthResult := { AR_Ok : bool; AR_Reason : string }.
Record ChatChunk := { CC_RequestId : string; CC_Delta : string }.
Record ChatDone := { CD_RequestId : string; CD_ConversationId : string; CD_TotalTokens : Z }.
Record ErrorMsg := { EM_RequestId : string; EM_Code : string; EM_Message : string }.
Record ChatBlocked := { CB_RequestId : string; CB_Fallback : string }.

Inductive ServerEnvelope :=
| Server_AuthResult (m : AuthResult)
| Server_Chunk (m : ChatChunk)
| Server_Done (m : ChatDone)
| Server_Error (m : ErrorMsg)
| Server_Pong
| Server_Blocked (m : ChatBlocked).

#[export] Instance AuthResult_eq_dec : EqDecision AuthResult.
Proof. solve_decision. Defined.
#[export] Instance ChatChunk_eq_dec : EqDecision ChatChunk.
Proof. solve_decision. Defined.
#[export] Instance ChatDone_eq_dec : EqDecision ChatDone.
Proof. solve_decision. Defined.
#[export] Instance ErrorMsg_eq_dec : EqDecision ErrorMsg.
Proof. solve_decision. Defined.
#[export] Instance ChatBlocked_eq_dec : EqDecision ChatBlocked.
Proof. solve_decision. Defined.
#[export] Instance ServerEnvelope_eq_dec : EqDecision ServerEnvelope.
Proof. solve_decision. Defined.

(** The frames that end a request's turn (the proto's comment on ChatBlocked, and what
    a client's reader waits for). *)
Definition terminal (e : ServerEnvelope) : bool :=
  match e with
  | Server_Done _ | Server_Error _ | Server_Blocked _ => true
  | _ => false
  end.

Definition is_chunk (e : ServerEnvelope) : bool :=
  match e with Server_Chunk _ => true | _ => false end.

(** The request an envelope answers. *)
Definition envelope_request (e : ServerEnvelope) : option string :=
  match e with
  | Server_Chunk m => Some (CC_RequestId m)
  | Server_Done m => Some (CD_RequestId m)
  | Server_Error m => Some (EM_RequestId m)
  | Server_Blocked m => Some (CB_RequestId m)
  | _ => None
  end.
