(* ===== verification/Codec.v ===== *)
(** * internal/codec: length-prefixed frames over a byte stream

    [WriteFrame] and [ReadFrame] of frame.go and the envelope helpers of envelope.go.  An
    [io.Reader] is the list of the chunks its successive reads will deliver followed by
    the error it then returns for good, so [io.ReadFull]'s loop over short reads is
    explicit; an [io.Writer] is a function on some writer state.  The protobuf library is
    a pair of parameters ([Marshal], [Unmarshal]).  The module [Spec] is the reference:
    frames read off a flat byte string, with no reader. *)

From Stdlib Require Import Strings.Byte.
From S2P Require Import Prelude GoNum GoErr.

#[export] Instance byte_eq_dec : EqDecision byte.
Proof. exact Byte.byte_eq_dec. Defined.

(** ** Bytes and big-endian words (encoding/binary) *)

Definition byte_of_Z (z : Z) : byte :=
  match Byte.of_N (Z.to_N (z mod 256)) with Some b => b | None => x00 end.

Definition byte_to_Z (b : byte) : Z := Z.of_N (Byte.to_N b).

Definition PutUint32 (n : Z) : list byte :=
  [byte_of_Z (n / 2 ^ 24); byte_of_Z (n / 2 ^ 16); byte_of_Z (n / 2 ^ 8); byte_of_Z n].

Definition Uint32 (l : list byte) : Z :=
  foldl (fun acc b => acc * 256 + byte_to_Z b) 0 l.

(** ** Frames *)

Definition MaxFrameSize : Z := Z.shiftl 4 20.
Definition lengthPrefixSize : nat := 4.

Definition frame (payload : list byte) : list byte :=
  PutUint32 (wrap_uint32 (Z.of_nat (length payload))) ++ payload.

Section Writer.
Context {W : Type} (Write : W -> list byte -> W * option error).

Definition WriteFrame (w : W) (payload : list byte) : W * option error :=
  if MaxFrameSize <? Z.of_nat (length payload)
  then (w, Some (EWrap (format_int (Z.of_nat (length payload)) +:+ " bytes")
                       (ESentinel ErrFrameTooLarge)))
  else
    match Write w (frame payload) with
    | (w', Some err) => (w', Some (EWrap "codec: write frame" err))
    | (w', None) => (w', None)
    end.
End Writer.

(** ** Readers *)

Record reader := { pending : list (list byte); fin : error }.

(** [io.ReadAtLeast(r, buf, need)]: read until [need] more bytes are in; the chunks left
    and whether the reader ran dry first. *)
Fixpoint read_loop (need : nat) (got : list byte) (cs : list (list byte)) :
    list byte * list (list byte) * bool :=
  match need with
  | O => (got, cs, true)
  | _ =>
      match cs with
      | [] => (got, [], false)
      | c :: cs =>
          if (length c <=? need)%nat
          then read_loop (need - length c) (got ++ c) cs
          else (got ++ take need c, drop need c :: cs, true)
      end
  end.

Definition ReadFull (n : nat) (r : reader) : reader * res error (list byte) :=
  match read_loop n [] (pending r) with
  | (got, cs, true) => ({| pending := cs; fin := fin r |}, Ok got)
  | (got, cs, false) =>
      ({| pending := cs; fin := fin r |},
       Err (if bool_decide (got <> []) && bool_decide (fin r = ESentinel IoEOF)
            then ESentinel IoErrUnexpectedEOF else fin r))
  end.

Definition ReadFrame (r : reader) : reader * res error (list byte) :=
  match ReadFull lengthPrefixSize r with
  | (r, Err e) => (r, Err e)
  | (r, Ok header) =>
      let n := Uint32 header in
      if MaxFrameSize <? n
      then (r, Err (EWrap (format_int n +:+ " bytes") (ESentinel ErrFrameTooLarge)))
      else if n =? 0 then (r, Ok [])
      else
        match ReadFull (Z.to_nat n) r with
        | (r, Err e) => (r, Err (if errors_is e IoEOF then ESentinel IoErrUnexpectedEOF else e))
        | (r, Ok payload) => (r, Ok payload)
        end
  end.

(** ** Envelopes *)

Section Envelope.
Context {msg : Type}.
Context (Marshal : msg -> res error (list byte)) (Unmarshal : list byte -> res error msg).
Context {W : Type} (Write : W -> list byte -> W * option error).

Definition WriteEnvelope (w : W) (m : msg) : W * option error :=
  match Marshal m with
  | Err e => (w, Some (EWrap "codec: marshal envelope" e))
  | Ok payload => WriteFrame Write w payload
  end.

(** [ReadClientEnvelope] and [ReadServerEnvelope] differ in the message type and in
    the word of the error. *)
Definition ReadEnvelope (kind : string) (r : reader) : reader * res error msg :=
  match ReadFrame r with
  | (r, Err e) => (r, Err e)
  | (r, Ok payload) =>
      match Unmarshal payload with
      | Err e => (r, Err (EWrap ("codec: unmarshal " +:+ kind +:+ " envelope") e))
      | Ok env => (r, Ok env)
      end
  end.

Definition ReadClientEnvelope := ReadEnvelope "client".
Definition ReadServerEnvelope := ReadEnvelope "server".
End Envelope.

(** ** Reference: frames of a flat byte string *)

Module Spec.

(** What [ReadFrame] promises on the bytes [l] with [e] after them: the outcome and the
    bytes left. *)
Definition read (l : list byte) (e : error) : list byte * res error (list byte) :=
  let short := if bool_decide (e = ESentinel IoEOF) then ESentinel IoErrUnexpectedEOF else e in
  if (length l <? 4)%nat
  then ([], Err (if bool_decide (l = []) then e else short))
  else
    let n := Uint32 (take 4 l) in
    let body := drop 4 l in
    if MaxFrameSize <? n
    then (body, Err (EWrap (format_int n +:+ " bytes") (ESentinel ErrFrameTooLarge)))
    else if Z.of_nat (length body) <? n
    then ([], Err (if bool_decide (body = []) && errors_is e IoEOF
                   then ESentinel IoErrUnexpectedEOF
                   else if errors_is short IoEOF then ESentinel IoErrUnexpectedEOF else short))
    else (drop (Z.to_nat n) body, Ok (take (Z.to_nat n) body)).

(** All the frames of a byte string; [None] when it does not end on a frame boundary. *)
Fixpoint frames (fuel : nat) (l : list byte) : option (list (list byte)) :=
  match l with
  | [] => Some []
  | _ =>
      match fuel with
      | O => None
      | S fuel =>
          match read l (ESentinel IoEOF) with
          | (rest, Ok p) => cons p <$> frames fuel rest
          | (_, Err _) => None
          end
      end
  end.

End Spec.

(** ** Lemmas: bytes *)

Lemma byte_to_Z_range b : 0 <= byte_to_Z b < 256.
Proof. unfold byte_to_Z. pose proof (Byte.to_N_bounded b). lia. Qed.

Lemma byte_to_of_Z z : byte_to_Z (byte_of_Z z) = z mod 256.
Proof.
  unfold byte_to_Z, byte_of_Z. pose proof (Z.mod_pos_bound z 256).
  destruct (Byte.of_N _) as [b|] eqn:E.
  - apply Byte.to_of_N in E. rewrite E. lia.
  - apply Byte.of_N_None_iff in E. lia.
Qed.

Lemma Uint32_PutUint32 n : 0 <= n < 2 ^ 32 -> Uint32 (PutUint32 n) = n.
Proof.
  intros. unfold Uint32, PutUint32. cbn [foldl]. rewrite !byte_to_of_Z.
  Z.to_euclidean_division_equations. lia.
Qed.

Lemma Uint32_range l : (length l <= 4)%nat -> 0 <= Uint32 l < 2 ^ 32.
Proof.
  intros Hl. unfold Uint32.
  destruct l as [|a [|b [|c [|d [|]]]]]; simpl in *; try lia;
    repeat match goal with |- context [byte_to_Z ?x] =>
      lazymatch goal with H : 0 <= byte_to_Z x < 256 |- _ => fail | _ =>
        pose proof (byte_to_Z_range x) end end; lia.
Qed.

(** ** Lemmas: reading does not depend on how the bytes were chunked *)

Definition flat (r : reader) : list byte := concat (pending r).

Lemma read_loop_spec need got cs :
  if (need <=? length (concat cs))%nat
  then exists rest, read_loop need got cs = (got ++ take need (concat cs), rest, true) /\
                    concat rest = drop need (concat cs)
  else read_loop need got cs = (got ++ concat cs, [], false).
Proof.
  revert need got. induction cs as [|c cs IH]; intros need got.
  - destruct need; simpl; [|by rewrite app_nil_r].
    exists []. by rewrite app_nil_r.
  - destruct need as [|m]; cbn [read_loop].
    { simpl. exists (c :: cs). rewrite take_0, app_nil_r. done. }
    destruct (Nat.leb_spec (length c) (S m)) as [Hle|Hgt].
    + specialize (IH (S m - length c)%nat (got ++ c)).
      cbn [concat]. rewrite length_app.
      destruct (Nat.leb_spec (S m) (length c + length (concat cs))),
        (Nat.leb_spec (S m - length c) (length (concat cs))); try lia.
      * destruct IH as (rest & -> & Hr). exists rest.
        rewrite take_app_ge, drop_app_ge by lia. by rewrite <- app_assoc.
      * rewrite IH. by rewrite <- app_assoc.
    + cbn [concat]. rewrite length_app.
      destruct (Nat.leb_spec (S m) (length c + length (concat cs))); [|lia].
      eexists. rewrite take_app_le, drop_app_le by lia. done.
Qed.

Lemma ReadFull_spec n r :
  exists r', fin r' = fin r /\
    if (n <=? length (flat r))%nat
    then ReadFull n r = (r', Ok (take n (flat r))) /\ flat r' = drop n (flat r)
    else ReadFull n r = (r', Err (if bool_decide (flat r <> []) && bool_decide (fin r = ESentinel IoEOF)
                                  then ESentinel IoErrUnexpectedEOF else fin r)) /\ flat r' = [].
Proof.
  unfold ReadFull. pose proof (read_loop_spec n [] (pending r)) as H. unfold flat in *.
  destruct (n <=? length (concat (pending r)))%nat.
  - destruct H as (rest & -> & Hr). by eexists {| pending := rest; fin := _ |}.
  - rewrite H. by eexists {| pending := []; fin := _ |}.
Qed.

(** [ReadFrame] is the reference reader on the concatenation of the chunks. *)
Lemma ReadFrame_flat r :
  exists r', fin r' = fin r /\
    ReadFrame r = (r', (Spec.read (flat r) (fin r)).2) /\
    flat r' = (Spec.read (flat r) (fin r)).1.
Proof.
  unfold ReadFrame, Spec.read, lengthPrefixSize.
  destruct (ReadFull_spec 4 r) as (r1 & Hf1 & H1).
  destruct (Nat.leb_spec 4 (length (flat r))), (Nat.ltb_spec (length (flat r)) 4); try lia.
  - destruct H1 as [-> Hr1]. rewrite <- Hr1.
    destruct (MaxFrameSize <? Uint32 (take 4 (flat r))); [by exists r1|].
    pose proof (Uint32_range (take 4 (flat r))) as Hn. rewrite length_take in Hn.
    set (n := Uint32 (take 4 (flat r))) in *.
    destruct (Z.eqb_spec n 0) as [->|].
    { exists r1. destruct (Z.ltb_spec (Z.of_nat (length (flat r1))) 0); [lia|].
      by rewrite take_0, drop_0. }
    destruct (ReadFull_spec (Z.to_nat n) r1) as (r2 & Hf2 & H2).
    exists r2. split; [congruence|].
    destruct (Nat.leb_spec (Z.to_nat n) (length (flat r1))),
      (Z.ltb_spec (Z.of_nat (length (flat r1))) n); try lia; destruct H2 as [-> ->]; [done|].
    split; [|done]. do 2 f_equal. rewrite Hf1.
    destruct (decide (flat r1 = [])) as [->|Hne].
    + rewrite (bool_decide_eq_false_2 ([] <> [])) by (by intros ?).
      rewrite (bool_decide_eq_true_2 ([] = [])) by done. simpl.
      destruct (errors_is (fin r) IoEOF) eqn:E; [done|].
      rewrite bool_decide_eq_false_2 by (intros Hx; by rewrite Hx in E). by rewrite E.
    + rewrite (bool_decide_eq_true_2 (flat r1 <> [])) by done.
      rewrite (bool_decide_eq_false_2 (flat r1 = [])) by done. done.
  - destruct H1 as [-> Hr1]. exists r1. split_and!; [done| |done]. do 2 f_equal.
    destruct (decide (flat r = [])) as [->|Hne]; [by destruct (bool_decide (fin r = _))|].
    rewrite (bool_decide_eq_true_2 (flat r <> [])) by done.
    rewrite (bool_decide_eq_false_2 (flat r = [])) by done. done.
Qed.

(** The reference reader takes a written frame back off the front. *)
Lemma Spec_read_frame p rest e :
  Z.of_nat (length p) <= MaxFrameSize -> Spec.read (frame p ++ rest) e = (rest, Ok p).
Proof.
  intros Hp. unfold Spec.read, frame.
  change MaxFrameSize with 4194304 in *.
  set (h := PutUint32 _).
  assert (Uint32 h = Z.of_nat (length p)) as Hh.
  { unfold h, wrap_uint32. rewrite Z.mod_small by lia. apply Uint32_PutUint32. lia. }
  rewrite <- app_assoc.
  replace (length (h ++ p ++ rest) <? 4)%nat with false
    by (symmetry; apply Nat.ltb_ge; rewrite !length_app; simpl; lia).
  replace (take 4 (h ++ p ++ rest)) with h by done.
  replace (drop 4 (h ++ p ++ rest)) with (p ++ rest) by done.
  rewrite Hh.
  destruct (Z.ltb_spec 4194304 (Z.of_nat (length p))); [lia|].
  rewrite length_app.
  destruct (Z.ltb_spec (Z.of_nat (length p + length rest)) (Z.of_nat (length p))); [lia|].
  by rewrite Nat2Z.id, drop_app_length, take_app_length.
Qed.

Lemma frame_length p : length (frame p) = (4 + length p)%nat.
Proof. unfold frame. by rewrite length_app. Qed.

(** A byte string made of frames is read back frame by frame. *)
Lemma Spec_frames_concat ps fuel :
  Forall (fun p => Z.of_nat (length p) <= MaxFrameSize) ps -> (length ps <= fuel)%nat ->
  Spec.frames fuel (concat (frame <$> ps)) = Some ps.
Proof.
  intros Hps. revert fuel. induction Hps as [|p ps Hp _ IH]; intros fuel Hf.
  - by destruct fuel.
  - rewrite fmap_cons. cbn [concat].
    destruct fuel as [|fuel]; simpl in Hf; [lia|]. cbn [Spec.frames].
    rewrite Spec_read_frame by done. rewrite IH by lia.
    destruct (frame p ++ concat (frame <$> ps)) eqn:E; [|done].
    apply (f_equal length) in E. rewrite length_app, frame_length in E. simpl in E. lia.
Qed.

(** ** Properties *)

(** The writer that accumulates what it is given. *)
Definition append_writer (w bs : list byte) : list byte * option error := (w ++ bs, None).

(** C25: reading back what [WriteFrame] wrote gives the payload and leaves exactly the
    bytes that follow the frame, however the connection cuts them into reads. *)
Theorem ReadFrame_WriteFrame w payload out rest r :
  WriteFrame append_writer w payload = (out, None) ->
  flat r = drop (length w) out ++ rest ->
  exists r', ReadFrame r = (r', Ok payload) /\ flat r' = rest /\ fin r' = fin r.
Proof.
  unfold WriteFrame, append_writer. destruct (Z.ltb_spec MaxFrameSize (Z.of_nat (length payload)));
    [done|]. intros [= <-] Hr. rewrite drop_app_length in Hr.
  destruct (ReadFrame_flat r) as (r' & Hf & -> & Hr'). exists r'.
  rewrite Hr, Spec_read_frame in * by done. done.
Qed.

(** A stream cut inside a frame is reported as a clean close only when not a single
    byte of the frame arrived, and as a truncation otherwise; never as a frame. *)
Lemma ReadFrame_truncated payload r :
  Z.of_nat (length payload) <= MaxFrameSize ->
  flat r `prefix_of` frame payload -> flat r <> frame payload -> fin r = ESentinel IoEOF ->
  exists r', ReadFrame r =
    (r', Err (ESentinel (if decide (flat r = []) then IoEOF else IoErrUnexpectedEOF))).
Proof.
  intros Hp [k Hk] Hne Hfin.
  destruct (ReadFrame_flat r) as (r' & _ & -> & _). exists r'. f_equal.
  assert (length (flat r) < 4 + length payload)%nat as Hlen.
  { rewrite <- frame_length, Hk, length_app. destruct k; simpl; [|lia].
    by rewrite app_nil_r in Hk. }
  unfold Spec.read. rewrite Hfin. rewrite (bool_decide_eq_true_2 (ESentinel IoEOF = _)) by done.
  destruct (Nat.ltb_spec (length (flat r)) 4).
  { case_decide; [rewrite bool_decide_eq_true_2 by done|rewrite bool_decide_eq_false_2 by done];
      done. }
  assert (take 4 (flat r) = take 4 (frame payload)) as ->.
  { rewrite Hk. by rewrite take_app_le by lia. }
  change (take 4 (frame payload)) with (PutUint32 (wrap_uint32 (Z.of_nat (length payload)))).
  change MaxFrameSize with 4194304 in *.
  unfold wrap_uint32. rewrite Z.mod_small by lia. rewrite Uint32_PutUint32 by lia.
  destruct (Z.ltb_spec 4194304 (Z.of_nat (length payload))); [lia|].
  destruct (Z.ltb_spec (Z.of_nat (length (drop 4 (flat r)))) (Z.of_nat (length payload)))
    as [|Hge]; [|rewrite length_drop in Hge; lia].
  rewrite decide_False by (intros E; rewrite E in *; simpl in *; lia).
  simpl. by destruct (bool_decide _).
Qed.

(** A header that declares more than [MaxFrameSize] is refused with
    [ErrFrameTooLarge] after its four bytes, before any of the body is read, and every
    payload [ReadFrame] returns is within the bound. *)
Lemma ReadFrame_bounded r r' o :
  ReadFrame r = (r', o) ->
  (forall p, o = Ok p -> Z.of_nat (length p) <= MaxFrameSize) /\
  ((4 <= length (flat r))%nat -> MaxFrameSize < Uint32 (take 4 (flat r)) ->
   (exists e, o = Err e /\ errors_is e ErrFrameTooLarge = true) /\ flat r' = drop 4 (flat r)).
Proof.
  destruct (ReadFrame_flat r) as (r1 & _ & -> & Hr1). intros [= <- <-]. rewrite Hr1. clear r1 Hr1.
  unfold Spec.read. split.
  - intros p. destruct (length (flat r) <? 4)%nat; [done|].
    destruct (Z.ltb_spec MaxFrameSize (Uint32 (take 4 (flat r)))); [done|].
    case_goal; [done|]. intros [= <-]. rewrite length_take.
    pose proof (Uint32_range (take 4 (flat r))) as Hn. rewrite length_take in Hn. lia.
  - intros H4 Hn. destruct (Nat.ltb_spec (length (flat r)) 4); [lia|].
    destruct (Z.ltb_spec MaxFrameSize (Uint32 (take 4 (flat r)))); [|lia].
    split; [|done]. eexists. by split.
Qed.

(** C26: what [ReadFrame] makes of bytes that are not a whole legal frame.  A stream cut
    inside a frame is a clean close only when not a single byte of the frame arrived, and a
    truncation otherwise, never a frame.  A header that declares more than [MaxFrameSize]
    is refused with [ErrFrameTooLarge] after its four bytes, before any of the body is
    read, and every payload returned is within the bound. *)
Theorem ReadFrame_errors r :
  (forall payload, Z.of_nat (length payload) <= MaxFrameSize ->
     flat r `prefix_of` frame payload -> flat r <> frame payload -> fin r = ESentinel IoEOF ->
     exists r', ReadFrame r =
       (r', Err (ESentinel (if decide (flat r = []) then IoEOF else IoErrUnexpectedEOF)))) /\
  (forall r' o, ReadFrame r = (r', o) ->
     (forall p, o = Ok p -> Z.of_nat (length p) <= MaxFrameSize) /\
     ((4 <= length (flat r))%nat -> MaxFrameSize < Uint32 (take 4 (flat r)) ->
      (exists e, o = Err e /\ errors_is e ErrFrameTooLarge = true) /\ flat r' = drop 4 (flat r))).
Proof.
  split; [intros payload; apply ReadFrame_truncated|intros r' o; apply ReadFrame_bounded].
Qed.

(** ** Witnesses *)

Definition chop {A} (n : nat) (l : list A) : list (list A) :=
  [take n l; []; drop n l].

Lemma ReadFrame_WriteFrame_witness :
  exists r', ReadFrame {| pending := chop 2 (frame [x01; x02; x03] ++ [x09]); fin := ESentinel IoEOF |}
             = (r', Ok [x01; x02; x03]) /\ flat r' = [x09] /\ fin r' = ESentinel IoEOF.
Proof.
  apply (ReadFrame_WriteFrame [x05] [x01; x02; x03] ([x05] ++ frame [x01; x02; x03]) [x09]);
    vm_compute; reflexivity.
Defined.

Lemma ReadFrame_errors_witness :
  (exists r', ReadFrame {| pending := chop 3 (take 6 (frame [x01; x02; x03])); fin := ESentinel IoEOF |}
              = (r', Err (ESentinel IoErrUnexpectedEOF))) /\
  exists r' e,
    ReadFrame {| pending := [[x00; x40]; [x00; x01; x07]]; fin := ESentinel IoEOF |} = (r', Err e) /\
    errors_is e ErrFrameTooLarge = true /\ flat r' = [x07].
Proof.
  split.
  - apply (proj1 (ReadFrame_errors
      {| pending := chop 3 (take 6 (frame [x01; x02; x03])); fin := ESentinel IoEOF |}) [x01; x02; x03]).
    + vm_compute. discriminate.
    + exists [x03]. vm_compute. reflexivity.
    + vm_compute. discriminate.
    + reflexivity.
  - destruct (ReadFrame {| pending := [[x00; x40]; [x00; x01; x07]]; fin := ESentinel IoEOF |})
      as [r' o] eqn:E.
    destruct (proj2 (ReadFrame_errors _) r' o E) as [_ H].
    destruct H as [(e & -> & He) Hf]; [vm_compute; lia|vm_compute; reflexivity|].
    by exists r', e.
Defined.
