(* ===== verification/Mux.v ===== *)
(** * internal/mux: serialized writes and the in-flight registry of one connection

    [ConnWriter.Send] is a step relation over the goroutines that share the connection:
    taking the mutex, pushing out some more bytes of the frame, releasing the mutex are
    separate steps, so every interleaving of concurrent senders is a run.  [Registry] is
    the state of registry's fields with one function per method, and a step relation in
    which the three actions of [done] (cancel, delete under the lock, [WaitGroup.Done])
    and the two of [Stop] and [CancelAll] (snapshot under the lock, cancel outside it)
    interleave with everything else. *)

From Stdlib Require Import Strings.Byte.
From S2P Require Import Prelude GoErr Codec.

(** ** ConnWriter *)

Module ConnWriter.

(** [holder]: who has the mutex and the bytes of its frame not yet written; [todo]: the
    envelopes (marshalled) each goroutine still has to send; [log]: the frames whose
    sending started, in order; [broken]: a write has failed. *)
Record state := mkState {
  out : list byte;
  holder : option (nat * list byte);
  todo : nat -> list (list byte);
  log : list (nat * list byte);
  broken : bool
}.

Definition init (prog : nat -> list (list byte)) : state := mkState [] None prog [] false.

Definition set_todo (t : nat) (ps : list (list byte)) (f : nat -> list (list byte)) :
    nat -> list (list byte) :=
  fun u => if decide (u = t) then ps else f u.

(** One step of some goroutine inside [Send]. *)
Inductive Send (s : state) : state -> Prop :=
| send_lock t p ps buf :
    holder s = None -> todo s t = p :: ps ->
    WriteFrame append_writer [] p = (buf, None) ->
    Send s (mkState (out s) (Some (t, buf)) (set_todo t ps (todo s)) (log s ++ [(t, p)]) (broken s))
| send_too_large t p ps buf e :
    holder s = None -> todo s t = p :: ps ->
    WriteFrame append_writer [] p = (buf, Some e) ->
    Send s (mkState (out s) None (set_todo t ps (todo s)) (log s) (broken s))
| send_write t bs k :
    holder s = Some (t, bs) ->
    Send s (mkState (out s ++ take k bs) (Some (t, drop k bs)) (todo s) (log s) (broken s))
| send_fail t bs :
    holder s = Some (t, bs) -> bs <> [] ->
    Send s (mkState (out s) None (todo s) (log s) true)
| send_unlock t :
    holder s = Some (t, []) ->
    Send s (mkState (out s) None (todo s) (log s) (broken s)).

(** The payloads [WriteFrame] accepts. *)
Definition small (p : list byte) : Prop := Z.of_nat (length p) <= MaxFrameSize.

#[export] Instance small_dec p : Decision (small p).
Proof. unfold small. apply _. Defined.

Definition sent_by (t : nat) (l : list (nat * list byte)) : list (list byte) :=
  snd <$> filter (fun tp => tp.1 = t) l.

(** The bytes on the wire are the whole frames logged, the last one possibly still
    missing what its sender holds; nobody else's bytes are in between. *)
Definition wire (s : state) : Prop :=
  broken s = false ->
  match holder s with
  | None => out s = concat (frame <$> (snd <$> log s))
  | Some (_, bs) => out s ++ bs = concat (frame <$> (snd <$> log s))
  end.

Definition accounted (prog : nat -> list (list byte)) (s : state) : Prop :=
  Forall small (snd <$> log s) /\
  forall t, sent_by t (log s) ++ filter small (todo s t) = filter small (prog t).

Lemma WriteFrame_small p buf e :
  WriteFrame append_writer [] p = (buf, e) ->
  match e with None => small p /\ buf = frame p | Some _ => ~ small p end.
Proof.
  unfold WriteFrame, append_writer, small.
  destruct (Z.ltb_spec MaxFrameSize (Z.of_nat (length p))); intros [= <- <-]; [lia|done].
Qed.

Lemma wire_step s s' : wire s -> Send s s' -> wire s'.
Proof.
  unfold wire. intros Hw Hs. destruct Hs as [t p ps buf Hh Ht Hb|t p ps buf e Hh Ht Hb|t bs k Hh|t bs Hh Hne|t Hh];
    simpl; rewrite Hh in Hw; intros Hbr; try specialize (Hw Hbr).
  - apply WriteFrame_small in Hb as [_ ->].
    rewrite !fmap_app, concat_app, <- Hw. simpl. by rewrite app_nil_r.
  - done.
  - by rewrite <- app_assoc, take_drop.
  - done.
  - by rewrite app_nil_r in Hw.
Qed.

Lemma sent_by_snoc t u p l :
  sent_by t (l ++ [(u, p)]) = sent_by t l ++ (if decide (u = t) then [p] else []).
Proof.
  unfold sent_by. rewrite filter_app, fmap_app. f_equal.
  rewrite filter_cons, filter_nil. simpl. by case_decide.
Qed.

Lemma accounted_step prog s s' : accounted prog s -> Send s s' -> accounted prog s'.
Proof.
  intros [Hsm Hacc] Hs.
  destruct Hs as [t p ps buf Hh Ht Hb|t p ps buf e Hh Ht Hb|t bs k Hh|t bs Hh Hne|t Hh]; try done;
    apply WriteFrame_small in Hb; unfold accounted; simpl.
  - destruct Hb as [Hp _]. rewrite fmap_app. split.
    { apply Forall_app. split; [done|]. by repeat constructor. }
    intros u. rewrite sent_by_snoc, <- Hacc. unfold set_todo.
    destruct (decide (u = t)) as [->|]; [|rewrite decide_False by done; by rewrite app_nil_r].
    by rewrite decide_True, Ht, filter_cons_True, <- app_assoc by done.
  - split; [done|]. intros u. rewrite <- Hacc. unfold set_todo.
    destruct (decide (u = t)) as [->|]; [|done]. by rewrite Ht, filter_cons_False.
Qed.

Lemma writer_reachable prog s :
  rtc Send (init prog) s -> wire s /\ accounted prog s.
Proof.
  apply (rtc_ind_r (fun s => wire s /\ accounted prog s)).
  - split; [done|]. by split; [constructor|].
  - intros x y _ Hs [? ?]. eauto using wire_step, accounted_step.
Qed.

(** C28: frames of concurrent senders never interleave.  In any interleaving of any
    programs, whenever no write has failed and the mutex is free, the bytes on the
    connection parse into whole frames, which are, in the order the mutex was taken, the
    envelopes sent; and those of one goroutine are its own, each once and in its order
    (less the oversized ones, which are refused without writing). *)
Theorem Send_frames_never_interleave prog s :
  rtc Send (init prog) s -> broken s = false -> holder s = None ->
  Spec.frames (length (log s)) (out s) = Some (snd <$> log s) /\
  forall t, sent_by t (log s) ++ filter small (todo s t) = filter small (prog t).
Proof.
  intros Hr Hb Hh. destruct (writer_reachable prog s Hr) as [Hw [Hsm Hacc]].
  split; [|done]. specialize (Hw Hb). rewrite Hh in Hw. rewrite Hw.
  apply Spec_frames_concat; [done|]. by rewrite length_fmap.
Qed.

(** Two goroutines, one envelope each; the second is scheduled while the first is in the
    middle of its frame. *)
Definition demo_prog (t : nat) : list (list byte) :=
  match t with 0%nat => [[x01; x02]] | 1%nat => [[x03]] | _ => [] end.

Definition demo_end : state :=
  mkState (frame [x01; x02] ++ frame [x03]) None
    (set_todo 1 [] (set_todo 0 [] demo_prog)) [(0%nat, [x01; x02]); (1%nat, [x03])] false.

Lemma demo_run : rtc Send (init demo_prog) demo_end.
Proof.
  eapply rtc_l; [eapply (send_lock _ 0 [x01; x02] []); vm_compute; reflexivity|].
  eapply rtc_l; [eapply (send_write _ 0 _ 3); reflexivity|].
  eapply rtc_l; [eapply (send_write _ 0 _ 9); reflexivity|].
  eapply rtc_l; [eapply (send_unlock _ 0); reflexivity|].
  eapply rtc_l; [eapply (send_lock _ 1 [x03] []); vm_compute; reflexivity|].
  eapply rtc_l; [eapply (send_write _ 1 _ 9); reflexivity|].
  eapply rtc_l; [eapply (send_unlock _ 1); reflexivity|].
  apply rtc_refl.
Qed.

Lemma Send_frames_never_interleave_witness :
  Spec.frames 2 (out demo_end) = Some [[x01; x02]; [x03]] /\
  forall t, sent_by t (log demo_end) ++ filter small (todo demo_end t) = filter small (demo_prog t).
Proof. apply (Send_frames_never_interleave demo_prog demo_end demo_run); reflexivity. Defined.

End ConnWriter.

(** ** Registry *)

Module Registry.

(** A request instance's cancel function is named by a fresh number; [cancelled] holds the
    contexts already cancelled, [fired] the [sync.Once]s already used. *)
Record state := mkState {
  inflight : gmap string nat;
  cancelled : gset nat;
  fired : gset nat;
  wg : Z;
  next : nat
}.

Definition NewRegistry : state := mkState ∅ ∅ ∅ 0 0.

(** [Begin]: [None] for a duplicate, the new instance otherwise. *)
Definition Begin (rid : string) (r : state) : state * option nat :=
  match inflight r !! rid with
  | Some _ => (r, None)
  | None =>
      (mkState (<[rid := next r]> (inflight r)) (cancelled r) (fired r) (wg r + 1) (S (next r)),
       Some (next r))
  end.

Definition cancel (i : nat) (r : state) : state :=
  mkState (inflight r) ({[i]} ∪ cancelled r) (fired r) (wg r) (next r).

(** The three actions inside [once.Do] of [done]. *)
Definition done_cancel (i : nat) (r : state) : state :=
  cancel i (mkState (inflight r) (cancelled r) ({[i]} ∪ fired r) (wg r) (next r)).

Definition done_delete (rid : string) (r : state) : state :=
  mkState (delete rid (inflight r)) (cancelled r) (fired r) (wg r) (next r).

Definition done_wg (r : state) : state :=
  mkState (inflight r) (cancelled r) (fired r) (wg r - 1) (next r).

Definition done (rid : string) (i : nat) (r : state) : state :=
  if decide (i ∈ fired r) then r else done_wg (done_delete rid (done_cancel i r)).

Definition Stop (rid : string) (r : state) : state * bool :=
  match inflight r !! rid with
  | Some i => (cancel i r, true)
  | None => (r, false)
  end.

(** The snapshot [CancelAll] takes under the lock. *)
Definition inflight_cancels (r : state) : list nat := snd <$> map_to_list (inflight r).

Definition CancelAll (r : state) : state := foldr cancel r (inflight_cancels r).

Definition InflightCount (r : state) : nat := size (inflight r).

(** [Wait] returns when the counter is zero. *)
Definition wait_returns (r : state) : Prop := wg r = 0.

(** *** Interleaving *)

(** Where the goroutine of a request is: serving it, or after one, two or all three
    actions of [done]. *)
Inductive pc := Running | Cancelled | Removed | Finished.

#[export] Instance pc_eq_dec : EqDecision pc.
Proof. solve_decision. Defined.

(** [pending]: cancel functions a [Stop] or [CancelAll] has picked up under the lock and
    not called yet. *)
Record sys := mkSys { reg : state; gor : gmap nat (string * pc); pending : list nat }.

Definition init : sys := mkSys NewRegistry ∅ [].

Inductive step (s : sys) : sys -> Prop :=
| st_begin rid r' i :
    Begin rid (reg s) = (r', Some i) ->
    step s (mkSys r' (<[i := (rid, Running)]> (gor s)) (pending s))
| st_begin_dup rid r' :
    Begin rid (reg s) = (r', None) -> step s (mkSys r' (gor s) (pending s))
| st_done_cancel i rid :
    gor s !! i = Some (rid, Running) ->
    step s (mkSys (done_cancel i (reg s)) (<[i := (rid, Cancelled)]> (gor s)) (pending s))
| st_done_delete i rid :
    gor s !! i = Some (rid, Cancelled) ->
    step s (mkSys (done_delete rid (reg s)) (<[i := (rid, Removed)]> (gor s)) (pending s))
| st_done_wg i rid :
    gor s !! i = Some (rid, Removed) ->
    step s (mkSys (done_wg (reg s)) (<[i := (rid, Finished)]> (gor s)) (pending s))
| st_stop_snapshot rid i :
    inflight (reg s) !! rid = Some i -> step s (mkSys (reg s) (gor s) (i :: pending s))
| st_cancel_all_snapshot :
    step s (mkSys (reg s) (gor s) (inflight_cancels (reg s) ++ pending s))
| st_cancel i rest :
    pending s ≡ₚ i :: rest -> step s (mkSys (cancel i (reg s)) (gor s) rest).

(** *** Invariant *)

Definition live (p : pc) : Prop := p = Running \/ p = Cancelled.

Definition unfinished (x : nat * (string * pc)) : Prop := x.2.2 <> Finished.

#[export] Instance unfinished_dec x : Decision (unfinished x).
Proof. unfold unfinished. apply _. Defined.

Record inv (s : sys) : Prop := {
  inv_inflight : forall rid i,
    inflight (reg s) !! rid = Some i <-> exists p, gor s !! i = Some (rid, p) /\ live p;
  inv_next : forall i x, gor s !! i = Some x -> (i < next (reg s))%nat;
  inv_wg : wg (reg s) = Z.of_nat (size (filter unfinished (gor s)))
}.

(** Changing the stage of a known goroutine, the counter following. *)
Lemma size_restage (g : gmap nat (string * pc)) i rid p q :
  g !! i = Some (rid, p) -> p <> Finished ->
  Z.of_nat (size (filter unfinished (<[i := (rid, q)]> g))) =
  Z.of_nat (size (filter unfinished g)) - (if decide (q = Finished) then 1 else 0).
Proof.
  intros Hg Hp.
  assert (filter unfinished g !! i = Some (rid, p)) as Hf by (by apply map_lookup_filter_Some_2).
  case_decide as Hq.
  - rewrite map_filter_insert_False by (unfold unfinished; simpl; congruence).
    rewrite map_filter_delete, map_size_delete_Some by eauto.
    destruct (size (filter unfinished g)) eqn:E; [|lia].
    apply map_size_empty_inv in E. by rewrite E in Hf.
  - rewrite map_filter_insert_True by done. rewrite map_size_insert_Some by eauto. lia.
Qed.

Lemma inv_restage s i rid p q r' :
  inv s -> gor s !! i = Some (rid, p) -> p <> Finished ->
  (forall rid' j, inflight r' !! rid' = Some j <->
     inflight (reg s) !! rid' = Some j /\ (j = i -> live q)) ->
  (live q -> live p) ->
  next r' = next (reg s) ->
  wg r' = wg (reg s) - (if decide (q = Finished) then 1 else 0) ->
  inv (mkSys r' (<[i := (rid, q)]> (gor s)) (pending s)).
Proof.
  intros [Hin Hnx Hwg] Hg Hp Hr' Hlive Hn Hw. split; simpl.
  - intros rid' j. rewrite Hr', Hin. destruct (decide (j = i)) as [->|Hne].
    + rewrite lookup_insert_eq. naive_solver.
    + rewrite lookup_insert_ne by done. naive_solver.
  - intros j x. rewrite Hn, lookup_insert_Some. intros [[<- _]|[_ ?]]; eauto.
  - by rewrite (size_restage _ _ _ p), Hw, Hwg.
Qed.

Lemma registry_inv_step s s' : inv s -> step s s' -> inv s'.
Proof.
  intros Hinv Hs. pose proof Hinv as [Hin Hnx Hwg].
  destruct Hs as [rid r' i Hb|rid r' Hb|i rid Hg|i rid Hg|i rid Hg|rid i Hi| |i rest Hp].
  - unfold Begin in Hb. destruct (inflight (reg s) !! rid) eqn:Er; [done|]. injection Hb as <- <-.
    assert (gor s !! next (reg s) = None) as Hfresh.
    { destruct (gor s !! next (reg s)) eqn:E; [|done]. apply Hnx in E. lia. }
    split; simpl.
    + intros rid' j. destruct (decide (j = next (reg s))) as [->|Hne].
      * rewrite lookup_insert_eq, lookup_insert_Some, Hin, Hfresh. unfold live. naive_solver.
      * rewrite (lookup_insert_ne (gor s)), <- Hin, lookup_insert_Some by done.
        split; [naive_solver|]. intros H. right. split; [|done]. intros ->. congruence.
    + intros j x. rewrite lookup_insert_Some. intros [[<- _]|[_ H]]; [lia|]. apply Hnx in H. lia.
    + rewrite map_filter_insert_True by done. rewrite map_size_insert_None; [lia|].
      by apply map_lookup_filter_None_2; left.
  - unfold Begin in Hb. destruct (inflight (reg s) !! rid) eqn:Er; [|done]. injection Hb as <-.
    by destruct s.
  - apply (inv_restage _ _ _ Running); unfold live; try done; simpl; [naive_solver| |lia].
    by left.
  - apply (inv_restage _ _ _ Cancelled); unfold live; try done; simpl; [|naive_solver|lia].
    intros rid' j. rewrite lookup_delete_Some, Hin. split.
    + intros [Hne (p & Hj & Hp)]. split; [eauto|]. intros ->. congruence.
    + intros [(p & Hj & Hp) Hji]. split; [|eauto]. intros <-.
      assert (j = i) as ->; [|naive_solver].
      assert (inflight (reg s) !! rid = Some i) by (apply Hin; unfold live; eauto).
      assert (inflight (reg s) !! rid = Some j) by (apply Hin; eauto). congruence.
  - apply (inv_restage _ _ _ Removed); unfold live; try done; simpl; [|naive_solver].
    intros rid' j. split; [|naive_solver]. intros Hj. split; [done|]. intros ->.
    apply Hin in Hj as (p & Hj & Hp). unfold live in Hp. naive_solver congruence.
  - by split.
  - by split.
  - by split.
Qed.

Lemma registry_reachable s : rtc step init s -> inv s.
Proof.
  apply (rtc_ind_r inv); [|eauto using registry_inv_step].
  split; simpl; [|done|by rewrite map_filter_empty].
  intros. rewrite !lookup_empty. naive_solver.
Qed.

Lemma cancelled_CancelAll j r :
  j ∈ cancelled (CancelAll r) <-> j ∈ cancelled r \/ exists rid, inflight r !! rid = Some j.
Proof.
  unfold CancelAll, inflight_cancels.
  transitivity (j ∈ cancelled r \/ j ∈ (map_to_list (inflight r)).*2).
  - induction ((map_to_list (inflight r)).*2) as [|i l IH]; simpl.
    + rewrite elem_of_nil. tauto.
    + rewrite elem_of_union, elem_of_singleton, IH, elem_of_cons. tauto.
  - f_equiv. rewrite list_elem_of_fmap. split.
    + intros ([rid i] & -> & H). exists rid. by apply elem_of_map_to_list.
    + intros [rid H]. exists (rid, j). by rewrite elem_of_map_to_list.
Qed.

(** [done] as the program calls it is its three steps. *)
Lemma done_steps s i rid :
  gor s !! i = Some (rid, Running) -> i ∉ fired (reg s) ->
  exists s', rtc step s s' /\ reg s' = done rid i (reg s) /\
             gor s' = <[i := (rid, Finished)]> (gor s).
Proof.
  intros Hg Hf.
  eexists (mkSys _ _ (pending s)). split_and!.
  - eapply rtc_l; [by apply st_done_cancel|].
    eapply rtc_l; [eapply (st_done_delete _ i rid); simpl; by rewrite lookup_insert_eq|].
    eapply rtc_l; [eapply (st_done_wg _ i rid); simpl; by rewrite lookup_insert_eq|].
    apply rtc_refl.
  - simpl. unfold done. by rewrite decide_False.
  - simpl. by rewrite !insert_insert_eq.
Qed.

(** However the goroutines of a connection interleave, a request_id has at most one
    live instance, [Begin] refuses exactly the ids that have one, and the entry [done]
    deletes by key is its own. *)
Lemma Registry_one_live_per_id s :
  rtc step init s ->
  (forall rid i j p q, gor s !! i = Some (rid, p) -> gor s !! j = Some (rid, q) ->
     live p -> live q -> i = j) /\
  (forall rid, (Begin rid (reg s)).2 = None <->
     exists i p, gor s !! i = Some (rid, p) /\ live p) /\
  (forall i rid, gor s !! i = Some (rid, Cancelled) -> inflight (reg s) !! rid = Some i).
Proof.
  intros [Hin Hnx Hwg]%registry_reachable. split_and!.
  - intros rid i j p q Hi Hj Hp Hq.
    assert (inflight (reg s) !! rid = Some i) by (apply Hin; eauto).
    assert (inflight (reg s) !! rid = Some j) by (apply Hin; eauto). congruence.
  - intros rid. unfold Begin. destruct (inflight (reg s) !! rid) as [i|] eqn:E; simpl.
    + split; [|done]. intros _. apply Hin in E as (p & ? & ?). eauto.
    + split; [done|]. intros (i & p & Hi & Hp).
      assert (inflight (reg s) !! rid = Some i) by (apply Hin; eauto). congruence.
  - intros i rid Hi. apply Hin. exists Cancelled. unfold live. eauto.
Qed.

(** [Wait] returns only when every request goroutine has run [done] to its end, and
    then nothing is registered any more: no goroutine outlives the connection. *)
Lemma Wait_all_done s :
  rtc step init s ->
  0 <= wg (reg s) /\
  (wait_returns (reg s) <-> forall i x, gor s !! i = Some x -> x.2 = Finished) /\
  (wait_returns (reg s) -> InflightCount (reg s) = 0%nat).
Proof.
  intros [Hin Hnx Hwg]%registry_reachable. unfold wait_returns.
  assert (wg (reg s) = 0 <-> forall i x, gor s !! i = Some x -> x.2 = Finished) as Hiff.
  { rewrite Hwg. split.
    - intros H0 i x Hi. destruct (decide (x.2 = Finished)) as [|Hne]; [done|].
      assert (size (filter unfinished (gor s)) = 0%nat) as He by lia.
      apply map_size_empty_inv in He.
      assert (filter unfinished (gor s) !! i = Some x) as Hf by by apply map_lookup_filter_Some_2.
      by rewrite He in Hf.
    - intros Hall. apply (inj_iff Z.of_nat _ 0%nat), map_size_empty_iff, map_empty. intros i.
      apply map_lookup_filter_None. right. intros x Hi. unfold unfinished. simpl.
      intros Hne. apply Hne. eauto. }
  split_and!; [lia|done|]. intros H0. rewrite Hiff in H0. unfold InflightCount.
  apply map_size_empty_iff, map_empty. intros rid.
  destruct (inflight (reg s) !! rid) as [i|] eqn:E; [|done].
  apply Hin in E as (p & Hi & [->| ->]); specialize (H0 _ _ Hi); done.
Qed.

(** [Stop] cancels the live instance of its request_id and nothing else, reporting
    whether there was one; [CancelAll] cancels every live instance. *)
Lemma Stop_targets_one s rid r' found :
  rtc step init s -> Stop rid (reg s) = (r', found) ->
  (found = true <-> exists i p, gor s !! i = Some (rid, p) /\ live p) /\
  (forall j, j ∈ cancelled r' <->
     j ∈ cancelled (reg s) \/ exists p, gor s !! j = Some (rid, p) /\ live p) /\
  (forall j rid' p, gor s !! j = Some (rid', p) -> live p -> j ∈ cancelled (CancelAll (reg s))).
Proof.
  intros [Hin Hnx Hwg]%registry_reachable. unfold Stop.
  destruct (inflight (reg s) !! rid) as [i|] eqn:E; intros [= <- <-]; split_and!.
  - split; [|done]. intros _. apply Hin in E as (p & ? & ?). eauto.
  - intros j. simpl. rewrite elem_of_union, elem_of_singleton, <- Hin, E. naive_solver.
  - intros j rid' p Hj Hp. apply cancelled_CancelAll. right. exists rid'. apply Hin. eauto.
  - split; [done|]. intros (i & p & Hi & Hp).
    assert (inflight (reg s) !! rid = Some i) by (apply Hin; eauto). congruence.
  - intros j. rewrite <- Hin, E. naive_solver.
  - intros j rid' p Hj Hp. apply cancelled_CancelAll. right. exists rid'. apply Hin. eauto.
Qed.

(** A connection on which request "a" is being served while "b" has just cancelled its
    context inside [done]. *)
Definition demo : sys :=
  mkSys (done_cancel 1 (Begin "b" (Begin "a" NewRegistry).1).1)
    (<[1%nat := ("b", Cancelled)]> (<[1%nat := ("b", Running)]> {[0%nat := ("a", Running)]})) [].

Lemma demo_reachable : rtc step init demo.
Proof.
  eapply rtc_l; [apply (st_begin _ "a"); reflexivity|].
  eapply rtc_l; [apply (st_begin _ "b"); reflexivity|].
  eapply rtc_l; [apply (st_done_cancel _ 1 "b"); reflexivity|].
  apply rtc_refl.
Qed.

Lemma Registry_one_live_per_id_witness :
  (Begin "b" (reg demo)).2 = None /\ inflight (reg demo) !! "b" = Some 1%nat.
Proof.
  destruct (Registry_one_live_per_id demo demo_reachable) as (_ & Hb & Hc). split.
  - apply Hb. exists 1%nat, Cancelled. split; [reflexivity | right; reflexivity].
  - apply Hc. reflexivity.
Defined.

Lemma Wait_all_done_witness : wg (reg demo) = 2 /\ ~ wait_returns (reg demo).
Proof.
  split; [reflexivity|]. intros Hw.
  destruct (Wait_all_done demo demo_reachable) as (_ & Hiff & _).
  destruct Hiff as [H _]. specialize (H Hw 0%nat ("a", Running) eq_refl). discriminate H.
Defined.

Lemma Stop_targets_one_witness :
  0%nat ∈ cancelled (Stop "a" (reg demo)).1 /\ (Stop "a" (reg demo)).2 = true.
Proof.
  destruct (Stop_targets_one demo "a" (Stop "a" (reg demo)).1 (Stop "a" (reg demo)).2
              demo_reachable eq_refl) as (Hf & Hc & _).
  split.
  - apply Hc. right. exists Running. split; [reflexivity | left; reflexivity].
  - apply Hf. exists 0%nat, Running. split; [reflexivity | left; reflexivity].
Defined.

End Registry.
