(* ===== verification/Auth.v ===== *)
(** * internal/session and internal/auth: who is on the connection

    [Session] is the per-connection state (its mutex makes each method atomic, so the
    methods are plain functions on it).  Of authentication the repository's own part is
    modelled: the choice of algorithms for a key, the mapping of verification failures,
    and the binding of the player.  The PEM and X.509 decoders and the JWT library are
    parameters; what the gateway relies on of the latter, for the options its parser is
    made with, is the class [JwtParserLaws]. *)

From S2P Require Import Prelude GoNum GoStrings GoErr.

(** ** Session *)

Record Session := mkSession {
  ID : string;
  RemoteAddr : string;
  CreatedAt : Z;
  playerID : string;
  authed : bool
}.

Definition session_New (id remoteAddr : string) (now : Z) : Session :=
  mkSession id remoteAddr now "" false.

Definition Bind (p : string) (s : Session) : Session :=
  mkSession (ID s) (RemoteAddr s) (CreatedAt s) p true.

Definition PlayerID (s : Session) : string := playerID s.
Definition Authenticated (s : Session) : bool := authed s.

(** ** Keys and algorithms *)

(** The dynamic type of a parsed public key. *)
Inductive key_kind := RSA | ECDSA | Ed25519 | OtherKey (ty : string).

Definition methodsForKey (k : key_kind) : res error (list string) :=
  match k with
  | RSA => Ok ["RS256"; "RS384"; "RS512"; "PS256"; "PS384"; "PS512"]
  | ECDSA => Ok ["ES256"; "ES384"; "ES512"]
  | Ed25519 => Ok ["EdDSA"]
  | OtherKey ty => Err (EText ("auth: unsupported public key type " +:+ ty))
  end.

(** The family an algorithm name belongs to ([None]: unsigned, HMAC or unknown). *)
Definition method_family (m : string) : option key_kind :=
  if HasPrefix m "RS" || HasPrefix m "PS" then Some RSA
  else if HasPrefix m "ES" then Some ECDSA
  else if bool_decide (m = "EdDSA") then Some Ed25519
  else None.

(** The claims read out of a token, and what the JWT library returns. *)
Record parsed_token := { tok_valid : bool; tok_player : string }.

(** The options of [jwt.NewParser]. *)
Inductive ParserOption := WithValidMethods (methods : list string) | WithExpirationRequired.

Class JwtEnv := {
  key : Type;
  block : Type;
  kind_of : key -> key_kind;
  pem_decode : string -> option block;
  parse_pkix : block -> res error key;
  parse_pkcs1 : block -> res error key;
  (** [ParseWithClaims(token)] of a parser made with the options, the key function returning
      the key, when the clock reads the given time. *)
  jwt_parse : list ParserOption -> key -> Z -> string -> res error parsed_token
}.

Section Auth.
Context `{JwtEnv}.

Definition parsePublicKey (pem : string) : res error key :=
  match pem_decode pem with
  | None => Err (EText "auth: AUTH_JWT_PUBKEY is not valid PEM")
  | Some b =>
      match parse_pkix b with
      | Ok pub => Ok pub
      | Err _ =>
          match parse_pkcs1 b with
          | Ok pub => Ok pub
          | Err _ => Err (EText "auth: AUTH_JWT_PUBKEY is not a supported public key (PKIX or PKCS#1 RSA)")
          end
      end
  end.

Record JWTAuthenticator := {
  pubKey : key;
  validMethods : list string;
  parser : list ParserOption
}.

Definition auth_New (pem : string) : res error JWTAuthenticator :=
  try pub := parsePublicKey pem in
  try methods := methodsForKey (kind_of pub) in
  Ok {| pubKey := pub; validMethods := methods;
        parser := [WithValidMethods methods; WithExpirationRequired] |}.

Definition Verify (a : JWTAuthenticator) (now : Z) (token : string) : res error string :=
  match jwt_parse (parser a) (pubKey a) now token with
  | Err e =>
      if errors_is e JwtErrTokenExpired then Err (ESentinel ErrExpiredToken)
      else Err (EWrap "" (ESentinel ErrInvalidToken))
  | Ok parsed =>
      if negb (tok_valid parsed) then Err (ESentinel ErrInvalidToken)
      else if bool_decide (tok_player parsed = "")
      then Err (EWrap "missing player_id claim" (ESentinel ErrInvalidToken))
      else Ok (tok_player parsed)
  end.
End Auth.

(** [BindSession], for any authenticator. *)
Definition BindSession (verify : string -> res error string) (sess : Session) (token : string) :
    Session * (bool * string) :=
  if bool_decide (token = "") then (sess, (false, "missing session token"))
  else
    match verify token with
    | Err e =>
        if errors_is e ErrExpiredToken then (sess, (false, "session token expired"))
        else (sess, (false, "invalid session token"))
    | Ok p => (Bind p sess, (true, ""))
    end.

(** What the gateway relies on of the JWT library, by its documentation: with
    [WithValidMethods] an accepted token's algorithm is one of those listed; a token that has
    an [exp] claim ([exp_of], an instant) is accepted only before it; and with
    [WithExpirationRequired] a token without the claim is not accepted. *)
Class JwtParserLaws `{JwtEnv} (alg : string -> string) (exp_of : string -> option Z) : Prop := {
  parse_alg opts ms k now token p :
    jwt_parse opts k now token = Ok p -> WithValidMethods ms ∈ opts -> alg token ∈ ms;
  parse_exp opts k now token p e :
    jwt_parse opts k now token = Ok p -> exp_of token = Some e -> now < e;
  parse_exp_required opts k now token p :
    jwt_parse opts k now token = Ok p -> WithExpirationRequired ∈ opts -> is_Some (exp_of token)
}.

(** ** Lemmas *)

Lemma methodsForKey_family k ms m :
  methodsForKey k = Ok ms -> m ∈ ms -> method_family m = Some k.
Proof.
  destruct k; simpl; intros [= <-] Hm;
    repeat (apply elem_of_cons in Hm as [->|Hm]; [reflexivity|]); by apply elem_of_nil in Hm.
Qed.

Lemma auth_New_methods `{JwtEnv} pem a :
  auth_New pem = Ok a -> methodsForKey (kind_of (pubKey a)) = Ok (validMethods a) /\
    WithValidMethods (validMethods a) ∈ parser a /\ WithExpirationRequired ∈ parser a.
Proof.
  unfold auth_New. destruct (parsePublicKey pem) as [k|]; simpl; [|done].
  destruct (methodsForKey (kind_of k)) eqn:E; simpl; [|done]. intros. simplify_eq/=.
  split_and!; [done|left|right; left].
Qed.

Lemma Verify_Ok `{JwtEnv} a now token p :
  Verify a now token = Ok p ->
  p <> "" /\ exists t, jwt_parse (parser a) (pubKey a) now token = Ok t /\
                       tok_valid t = true /\ tok_player t = p.
Proof.
  unfold Verify. destruct (jwt_parse _ _ _ _) as [t|e] eqn:E; [|by destruct (errors_is _ _)].
  destruct (tok_valid t) eqn:?; simpl; [|done]. case_bool_decide; [done|].
  intros [= <-]. eauto.
Qed.

Lemma Verify_Err `{JwtEnv} a now token e :
  Verify a now token = Err e -> errors_is e ErrExpiredToken = true \/ errors_is e ErrInvalidToken = true.
Proof.
  unfold Verify. destruct (jwt_parse _ _ _ _) as [t|e'];
    [destruct (tok_valid t); [simpl; case_bool_decide|]|destruct (errors_is e' _)];
    intros [= <-]; auto.
Qed.

(** ** Properties *)

(** The connection gets a player exactly when its token verifies; the player is the
    token's, never empty; a failed attempt leaves the session as it was (an earlier
    binding included), and the reason sent to the client is one of three fixed texts that
    say nothing about the token. *)
Lemma BindSession_binds_verified `{JwtEnv} a now sess token sess' ok reason :
  BindSession (Verify a now) sess token = (sess', (ok, reason)) ->
  (ok = true <-> token <> "" /\ exists p, Verify a now token = Ok p) /\
  (ok = true -> Authenticated sess' = true /\ PlayerID sess' <> "" /\
                Verify a now token = Ok (PlayerID sess') /\ reason = "") /\
  (ok = false -> sess' = sess /\
     reason ∈ ["missing session token"; "session token expired"; "invalid session token"]) /\
  ID sess' = ID sess /\ RemoteAddr sess' = RemoteAddr sess.
Proof.
  unfold BindSession. case_bool_decide as Ht.
  { intros [= <- <- <-]. split_and!; try done; [naive_solver|]. intros _. split; [done|set_solver]. }
  destruct (Verify a now token) as [p|e] eqn:Hv.
  - intros [= <- <- <-]. apply Verify_Ok in Hv as Hp. split_and!; try done; naive_solver.
  - destruct (errors_is e ErrExpiredToken); intros [= <- <- <-];
      split_and!; try done; try naive_solver; intros _; (split; [done|set_solver]).
Qed.

(** C30: what a token that verifies is.  The parser [New] makes accepts the algorithms of
    the key's family and no others and requires an expiry, so under the JWT library's
    contract a token that verifies is signed with an algorithm of that family, never with
    "none" or an HMAC, carries an expiry that has not come, and names a player. *)
Theorem Verify_algorithm_pinned `{JwtParserLaws} pem a now token p :
  auth_New pem = Ok a -> Verify a now token = Ok p ->
  method_family (alg token) = Some (kind_of (pubKey a)) /\
  alg token <> "none" /\ HasPrefix (alg token) "HS" = false /\
  (exists e, exp_of token = Some e /\ now < e) /\ p <> "".
Proof.
  intros Hnew Hv. apply auth_New_methods in Hnew as (Hm & Hin & Hreq).
  apply Verify_Ok in Hv as (Hne & t & Hp & _).
  pose proof (parse_alg _ _ _ _ _ _ Hp Hin) as Halg.
  destruct (parse_exp_required _ _ _ _ _ Hp Hreq) as [e He].
  split_and!; [by eapply methodsForKey_family| | | |done].
  - intros E. pose proof (methodsForKey_family _ _ _ Hm Halg) as Hf. by rewrite E in Hf.
  - destruct (kind_of (pubKey a)); simpl in Hm; try done;
      injection Hm as Hm; rewrite <- Hm in Halg;
      repeat (apply elem_of_cons in Halg as [->|Halg]; [reflexivity|]); by apply elem_of_nil in Halg.
  - exists e. split; [done|]. by eapply parse_exp.
Qed.

(** ** Witnesses *)

(** A toy signature scheme: a key is its kind, a PEM its name, and a token is "ALG.player" or
    "ALG.player.exp", the expiry in seconds; the parser heeds its options. *)
Definition toy_part (k : nat) (token : string) : option string :=
  Split token (Ascii.ascii_of_nat 46) !! k.
Definition toy_alg (token : string) : string := default "" (toy_part 0 token).
Definition toy_exp (token : string) : option Z :=
  match toy_part 2 token with Some t => Z.mul Second <$> parse_int64 t | None => None end.

Definition toy_allows (now : Z) (token : string) (o : ParserOption) : bool :=
  match o with
  | WithValidMethods ms => bool_decide (toy_alg token ∈ ms)
  | WithExpirationRequired => bool_decide (is_Some (toy_exp token))
  end.

Definition toy_jwt : JwtEnv := {|
  key := key_kind;
  block := string;
  kind_of := fun k => k;
  pem_decode := fun s => if bool_decide (s = "") then None else Some s;
  parse_pkix := fun s =>
    if bool_decide (s = "ecdsa") then Ok ECDSA
    else if bool_decide (s = "ed25519") then Ok Ed25519 else Err (EText "x509");
  parse_pkcs1 := fun s => if bool_decide (s = "rsa") then Ok RSA else Err (EText "x509");
  jwt_parse := fun opts k now token =>
    if negb (forallb (toy_allows now token) opts) then Err (EText "jwt: token is unverifiable")
    else if (match toy_exp token with Some e => e <=? now | None => false end)
    then Err (EWrap "token has invalid claims" (ESentinel JwtErrTokenExpired))
    else Ok {| tok_valid := true; tok_player := default "" (toy_part 1 token) |}
|}.

Lemma toy_jwt_laws : @JwtParserLaws toy_jwt toy_alg toy_exp.
Proof.
  assert (forall opts k now token p, @jwt_parse toy_jwt opts k now token = Ok p ->
    (forall o, o ∈ opts -> toy_allows now token o = true) /\ forall e, toy_exp token = Some e -> now < e) as Hp.
  { intros opts k now token p. cbn. destruct (forallb _ opts) eqn:Hf; [|done]. cbn [negb].
    rewrite forallb_forall in Hf. destruct (toy_exp token) as [e|]; [destruct (Z.leb_spec e now); [done|]|];
      (split; [intros o Ho; by apply Hf, list_elem_of_In|]); intros; simplify_eq; done. }
  split.
  - intros opts ms k now token p [Ho _]%Hp Hin. specialize (Ho _ Hin). by apply bool_decide_eq_true in Ho.
  - intros opts k now token p e [_ He]%Hp. apply He.
  - intros opts k now token p [Ho _]%Hp Hin. specialize (Ho _ Hin). by apply bool_decide_eq_true in Ho.
Qed.

Definition toy_authenticator : @JWTAuthenticator toy_jwt :=
  @Build_JWTAuthenticator toy_jwt RSA ["RS256"; "RS384"; "RS512"; "PS256"; "PS384"; "PS512"]
    [WithValidMethods ["RS256"; "RS384"; "RS512"; "PS256"; "PS384"; "PS512"]; WithExpirationRequired].

(** No expiry, an expired token, a token of another family. *)
Example toy_refused :
  (fun t => is_ok (@Verify toy_jwt toy_authenticator (100 * Second) t)) <$>
    ["RS256.p"; "RS256.p.100"; "HS256.p.101"; "RS256.p.101"] = [false; false; false; true].
Proof. vm_compute. reflexivity. Qed.

Lemma BindSession_binds_verified_witness :
  let sess := session_New "conn-1" "10.0.0.1" 0 in
  PlayerID (BindSession (@Verify toy_jwt toy_authenticator 0) sess "RS256.player-1.9").1 <> "" /\
  (BindSession (@Verify toy_jwt toy_authenticator 0) sess "none.player-1.9").1 = sess.
Proof.
  intros sess. split.
  - edestruct (@BindSession_binds_verified toy_jwt toy_authenticator 0 sess "RS256.player-1.9") as (_ & Hok & _);
      [vm_compute; reflexivity|]. destruct Hok as (_ & Hp & _); [reflexivity|]. exact Hp.
  - edestruct (@BindSession_binds_verified toy_jwt toy_authenticator 0 sess "none.player-1.9") as (_ & _ & Hno & _);
      [vm_compute; reflexivity|]. destruct Hno as [E _]; reflexivity.
Defined.

Lemma Verify_algorithm_pinned_witness :
  method_family (toy_alg "PS384.p.9") = Some RSA /\
  exists e, toy_exp "PS384.p.9" = Some e /\ 8 * Second < e.
Proof.
  assert (@auth_New toy_jwt "rsa" = Ok toy_authenticator) as Hn by reflexivity.
  assert (@Verify toy_jwt toy_authenticator (8 * Second) "PS384.p.9" = Ok "p") as Hv by (vm_compute; reflexivity).
  pose proof (@Verify_algorithm_pinned toy_jwt toy_alg toy_exp toy_jwt_laws
    "rsa" toy_authenticator (8 * Second) "PS384.p.9" "p" Hn Hv) as H.
  exact (conj (proj1 H) (proj1 (proj2 (proj2 (proj2 H))))).
Defined.
