(* ===== verification/Circuit.v ===== *)
(** * internal/limiter/circuit.go: the circuit breaker

    One function per method; the mutex makes each of them atomic.  A method that reads
    the clock takes its readings as arguments, in the order the code takes them ([allow]
    reads it once to compare and once more to stamp the probe).  The failure threshold
    and the failure ratio are IEEE double precision numbers ([SpecFloat]), so the
    comparison is the one the machine makes.  [gauge] is the exported
    telemetry.CircuitState. *)

From Stdlib Require Import SpecFloat.
From S2P Require Import Prelude GoNum GoErr.

(** ** float64 *)

Definition float64_of_int (z : Z) : spec_float := binary_normalize 53 1024 z 0 false.
Definition float64_div (x y : spec_float) : spec_float := SFdiv 53 1024 x y.
(** 0.5 *)
Definition float64_half : spec_float := float64_div (float64_of_int 1) (float64_of_int 2).

(** ** Data *)

Inductive CircuitState := CircuitClosed | CircuitHalfOpen | CircuitOpen.

#[export] Instance CircuitState_eq_dec : EqDecision CircuitState.
Proof. solve_decision. Defined.

(** The [iota] encoding published to telemetry. *)
Definition state_number (s : CircuitState) : Z :=
  match s with CircuitClosed => 0 | CircuitHalfOpen => 1 | CircuitOpen => 2 end.

Record CircuitConfig := mkCircuitConfig {
  Window : Z;
  MinSamples : Z;
  FailureThreshold : spec_float;
  OpenDuration : Z
}.

Record circuitBreaker := mkBreaker {
  cfg : CircuitConfig;
  cstate : CircuitState;
  openedAt : Z;
  probeActive : bool;
  probeStartedAt : Z;
  events : list bool;
  gauge : Z
}.

Definition defaultCircuitWindow : Z := 20.
Definition defaultCircuitMinSamples : Z := 5.
Definition defaultCircuitFailureThreshold : spec_float := float64_half.
Definition defaultCircuitOpenDuration : Z := 30 * Second.

(** ** Methods *)

(** Zero fields take their defaults. *)
Definition circuit_defaults (c : CircuitConfig) : CircuitConfig :=
  mkCircuitConfig
    (if Window c =? 0 then defaultCircuitWindow else Window c)
    (if MinSamples c =? 0 then defaultCircuitMinSamples else MinSamples c)
    (if SFeqb (FailureThreshold c) (S754_zero false) then defaultCircuitFailureThreshold
     else FailureThreshold c)
    (if OpenDuration c =? 0 then defaultCircuitOpenDuration else OpenDuration c).

Definition newCircuitBreaker (c0 : CircuitConfig) : res error circuitBreaker :=
  let c := circuit_defaults c0 in
  if Window c <=? 0 then Err (EText "limiter: circuit window must be positive")
  else if MinSamples c <=? 0 then Err (EText "limiter: circuit min samples must be positive")
  else if Window c <? MinSamples c
  then Err (EText "limiter: circuit min samples cannot exceed window")
  else if SFleb (FailureThreshold c) (S754_zero false) || SFltb (float64_of_int 1) (FailureThreshold c)
  then Err (EText "limiter: circuit failure threshold must be in (0,1]")
  else if OpenDuration c <=? 0
  then Err (EText "limiter: circuit open duration must be positive")
  else Ok (mkBreaker c CircuitClosed 0 false 0 [] (state_number CircuitClosed)).

Definition ready (now : Z) (c : circuitBreaker) : bool :=
  match cstate c with
  | CircuitClosed => true
  | CircuitOpen => OpenDuration (cfg c) <=? time_sub now (openedAt c)
  | CircuitHalfOpen =>
      negb (probeActive c) || (OpenDuration (cfg c) <=? time_sub now (probeStartedAt c))
  end.

(** The half-open tail of [allow]. *)
Definition allow_probe (now1 now2 : Z) (c : circuitBreaker) : circuitBreaker * bool :=
  if probeActive c && (time_sub now1 (probeStartedAt c) <? OpenDuration (cfg c))
  then (c, false)
  else (mkBreaker (cfg c) (cstate c) (openedAt c) true now2 (events c) (gauge c), true).

Definition allow (now1 now2 : Z) (c : circuitBreaker) : circuitBreaker * bool :=
  match cstate c with
  | CircuitClosed => (c, true)
  | CircuitOpen =>
      if time_sub now1 (openedAt c) <? OpenDuration (cfg c) then (c, false)
      else allow_probe now1 now2
             (mkBreaker (cfg c) CircuitHalfOpen (openedAt c) false (probeStartedAt c) (events c)
                (state_number CircuitHalfOpen))
  | CircuitHalfOpen => allow_probe now1 now2 c
  end.

Definition cancelProbe (c : circuitBreaker) : circuitBreaker :=
  match cstate c with
  | CircuitHalfOpen =>
      mkBreaker (cfg c) (cstate c) (openedAt c) false (probeStartedAt c) (events c) (gauge c)
  | _ => c
  end.

Definition openLocked (now : Z) (c : circuitBreaker) : circuitBreaker :=
  mkBreaker (cfg c) CircuitOpen now false (probeStartedAt c) [] (state_number CircuitOpen).

Definition closeLocked (c : circuitBreaker) : circuitBreaker :=
  mkBreaker (cfg c) CircuitClosed (openedAt c) false (probeStartedAt c) []
    (state_number CircuitClosed).

Definition failures (es : list bool) : Z := Z.of_nat (length (filter (fun e => e = false) es)).

(** Enough samples and [float64(failures)/float64(len(events)) >= threshold]. *)
Definition tripped (cf : CircuitConfig) (es : list bool) : bool :=
  (MinSamples cf <=? Z.of_nat (length es)) &&
  SFleb (FailureThreshold cf)
    (float64_div (float64_of_int (failures es)) (float64_of_int (Z.of_nat (length es)))).

(** The event list after one more outcome, cut to the window. *)
Definition push_event (cf : CircuitConfig) (es : list bool) (success : bool) : list bool :=
  last_n (Z.to_nat (Window cf)) (es ++ [success]).

Definition record (success : bool) (now : Z) (c : circuitBreaker) : circuitBreaker :=
  match cstate c with
  | CircuitHalfOpen =>
      let c := mkBreaker (cfg c) (cstate c) (openedAt c) false (probeStartedAt c) (events c) (gauge c) in
      if success then closeLocked c else openLocked now c
  | CircuitClosed =>
      let es := push_event (cfg c) (events c) success in
      let c := mkBreaker (cfg c) (cstate c) (openedAt c) (probeActive c) (probeStartedAt c) es (gauge c) in
      if tripped (cfg c) es then openLocked now c else c
  | CircuitOpen => c
  end.

(** ** Runs *)

(** The calls the limiter makes, with their clock readings. *)
Inductive call :=
| CallReady (now : Z)
| CallAllow (now1 now2 : Z)
| CallCancelProbe
| CallRecord (success : bool) (now : Z).

(** The breaker after a call and, for the two queries, the answer. *)
Definition do_call (o : call) (c : circuitBreaker) : circuitBreaker * option bool :=
  match o with
  | CallReady now => (c, Some (ready now c))
  | CallAllow now1 now2 => let '(c, b) := allow now1 now2 c in (c, Some b)
  | CallCancelProbe => (cancelProbe c, None)
  | CallRecord success now => (record success now c, None)
  end.

Fixpoint run (os : list call) (c : circuitBreaker) : circuitBreaker * list (call * option bool) :=
  match os with
  | [] => (c, [])
  | o :: os =>
      let '(c, b) := do_call o c in
      let '(c, bs) := run os c in (c, (o, b) :: bs)
  end.

Definition reachable (c : circuitBreaker) : Prop :=
  exists cf c0 os, newCircuitBreaker cf = Ok c0 /\ (run os c0).1 = c.

(** The instants a call reads. *)
Definition call_times (o : call) : list Z :=
  match o with
  | CallReady now => [now]
  | CallAllow now1 now2 => [now1; now2]
  | CallCancelProbe => []
  | CallRecord _ now => [now]
  end.

Definition is_query (o : call) : bool :=
  match o with CallReady _ | CallAllow _ _ => true | _ => false end.

Definition admitted (o : call * option bool) : Prop :=
  match o with (CallAllow _ _, Some true) => True | _ => False end.

#[export] Instance admitted_dec o : Decision (admitted o).
Proof. destruct o as [[] [[]|]]; apply _. Defined.

(** ** Invariant *)

Record cfg_ok (cf : CircuitConfig) : Prop := {
  ok_window : 0 < Window cf;
  ok_samples : 0 < MinSamples cf <= Window cf;
  ok_open : 0 < OpenDuration cf
}.

Record breaker_inv (c : circuitBreaker) : Prop := {
  bi_cfg : cfg_ok (cfg c);
  bi_window : Z.of_nat (length (events c)) <= Window (cfg c);
  bi_events : cstate c <> CircuitClosed -> events c = [];
  bi_probe : probeActive c = true -> cstate c = CircuitHalfOpen;
  bi_calm : cstate c = CircuitClosed -> tripped (cfg c) (events c) = false;
  bi_gauge : gauge c = state_number (cstate c)
}.

Lemma tripped_nil cf : cfg_ok cf -> tripped cf [] = false.
Proof.
  intros [_ Hs _]. unfold tripped. change (Z.of_nat (length [])) with 0.
  by rewrite (proj2 (Z.leb_gt (MinSamples cf) 0)) by lia.
Qed.

Lemma new_inv cf c : newCircuitBreaker cf = Ok c -> breaker_inv c.
Proof.
  unfold newCircuitBreaker. set (d := circuit_defaults cf).
  repeat (case_goal; [done|]). intros [= <-].
  assert (cfg_ok d) as Hd by (split; lia). clearbody d.
  split; simpl; auto using tripped_nil; try done. pose proof (ok_window d Hd). lia.
Qed.

Lemma push_event_window cf es b :
  cfg_ok cf -> Z.of_nat (length (push_event cf es b)) <= Window cf.
Proof. intros [? _ _]. unfold push_event. rewrite last_n_length. lia. Qed.

Lemma openLocked_inv now c : cfg_ok (cfg c) -> breaker_inv (openLocked now c).
Proof. intros H. split; simpl; try done. pose proof (ok_window _ H). lia. Qed.

Lemma closeLocked_inv c : cfg_ok (cfg c) -> breaker_inv (closeLocked c).
Proof. intros H. split; simpl; auto using tripped_nil; try done. pose proof (ok_window _ H). lia. Qed.

#[export] Hint Resolve openLocked_inv closeLocked_inv push_event_window : gw.

Lemma allow_inv now1 now2 c : breaker_inv c -> breaker_inv (allow now1 now2 c).1.
Proof.
  intros H. pose proof H as [Hc Hw He Hp Hcalm Hg]. unfold allow, allow_probe.
  destruct (cstate c) eqn:E; simpl; repeat case_goal; try done; split; simpl; try done; auto;
    rewrite ?E; auto; try (intros; apply He; congruence); done.
Qed.

Lemma record_inv b now c : breaker_inv c -> breaker_inv (record b now c).
Proof.
  intros H. pose proof H as [Hc Hw He Hp Hcalm Hg]. unfold record.
  destruct (cstate c) eqn:E; simpl; [| |done].
  - destruct (tripped _ (push_event _ _ _)) eqn:Ht; [by apply openLocked_inv|].
    split; simpl; auto with gw; congruence.
  - destruct b; [by apply closeLocked_inv | by apply openLocked_inv].
Qed.

Lemma cancelProbe_inv c : breaker_inv c -> breaker_inv (cancelProbe c).
Proof.
  intros H. pose proof H as [Hc Hw He Hp Hcalm Hg]. unfold cancelProbe.
  destruct (cstate c) eqn:E; [done| |done].
  split; simpl; try done; rewrite ?E; auto.
Qed.

Lemma do_call_inv o c : breaker_inv c -> breaker_inv (do_call o c).1.
Proof.
  intros H. destruct o as [now|now1 now2| |b now]; simpl;
    auto using cancelProbe_inv, record_inv.
  pose proof (allow_inv now1 now2 c H). by destruct (allow now1 now2 c).
Qed.

Lemma run_inv os c : breaker_inv c -> breaker_inv (run os c).1.
Proof.
  revert c. induction os as [|o os IH]; intros c H; [done|]. simpl.
  pose proof (do_call_inv o c H). destruct (do_call o c) as [c' b].
  specialize (IH c'). destruct (run os c'). simpl in *. auto.
Qed.

Lemma reachable_breaker_inv c : reachable c -> breaker_inv c.
Proof. intros (cf & c0 & os & Hnew & <-). apply run_inv. by eapply new_inv. Qed.

Lemma run_cons o os c :
  run (o :: os) c =
  let '(c1, b) := do_call o c in ((run os c1).1, (o, b) :: (run os c1).2).
Proof. simpl. destruct (do_call o c) as [c1 b]. by destruct (run os c1). Qed.

(** ** Admission *)

Lemma allow_blocked now1 now2 c :
  cstate c = CircuitOpen -> time_sub now1 (openedAt c) < OpenDuration (cfg c) ->
  allow now1 now2 c = (c, false).
Proof. unfold allow. intros -> H. by rewrite (proj2 (Z.ltb_lt _ _) H). Qed.

(** While the breaker is open and the instants stay inside the open window, no call
    changes it and no query says yes. *)
Lemma open_call o c :
  cstate c = CircuitOpen ->
  Forall (fun t => time_sub t (openedAt c) < OpenDuration (cfg c)) (call_times o) ->
  do_call o c = (c, if is_query o then Some false else None).
Proof.
  intros Hs Ht. destruct o as [now|now1 now2| |b now]; simpl in *.
  - apply Forall_cons in Ht as [Ht _]. unfold ready. rewrite Hs.
    by rewrite (proj2 (Z.leb_gt _ _)).
  - apply Forall_cons in Ht as [Ht _]. by rewrite allow_blocked.
  - unfold cancelProbe. by rewrite Hs.
  - unfold record. by rewrite Hs.
Qed.

(** A probe admitted at [t] and not resolved refuses the queries of the next
    [OpenDuration]. *)
Lemma probing_call o c :
  cstate c = CircuitHalfOpen -> probeActive c = true -> is_query o = true ->
  Forall (fun t => time_sub t (probeStartedAt c) < OpenDuration (cfg c)) (call_times o) ->
  do_call o c = (c, Some false).
Proof.
  intros Hs Hp Hq Ht. destruct o as [now|now1 now2| |b now]; try done; simpl in *;
    apply Forall_cons in Ht as [Ht _].
  - unfold ready. rewrite Hs, Hp. by rewrite (proj2 (Z.leb_gt _ _)).
  - unfold allow, allow_probe. rewrite Hs, Hp. by rewrite (proj2 (Z.ltb_lt _ _)).
Qed.

Lemma allow_true_probing now1 now2 c c' :
  breaker_inv c -> cstate c <> CircuitClosed -> allow now1 now2 c = (c', true) ->
  cstate c' = CircuitHalfOpen /\ probeActive c' = true /\ probeStartedAt c' = now2 /\
  cfg c' = cfg c.
Proof.
  intros Hinv Hs. unfold allow, allow_probe.
  destruct (cstate c) eqn:E; [done| |]; simpl; repeat case_goal; intros [= <-]; simpl; auto.
Qed.

Lemma query_refused_same o c c' b :
  is_query o = true -> do_call o c = (c', b) -> ~ admitted (o, b) -> c' = c.
Proof.
  destruct o as [now|now1 now2| |]; try done; intros _; simpl; [by intros [= <- _]|].
  destruct (allow now1 now2 c) as [c2 b2] eqn:Ea. intros [= <- <-].
  destruct b2; [simpl; tauto|]. intros _. revert Ea. unfold allow, allow_probe.
  destruct (cstate c); simpl; repeat case_goal; congruence.
Qed.

Lemma in_window t u t0 d : t0 <= t < t0 + d -> t0 <= u < t0 + d -> time_sub t u < d.
Proof. unfold time_sub, min_int64. lia. Qed.

(** Only queries, all inside one interval of length [OpenDuration] after an admission:
    every one is refused. *)
Lemma probing_run os c t0 :
  cstate c = CircuitHalfOpen -> probeActive c = true ->
  t0 <= probeStartedAt c < t0 + OpenDuration (cfg c) ->
  Forall (fun o => is_query o = true /\
    Forall (fun t => t0 <= t < t0 + OpenDuration (cfg c)) (call_times o)) os ->
  filter admitted (run os c).2 = [].
Proof.
  intros Hs Hp Ht0 Hos. induction Hos as [|o os [Hq Hto] _ IH]; [done|].
  rewrite run_cons, probing_call; [|done..|].
  - simpl. by rewrite filter_cons_False by (destruct o; simpl; tauto).
  - eapply Forall_impl; [exact Hto|]. intros t Ht. by apply (in_window _ _ t0).
Qed.

(** ** The default threshold *)

Definition half_table : bool :=
  forallb (fun n => forallb (fun f =>
    eqb (SFleb float64_half (float64_div (float64_of_int f) (float64_of_int n))) (n <=? 2 * f))
    (seqZ 0 (n + 1))) (seqZ 1 20).

Lemma half_table_true : half_table = true.
Proof. vm_compute. reflexivity. Qed.

(** For every ratio the default window can produce, the double-precision comparison with
    0.5 is the exact one. *)
Lemma half_exact f n :
  0 <= f <= n -> 1 <= n <= 20 ->
  SFleb float64_half (float64_div (float64_of_int f) (float64_of_int n)) = (n <=? 2 * f).
Proof.
  intros Hf Hn. pose proof half_table_true as H. unfold half_table in H.
  rewrite forallb_forall in H. specialize (H n).
  rewrite <- list_elem_of_In, elem_of_seqZ in H. specialize (H ltac:(lia)).
  rewrite forallb_forall in H. specialize (H f).
  rewrite <- list_elem_of_In, elem_of_seqZ in H. specialize (H ltac:(lia)).
  by apply eqb_prop.
Qed.

Lemma failures_bounds es : 0 <= failures es <= Z.of_nat (length es).
Proof. unfold failures. pose proof (length_filter (fun e => e = false) es). lia. Qed.

Definition default_config : CircuitConfig :=
  circuit_defaults (mkCircuitConfig 0 0 (S754_zero false) 0).

Lemma default_tripped es :
  (length es <= 20)%nat ->
  tripped default_config es = (5 <=? Z.of_nat (length es)) && (Z.of_nat (length es) <=? 2 * failures es).
Proof.
  intros Hl. unfold tripped. change (MinSamples default_config) with 5.
  destruct (Z.leb_spec 5 (Z.of_nat (length es))); [|done]. simpl.
  apply half_exact; [apply failures_bounds|lia].
Qed.

(** ** Properties *)

(** C31: every breaker the program can reach is well formed: its window is never
    exceeded, only a half-open breaker has a probe, only a closed one keeps outcomes, a
    closed one is below its threshold, and the published gauge is its state. *)
Theorem breaker_reachable_wf c :
  reachable c ->
  Z.of_nat (length (events c)) <= Window (cfg c) /\
  (probeActive c = true -> cstate c = CircuitHalfOpen) /\
  (cstate c <> CircuitClosed -> events c = []) /\
  (cstate c = CircuitClosed -> tripped (cfg c) (events c) = false) /\
  gauge c = state_number (cstate c).
Proof. intros [Hc Hw He Hp Hcalm Hg]%reachable_breaker_inv. auto. Qed.

(** With the deployed configuration a closed breaker opens on an outcome exactly when
    at least five of the last twenty outcomes are known and at least half of those are
    failures; the floating-point ratio of the code decides this exactly. *)
Lemma default_breaker_trips c b now :
  reachable c -> cfg c = default_config -> cstate c = CircuitClosed ->
  let es := last_n 20 (events c ++ [b]) in
  (cstate (record b now c) = CircuitOpen <->
   (5 <= length es)%nat /\ Z.of_nat (length es) <= 2 * failures es) /\
  (cstate (record b now c) = CircuitClosed -> events (record b now c) = es).
Proof.
  intros Hr Hcfg Hs es. unfold record. rewrite Hs.
  change (push_event (cfg c) (events c) b) with (last_n (Z.to_nat (Window (cfg c))) (events c ++ [b])).
  simpl. rewrite Hcfg. change (Z.to_nat (Window default_config)) with 20%nat. fold es.
  rewrite default_tripped by (unfold es; rewrite last_n_length; lia).
  destruct (Z.leb_spec 5 (Z.of_nat (length es))), (Z.leb_spec (Z.of_nat (length es)) (2 * failures es));
    simpl; (split; [split|]); try done; lia.
Qed.

(** An open breaker stays open, and admits nothing, through any calls whatever (late
    results of calls admitted earlier included) as long as [OpenDuration] has not
    elapsed since it opened. *)
Lemma open_breaker_holds c os :
  cstate c = CircuitOpen ->
  Forall (fun o => Forall (fun t => t < openedAt c + OpenDuration (cfg c)) (call_times o)) os ->
  0 < OpenDuration (cfg c) ->
  (run os c).1 = c /\ filter admitted (run os c).2 = [].
Proof.
  intros Hs Hos Hd. induction Hos as [|o os Ho _ IH]; [done|].
  rewrite run_cons, open_call; [|done|].
  - simpl. by rewrite filter_cons_False by (destruct o; simpl; tauto).
  - eapply Forall_impl; [exact Ho|]. simpl. unfold time_sub, min_int64. intros t Ht. lia.
Qed.

(** C32: the breaker cannot wedge.  Whatever happened before (a probe never resolved
    included), once [OpenDuration] has passed since it opened and since its last probe
    started, both [ready] and [allow] say yes. *)
Theorem breaker_recovers c now1 now2 :
  reachable c -> OpenDuration (cfg c) <= max_int64 ->
  openedAt c + OpenDuration (cfg c) <= now1 -> probeStartedAt c + OpenDuration (cfg c) <= now1 ->
  ready now1 c = true /\ (allow now1 now2 c).2 = true.
Proof.
  intros [[_ _ Hd] _ _ _ _ _]%reachable_breaker_inv Hmax Ho Hp.
  assert (OpenDuration (cfg c) <= time_sub now1 (openedAt c)) by (apply time_sub_ge; lia).
  assert (OpenDuration (cfg c) <= time_sub now1 (probeStartedAt c)) by (apply time_sub_ge; lia).
  unfold ready, allow, allow_probe. destruct (cstate c); simpl.
  - done.
  - rewrite (proj2 (Z.leb_le _ _)), (proj2 (Z.ltb_ge _ _)) by done.
    by destruct (probeActive c).
  - by rewrite (proj2 (Z.leb_le _ _)), (proj2 (Z.ltb_ge _ _)) by done.
Qed.

(** C33: a breaker that is not closed admits at most one call (the probe) among any
    queries made within one [OpenDuration], in any order, if no outcome is recorded and
    no probe cancelled meanwhile. *)
Theorem single_probe c os t0 :
  reachable c -> cstate c <> CircuitClosed ->
  Forall (fun o => is_query o = true /\
    Forall (fun t => t0 <= t < t0 + OpenDuration (cfg c)) (call_times o)) os ->
  (length (filter admitted (run os c).2) <= 1)%nat.
Proof.
  intros Hr%reachable_breaker_inv Hs Hos. induction Hos as [|o os [Hq Ho] Hos IH]; [simpl; lia|].
  rewrite run_cons. destruct (do_call o c) as [c1 b] eqn:E. simpl.
  destruct (decide (admitted (o, b))) as [Ha|Hn].
  - rewrite filter_cons_True by done. destruct o as [|now1 now2| |]; try done.
    simpl in E. destruct (allow now1 now2 c) as [c2 b2] eqn:Ea. simplify_eq.
    destruct b2; [|done].
    destruct (allow_true_probing _ _ _ _ Hr Hs Ea) as (H1 & H2 & H3 & H4).
    rewrite (probing_run os c1 t0); rewrite ?H4, ?H3; try done.
    simpl in Ho. apply Forall_cons in Ho as [_ Ho]. by apply Forall_cons in Ho as [Ho _].
  - rewrite filter_cons_False by done.
    by rewrite (query_refused_same _ _ _ _ Hq E Hn).
Qed.

(** [ready], the check the limiter makes before it reserves anything, is exactly the
    answer [allow] would give at that instant. *)
Lemma ready_predicts_allow c now1 now2 : ready now1 c = (allow now1 now2 c).2.
Proof.
  unfold ready, allow, allow_probe.
  destruct (cstate c), (probeActive c); simpl; try done;
    rewrite Z.leb_antisym; by destruct (_ <? _).
Qed.

(** ** Witnesses *)

Definition fresh_default : circuitBreaker :=
  mkBreaker default_config CircuitClosed 0 false 0 [] 0.

Definition five_failures : list call := (fun t => CallRecord false t) <$> [1; 2; 3; 4; 5].

Definition demo_open : circuitBreaker := (run five_failures fresh_default).1.

Lemma reach_run os : reachable (run os fresh_default).1.
Proof.
  exists (mkCircuitConfig 0 0 (S754_zero false) 0), fresh_default, os.
  split; [vm_compute; reflexivity|reflexivity].
Qed.

Lemma breaker_reachable_wf_witness : gauge demo_open = 2 /\ cstate demo_open = CircuitOpen.
Proof.
  destruct (breaker_reachable_wf demo_open (reach_run five_failures)) as (_ & _ & _ & _ & H).
  split; [rewrite H; vm_compute; reflexivity | vm_compute; reflexivity].
Defined.

Lemma default_breaker_trips_witness :
  cstate (record false 9 (run ((fun b => CallRecord b 1) <$> [true; true; false; false]) fresh_default).1)
  = CircuitOpen.
Proof.
  edestruct (default_breaker_trips
    (run ((fun b => CallRecord b 1) <$> [true; true; false; false]) fresh_default).1 false 9)
    as [[_ H] _]; [apply reach_run | vm_compute; reflexivity..|].
  apply H. split; vm_compute; [lia | discriminate].
Defined.

Lemma open_breaker_holds_witness :
  (run [CallRecord true 6; CallAllow 7 8; CallReady (20 * Second)] demo_open).1 = demo_open.
Proof.
  destruct (open_breaker_holds demo_open
    [CallRecord true 6; CallAllow 7 8; CallReady (20 * Second)]) as [H _];
    [vm_compute; reflexivity | | vm_compute; reflexivity | exact H].
  repeat constructor; vm_compute; reflexivity.
Defined.

Lemma breaker_recovers_witness : (allow (31 * Second) (31 * Second) demo_open).2 = true.
Proof.
  destruct (breaker_recovers demo_open (31 * Second) (31 * Second)) as [_ H];
    [apply (reach_run five_failures) | vm_compute; discriminate.. | exact H].
Defined.

Lemma single_probe_witness :
  (length (filter admitted
    (run [CallAllow (31 * Second) (31 * Second); CallAllow (32 * Second) (32 * Second);
          CallReady (33 * Second)] demo_open).2) <= 1)%nat.
Proof.
  apply (single_probe _ _ (31 * Second)).
  - apply (reach_run five_failures).
  - vm_compute. discriminate.
  - repeat (constructor; [split; [reflexivity | repeat constructor; vm_compute; congruence]|]).
    constructor.
Defined.
