(* ===== verification/Moderation.v ===== *)
(** * internal/moderation: content checks on input and on the streamed output

    The keyword policy, the moderators and the streaming [OutputFilter], byte for byte:
    the buffer is a Go string, segments are cut at byte offsets found by scanning runes,
    the overlap is a number of runes.  The theorems lift this to runes (every delta is
    well-formed UTF-8, being decoded JSON) and relate what the filter forwards and blocks
    to the text of the whole stream. *)

From S2P Require Import Prelude GoNum GoStrings.

(** ** Policies and moderators *)

(** The Moderator interface. *)
Record Moderator := {
  CheckInput : string -> bool * string;
  CheckOutput : string -> bool * string
}.

Definition DefaultInputFallback : string := "抱歉，我无法回应这个请求。".
Definition DefaultOutputFallback : string := "（这段回复已被内容审核拦截。）".

(** The Policy interface is its one method. *)
Definition Policy : Type := string -> bool.

Section Keyword.
Context `{UnicodeCase}.

Definition NewKeywordPolicy (words : list string) : list string :=
  filter (fun w => w <> "") ((fun w => ToLower (TrimSpace w)) <$> words).

(** [KeywordPolicy.Allowed] for the normalised list. *)
Definition Allowed (banned : list string) (text : string) : bool :=
  let lower := ToLower text in
  forallb (fun w => negb (Contains lower w)) banned.
End Keyword.

Record PolicyModerator := {
  policy : Policy;
  inputFallback : string;
  outputFallback : string
}.

Definition NewPolicyModerator (p : Policy) : PolicyModerator :=
  {| policy := p; inputFallback := DefaultInputFallback; outputFallback := DefaultOutputFallback |}.

Definition WithFallbacks (m : PolicyModerator) (input output : string) : PolicyModerator :=
  {| policy := policy m; inputFallback := input; outputFallback := output |}.

Definition policy_moderator (m : PolicyModerator) : Moderator := {|
  CheckInput := fun text => if policy m text then (true, "") else (false, inputFallback m);
  CheckOutput := fun text => if policy m text then (true, "") else (false, outputFallback m)
|}.

Definition AllowAll : Moderator := {|
  CheckInput := fun _ => (true, "");
  CheckOutput := fun _ => (true, "")
|}.

(** ** OutputFilter *)

Definition newline : string := String.String (Ascii.ascii_of_nat 10) "".
Definition tab : string := String.String (Ascii.ascii_of_nat 9) "".

Definition sentenceTerminators : string := "。！？.!?" +:+ newline.
Definition DefaultMaxSegmentBytes : Z := 512.
Definition DefaultOverlapRunes : Z := 32.

Definition rune_in (chars : list Z) (r : Z) : bool := existsb (Z.eqb r) chars.

Record OutputFilter := mkFilter {
  buf : string;
  maxSegmentBytes : Z;
  overlapRunes : Z;
  overlap : string;
  blocked : bool
}.

Definition NewOutputFilter : OutputFilter :=
  mkFilter "" DefaultMaxSegmentBytes DefaultOverlapRunes "" false.

(** The byte offset just past the last terminator. *)
Definition cutAtLastTerminator (text : string) : option nat :=
  match last_index_any (rune_in (runes sentenceTerminators)) (decode (bytes text)) with
  | Some (idx, size) => Some (idx + size)%nat
  | None => None
  end.

Definition lastRunes (s : string) (n : Z) : string :=
  if (n <=? 0) || bool_decide (s = "") then ""
  else
    let rs := runes s in
    if Z.of_nat (length rs) <=? n then s
    else string_of_runes (drop (length rs - Z.to_nat n) rs).

Definition splitKeepingLastToken (text : string) : string * string :=
  match last_index_any (rune_in (runes (" " +:+ tab))) (decode (bytes text)) with
  | Some (i, _) =>
      if (0 <? Z.of_nat i) && (Z.of_nat i <? str_len text - 1)
      then (of_bytes (take (i + 1) (bytes text)), of_bytes (drop (i + 1) (bytes text)))
      else (text, "")
  | None => (text, "")
  end.

(** The segment to moderate now and the text to keep, if a segment is complete. *)
Definition next_segment (f : OutputFilter) (final : bool) (text : string) : option (string * string) :=
  if final then Some (text, "")
  else
    match cutAtLastTerminator text with
    | Some cut => Some (of_bytes (take cut (bytes text)), of_bytes (drop cut (bytes text)))
    | None =>
        if maxSegmentBytes f <=? str_len text then Some (splitKeepingLastToken text) else None
    end.

Section Filter.
Context (mod_ : Moderator).

(** Result of [Push], [Flush] and [drain]: (emit, blocked, fallback). *)
Definition drain (final : bool) (f : OutputFilter) : OutputFilter * (string * bool * string) :=
  let text := buf f in
  if bool_decide (text = "") then (f, ("", false, ""))
  else
    match next_segment f final text with
    | None => (f, ("", false, ""))
    | Some (segment, remainder) =>
        let '(allowed, fb) := CheckOutput mod_ (overlap f +:+ segment) in
        if negb allowed
        then (mkFilter "" (maxSegmentBytes f) (overlapRunes f) "" true, ("", true, fb))
        else (mkFilter remainder (maxSegmentBytes f) (overlapRunes f)
                (lastRunes (overlap f +:+ segment) (overlapRunes f)) (blocked f),
              (segment, false, ""))
    end.

Definition Push (delta : string) (f : OutputFilter) : OutputFilter * (string * bool * string) :=
  if blocked f then (f, ("", true, ""))
  else drain false (mkFilter (buf f +:+ delta) (maxSegmentBytes f) (overlapRunes f) (overlap f)
                      (blocked f)).

Definition Flush (f : OutputFilter) : OutputFilter * (string * bool * string) :=
  if blocked f then (f, ("", true, "")) else drain true f.

(** A whole stream: the deltas in order; the filter and the text forwarded. *)
Fixpoint push_all (ds : list string) (f : OutputFilter) : OutputFilter * string :=
  match ds with
  | [] => (f, "")
  | d :: ds =>
      let '(f, (emit, _, _)) := Push d f in
      let '(f, rest) := push_all ds f in (f, emit +:+ rest)
  end.

Definition filter_stream (ds : list string) : OutputFilter * string :=
  let '(f, out) := push_all ds NewOutputFilter in
  let '(f, (emit, _, _)) := Flush f in (f, out +:+ emit).
End Filter.

(** The concatenation of the deltas. *)
Definition stream_text (ds : list string) : string := foldr String.append "" ds.

(** ** Lemmas: cutting at runes *)

Lemma last_index_any_runes g rs i w :
  last_index_any g ((fun r => (r, encode r)) <$> rs) = Some (i, w) ->
  exists p r q, rs = p ++ r :: q /\ g r = true /\ i = length (encode_all p) /\
                w = length (encode r) /\ Forall (fun c => g c = false) q.
Proof.
  revert i w. induction rs as [|c rs IH]; intros i w; [done|]. rewrite fmap_cons. simpl.
  destruct (last_index_any g _) as [[j v]|] eqn:E.
  - intros [= <- <-]. destruct (IH _ _ eq_refl) as (p & r & q & -> & Hr & -> & -> & Hq).
    exists (c :: p), r, q. split_and!; try done. by rewrite encode_all_cons, length_app.
  - destruct (g c) eqn:Hc; [|done]. intros [= <- <-]. exists [], c, rs. split_and!; try done.
    clear -E. induction rs as [|c rs IH]; [done|]. rewrite fmap_cons in E. simpl in E.
    destruct (last_index_any g _) as [[]|]; [done|]. destruct (g c) eqn:?; [done|].
    constructor; auto.
Qed.

Lemma string_of_runes_take p q :
  of_bytes (take (length (encode_all p)) (encode_all (p ++ q))) = string_of_runes p.
Proof. by rewrite encode_all_app, take_app_length. Qed.

Lemma string_of_runes_drop p q :
  of_bytes (drop (length (encode_all p)) (encode_all (p ++ q))) = string_of_runes q.
Proof. by rewrite encode_all_app, drop_app_length. Qed.

Lemma cutAtLastTerminator_runes rs cut :
  Forall valid_rune rs -> cutAtLastTerminator (string_of_runes rs) = Some cut ->
  exists p q, rs = p ++ q /\ cut = length (encode_all p).
Proof.
  intros Hv. unfold cutAtLastTerminator. rewrite bytes_string_of_runes, decode_encode_all by done.
  destruct (last_index_any _ _) as [[i w]|] eqn:E; [|done]. intros [= <-].
  apply last_index_any_runes in E as (p & r & q & -> & _ & -> & -> & _).
  exists (p ++ [r]), q. rewrite <- app_assoc. split; [done|].
  rewrite encode_all_app, encode_all_cons, app_nil_r, length_app. done.
Qed.

Lemma space_or_tab_width r : rune_in (runes (" " +:+ tab)) r = true -> encode r = [r].
Proof.
  replace (runes (" " +:+ tab)) with [32; 9] by (vm_compute; reflexivity).
  unfold rune_in. simpl. intros H.
  assert (r = 32 \/ r = 9) as [->| ->] by lia; vm_compute; reflexivity.
Qed.

Lemma splitKeepingLastToken_runes rs :
  Forall valid_rune rs ->
  exists p q, rs = p ++ q /\
    splitKeepingLastToken (string_of_runes rs) = (string_of_runes p, string_of_runes q).
Proof.
  intros Hv. unfold splitKeepingLastToken.
  rewrite bytes_string_of_runes, decode_encode_all by done.
  destruct (last_index_any _ _) as [[i w]|] eqn:E;
    [|exists rs, []; by rewrite app_nil_r].
  apply last_index_any_runes in E as (p & r & q & -> & Hr & -> & -> & _).
  case_goal; [|exists (p ++ r :: q), []; by rewrite app_nil_r].
  exists (p ++ [r]), q. rewrite <- app_assoc. split; [done|].
  replace (length (encode_all p) + 1)%nat with (length (encode_all (p ++ [r])))
    by (rewrite encode_all_app, encode_all_cons, app_nil_r, length_app, space_or_tab_width by done;
        done).
  replace (p ++ r :: q) with ((p ++ [r]) ++ q) by (by rewrite <- app_assoc).
  by rewrite string_of_runes_take, string_of_runes_drop.
Qed.

Lemma next_segment_runes f final rs s t :
  Forall valid_rune rs -> next_segment f final (string_of_runes rs) = Some (s, t) ->
  exists p q, rs = p ++ q /\ s = string_of_runes p /\ t = string_of_runes q /\
              (final = true -> q = []).
Proof.
  intros Hv. unfold next_segment. destruct final.
  { intros [= <- <-]. exists rs, []. by rewrite app_nil_r. }
  destruct (cutAtLastTerminator _) as [cut|] eqn:E.
  - destruct (cutAtLastTerminator_runes _ _ Hv E) as (p & q & -> & ->). intros [= <- <-].
    exists p, q. by rewrite bytes_string_of_runes, string_of_runes_take, string_of_runes_drop.
  - case_goal; [|done]. intros [= H].
    destruct (splitKeepingLastToken_runes rs Hv) as (p & q & -> & Hs).
    rewrite Hs in H. injection H as <- <-. by exists p, q.
Qed.

Lemma lastRunes_runes rs n :
  Forall valid_rune rs -> lastRunes (string_of_runes rs) n = string_of_runes (last_n (Z.to_nat n) rs).
Proof.
  intros Hv. unfold lastRunes. destruct (Z.leb_spec n 0); simpl.
  { unfold last_n. replace (Z.to_nat n) with 0%nat by lia.
    by rewrite Nat.sub_0_r, drop_all. }
  case_bool_decide as Hs.
  { apply string_of_runes_nil_inv in Hs as ->. done. }
  rewrite runes_string_of_runes by done.
  destruct (Z.leb_spec (Z.of_nat (length rs)) n); [|done].
  by rewrite last_n_ge by lia.
Qed.

(** ** Lemmas: one step of the filter *)

(** The filter has forwarded the runes [E] and holds back the runes [B]. *)
Record tracks (f : OutputFilter) (E B : list Z) : Prop := {
  tr_E : Forall valid_rune E;
  tr_B : Forall valid_rune B;
  tr_buf : buf f = string_of_runes B;
  tr_overlap : overlap f = string_of_runes (last_n (Z.to_nat (overlapRunes f)) E);
  tr_blocked : blocked f = false
}.

(** What was moderated: the overlap window and the segment. *)
Definition moderated (f : OutputFilter) (E S : list Z) : string :=
  string_of_runes (last_n (Z.to_nat (overlapRunes f)) E ++ S).

Inductive drain_spec (m : Moderator) (final : bool) (f : OutputFilter) (E B : list Z) :
    OutputFilter -> string -> bool -> string -> Prop :=
| drain_hit f' S B' fb :
    B = S ++ B' -> CheckOutput m (moderated f E S) = (false, fb) -> blocked f' = true ->
    drain_spec m final f E B f' "" true fb
| drain_pass f' S B' :
    B = S ++ B' -> tracks f' (E ++ S) B' -> overlapRunes f' = overlapRunes f ->
    (S = [] \/ (CheckOutput m (moderated f E S)).1 = true) ->
    (final = true -> B' = []) ->
    drain_spec m final f E B f' (string_of_runes S) false "".

Lemma drain_correct m final f E B f' emit bl fb :
  tracks f E B -> drain m final f = (f', (emit, bl, fb)) ->
  drain_spec m final f E B f' emit bl fb.
Proof.
  intros Ht. pose proof Ht as [HE HB Hbuf Hov Hbl]. unfold drain. rewrite Hbuf.
  case_bool_decide as Hnil.
  { apply string_of_runes_nil_inv in Hnil as ->. intros [= <- <- <- <-].
    eapply (drain_pass _ _ _ _ _ _ [] []); rewrite ?app_nil_r; auto. }
  destruct (next_segment f final _) as [[s t]|] eqn:En.
  - destruct (next_segment_runes _ _ _ _ _ HB En) as (p & q & -> & -> & -> & Hfin).
    apply Forall_app in HB as [Hp Hq].
    rewrite Hov, <- string_of_runes_app.
    destruct (CheckOutput m _) as [[] fb0] eqn:Ec; simpl; intros [= <- <- <- <-].
    + eapply (drain_pass _ _ _ _ _ _ p q); simpl; auto.
      * split; simpl; auto; [by apply Forall_app|].
        rewrite lastRunes_runes by (apply Forall_app; auto with gw).
        by rewrite last_n_app_last_n.
      * right. unfold moderated. by rewrite Ec.
    + by eapply (drain_hit _ _ _ _ _ _ p q).
  - intros [= <- <- <- <-]. eapply (drain_pass _ _ _ _ _ _ [] B); rewrite ?app_nil_r; auto.
    intros ->. done.
Qed.

Lemma Push_correct m d D f E B f' emit bl fb :
  Forall valid_rune D -> d = string_of_runes D ->
  tracks f E B -> Push m d f = (f', (emit, bl, fb)) ->
  drain_spec m false f E (B ++ D) f' emit bl fb.
Proof.
  intros HD -> [HE HB Hbuf Hov Hbl]. unfold Push. rewrite Hbl, Hbuf, <- string_of_runes_app.
  intros Hd. eapply drain_correct in Hd.
  - destruct Hd; [eapply drain_hit | eapply drain_pass]; eauto.
  - split; simpl; auto. by apply Forall_app.
Qed.

Lemma Flush_correct m f E B f' emit bl fb :
  tracks f E B -> Flush m f = (f', (emit, bl, fb)) -> drain_spec m true f E B f' emit bl fb.
Proof. intros Ht. unfold Flush. rewrite (tr_blocked _ _ _ Ht). by apply drain_correct. Qed.

Lemma NewOutputFilter_tracks : tracks NewOutputFilter [] [].
Proof. by split; try constructor. Qed.

(** A latched filter forwards nothing. *)
Lemma push_all_blocked m ds f : blocked f = true -> push_all m ds f = (f, "").
Proof.
  intros H. induction ds as [|d ds IH]; [done|]. simpl. unfold Push. by rewrite H, IH.
Qed.

(** ** Lemmas: the keyword policy on runes *)

Lemma decode_while g rs :
  drop_while (fun c : Z * list Z => g c.1) ((fun r => (r, encode r)) <$> rs) =
  (fun r => (r, encode r)) <$> drop_while g rs.
Proof. induction rs as [|r rs IH]; [done|]. simpl. by destruct (g r). Qed.

Definition trim_runes (rs : list Z) : list Z := drop_while_end is_space (drop_while is_space rs).

Lemma TrimSpace_runes rs :
  Forall valid_rune rs -> TrimSpace (string_of_runes rs) = string_of_runes (trim_runes rs).
Proof.
  intros Hv. unfold TrimSpace, drop_while_end.
  rewrite bytes_string_of_runes, decode_encode_all by done.
  rewrite decode_while, <- fmap_reverse, decode_while, <- fmap_reverse.
  unfold string_of_runes, trim_runes, drop_while_end, encode_all. f_equal.
  generalize (reverse (drop_while is_space (reverse (drop_while is_space rs)))).
  intros l. induction l as [|r l IH]; [done|]. by rewrite fmap_cons, !bind_cons, IH.
Qed.

Lemma drop_while_suffix {A} (g : A -> bool) l : exists k, l = k ++ drop_while g l.
Proof.
  induction l as [|x l [k IH]]; [by exists []|]. simpl. destruct (g x); [|by exists []].
  exists (x :: k). simpl. by f_equal.
Qed.

Lemma trim_runes_infix rs : infix_of (trim_runes rs) rs.
Proof.
  unfold trim_runes, drop_while_end.
  destruct (drop_while_suffix is_space rs) as [a Ha].
  destruct (drop_while_suffix is_space (reverse (drop_while is_space rs))) as [b Hb].
  exists a, (reverse b). rewrite Ha at 1. f_equal.
  rewrite <- (reverse_involutive (drop_while is_space rs)) at 1. rewrite Hb at 1.
  by rewrite reverse_app.
Qed.

Lemma trim_runes_valid rs : Forall valid_rune rs -> Forall valid_rune (trim_runes rs).
Proof.
  destruct (trim_runes_infix rs) as (a & b & Heq). intros Hv. rewrite Heq in Hv.
  apply Forall_app in Hv as [_ Hv]. by apply Forall_app in Hv as [Hv _].
Qed.

Section KeywordLemmas.
Context `{UnicodeCase}.

Lemma lower_valid rs : Forall valid_rune rs -> Forall valid_rune (rune_lower <$> rs).
Proof. intros Hv. apply Forall_fmap. eapply Forall_impl; [exact Hv|]. apply rune_lower_valid. Qed.

Lemma ToLower_runes rs :
  Forall valid_rune rs -> ToLower (string_of_runes rs) = string_of_runes (rune_lower <$> rs).
Proof. intros Hv. unfold ToLower. by rewrite runes_string_of_runes. Qed.

(** The words a policy bans, as runes. *)
Definition banned_runes (words : list (list Z)) : list (list Z) :=
  filter (fun w => w <> []) ((fun w => rune_lower <$> trim_runes w) <$> words).

Lemma NewKeywordPolicy_runes ws :
  Forall (Forall valid_rune) ws ->
  NewKeywordPolicy (string_of_runes <$> ws) = string_of_runes <$> banned_runes ws.
Proof.
  unfold NewKeywordPolicy, banned_runes. induction 1 as [|w ws Hw _ IH]; [done|].
  rewrite !fmap_cons, TrimSpace_runes, ToLower_runes by auto using trim_runes_valid.
  set (x := rune_lower <$> trim_runes w) in *.
  destruct (decide (x = [])) as [Hx|Hne].
  - rewrite Hx. rewrite !filter_cons_False by tauto. apply IH.
  - assert (string_of_runes x <> "") by (intros E; by apply string_of_runes_nil_inv in E).
    rewrite (filter_cons_True _ (string_of_runes x)), (filter_cons_True _ x) by done.
    rewrite fmap_cons. by f_equal.
Qed.

Lemma banned_runes_ok ws w :
  Forall (Forall valid_rune) ws -> w ∈ banned_runes ws -> w <> [] /\ Forall valid_rune w.
Proof.
  intros Hv. unfold banned_runes. rewrite list_elem_of_filter, list_elem_of_fmap.
  intros (Hne & w0 & -> & Hw0). split; [done|].
  apply lower_valid, trim_runes_valid. rewrite Forall_forall in Hv. auto.
Qed.

(** No banned word occurs in the text, up to case. *)
Definition clean (bs : list (list Z)) (rs : list Z) : Prop :=
  forall w, w ∈ bs -> ~ infix_of w (rune_lower <$> rs).

Lemma Allowed_clean bs rs :
  (forall w, w ∈ bs -> w <> [] /\ Forall valid_rune w) -> Forall valid_rune rs ->
  Allowed (string_of_runes <$> bs) (string_of_runes rs) = true <-> clean bs rs.
Proof.
  intros Hbs Hv. unfold Allowed, clean. rewrite forallb_forall, ToLower_runes by done.
  split.
  - intros Hall w Hw Hin. destruct (Hbs w Hw) as [Hne Hwv].
    specialize (Hall (string_of_runes w)).
    rewrite <- list_elem_of_In, (list_elem_of_fmap) in Hall.
    specialize (Hall (ex_intro _ w (conj eq_refl Hw))).
    apply negb_true_iff in Hall.
    by rewrite (proj2 (Contains_runes _ _ Hne Hwv (lower_valid _ Hv))) in Hall.
  - intros Hc s Hs. apply list_elem_of_In, list_elem_of_fmap in Hs as (w & -> & Hw).
    destruct (Hbs w Hw) as [Hne Hwv]. apply negb_true_iff, not_true_iff_false.
    rewrite Contains_runes by auto using lower_valid. auto.
Qed.

Lemma clean_infix bs x rs : infix_of x rs -> clean bs rs -> clean bs x.
Proof.
  intros (a & b & ->) Hc w Hw Hin. apply (Hc w Hw). rewrite !fmap_app.
  by apply infix_of_app_r, infix_of_app_l.
Qed.

(** Extending checked text by a segment checked with its overlap keeps it clean, for
    words the overlap is long enough for. *)
Lemma clean_extend bs n E S :
  (forall w, w ∈ bs -> (length w <= n + 1)%nat) ->
  clean bs E -> clean bs (last_n n E ++ S) -> clean bs (E ++ S).
Proof.
  intros Hlen HE HS w Hw Hin. rewrite fmap_app in Hin.
  destruct (infix_of_window n w _ _ ltac:(specialize (Hlen w Hw); lia) Hin) as [Hin'|Hin'].
  - by apply (HE w Hw).
  - apply (HS w Hw). rewrite fmap_app. unfold last_n in *. by rewrite length_fmap, <- fmap_drop in Hin'.
Qed.

End KeywordLemmas.

(** ** The filter over a keyword policy *)

Section Stream.
Context `{UnicodeCase}.
Context (bs : list (list Z)).
Hypothesis bs_ok : forall w, w ∈ bs -> w <> [] /\ Forall valid_rune w.
Hypothesis bs_short : forall w, w ∈ bs -> (length w <= Z.to_nat DefaultOverlapRunes + 1)%nat.

Let m : Moderator := policy_moderator (NewPolicyModerator (Allowed (string_of_runes <$> bs))).

(** The runes [E] have been forwarded out of the runes [T] received. *)
Record stream_ok (f : OutputFilter) (E T : list Z) : Prop := {
  so_clean : clean bs E;
  so_valid : Forall valid_rune T;
  so_state :
    (exists B, tracks f E B /\ T = E ++ B /\ overlapRunes f = DefaultOverlapRunes) \/
    (blocked f = true /\ E `prefix_of` T /\ ~ clean bs T)
}.

Lemma check_clean rs b fb :
  Forall valid_rune rs -> CheckOutput m (string_of_runes rs) = (b, fb) -> b = true <-> clean bs rs.
Proof.
  intros Hv. simpl. rewrite <- (Allowed_clean bs rs bs_ok Hv).
  destruct (Allowed _ _); intros [= <- <-]; done.
Qed.

Lemma drain_stream final f E B f' emit bl fb :
  tracks f E B -> overlapRunes f = DefaultOverlapRunes -> clean bs E ->
  drain_spec m final f E B f' emit bl fb ->
  exists S, emit = string_of_runes S /\ stream_ok f' (E ++ S) (E ++ B) /\
            (final = true -> blocked f' = false -> S = B).
Proof.
  intros Ht Hn Hc Hd. pose proof Ht as [HE HB _ _ _].
  assert (Forall valid_rune (E ++ B)) as Hall by (by apply Forall_app).
  destruct Hd as [f' S B' fb HBS Hck Hbl|f' S B' HBS Htr Hov Hck Hfin]; subst B;
    apply Forall_app in HB as [HS HB'].
  - exists []. rewrite app_nil_r. split_and!; [done| |congruence].
    split; [done..|]. right. split_and!; [done|by apply prefix_app_r|].
    intros Hcl. eapply check_clean in Hck; [|apply Forall_app; auto with gw].
    destruct Hck as [_ Hck]. discriminate Hck. eapply clean_infix; [|exact Hcl].
    destruct (last_n_split (Z.to_nat (overlapRunes f)) E) as [a Ha].
    exists a, B'. rewrite Ha at 1. by rewrite <- !app_assoc.
  - exists S. split_and!; [done| |].
    + split; [|done|left; exists B'; by rewrite Hov, <- app_assoc].
      destruct Hck as [->|Hck]; [by rewrite app_nil_r|].
      destruct (CheckOutput m _) as [b fb] eqn:Ec. simpl in Hck. subst b.
      eapply check_clean in Ec; [|apply Forall_app; auto with gw].
      apply (clean_extend _ (Z.to_nat (overlapRunes f))); [|done|by apply Ec].
      rewrite Hn. exact bs_short.
    + intros Hf _. rewrite Hfin by done. by rewrite app_nil_r.
Qed.

Lemma push_stream d D f E T f' emit bl fb :
  Forall valid_rune D -> d = string_of_runes D -> stream_ok f E T ->
  Push m d f = (f', (emit, bl, fb)) ->
  exists S, emit = string_of_runes S /\ stream_ok f' (E ++ S) (T ++ D).
Proof.
  intros HD Hd [Hc Hv [(B & Ht & -> & Hn)|(Hb & Hp & Hnc)]] Hpush.
  - pose proof (Push_correct _ _ _ _ _ _ _ _ _ _ HD Hd Ht Hpush) as Hs.
    pose proof Ht as [HE HB Hbuf Hov Hbl].
    assert (tracks (mkFilter (string_of_runes (B ++ D)) (maxSegmentBytes f) (overlapRunes f)
              (overlap f) false) E (B ++ D)) as Ht'
      by (split; simpl; auto; by apply Forall_app).
    eapply drain_stream in Ht' as (S & HS & Hok & _);
      [|done|done|destruct Hs; [by eapply drain_hit|by eapply drain_pass]].
    exists S. by rewrite <- app_assoc.
  - unfold Push in Hpush. rewrite Hb in Hpush. injection Hpush as <- <- <- <-.
    exists []. rewrite app_nil_r. split; [done|]. split; [done|by apply Forall_app|].
    right. split_and!; [done|by apply prefix_app_r|].
    intros Hcl. apply Hnc. eapply clean_infix; [|exact Hcl]. exists [], D. done.
Qed.

Lemma push_all_stream ds Ds f E T f' out :
  Forall (Forall valid_rune) Ds -> ds = string_of_runes <$> Ds -> stream_ok f E T ->
  push_all m ds f = (f', out) ->
  exists O, out = string_of_runes O /\ stream_ok f' (E ++ O) (T ++ concat Ds).
Proof.
  intros HDs ->. revert f E T out. induction HDs as [|D Ds HD _ IH]; intros f E T out Hok.
  { intros [= <- <-]. exists []. by rewrite !app_nil_r. }
  rewrite fmap_cons. cbn [push_all concat].
  destruct (Push m _ f) as [f1 [[emit bl] fb]] eqn:Ep.
  destruct (push_all m _ f1) as [f2 rest] eqn:Er. intros [= <- <-].
  destruct (push_stream _ D _ _ _ _ _ _ _ HD eq_refl Hok Ep) as (S & -> & Hok1).
  destruct (IH _ _ _ _ Hok1 Er) as (O & -> & Hok2).
  exists (S ++ O). by rewrite string_of_runes_app, !app_assoc, <- (app_assoc T) in *.
Qed.

Lemma filter_stream_runes Ds f out :
  Forall (Forall valid_rune) Ds ->
  filter_stream m (string_of_runes <$> Ds) = (f, out) ->
  exists O, out = string_of_runes O /\ O `prefix_of` concat Ds /\ clean bs O /\
    (blocked f = true <-> ~ clean bs (concat Ds)) /\ (blocked f = false -> O = concat Ds).
Proof.
  intros HDs. unfold filter_stream.
  destruct (push_all m _ _) as [f1 out1] eqn:Ep.
  destruct (Flush m f1) as [f2 [[emit bl] fb]] eqn:Ef. intros [= <- <-].
  assert (stream_ok NewOutputFilter [] []) as Hok0.
  { split; [|constructor|left; exists []; by split_and!; [apply NewOutputFilter_tracks|..]].
    intros w Hw (a & b & Hin). symmetry in Hin. apply app_nil in Hin as [_ Hin].
    apply app_nil in Hin as [-> _]. by destruct (bs_ok _ Hw). }
  destruct (push_all_stream _ Ds _ _ _ _ _ HDs eq_refl Hok0 Ep) as (O & -> & Hok1).
  simpl in Hok1. destruct Hok1 as [Hc Hv [(B & Ht & HT & Hn)|(Hb & Hp & Hnc)]].
  - pose proof (Flush_correct _ _ _ _ _ _ _ _ Ht Ef) as Hs.
    eapply drain_stream in Hs as (S & -> & [Hc2 _ Hst] & Hfin); [|done..].
    exists (O ++ S). rewrite <- string_of_runes_app. rewrite <- HT in Hst.
    split; [done|]. destruct Hst as [(B2 & Ht2 & HT2 & _)|(Hb & Hp & Hnc)].
    + pose proof (tr_blocked _ _ _ Ht2) as Hbf. rewrite Hfin in * by done.
      rewrite <- HT in *. split_and!; try done. rewrite Hbf. split; [done|]. naive_solver.
    + split_and!; try done. by rewrite Hb.
  - unfold Flush in Ef. rewrite Hb in Ef. injection Ef as <- <- <- <-.
    exists O. rewrite string_app_nil_r. split_and!; try done. by rewrite Hb.
Qed.

End Stream.

(** ** How much the filter holds back *)

Definition blen (rs : list Z) : Z := Z.of_nat (length (encode_all rs)).

Lemma blen_app p q : blen (p ++ q) = blen p + blen q.
Proof. unfold blen. rewrite encode_all_app, length_app. lia. Qed.

Lemma str_len_runes rs : str_len (string_of_runes rs) = blen rs.
Proof. unfold str_len, blen. by rewrite bytes_string_of_runes. Qed.

Lemma blen_cons r rs : 1 + blen rs <= blen (r :: rs).
Proof.
  unfold blen. rewrite encode_all_cons, length_app.
  destruct (encode_shape r) as (b & l & -> & _). simpl. lia.
Qed.

Lemma blen_nonneg rs : 0 <= blen rs.
Proof. unfold blen. lia. Qed.

Definition is_term : Z -> bool := rune_in (runes sentenceTerminators).
Definition is_blank : Z -> bool := rune_in (runes (" " +:+ tab)).

(** Absence of the last element satisfying [g] means absence of any. *)
Lemma last_index_any_None g rs :
  last_index_any g ((fun r => (r, encode r)) <$> rs) = None -> Forall (fun r => g r = false) rs.
Proof.
  induction rs as [|r rs IH]; [by constructor|]. rewrite fmap_cons. simpl.
  destruct (last_index_any g _) as [[]|]; [done|]. destruct (g r) eqn:?; [done|].
  constructor; auto.
Qed.

(** A split of [B ++ D] after an element that [B] lacks leaves a suffix of [D]. *)
Lemma split_in_right (g : Z -> bool) (B D p q : list Z) r :
  B ++ D = p ++ r :: q -> g r = true -> Forall (fun c => g c = false) B ->
  exists d, D = d ++ q.
Proof.
  intros Heq Hr HB. destruct (decide (length B <= length p)%nat) as [Hle|Hgt].
  - apply (f_equal (drop (length B))) in Heq. rewrite drop_app_length in Heq.
    rewrite Heq, drop_app_le by done. exists (drop (length B) p ++ [r]). by rewrite <- app_assoc.
  - exfalso. assert (B !! length p = Some r) as Hl.
    { rewrite <- (lookup_app_l B D), Heq, lookup_app_r, Nat.sub_diag by lia. done. }
    rewrite Forall_lookup in HB. by rewrite (HB _ _ Hl) in Hr.
Qed.

(** At most [max 511 M] bytes are held, or [M] more without a blank among them. *)
Definition small_rest (M : Z) (B : list Z) : Prop :=
  Forall (fun r => is_term r = false) B /\
  (blen B <= Z.max 511 M \/
   (blen B <= Z.max 511 M + M /\ Forall (fun r => is_blank r = false) B)).

Lemma small_rest_nil M : small_rest M [].
Proof. split; [constructor|]. left. unfold blen. simpl. lia. Qed.

Lemma next_segment_rest f M B D o :
  maxSegmentBytes f = DefaultMaxSegmentBytes -> 0 <= M ->
  Forall valid_rune (B ++ D) -> small_rest M B -> blen D <= M ->
  next_segment f false (string_of_runes (B ++ D)) = o ->
  match o with
  | None => small_rest M (B ++ D)
  | Some (_, t) => exists q, t = string_of_runes q /\ small_rest M q /\ Forall valid_rune q
  end.
Proof.
  intros Hmax HM Hv [HBt HB] HD. pose proof (blen_app B D) as Hlen.
  unfold next_segment, cutAtLastTerminator, splitKeepingLastToken.
  rewrite bytes_string_of_runes, decode_encode_all, str_len_runes, Hmax by done.
  fold is_term is_blank. unfold DefaultMaxSegmentBytes.
  destruct (last_index_any is_term _) as [[i w]|] eqn:Et.
  - apply last_index_any_runes in Et as (p & r & q & Heq & Hr & -> & -> & Hq).
    intros <-. exists q.
    destruct (split_in_right is_term _ _ _ _ _ Heq Hr HBt) as [d Hd].
    rewrite Heq in *. apply Forall_app in Hv as [_ Hv]. apply Forall_cons in Hv as [_ Hv].
    rewrite Hd, blen_app in HD. pose proof (blen_nonneg d).
    split_and!; [|split; [done|left; lia]|done].
    replace (length (encode_all p) + length (encode r))%nat with (length (encode_all (p ++ [r])))
      by (rewrite encode_all_app, encode_all_cons, app_nil_r, length_app; done).
    replace (p ++ r :: q) with ((p ++ [r]) ++ q) by (by rewrite <- app_assoc).
    apply string_of_runes_drop.
  - apply last_index_any_None in Et.
    destruct (Z.leb_spec 512 (blen (B ++ D))); [|intros <-; split; [done|left; lia]].
    destruct (last_index_any is_blank _) as [[i w]|] eqn:Eb;
      [|intros <-; exists []; auto using small_rest_nil].
    apply last_index_any_runes in Eb as (p & r & q & Heq & Hr & -> & -> & Hq).
    case_goal; [|intros <-; exists []; auto using small_rest_nil].
    intros <-. exists q.
    pose proof (blen_cons r q). pose proof (blen_app p (r :: q)) as Hpq. rewrite <- Heq in Hpq.
    pose proof (blen_nonneg p). rewrite Heq in Et, Hv |- *.
    apply Forall_app in Hv as [_ Hv]. apply Forall_cons in Hv as [_ Hv].
    apply Forall_app in Et as [_ Et]. apply Forall_cons in Et as [_ Et].
    split_and!; [|split; [done|]|done].
    + replace (length (encode_all p) + 1)%nat with (length (encode_all (p ++ [r])))
        by (rewrite encode_all_app, encode_all_cons, app_nil_r, length_app, space_or_tab_width by done;
            done).
      replace (p ++ r :: q) with ((p ++ [r]) ++ q) by (by rewrite <- app_assoc).
      apply string_of_runes_drop.
    + destruct HB as [HB|[HB HBb]]; [right; split; [lia|done]|].
      destruct (split_in_right is_blank _ _ _ _ _ Heq Hr HBb) as [d Hd].
      rewrite Hd, blen_app in HD. pose proof (blen_nonneg d). left. lia.
Qed.

Definition held_ok (M : Z) (f : OutputFilter) : Prop :=
  maxSegmentBytes f = DefaultMaxSegmentBytes /\
  exists B, buf f = string_of_runes B /\ Forall valid_rune B /\ small_rest M B.

Lemma Push_held m M d f f' o :
  0 <= M -> valid_utf8 d -> str_len d <= M -> held_ok M f -> Push m d f = (f', o) -> held_ok M f'.
Proof.
  intros HM (D & HD & ->) Hd (Hmax & B & Hb & Hv & Hs). rewrite str_len_runes in Hd.
  unfold Push. destruct (blocked f); [intros [= <- _]; split; eauto|].
  assert (Forall valid_rune (B ++ D)) as Hvv by (by apply Forall_app).
  unfold drain. cbn [buf]. rewrite Hb, <- string_of_runes_app.
  case_bool_decide as Hnil.
  { intros [= <- _]. split; [done|]. exists (B ++ D).
    apply string_of_runes_nil_inv in Hnil. rewrite Hnil. auto using small_rest_nil. }
  match goal with |- context [next_segment ?g false _] =>
    destruct (next_segment g false (string_of_runes (B ++ D))) as [[s t]|] eqn:En;
    pose proof (next_segment_rest g M B D _ Hmax HM Hvv Hs Hd En) as Hn end.
  - destruct Hn as (q & -> & Hq & Hqv).
    destruct (CheckOutput m _) as [[] fb]; simpl; intros [= <- _].
    + split; [done|]. exists q. auto.
    + split; [done|]. exists []. auto using small_rest_nil.
  - intros [= <- _].
    split; [done|]. exists (B ++ D). auto.
Qed.

Lemma push_all_held m M ds f :
  0 <= M -> Forall valid_utf8 ds -> Forall (fun d => str_len d <= M) ds -> held_ok M f ->
  held_ok M (push_all m ds f).1.
Proof.
  intros HM Hv. revert f. induction Hv as [|d ds Hd _ IH]; intros f Hl Hf; [done|].
  apply Forall_cons in Hl as [Hl Hls]. simpl.
  destruct (Push m d f) as [f1 [[e b] fb]] eqn:E.
  specialize (IH f1 Hls (Push_held _ _ _ _ _ _ HM Hd Hl Hf E)).
  by destruct (push_all m ds f1).
Qed.

(** ** Properties *)

(** The deltas of a stream as runes. *)
Lemma deltas_runes ds :
  Forall valid_utf8 ds ->
  exists Ds, Forall (Forall valid_rune) Ds /\ ds = string_of_runes <$> Ds /\
             stream_text ds = string_of_runes (concat Ds).
Proof.
  induction 1 as [|d ds (D & HD & ->) _ (Ds & HDs & -> & IH)]; [by exists []|].
  exists (D :: Ds). rewrite fmap_cons. cbn [concat stream_text foldr].
  rewrite string_of_runes_app. split_and!; [by constructor|done|]. by f_equal.
Qed.

Lemma trim_runes_length rs : (length (trim_runes rs) <= length rs)%nat.
Proof. apply infix_of_length, trim_runes_infix. Qed.

Section Properties.
Context `{UnicodeCase}.

(** A banned word within the reach of the overlap window. *)
Definition short_word (w : string) : Prop :=
  valid_utf8 w /\ Z.of_nat (length (runes w)) <= DefaultOverlapRunes + 1.

Lemma words_runes words :
  Forall short_word words ->
  exists bs, NewKeywordPolicy words = string_of_runes <$> bs /\
    (forall w, w ∈ bs -> w <> [] /\ Forall valid_rune w) /\
    (forall w, w ∈ bs -> (length w <= Z.to_nat DefaultOverlapRunes + 1)%nat).
Proof.
  intros Hw.
  assert (exists ws, words = string_of_runes <$> ws /\ Forall (Forall valid_rune) ws /\
            Forall (fun w => Z.of_nat (length w) <= DefaultOverlapRunes + 1) ws) as (ws & -> & Hv & Hl).
  { induction Hw as [|w words [(rs & Hr & ->) Hl] _ (ws & -> & Hv & Hls)]; [by exists []|].
    rewrite runes_string_of_runes in Hl by done.
    exists (rs :: ws). split_and!; [done|by constructor|by constructor]. }
  exists (banned_runes ws). split_and!; [by apply NewKeywordPolicy_runes|..]; intros w Hin.
  - by eapply banned_runes_ok.
  - unfold banned_runes in Hin. apply list_elem_of_filter in Hin as [_ Hin].
    apply list_elem_of_fmap in Hin as (w0 & -> & Hw0). rewrite length_fmap.
    rewrite Forall_forall in Hl. specialize (Hl w0 Hw0).
    pose proof (trim_runes_length w0). unfold DefaultOverlapRunes in *. lia.
Qed.

(** The deployed moderator for a word list. *)
Definition keyword_moderator (words : list string) : Moderator :=
  policy_moderator (NewPolicyModerator (Allowed (NewKeywordPolicy words))).

(** C15: no banned word reaches the client.  However the model's output is cut into
    deltas, the text the filter has forwarded never contains a banned word (of at most 33
    characters, the reach of the 32-rune overlap), up to case, and is a prefix of what the
    model said. *)
Theorem filter_never_leaks words ds f out :
  Forall short_word words -> Forall valid_utf8 ds ->
  filter_stream (keyword_moderator words) ds = (f, out) ->
  Allowed (NewKeywordPolicy words) out = true /\ exists rest, stream_text ds = out +:+ rest.
Proof.
  intros Hw Hd Hf. destruct (words_runes _ Hw) as (bs & Hbs & Hok & Hs).
  destruct (deltas_runes _ Hd) as (Ds & HDs & -> & Htext).
  unfold keyword_moderator in Hf. rewrite Hbs in *.
  destruct (filter_stream_runes _ Hok Hs _ _ _ HDs Hf) as (O & -> & [k Hk] & Hc & _).
  assert (Forall valid_rune (O ++ k)) as Hv by (rewrite <- Hk; by apply Forall_concat).
  apply Forall_app in Hv as [HO Hkv]. split.
  - by apply Allowed_clean.
  - exists (string_of_runes k). by rewrite Htext, Hk, string_of_runes_app.
Qed.

(** C16: the filter is exact, for words of at most 33 characters (the overlap it keeps and
    one more) and well-formed deltas.  At the end of the stream it has blocked if and only if the
    whole text contains a banned word, and otherwise it has forwarded the text complete
    and in order: splitting a word over deltas or segments neither hides it nor makes the
    filter block or drop text it should not. *)
Theorem filter_blocks_iff_banned words ds f out :
  Forall short_word words -> Forall valid_utf8 ds ->
  filter_stream (keyword_moderator words) ds = (f, out) ->
  (blocked f = true <-> Allowed (NewKeywordPolicy words) (stream_text ds) = false) /\
  (blocked f = false -> out = stream_text ds).
Proof.
  intros Hw Hd Hf. destruct (words_runes _ Hw) as (bs & Hbs & Hok & Hs).
  destruct (deltas_runes _ Hd) as (Ds & HDs & -> & Htext).
  unfold keyword_moderator in Hf. rewrite Hbs in *.
  destruct (filter_stream_runes _ Hok Hs _ _ _ HDs Hf) as (O & -> & _ & _ & Hb & Hall).
  assert (Forall valid_rune (concat Ds)) as Hv by (by apply Forall_concat).
  rewrite Htext, <- not_true_iff_false, Allowed_clean by done. split; [done|].
  intros Hbf. by rewrite Hall.
Qed.

End Properties.

(** C17: bounded buffering.  If no delta is longer than [M] bytes, the filter never holds
    back more than [max 511 M + M] bytes, for any moderator and any stream. *)
Theorem filter_buffer_bounded m M ds :
  0 <= M -> Forall valid_utf8 ds -> Forall (fun d => str_len d <= M) ds ->
  str_len (buf (push_all m ds NewOutputFilter).1) <= Z.max 511 M + M.
Proof.
  intros HM Hv Hl.
  destruct (push_all_held m M ds NewOutputFilter HM Hv Hl) as (_ & B & -> & _ & _ & HB).
  { split; [done|]. exists []. auto using small_rest_nil. }
  rewrite str_len_runes. lia.
Qed.

(** ** Witnesses *)

(** Case mapping restricted to ASCII. *)
Definition ascii_case : UnicodeCase.
Proof.
  refine {| rune_lower := ascii_lower |}.
  unfold valid_rune, ascii_lower. intros r Hr.
  destruct ((65 <=? r) && (r <=? 90)) eqn:E; [|exact Hr]. lia.
Defined.

Lemma utf8_of_ascii s : Forall (fun b => b < 128) (bytes s) -> valid_utf8 s.
Proof.
  intros Hs. pose proof (bytes_range s) as Hr.
  assert (Forall valid_rune (bytes s) /\ encode_all (bytes s) = bytes s) as [Hv He].
  { induction Hs as [|b l Hb Hs IH]; [by split; [constructor|]|].
    apply Forall_cons in Hr as [Hb0 Hr]. destruct (IH Hr) as [IH1 IH2]. unfold is_byte in Hb0.
    assert (valid_rune b) by (unfold valid_rune; lia).
    split; [by constructor|]. rewrite encode_all_cons, IH2. unfold encode.
    rewrite decide_True by done. unfold encode_valid. by rewrite (proj2 (Z.ltb_lt _ _)). }
  exists (bytes s). split; [done|]. unfold string_of_runes. by rewrite He, of_bytes_bytes.
Qed.

Definition demo_deltas : list string := ["The "; "forb"; "idden fruit. So"; "me more"].

Lemma demo_deltas_valid : Forall valid_utf8 demo_deltas.
Proof.
  unfold demo_deltas. rewrite !Forall_cons, Forall_nil.
  split_and!; try done; apply utf8_of_ascii; vm_compute; repeat constructor.
Qed.

Lemma demo_words_short : Forall short_word [" FORBIDDEN "].
Proof.
  constructor; [|constructor]. split; [|vm_compute; discriminate].
  apply utf8_of_ascii. vm_compute. repeat constructor.
Qed.

Lemma filter_never_leaks_witness :
  @Allowed ascii_case (@NewKeywordPolicy ascii_case [" FORBIDDEN "])
    (filter_stream (@keyword_moderator ascii_case [" FORBIDDEN "]) demo_deltas).2 = true.
Proof.
  destruct (@filter_never_leaks ascii_case [" FORBIDDEN "] demo_deltas _ _
    demo_words_short demo_deltas_valid (surjective_pairing _)) as [H _]. exact H.
Defined.

Lemma filter_blocks_iff_banned_witness :
  blocked (filter_stream (@keyword_moderator ascii_case [" FORBIDDEN "]) demo_deltas).1 = true.
Proof.
  destruct (@filter_blocks_iff_banned ascii_case [" FORBIDDEN "] demo_deltas _ _
    demo_words_short demo_deltas_valid (surjective_pairing _)) as [[_ H] _].
  apply H. vm_compute. reflexivity.
Defined.

Lemma filter_buffer_bounded_witness :
  str_len (buf (push_all AllowAll demo_deltas NewOutputFilter).1) <= 526.
Proof.
  apply (filter_buffer_bounded AllowAll 15 demo_deltas); [lia | exact demo_deltas_valid |].
  unfold demo_deltas. repeat constructor; vm_compute; discriminate.
Defined.
