(* ===== verification/Sse.v ===== *)
(** * internal/dify/sse.go and types.go: the streaming response parser

    The response body is the bytes it delivers followed by the error its reader ends with
    ([ESentinel IoEOF] for a complete body).  [scan_lines] is [bufio.Scanner] with
    [ScanLines] and the 4 MiB buffer; [parseSSE] is the loop over its lines, with the two
    callbacks as functions on the caller's state.  [json.Unmarshal] into [sseEvent] is a
    parameter here, so the theorems hold for any; [Json] has the real one.  [script] gives
    the same run as the list of callback invocations it makes, the form the pipeline is
    verified against. *)

From S2P Require Import Prelude GoNum GoStrings GoErr.

(** ** Data *)

Record FileRef := { FileType : string; TransferMethod : string; UploadFileID : string }.

Record ChatReq := mkChatReq {
  Query : string;
  Inputs : option (gmap string string);
  User : string;
  ConversationID : string;
  Files : list FileRef;
  AutoGenerateName : option bool
}.

Record ChatResult := mkChatResult {
  R_Answer : string;
  R_ConversationID : string;
  R_MessageID : string;
  R_TotalTokens : Z
}.

(** [ChatResult{}] *)
Definition zero_result : ChatResult := mkChatResult "" "" "" 0.

Record sseEvent := mkEvent {
  Event : string;
  TaskID : string;
  MessageID : string;
  E_ConversationID : string;
  E_Answer : string;
  E_Code : string;
  E_Message : string;
  TotalTokens : Z
}.

(** ** Lines *)

Definition maxLine : nat := Z.to_nat (4 * 1024 * 1024).

Definition drop_cr (l : list Z) : list Z :=
  match last l with Some 13 => removelast l | _ => l end.

(** [bufio.ScanLines] over a buffer of [max] bytes: the lines, and whether the scanner
    gave up on a line that fills the buffer ([room] bytes of it are still free). *)
Fixpoint scan_lines (max room : nat) (cur l : list Z) : list (list Z) * bool :=
  match l with
  | [] => (match cur with [] => [] | _ => [drop_cr cur] end, false)
  | b :: l =>
      if b =? 10 then
        let '(ls, long) := scan_lines max max [] l in (drop_cr cur :: ls, long)
      else
        match room with
        | S (S room) => scan_lines max (S room) (cur ++ [b]) l
        | _ => ([], true)
        end
  end.

Record body := { body_bytes : string; body_err : error }.

Definition ErrTooLong : error := EText "bufio.Scanner: token too long".

(** The lines a body is scanned into and [scanner.Err()] at the end. *)
Definition scan (b : body) : list string * option error :=
  let '(ls, long) := scan_lines maxLine maxLine [] (bytes (body_bytes b)) in
  (of_bytes <$> ls,
   if long then Some ErrTooLong
   else if bool_decide (body_err b = ESentinel IoEOF) then None else Some (body_err b)).

(** ** The loop *)

(** The payload of a line, if it is a data line with something in it. *)
Definition line_data (line0 : string) : option string :=
  let line := TrimSpace line0 in
  if bool_decide (line = "") || HasPrefix line ":" then None
  else if negb (HasPrefix line "data:") then None
  else
    let data := TrimSpace (TrimPrefix line "data:") in
    if bool_decide (data = "") || bool_decide (data = "[DONE]") then None else Some data.

Definition set_if_empty (old new : string) : string := if bool_decide (old = "") then new else old.
Definition set_if_given (old new : string) : string := if bool_decide (new = "") then old else new.

Definition is_message (e : sseEvent) : bool :=
  bool_decide (Event e = "message") || bool_decide (Event e = "agent_message").

Section Parse.
Context (Unmarshal : string -> res error sseEvent).
Context {S : Type}.
Context (onEvent : option (string -> string -> S -> S)) (onDelta : option (string -> S -> S)).

Definition notify (e : sseEvent) (notified : bool) (s : S) : S * bool :=
  match onEvent with
  | Some f => if notified then (s, notified) else (f (TaskID e) (E_ConversationID e) s, true)
  | None => (s, notified)
  end.

Definition emit_delta (e : sseEvent) (s : S) : S :=
  match onDelta with
  | Some f => if bool_decide (E_Answer e = "") then s else f (E_Answer e) s
  | None => s
  end.

Fixpoint sse_loop (lines : list string) (rerr : option error) (r : ChatResult)
    (notified : bool) (s : S) : S * (ChatResult * option error) :=
  match lines with
  | [] =>
      match rerr with
      | Some err => (s, (r, Some (EWrap "read Dify SSE stream" err)))
      | None => (s, (r, Some (ESentinel ErrStreamIncomplete)))
      end
  | line :: lines =>
      match line_data line with
      | None => sse_loop lines rerr r notified s
      | Some data =>
          match Unmarshal data with
          | Err err => (s, (r, Some (EWrap "decode Dify SSE event" err)))
          | Ok e =>
              if is_message e then
                let r := mkChatResult (R_Answer r) (set_if_empty (R_ConversationID r) (E_ConversationID e))
                           (set_if_empty (R_MessageID r) (MessageID e)) (R_TotalTokens r) in
                let '(s, notified) := notify e notified s in
                sse_loop lines rerr r notified (emit_delta e s)
              else if bool_decide (Event e = "message_end") then
                (s, (mkChatResult (R_Answer r) (set_if_given (R_ConversationID r) (E_ConversationID e))
                       (set_if_given (R_MessageID r) (MessageID e)) (TotalTokens e), None))
              else if bool_decide (Event e = "message_replace") then
                (s, (r, Some (EReplace {| Fallback := E_Answer e |})))
              else if bool_decide (Event e = "error") then
                (s, (r, Some (EStream {| SE_Code := E_Code e; SE_Message := E_Message e |})))
              else sse_loop lines rerr r notified s
          end
      end
  end.

Definition parseSSE (b : body) (s : S) : S * (ChatResult * option error) :=
  let '(lines, rerr) := scan b in sse_loop lines rerr zero_result false s.
End Parse.

(** ** The callbacks as a script *)

Inductive callback := OnEvent (taskID convID : string) | OnDelta (delta : string).

#[export] Instance callback_eq_dec : EqDecision callback.
Proof. solve_decision. Defined.

Definition log_event (t c : string) (l : list callback) : list callback := l ++ [OnEvent t c].
Definition log_delta (d : string) (l : list callback) : list callback := l ++ [OnDelta d].

(** The callbacks a body leads to, in order, and what [parseSSE] returns. *)
Definition script (Unmarshal : string -> res error sseEvent) (b : body) :
    list callback * (ChatResult * option error) :=
  parseSSE Unmarshal (Some log_event) (Some log_delta) b [].

Definition run_callback {S} (onEvent : string -> string -> S -> S) (onDelta : string -> S -> S)
    (s : S) (c : callback) : S :=
  match c with OnEvent t cv => onEvent t cv s | OnDelta d => onDelta d s end.

(** ** Reference: the events a body carries *)

(** The decoded payloads of the data lines, in order. *)
Definition payloads (Unmarshal : string -> res error sseEvent) (b : body) : list (res error sseEvent) :=
  Unmarshal <$> omap line_data (scan b).1.

Definition stops (x : res error sseEvent) : bool :=
  match x with
  | Err _ => true
  | Ok e => negb (is_message e) &&
            (bool_decide (Event e = "message_end") || bool_decide (Event e = "message_replace") ||
             bool_decide (Event e = "error"))
  end.

(** What precedes the first payload that ends the stream, and that payload. *)
Fixpoint before_stop (l : list (res error sseEvent)) : list (res error sseEvent) * option (res error sseEvent) :=
  match l with
  | [] => ([], None)
  | x :: l => if stops x then ([], Some x) else let '(a, o) := before_stop l in (x :: a, o)
  end.

Definition messages (l : list (res error sseEvent)) : list sseEvent :=
  omap (fun x => match x with Ok e => if is_message e then Some e else None | Err _ => None end) l.

Definition answers (l : list sseEvent) : list string :=
  filter (fun a => a <> "") (E_Answer <$> l).

Definition deltas_of (cs : list callback) : list string :=
  omap (fun c => match c with OnDelta d => Some d | _ => None end) cs.

Definition events_of (cs : list callback) : list (string * string) :=
  omap (fun c => match c with OnEvent t cv => Some (t, cv) | _ => None end) cs.

(** The error a stream ends with. *)
Definition stop_error (rerr : option error) (stop : option (res error sseEvent)) : option error :=
  match stop with
  | None => match rerr with
            | Some err => Some (EWrap "read Dify SSE stream" err)
            | None => Some (ESentinel ErrStreamIncomplete)
            end
  | Some (Err err) => Some (EWrap "decode Dify SSE event" err)
  | Some (Ok e) =>
      if bool_decide (Event e = "message_end") then None
      else if bool_decide (Event e = "message_replace")
      then Some (EReplace {| Fallback := E_Answer e |})
      else Some (EStream {| SE_Code := E_Code e; SE_Message := E_Message e |})
  end.

(** ** Lemmas *)

(** Any callbacks see exactly the script. *)
Lemma sse_loop_script Unmarshal {S} (onE : string -> string -> S -> S) (onD : string -> S -> S)
    lines rerr r n s :
  let '(cs, out) := sse_loop Unmarshal (Some log_event) (Some log_delta) lines rerr r n [] in
  sse_loop Unmarshal (Some onE) (Some onD) lines rerr r n s = (foldl (run_callback onE onD) s cs, out).
Proof.
  assert (forall lines r n cs s',
    let '(cs', out) := sse_loop Unmarshal (Some log_event) (Some log_delta) lines rerr r n cs in
    foldl (run_callback onE onD) s cs = s' ->
    sse_loop Unmarshal (Some onE) (Some onD) lines rerr r n s' =
      (foldl (run_callback onE onD) s cs', out)) as H.
  { clear lines r n. induction lines as [|line lines IH]; intros r n cs s'; simpl.
    - destruct rerr; by intros ->.
    - destruct (line_data line) as [data|]; [|apply IH].
      destruct (Unmarshal data) as [e|err]; [|by intros ->].
      destruct (is_message e).
      + unfold notify, emit_delta. destruct n, (bool_decide (E_Answer e = ""));
          match goal with |- let '(_, _) := sse_loop _ _ _ _ _ ?r' ?n' ?cs' in _ =>
            specialize (IH r' n' cs'); destruct (sse_loop _ _ _ lines rerr r' n' cs') end;
          intros <-; apply IH; unfold log_event, log_delta; by rewrite ?foldl_app.
      + repeat (case_bool_decide; [by intros ->|]). apply IH. }
  specialize (H lines r n [] s). destruct (sse_loop _ _ _ lines rerr r n []). by apply H.
Qed.

(** The conversation id gathered so far by the message events. *)
Definition gathered (r : ChatResult) (ms : list sseEvent) : string :=
  foldl (fun c e => set_if_empty c (E_ConversationID e)) (R_ConversationID r) ms.

Definition ended (stop : option (res error sseEvent)) : option sseEvent :=
  match stop with
  | Some (Ok e) => if bool_decide (Event e = "message_end") then Some e else None
  | _ => None
  end.

Lemma sse_loop_spec Unmarshal lines rerr r n cs :
  let '(pre, stop) := before_stop (Unmarshal <$> omap line_data lines) in
  exists new r',
    sse_loop Unmarshal (Some log_event) (Some log_delta) lines rerr r n cs =
      (cs ++ new, (r', stop_error rerr stop)) /\
    deltas_of new = answers (messages pre) /\
    events_of new = (if n then [] else
      match messages pre with [] => [] | e :: _ => [(TaskID e, E_ConversationID e)] end) /\
    (n = false -> forall c l, new = c :: l -> exists t cv, c = OnEvent t cv) /\
    R_TotalTokens r' = (match ended stop with Some e => TotalTokens e | None => R_TotalTokens r end) /\
    R_ConversationID r' =
      (match ended stop with
       | Some e => set_if_given (gathered r (messages pre)) (E_ConversationID e)
       | None => gathered r (messages pre) end).
Proof.
  revert r n cs. induction lines as [|line lines IH]; intros r n cs.
  { simpl. exists [], r. rewrite app_nil_r. by destruct rerr, n. }
  change (omap line_data (line :: lines)) with
    (match line_data line with Some d => d :: omap line_data lines | None => omap line_data lines end).
  simpl sse_loop. destruct (line_data line) as [data|]; [|apply IH].
  rewrite fmap_cons. cbn [before_stop].
  destruct (Unmarshal data) as [e|err] eqn:Eu; cbn [stops].
  2: { exists [], r. rewrite app_nil_r. by destruct n. }
  destruct (is_message e) eqn:Em; simpl negb; cbn [andb].
  - destruct (before_stop (Unmarshal <$> omap line_data lines)) as [pre stop].
    unfold notify, emit_delta.
    set (r1 := mkChatResult _ _ _ _).
    set (pfx := (if n then [] else [OnEvent (TaskID e) (E_ConversationID e)]) ++
                (if bool_decide (E_Answer e = "") then [] else [OnDelta (E_Answer e)])).
    specialize (IH r1 true (cs ++ pfx)).
    destruct IH as (new & r' & Hrun & Hd & He & _ & Ht & Hc).
    exists (pfx ++ new), r'. split_and!.
    + rewrite app_assoc, <- Hrun. unfold pfx, log_event, log_delta.
      destruct n, (bool_decide (E_Answer e = "")); simpl; by rewrite ?app_nil_r, <- ?app_assoc.
    + unfold deltas_of in *. rewrite omap_app, Hd. unfold pfx, answers, messages. simpl. rewrite Em.
      rewrite fmap_cons, filter_cons.
      destruct n, (decide (E_Answer e = "")) as [Hx|Hx]; simpl;
        [rewrite bool_decide_eq_true_2 by done|rewrite bool_decide_eq_false_2 by done
        |rewrite bool_decide_eq_true_2 by done|rewrite bool_decide_eq_false_2 by done]; simpl;
        destruct (decide (E_Answer e <> "")); try done.
    + unfold events_of in *. rewrite omap_app, He, app_nil_r. unfold pfx, messages. simpl. rewrite Em.
      by destruct n, (bool_decide (E_Answer e = "")).
    + intros -> c l. unfold pfx. simpl. intros [= <- _]. eauto.
    + by rewrite Ht.
    + rewrite Hc. unfold messages. simpl. by rewrite Em.
  - destruct (bool_decide (Event e = "message_end")) eqn:E1; simpl.
    { eexists [], _. rewrite app_nil_r. split_and!; try done; simpl; try rewrite E1; try done;
        by destruct n. }
    destruct (bool_decide (Event e = "message_replace")) eqn:E2; simpl.
    { eexists [], _. rewrite app_nil_r. split_and!; try done; simpl; rewrite ?E1, ?E2; try done;
        by destruct n. }
    destruct (bool_decide (Event e = "error")) eqn:E3; simpl.
    { eexists [], _. rewrite app_nil_r. split_and!; try done; simpl; rewrite ?E1, ?E2; try done;
        by destruct n. }
    specialize (IH r n cs). destruct (before_stop (Unmarshal <$> omap line_data lines)) as [pre stop].
    destruct IH as (new & r' & Hrun & Hd & He & Hf & Ht & Hc). exists new, r'.
    assert (messages (Ok e :: pre) = messages pre) as -> by (unfold messages; simpl; by rewrite Em).
    done.
Qed.

(** ** Properties *)

(** C34: what a stream delivers and how it ends.  Whatever bytes arrive, the parser
    terminates with an outcome fixed by the first payload that ends the stream (everything
    after it is ignored): no error exactly for a [message_end], whose usage and
    conversation id are returned; the typed error of a [message_replace] or [error] event;
    a decode error for a bad payload; and when no such payload arrives the read error, or
    [ErrStreamIncomplete] for a body that just ends.  The conversation id is the first
    non-empty one seen, unless [message_end] carries one.  The deltas are the non-empty
    answers of the message events before the end, each once and in order; [onEvent] is
    called at most once, with the ids of the first message event, and before any delta, so
    the task id is known as soon as there is something to stop. *)
Theorem parseSSE_outcome Unmarshal b :
  let '(pre, stop) := before_stop (payloads Unmarshal b) in
  let '(cs, (r, err)) := script Unmarshal b in
  (err = stop_error (scan b).2 stop /\
   (err = None <-> exists e, stop = Some (Ok e) /\ Event e = "message_end") /\
   R_TotalTokens r = (match ended stop with Some e => TotalTokens e | None => 0 end) /\
   R_ConversationID r =
     (match ended stop with
      | Some e => set_if_given (gathered zero_result (messages pre)) (E_ConversationID e)
      | None => gathered zero_result (messages pre) end)) /\
  deltas_of cs = answers (messages pre) /\
  events_of cs = (match messages pre with [] => [] | e :: _ => [(TaskID e, E_ConversationID e)] end) /\
  (forall c l, cs = c :: l -> exists t cv, c = OnEvent t cv).
Proof.
  unfold payloads, script, parseSSE. destruct (scan b) as [lines rerr]. simpl.
  pose proof (sse_loop_spec Unmarshal lines rerr zero_result false []) as H.
  destruct (before_stop _) as [pre stop]. destruct H as (new & r' & -> & Hd & He & Hf & Ht & Hc).
  simpl. split; [|split_and!; [done|done|by apply Hf]].
  split_and!; try done. destruct stop as [[e|]|]; simpl; [|naive_solver|].
  - case_bool_decide; [naive_solver|]. case_bool_decide; naive_solver.
  - destruct rerr; naive_solver.
Qed.

(** The parser treats its callbacks as opaque: with any callbacks on any state it
    performs exactly the invocations of its script, in order, and returns the same. *)
Lemma parseSSE_is_script Unmarshal {S} (onE : string -> string -> S -> S) (onD : string -> S -> S) b s :
  parseSSE Unmarshal (Some onE) (Some onD) b s =
  (foldl (run_callback onE onD) s (script Unmarshal b).1, (script Unmarshal b).2).
Proof.
  unfold script, parseSSE. destruct (scan b) as [lines rerr].
  pose proof (sse_loop_script Unmarshal onE onD lines rerr zero_result false s) as H.
  by destruct (sse_loop _ _ _ lines rerr zero_result false []).
Qed.
