(* ===== verification/Retry.v ===== *)
(** * internal/dify/client.go: requests, retries and back-off

    An environment gives the outcome of the k-th HTTP round trip and whether the k-th
    back-off sleep is interrupted by the context; [doRequestWithRetry] returns what the
    code returns together with the trace of the attempts and sleeps it made.  The JSON
    encoder and decoder are parameters here ([Json] has those of the streaming call).
    [ChatStream] composes validation, the retried request and [parseSSE]. *)

From S2P Require Import Prelude GoNum GoStrings GoErr Sse.

(** ** Back-off *)

Definition maxUpstreamAttempts : nat := 3.

(** The two package variables. *)
Record backoff_vars := { baseBackoff : Z; maxBackoff : Z }.

Definition production_backoff : backoff_vars :=
  {| baseBackoff := 500 * Millisecond; maxBackoff := 5 * Second |}.

(** The variables set, and those the function it returns puts back. *)
Definition SetRetryBackoffForTest (base max : Z) (v : backoff_vars) : backoff_vars * backoff_vars :=
  ({| baseBackoff := base; maxBackoff := max |}, v).

Definition Retryable (e : UpstreamError) : bool :=
  (StatusCode e =? 429) || (500 <=? StatusCode e).

(** The loop [for i := 1; i < attempt; i++] with [n] iterations left. *)
Fixpoint backoff_loop (max : Z) (n : nat) (d : Z) : Z + Z :=
  match n with
  | O => inr d
  | S n =>
      let d := wrap_int64 (d * 2) in
      if max <=? d then inl max else backoff_loop max n d
  end.

Definition retryBackoff (v : backoff_vars) (attempt : Z) : Z :=
  let attempt := if attempt <? 1 then 1 else attempt in
  match backoff_loop (maxBackoff v) (Z.to_nat (attempt - 1)) (baseBackoff v) with
  | inl d => d
  | inr d => if maxBackoff v <? d then maxBackoff v else d
  end.

Definition parseRetryAfter (header0 : string) : Z :=
  let header := TrimSpace header0 in
  if bool_decide (header = "") then 0
  else
    match parse_int64 header with
    | Some secs => if 0 <=? secs then wrap_int64 (secs * Second) else 0
    | None => 0
    end.

(** ** One round trip *)

Record http_request := {
  Method : string;
  URL : string;
  Req_Body : string;
  Authorization : string;
  Content_Type : string;
  Accept : string
}.

Record http_response := {
  Resp_StatusCode : Z;
  Resp_Body : body;
  Resp_RetryAfter : string
}.

Record Client := { baseURL : string; apiKey : string }.

Definition NewClient (base key : string) : Client :=
  {| baseURL := TrimRight_slash base; apiKey := key |}.

(** The outside: whether a method and URL make a request, what the k-th round trip of a
    call returns, and whether the context ends the k-th sleep. *)
Record http_env := {
  NewRequest : string -> string -> option error;
  Do : http_request -> nat -> res error http_response;
  interrupted : nat -> option error
}.

(** [io.ReadAll(io.LimitReader(body, 4096))]: the bytes, the error dropped. *)
Definition readErrorBody (b : body) : string :=
  TrimSpace (of_bytes (take 4096 (bytes (body_bytes b)))).

Definition upstream_failure (operation : string) (resp : http_response) : UpstreamError := {|
  Operation := operation;
  StatusCode := Resp_StatusCode resp;
  ErrBody := readErrorBody (Resp_Body resp);
  RetryAfter := parseRetryAfter (Resp_RetryAfter resp)
|}.

Definition is_2xx (resp : http_response) : bool :=
  (200 <=? Resp_StatusCode resp) && (Resp_StatusCode resp <? 300).

Inductive action := Attempt (k : nat) (req : http_request) | Sleep (d : Z).

Section Requests.
Context (env : http_env) (v : backoff_vars) (c : Client).

Definition request_of (method url body accept : string) : http_request := {|
  Method := method;
  URL := url;
  Req_Body := body;
  Authorization := "Bearer " +:+ apiKey c;
  Content_Type := "application/json";
  Accept := accept
|}.

(** The [k]-th call of [doRequest] in a [doRequestWithRetry]. *)
Definition doRequest (operation method url body accept : string) (k : nat) :
    list action * res error http_response :=
  match NewRequest env method url with
  | Some err => ([], Err (EWrap ("create Dify " +:+ operation +:+ " request") err))
  | None =>
      let httpReq := request_of method url body accept in
      ([Attempt k httpReq],
       match Do env httpReq k with
       | Err err => Err (EWrap ("call Dify " +:+ operation) err)
       | Ok resp => if is_2xx resp then Ok resp
                    else Err (EUpstream (upstream_failure operation resp))
       end)
  end.

(** ** Retries *)

(** Attempt [attempt] with [more] allowed after it. *)
Fixpoint retry_loop (operation method url body accept : string) (more attempt : nat) :
    list action * res error http_response :=
  match doRequest operation method url body accept attempt with
  | (acts, Ok resp) => (acts, Ok resp)
  | (acts, Err err) =>
      match as_upstream err, more with
      | Some u, S more =>
          if negb (Retryable u) then (acts, Err err)
          else
            let backoff := retryBackoff v (Z.of_nat attempt) in
            let backoff := if backoff <? RetryAfter u then RetryAfter u else backoff in
            match interrupted env attempt with
            | Some ctx_err => (acts ++ [Sleep backoff], Err ctx_err)
            | None =>
                let '(acts', r) := retry_loop operation method url body accept more (S attempt) in
                (acts ++ Sleep backoff :: acts', r)
            end
      | _, _ => (acts, Err err)
      end
  end.

Definition doRequestWithRetry (operation method url body accept : string) :
    list action * res error http_response :=
  retry_loop operation method url body accept (maxUpstreamAttempts - 1) 1.
End Requests.

(** ** Chat *)

Definition validateChatReq (req : ChatReq) : option error :=
  if bool_decide (TrimSpace (Query req) = "") then Some (EText "query is required")
  else if bool_decide (Inputs req = None) then Some (EText "inputs is required")
  else if bool_decide (TrimSpace (User req) = "") then Some (EText "user is required")
  else None.

Record chatRequestPayload := {
  P_Query : string;
  P_Inputs : option (gmap string string);
  P_User : string;
  P_ResponseMode : string;
  P_ConversationID : string;
  P_Files : list FileRef;
  P_AutoGenerate : option bool
}.

Definition payload_of (mode : string) (req : ChatReq) : chatRequestPayload := {|
  P_Query := Query req;
  P_Inputs := Inputs req;
  P_User := User req;
  P_ResponseMode := mode;
  P_ConversationID := ConversationID req;
  P_Files := Files req;
  P_AutoGenerate := AutoGenerateName req
|}.

Definition blockingResponseMode : string := "blocking".
Definition streamingResponseMode : string := "streaming".

(** The fields of a blocking reply; [PL_TotalTokens] is metadata.usage.total_tokens. *)
Record chatResponsePayload := {
  PL_Answer : string;
  PL_ConversationID : string;
  PL_MessageID : string;
  PL_TotalTokens : Z
}.

Section Chat.
Context (Marshal : chatRequestPayload -> res error string).
Context (UnmarshalEvent : string -> res error sseEvent).
Context (DecodeChat : body -> res error chatResponsePayload).
Context (env : http_env) (v : backoff_vars).

(** The checks [Chat] and [ChatStream] share, down to the request body. *)
Definition prepare (what mode : string) (c : Client) (req : ChatReq) : res error string :=
  match validateChatReq req with
  | Some err => Err err
  | None =>
      if bool_decide (TrimSpace (baseURL c) = "") then Err (EText "dify base URL is required")
      else if bool_decide (TrimSpace (apiKey c) = "") then Err (EText "dify API key is required")
      else
        match Marshal (payload_of mode req) with
        | Err err => Err (EWrap ("marshal Dify " +:+ what +:+ " request") err)
        | Ok b => Ok b
        end
  end.

(** The HTTP activity, the callbacks made, and what is returned. *)
Definition ChatStream (c : Client) (req : ChatReq) :
    list action * (list callback * (ChatResult * option error)) :=
  match prepare "stream" streamingResponseMode c req with
  | Err err => ([], ([], (zero_result, Some err)))
  | Ok b =>
      match doRequestWithRetry env v c "stream" "POST" (baseURL c +:+ "/chat-messages") b
              "text/event-stream" with
      | (acts, Err err) => (acts, ([], (zero_result, Some err)))
      | (acts, Ok resp) => (acts, script UnmarshalEvent (Resp_Body resp))
      end
  end.

Definition Chat (c : Client) (req : ChatReq) : list action * res error ChatResult :=
  match prepare "chat" blockingResponseMode c req with
  | Err err => ([], Err err)
  | Ok b =>
      match doRequestWithRetry env v c "chat" "POST" (baseURL c +:+ "/chat-messages") b
              "application/json" with
      | (acts, Err err) => (acts, Err err)
      | (acts, Ok resp) =>
          match DecodeChat (Resp_Body resp) with
          | Err err => (acts, Err (EWrap "decode Dify chat response" err))
          | Ok decoded =>
              (acts, Ok {| R_Answer := PL_Answer decoded;
                           R_ConversationID := PL_ConversationID decoded;
                           R_MessageID := PL_MessageID decoded;
                           R_TotalTokens := PL_TotalTokens decoded |})
          end
      end
  end.
End Chat.

(** ** Lemmas: back-off *)

Lemma backoff_loop_spec max n d :
  0 < d <= max -> max < 2 ^ 62 ->
  match backoff_loop max n d with
  | inl x => x = max /\ max <= d * 2 ^ Z.of_nat n
  | inr x => x = d * 2 ^ Z.of_nat n /\ x <= max
  end.
Proof.
  revert d. induction n as [|n IH]; intros d Hd Hmax; cbn [backoff_loop].
  { change (2 ^ Z.of_nat 0) with 1. lia. }
  assert (2 ^ Z.of_nat (S n) = 2 * 2 ^ Z.of_nat n) as Hp
    by (rewrite Nat2Z.inj_succ, Z.pow_succ_r; lia).
  assert (0 < 2 ^ Z.of_nat n) by (apply Z.pow_pos_nonneg; lia).
  rewrite wrap_int64_id by (unfold in_int64, min_int64, max_int64; lia).
  destruct (Z.leb_spec max (d * 2)).
  - split; [done|]. rewrite Hp. nia.
  - specialize (IH (d * 2) ltac:(lia) Hmax). rewrite Hp.
    replace (d * (2 * 2 ^ Z.of_nat n)) with (d * 2 * 2 ^ Z.of_nat n) by lia. done.
Qed.

(** ** Lemmas: retries *)

Definition attempts (l : list action) : list (nat * http_request) :=
  omap (fun a => match a with Attempt k q => Some (k, q) | Sleep _ => None end) l.
Definition sleeps (l : list action) : list Z :=
  omap (fun a => match a with Sleep d => Some d | Attempt _ _ => None end) l.

Section RetryLemmas.
Context (env : http_env) (v : backoff_vars) (c : Client).
Context (op method url body accept : string).

(** What attempt [k] returns. *)
Definition outcome (k : nat) : res error http_response :=
  snd (doRequest env c op method url body accept k).

(** Attempt [k] failed with an upstream error worth retrying. *)
Definition retryable (k : nat) : option UpstreamError :=
  match outcome k with
  | Err err =>
      match as_upstream err with
      | Some u => if Retryable u then Some u else None
      | None => None
      end
  | Ok _ => None
  end.

(** The pause after a retryable failure of attempt [k]: the exponential back-off, or the
    server's Retry-After if that is longer. *)
Definition pause (k : nat) : Z :=
  Z.max (retryBackoff v (Z.of_nat k)) (from_option RetryAfter 0 (retryable k)).

Definition the_attempt (k : nat) : nat * http_request := (k, request_of c method url body accept).

Context (Hreq : NewRequest env method url = None).

Lemma doRequest_made k :
  doRequest env c op method url body accept k =
  ([Attempt k (request_of c method url body accept)], outcome k).
Proof. unfold outcome, doRequest. by rewrite Hreq. Qed.

Lemma retry_loop_step more k :
  retry_loop env v c op method url body accept more k =
  match retryable k, more with
  | Some u, S more =>
      match interrupted env k with
      | Some e => ([Attempt k (request_of c method url body accept); Sleep (pause k)], Err e)
      | None => let '(acts, r) := retry_loop env v c op method url body accept more (S k) in
                (Attempt k (request_of c method url body accept) :: Sleep (pause k) :: acts, r)
      end
  | _, _ => ([Attempt k (request_of c method url body accept)], outcome k)
  end.
Proof.
  unfold pause, retryable. destruct more as [|more]; cbn [retry_loop]; rewrite doRequest_made;
    destruct (outcome k) as [resp|err]; try done;
    destruct (as_upstream err) as [u|]; try done; destruct (Retryable u); try done.
  cbn. unfold Z.max, Z.ltb. rewrite (Z.compare_antisym (RetryAfter u)).
  destruct (Z.compare_spec (RetryAfter u) (retryBackoff v (Z.of_nat k))); cbn; congruence.
Qed.

Lemma retry_loop_spec more k :
  let '(acts, r) := retry_loop env v c op method url body accept more k in
  exists n, (k <= n <= k + more)%nat /\
    attempts acts = the_attempt <$> seq k (S n - k) /\
    (forall j, (k <= j < n)%nat -> is_Some (retryable j) /\ interrupted env j = None) /\
    ((r = outcome n /\ (n = (k + more)%nat \/ retryable n = None) /\
      sleeps acts = pause <$> seq k (n - k)) \/
     ((n < k + more)%nat /\ is_Some (retryable n) /\
      (exists e, interrupted env n = Some e /\ r = Err e) /\
      sleeps acts = pause <$> seq k (S n - k))).
Proof.
  assert (Hself : forall k, (S k - k)%nat = 1%nat) by lia.
  revert k. induction more as [|more IH]; intros k; rewrite retry_loop_step.
  - destruct (retryable k); exists k; rewrite Hself, Nat.sub_diag;
      (split_and!; [lia..|done|lia|left; split_and!; [done|left; lia|done]]).
  - destruct (retryable k) as [u|] eqn:Er.
    2: { exists k. rewrite Hself, Nat.sub_diag.
         split_and!; [lia..|done|lia|left; split_and!; [done|by right|done]]. }
    destruct (interrupted env k) as [e|] eqn:Ei.
    { exists k. rewrite Hself.
      split_and!; [lia..|done|lia|right; split_and!; [lia|by rewrite Er; eauto|eauto|done]]. }
    specialize (IH (S k)).
    destruct (retry_loop env v c op method url body accept more (S k)) as [acts r].
    destruct IH as (n & Hn & Ha & Hj & Hr). exists n.
    replace (S n - k)%nat with (S (S n - S k)) by lia.
    split_and!; [lia|lia|cbn [seq]; by rewrite fmap_cons, <- Ha| |].
    + intros j Hj'. destruct (decide (j = k)) as [->|]; [by rewrite Er; eauto|]. apply Hj. lia.
    + destruct Hr as [(-> & Hnr & Hs)|(Hlt & Hnr & He & Hs)]; [left|right].
      * replace (n - k)%nat with (S (n - S k)) by lia. split_and!; [done|naive_solver lia|].
        cbn [seq]. by rewrite fmap_cons, <- Hs.
      * split_and!; [lia|done|done|]. cbn [seq]. by rewrite fmap_cons, <- Hs.
Qed.
End RetryLemmas.

(** ** Theorems *)

(** The back-off before retry [a] is [base * 2^(a-1)] capped at the maximum, without
    overflow however large [a] is. *)
Lemma retryBackoff_closed_form v a :
  0 < baseBackoff v <= maxBackoff v -> maxBackoff v < 2 ^ 62 ->
  retryBackoff v a = Z.min (baseBackoff v * 2 ^ (Z.max 1 a - 1)) (maxBackoff v).
Proof.
  intros Hb Hm. unfold retryBackoff.
  replace (if a <? 1 then 1 else a) with (Z.max 1 a) by (destruct (Z.ltb_spec a 1); lia).
  pose proof (backoff_loop_spec (maxBackoff v) (Z.to_nat (Z.max 1 a - 1)) _ Hb Hm) as Hs.
  rewrite Z2Nat.id in Hs by lia.
  destruct (backoff_loop _ _ _) as [d|d]; destruct Hs as [-> Hle]; [lia|].
  case_goal; bool_lia; lia.
Qed.

Lemma retryBackoff_closed_form_witness :
  (0 < baseBackoff production_backoff <= maxBackoff production_backoff /\
   maxBackoff production_backoff < 2 ^ 62) /\
  retryBackoff production_backoff 4 = 4 * Second /\
  retryBackoff production_backoff 5 = 5 * Second.
Proof.
  split; [vm_compute; intuition congruence|split].
  - rewrite (retryBackoff_closed_form production_backoff 4) by (vm_compute; intuition congruence).
    reflexivity.
  - rewrite (retryBackoff_closed_form production_backoff 5) by (vm_compute; intuition congruence).
    reflexivity.
Defined.

Section Policy.
Context (env : http_env) (v : backoff_vars) (c : Client) (op method url body accept : string).

Abbreviation q := (request_of c method url body accept).

(** Round trip [k] was answered with 429 or with 500 and up. *)
Definition answered_again (k : nat) : Prop :=
  exists resp, Do env q k = Ok resp /\ (Resp_StatusCode resp = 429 \/ 500 <= Resp_StatusCode resp).

(** The Retry-After header of that answer. *)
Definition retry_after (k : nat) : Z :=
  match Do env q k with Ok resp => parseRetryAfter (Resp_RetryAfter resp) | Err _ => 0 end.

Context (Hreq : NewRequest env method url = None).
(** http.Client's errors are url errors, not the client's own. *)
Context (Hdo : forall k e, Do env q k = Err e -> as_upstream e = None).

Lemma retryable_answered k : is_Some (retryable env c op method url body accept k) <-> answered_again k.
Proof.
  unfold retryable, outcome, doRequest, answered_again. rewrite Hreq. cbn [snd].
  destruct (Do env q k) as [resp|e] eqn:E.
  - destruct (is_2xx resp) eqn:E2; [|cbn [as_upstream]; unfold Retryable; cbn [StatusCode upstream_failure]].
    + unfold is_2xx in E2. split; [by intros [? [=]]|]. intros (r & [= ->] & Hs). bool_lia.
    + destruct ((Resp_StatusCode resp =? 429) || (500 <=? Resp_StatusCode resp)) eqn:Es.
      * split; [|by eauto]. intros _. exists resp. split; [done|].
        apply orb_prop in Es as [Es|Es]; [left|right]; bool_lia.
      * split; [by intros [? [=]]|]. intros (r & [= ->] & Hs). apply orb_false_iff in Es as [E1 E3]. bool_lia.
  - cbn [as_upstream]. rewrite (Hdo k e E). split; [by intros [? [=]]|by intros (r & [=] & _)].
Qed.

Lemma pause_answered k : (1 <= k)%nat -> 0 < baseBackoff v <= maxBackoff v -> maxBackoff v < 2 ^ 62 ->
  is_Some (retryable env c op method url body accept k) ->
  pause env v c op method url body accept k =
    Z.max (Z.min (baseBackoff v * 2 ^ (Z.of_nat k - 1)) (maxBackoff v)) (retry_after k).
Proof.
  intros Hk Hb Hm [u Hu]. unfold pause. rewrite Hu, retryBackoff_closed_form by done.
  replace (Z.max 1 (Z.of_nat k)) with (Z.of_nat k) by lia. f_equal. cbn [from_option].
  unfold retryable, outcome, doRequest in Hu. rewrite Hreq in Hu. cbn [snd] in Hu. unfold retry_after.
  destruct (Do env q k) as [resp|e] eqn:E.
  - destruct (is_2xx resp); [done|]. cbn [as_upstream] in Hu. case_match; [|done]. by simplify_eq/=.
  - cbn [as_upstream] in Hu. by rewrite (Hdo k e E) in Hu.
Qed.

(** C35: a request is tried one to three times, each time the same request; an attempt is
    followed by another exactly when it was answered with status 429 or one of 500 and up
    and the context did not end the pause before it, which after attempt [k] lasts
    [base * 2^(k-1)], at most the maximum, or a longer Retry-After; the result is the last
    attempt's (the response if its status is 2xx, an upstream error with that status
    otherwise, or the transport's error), or the context's error. *)
Theorem doRequestWithRetry_policy :
  0 < baseBackoff v <= maxBackoff v -> maxBackoff v < 2 ^ 62 ->
  let '(acts, r) := doRequestWithRetry env v c op method url body accept in
  let again k := exists resp, Do env q k = Ok resp /\
    (Resp_StatusCode resp = 429 \/ 500 <= Resp_StatusCode resp) in
  let wait k := Z.max (Z.min (baseBackoff v * 2 ^ (Z.of_nat k - 1)) (maxBackoff v)) (retry_after k) in
  exists n, (1 <= n <= 3)%nat /\
    attempts acts = (fun k => (k, q)) <$> seq 1 n /\
    (forall j, (1 <= j < n)%nat -> again j /\ interrupted env j = None) /\
    (((n = 3%nat \/ ~ again n) /\ sleeps acts = wait <$> seq 1 (n - 1) /\
      match Do env q n with
      | Ok resp =>
          if (200 <=? Resp_StatusCode resp) && (Resp_StatusCode resp <? 300) then r = Ok resp
          else exists u, r = Err (EUpstream u) /\ StatusCode u = Resp_StatusCode resp
      | Err e => r = Err (EWrap ("call Dify " +:+ op) e)
      end) \/
     ((n < 3)%nat /\ again n /\ sleeps acts = wait <$> seq 1 n /\
      exists e, interrupted env n = Some e /\ r = Err e)).
Proof.
  intros Hb Hm. unfold doRequestWithRetry.
  pose proof (retry_loop_spec env v c op method url body accept Hreq (maxUpstreamAttempts - 1) 1) as H.
  destruct (retry_loop _ _ _ _ _ _ _ _ _ _) as [acts r].
  destruct H as (n & Hn & Ha & Hj & Hr). exists n. unfold maxUpstreamAttempts in *.
  replace (S n - 1)%nat with n in * by lia.
  assert (forall m, (forall k, (1 <= k <= m)%nat -> is_Some (retryable env c op method url body accept k)) ->
    pause env v c op method url body accept <$> seq 1 m =
    (fun k => Z.max (Z.min (baseBackoff v * 2 ^ (Z.of_nat k - 1)) (maxBackoff v)) (retry_after k)) <$> seq 1 m)
    as Hp.
  { intros m Hall. apply list_fmap_ext. intros i k Hk. apply lookup_seq in Hk as [-> Hi].
    apply pause_answered; [lia|done|done|]. apply Hall. lia. }
  split_and!; [lia|lia|exact Ha| |].
  { intros j Hlt. destruct (Hj j Hlt) as [Hs Hi]. split; [by apply retryable_answered|done]. }
  destruct Hr as [(Ho & Hlast & Hs)|(Hlt & Hs & Hi & Hsl)]; [left|right].
  - split_and!.
    + destruct Hlast as [?|Hnone]; [by left|right]. intros Hag. apply retryable_answered in Hag.
      rewrite Hnone in Hag. by destruct Hag.
    + rewrite Hs. apply Hp. intros k Hk. apply Hj. lia.
    + rewrite Ho. unfold outcome, doRequest. rewrite Hreq. cbn [snd]. destruct (Do env q n) as [resp|e]; [|done].
      change ((200 <=? Resp_StatusCode resp) && (Resp_StatusCode resp <? 300)) with (is_2xx resp).
      destruct (is_2xx resp); [done|]. by eexists.
  - split_and!; [lia|by apply retryable_answered| |done]. rewrite Hsl. apply Hp. intros k Hk.
    destruct (decide (k = n)) as [->|]; [done|]. apply Hj. lia.
Qed.
End Policy.

(** A server that answers 503 twice, then 200. *)
Definition demo_env : http_env := {|
  NewRequest := fun _ _ => None;
  Do := fun _ k =>
    Ok {| Resp_StatusCode := if bool_decide (k < 3)%nat then 503 else 200;
          Resp_Body := {| body_bytes := "data: hello" +:+ String (Ascii.ascii_of_nat 10) "data: end"; body_err := ESentinel IoEOF |};
          Resp_RetryAfter := "3" |};
  interrupted := fun _ => None
|}.
Definition demo_client : Client := NewClient "http://dify/v1/" "app-key".

Lemma doRequestWithRetry_policy_witness :
  NewRequest demo_env "POST" "u" = None /\
  exists acts r, doRequestWithRetry demo_env production_backoff demo_client "chat" "POST" "u" "b" "a"
                 = (acts, Ok r) /\
    attempts acts = (fun k => (k, request_of demo_client "POST" "u" "b" "a")) <$> seq 1 3 /\
    sleeps acts = [3 * Second; 3 * Second].
Proof.
  split; [done|].
  pose proof (doRequestWithRetry_policy demo_env production_backoff demo_client
                "chat" "POST" "u" "b" "a" eq_refl ltac:(discriminate)
                ltac:(vm_compute; intuition congruence) ltac:(vm_compute; intuition congruence)) as H.
  destruct (doRequestWithRetry _ _ _ _ _ _ _ _) as [acts r] eqn:E. vm_compute in E.
  injection E as <- <-. eexists _, _. split_and!; reflexivity.
Defined.

(** [ChatStream] delivers the callbacks of one response only: what reaches the
    caller is the parse of the body of the one 2xx response of the last attempt, and a call
    that fails before that has made no callback and returns the zero result.  Every request
    sent goes to the client's URL with the client's key. *)
Lemma ChatStream_one_response Marshal Unmarshal env v c req :
  NewRequest env "POST" (baseURL c +:+ "/chat-messages") = None ->
  let '(acts, (calls, (result, err))) := ChatStream Marshal Unmarshal env v c req in
  (forall k q, (k, q) ∈ attempts acts ->
     Marshal (payload_of streamingResponseMode req) = Ok (Req_Body q) /\
     URL q = baseURL c +:+ "/chat-messages" /\ Authorization q = "Bearer " +:+ apiKey c) /\
  ((calls = [] /\ result = zero_result /\ is_Some err) \/
   exists k q resp, last (attempts acts) = Some (k, q) /\ Do env q k = Ok resp /\
     is_2xx resp = true /\ (calls, (result, err)) = script Unmarshal (Resp_Body resp)).
Proof.
  intros Hreq. unfold ChatStream.
  destruct (prepare _ _ _ _ _) as [b|e] eqn:Ep.
  2: { split; [by intros ?? ?%elem_of_nil|]. left. eauto. }
  assert (Marshal (payload_of streamingResponseMode req) = Ok b) as Hb.
  { unfold prepare in Ep. repeat case_match; by simplify_eq. }
  pose proof (retry_loop_spec env v c "stream" "POST" (baseURL c +:+ "/chat-messages") b
                "text/event-stream" Hreq (maxUpstreamAttempts - 1) 1) as H.
  unfold doRequestWithRetry. destruct (retry_loop _ _ _ _ _ _ _ _ _ _) as [acts r].
  destruct H as (n & Hn & Ha & _ & Hr). rewrite Nat.sub_succ, Nat.sub_0_r in Ha.
  assert (forall k q, (k, q) ∈ attempts acts -> Marshal (payload_of streamingResponseMode req) = Ok (Req_Body q) /\
     URL q = baseURL c +:+ "/chat-messages" /\ Authorization q = "Bearer " +:+ apiKey c) as Hall.
  { rewrite Ha. intros k q (?&[= -> ->]&_)%list_elem_of_fmap. done. }
  destruct r as [resp|e]; [|split; [done|left; eauto]].
  destruct (script _ _) as [calls [result err]] eqn:Es. split; [done|right].
  destruct Hr as [(Ho & _)|(_ & _ & (e & _ & [=]) & _)].
  unfold outcome, doRequest in Ho. rewrite Hreq in Ho. cbn [snd] in Ho.
  destruct (Do _ _ _) as [resp'|] eqn:Ed; [|done]. case_match eqn:E2; [|done]. simplify_eq.
  exists n, (request_of c "POST" (baseURL c +:+ "/chat-messages") b "text/event-stream"), resp'.
  split_and!; try done. rewrite Ha. destruct n as [|n]; [lia|].
  rewrite seq_S, fmap_app. apply last_snoc.
Qed.

Definition demo_unmarshal (data : string) : res error sseEvent :=
  if bool_decide (data = "end") then Ok (mkEvent "message_end" "t1" "m1" "c1" "" "" "" 7)
  else Ok (mkEvent "message" "t1" "m1" "c1" data "" "" 0).

Lemma ChatStream_one_response_witness :
  let req := mkChatReq "hi" (Some ∅) "u" "" [] None in
  NewRequest demo_env "POST" (baseURL demo_client +:+ "/chat-messages") = None /\
  exists acts, ChatStream (fun p => Ok (P_Query p))
                 demo_unmarshal
                 demo_env production_backoff demo_client req
               = (acts, ([OnEvent "t1" "c1"; OnDelta "hello"], (mkChatResult "" "c1" "m1" 7, None))) /\
    (forall k q, (k, q) ∈ attempts acts -> Authorization q = "Bearer app-key").
Proof.
  intros req. split; [done|].
  pose proof (ChatStream_one_response (fun p => Ok (P_Query p))
    demo_unmarshal
    demo_env production_backoff demo_client req eq_refl) as H.
  destruct (ChatStream _ _ _ _ _ _) as [acts [calls [result err]]] eqn:E. vm_compute in E.
  injection E as <- <- <- <-. destruct H as [H _].
  eexists. split; [reflexivity|]. intros k q Hk. by destruct (H k q Hk) as (_ & _ & ->).
Defined.

(** The product of a large Retry-After with [time.Second] wraps: a server that asks for
    18446744074 seconds gets a pause of about 0.29 s, and 9223372037 seconds gives a
    negative one, which the exponential back-off replaces. *)
Lemma parseRetryAfter_wraps :
  parseRetryAfter "18446744074" = 290448384 /\ parseRetryAfter "9223372037" < 0.
Proof. vm_compute. done. Qed.
