(* ===== verification/Redis.v ===== *)
(** * The Redis server, as the store and the limiter use it

    Redis is outside the repository: a server is any state [R] with an observation
    [entry] (what a key holds at a server time, and when it expires) and an [exec] for the
    commands the code sends.  [RedisLaws] states the documented effect of each command;
    the store's and the limiter's theorems are proved against these two classes.
    [Keyspace] at the end is one server that satisfies them.

    The Lua scripts of the source are programs of the monad [script]: they run at one
    server time, without interleaving, and stop at the first command that fails.  A call
    over the network may fail before the server sees it or after it has executed it
    ([fault]). *)

From S2P Require Import Prelude GoNum GoStrings GoErr.

(** ** Commands *)

Inductive rvalue := RStr (s : string) | RZset (z : gmap string Z).

(** A value and the server time (ms) at which it expires. *)
Definition rentry : Type := rvalue * option Z.

Inductive command :=
| GET (k : string)
| SET (k v : string) (ttl : Z)
| SETNX (k v : string) (ttl : Z)
| DEL (k : string)
| INCRBY (k : string) (n : Z)
| PEXPIRE (k : string) (ms : Z)
| ZREMRANGEBYSCORE (k : string) (lo hi : Z)
| ZCARD (k : string)
| ZADD (k : string) (score : Z) (member : string)
| ZFIRST (k : string)  (* ZRANGE k 0 0 *)
| ZREM (k : string) (member : string).

Inductive reply := RNil | RInt (n : Z) | RBulk (s : string).

#[export] Instance reply_eq_dec : EqDecision reply.
Proof. solve_decision. Defined.
#[export] Instance rvalue_eq_dec : EqDecision rvalue.
Proof. solve_decision. Defined.

Definition key_of (c : command) : string :=
  match c with
  | GET k | SET k _ _ | SETNX k _ _ | DEL k | INCRBY k _ | PEXPIRE k _
  | ZREMRANGEBYSCORE k _ _ | ZCARD k | ZADD k _ _ | ZFIRST k | ZREM k _ => k
  end.

Definition WRONGTYPE : error :=
  EText "WRONGTYPE Operation against a key holding the wrong kind of value".

(** The client sends an expiration in milliseconds, at least one. *)
Definition ttl_ms (ttl : Z) : Z := Z.max 1 (ttl / Millisecond).

(** An empty sorted set is no key. *)
Definition zset_entry (z : gmap string Z) (e : option Z) : option rentry :=
  if bool_decide (z = ∅) then None else Some (RZset z, e).

Definition in_range (lo hi : Z) (p : string * Z) : Prop := lo <= p.2 <= hi.
#[export] Instance in_range_dec lo hi p : Decision (in_range lo hi p).
Proof. unfold in_range. solve_decision. Defined.

(** A member of lowest score. *)
Definition zfirst (z : gmap string Z) : option string :=
  map_fold (fun m s acc => match acc with
                           | None => Some (m, s)
                           | Some (m', s') => if s <? s' then Some (m, s) else acc
                           end) None z ≫= fun p => Some p.1.

(** The effect of a command on its key, at time [t]. *)
Definition on_zset (x : option rentry) (f : gmap string Z -> option Z -> option rentry * reply) :
    option rentry * res error reply :=
  match x with
  | None => let '(x', r) := f ∅ None in (x', Ok r)
  | Some (RZset z, e) => let '(x', r) := f z e in (x', Ok r)
  | Some (RStr _, _) => (x, Err WRONGTYPE)
  end.

Definition command_effect (t : Z) (c : command) (x : option rentry) :
    option rentry * res error reply :=
  match c with
  | GET _ =>
      match x with
      | None => (x, Ok RNil)
      | Some (RStr s, _) => (x, Ok (RBulk s))
      | Some (RZset _, _) => (x, Err WRONGTYPE)
      end
  | SET _ v ttl => (Some (RStr v, Some (t + ttl_ms ttl)), Ok (RBulk "OK"))
  | SETNX _ v ttl =>
      match x with
      | None => (Some (RStr v, Some (t + ttl_ms ttl)), Ok (RInt 1))
      | Some _ => (x, Ok (RInt 0))
      end
  | DEL _ => (None, Ok (RInt (if x is Some _ then 1 else 0)))
  | INCRBY _ n =>
      match x with
      | None => (Some (RStr (format_int n), None), Ok (RInt n))
      | Some (RStr s, e) =>
          match parse_int64 s with
          | Some m =>
              if bool_decide (in_int64 (m + n))
              then (Some (RStr (format_int (m + n)), e), Ok (RInt (m + n)))
              else (x, Err (EText "ERR increment or decrement would overflow"))
          | None => (x, Err (EText "ERR value is not an integer or out of range"))
          end
      | Some (RZset _, _) => (x, Err WRONGTYPE)
      end
  | PEXPIRE _ ms =>
      match x with
      | None => (None, Ok (RInt 0))
      | Some (v, _) => (if 0 <? ms then Some (v, Some (t + ms)) else None, Ok (RInt 1))
      end
  | ZREMRANGEBYSCORE _ lo hi =>
      on_zset x (fun z e =>
        let z' := filter (fun p => ~ in_range lo hi p) z in
        (zset_entry z' e, RInt (Z.of_nat (size z) - Z.of_nat (size z'))))
  | ZCARD _ => on_zset x (fun z e => (x, RInt (Z.of_nat (size z))))
  | ZADD _ s m =>
      on_zset x (fun z e =>
        (Some (RZset (<[m := s]> z), e), RInt (if z !! m is Some _ then 0 else 1)))
  | ZFIRST _ => on_zset x (fun z e => (x, match zfirst z with Some m => RBulk m | None => RNil end))
  | ZREM _ m =>
      on_zset x (fun z e => (zset_entry (delete m z) e, RInt (if z !! m is Some _ then 1 else 0)))
  end.

(** A key is gone from its expiry time on. *)
Definition live (t : Z) (x : option rentry) : option rentry :=
  match x with
  | Some (_, Some e) => if t <? e then x else None
  | _ => x
  end.

(** ** The server *)

Class Redis (R : Type) := {
  entry : R -> Z -> string -> option rentry;
  exec : Z -> command -> R -> R * res error reply
}.

Class RedisLaws (R : Type) `{Redis R} := {
  entry_later (r : R) t t' k : t <= t' -> entry r t' k = live t' (entry r t k);
  exec_entry t c (r : R) k :
    entry (exec t c r).1 t k =
    if bool_decide (k = key_of c) then (command_effect t c (entry r t k)).1 else entry r t k;
  exec_reply t c (r : R) : (exec t c r).2 = (command_effect t c (entry r t (key_of c))).2
}.

(** ** Scripts and calls *)

Section Script.
Context {R : Type} `{Redis R}.

Definition script (A : Type) : Type := Z -> R -> R * res error A.

Definition script_ret {A} (a : A) : script A := fun _ r => (r, Ok a).
Definition script_bind {A B} (m : script A) (k : A -> script B) : script B :=
  fun t r =>
    match m t r with
    | (r, Ok a) => k a t r
    | (r, Err e) => (r, Err e)
    end.
Definition script_call (c : command) : script reply := fun t r => exec t c r.
End Script.

Arguments script : clear implicits.

Notation "'do' x := m 'in' k" := (script_bind m (fun x => k))
  (at level 10, x pattern, m at level 100, k at level 200) : gw_scope.

(** What happens to a call on its way: nothing, lost before the server, or its reply lost. *)
Inductive fault := NoFault | LostRequest (e : error) | LostReply (e : error).

Definition run {R A} (s : script R A) (f : fault) (t : Z) (r : R) : R * res error A :=
  match f with
  | NoFault => s t r
  | LostRequest e => (r, Err e)
  | LostReply e => ((s t r).1, Err e)
  end.

(** ** Reasoning about commands *)

Section RedisLemmas.
Context {R : Type} `{RedisLaws R}.
Implicit Types r : R.

Lemma exec_cases t c r :
  exists r', exec t c r = (r', (command_effect t c (entry r t (key_of c))).2) /\
    entry r' t (key_of c) = (command_effect t c (entry r t (key_of c))).1 /\
    forall k, k <> key_of c -> entry r' t k = entry r t k.
Proof.
  exists (exec t c r).1. split_and!.
  - rewrite <- exec_reply. by destruct (exec t c r).
  - rewrite exec_entry. by rewrite bool_decide_eq_true_2.
  - intros k Hk. rewrite exec_entry. by rewrite bool_decide_eq_false_2.
Qed.

(** The sorted set of a key; [None] when the key holds a string. *)
Definition zset_at r t k : option (gmap string Z) :=
  match entry r t k with
  | None => Some ∅
  | Some (RZset z, _) => Some z
  | Some (RStr _, _) => None
  end.

Lemma zset_at_later r t t' k z :
  t <= t' -> zset_at r t k = Some z -> zset_at r t' k = Some z \/
    (zset_at r t' k = Some ∅ /\ exists e, entry r t k = Some (RZset z, Some e) /\ e <= t').
Proof.
  intros Ht. unfold zset_at. rewrite (entry_later r t t') by done.
  destruct (entry r t k) as [[[s|z'] [e|]]|]; cbn; try by eauto.
  destruct (Z.ltb_spec t' e); [by eauto|]. intros [= ->]. right. eauto.
Qed.
End RedisLemmas.

(** Runs the next command of a script: names the new state and its equations. *)
Ltac redis_step r' E Ek Eo :=
  match goal with
  | |- context [exec ?t ?c ?r] => destruct (exec_cases t c r) as (r' & E & Ek & Eo); rewrite E
  end.

(** ** A server *)

Module Keyspace.

Definition state : Type := gmap string rentry.

Definition empty : state := ∅.

Definition step (t : Z) (c : command) (r : state) : state * res error reply :=
  let '(x, rep) := command_effect t c (live t (r !! key_of c)) in
  (partial_alter (fun _ => x) (key_of c) r, rep).

#[global] Instance redis : Redis state := {
  entry r t k := live t (r !! k);
  exec := step
}.

Lemma zset_entry_live t z (e : option Z) :
  (forall n, e = Some n -> t < n) -> live t (zset_entry z e) = zset_entry z e.
Proof.
  intros He. unfold zset_entry, live. case_bool_decide; [done|].
  destruct e as [n|]; [|done]. specialize (He n eq_refl). by rewrite (proj2 (Z.ltb_lt t n)).
Qed.

Lemma command_effect_live t c x :
  live t x = x -> live t (command_effect t c x).1 = (command_effect t c x).1.
Proof.
  intros Hx.
  assert (forall v n, x = Some (v, Some n) -> t < n) as Hn.
  { intros v n ->. cbn in Hx. destruct (Z.ltb_spec t n); congruence. }
  assert (forall v d, 0 < d -> live t (Some (v, Some (t + d))) = Some (v, Some (t + d))) as Hl.
  { intros v d Hd. cbn. by rewrite (proj2 (Z.ltb_lt t (t + d))) by lia. }
  assert (forall v w e, x = Some (v, e) -> live t (Some (w, e)) = Some (w, e)) as Hk.
  { intros v w [n|] ->; [|done]. cbn. by rewrite (proj2 (Z.ltb_lt t n) (Hn _ _ eq_refl)). }
  assert (forall ttl, 0 < ttl_ms ttl) as Hms by (intros; unfold ttl_ms; lia).
  destruct c; cbn [command_effect]; try (by destruct x as [[[?|?] ?]|]);
    destruct x as [[[s|z] e]|]; cbn [on_zset fst snd]; try done; try (by apply Hl);
    repeat case_match; cbn [fst]; try done; try (by eapply Hk); try (apply Hl; bool_lia);
    apply zset_entry_live; intros n ->; try done; by eapply Hn.
Qed.

Lemma live_live t x : live t (live t x) = live t x.
Proof.
  destruct x as [[v [e|]]|]; try done. cbn. destruct (t <? e) eqn:E; [|done]. cbn. by rewrite E.
Qed.

#[global] Instance redis_laws : RedisLaws state.
Proof.
  split.
  - intros r t t' k Ht. cbn. destruct (r !! k) as [[v [e|]]|]; try done. cbn.
    destruct (Z.ltb_spec t e); [done|]. cbn. destruct (Z.ltb_spec t' e); [lia|done].
  - intros t c r k. cbn [entry exec redis]. unfold step.
    pose proof (command_effect_live t c _ (live_live t (r !! key_of c))) as Hl.
    destruct (command_effect t c (live t (r !! key_of c))) as [x rep] eqn:E. cbn [fst snd] in *.
    unfold state in *. rewrite lookup_partial_alter. case_bool_decide as Hk.
    + subst k. by rewrite decide_True, E.
    + by rewrite decide_False.
  - intros t c r. cbn. unfold step. by destruct (command_effect _ _ _).
Qed.
End Keyspace.
