(* ===== verification/Store.v ===== *)
(** * internal/store/store.go: conversations and the creation lock

    Each method is a function of the call's fate, the server time and the server state.
    [AcquireConversationLock] is the retry loop, with what other clients do to the server
    during a pause as a parameter; [Locking] is the system of all the clients of one lock,
    for mutual exclusion. *)

From S2P Require Import Prelude GoNum GoStrings GoErr Redis.

(** ** Keys and tokens *)

Definition lockRetryInterval : Z := 20 * Millisecond.
Definition releaseTimeout : Z := 5 * Second.

Definition conversationKey (playerID npcID : string) : string :=
  "conv:" +:+ playerID +:+ ":" +:+ npcID.

Definition lockKey (playerID npcID : string) : string :=
  "lock:conv:" +:+ playerID +:+ ":" +:+ npcID.

(** [hex.EncodeToString]. *)
Definition hex_digit (n : Z) : Z := if n <? 10 then 48 + n else 87 + n.
Definition hex_encode (bs : list Z) : string :=
  of_bytes (bs ≫= fun b => [hex_digit (b / 16); hex_digit (b mod 16)]).

(** [newToken], given what [rand.Read] of 16 bytes returns. *)
Definition newToken (rand_read : res error (list Z)) : res error string :=
  match rand_read with
  | Err e => Err (EWrap "store: generate lock token" e)
  | Ok buf => Ok (hex_encode buf)
  end.

Section Store.
Context {R : Type} `{Redis R}.

(** ** The conversation mapping *)

Definition GetConversation (f : fault) (t : Z) (playerID npcID : string) (r : R) :
    R * res error string :=
  match run (script_call (GET (conversationKey playerID npcID))) f t r with
  | (r, Ok (RBulk val)) => (r, Ok val)
  | (r, Ok RNil) => (r, Ok "")
  | (r, Ok (RInt n)) => (r, Ok (format_int n))
  | (r, Err err) =>
      if errors_is err RedisNil then (r, Ok "")
      else (r, Err (EWrap "store: get conversation" err))
  end.

Definition SetConversation (f : fault) (t : Z) (playerID npcID convID : string) (ttl : Z) (r : R) :
    R * option error :=
  if ttl <=? 0 then (r, Some (EText "store: set conversation: ttl must be positive"))
  else
    match run (script_call (SET (conversationKey playerID npcID) convID ttl)) f t r with
    | (r, Ok _) => (r, None)
    | (r, Err err) => (r, Some (EWrap "store: set conversation" err))
    end.

Definition DeleteConversation (f : fault) (t : Z) (playerID npcID : string) (r : R) :
    R * option error :=
  match run (script_call (DEL (conversationKey playerID npcID))) f t r with
  | (r, Ok _) => (r, None)
  | (r, Err err) => (r, Some (EWrap "store: delete conversation" err))
  end.

(** ** The lock *)

Definition releaseScript (key token : string) : script R Z :=
  do v := script_call (GET key) in
  if bool_decide (v = RBulk token) then
    do n := script_call (DEL key) in
    match n with RInt n => script_ret n | _ => script_ret 0 end
  else script_ret 0.

(** One [SetNX] and its boolean. *)
Definition try_lock (f : fault) (t : Z) (key token : string) (ttl : Z) (r : R) : R * res error bool :=
  match run (script_call (SETNX key token ttl)) f t r with
  | (r, Ok rep) => (r, Ok (bool_decide (rep = RInt 1)))
  | (r, Err err) => (r, Err err)
  end.

(** The loop, attempt [k]: [call k] is the fate and server time of the k-th [SetNX],
    [wait k] how the k-th pause ends ([Some]: the context's error), [others k] what the
    rest of the world does to the server meanwhile. *)
Fixpoint lock_loop (call : nat -> fault * Z) (wait : nat -> option error) (others : nat -> R -> R)
    (key token : string) (ttl : Z) (fuel k : nat) (r : R) : option (R * res error string) :=
  match fuel with
  | O => None
  | S fuel =>
      match try_lock (call k).1 (call k).2 key token ttl r with
      | (r, Err err) => Some (r, Err (EWrap "store: acquire lock" err))
      | (r, Ok true) => Some (r, Ok token)
      | (r, Ok false) =>
          match wait k with
          | Some err => Some (r, Err err)
          | None => lock_loop call wait others key token ttl fuel (S k) (others k r)
          end
      end
  end.

(** The result is the token the returned closure releases. *)
Definition AcquireConversationLock (rand_read : res error (list Z))
    (call : nat -> fault * Z) (wait : nat -> option error) (others : nat -> R -> R)
    (playerID npcID : string) (ttl : Z) (fuel : nat) (r : R) : option (R * res error string) :=
  match newToken rand_read with
  | Err err => Some (r, Err err)
  | Ok token => lock_loop call wait others (lockKey playerID npcID) token ttl fuel 0 r
  end.

(** The closure of [releaser]: [fired] is its [sync.Once]. *)
Definition unlock (f : fault) (t : Z) (key token : string) (fired : bool) (r : R) : R * bool :=
  if fired then (r, true) else ((run (releaseScript key token) f t r).1, true).
End Store.

(** ** Lemmas *)

Section StoreLemmas.
Context {R : Type} `{RedisLaws R}.
Implicit Types r : R.

(** What a key holds as a string. *)
Definition string_at r t k : option string :=
  match entry r t k with Some (RStr s, _) => Some s | _ => None end.

Lemma try_lock_spec f t key token ttl r :
  exists r' b, try_lock f t key token ttl r = (r', b) /\
    (forall k, k <> key -> entry r' t k = entry r t k) /\
    (entry r' t key = entry r t key \/
     (entry r t key = None /\ entry r' t key = Some (RStr token, Some (t + ttl_ms ttl)))) /\
    match b with
    | Ok true => entry r t key = None /\ entry r' t key = Some (RStr token, Some (t + ttl_ms ttl))
    | Ok false => is_Some (entry r t key) /\ entry r' t key = entry r t key
    | Err _ => f <> NoFault
    end.
Proof.
  unfold try_lock, run, script_call. destruct f as [|e|e].
  2: { exists r, (Err e). split_and!; auto. }
  all: redis_step r' E Ek Eo; cbn [command_effect key_of] in *;
    destruct (entry r t key); cbn in *; eexists _, _; (split; [reflexivity|]); split_and!; eauto; try done; cbn; eauto.
Qed.

Lemma release_entry f t key token r :
  exists r', (run (releaseScript key token) f t r).1 = r' /\
    (forall k, k <> key -> entry r' t k = entry r t k) /\
    (entry r' t key = entry r t key \/
     (string_at r t key = Some token /\ entry r' t key = None)) /\
    (f = NoFault -> string_at r t key = Some token -> entry r' t key = None).
Proof.
  assert (exists r', (releaseScript key token t r).1 = r' /\
    (forall k, k <> key -> entry r' t k = entry r t k) /\
    entry r' t key = if bool_decide (string_at r t key = Some token) then None else entry r t key)
    as (r' & E & Ho & Hk).
  { unfold releaseScript, script_bind, script_call, string_at.
    redis_step r1 E1 Ek1 Eo1. cbn [command_effect key_of] in *.
    destruct (entry r t key) as [[[s|z] x]|]; cbn in *; [|by eauto..].
    case_bool_decide as Hs; [|rewrite bool_decide_eq_false_2 by congruence; by eauto].
    redis_step r2 E2 Ek2 Eo2. cbn in *. eexists. split; [reflexivity|].
    rewrite bool_decide_eq_true_2 by congruence. split; [|done].
    intros k Hk. by rewrite Eo2, Eo1. }
  assert (entry r' t key = entry r t key \/
          (string_at r t key = Some token /\ entry r' t key = None)) as Hor
    by (rewrite Hk; case_bool_decide; auto).
  destruct f as [|e|e]; cbn [run fst]; rewrite ?E.
  - exists r'. split_and!; auto. intros _ Hs. rewrite Hk. by rewrite bool_decide_eq_true_2.
  - exists r. split_and!; auto. done.
  - exists r'. split_and!; auto. done.
Qed.
End StoreLemmas.

(** ** The clients of one lock *)

Module Locking.
Section System.
Context {R : Type} `{RedisLaws R} (key : string).

(** [waiting]: tokens drawn by an [AcquireConversationLock] that is still looping.
    [held]: tokens of the calls that returned a closure not yet run, with the expiry of
    the lock they took.  [used]: every token drawn. *)
Record sys := { srv : R; now : Z; used : gset string; waiting : gset string; held : gmap string Z }.

(** A client's [SetNX]: only an answer of "taken" leaves it in the loop. *)
Definition do_try (f : fault) (token : string) (ttl : Z) (s : sys) : sys :=
  match try_lock f (now s) key token ttl (srv s) with
  | (r, Ok true) =>
      {| srv := r; now := now s; used := used s; waiting := waiting s ∖ {[token]};
         held := <[token := now s + ttl_ms ttl]> (held s) |}
  | (r, Ok false) =>
      {| srv := r; now := now s; used := used s; waiting := waiting s; held := held s |}
  | (r, Err _) =>
      {| srv := r; now := now s; used := used s; waiting := waiting s ∖ {[token]}; held := held s |}
  end.

Definition do_unlock (f : fault) (token : string) (s : sys) : sys :=
  {| srv := (unlock f (now s) key token false (srv s)).1; now := now s; used := used s;
     waiting := waiting s; held := delete token (held s) |}.

Inductive step (s : sys) : sys -> Prop :=
| step_time d : 0 <= d ->
    step s {| srv := srv s; now := now s + d; used := used s; waiting := waiting s; held := held s |}
| step_draw token : token ∉ used s ->
    step s {| srv := srv s; now := now s; used := {[token]} ∪ used s;
              waiting := {[token]} ∪ waiting s; held := held s |}
| step_try f token ttl : token ∈ waiting s -> step s (do_try f token ttl s)
| step_give_up token : token ∈ waiting s ->
    step s {| srv := srv s; now := now s; used := used s; waiting := waiting s ∖ {[token]};
              held := held s |}
| step_unlock f token e : held s !! token = Some e -> step s (do_unlock f token s)
| step_other c : key_of c <> key ->
    step s {| srv := (exec (now s) c (srv s)).1; now := now s; used := used s;
              waiting := waiting s; held := held s |}.

Inductive reachable (r0 : R) (t0 : Z) : sys -> Prop :=
| reach_init : entry r0 t0 key = None ->
    reachable r0 t0 {| srv := r0; now := t0; used := ∅; waiting := ∅; held := ∅ |}
| reach_step s s' : reachable r0 t0 s -> step s s' -> reachable r0 t0 s'.

Record inv (s : sys) : Prop := {
  inv_held token e : held s !! token = Some e -> now s < e ->
    entry (srv s) (now s) key = Some (RStr token, Some e);
  inv_owner token : string_at (srv s) (now s) key = Some token ->
    token ∈ used s /\ token ∉ waiting s;
  inv_used token : token ∈ waiting s \/ is_Some (held s !! token) -> token ∈ used s;
  inv_apart token : token ∈ waiting s -> held s !! token = None
}.

Lemma inv_entry s s' :
  inv s -> now s' = now s -> entry (srv s') (now s') key = entry (srv s) (now s) key ->
  used s' = used s -> waiting s' ⊆ waiting s -> held s' = held s -> inv s'.
Proof.
  intros [I1 I2 I3 I4] Ht Hk Hu Hw Hh. split.
  - intros token e. rewrite Hh, Ht, <- Ht, Hk, Ht. apply I1.
  - intros token. unfold string_at. rewrite Hk. rewrite Hu. intros Hs.
    destruct (I2 token Hs). set_solver.
  - intros token. rewrite Hu, Hh. intros [?|?]; apply I3; [left; set_solver|by right].
  - intros token Hin. rewrite Hh. apply I4. set_solver.
Qed.

Lemma inv_try f token ttl s : token ∈ waiting s -> inv s -> inv (do_try f token ttl s).
Proof.
  intros Hin I. pose proof I as [I1 I2 I3 I4]. unfold do_try.
  destruct (try_lock_spec f (now s) key token ttl (srv s)) as (r' & b & -> & _ & He & Hb).
  assert (token ∈ used s) as Hus by auto.
  destruct b as [[|]|].
  - destruct Hb as [Hn Hk]. split; cbn.
    + intros tok e. destruct (decide (tok = token)) as [->|].
      * rewrite lookup_insert, decide_True by done. by intros [= <-].
      * rewrite lookup_insert_ne by done. intros Hh Hlt. specialize (I1 _ _ Hh Hlt). congruence.
    + intros tok. unfold string_at. rewrite Hk. intros [= <-]. set_solver.
    + intros tok. destruct (decide (tok = token)) as [->|]; [done|].
      rewrite lookup_insert_ne by done. set_solver.
    + intros tok. destruct (decide (tok = token)) as [->|]; [set_solver|].
      rewrite lookup_insert_ne by done. set_solver.
  - eapply (inv_entry s); cbn; try done. by destruct Hb.
  - destruct He as [He|[Hn Hk]]; [eapply (inv_entry s); cbn; try done; set_solver|].
    split; cbn.
    + intros tok e0 Hh Hlt. specialize (I1 _ _ Hh Hlt). congruence.
    + intros tok. unfold string_at. rewrite Hk. intros [= <-]. set_solver.
    + intros tok [[? _]%elem_of_difference|?]; apply I3; auto.
    + intros tok [? _]%elem_of_difference. by apply I4.
Qed.

Lemma inv_unlock f token s e : held s !! token = Some e -> inv s -> inv (do_unlock f token s).
Proof.
  intros Hh [I1 I2 I3 I4]. unfold do_unlock, unlock. cbn [fst].
  destruct (release_entry f (now s) key token (srv s)) as (r' & -> & _ & Hk & _).
  split; cbn.
  - intros tok e' [Hne Hh']%lookup_delete_Some Hlt. specialize (I1 _ _ Hh' Hlt).
    destruct Hk as [->|[Hs _]]; [done|]. unfold string_at in Hs. rewrite I1 in Hs. congruence.
  - intros tok. unfold string_at. destruct Hk as [->|[_ ->]]; [apply I2|done].
  - intros tok [?|[? [_ ?]%lookup_delete_Some]]; apply I3; [by left|right; eauto].
  - intros tok Hin. rewrite lookup_delete_None. auto.
Qed.

Lemma inv_step s s' : step s s' -> inv s -> inv s'.
Proof.
  intros [d Hd|token Hf|f token ttl Hin|token Hin|f token e Hh|c Hc] I; pose proof I as [I1 I2 I3 I4].
  - assert (forall k, entry (srv s) (now s + d) k = live (now s + d) (entry (srv s) (now s) k)) as Hl
      by (intros; apply entry_later; lia).
    split; cbn; try done.
    + intros tok e Hh Hlt. rewrite Hl, (I1 _ _ Hh) by lia. cbn.
      by rewrite (proj2 (Z.ltb_lt _ _) Hlt).
    + intros tok Hs. apply I2. revert Hs. unfold string_at. rewrite Hl.
      destruct (entry _ _ _) as [[[?|?] [?|]]|]; cbn; try done; by destruct (_ <? _).
  - split; cbn; [exact I1| | |].
    + intros tok Hs. destruct (I2 tok Hs). rewrite !elem_of_union, !elem_of_singleton.
      split; [by right|]. by intros [->|?].
    + intros tok Hin. rewrite elem_of_union, elem_of_singleton.
      destruct Hin as [[->%elem_of_singleton|?]%elem_of_union|?]; auto.
    + intros tok [->%elem_of_singleton|Hin]%elem_of_union; [|auto].
      destruct (held s !! token) eqn:E; [|done]. destruct Hf. apply I3. right. eauto.
  - by apply inv_try.
  - eapply (inv_entry s); cbn; try done. set_solver.
  - by eapply inv_unlock.
  - eapply (inv_entry s); cbn; try done.
    destruct (exec_cases (now s) c (srv s)) as (r' & -> & _ & Ho). by apply Ho.
Qed.

Lemma lock_reachable_inv r0 t0 s : reachable r0 t0 s -> inv s.
Proof.
  induction 1 as [He|s s' _ IH Hs]; [|by eapply inv_step].
  split; cbn; unfold string_at; rewrite ?He; try done.
  - intros token [?|[? [=]]]. set_solver.
Qed.

(** C18: mutual exclusion.  In every state the clients of a lock can reach (time passing,
    lost requests and lost replies, clients that give up, die or release late), at most
    one closure's lock has not expired; a late release never deletes another's lock, since
    whoever holds an unexpired lock is still what the server says. *)
Theorem lock_mutual_exclusion r0 t0 s :
  reachable r0 t0 s ->
  (forall tok1 tok2 e1 e2,
     held s !! tok1 = Some e1 -> held s !! tok2 = Some e2 -> now s < e1 -> now s < e2 -> tok1 = tok2) /\
  (forall tok e f tok', held s !! tok = Some e -> now s < e -> tok' <> tok ->
     entry (unlock f (now s) key tok' false (srv s)).1 (now s) key = Some (RStr tok, Some e)).
Proof.
  intros [I1 _ _ _]%lock_reachable_inv. split.
  - intros tok1 tok2 e1 e2 H1 H2 Hl1 Hl2.
    pose proof (I1 _ _ H1 Hl1). pose proof (I1 _ _ H2 Hl2). congruence.
  - intros tok e f tok' Hh Hl Hne. unfold unlock. cbn [fst].
    destruct (release_entry f (now s) key tok' (srv s)) as (r' & -> & _ & Hk & _).
    specialize (I1 _ _ Hh Hl). destruct Hk as [->|[Hs _]]; [done|].
    unfold string_at in Hs. rewrite I1 in Hs. congruence.
Qed.
End System.

(** Client a takes the lock for 1 s, stalls past the expiry; b takes it; a releases. *)
Definition late_release : sys :=
  let s0 := {| srv := Keyspace.empty; now := 0; used := ∅; waiting := ∅; held := ∅ |} in
  let draw tok s := {| srv := srv s; now := now s; used := {[tok]} ∪ used s;
                       waiting := {[tok]} ∪ waiting s; held := held s |} in
  let tick d s := {| srv := srv s; now := now s + d; used := used s; waiting := waiting s;
                     held := held s |} in
  do_try "k" NoFault "b" Second
    (tick 1500 (do_try "k" NoFault "b" Second (do_try "k" NoFault "a" Second (draw "b" (draw "a" s0))))).

Lemma lock_mutual_exclusion_witness :
  reachable "k" Keyspace.empty 0 late_release /\
  held late_release !! "a" = Some 1000 /\ held late_release !! "b" = Some 2500 /\
  entry (unlock NoFault (now late_release) "k" "a" false (srv late_release)).1 (now late_release) "k"
    = Some (RStr "b", Some 2500).
Proof.
  assert (reachable "k" Keyspace.empty 0 late_release) as Hr.
  { unfold late_release.
    eapply reach_step; [|apply step_try; vm_compute; reflexivity].
    eapply reach_step; [|apply step_time; lia].
    eapply reach_step; [|apply step_try; vm_compute; reflexivity].
    eapply reach_step; [|apply step_try; vm_compute; reflexivity].
    eapply reach_step; [|apply step_draw; cbn; set_solver].
    eapply reach_step; [|apply step_draw; cbn; set_solver].
    by apply reach_init. }
  split; [exact Hr|]. do 2 (split; [vm_compute; reflexivity|]).
  apply (proj2 (lock_mutual_exclusion "k" Keyspace.empty 0 _ Hr) "b" 2500 NoFault "a");
    vm_compute; congruence.
Defined.
End Locking.

(** ** Theorems *)

Section Theorems.
Context {R : Type} `{RedisLaws R}.
Implicit Types r : R.

(** A stored conversation is what [GetConversation] returns until its TTL has
    passed, and then there is none; a non-positive TTL is refused without a command; no
    other key changes. *)
Lemma conversation_expires t t' p n conv ttl r :
  t <= t' ->
  let '(r', err) := SetConversation NoFault t p n conv ttl r in
  if ttl <=? 0 then r' = r /\ is_Some err
  else err = None /\
    (forall k, k <> conversationKey p n -> entry r' t k = entry r t k) /\
    (GetConversation NoFault t' p n r').2 = Ok (if t' <? t + ttl_ms ttl then conv else "") /\
    (GetConversation NoFault t' p n (DeleteConversation NoFault t p n r').1).2 = Ok "".
Proof.
  intros Ht. unfold SetConversation, GetConversation, DeleteConversation, run, script_call.
  destruct (ttl <=? 0); [eauto|].
  redis_step r1 E1 Ek1 Eo1. cbn in *. split_and!; [done|done| |].
  - redis_step r2 E2 Ek2 Eo2. cbn in *. rewrite (entry_later r1 t t'), Ek1 by done. cbn.
    by destruct (t' <? _).
  - destruct (exec_cases t (DEL (conversationKey p n)) r1) as (r2 & -> & Ek2 & _). cbn in *.
    redis_step r3 E3 Ek3 Eo3. cbn in *.
    by rewrite (entry_later r2 t t'), Ek2 by done.
Qed.

Lemma lock_loop_result call wait others key token ttl fuel k r r' tok :
  lock_loop call wait others key token ttl fuel k r = Some (r', Ok tok) -> tok = token.
Proof.
  revert k r. induction fuel as [|fuel IH]; intros k r; [done|]. cbn.
  destruct (try_lock _ _ _ _ _ _) as [r1 [[|]|]]; [congruence| |done].
  destruct (wait k); [done|]. apply IH.
Qed.

(** C20: the lock of a dead holder is reclaimable.  A caller whose commands reach the
    server and whose context lives gets the lock by its first attempt after the expiry of
    the lock it found, if nobody else takes it meanwhile; and the lock it gets is its
    own token with the TTL asked for. *)
Theorem lock_reclaimed_after_ttl call wait others key token ttl r v e t0 K fuel :
  entry r t0 key = Some (v, Some e) -> t0 <= (call 0%nat).2 ->
  (forall i, (call i).2 <= (call (S i)).2) -> (forall i, (call i).1 = NoFault) ->
  (forall i, (i < K)%nat -> wait i = None) ->
  (forall i s t, entry (others i s) t key = entry s t key) ->
  e <= (call K).2 -> (K < fuel)%nat ->
  exists r' k, lock_loop call wait others key token ttl fuel 0 r = Some (r', Ok token) /\
    (k <= K)%nat /\ entry r' (call k).2 key = Some (RStr token, Some ((call k).2 + ttl_ms ttl)).
Proof.
  intros He Ht0 Hmono Hf Hw Ho HK Hfuel.
  assert (forall fuel k r t, entry r t key = Some (v, Some e) -> t <= (call k).2 -> (k <= K)%nat ->
    (K < k + fuel)%nat ->
    exists r' k', lock_loop call wait others key token ttl fuel k r = Some (r', Ok token) /\
      (k' <= K)%nat /\
      entry r' (call k').2 key = Some (RStr token, Some ((call k').2 + ttl_ms ttl))) as Hgen.
  { clear r t0 He Ht0 Hfuel fuel. induction fuel as [|fuel IH]; intros k r t He Ht Hk Hfuel; [lia|].
    assert (entry r (call k).2 key = live (call k).2 (Some (v, Some e))) as Hl
      by (rewrite <- He; by apply entry_later).
    cbn [lock_loop]. rewrite Hf.
    destruct (try_lock_spec NoFault (call k).2 key token ttl r) as (r' & b & -> & _ & _ & Hb).
    destruct b as [[|]|]; [|destruct Hb as [Hs Hsame]|done].
    - destruct Hb. eauto.
    - rewrite Hl in Hs. cbn in Hs. destruct (Z.ltb_spec (call k).2 e) as [Hlt|]; [|by destruct Hs].
      assert (k <> K) by (intros ->; lia). rewrite Hw by lia.
      apply (IH _ _ (call k).2); [|done|lia|lia].
      rewrite Ho, Hsame, Hl. cbn. by rewrite (proj2 (Z.ltb_lt _ _) Hlt). }
  eapply Hgen; eauto; lia.
Qed.
End Theorems.

Lemma conversation_expires_witness :
  let r := (SetConversation (R := Keyspace.state) NoFault 0 "p" "n" "c9" (60 * Second) Keyspace.empty).1 in
  (GetConversation NoFault 59999 "p" "n" r).2 = Ok "c9" /\
  (GetConversation NoFault 60000 "p" "n" r).2 = Ok "".
Proof.
  intros r. split.
  - assert (0 <= 59999) as Ht by lia.
    exact (proj1 (proj2 (proj2 (conversation_expires (R := Keyspace.state)
      0 59999 "p" "n" "c9" (60 * Second) Keyspace.empty Ht)))).
  - assert (0 <= 60000) as Ht by lia.
    exact (proj1 (proj2 (proj2 (conversation_expires (R := Keyspace.state)
      0 60000 "p" "n" "c9" (60 * Second) Keyspace.empty Ht)))).
Defined.

(** A lock left at time 0 for 50 ms; attempts every 20 ms get it at the fourth, k = 3. *)
Lemma lock_reclaimed_after_ttl_witness :
  let r : Keyspace.state := <["k" := (RStr "dead", Some 50)]> (∅ : gmap string rentry) in
  let call (i : nat) := (NoFault, 20 * Z.of_nat i) in
  exists r' k, lock_loop call (fun _ => None) (fun _ s => s) "k" "mine" Second 10 0 r = Some (r', Ok "mine") /\
    (k <= 3)%nat /\
    entry r' (call k).2 "k" = Some (RStr "mine", Some ((call k).2 + ttl_ms Second)).
Proof.
  intros r call.
  apply (lock_reclaimed_after_ttl call (fun _ => None) (fun _ s => s) "k" "mine" Second r
           (RStr "dead") 50 0 3 10); unfold call; cbn; try lia; try done.
Defined.

(** Two players' conversations share a key when an identifier holds a colon. *)
Lemma conversationKey_ambiguous : conversationKey "a:b" "c" = conversationKey "a" "b:c".
Proof. reflexivity. Qed.
