(* ===== verification/GoTime.v ===== *)
(** * The parts of Go's [time] package the limiter uses

    [ParseDuration], and the UTC calendar: [civil] is [Time.Date] on the number of days
    since 1970-01-01 and [Date_days] the day [time.Date] builds, with its normalisation of
    the day of the month.  [civil_roundtrip] says they are inverse. *)

From Stdlib Require Import SpecFloat.
From S2P Require Import Prelude GoNum GoStrings GoErr.

(** ** ParseDuration *)

Definition is_digit (b : Z) : bool := (48 <=? b) && (b <=? 57).

(** [leadingInt]: [None] on overflow. *)
Fixpoint leadingInt (s : list Z) (x : Z) : option (Z * list Z) :=
  match s with
  | c :: s' =>
      if is_digit c then
        if 2 ^ 63 / 10 <? x then None
        else
          let x := x * 10 + (c - 48) in
          if 2 ^ 63 <? x then None else leadingInt s' x
      else Some (x, s)
  | [] => Some (x, s)
  end.

(** [leadingFraction]: digits past the precision are skipped; [scale] is 10 to the number
    of digits kept. *)
Fixpoint leadingFraction (s : list Z) (x scale : Z) (overflow : bool) : Z * Z * list Z :=
  match s with
  | c :: s' =>
      if is_digit c then
        if overflow || ((2 ^ 63 - 1) / 10 <? x) then leadingFraction s' x scale true
        else
          let y := x * 10 + (c - 48) in
          if 2 ^ 63 <? y then leadingFraction s' x scale true
          else leadingFraction s' y (scale * 10) false
      else (x, scale, s)
  | [] => (x, scale, s)
  end.

Fixpoint take_unit (s : list Z) : list Z * list Z :=
  match s with
  | c :: s' =>
      if (c =? 46) || is_digit c then ([], s)
      else let '(u, rest) := take_unit s' in (c :: u, rest)
  | [] => ([], [])
  end.

Definition unit_of (u : string) : option Z :=
  if bool_decide (u = "ns") then Some 1
  else if bool_decide (u = "us") then Some Microsecond
  else if bool_decide (bytes u = [194; 181; 115]) then Some Microsecond
  else if bool_decide (bytes u = [206; 188; 115]) then Some Microsecond
  else if bool_decide (u = "ms") then Some Millisecond
  else if bool_decide (u = "s") then Some Second
  else if bool_decide (u = "m") then Some Minute
  else if bool_decide (u = "h") then Some Hour
  else None.

(** [uint64(float64(f) * (float64(unit) / scale))] *)
Definition float64_of (z : Z) : spec_float := binary_normalize 53 1024 z 0 false.
Definition float64_to_int (x : spec_float) : Z :=
  match x with
  | S754_finite s m e =>
      let z := if 0 <=? e then Z.pos m * 2 ^ e else Z.pos m / 2 ^ (- e) in
      if s then - z else z
  | _ => 0
  end.
Definition fraction_ns (f unit scale : Z) : Z :=
  float64_to_int (SFmul 53 1024 (float64_of f) (SFdiv 53 1024 (float64_of unit) (float64_of scale))).

Definition dot_or_digit (s : list Z) : bool :=
  match s with c :: _ => (c =? 46) || is_digit c | [] => false end.

(** One number with its unit: its nanoseconds and what follows. *)
Definition duration_term (s : list Z) : option (Z * list Z) :=
  if negb (dot_or_digit s) then None
  else
    match leadingInt s 0 with
    | None => None
    | Some (v, s1) =>
        let pre := negb (length s1 =? length s)%nat in
        let '(f, scale, s2, post) :=
          match s1 with
          | 46 :: s1' =>
              let '(f, scale, s2) := leadingFraction s1' 0 1 false in
              (f, scale, s2, negb (length s2 =? length s1')%nat)
          | _ => (0, 1, s1, false)
          end in
        if negb pre && negb post then None
        else
          let '(u, s3) := take_unit s2 in
          if bool_decide (u = []) then None
          else
            match unit_of (of_bytes u) with
            | None => None
            | Some unit =>
                if 2 ^ 63 / unit <? v then None
                else
                  let v := v * unit in
                  let v := if 0 <? f then v + fraction_ns f unit scale else v in
                  if 2 ^ 63 <? v then None else Some (v, s3)
            end
    end.

Fixpoint duration_terms (fuel : nat) (s : list Z) (d : Z) : option Z :=
  match s, fuel with
  | [], _ => Some d
  | _, O => None
  | _, S fuel =>
      match duration_term s with
      | None => None
      | Some (v, s) => if 2 ^ 63 <? d + v then None else duration_terms fuel s (d + v)
      end
  end.

(** Every term consumes a byte, so the length of the string is fuel enough. *)
Definition ParseDuration (s : string) : res error Z :=
  let l := bytes s in
  let '(neg, l) := match l with
                   | c :: l' => if (c =? 45) || (c =? 43) then (c =? 45, l') else (false, l)
                   | [] => (false, l)
                   end in
  if bool_decide (l = [48]) then Ok 0
  else if bool_decide (l = []) then Err (EText ("time: invalid duration " +:+ s))
  else
    match duration_terms (length l) l 0 with
    | None => Err (EText ("time: invalid duration " +:+ s))
    | Some d =>
        if neg then Ok (- d)
        else if 2 ^ 63 - 1 <? d then Err (EText ("time: invalid duration " +:+ s))
        else Ok d
    end.

(** ** The calendar *)

Definition day_ns : Z := 24 * Hour.

(** Days since 1970-01-01 (UTC). *)
Definition day_of (t : Z) : Z := t / day_ns.

(** Days from 0001-01-01 to 1970-01-01. *)
Definition unix_epoch_days : Z := 719162.

Definition isLeap (year : Z) : bool :=
  (year mod 4 =? 0) && (negb (year mod 100 =? 0) || (year mod 400 =? 0)).

Definition daysBefore (month : Z) : Z :=
  nth (Z.to_nat month) [0; 31; 59; 90; 120; 151; 181; 212; 243; 273; 304; 334; 365] 0.

(** The year and the day of the year, from the days since 0001-01-01: 400-year, 100-year,
    4-year and 1-year cycles, the last of each a day longer. *)
Definition year_yday (d0 : Z) : Z * Z :=
  let n400 := d0 / 146097 in
  let d1 := d0 - 146097 * n400 in
  let n100 := d1 / 36524 in
  let n100 := n100 - n100 / 4 in
  let d2 := d1 - 36524 * n100 in
  let n4 := d2 / 1461 in
  let d3 := d2 - 1461 * n4 in
  let n1 := d3 / 365 in
  let n1 := n1 - n1 / 4 in
  (400 * n400 + 100 * n100 + 4 * n4 + n1 + 1, d3 - 365 * n1).

(** Month (1-12) and day of the month from the day of the year. *)
Definition month_day (leap : bool) (yday : Z) : Z * Z :=
  if leap && (yday =? 59) then (2, 29)
  else
    let day := if leap && (59 <? yday) then yday - 1 else yday in
    let month := day / 31 in
    let next := daysBefore (month + 1) in
    if next <=? day then (month + 2, day - next + 1)
    else (month + 1, day - daysBefore month + 1).

Definition civil (day : Z) : Z * Z * Z :=
  let '(year, yday) := year_yday (day + unix_epoch_days) in
  let '(m, d) := month_day (isLeap year) yday in (year, m, d).

(** [daysSinceEpoch] for January 1st of a year. *)
Definition year_days (year : Z) : Z :=
  let y := year - 1 in
  let n400 := y / 400 in
  let y1 := y - 400 * n400 in
  let n100 := y1 / 100 in
  let y2 := y1 - 100 * n100 in
  let n4 := y2 / 4 in
  146097 * n400 + 36524 * n100 + 1461 * n4 + 365 * (y2 - 4 * n4).

(** The day [time.Date(year, month, day, 0, 0, 0, 0, time.UTC)] starts; [day] may exceed
    the month's length. *)
Definition Date_days (year month day : Z) : Z :=
  year_days year + daysBefore (month - 1) +
  (if isLeap year && (3 <=? month) then 1 else 0) + (day - 1) - unix_epoch_days.

Definition pad (width : nat) (s : string) : string :=
  of_bytes (replicate (width - length (bytes s)) 48) +:+ s.

(** [now.UTC().Format("20060102")] *)
Definition format_date (t : Z) : string :=
  let '(y, m, d) := civil (day_of t) in
  pad 4 (format_int y) +:+ pad 2 (format_int m) +:+ pad 2 (format_int d).

(** ** Lemmas *)

Lemma year_yday_days d : let '(y, yd) := year_yday d in
  year_days y + yd = d /\ 0 <= yd < 365 + (if isLeap y then 1 else 0).
Proof.
  unfold year_yday.
  set (n400 := d / 146097). set (d1 := d - 146097 * n400).
  assert (0 <= d1 < 146097) by (unfold d1, n400; lia). assert (d = d1 + 146097 * n400) as Hd by lia.
  clearbody d1 n400. subst d.
  set (q100 := d1 / 36524). set (n100 := q100 - q100 / 4). set (d2 := d1 - 36524 * n100).
  assert (0 <= n100 <= 3 /\ 0 <= d2 <= 36524 /\ (d2 = 36524 -> n100 = 3)) as (? & ? & ?)
    by (unfold d2, n100, q100; lia).
  assert (d1 = d2 + 36524 * n100) as Hd by lia. clearbody d2 n100. clear q100. subst d1.
  set (n4 := d2 / 1461). set (d3 := d2 - 1461 * n4).
  assert (0 <= n4 <= 24 /\ 0 <= d3 < 1461 /\ (n4 = 24 -> d3 = 1460 -> n100 = 3)) as (? & ? & ?)
    by (unfold d3, n4; lia).
  assert (d2 = d3 + 1461 * n4) as Hd by lia. clearbody d3 n4. subst d2.
  set (q1 := d3 / 365). set (n1 := q1 - q1 / 4). set (d4 := d3 - 365 * n1).
  assert (0 <= n1 <= 3 /\ 0 <= d4 <= 365 /\ (d4 = 365 -> n1 = 3)) as (? & ? & ?)
    by (unfold d4, n1, q1; lia).
  assert (d3 = d4 + 365 * n1) as Hd by lia. clearbody d4 n1. clear q1. subst d3.
  split.
  - unfold year_days.
    replace (400 * n400 + 100 * n100 + 4 * n4 + n1 + 1 - 1) with (100 * n100 + 4 * n4 + n1 + n400 * 400) by lia.
    replace ((100 * n100 + 4 * n4 + n1 + n400 * 400) / 400) with n400 by lia.
    replace (100 * n100 + 4 * n4 + n1 + n400 * 400 - 400 * n400) with (4 * n4 + n1 + n100 * 100) by lia.
    replace ((4 * n4 + n1 + n100 * 100) / 100) with n100 by lia.
    replace (4 * n4 + n1 + n100 * 100 - 100 * n100) with (n1 + n4 * 4) by lia.
    replace ((n1 + n4 * 4) / 4) with n4 by lia. lia.
  - destruct (Z.eq_dec d4 365) as [E|]; [|case_match; lia].
    assert (n1 = 3) as -> by auto. subst d4.
    assert (n4 = 24 -> n100 = 3) as Hc by lia.
    assert (isLeap (400 * n400 + 100 * n100 + 4 * n4 + 3 + 1) = true) as ->; [|lia].
    unfold isLeap. apply andb_true_iff. split; [apply Z.eqb_eq; lia|].
    apply orb_true_iff. destruct (Z.eq_dec n4 24) as [->|].
    + rewrite (Hc eq_refl). right. apply Z.eqb_eq. lia.
    + left. apply negb_true_iff, Z.eqb_neq. lia.
Qed.

(** Month and day of every day of the year, the leap years' included. *)
Lemma month_day_yday (leap : bool) yd : 0 <= yd < 365 + (if leap then 1 else 0) ->
  let '(m, d) := month_day leap yd in
  daysBefore (m - 1) + (if leap && (3 <=? m) then 1 else 0) + (d - 1) = yd.
Proof.
  assert (forallb (fun n => let yd := Z.of_nat n in
    let '(m, d) := month_day leap yd in
    daysBefore (m - 1) + (if leap && (3 <=? m) then 1 else 0) + (d - 1) =? yd)
    (seq 0 (if leap then 366 else 365)) = true) as Hall by (destruct leap; vm_compute; reflexivity).
  intros Hyd. rewrite forallb_forall in Hall. specialize (Hall (Z.to_nat yd)).
  rewrite Z2Nat.id in Hall by lia. cbv zeta in Hall.
  destruct (month_day leap yd) as [m d]. apply Z.eqb_eq, Hall, in_seq. destruct leap; lia.
Qed.

(** [time.Date] rebuilds the day [Date] took apart, and the day after it. *)
Lemma civil_roundtrip day k :
  let '(y, m, d) := civil day in Date_days y m (d + k) = day + k.
Proof.
  unfold civil, Date_days. pose proof (year_yday_days (day + unix_epoch_days)) as Hy.
  destruct (year_yday _) as [y yd]. destruct Hy as [Hy Hr].
  pose proof (month_day_yday (isLeap y) yd Hr) as Hm.
  destruct (month_day _ _) as [m d]. lia.
Qed.
