(* ===== verification/GoDecimal.v ===== *)
(** * Decimal numbers

    [format_int] writes digits that [parse_int64] reads back, and no other characters: the
    facts behind the token budget (a counter kept as a string) and behind the uniqueness
    of the members and lease tokens built with colons. *)

From stdpp Require Import pretty.
From S2P Require Import Prelude GoNum GoStrings.

Definition digit_char (a : Ascii.ascii) : Prop := 48 <= byte_of_ascii a <= 57.

Lemma pretty_N_char_value x : (x < 10)%N -> byte_of_ascii (pretty_N_char x) = 48 + Z.of_N x.
Proof.
  intros Hx. assert (x = 0 \/ x = 1 \/ x = 2 \/ x = 3 \/ x = 4 \/ x = 5 \/ x = 6 \/ x = 7 \/
    x = 8 \/ x = 9)%N as Hc by lia. by repeat destruct Hc as [->|Hc]; try subst x.
Qed.

(** The loop prepends the digits of [x], the first of them not a sign. *)
Lemma pretty_N_go_digits x s : exists ds,
  String.list_ascii_of_string (pretty_N_go x s) = ds ++ String.list_ascii_of_string s /\
  Forall digit_char ds /\ (x <> 0%N -> ds <> []) /\
  forall l, digits_value (ds ++ l) 0 = digits_value l (Z.of_N x).
Proof.
  revert s. induction (N.lt_wf_0 x) as [x _ IH]; intros s.
  destruct (decide (x = 0%N)) as [->|Hx].
  { exists []. rewrite pretty_N_go_0. split_and!; [done|constructor|done|done]. }
  rewrite pretty_N_go_step by lia.
  destruct (IH (x / 10)%N ltac:(apply N.div_lt; lia) (String (pretty_N_char (x mod 10)) s))
    as (ds & Hds & Hdig & _ & Hval).
  assert ((x mod 10 < 10)%N) as Hm by (apply N.mod_lt; lia).
  pose proof (pretty_N_char_value _ Hm) as Hc.
  assert (0 <= Z.of_N (x mod 10) < 10) as Hm'
    by (split; [apply N2Z.is_nonneg|apply (N2Z.inj_lt _ 10) in Hm; exact Hm]).
  exists (ds ++ [pretty_N_char (x mod 10)]). split_and!.
  - rewrite Hds. by rewrite <- app_assoc.
  - apply Forall_app_2; [done|]. apply Forall_singleton. unfold digit_char. rewrite Hc. lia.
  - intros _ Hnil. by apply app_nil in Hnil as [_ Hnil].
  - intros l. rewrite <- app_assoc. cbn [app]. rewrite Hval. cbn [digits_value]. rewrite Hc.
    replace (48 <=? 48 + Z.of_N (x mod 10)) with true by (symmetry; apply Z.leb_le; lia).
    replace (48 + Z.of_N (x mod 10) <=? 57) with true by (symmetry; apply Z.leb_le; lia).
    cbn [andb]. f_equal. rewrite N2Z.inj_mod, N2Z.inj_div. change (Z.of_N 10) with 10.
    pose proof (Z.div_mod (Z.of_N x) 10). lia.
Qed.

(** The characters of an unsigned number. *)
Lemma pretty_N_digits n : exists d ds,
  String.list_ascii_of_string (pretty n) = d :: ds /\ Forall digit_char (d :: ds) /\
  digits_value (d :: ds) 0 = Some (Z.of_N n).
Proof.
  unfold pretty, pretty_N. case_decide as Hn.
  { subst n. eexists _, []. split_and!; [reflexivity| |reflexivity].
    apply Forall_singleton. unfold digit_char. vm_compute. split; congruence. }
  destruct (pretty_N_go_digits n "") as (ds & Hds & Hdig & Hne & Hval).
  rewrite app_nil_r in Hds. destruct ds as [|d ds]; [by destruct (Hne Hn)|].
  exists d, ds. split_and!; [done|done|]. specialize (Hval []). by rewrite app_nil_r in Hval.
Qed.

Lemma parse_digits_pretty n : parse_digits (String.list_ascii_of_string (pretty n)) = Some (Z.of_N n).
Proof. by destruct (pretty_N_digits n) as (d & ds & -> & _ & <-). Qed.

(** [Atoi] reads what [FormatInt] writes. *)
Lemma parse_format_int z : in_int64 z -> parse_int64 (format_int z) = Some z.
Proof.
  intros Hz. assert ((min_int64 <=? z) && (z <=? max_int64) = true) as Hr
    by (unfold in_int64 in Hz; apply andb_true_iff; split; apply Z.leb_le; lia).
  assert (forall n, parse_int64 (pretty (N.pos n)) = if (min_int64 <=? Z.pos n) && (Z.pos n <=? max_int64)
                                                     then Some (Z.pos n) else None) as Hpos.
  { intros n. destruct (pretty_N_digits (N.pos n)) as (d & ds & Hs & Hdig & Hv).
    apply Forall_cons in Hdig as [Hd _]. unfold digit_char in Hd.
    unfold parse_int64. rewrite Hs.
    rewrite (proj2 (Z.eqb_neq _ 45)), (proj2 (Z.eqb_neq _ 43)) by lia.
    cbn [parse_digits]. by rewrite Hv. }
  unfold format_int. destruct z as [|p|p].
  - reflexivity.
  - change (pretty (Z.pos p)) with (pretty (N.pos p)). by rewrite Hpos, Hr.
  - change (pretty (Z.neg p)) with (String (Ascii.ascii_of_nat 45) (pretty (N.pos p))).
    unfold parse_int64. cbn [String.list_ascii_of_string].
    change (byte_of_ascii (Ascii.ascii_of_nat 45)) with 45. cbn [Z.eqb Pos.eqb].
    rewrite parse_digits_pretty. change (Z.opp <$> Some (Z.of_N (N.pos p))) with (Some (Z.neg p)).
    cbv iota beta. by rewrite Hr.
Qed.

(** Neither writes a colon. *)
Definition no_colon (s : string) : Prop := Forall (fun b => b <> 58) (bytes s).

Lemma pretty_no_colon (n : N) : no_colon (pretty n).
Proof.
  unfold no_colon, bytes. destruct (pretty_N_digits n) as (d & ds & -> & Hdig & _).
  apply Forall_fmap. eapply Forall_impl; [exact Hdig|]. intros a Ha. unfold digit_char, byte_of_ascii in Ha.
  cbn. lia.
Qed.

Lemma format_int_no_colon z : no_colon (format_int z).
Proof.
  unfold format_int. destruct z as [|p|p].
  - unfold no_colon. by repeat constructor.
  - apply pretty_no_colon.
  - change (pretty (Z.neg p)) with ("-" +:+ pretty (N.pos p)). unfold no_colon. rewrite bytes_app.
    apply Forall_app_2; [by repeat constructor|apply pretty_no_colon].
Qed.

(** A colon that ends a part without colons ends it in one way. *)
Lemma colon_split (a b s t : string) :
  no_colon a -> no_colon b -> a +:+ ":" +:+ s = b +:+ ":" +:+ t -> a = b /\ s = t.
Proof.
  intros Ha Hb E. apply (f_equal bytes) in E. rewrite !bytes_app in E.
  change (bytes ":") with [58] in E. cbn [app] in E. unfold no_colon in *.
  assert (bytes a = bytes b /\ bytes s = bytes t) as [? ?]; [|split; by apply bytes_inj].
  revert Ha Hb E. generalize (bytes b) as lb. generalize (bytes a) as la.
  induction la as [|x la IH]; intros [|y lb] Ha Hb E; cbn in E.
  - injection E as E. done.
  - injection E as <- _. by apply Forall_cons in Hb as [[] _].
  - injection E as -> _. by apply Forall_cons in Ha as [[] _].
  - injection E as -> E. apply Forall_cons in Ha as [_ Ha], Hb as [_ Hb].
    destruct (IH lb Ha Hb E) as [-> ->]. done.
Qed.
