(* ===== verification/StoreSpec.v ===== *)
(** * What the store promises: an expiring map and a lock per player and npc

    The abstract store has, for each player and npc, a conversation and a creation lock,
    each with the time it expires; the calls of all processes, with what became of each, are
    a history at non-decreasing times.  [store_refines_map]: whatever the history, the store
    on Redis answers as the abstract store does. *)

From S2P Require Import Prelude GoNum GoStrings GoErr GoDecimal Redis Store.

(** ** Operations *)

(** [TryLock] is one attempt of [AcquireConversationLock], [Unlock] the closure it returns;
    [Other] is a command of another component that shares the server. *)
Inductive op :=
| Get (player npc : string)
| Set_ (player npc conv : string) (ttl : Z)
| Delete (player npc : string)
| TryLock (player npc token : string) (ttl : Z)
| Unlock (player npc token : string)
| Other (c : command).

Inductive answer :=
| Value (a : res error string)
| Status (a : option error)
| Taken (a : res error bool)
| Silent.

(** ** The abstract store *)

Abbreviation expiring := (gmap (string * string) (string * Z)).

Record spec := { conversations : expiring; locks : expiring }.

Definition no_state : spec := {| conversations := ∅; locks := ∅ |}.

(** What is there at time [t]. *)
Definition current (t : Z) (x : option (string * Z)) : option string :=
  match x with
  | Some (v, e) => if t <? e then Some v else None
  | None => None
  end.

Definition refused_ttl : error := EText "store: set conversation: ttl must be positive".

(** The effect and the answer of an operation that reaches the server and back. *)
Definition meant (t : Z) (o : op) (s : spec) : spec * answer :=
  match o with
  | Get p n => (s, Value (Ok (default "" (current t (conversations s !! (p, n))))))
  | Set_ p n conv ttl =>
      if ttl <=? 0 then (s, Status (Some refused_ttl))
      else ({| conversations := <[(p, n) := (conv, t + ttl_ms ttl)]> (conversations s);
               locks := locks s |}, Status None)
  | Delete p n =>
      ({| conversations := delete (p, n) (conversations s); locks := locks s |}, Status None)
  | TryLock p n token ttl =>
      match current t (locks s !! (p, n)) with
      | Some _ => (s, Taken (Ok false))
      | None => ({| conversations := conversations s;
                    locks := <[(p, n) := (token, t + ttl_ms ttl)]> (locks s) |}, Taken (Ok true))
      end
  | Unlock p n token =>
      if bool_decide (current t (locks s !! (p, n)) = Some token)
      then ({| conversations := conversations s; locks := delete (p, n) (locks s) |}, Silent)
      else (s, Silent)
  | Other _ => (s, Silent)
  end.

(** The answer when the call fails with [e]. *)
Definition failed (o : op) (e : error) : answer :=
  match o with
  | Get _ _ => Value (if errors_is e RedisNil then Ok "" else Err (EWrap "store: get conversation" e))
  | Set_ _ _ _ ttl => Status (Some (if ttl <=? 0 then refused_ttl else EWrap "store: set conversation" e))
  | Delete _ _ => Status (Some (EWrap "store: delete conversation" e))
  | TryLock _ _ _ _ => Taken (Err e)
  | Unlock _ _ _ | Other _ => Silent
  end.

Definition spec_op (f : fault) (t : Z) (o : op) (s : spec) : spec * answer :=
  match f with
  | NoFault => meant t o s
  | LostRequest e => (s, failed o e)
  | LostReply e => ((meant t o s).1, failed o e)
  end.

(** ** Histories *)

Definition call : Type := fault * Z * op.

Fixpoint replay {S} (step : fault -> Z -> op -> S -> S * answer) (l : list call) (s : S) : list answer :=
  match l with
  | [] => []
  | (f, t, o) :: l => let '(s, a) := step f t o s in a :: replay step l s
  end.

(** Player ids without a colon keep the keys of two players apart ([conversationKey_ambiguous]). *)
Definition op_ok (o : op) : Prop :=
  match o with
  | Get p _ | Set_ p _ _ _ | Delete p _ | TryLock p _ _ _ | Unlock p _ _ => no_colon p
  | Other c => forall p n, key_of c <> conversationKey p n /\ key_of c <> lockKey p n
  end.

Fixpoint history (t0 : Z) (l : list call) : Prop :=
  match l with
  | [] => True
  | (f, t, o) :: l => t0 <= t /\ op_ok o /\ history t l
  end.

(** ** Keys *)

Lemma conversationKey_inj p n p' n' : no_colon p -> no_colon p' ->
  conversationKey p n = conversationKey p' n' -> (p, n) = (p', n').
Proof.
  intros Hp Hp' E. unfold conversationKey in E. apply (inj (String.append "conv:")) in E.
  by apply colon_split in E as [-> ->].
Qed.

Lemma lockKey_inj p n p' n' : no_colon p -> no_colon p' ->
  lockKey p n = lockKey p' n' -> (p, n) = (p', n').
Proof.
  intros Hp Hp' E. unfold lockKey in E. apply (inj (String.append "lock:conv:")) in E.
  by apply colon_split in E as [-> ->].
Qed.

Lemma key_kinds p n p' n' : conversationKey p n <> lockKey p' n'.
Proof. done. Qed.

(** ** The store *)

Section Refinement.
Context {R : Type} `{RedisLaws R}.
Implicit Types r : R.

Definition store_op (f : fault) (t : Z) (o : op) (r : R) : R * answer :=
  match o with
  | Get p n => let '(r, a) := GetConversation f t p n r in (r, Value a)
  | Set_ p n conv ttl => let '(r, a) := SetConversation f t p n conv ttl r in (r, Status a)
  | Delete p n => let '(r, a) := DeleteConversation f t p n r in (r, Status a)
  | TryLock p n token ttl => let '(r, a) := try_lock f t (lockKey p n) token ttl r in (r, Taken a)
  | Unlock p n token => ((unlock f t (lockKey p n) token false r).1, Silent)
  | Other c => ((exec t c r).1, Silent)
  end.

(** What a key holds for an abstract binding. *)
Definition binding (t : Z) (x : option (string * Z)) : option rentry :=
  live t ((fun ve => (RStr ve.1, Some ve.2)) <$> x).

Record sim (t : Z) (r : R) (s : spec) : Prop := {
  sim_conv p n : no_colon p -> entry r t (conversationKey p n) = binding t (conversations s !! (p, n));
  sim_lock p n : no_colon p -> entry r t (lockKey p n) = binding t (locks s !! (p, n))
}.

Lemma binding_current t x : binding t x =
  match current t x with Some v => (fun ve => (RStr v, Some ve.2)) <$> x | None => None end.
Proof. destruct x as [[v e]|]; [|done]. unfold binding. cbn. by destruct (t <? e). Qed.

Lemma binding_new t v ttl : binding t (Some (v, t + ttl_ms ttl)) = Some (RStr v, Some (t + ttl_ms ttl)).
Proof.
  unfold binding. cbn. rewrite (proj2 (Z.ltb_lt t (t + ttl_ms ttl))); [done|].
  unfold ttl_ms. lia.
Qed.

Lemma live_trans t t' x : t <= t' -> live t' (live t x) = live t' x.
Proof.
  intros Ht. destruct x as [[v [e|]]|]; try done. cbn.
  destruct (Z.ltb_spec t e); [done|]. cbn. by destruct (Z.ltb_spec t' e); [lia|].
Qed.

Lemma sim_later t t' r s : t <= t' -> sim t r s -> sim t' r s.
Proof.
  intros Ht [S1 S2]. split; intros p n Hp; rewrite (entry_later r t t') by done;
    [rewrite S1|rewrite S2]; try done; unfold binding; by rewrite live_trans.
Qed.

(** A change of one conversation, or of one lock, and nothing else. *)
Lemma sim_set_conv t r r' s p n x : no_colon p -> sim t r s ->
  entry r' t (conversationKey p n) = binding t x ->
  (forall k, k <> conversationKey p n -> entry r' t k = entry r t k) ->
  sim t r' {| conversations := partial_alter (fun _ => x) (p, n) (conversations s); locks := locks s |}.
Proof.
  intros Hp [S1 S2] Hk Ho. split; cbn; intros p' n' Hp'.
  - destruct (decide ((p, n) = (p', n'))) as [[= <- <-]|Hne].
    + by rewrite lookup_partial_alter_eq.
    + rewrite lookup_partial_alter_ne by done. rewrite Ho; [by apply S1|].
      intros E. apply Hne. symmetry. by apply conversationKey_inj in E.
  - rewrite Ho; [by apply S2|]. done.
Qed.

Lemma sim_set_lock t r r' s p n x : no_colon p -> sim t r s ->
  entry r' t (lockKey p n) = binding t x ->
  (forall k, k <> lockKey p n -> entry r' t k = entry r t k) ->
  sim t r' {| conversations := conversations s; locks := partial_alter (fun _ => x) (p, n) (locks s) |}.
Proof.
  intros Hp [S1 S2] Hk Ho. split; cbn; intros p' n' Hp'.
  - rewrite Ho; [by apply S1|]. done.
  - destruct (decide ((p, n) = (p', n'))) as [[= <- <-]|Hne].
    + by rewrite lookup_partial_alter_eq.
    + rewrite lookup_partial_alter_ne by done. rewrite Ho; [by apply S2|].
      intros E. apply Hne. symmetry. by apply lockKey_inj in E.
Qed.

(** Nothing observable changes. *)
Lemma sim_same t r r' s : sim t r s ->
  (forall p n, entry r' t (conversationKey p n) = entry r t (conversationKey p n) /\
               entry r' t (lockKey p n) = entry r t (lockKey p n)) -> sim t r' s.
Proof. intros [S1 S2] He. split; intros p n Hp; [rewrite (proj1 (He p n))|rewrite (proj2 (He p n))]; auto. Qed.

Lemma same_entries t r r' s : sim t r s -> (forall k, entry r' t k = entry r t k) -> sim t r' s.
Proof. intros Hs He. eapply sim_same; [exact Hs|]. by intros p n. Qed.

Lemma op_sim f t o r s : op_ok o -> sim t r s ->
  (store_op f t o r).2 = (spec_op f t o s).2 /\ sim t (store_op f t o r).1 (spec_op f t o s).1.
Proof.
  intros Ho Hs. destruct o as [p n|p n conv ttl|p n|p n token ttl|p n token|c]; cbn [op_ok store_op] in *.
  - (* Get *)
    pose proof (sim_conv _ _ _ Hs p n Ho) as Hk. rewrite binding_current in Hk.
    unfold GetConversation, run, script_call.
    destruct (exec_cases t (GET (conversationKey p n)) r) as (r1 & E1 & Ek & Eo). cbn in *.
    assert (sim t r1 s) as Hs1.
    { apply (same_entries t r); [done|]. intros k. destruct (decide (k = conversationKey p n)) as [->|]; [|by apply Eo].
      rewrite Ek. by destruct (entry r t _) as [[[?|?] ?]|]. }
    destruct f; cbn; rewrite ?E1; cbn; [|by destruct (errors_is _ _)|by destruct (errors_is _ _)].
    rewrite Hk. destruct (conversations s !! (p, n)) as [[v e]|]; cbn; [|by split].
    by destruct (t <? e).
  - (* Set *)
    unfold SetConversation. destruct (ttl <=? 0) eqn:Ett.
    { destruct f; cbn; by rewrite ?Ett. }
    unfold run, script_call.
    destruct (exec_cases t (SET (conversationKey p n) conv ttl) r) as (r1 & E1 & Ek & Eo). cbn in *.
    assert (sim t r1 {| conversations := <[(p, n) := (conv, t + ttl_ms ttl)]> (conversations s);
                        locks := locks s |}) as Hs1
      by (eapply sim_set_conv; [done|exact Hs|by rewrite binding_new|done]).
    destruct f; cbn; rewrite ?E1, ?Ett; by cbn.
  - (* Delete *)
    unfold DeleteConversation, run, script_call.
    destruct (exec_cases t (DEL (conversationKey p n)) r) as (r1 & E1 & Ek & Eo). cbn in *.
    assert (sim t r1 {| conversations := delete (p, n) (conversations s); locks := locks s |}) as Hs1
      by (eapply sim_set_conv; [done|exact Hs|done|done]).
    destruct f; cbn; rewrite ?E1; by cbn.
  - (* TryLock *)
    pose proof (sim_lock _ _ _ Hs p n Ho) as Hk. rewrite binding_current in Hk.
    unfold try_lock, run, script_call.
    destruct (exec_cases t (SETNX (lockKey p n) token ttl) r) as (r1 & E1 & Ek & Eo). cbn in *.
    assert (sim t r1 (meant t (TryLock p n token ttl) s).1 /\
      Taken (Ok (bool_decide (match entry r t (lockKey p n) with Some _ => RInt 0 | None => RInt 1 end = RInt 1)))
        = (meant t (TryLock p n token ttl) s).2) as [Hm1 Hm2].
    { assert (match entry r t (lockKey p n) with
              | Some _ => forall k, entry r1 t k = entry r t k | None => True end) as Hsame.
      { destruct (entry r t (lockKey p n)) eqn:E; [|done]. intros k.
        destruct (decide (k = lockKey p n)) as [->|]; [cbn in Ek; congruence|by apply Eo]. }
      cbn. destruct (locks s !! (p, n)) as [[v e]|]; cbn in *; [destruct (t <? e)|]; rewrite Hk in *; cbn in *.
      - split; [|done]. by apply (same_entries t r).
      - split; [|done]. eapply sim_set_lock; [done|exact Hs|by rewrite binding_new|done].
      - split; [|done]. eapply sim_set_lock; [done|exact Hs|by rewrite binding_new|done]. }
    destruct f; cbn [spec_op run fst snd]; rewrite ?E1; cbn [fst snd].
    + rewrite <- Hm2. by destruct (entry r t (lockKey p n)).
    + by split.
    + by split.
  - (* Unlock *)
    pose proof (sim_lock _ _ _ Hs p n Ho) as Hk. rewrite binding_current in Hk.
    unfold unlock. cbn [fst].
    destruct (release_entry NoFault t (lockKey p n) token r) as (r1 & E1 & Eo & Ek & Enf).
    assert (current t (locks s !! (p, n)) = string_at r t (lockKey p n)) as Hcur.
    { unfold string_at. rewrite Hk. destruct (locks s !! (p, n)) as [[v e]|]; cbn; [|done]. by destruct (t <? e). }
    assert (sim t r1 (meant t (Unlock p n token) s).1) as Hs1.
    { cbn. rewrite Hcur. case_bool_decide as Hb; cbn [fst].
      - eapply sim_set_lock; [done|exact Hs|by apply Enf|done].
      - apply (same_entries t r); [done|]. intros k.
        destruct (decide (k = lockKey p n)) as [->|]; [|by apply Eo]. by destruct Ek as [?|[? _]]. }
    assert ((meant t (Unlock p n token) s).2 = Silent) as Ha by (cbn; by case_bool_decide).
    destruct f; cbn [run fst snd spec_op failed] in *; rewrite ?E1; by split.
  - (* Other *)
    assert (sim t (exec t c r).1 s) as Hs1.
    { apply (sim_same t r); [done|]. intros p n. destruct (Ho p n).
      destruct (exec_cases t c r) as (r1 & -> & _ & Eo). split; apply Eo; congruence. }
    by destruct f.
Qed.

(** C19: the store refines the expiring map.  Take any history of calls, by any processes,
    at non-decreasing times, each with its fate (its request lost, its reply lost, or
    neither), for players whose ids hold no colon, mixed with the commands of the limiter on
    other keys: started on a server without conversations and locks, the store answers every
    call exactly as the abstract store does, where each player and npc have one conversation
    and one lock of their own, gone when their time is over. *)
Theorem store_refines_map l t0 r :
  (forall p n, entry r t0 (conversationKey p n) = None /\ entry r t0 (lockKey p n) = None) ->
  history t0 l -> replay store_op l r = replay spec_op l no_state.
Proof.
  intros Hr. assert (sim t0 r no_state) as Hs by (split; intros p n _; by destruct (Hr p n)).
  clear Hr. revert t0 r Hs. generalize no_state.
  induction l as [|[[f t] o] l IH]; intros s t0 r Hs; [done|]. cbn [history replay].
  intros (Ht & Ho & Hl). apply (sim_later t0 t) in Hs; [|done].
  destruct (op_sim f t o r s Ho Hs) as [Ha Hs'].
  destruct (store_op f t o r) as [r' a], (spec_op f t o s) as [s' a']. cbn [fst snd] in *. subst a'.
  f_equal. by apply (IH s' t).
Qed.
End Refinement.

(** A lock whose holder dies, taken over after its time; the conversation stored under it;
    a reply lost; another player's conversation untouched; expiry. *)
Definition demo_history : list call :=
  [(NoFault, 0, TryLock "ann" "smith" "t1" Second);
   (NoFault, 500, TryLock "ann" "smith" "t2" Second);
   (NoFault, 1000, TryLock "ann" "smith" "t2" Second);
   (LostReply (EText "EOF"), 1100, Set_ "ann" "smith" "c1" Minute);
   (NoFault, 1200, Unlock "ann" "smith" "t1");
   (NoFault, 1300, Other (INCRBY "budget:ann" 12));
   (NoFault, 1400, TryLock "ann" "smith" "t3" Second);
   (NoFault, 1500, Get "ann" "smith");
   (NoFault, 1600, Get "bob" "smith");
   (NoFault, 61100, Get "ann" "smith")].

Lemma store_refines_map_witness :
  replay (store_op (R := Keyspace.state)) demo_history Keyspace.empty =
    [Taken (Ok true); Taken (Ok false); Taken (Ok true);
     Status (Some (EWrap "store: set conversation" (EText "EOF"))); Silent; Silent; Taken (Ok false);
     Value (Ok "c1"); Value (Ok ""); Value (Ok "")].
Proof.
  rewrite (store_refines_map demo_history 0 Keyspace.empty);
    [vm_compute; reflexivity|done|].
  cbn. split_and!; try lia; try done; by repeat constructor.
Defined.

