(* ===== verification/Limiter.v ===== *)
(** * internal/limiter/limiter.go: rate limit, token budget, in-flight slots

    The Lua scripts, and [RedisLimiter] with its methods as functions of the server, the
    limiter and what the call meets ([call_env]: the process clock it reads, the fate of
    its Redis call and the server's time).  [Window] and [Slots] are the systems of all the
    gateway processes that share a key, for the sliding window and the in-flight bound. *)

From stdpp Require Import pretty.
From S2P Require Import Prelude GoNum GoStrings GoTime GoDecimal GoErr Circuit Redis Store.

(** ** Configuration *)

Record rateLimit := { limit : Z; window : Z }.

Definition defaultInflightLease : Z := 2 * Minute.

Definition parseRate (raw0 : string) : res error rateLimit :=
  let raw := TrimSpace raw0 in
  let raw := if bool_decide (raw = "") then "1r/2s" else raw in
  let '(countRaw, windowRaw, ok) := Cut raw "r/" in
  if negb ok then Err (EText "limiter: RATE_PER_PLAYER must look like 1r/2s")
  else
    match parse_int64 (TrimSpace countRaw) with
    | None => Err (EWrap "limiter: rate count must be positive" (EText "strconv.ParseInt"))
    | Some count =>
        if count <=? 0 then Err (EText "limiter: rate count must be positive")
        else
          match ParseDuration (TrimSpace windowRaw) with
          | Err err => Err (EWrap "limiter: rate window must be a positive duration" err)
          | Ok w =>
              if w <=? 0 then Err (EText "limiter: rate window must be a positive duration")
              else Ok {| limit := count; window := w |}
          end
    end.

Record Config := {
  RatePerPlayer : string;
  TokenBudgetDaily : Z;
  MaxInflightUpstream : Z;
  InflightLease : Z;
  CircuitCfg : CircuitConfig
}.

(** The limiter of one process; the last two fields are the telemetry it publishes. *)
Record RedisLimiter := {
  rate : rateLimit;
  tokenBudget : Z;
  maxInflight : Z;
  inflightTTL : Z;
  circuit : circuitBreaker;
  instanceID : string;
  memberSerial : Z;
  InflightUpstream : Z;
  RateLimitedTotal : Z
}.

Definition set_circuit (c : circuitBreaker) (l : RedisLimiter) : RedisLimiter := {|
  rate := rate l; tokenBudget := tokenBudget l; maxInflight := maxInflight l;
  inflightTTL := inflightTTL l; circuit := c; instanceID := instanceID l;
  memberSerial := memberSerial l; InflightUpstream := InflightUpstream l;
  RateLimitedTotal := RateLimitedTotal l |}.
Definition set_gauge (n : Z) (l : RedisLimiter) : RedisLimiter := {|
  rate := rate l; tokenBudget := tokenBudget l; maxInflight := maxInflight l;
  inflightTTL := inflightTTL l; circuit := circuit l; instanceID := instanceID l;
  memberSerial := memberSerial l; InflightUpstream := n;
  RateLimitedTotal := RateLimitedTotal l |}.
Definition inc_limited (l : RedisLimiter) : RedisLimiter := {|
  rate := rate l; tokenBudget := tokenBudget l; maxInflight := maxInflight l;
  inflightTTL := inflightTTL l; circuit := circuit l; instanceID := instanceID l;
  memberSerial := memberSerial l; InflightUpstream := InflightUpstream l;
  RateLimitedTotal := RateLimitedTotal l + 1 |}.
Definition next_serial (l : RedisLimiter) : RedisLimiter := {|
  rate := rate l; tokenBudget := tokenBudget l; maxInflight := maxInflight l;
  inflightTTL := inflightTTL l; circuit := circuit l; instanceID := instanceID l;
  memberSerial := wrap_uint64 (memberSerial l + 1); InflightUpstream := InflightUpstream l;
  RateLimitedTotal := RateLimitedTotal l |}.

(** [strconv.FormatInt(n, 36)] for a non-negative [n]. *)
Definition digit36 (n : Z) : Z := if n <? 10 then 48 + n else 87 + n.
Fixpoint digits36 (fuel : nat) (n : Z) (acc : list Z) : list Z :=
  match fuel with
  | O => acc
  | S fuel =>
      let acc := digit36 (n mod 36) :: acc in
      if n <? 36 then acc else digits36 fuel (n / 36) acc
  end.

(** [newInstanceID], given the 8 random bytes, or a failure to draw them and the clock. *)
Definition newInstanceID (rand_read : res error (list Z)) (nano : Z) : string :=
  match rand_read with
  | Ok b => hex_encode b
  | Err _ => of_bytes (digits36 13 nano [])
  end.

Definition New (has_client : bool) (cfg : Config) (rand_read : res error (list Z)) (nano : Z) :
    res error RedisLimiter :=
  if negb has_client then Err (EText "limiter: redis client is required")
  else
    try rate := parseRate (RatePerPlayer cfg) in
    if TokenBudgetDaily cfg <=? 0 then Err (EText "limiter: token budget must be positive")
    else if MaxInflightUpstream cfg <=? 0
    then Err (EText "limiter: max inflight upstream must be positive")
    else
      let lease := if InflightLease cfg =? 0 then defaultInflightLease else InflightLease cfg in
      if lease <=? 0 then Err (EText "limiter: inflight lease must be positive")
      else
        try circuit := newCircuitBreaker (CircuitCfg cfg) in
        Ok {| rate := rate; tokenBudget := TokenBudgetDaily cfg;
              maxInflight := MaxInflightUpstream cfg; inflightTTL := lease; circuit := circuit;
              instanceID := newInstanceID rand_read nano; memberSerial := 0;
              InflightUpstream := 0; RateLimitedTotal := 0 |}.

(** ** Keys *)

Definition rateKey (playerID : string) : string := "rate:" +:+ playerID.
Definition budgetKey (playerID : string) (now : Z) : string :=
  "budget:" +:+ playerID +:+ ":" +:+ format_date now.
Definition inflightKey : string := "inflight:upstream".

Definition durationUntilNextUTCDay (now : Z) : Z :=
  let '(y, m, d) := civil (day_of now) in
  let next := Date_days y m (d + 1) * day_ns in
  let d := time_sub next now in
  if d <=? 0 then 24 * Hour else d.

(** A sliding-window member or a lease token. *)
Definition member_of (id : string) (nowMs serial : Z) : string :=
  id +:+ ":" +:+ format_int nowMs +:+ ":" +:+ format_uint (Z.to_N serial).

(** At least one millisecond. *)
Definition at_least_1ms (d : Z) : Z := if duration_ms d <? 1 then 1 else duration_ms d.

(** ** Scripts *)

Section Limiter.
Context {R : Type} `{Redis R}.

Definition int_reply (r : reply) : Z := match r with RInt n => n | _ => 0 end.

Definition rateLimitScript (key : string) (nowMs cutoff limit : Z) (member : string) (windowMs : Z) :
    script R Z :=
  do _ := script_call (ZREMRANGEBYSCORE key 0 cutoff) in
  do count := script_call (ZCARD key) in
  if limit <=? int_reply count then script_ret 0
  else
    do _ := script_call (ZADD key nowMs member) in
    do _ := script_call (PEXPIRE key windowMs) in
    script_ret 1.

Definition acquireInflightScript (key : string) (nowMs max score : Z) (token : string) (leaseMs : Z) :
    script R Z :=
  do _ := script_call (ZREMRANGEBYSCORE key 0 nowMs) in
  do count := script_call (ZCARD key) in
  if max <=? int_reply count then script_ret (-1)
  else
    do _ := script_call (ZADD key score token) in
    do _ := script_call (PEXPIRE key leaseMs) in
    script_ret (int_reply count + 1).

Definition releaseInflightScript (key : string) (nowMs : Z) : script R Z :=
  do _ := script_call (ZREMRANGEBYSCORE key 0 nowMs) in
  do oldest := script_call (ZFIRST key) in
  do _ := match oldest with
          | RBulk m => script_call (ZREM key m)
          | _ => script_ret RNil
          end in
  do count := script_call (ZCARD key) in
  if int_reply count <=? 0 then
    do _ := script_call (DEL key) in script_ret 0
  else script_ret (int_reply count).

Definition recordBudgetScript (key : string) (n ttlMs : Z) : script R Z :=
  do total := script_call (INCRBY key n) in
  do _ := script_call (PEXPIRE key ttlMs) in
  script_ret (int_reply total).

(** ** Methods *)

(** What one Redis call of a method meets. *)
Record call_env := { clock : Z; net : fault; server_time : Z }.

Definition run_call {A} (s : script R A) (c : call_env) (r : R) : R * res error A :=
  run s (net c) (server_time c) r.

Definition allowRate (c : call_env) (playerID : string) (r : R) (l0 : RedisLimiter) :
    R * RedisLimiter * option error :=
  let nowMs := unix_milli (clock c) in
  let windowMs := at_least_1ms (window (rate l0)) in
  let l := next_serial l0 in
  let member := member_of (instanceID l) nowMs (memberSerial l) in
  match run_call (rateLimitScript (rateKey playerID) nowMs (nowMs - windowMs) (limit (rate l))
                    member windowMs) c r with
  | (r, Err err) => (r, l, Some (EWrap "limiter: check rate window" err))
  | (r, Ok result) => (r, l, if result =? 0 then Some (ESentinel ErrRateLimited) else None)
  end.

Definition currentBudget (c : call_env) (playerID : string) (r : R) : R * res error Z :=
  match run_call (script_call (GET (budgetKey playerID (clock c)))) c r with
  | (r, Err err) =>
      if errors_is err RedisNil then (r, Ok 0)
      else (r, Err (EWrap "limiter: read token budget" err))
  | (r, Ok (RBulk value)) =>
      match parse_int64 value with
      | Some current => (r, Ok current)
      | None => (r, Err (EWrap ("limiter: parse token budget " +:+ value) (EText "strconv.Atoi")))
      end
  | (r, Ok _) => (r, Ok 0)
  end.

Definition checkBudget (c : call_env) (playerID : string) (estTokens : Z) (r : R) (l : RedisLimiter) :
    R * option error :=
  match currentBudget c playerID r with
  | (r, Err err) => (r, Some err)
  | (r, Ok current) =>
      (r, if tokenBudget l <? wrap_int64 (current + estTokens)
          then Some (ESentinel ErrBudgetExceeded) else None)
  end.

(** [ttl_at] is the second clock reading, for the TTL. *)
Definition recordTokens (c : call_env) (ttl_at : Z) (playerID : string) (usedTokens : Z) (r : R) :
    R * option error :=
  if usedTokens =? 0 then (r, None)
  else
    let ttlMs := at_least_1ms (durationUntilNextUTCDay ttl_at) in
    match run_call (recordBudgetScript (budgetKey playerID (clock c)) usedTokens ttlMs) c r with
    | (r, Err err) => (r, Some (EWrap "limiter: record token budget" err))
    | (r, Ok _) => (r, None)
    end.

Definition acquireInflight (c : call_env) (r : R) (l0 : RedisLimiter) : R * RedisLimiter * option error :=
  let nowMs := unix_milli (clock c) in
  let leaseMs := at_least_1ms (inflightTTL l0) in
  let l := next_serial l0 in
  let token := member_of (instanceID l) nowMs (memberSerial l) in
  match run_call (acquireInflightScript inflightKey nowMs (maxInflight l) (nowMs + leaseMs) token leaseMs)
          c r with
  | (r, Err err) => (r, l, Some (EWrap "limiter: acquire inflight slot" err))
  | (r, Ok result) =>
      if result <? 0 then (r, l, Some (ESentinel ErrInflightFull))
      else (r, set_gauge result l, None)
  end.

Definition releaseInflight (c : call_env) (r : R) (l : RedisLimiter) : R * RedisLimiter * option error :=
  match run_call (releaseInflightScript inflightKey (unix_milli (clock c))) c r with
  | (r, Err err) => (r, l, Some (EWrap "limiter: release inflight slot" err))
  | (r, Ok result) => (r, set_gauge result l, None)
  end.

(** What an [Allow] meets: the breaker's clock readings and the Redis calls. *)
Record allow_env := {
  ready_at : Z;
  budget_call : call_env;
  allow_at : Z * Z;
  acquire_call : call_env;
  rate_call : call_env;
  undo_call : call_env
}.

Definition Allow (e : allow_env) (playerID0 : string) (estTokens : Z) (r : R) (l : RedisLimiter) :
    R * RedisLimiter * (bool * option error) :=
  let playerID := TrimSpace playerID0 in
  if bool_decide (playerID = "") then (r, l, (false, Some (EText "limiter: player ID is required")))
  else if estTokens <? 0
  then (r, l, (false, Some (EText "limiter: estimated tokens cannot be negative")))
  else if negb (Circuit.ready (ready_at e) (circuit l))
  then (r, inc_limited l, (false, Some (ESentinel ErrCircuitOpen)))
  else
    match checkBudget (budget_call e) playerID estTokens r l with
    | (r, Some err) =>
        (r, if errors_is err ErrBudgetExceeded then inc_limited l else l, (false, Some err))
    | (r, None) =>
        let '(c, ok) := Circuit.allow (allow_at e).1 (allow_at e).2 (circuit l) in
        let l := set_circuit c l in
        if negb ok then (r, inc_limited l, (false, Some (ESentinel ErrCircuitOpen)))
        else
          match acquireInflight (acquire_call e) r l with
          | (r, l, Some err) =>
              let l := set_circuit (cancelProbe (circuit l)) l in
              (r, if errors_is err ErrInflightFull then inc_limited l else l, (false, Some err))
          | (r, l, None) =>
              match allowRate (rate_call e) playerID r l with
              | (r, l, Some err) =>
                  let '(r, l, _) := releaseInflight (undo_call e) r l in
                  let l := set_circuit (cancelProbe (circuit l)) l in
                  (r, if errors_is err ErrRateLimited then inc_limited l else l, (false, Some err))
              | (r, l, None) => (r, l, (true, None))
              end
          end
    end.

(** What a [Record] meets. *)
Record record_env := { release_call : call_env; record_at : Z; tokens_call : call_env; ttl_clock : Z }.

Definition Record_ (e : record_env) (playerID0 : string) (usedTokens : Z) (r : R) (l : RedisLimiter) :
    R * RedisLimiter * option error :=
  let playerID := TrimSpace playerID0 in
  if bool_decide (playerID = "") then (r, l, Some (EText "limiter: player ID is required"))
  else
    let '(r, l, releaseErr) := releaseInflight (release_call e) r l in
    let l := set_circuit (Circuit.record true (record_at e) (circuit l)) l in
    if usedTokens <? 0 then
      (r, l, match releaseErr with
             | Some err => Some err
             | None => Some (EText "limiter: used tokens cannot be negative")
             end)
    else
      let '(r, recordErr) := recordTokens (tokens_call e) (ttl_clock e) playerID usedTokens r in
      (r, l, match releaseErr with Some err => Some err | None => recordErr end).

Definition RecordFailure (e : record_env) (r : R) (l : RedisLimiter) : R * RedisLimiter * option error :=
  let '(r, l, releaseErr) := releaseInflight (release_call e) r l in
  (r, set_circuit (Circuit.record false (record_at e) (circuit l)) l, releaseErr).

Definition Release (e : record_env) (r : R) (l : RedisLimiter) : R * RedisLimiter * option error :=
  releaseInflight (release_call e) r (set_circuit (cancelProbe (circuit l)) l).
End Limiter.

(** ** Lemmas: sorted sets *)

(** The members with a score above [T]; what is left when scores from 0 to [t] go. *)
Definition count_gt (T : Z) (z : gmap string Z) : nat := size (filter (fun p : string * Z => T < p.2) z).
Definition above (T s : Z) : nat := if T <? s then 1%nat else 0%nat.
#[global] Arguments count_gt : simpl never.
Definition purge (t : Z) (z : gmap string Z) : gmap string Z := filter (fun p => ~ in_range 0 t p) z.
Definition scores (P : Z -> Prop) (z : gmap string Z) : Prop := forall m s, z !! m = Some s -> P s.

Lemma count_gt_insert T m s z :
  z !! m = None -> count_gt T (<[m := s]> z) = (above T s + count_gt T z)%nat.
Proof.
  intros Hm. unfold count_gt, above. destruct (Z.ltb_spec T s).
  - rewrite map_filter_insert_True by done. rewrite map_size_insert_None; [done|].
    apply map_lookup_filter_None. auto.
  - rewrite map_filter_insert_False by (cbn; lia). by rewrite delete_id.
Qed.

Lemma count_gt_delete T m s z :
  z !! m = Some s -> count_gt T z = (above T s + count_gt T (delete m z))%nat.
Proof.
  intros Hm. rewrite <- (insert_delete_id z m s Hm) at 1. apply count_gt_insert.
  apply lookup_delete_eq.
Qed.

Lemma count_gt_all T z : scores (fun s => T < s) z -> count_gt T z = size z.
Proof. intros Hz. unfold count_gt. rewrite map_filter_id; [done|]. intros m s Hm. by apply (Hz m). Qed.

Lemma count_gt_none T z : scores (fun s => s <= T) z -> count_gt T z = 0%nat.
Proof.
  intros Hz. unfold count_gt. apply map_size_empty_iff, map_empty. intros m.
  apply map_lookup_filter_None. right. intros s Hm. specialize (Hz m s Hm). cbn in *. lia.
Qed.

Lemma count_gt_le T z : (count_gt T z <= size z)%nat.
Proof. apply map_subseteq_size, map_filter_subseteq. Qed.

Lemma count_gt_mono T T' z : T <= T' -> (count_gt T' z <= count_gt T z)%nat.
Proof.
  intros Hle. apply map_subseteq_size, map_filter_subseteq_ext. intros m s _. cbn. lia.
Qed.

Lemma purge_scores P t z : scores P z -> scores P (purge t z).
Proof. intros Hz m s [Hm _]%map_lookup_filter_Some. by apply (Hz m). Qed.

Lemma purge_above t z : scores (fun s => 0 <= s) z -> scores (fun s => t < s) (purge t z).
Proof.
  intros Hz m s [Hm Hr]%map_lookup_filter_Some. specialize (Hz m s Hm). unfold in_range in Hr.
  cbn in *. lia.
Qed.

Lemma count_gt_purge T t z : t <= T -> count_gt T (purge t z) = count_gt T z.
Proof.
  intros Ht. unfold count_gt, purge. f_equal. apply map_eq. intros m.
  apply option_eq. intros s. rewrite !map_lookup_filter_Some. unfold in_range. cbn.
  split; [tauto|]. intros [? ?]. split_and!; auto. lia.
Qed.

Lemma size_purge t z : scores (fun s => 0 <= s) z -> size (purge t z) = count_gt t z.
Proof.
  intros Hz. rewrite <- (count_gt_purge t t) by lia. symmetry. by apply count_gt_all, purge_above.
Qed.

Lemma purge_lookup_None t z m : z !! m = None -> purge t z !! m = None.
Proof. intros Hm. apply map_lookup_filter_None. auto. Qed.

Lemma zfirst_fold z :
  match map_fold (fun m s acc => match acc with
                                 | None => Some (m, s)
                                 | Some (m', s') => if s <? s' then Some (m, s) else acc
                                 end) None z with
  | None => z = ∅
  | Some (m, s) => z !! m = Some s /\ scores (fun s' => s <= s') z
  end.
Proof.
  apply (map_fold_weak_ind (fun (acc : option (string * Z)) z => match acc with
    | None => z = ∅ | Some (m, s) => z !! m = Some s /\ scores (fun s' => s <= s') z end)); [done|].
  intros m s z' acc Hm IH. destruct acc as [[m' s']|].
  - destruct IH as [Hl Hmin]. assert (m <> m') by congruence.
    destruct (Z.ltb_spec s s').
    + rewrite lookup_insert_eq. split; [done|]. intros k v [[<- <-]|[_ Hk]]%lookup_insert_Some; [lia|].
      specialize (Hmin _ _ Hk). cbn in *. lia.
    + rewrite lookup_insert_ne by done. split; [done|].
      intros k v [[<- <-]|[_ Hk]]%lookup_insert_Some; [lia|]. by apply (Hmin k).
  - subst z'. rewrite lookup_insert_eq. split; [done|].
    intros k v [[<- <-]|[_ Hk]]%lookup_insert_Some; [lia|]. by rewrite lookup_empty in Hk.
Qed.

Lemma zfirst_spec z :
  match zfirst z with
  | None => z = ∅
  | Some m => exists s, z !! m = Some s /\ scores (fun s' => s <= s') z
  end.
Proof.
  unfold zfirst. pose proof (zfirst_fold z) as H. destruct (map_fold _ _ _) as [[m s]|]; cbn; [|done].
  eauto.
Qed.

(** ** Lemmas: scripts *)

Section ScriptLemmas.
Context {R : Type} `{RedisLaws R}.
Implicit Types r : R.

Definition expiry_at r t k : option Z := entry r t k ≫= snd.

(** [r'] differs from [r] only in [k] (at time [t]). *)
Definition only_key (k : string) (t : Z) r r' : Prop := forall k', k' <> k -> entry r' t k' = entry r t k'.

Lemma zset_at_entry r t k z :
  zset_at r t k = Some z ->
  entry r t k = None /\ z = ∅ \/ entry r t k = Some (RZset z, expiry_at r t k).
Proof.
  unfold zset_at, expiry_at. destruct (entry r t k) as [[[s|z'] e]|]; cbn; [done| |]; intros [= ->]; auto.
Qed.

Lemma zset_at_zset_entry r t k z e : entry r t k = zset_entry z e -> zset_at r t k = Some z.
Proof. unfold zset_at, zset_entry. intros ->. case_bool_decide; naive_solver. Qed.

Lemma purge_step {A} r t k hi z (K : reply -> script R A) :
  zset_at r t k = Some z ->
  exists r' n, (do x := script_call (ZREMRANGEBYSCORE k 0 hi) in K x) t r = K (RInt n) t r' /\
    only_key k t r r' /\ entry r' t k = zset_entry (purge hi z) (expiry_at r t k).
Proof.
  intros Hz. unfold script_bind, script_call. redis_step r' E Ek Eo. cbn [command_effect key_of] in *.
  destruct (zset_at_entry _ _ _ _ Hz) as [[He ->]|He].
  - unfold expiry_at. rewrite He in *. cbn in *. eexists _, _. split_and!; [done|done|]. by rewrite Ek.
  - rewrite He in *. cbn in *. eexists _, _. split_and!; [done|done|]. by rewrite Ek.
Qed.

Lemma card_step {A} r t k z (K : reply -> script R A) :
  zset_at r t k = Some z ->
  exists r', (do x := script_call (ZCARD k) in K x) t r = K (RInt (Z.of_nat (size z))) t r' /\
    only_key k t r r' /\ entry r' t k = entry r t k.
Proof.
  intros Hz. unfold script_bind, script_call. redis_step r' E Ek Eo. cbn [command_effect key_of] in *.
  destruct (zset_at_entry _ _ _ _ Hz) as [[He ->]|He]; rewrite He in *; cbn in *; eauto.
Qed.

Lemma first_step {A} r t k z (K : reply -> script R A) :
  zset_at r t k = Some z ->
  exists r', (do x := script_call (ZFIRST k) in K x) t r =
      K (match zfirst z with Some m => RBulk m | None => RNil end) t r' /\
    only_key k t r r' /\ entry r' t k = entry r t k.
Proof.
  intros Hz. unfold script_bind, script_call. redis_step r' E Ek Eo. cbn [command_effect key_of] in *.
  destruct (zset_at_entry _ _ _ _ Hz) as [[He ->]|He]; rewrite He in *; cbn in *; eauto.
Qed.

Lemma rem_step {A} r t k m z (K : reply -> script R A) :
  zset_at r t k = Some z ->
  exists r' n, (do x := script_call (ZREM k m) in K x) t r = K (RInt n) t r' /\
    only_key k t r r' /\ entry r' t k = zset_entry (delete m z) (expiry_at r t k).
Proof.
  intros Hz. unfold script_bind, script_call. redis_step r' E Ek Eo. cbn [command_effect key_of] in *.
  destruct (zset_at_entry _ _ _ _ Hz) as [[He ->]|He].
  - unfold expiry_at. rewrite He in *. cbn in *. eexists _, _. split_and!; [done|done|]. by rewrite Ek.
  - rewrite He in *. cbn in *. eexists _, _. split_and!; [done|done|]. by rewrite Ek.
Qed.

Lemma add_step {A} r t k s m ttl z (K : reply -> script R A) :
  0 < ttl -> zset_at r t k = Some z ->
  exists r' x, (do _ := script_call (ZADD k s m) in do x := script_call (PEXPIRE k ttl) in K x) t r
      = K x t r' /\
    only_key k t r r' /\ entry r' t k = Some (RZset (<[m := s]> z), Some (t + ttl)).
Proof.
  intros Ht Hz. unfold script_bind, script_call. redis_step r1 E1 Ek1 Eo1.
  cbn [command_effect key_of] in *.
  assert (exists e, entry r1 t k = Some (RZset (<[m := s]> z), e) /\
    exists n, (on_zset (entry r t k) (fun z e => (Some (RZset (<[m := s]> z), e),
                 RInt (if z !! m is Some _ then 0 else 1)))).2 = Ok (RInt n)) as (e & Hk1 & n & Hn).
  { destruct (zset_at_entry _ _ _ _ Hz) as [[He ->]|He]; rewrite He in *; cbn in *; eauto. }
  rewrite Hn. redis_step r2 E2 Ek2 Eo2. cbn [command_effect key_of] in *. rewrite Hk1 in *. cbn in *.
  eexists _, _. split_and!; [done|intros k' Hk'; by rewrite Eo2, Eo1|].
  rewrite Ek2. by rewrite (proj2 (Z.ltb_lt 0 ttl)).
Qed.

(** The two admission scripts have the same shape. *)
Lemma rateLimitScript_spec r t key nowMs cutoff lim member windowMs z :
  0 < windowMs -> zset_at r t key = Some z ->
  let z' := purge cutoff z in
  exists r', only_key key t r r' /\
    if lim <=? Z.of_nat (size z')
    then rateLimitScript key nowMs cutoff lim member windowMs t r = (r', Ok 0) /\
         entry r' t key = zset_entry z' (expiry_at r t key)
    else rateLimitScript key nowMs cutoff lim member windowMs t r = (r', Ok 1) /\
         entry r' t key = Some (RZset (<[member := nowMs]> z'), Some (t + windowMs)).
Proof.
  intros Hw Hz z'. unfold rateLimitScript.
  edestruct (purge_step (A := Z) r t key cutoff z) as (r1 & n & -> & Ho1 & Hk1); [done|].
  pose proof (zset_at_zset_entry _ _ _ _ _ Hk1) as Hz1.
  edestruct (card_step (A := Z) r1 t key) as (r2 & -> & Ho2 & Hk2); [done|]. fold z' in Hk1, Hz1 |- *.
  cbn [int_reply]. destruct (_ <=? _).
  - exists r2. split_and!; [intros k Hk; by rewrite Ho2, Ho1|done|]. by rewrite Hk2.
  - assert (zset_at r2 t key = Some z') as Hz2 by (unfold zset_at; by rewrite Hk2).
    edestruct (add_step (A := Z) r2 t key nowMs member windowMs) as (r3 & x & -> & Ho3 & Hk3); [done..|].
    exists r3. split_and!; [intros k Hk; by rewrite Ho3, Ho2, Ho1|done|done].
Qed.

Lemma acquireInflightScript_spec r t key nowMs max score token leaseMs z :
  0 < leaseMs -> zset_at r t key = Some z ->
  let z' := purge nowMs z in
  exists r', only_key key t r r' /\
    if max <=? Z.of_nat (size z')
    then acquireInflightScript key nowMs max score token leaseMs t r = (r', Ok (-1)) /\
         entry r' t key = zset_entry z' (expiry_at r t key)
    else acquireInflightScript key nowMs max score token leaseMs t r
           = (r', Ok (Z.of_nat (size z') + 1)) /\
         entry r' t key = Some (RZset (<[token := score]> z'), Some (t + leaseMs)).
Proof.
  intros Hw Hz z'. unfold acquireInflightScript.
  edestruct (purge_step (A := Z) r t key nowMs z) as (r1 & n & -> & Ho1 & Hk1); [done|].
  pose proof (zset_at_zset_entry _ _ _ _ _ Hk1) as Hz1.
  edestruct (card_step (A := Z) r1 t key) as (r2 & -> & Ho2 & Hk2); [done|]. fold z' in Hk1, Hz1 |- *.
  cbn [int_reply]. destruct (_ <=? _).
  - exists r2. split_and!; [intros k Hk; by rewrite Ho2, Ho1|done|]. by rewrite Hk2.
  - assert (zset_at r2 t key = Some z') as Hz2 by (unfold zset_at; by rewrite Hk2).
    edestruct (add_step (A := Z) r2 t key score token leaseMs) as (r3 & x & -> & Ho3 & Hk3); [done..|].
    exists r3. split_and!; [intros k Hk; by rewrite Ho3, Ho2, Ho1|done|done].
Qed.

(** The set after a release: expired leases purged, then the oldest one dropped. *)
Definition drop_oldest (z : gmap string Z) : gmap string Z :=
  match zfirst z with Some m => delete m z | None => z end.

Lemma zset_entry_expiry (r' : R) t k z e :
  entry r' t k = zset_entry z e -> zset_entry z (expiry_at r' t k) = zset_entry z e.
Proof. unfold expiry_at, zset_entry. intros ->. by case_bool_decide. Qed.

Lemma size_pos_entry r' r2 t key z e :
  entry r2 t key = zset_entry z e -> Z.of_nat (size z) <= 0 -> entry r' t key = None ->
  entry r' t key = zset_entry z e.
Proof.
  intros _ Hs ->. assert (size z = 0%nat) as Hz%map_size_empty_iff by lia.
  unfold zset_entry. by rewrite bool_decide_eq_true_2.
Qed.

Lemma releaseInflightScript_spec r t key nowMs z :
  zset_at r t key = Some z ->
  let z' := drop_oldest (purge nowMs z) in
  exists r', only_key key t r r' /\
    releaseInflightScript key nowMs t r = (r', Ok (Z.of_nat (size z'))) /\
    entry r' t key = zset_entry z' (expiry_at r t key).
Proof.
  intros Hz z'. unfold releaseInflightScript.
  edestruct (purge_step (A := Z) r t key nowMs z) as (r1 & n & -> & Ho1 & Hk1); [done|].
  pose proof (zset_at_zset_entry _ _ _ _ _ Hk1) as Hz1.
  edestruct (first_step (A := Z) r1 t key) as (r2 & -> & Ho2 & Hk2); [done|].
  assert (zset_at r2 t key = Some (purge nowMs z)) as Hz2 by (unfold zset_at; by rewrite Hk2).
  (* drop the oldest *)
  assert (forall A (K : reply -> script R A), exists r3 x,
    (do x := match match zfirst (purge nowMs z) with Some m => RBulk m | None => RNil end with
             | RBulk m => script_call (ZREM key m) | _ => script_ret RNil end in K x) t r2
      = K x t r3 /\ only_key key t r2 r3 /\ entry r3 t key = zset_entry z' (expiry_at r t key))
    as Hdrop.
  { intros A K. unfold z', drop_oldest. destruct (zfirst _) as [m|].
    - edestruct (rem_step (A := A) r2 t key m) as (r3 & n3 & E & Ho3 & Hk3); [done|].
      eexists r3, _. split_and!; [exact E|done|]. rewrite Hk3.
      unfold expiry_at at 1. rewrite Hk2, Hk1. unfold zset_entry at 2.
      case_bool_decide as Hp; [|done]. by rewrite Hp, delete_empty.
    - exists r2, RNil. split_and!; [done|done|]. by rewrite Hk2. }
  edestruct (Hdrop Z) as (r3 & x & -> & Ho3 & Hk3). clear Hdrop.
  pose proof (zset_at_zset_entry _ _ _ _ _ Hk3) as Hz3.
  edestruct (card_step (A := Z) r3 t key) as (r4 & -> & Ho4 & Hk4); [done|]. cbn [int_reply].
  destruct (Z.leb_spec (Z.of_nat (size z')) 0).
  - unfold script_bind, script_call. redis_step r5 E5 Ek5 Eo5. cbn in *.
    exists r5. split_and!; [intros k Hk; by rewrite Eo5, Ho4, Ho3, Ho2, Ho1| |].
    + unfold script_ret. repeat f_equal. lia.
    + eapply size_pos_entry; eauto.
  - exists r4. split_and!; [intros k Hk; by rewrite Ho4, Ho3, Ho2, Ho1|done|]. by rewrite Hk4.
Qed.
End ScriptLemmas.

(** ** The sliding window of one player *)

Module Window.

(** The instants of [l] after [T], and those of the window ending at [T]. *)
Definition after (T : Z) (l : list Z) : nat := length (filter (fun a => T < a) l).
Definition in_window (w T : Z) (l : list Z) : nat := length (filter (fun a => T - w < a /\ a <= T) l).
#[global] Arguments after : simpl never.
#[global] Arguments in_window : simpl never.

Section System.
Context {R : Type} `{RedisLaws R} (lim : rateLimit) (player : string).
Let w : Z := at_least_1ms (window lim).
Let key : string := rateKey player.

(** [counted]: the instants of the requests the server let in, reply lost or not. *)
Record sys := { srv : R; now : Z; members : gset string; counted : list Z }.

(** A request of some process [l] at the current time. *)
Definition request (c : call_env) (l : RedisLimiter) (s : sys) : sys * option error :=
  let '(r, _, err) := allowRate c player (srv s) l in
  ({| srv := r; now := now s;
      members := {[member_of (instanceID l) (now s) (memberSerial (next_serial l))]} ∪ members s;
      counted := match net c with
                 | NoFault => if err is None then counted s ++ [now s] else counted s
                 | LostRequest _ => counted s
                 | LostReply _ =>
                     if (allowRate {| clock := clock c; net := NoFault; server_time := server_time c |}
                           player (srv s) l).2 is None
                     then counted s ++ [now s] else counted s
                 end |}, err).

Inductive step (s : sys) : sys -> Prop :=
| step_time d : 0 <= d ->
    step s {| srv := srv s; now := now s + d; members := members s; counted := counted s |}
| step_request c l :
    rate l = lim -> unix_milli (clock c) = now s -> server_time c = now s ->
    member_of (instanceID l) (now s) (memberSerial (next_serial l)) ∉ members s ->
    step s (request c l s).1
| step_other c : key_of c <> key ->
    step s {| srv := (exec (now s) c (srv s)).1; now := now s; members := members s;
              counted := counted s |}.

Inductive reachable (r0 : R) (t0 : Z) : sys -> Prop :=
| reach_init : entry r0 t0 key = None -> 0 <= t0 ->
    reachable r0 t0 {| srv := r0; now := t0; members := ∅; counted := [] |}
| reach_step s s' : reachable r0 t0 s -> step s s' -> reachable r0 t0 s'.

Record inv (z : gmap string Z) (s : sys) : Prop := {
  inv_zset : zset_at (srv s) (now s) key = Some z;
  inv_scores m v : z !! m = Some v -> 0 <= v <= now s /\ m ∈ members s;
  inv_count T : now s - w <= T -> count_gt T z = after T (counted s);
  inv_past : Forall (fun a => a <= now s) (counted s);
  inv_now : 0 <= now s;
  inv_expiry e : expiry_at (srv s) (now s) key = Some e -> scores (fun v => v + w <= e) z;
  inv_bound T : Z.of_nat (in_window w T (counted s)) <= limit lim
}.

Lemma w_pos : 0 < w.
Proof. unfold w, at_least_1ms. case_match; bool_lia; lia. Qed.

Lemma after_snoc T l a : after T (l ++ [a]) = (after T l + above T a)%nat.
Proof.
  unfold after, above. rewrite filter_app, length_app, filter_cons, filter_nil.
  destruct (Z.ltb_spec T a); case_decide; cbn; lia.
Qed.

Lemma in_window_after T l : (in_window w T l <= after (T - w) l)%nat.
Proof.
  unfold in_window, after. induction l as [|a l IH]; [done|]. rewrite !filter_cons.
  repeat case_decide; cbn; lia.
Qed.

Lemma in_window_snoc_le T l a : (in_window w T (l ++ [a]) <= in_window w T l + 1)%nat.
Proof.
  unfold in_window. rewrite filter_app, length_app, filter_cons, filter_nil.
  case_decide; cbn; lia.
Qed.

Lemma in_window_snoc_late T l a : T < a -> in_window w T (l ++ [a]) = in_window w T l.
Proof.
  intros. unfold in_window. rewrite filter_app, length_app, filter_cons, filter_nil.
  rewrite decide_False by lia. cbn. lia.
Qed.

Lemma window_inv_time z s d : 0 <= d -> inv z s -> exists z',
  inv z' {| srv := srv s; now := now s + d; members := members s; counted := counted s |}.
Proof.
  intros Hd [Iz Is Ic Ip In Ie Ib].
  destruct (zset_at_later (srv s) (now s) (now s + d) key z) as [Hz|(Hz & e & He & Hle)];
    [lia|done| |].
  - exists z. split; cbn; auto; try lia.
    + intros m v Hm. destruct (Is m v Hm). split; [lia|done].
    + intros T HT. apply Ic. lia.
    + eapply Forall_impl; [exact Ip|]. cbn. lia.
    + intros e. unfold expiry_at. rewrite (entry_later _ (now s) (now s + d)) by lia.
      intros He. apply Ie. unfold expiry_at. revert He.
      destruct (entry (srv s) (now s) key) as [[v [x|]]|]; cbn; try done. by case_match.
  - exists ∅. assert (forall T, now s + d - w <= T -> after T (counted s) = 0%nat) as H0'.
    { intros T HT. rewrite <- Ic by lia. apply count_gt_none. intros m v Hm.
      specialize (Ie e). unfold expiry_at in Ie. rewrite He in Ie. specialize (Ie eq_refl m v Hm).
      cbn in *. lia. }
    split; cbn; auto; try lia.
    + done.
    + intros T HT. transitivity 0%nat; [by apply count_gt_none|]. symmetry. by apply H0'.
    + eapply Forall_impl; [exact Ip|]. cbn. lia.
    + done.
Qed.

Lemma inv_other z s c : key_of c <> key -> inv z s -> inv z
  {| srv := (exec (now s) c (srv s)).1; now := now s; members := members s; counted := counted s |}.
Proof.
  intros Hc [Iz Is Ic Ip In Ie Ib].
  destruct (exec_cases (now s) c (srv s)) as (r' & -> & _ & Ho). cbn.
  assert (entry r' (now s) key = entry (srv s) (now s) key) as He by (apply Ho; congruence).
  split; cbn; auto; unfold zset_at, expiry_at; by rewrite He.
Qed.

(** What a request that reaches the server does. *)
Lemma admission z s l : inv z s -> rate l = lim ->
  let member := member_of (instanceID l) (now s) (memberSerial (next_serial l)) in
  member ∉ members s ->
  let full := limit lim <=? Z.of_nat (after (now s - w) (counted s)) in
  exists r', rateLimitScript key (now s) (now s - w) (limit (rate l)) member w (now s) (srv s)
             = (r', Ok (if full then 0 else 1)) /\
    exists z', inv z' {| srv := r'; now := now s; members := {[member]} ∪ members s;
                         counted := if full then counted s else counted s ++ [now s] |}.
Proof.
  intros [Iz Is Ic Ip In Ie Ib] Hl member Hf full. rewrite Hl. pose proof w_pos as Hw.
  assert (scores (fun v => 0 <= v) z) as Hpos by (intros m v Hm; destruct (Is m v Hm); lia).
  set (z1 := purge (now s - w) z).
  assert (forall m v, z1 !! m = Some v -> 0 <= v <= now s /\ m ∈ members s) as Hs1
    by (intros m v [Hm _]%map_lookup_filter_Some; by apply Is).
  assert (z1 !! member = None) as Hnew.
  { destruct (z1 !! member) eqn:E; [|done]. exfalso. by apply Hf, (Hs1 _ _ E). }
  assert (forall T, now s - w <= T -> count_gt T z1 = after T (counted s)) as Hc1
    by (intros T HT; unfold z1; rewrite count_gt_purge by done; by apply Ic).
  destruct (rateLimitScript_spec (srv s) (now s) key (now s) (now s - w) (limit lim) member w z Hw Iz)
    as (r' & _ & Hr). fold z1 in Hr.
  unfold z1 in Hr at 1. rewrite size_purge, Ic in Hr by (done || lia). fold full in Hr.
  exists r'. unfold full in *. destruct (Z.leb_spec (limit lim) (Z.of_nat (after (now s - w) (counted s))));
    destruct Hr as [-> He]; (split; [done|]).
  - exists z1. split; cbn; auto.
    + by eapply zset_at_zset_entry.
    + intros m v Hm. destruct (Hs1 m v Hm). set_solver.
    + intros e. unfold expiry_at at 1. rewrite He. unfold zset_entry. case_bool_decide; [done|].
      cbn. intros Hx m v [Hm _]%map_lookup_filter_Some. by apply (Ie e Hx m).
  - exists (<[member := now s]> z1). split; cbn; auto.
    + unfold zset_at. by rewrite He.
    + intros m v [[<- <-]|[_ Hm]]%lookup_insert_Some; [split; [lia|set_solver]|].
      destruct (Hs1 m v Hm). set_solver.
    + intros T HT. rewrite count_gt_insert, Hc1, after_snoc by done. lia.
    + apply Forall_app_2; [done|]. apply Forall_singleton. lia.
    + intros e. unfold expiry_at. rewrite He. cbn. intros [= <-] m v
        [[<- <-]|[_ Hm]]%lookup_insert_Some; [lia|]. destruct (Hs1 m v Hm). lia.
    + intros T. destruct (Z.lt_ge_cases T (now s)).
      * by rewrite in_window_snoc_late.
      * pose proof (in_window_snoc_le T (counted s) (now s)).
        pose proof (in_window_after T (counted s)).
        pose proof (count_gt_mono (now s - w) (T - w) z ltac:(lia)) as Hm.
        rewrite !Ic in Hm by lia. lia.
Qed.

(** [allowRate] for a caller that meets no fault, and in general. *)
Lemma allowRate_clean z s c l :
  inv z s -> rate l = lim -> unix_milli (clock c) = now s -> server_time c = now s ->
  member_of (instanceID l) (now s) (memberSerial (next_serial l)) ∉ members s ->
  let full := limit lim <=? Z.of_nat (after (now s - w) (counted s)) in
  let c' := {| clock := clock c; net := NoFault; server_time := server_time c |} in
  exists r' l', allowRate c' player (srv s) l
      = (r', l', if full then Some (ESentinel ErrRateLimited) else None) /\
    (net c = NoFault -> allowRate c player (srv s) l = allowRate c' player (srv s) l) /\
    (forall e, net c = LostReply e -> exists x, allowRate c player (srv s) l = (r', l', Some x)) /\
    (forall e, net c = LostRequest e -> exists x, allowRate c player (srv s) l = (srv s, l', Some x)) /\
    exists z', inv z' {| srv := r'; now := now s;
      members := {[member_of (instanceID l) (now s) (memberSerial (next_serial l))]} ∪ members s;
      counted := if full then counted s else counted s ++ [now s] |}.
Proof.
  intros I Hl Hc Ht Hf full c'. destruct (admission z s l I Hl Hf) as (r' & Hs & Hz).
  fold full in Hs, Hz. exists r', (next_serial l). unfold allowRate, run_call. subst c'. cbn [clock net server_time].
  rewrite Hc, Ht. change (rate (next_serial l)) with (rate l).
  change (instanceID (next_serial l)) with (instanceID l).
  replace (at_least_1ms (window (rate l))) with w by (by rewrite Hl).
  change (rateKey player) with key. cbn [run]. rewrite Hs. destruct full;
    (split_and!; [done|intros ->; cbn [run]; by rewrite Hs|intros e ->; cbn [run]; rewrite Hs; by eauto|intros e ->; by eauto|done]).
Qed.

Lemma inv_request z s c l :
  inv z s -> rate l = lim -> unix_milli (clock c) = now s -> server_time c = now s ->
  member_of (instanceID l) (now s) (memberSerial (next_serial l)) ∉ members s ->
  exists z', inv z' (request c l s).1.
Proof.
  intros I Hl Hc Ht Hf.
  destruct (allowRate_clean z s c l I Hl Hc Ht Hf) as (r' & l' & Hn & H1 & H2 & H3 & Hz).
  unfold request. rewrite Hn. destruct (net c) as [|e|e] eqn:En.
  - rewrite H1, Hn by done. cbn [fst]. revert Hz. by destruct (limit lim <=? _).
  - destruct (H3 e eq_refl) as (x & ->). cbn [fst]. exists z. destruct I as [Iz Is Ic Ip In Ie Ib].
    split; cbn; auto. intros m v Hm. destruct (Is m v Hm). set_solver.
  - destruct (H2 e eq_refl) as (x & ->). cbn [fst snd]. revert Hz. by destruct (limit lim <=? _).
Qed.

Lemma window_reachable_inv r0 t0 s : 0 <= limit lim -> reachable r0 t0 s -> exists z, inv z s.
Proof.
  intros Hlim. induction 1 as [He Ht|s s' _ [z IH] Hs].
  - exists ∅. split; cbn; try done.
    unfold zset_at. by rewrite He.
  - destruct Hs; [by eapply window_inv_time|by eapply inv_request|exists z; by apply inv_other].
Qed.

(** C12: the per-player rate limit, for any number of gateway processes that share the
    key and read the server's time.  In every window of the configured length the server
    lets in at most [limit] requests, lost replies included; and a request whose call
    meets no fault is let in exactly when fewer than [limit] were let in during the window
    that ends now, and refused with ErrRateLimited otherwise. *)
Theorem rate_limit_sliding_window r0 t0 s :
  0 <= limit lim -> reachable r0 t0 s ->
  (forall T, Z.of_nat (in_window w T (counted s)) <= limit lim) /\
  (forall c l, rate l = lim -> unix_milli (clock c) = now s -> server_time c = now s ->
     net c = NoFault ->
     member_of (instanceID l) (now s) (memberSerial (next_serial l)) ∉ members s ->
     (allowRate c player (srv s) l).2 =
       if limit lim <=? Z.of_nat (after (now s - w) (counted s))
       then Some (ESentinel ErrRateLimited) else None).
Proof.
  intros Hlim Hr. destruct (window_reachable_inv r0 t0 s Hlim Hr) as [z I]. split; [apply (inv_bound z s I)|].
  intros c l Hl Hc Ht Hn Hf.
  destruct (allowRate_clean z s c l I Hl Hc Ht Hf) as (r' & l' & Hcl & H1 & _).
  by rewrite H1, Hcl.
Qed.
End System.
End Window.

(** ** The in-flight slots of all processes *)

Module Slots.
Section System.
Context {R : Type} `{RedisLaws R} (max ttl : Z).
Let lease : Z := at_least_1ms ttl.

(** [holders]: the requests that hold a slot, with the end of the lease they took. *)
Record sys := { srv : R; now : Z; tokens : gset string; holders : gmap string Z }.

(** The lease token of a process's next acquire. *)
Definition token_of (l : RedisLimiter) (t : Z) : string :=
  member_of (instanceID l) t (memberSerial (next_serial l)).

(** The calls of a process at the system's time, and its configuration. *)
Definition on_time (c : call_env) (s : sys) : Prop :=
  unix_milli (clock c) = now s /\ server_time c = now s.
Definition configured (l : RedisLimiter) : Prop := maxInflight l = max /\ inflightTTL l = ttl.

Definition do_acquire (c : call_env) (l : RedisLimiter) (s : sys) : sys * option error :=
  let '(r, _, err) := acquireInflight c (srv s) l in
  ({| srv := r; now := now s; tokens := {[token_of l (now s)]} ∪ tokens s;
      holders := if err is None then <[token_of l (now s) := now s + lease]> (holders s)
                 else holders s |}, err).

Definition do_release (c : call_env) (l : RedisLimiter) (token : string) (s : sys) : sys :=
  {| srv := (releaseInflight c (srv s) l).1.1; now := now s; tokens := tokens s;
     holders := delete token (holders s) |}.

Definition in_lease (t : Z) (s : sys) : Prop := scores (fun e => t < e) (holders s).

(** Time passes only while no holder outlives its lease: the assumption the slots rely on. *)
Inductive step (s : sys) : sys -> Prop :=
| step_time d : 0 <= d -> in_lease (now s + d) s ->
    step s {| srv := srv s; now := now s + d; tokens := tokens s; holders := holders s |}
| step_acquire c l : on_time c s -> configured l -> token_of l (now s) ∉ tokens s ->
    step s (do_acquire c l s).1
| step_release c l token e : on_time c s -> holders s !! token = Some e ->
    step s (do_release c l token s)
| step_other c : key_of c <> inflightKey ->
    step s {| srv := (exec (now s) c (srv s)).1; now := now s; tokens := tokens s;
              holders := holders s |}.

Inductive reachable (r0 : R) (t0 : Z) : sys -> Prop :=
| reach_init : entry r0 t0 inflightKey = None -> 0 <= t0 ->
    reachable r0 t0 {| srv := r0; now := t0; tokens := ∅; holders := ∅ |}
| reach_step s s' : reachable r0 t0 s -> step s s' -> reachable r0 t0 s'.

(** The leases on the server dominate the holders': at every threshold there are at least
    as many of them.  That is what makes dropping the oldest lease sound. *)
Record inv (z : gmap string Z) (s : sys) : Prop := {
  inv_zset : zset_at (srv s) (now s) inflightKey = Some z;
  inv_scores m v : z !! m = Some v -> 0 <= v <= now s + lease /\ m ∈ tokens s;
  inv_holders m e : holders s !! m = Some e -> m ∈ tokens s;
  inv_dominates T : now s <= T -> (count_gt T (holders s) <= count_gt T z)%nat;
  inv_alive : in_lease (now s) s;
  inv_max : Z.of_nat (size z) <= max;
  inv_expiry e : expiry_at (srv s) (now s) inflightKey = Some e -> scores (fun v => v <= e) z;
  inv_now : 0 <= now s
}.

Lemma lease_pos : 0 < lease.
Proof. unfold lease, at_least_1ms. case_match; bool_lia; lia. Qed.

Lemma inv_pos z s : inv z s -> scores (fun v => 0 <= v) z.
Proof. intros I m v Hm. destruct (inv_scores z s I m v Hm). lia. Qed.

Lemma slots_inv_time z s d : 0 <= d -> in_lease (now s + d) s -> inv z s -> exists z',
  inv z' {| srv := srv s; now := now s + d; tokens := tokens s; holders := holders s |}.
Proof.
  intros Hd Hal [Iz Is Ih Id Ia Im Ie In].
  destruct (zset_at_later (srv s) (now s) (now s + d) inflightKey z) as [Hz|(Hz & e & He & Hle)];
    [lia|done| |].
  - exists z. split; cbn; auto; try lia.
    + intros m v Hm. destruct (Is m v Hm). split; [lia|done].
    + intros T HT. apply Id. lia.
    + intros e. unfold expiry_at. rewrite (entry_later _ (now s) (now s + d)) by lia.
      intros He. apply Ie. unfold expiry_at. revert He.
      destruct (entry (srv s) (now s) inflightKey) as [[v [x|]]|]; cbn; try done. by case_match.
  - exists ∅. split; cbn; auto; try lia; try done.
    + intros T HT. etransitivity; [apply Id; lia|].
      rewrite (count_gt_none T z); [lia|]. intros m v Hm.
      specialize (Ie e). unfold expiry_at in Ie. rewrite He in Ie. specialize (Ie eq_refl m v Hm).
      cbn in *. lia.
    + rewrite map_size_empty. lia.
Qed.

(** An acquire that reaches the server. *)
Lemma acquisition z s c l :
  inv z s -> on_time c s -> configured l -> token_of l (now s) ∉ tokens s ->
  let live := count_gt (now s) z in
  let full := max <=? Z.of_nat live in
  exists r', acquireInflightScript inflightKey (now s) max (now s + lease) (token_of l (now s)) lease
                (now s) (srv s) = (r', Ok (if full then -1 else Z.of_nat live + 1)) /\
    exists z',
      inv z' {| srv := r'; now := now s; tokens := {[token_of l (now s)]} ∪ tokens s;
                holders := if full then holders s
                           else <[token_of l (now s) := now s + lease]> (holders s) |} /\
      inv z' {| srv := r'; now := now s; tokens := {[token_of l (now s)]} ∪ tokens s;
                holders := holders s |}.
Proof.
  intros I Hc Hl Hf live full. pose proof I as [Iz Is Ih Id Ia Im Ie In]. pose proof lease_pos as Hp.
  set (token := token_of l (now s)) in *.
  set (z1 := purge (now s) z).
  assert (forall m v, z1 !! m = Some v -> now s < v <= now s + lease /\ m ∈ tokens s) as Hs1.
  { intros m v Hm. pose proof (purge_above (now s) z (inv_pos z s I) m v Hm) as Ha. cbn in Ha.
    apply map_lookup_filter_Some in Hm. destruct (Is m v (proj1 Hm)). split; [lia|done]. }
  assert (z1 !! token = None) as Hnew.
  { destruct (z1 !! token) eqn:E; [|done]. exfalso. by apply Hf, (Hs1 _ _ E). }
  assert (holders s !! token = None) as Hnh.
  { destruct (holders s !! token) eqn:E; [|done]. exfalso. by eapply Hf, Ih. }
  assert (forall T, now s <= T -> count_gt T z1 = count_gt T z) as Hc1
    by (intros T HT; by apply count_gt_purge).
  assert (size z1 = live) as Hsz by (apply size_purge, (inv_pos z s I)).
  assert (live <= size z)%nat as Hle by apply count_gt_le.
  destruct (acquireInflightScript_spec (srv s) (now s) inflightKey (now s) max (now s + lease) token lease z
              Hp Iz) as (r' & _ & Hr). fold z1 in Hr. rewrite Hsz in Hr. fold full in Hr.
  exists r'. unfold full in *. destruct (Z.leb_spec max (Z.of_nat live)); destruct Hr as [-> He];
    (split; [done|]).
  - exists z1. assert (inv z1 {| srv := r'; now := now s; tokens := {[token]} ∪ tokens s;
                                 holders := holders s |}) as I1; [|done].
    split; cbn; auto; try lia.
    + by eapply zset_at_zset_entry.
    + intros m v Hm. destruct (Hs1 m v Hm). split; [lia|set_solver].
    + intros m e Hm. specialize (Ih m e Hm). set_solver.
    + intros T HT. rewrite Hc1 by done. auto.
    + intros e. unfold expiry_at at 1. rewrite He. unfold zset_entry. case_bool_decide; [done|].
      cbn. intros Hx m v [Hm _]%map_lookup_filter_Some. by apply (Ie e Hx m).
  - exists (<[token := now s + lease]> z1).
    assert (forall m v, <[token := now s + lease]> z1 !! m = Some v ->
              0 <= v <= now s + lease /\ m ∈ {[token]} ∪ tokens s) as Hs2.
    { intros m v [[<- <-]|[_ Hm]]%lookup_insert_Some; [split; [lia|set_solver]|].
      destruct (Hs1 m v Hm). split; [lia|set_solver]. }
    assert (size (<[token := now s + lease]> z1) = S live) as Hsz2
      by (rewrite map_size_insert_None by done; lia).
    assert (forall e, expiry_at r' (now s) inflightKey = Some e ->
              scores (fun v => v <= e) (<[token := now s + lease]> z1)) as He2.
    { intros e. unfold expiry_at. rewrite He. cbn. intros [= <-] m v Hm. destruct (Hs2 m v Hm). lia. }
    split; split; cbn; auto; try lia.
    1, 5: unfold zset_at; by rewrite He.
    + intros m e [[<- <-]|[_ Hm]]%lookup_insert_Some; [set_solver|]. specialize (Ih m e Hm). set_solver.
    + intros T HT. rewrite !count_gt_insert, Hc1 by done. specialize (Id T HT). lia.
    + intros m e; cbn [holders]; intros [[<- <-]|[_ Hm]]%lookup_insert_Some; [lia|]. by apply (Ia m).
    + intros m e Hm. specialize (Ih m e Hm). set_solver.
    + intros T HT. rewrite count_gt_insert, Hc1 by done. specialize (Id T HT). lia.
Qed.

(** Dropping the oldest lease for one holder keeps the domination. *)
Lemma drop_oldest_dominates z s token e :
  inv z s -> holders s !! token = Some e ->
  let z' := drop_oldest (purge (now s) z) in
  forall T, now s <= T -> (count_gt T (delete token (holders s)) <= count_gt T z')%nat.
Proof.
  intros I Hh z' T HT. pose proof I as [Iz Is Ih Id Ia Im Ie In].
  set (z1 := purge (now s) z) in *.
  assert (forall T, now s <= T -> (count_gt T (holders s) <= count_gt T z1)%nat) as Hd
    by (intros; unfold z1; rewrite count_gt_purge by done; auto).
  pose proof (count_gt_delete T token e (holders s) Hh) as Hdel.
  pose proof (Hd T HT) as HdT. unfold z', drop_oldest. pose proof (zfirst_spec z1) as Hf.
  destruct (zfirst z1) as [m|]; [|lia]. destruct Hf as (v & Hm & Hmin).
  pose proof (count_gt_delete T m v z1 Hm) as Hdz. unfold above in Hdz.
  destruct (Z.ltb_spec T v); [|lia].
  (* every lease ends after T *)
  assert (count_gt T z1 = size z1) as Hall.
  { apply count_gt_all. intros k x Hk. specialize (Hmin k x Hk). cbn in *. lia. }
  pose proof (Hd (now s) ltac:(lia)) as Hnow. pose proof (count_gt_le (now s) z1).
  rewrite (count_gt_all (now s) (holders s) Ia) in Hnow.
  pose proof (count_gt_le T (delete token (holders s))) as Hle.
  rewrite map_size_delete_Some in Hle by eauto. lia.
Qed.

Lemma inv_release z s c l token e :
  on_time c s -> holders s !! token = Some e -> inv z s -> exists z', inv z' (do_release c l token s).
Proof.
  intros [Hc Ht] Hh I. pose proof I as [Iz Is Ih Id Ia Im Ie In]. unfold do_release, releaseInflight, run_call.
  rewrite Hc, Ht.
  assert (forall m v, delete token (holders s) !! m = Some v -> m ∈ tokens s) as Hh'
    by (intros m v [_ Hm]%lookup_delete_Some; by eapply Ih).
  assert (scores (fun v => now s < v) (delete token (holders s))) as Ha'
    by (intros m v [_ Hm]%lookup_delete_Some; by apply (Ia m)).
  destruct (releaseInflightScript_spec (srv s) (now s) inflightKey (now s) z Iz) as (r' & _ & Hr & He).
  assert (drop_oldest (purge (now s) z) ⊆ z) as Hsub.
  { unfold drop_oldest. destruct (zfirst _); [etransitivity; [apply delete_subseteq|]|];
      apply map_filter_subseteq. }
  assert (exists z', inv z' {| srv := r'; now := now s; tokens := tokens s;
                               holders := delete token (holders s) |}) as Hok.
  { exists (drop_oldest (purge (now s) z)). split; cbn; auto.
    - by eapply zset_at_zset_entry.
    - intros m v Hm. apply Is. by eapply lookup_weaken.
    - by eapply drop_oldest_dominates.
    - apply map_subseteq_size in Hsub. lia.
    - intros x. unfold expiry_at at 1. rewrite He. unfold zset_entry. case_bool_decide; [done|].
      cbn. intros Hx m v Hm. apply (Ie x Hx m). by eapply lookup_weaken. }
  destruct (net c) as [|x|x]; cbn [run]; rewrite ?Hr; cbn [fst]; [done| |done].
  exists z. split; cbn; auto. intros T HT. etransitivity; [|by apply Id].
  rewrite (count_gt_delete T token e (holders s)) by done. lia.
Qed.

(** [acquireInflight] without a fault, and what the server keeps in every case. *)
Lemma acquireInflight_clean z s c l :
  inv z s -> on_time c s -> configured l -> token_of l (now s) ∉ tokens s ->
  let full := max <=? Z.of_nat (count_gt (now s) z) in
  (net c = NoFault ->
     (acquireInflight c (srv s) l).2 = if full then Some (ESentinel ErrInflightFull) else None) /\
  exists z', inv z' (do_acquire c l s).1.
Proof.
  intros I [Hc Ht] [Hm Hl] Hf full.
  destruct (acquisition z s c l I (conj Hc Ht) (conj Hm Hl) Hf) as (r' & Hs & z' & Hz1 & Hz2).
  fold full in Hs, Hz1. unfold do_acquire, acquireInflight, run_call. rewrite Hc, Ht, Hl.
  change (maxInflight (next_serial l)) with (maxInflight l). rewrite Hm.
  change (member_of (instanceID (next_serial l)) (now s) (memberSerial (next_serial l)))
    with (token_of l (now s)). fold lease.
  destruct (net c) as [|x|x]; cbn [run]; rewrite ?Hs; cbn [fst].
  - destruct full; [split; [done|exists z'; exact Hz1]|].
    rewrite (proj2 (Z.ltb_ge _ 0)) by lia. split; [done|exists z'; exact Hz1].
  - split; [done|]. exists z. destruct I as [Iz Is Ih Id Ia Im Ie In]. split; cbn; auto.
    + intros m v Hv. destruct (Is m v Hv). set_solver.
    + intros m e Hv. specialize (Ih m e Hv). set_solver.
  - split; [done|]. exists z'. exact Hz2.
Qed.

Lemma slots_reachable_inv r0 t0 s : 0 <= max -> reachable r0 t0 s -> exists z, inv z s.
Proof.
  intros Hmax. induction 1 as [He Ht|s s' _ [z IH] Hs].
  - exists ∅. split; cbn; try done. unfold zset_at. by rewrite He.
  - destruct Hs as [d Hd Hal|c l Hc Hl Hf|c l token e Hc Hh|c Hc].
    + by eapply slots_inv_time.
    + by eapply acquireInflight_clean.
    + by eapply inv_release.
    + exists z. destruct IH as [Iz Is Ih Id Ia Im Ie In].
      destruct (exec_cases (now s) c (srv s)) as (r' & -> & _ & Ho). cbn [fst].
      assert (entry r' (now s) inflightKey = entry (srv s) (now s) inflightKey) as He
        by (apply Ho; congruence).
      split; cbn; auto; unfold zset_at, expiry_at; by rewrite He.
Qed.

Lemma slots_bounded r0 t0 s :
  0 <= max -> reachable r0 t0 s -> Z.of_nat (size (holders s)) <= max.
Proof.
  intros Hmax Hr. destruct (slots_reachable_inv r0 t0 s Hmax Hr) as [z I].
  pose proof (inv_dominates z s I (now s) ltac:(lia)) as Hd.
  rewrite (count_gt_all _ _ (inv_alive z s I)) in Hd.
  pose proof (count_gt_le (now s) z). pose proof (inv_max z s I). lia.
Qed.

(** C11: the in-flight bound.  While no request outlives its lease, the processes that
    share Redis never hold more than [max] slots between them, whatever requests and
    replies are lost, although a release drops the oldest lease and not its own; and an
    acquire that meets no fault is refused only when [max] leases are live. *)
Theorem inflight_never_exceeds_max r0 t0 s :
  0 <= max -> reachable r0 t0 s ->
  Z.of_nat (size (holders s)) <= max /\
  exists z, zset_at (srv s) (now s) inflightKey = Some z /\
    forall c l, on_time c s -> configured l -> token_of l (now s) ∉ tokens s -> net c = NoFault ->
      (acquireInflight c (srv s) l).2 =
        if max <=? Z.of_nat (count_gt (now s) z) then Some (ESentinel ErrInflightFull) else None.
Proof.
  intros Hmax Hr. split; [by eapply slots_bounded|].
  destruct (slots_reachable_inv r0 t0 s Hmax Hr) as [z I].
  exists z. split; [apply (inv_zset z s I)|]. intros c l Hc Hl Hf Hn.
  by apply (acquireInflight_clean z s c l I Hc Hl Hf).
Qed.
End System.

(** Two processes of one configuration, and a call at a time. *)
Definition process (id : string) (serial : Z) : RedisLimiter := {|
  rate := {| limit := 2; window := Minute |}; tokenBudget := 1000; maxInflight := 1;
  inflightTTL := 100 * Millisecond;
  circuit := mkBreaker (circuit_defaults (mkCircuitConfig 0 0 (SpecFloat.S754_zero false) 0))
               CircuitClosed 0 false 0 [] 0;
  instanceID := id; memberSerial := serial; InflightUpstream := 0; RateLimitedTotal := 0 |}.
Definition call_at (ms : Z) : call_env :=
  {| clock := ms * Millisecond; net := NoFault; server_time := ms |}.

Definition start : sys (R := Keyspace.state) :=
  {| srv := Keyspace.empty; now := 1000; tokens := ∅; holders := ∅ |}.

(** The one slot is taken by process a; b is refused. *)
Lemma inflight_never_exceeds_max_witness :
  let s := (do_acquire (100 * Millisecond) (call_at 1000) (process "aa" 0) start).1 in
  reachable 1 (100 * Millisecond) Keyspace.empty 1000 s /\
  Z.of_nat (size (holders s)) <= 1 /\
  (acquireInflight (call_at 1000) (srv s) (process "bb" 0)).2 = Some (ESentinel ErrInflightFull).
Proof.
  intros s.
  assert (reachable 1 (100 * Millisecond) Keyspace.empty 1000 s) as Hr.
  { eapply reach_step; [by apply reach_init|]. apply step_acquire; [split; reflexivity..|]. set_solver. }
  split; [done|].
  destruct (inflight_never_exceeds_max 1 (100 * Millisecond) Keyspace.empty 1000 s ltac:(lia) Hr)
    as (Hsz & z & Hz & Hall).
  split; [exact Hsz|]. vm_compute in Hz. injection Hz as <-.
  rewrite (Hall (call_at 1000) (process "bb" 0)); [reflexivity|split; reflexivity..| |reflexivity].
  intros Hin. assert (bool_decide (token_of (process "bb" 0) (now s) ∈ tokens s) = true) as Hb
    by (by apply bool_decide_eq_true).
  vm_compute in Hb. done.
Defined.

(** Without the assumption the bound fails: a's lease ends at 1100; at 1150 b takes the
    one slot; a releases late and drops b's lease; c is let in although b still holds an
    unexpired lease. *)
Lemma stale_release_frees_anothers_slot :
  let r1 := (acquireInflight (R := Keyspace.state) (call_at 1000) Keyspace.empty (process "aa" 0)).1.1 in
  let b := acquireInflight (call_at 1150) r1 (process "bb" 0) in
  let r3 := (releaseInflight (call_at 1160) b.1.1 (process "aa" 1)).1.1 in
  let c := acquireInflight (call_at 1170) r3 (process "cc" 0) in
  b.2 = None /\ c.2 = None /\ 1170 < 1150 + 100.
Proof. vm_compute. done. Qed.
End Slots.

(** ** Members and tokens *)

Lemma hex_encode_no_colon bs : Forall is_byte bs -> no_colon (hex_encode bs).
Proof.
  intros Hb. unfold no_colon, hex_encode.
  assert (Forall is_byte (bs ≫= fun b => [hex_digit (b / 16); hex_digit (b mod 16)]) /\
          Forall (fun b => b <> 58) (bs ≫= fun b => [hex_digit (b / 16); hex_digit (b mod 16)])) as [H1 H2].
  { induction Hb as [|b bs Hb _ [IH1 IH2]]; [by split; constructor|]. rewrite bind_cons.
    unfold is_byte in Hb. assert (0 <= b / 16 < 16 /\ 0 <= b mod 16 < 16) as [Hd Hm] by lia.
    split; apply Forall_app_2; auto; repeat constructor; unfold is_byte, hex_digit;
      case_match; bool_lia; lia. }
  by rewrite bytes_of_bytes.
Qed.

(** Instance ids without colons make members and tokens of distinct calls distinct. *)
Lemma member_of_inj id1 id2 t1 t2 n1 n2 :
  no_colon id1 -> no_colon id2 -> 0 <= n1 -> 0 <= n2 ->
  member_of id1 t1 n1 = member_of id2 t2 n2 -> id1 = id2 /\ t1 = t2 /\ n1 = n2.
Proof.
  intros H1 H2 Hn1 Hn2 E. unfold member_of in E.
  apply colon_split in E as [-> E]; [|done..].
  apply colon_split in E as [Et En]; [|apply format_int_no_colon..].
  unfold format_int, format_uint in *. apply (inj pretty) in Et, En.
  split_and!; [done|done|]. by apply Z2N.inj.
Qed.

(** ** The daily budget *)

Section Budget.
Context {R : Type} `{RedisLaws R}.
Implicit Types r : R.

(** The server and the process agree on the time [t] (ns). *)
Definition synced (t : Z) : call_env := {| clock := t; net := NoFault; server_time := unix_milli t |}.

Lemma next_utc_day t : durationUntilNextUTCDay t = day_ns * (day_of t + 1) - t.
Proof.
  unfold durationUntilNextUTCDay. pose proof (civil_roundtrip (day_of t) 1) as Hc.
  destruct (civil _) as [[y m] d]. rewrite Hc.
  assert (0 < (day_of t + 1) * day_ns - t <= day_ns) by (unfold day_of, day_ns, Hour, Minute, Second, Millisecond, Microsecond; lia).
  unfold time_sub, min_int64, max_int64, day_ns, Hour, Minute, Second, Millisecond, Microsecond in *.
  rewrite (proj2 (Z.leb_gt _ 0)) by lia. lia.
Qed.

(** The milliseconds a counter recorded at [t] lives: to the midnight, rounded down. *)
Lemma budget_ttl t :
  let midnight := (day_of t + 1) * (day_ns / Millisecond) in
  midnight - 1 <= unix_milli t + at_least_1ms (durationUntilNextUTCDay t) <= midnight.
Proof.
  cbv zeta. rewrite next_utc_day. unfold at_least_1ms, duration_ms, unix_milli.
  change (day_ns / Millisecond) with 86400000. change day_ns with 86400000000000.
  change Millisecond with 1000000.
  assert (0 < 86400000000000 * (day_of t + 1) - t) as Hd
    by (unfold day_of; change day_ns with 86400000000000; lia).
  rewrite Z.quot_div_nonneg by lia. clear - Hd. generalize dependent (day_of t). intros d Hd.
  destruct (Z.ltb_spec ((86400000000000 * (d + 1) - t) / 1000000) 1); lia.
Qed.

Lemma same_day t t' : t <= t' -> t' < (day_of t + 1) * day_ns -> day_of t' = day_of t.
Proof. unfold day_of. change day_ns with 86400000000000. lia. Qed.

Lemma currentBudget_spec r t player :
  currentBudget (synced t) player r =
  ((exec (unix_milli t) (GET (budgetKey player t)) r).1,
   match entry r (unix_milli t) (budgetKey player t) with
   | None => Ok 0
   | Some (RStr s, _) => match parse_int64 s with
                         | Some n => Ok n
                         | None => Err (EWrap ("limiter: parse token budget " +:+ s) (EText "strconv.Atoi"))
                         end
   | Some (RZset _, _) => Err (EWrap "limiter: read token budget" WRONGTYPE)
   end).
Proof.
  unfold currentBudget, run_call, synced, script_call. cbn [run net server_time clock].
  destruct (exec_cases (unix_milli t) (GET (budgetKey player t)) r) as (r' & -> & _). cbn.
  destruct (entry r _ _) as [[[s|z] e]|]; cbn; try done. by destruct (parse_int64 s).
Qed.

(** What a fault-free [recordTokens] leaves: the count, with the rest of the day to live. *)
Lemma recordTokens_counts r t player used b :
  (currentBudget (synced t) player r).2 = Ok b -> used <> 0 -> in_int64 (b + used) ->
  (forall s n, entry r (unix_milli t) (budgetKey player t) = Some (RStr s, n) ->
     exists m, s = format_int m /\ in_int64 m) ->
  exists r', recordTokens (synced t) t player used r = (r', None) /\
    entry r' (unix_milli t) (budgetKey player t) =
      Some (RStr (format_int (b + used)), Some (unix_milli t + at_least_1ms (durationUntilNextUTCDay t))).
Proof.
  intros Hb Hu Hr1 Hcanon. set (key := budgetKey player t) in *.
  set (ttl := at_least_1ms (durationUntilNextUTCDay t)).
  assert (0 < ttl) as Httl by (unfold ttl, at_least_1ms; case_match; bool_lia; lia).
  rewrite currentBudget_spec in Hb. cbn [snd] in Hb. fold key in Hb. unfold recordTokens.
  rewrite (proj2 (Z.eqb_neq used 0)) by done. fold ttl.
  unfold run_call, recordBudgetScript, script_bind, script_call, synced. cbn [run net server_time clock].
  fold key. redis_step r1 E1 Ek1 Eo1. cbn [command_effect key_of] in *.
  assert (exists e, entry r1 (unix_milli t) key = Some (RStr (format_int (b + used)), e) /\
    (command_effect (unix_milli t) (INCRBY key used) (entry r (unix_milli t) key)).2 = Ok (RInt (b + used)))
    as (e & Hk1 & Hrep).
  { cbn [command_effect]. destruct (entry r (unix_milli t) key) as [[[s|z] e]|] eqn:He; [|done|].
    - destruct (Hcanon s e eq_refl) as (m & -> & Hmr). rewrite parse_format_int in * by done.
      injection Hb as ->. rewrite bool_decide_eq_true_2 in * by done. eauto.
    - injection Hb as <-. eauto. }
  cbn [command_effect] in Hrep. rewrite Hrep. redis_step r2 E2 Ek2 Eo2.
  cbn [command_effect key_of] in *. rewrite Hk1 in *. cbn in *.
  rewrite (proj2 (Z.ltb_lt 0 ttl)) in Ek2 by done. eexists. split; [reflexivity|done].
Qed.

(** That is until midnight, to the millisecond. *)
Lemma budget_expiry t t' :
  let expiry := unix_milli t + at_least_1ms (durationUntilNextUTCDay t) in
  (t' + 2 * Millisecond <= (day_of t + 1) * day_ns -> unix_milli t' < expiry) /\
  ((day_of t + 1) * day_ns <= t' -> expiry <= unix_milli t').
Proof.
  pose proof (budget_ttl t) as Hm. cbv zeta in Hm |- *. revert Hm.
  generalize (at_least_1ms (durationUntilNextUTCDay t)) (day_of t). unfold unix_milli. intros ttl d.
  change (day_ns / Millisecond) with 86400000. change day_ns with 86400000000000.
  change Millisecond with 1000000. intros Hm. split; lia.
Qed.

(** C14: token accounting.  Tokens recorded at [t] are added to what the player has used
    that UTC day: [b] before, [b + used] for the rest of the day (to the last but one
    millisecond), so a request is over budget exactly when [b + used] plus its estimate
    exceeds the budget; and from the next midnight on the day's counter is gone. *)
Theorem budget_counts_the_day r t t' player used est b (l : RedisLimiter) :
  (currentBudget (synced t) player r).2 = Ok b -> used <> 0 -> in_int64 (b + used) ->
  in_int64 (b + used + est) -> t <= t' ->
  (forall s n, entry r (unix_milli t) (budgetKey player t) = Some (RStr s, n) ->
     exists m, s = format_int m /\ in_int64 m) ->
  let r' := (recordTokens (synced t) t player used r).1 in
  (recordTokens (synced t) t player used r).2 = None /\
  (t' + 2 * Millisecond <= (day_of t + 1) * day_ns ->
     (checkBudget (synced t') player est r' l).2 =
       if tokenBudget l <? b + used + est then Some (ESentinel ErrBudgetExceeded) else None) /\
  ((day_of t + 1) * day_ns <= t' -> entry r' (unix_milli t') (budgetKey player t) = None).
Proof.
  intros Hb Hu Hr1 Hr2 Ht Hcanon. set (key := budgetKey player t) in *.
  set (ttl := at_least_1ms (durationUntilNextUTCDay t)).
  destruct (recordTokens_counts r t player used b Hb Hu Hr1 Hcanon) as (r' & -> & Hk). fold key ttl in Hk.
  cbn [fst snd]. split; [done|].
  assert (unix_milli t <= unix_milli t') as Hmono by (by apply unix_milli_mono).
  split; intros Hday.
  - assert (day_of t' = day_of t) as Hd
      by (apply same_day; [done|unfold Millisecond, Microsecond in *; lia]).
    assert (budgetKey player t' = key) as Hkey by (unfold key, budgetKey, format_date; by rewrite Hd).
    unfold checkBudget.
    rewrite currentBudget_spec, Hkey, (entry_later r' (unix_milli t) (unix_milli t')), Hk by done.
    cbn [live].
    rewrite (proj2 (Z.ltb_lt (unix_milli t') _)) by (by apply (budget_expiry t t')).
    rewrite parse_format_int by done. cbn [snd]. by rewrite wrap_int64_id.
  - rewrite (entry_later r' (unix_milli t) (unix_milli t')), Hk by done. cbn [live].
    by rewrite (proj2 (Z.ltb_ge (unix_milli t') _)) by (by apply (budget_expiry t t')).
Qed.
End Budget.

(** At 23:00 UTC on 2026-05-29 a player who has used nothing records 600 tokens: with a
    budget of 1000, a request estimated at 400 passes half an hour later and one of 401 does
    not; at midnight the counter is gone. *)
Lemma budget_counts_the_day_witness :
  let t := (20602 * 24 + 23) * Hour in
  let l := Slots.process "aa" 0 in
  let r' := (recordTokens (R := Keyspace.state) (synced t) t "p" 600 Keyspace.empty).1 in
  (checkBudget (synced (t + 30 * Minute)) "p" 400 r' l).2 = None /\
  (checkBudget (synced (t + 30 * Minute)) "p" 401 r' l).2 = Some (ESentinel ErrBudgetExceeded) /\
  entry r' (unix_milli (t + Hour)) (budgetKey "p" t) = None.
Proof.
  intros t l r'.
  assert (forall est, in_int64 (0 + 600 + est) ->
    (checkBudget (synced (t + 30 * Minute)) "p" est r' l).2 =
      if tokenBudget l <? 0 + 600 + est then Some (ESentinel ErrBudgetExceeded) else None) as Hc.
  { intros est He.
    apply (budget_counts_the_day (R := Keyspace.state) Keyspace.empty t (t + 30 * Minute) "p" 600 est 0 l);
      [vm_compute; reflexivity|done|vm_compute; split; congruence|done|vm_compute; congruence|done|
       vm_compute; congruence]. }
  split_and!.
  - rewrite Hc by (vm_compute; split; congruence). reflexivity.
  - rewrite Hc by (vm_compute; split; congruence). reflexivity.
  - apply (budget_counts_the_day (R := Keyspace.state) Keyspace.empty t (t + Hour) "p" 600 0 0 l);
      [vm_compute; reflexivity|done|vm_compute; split; congruence|vm_compute; split; congruence|
       vm_compute; congruence|done|vm_compute; congruence].
Defined.

(** ** Admission *)

Section Admission.
Context {R : Type} `{RedisLaws R}.
Implicit Types r : R.

(** A script that touches one key only. *)
Definition touches {A} (k : string) (s : script R A) : Prop := forall t r, only_key k t r (s t r).1.

Lemma touches_ret {A} k (a : A) : touches k (script_ret a).
Proof. by intros t r k' _. Qed.

Lemma touches_call k c : key_of c = k -> touches k (script_call c).
Proof.
  intros <- t r k' Hk. unfold script_call.
  destruct (exec_cases t c r) as (r' & -> & _ & Ho). by apply Ho.
Qed.

Lemma touches_bind {A B} k (m : script R A) (f : A -> script R B) :
  touches k m -> (forall a, touches k (f a)) -> touches k (script_bind m f).
Proof.
  intros Hm Hf t r k' Hk. unfold script_bind. specialize (Hm t r k' Hk).
  destruct (m t r) as [r1 [a|e]]; [|done]. cbn in Hm. rewrite <- Hm. by apply Hf.
Qed.

Lemma rateLimitScript_touches key a b c d e : touches key (rateLimitScript key a b c d e).
Proof.
  unfold rateLimitScript. repeat (apply touches_bind; [by apply touches_call|intros ?]).
  case_match; [apply touches_ret|].
  repeat (apply touches_bind; [by apply touches_call|intros ?]). apply touches_ret.
Qed.

Lemma run_touches {A} k (s : script R A) f t r : touches k s -> only_key k t r (run s f t r).1.
Proof. intros Hs. destruct f; cbn [run fst]; [apply Hs|by intros k' _|apply Hs]. Qed.

Lemma keys_apart player now :
  rateKey player <> inflightKey /\ budgetKey player now <> inflightKey.
Proof. unfold rateKey, budgetKey, inflightKey. split; intros E; by apply (f_equal bytes) in E. Qed.

Lemma checkBudget_inflight c player est r l t :
  server_time c = t -> entry (checkBudget c player est r l).1 t inflightKey = entry r t inflightKey.
Proof.
  intros <-. destruct (keys_apart player (clock c)) as [_ Hk].
  pose proof (run_touches (budgetKey player (clock c)) (script_call (GET (budgetKey player (clock c))))
                (net c) (server_time c) r (touches_call _ (GET (budgetKey player (clock c))) eq_refl) inflightKey (not_eq_sym Hk)) as Ht.
  unfold checkBudget, currentBudget, run_call in *.
  destruct (run _ _ _ _) as [r' x]. cbn in Ht. rewrite <- Ht.
  destruct x as [[]|]; repeat case_match; by simplify_eq.
Qed.

Lemma allowRate_inflight c player r l t :
  server_time c = t -> entry (allowRate c player r l).1.1 t inflightKey = entry r t inflightKey.
Proof.
  intros <-. destruct (keys_apart player (clock c)) as [Hk _]. unfold allowRate, run_call.
  match goal with |- context [run ?s (net c) (server_time c) r] =>
    pose proof (run_touches (rateKey player) s (net c) (server_time c) r
                  (rateLimitScript_touches _ _ _ _ _ _) inflightKey (not_eq_sym Hk)) as Ht; destruct (run s (net c) (server_time c) r) as [r' [x|x]] end;
    done.
Qed.

Lemma cancelProbe_inactive c : probeActive (cancelProbe c) = true -> cstate c <> CircuitHalfOpen.
Proof. unfold cancelProbe. by destruct (cstate c). Qed.

(** What a refused request leaves of the breaker. *)
Definition undone (c c' : circuitBreaker) : Prop :=
  events c' = events c /\ (probeActive c' = true -> c' = c \/ cstate c' <> CircuitHalfOpen).

Lemma undone_refl c : undone c c.
Proof. split; auto. Qed.

Lemma allow_events now1 now2 c : events (allow now1 now2 c).1 = events c.
Proof. unfold allow, allow_probe. repeat case_match; done. Qed.

Lemma undone_refused now1 now2 c : (allow now1 now2 c).2 = false -> undone c (allow now1 now2 c).1.
Proof.
  intros Hf. split; [apply allow_events|]. revert Hf. unfold allow, allow_probe.
  repeat case_match; cbn; try done; auto.
Qed.

Lemma undone_cancel now1 now2 c : undone c (cancelProbe (allow now1 now2 c).1).
Proof.
  split.
  - rewrite <- (allow_events now1 now2 c). unfold cancelProbe. by case_match.
  - intros Hp. right. pose proof (cancelProbe_inactive _ Hp). unfold cancelProbe. case_match; cbn; congruence.
Qed.

Lemma cancel_stable c : undone c (cancelProbe c).
Proof.
  split; [unfold cancelProbe; by case_match|]. intros Hp. right.
  pose proof (cancelProbe_inactive _ Hp). unfold cancelProbe. case_match; cbn; congruence.
Qed.

(** A release gives back exactly one live lease. *)
Lemma count_gt_drop_oldest t z :
  scores (fun s => 0 <= s) z -> count_gt t (drop_oldest (purge t z)) = pred (count_gt t z).
Proof.
  intros Hz. unfold drop_oldest. pose proof (zfirst_spec (purge t z)) as Hf.
  rewrite <- (count_gt_purge t t z) by lia. destruct (zfirst (purge t z)) as [m|].
  - destruct Hf as (s & Hm & _). rewrite (count_gt_delete t m s (purge t z)) by done.
    pose proof (purge_above t z Hz m s Hm) as Hlt. cbn in Hlt. unfold above. rewrite (proj2 (Z.ltb_lt t s)) by done. lia.
  - rewrite Hf. by rewrite (count_gt_none t ∅) by (by intros m s Hm).
Qed.

Lemma undone_inv c c' : breaker_inv c' -> undone c c' ->
  events c' = events c /\ (probeActive c' = true -> c' = c).
Proof.
  intros I [He Hp]. split; [done|]. intros Ha. destruct (Hp Ha) as [?|Hn]; [done|].
  destruct Hn. by apply (bi_probe c' I).
Qed.

(** The acquire and the undoing release of an [Allow] at one instant [t]. *)
Definition leaks (f : fault) : nat := match f with LostReply _ => 1 | _ => 0 end.

Lemma acquireInflight_at c r l z t :
  unix_milli (clock c) = t -> server_time c = t ->
  zset_at r t inflightKey = Some z -> scores (fun s => 0 <= s) z -> 0 <= t ->
  let token := member_of (instanceID l) t (memberSerial (next_serial l)) in
  z !! token = None ->
  let '(r', l', err) := acquireInflight c r l in
  circuit l' = circuit l /\ rate l' = rate l /\
  exists z', zset_at r' t inflightKey = Some z' /\
    match err with
    | None => z' = <[token := t + at_least_1ms (inflightTTL l)]> (purge t z) /\
              Z.of_nat (count_gt t z) < maxInflight l
    | Some _ => (count_gt t z' <= count_gt t z + leaks (net c))%nat
    end.
Proof.
  intros Hc Ht Hz Hpos Ht0 token Hfresh.
  assert (0 < at_least_1ms (inflightTTL l)) as Hl by (unfold at_least_1ms; case_match; bool_lia; lia).
  unfold acquireInflight, run_call. rewrite Hc, Ht.
  destruct (acquireInflightScript_spec r t inflightKey t (maxInflight l) (t + at_least_1ms (inflightTTL l))
              token (at_least_1ms (inflightTTL l)) z Hl Hz) as (r' & _ & Hr).
  change (maxInflight (next_serial l)) with (maxInflight l).
  change (member_of (instanceID (next_serial l)) t (memberSerial (next_serial l))) with token.
  rewrite (size_purge t z Hpos) in Hr.
  destruct (net c) as [|x|x]; cbn [run leaks].
  - destruct (Z.leb_spec (maxInflight l) (Z.of_nat (count_gt t z))); destruct Hr as [-> He]; cbn -[Z.ltb].
    + split_and!; [done|done|]. exists (purge t z).
      split; [by eapply zset_at_zset_entry|]. rewrite count_gt_purge; lia.
    + rewrite (proj2 (Z.ltb_ge _ 0)) by lia. split_and!; [done|done|]. eexists.
      split; [unfold zset_at; by rewrite He|]. split; [done|lia].
  - split_and!; [done|done|]. exists z. split; [done|lia].
  - destruct (acquireInflightScript _ _ _ _ _ _ t r) as [r2 res] eqn:Er.
    assert (exists z', zset_at r2 t inflightKey = Some z' /\ (count_gt t z' <= count_gt t z + 1)%nat)
      as (z' & Hz' & Hle).
    { destruct (Z.leb_spec (maxInflight l) (Z.of_nat (count_gt t z))); destruct Hr as [[= -> _] He].
      - exists (purge t z). split; [by eapply zset_at_zset_entry|]. rewrite count_gt_purge; lia.
      - eexists. split; [unfold zset_at; by rewrite He|].
        rewrite count_gt_insert by (by apply purge_lookup_None). rewrite count_gt_purge by lia.
        unfold above. case_match; lia. }
    destruct res; (split_and!; [done|done|]; by exists z').
Qed.

(** Taking a lease and dropping the oldest leaves no more live leases than before. *)
Lemma undo_count t z token ttl :
  scores (fun s => 0 <= s) z -> 0 <= t -> z !! token = None ->
  let z2 := <[token := t + at_least_1ms ttl]> (purge t z) in
  (count_gt t z2 <= S (count_gt t z))%nat /\
  (count_gt t (drop_oldest (purge t z2)) <= count_gt t z)%nat.
Proof.
  intros Hpos Ht Hfresh z2.
  assert (count_gt t z2 <= S (count_gt t z))%nat as Hle.
  { unfold z2. rewrite count_gt_insert by (by apply purge_lookup_None). rewrite count_gt_purge by lia.
    unfold above. case_match; lia. }
  split; [done|]. unfold z2 in *. rewrite count_gt_drop_oldest.
  - lia.
  - intros m s [[<- <-]|[_ Hm]]%lookup_insert_Some.
    + unfold at_least_1ms. case_match; bool_lia; lia.
    + by apply (purge_scores _ t z Hpos m).
Qed.

(** The undoing release drops the oldest lease, unless its request is lost. *)
Lemma releaseInflight_at c r l z t :
  unix_milli (clock c) = t -> server_time c = t -> zset_at r t inflightKey = Some z ->
  circuit (releaseInflight c r l).1.2 = circuit l /\
  exists z', zset_at (releaseInflight c r l).1.1 t inflightKey = Some z' /\
    ((count_gt t z' <= count_gt t (drop_oldest (purge t z)))%nat \/
     (z' = z /\ exists x, net c = LostRequest x)).
Proof.
  intros Hc Ht Hz. unfold releaseInflight, run_call. rewrite Hc, Ht.
  destruct (releaseInflightScript_spec r t inflightKey t z Hz) as (r' & _ & Hr & He).
  destruct (net c) as [|x|x]; cbn [run].
  - rewrite Hr. cbn [fst snd]. split; [done|]. eexists. split; [by eapply zset_at_zset_entry|]. by left.
  - cbn [fst snd]. split; [done|]. exists z. split; [done|]. right. by eauto.
  - rewrite Hr. cbn [fst snd]. split; [done|]. eexists. split; [by eapply zset_at_zset_entry|]. by left.
Qed.

(** The leases an [Allow] that fails may leave behind, until they expire: one if the reply
    of its reservation was lost, or the request of its undo. *)
Definition may_leak (e : allow_env) : nat :=
  match net (acquire_call e), net (undo_call e) with
  | LostReply _, _ | _, LostRequest _ => 1
  | _, _ => 0
  end.

(** C13: admission is all or nothing.  Whatever its calls to Redis meet (they happen at one
    instant [t]), an [Allow] either answers true with no error, having added exactly its own
    lease to the live ones, of which there were fewer than the maximum; or answers false
    with an error, with no more live leases than before (one more if the reply of its
    reservation was lost, or the request that undoes it), no outcome counted by the breaker
    and no new half-open probe left active. *)
Theorem Allow_all_or_nothing e player est r l z t :
  breaker_inv (circuit l) ->
  (forall c, c ∈ [budget_call e; acquire_call e; rate_call e; undo_call e] ->
     unix_milli (clock c) = t /\ server_time c = t) ->
  zset_at r t inflightKey = Some z -> scores (fun s => 0 <= s) z -> 0 <= t ->
  let token := member_of (instanceID l) t (memberSerial (next_serial l)) in
  z !! token = None ->
  let '(r', l', (ok, err)) := Allow e player est r l in
  exists z', zset_at r' t inflightKey = Some z' /\
  if (ok : bool) then
    err = None /\ z' = <[token := t + at_least_1ms (inflightTTL l)]> (purge t z) /\
    Z.of_nat (count_gt t z) < maxInflight l /\
    (Circuit.allow (allow_at e).1 (allow_at e).2 (circuit l)) = (circuit l', true)
  else
    is_Some err /\ (count_gt t z' <= count_gt t z + may_leak e)%nat /\
    events (circuit l') = events (circuit l) /\
    (probeActive (circuit l') = true -> circuit l' = circuit l).
Proof.
  intros Hb Hcs Hz Hpos Ht token Hfresh.
  destruct (Hcs (budget_call e)) as [_ Hbt]; [set_solver|].
  destruct (Hcs (acquire_call e)) as [Hac Hat]; [set_solver|].
  destruct (Hcs (rate_call e)) as [_ Hrt]; [set_solver|].
  destruct (Hcs (undo_call e)) as [Huc Hut]; [set_solver|].
  assert (count_gt t z <= count_gt t z + may_leak e)%nat as Hsame by lia.
  unfold Allow. case_bool_decide; [eauto 10|].
  destruct (est <? 0); [eauto 10|]. destruct (negb _); [cbn; eauto 10|].
  pose proof (checkBudget_inflight (budget_call e) (TrimSpace player) est r l t Hbt) as H1b.
  destruct (checkBudget _ _ _ _ _) as [r1 [err|]]; cbn [fst] in H1b;
    assert (zset_at r1 t inflightKey = Some z) as Hz1 by (unfold zset_at; by rewrite H1b).
  { exists z. by case_match. }
  destruct (Circuit.allow (allow_at e).1 (allow_at e).2 (circuit l)) as [c ok] eqn:Ec.
  assert (breaker_inv c) as Hbc.
  { pose proof (allow_inv (allow_at e).1 (allow_at e).2 (circuit l) Hb) as Hi. by rewrite Ec in Hi. }
  pose proof (undone_refused (allow_at e).1 (allow_at e).2 (circuit l)) as Hur. rewrite Ec in Hur.
  pose proof (undone_cancel (allow_at e).1 (allow_at e).2 (circuit l)) as Huk. rewrite Ec in Huk.
  cbn [fst snd] in Hur, Huk.
  assert (breaker_inv (cancelProbe c)) as Hbk by (by apply cancelProbe_inv).
  destruct ok; cbn [negb].
  2: { exists z. split_and!; [done|eauto|done|apply (undone_inv (circuit l) c Hbc); auto..]. }
  pose proof (acquireInflight_at (acquire_call e) r1 (set_circuit c l) z t Hac Hat Hz1 Hpos Ht Hfresh) as Ha.
  destruct (acquireInflight _ _ _) as [[r2 l2] [err|]]; destruct Ha as (Hc2 & Hrl2 & z2 & Hz2 & Ha).
  { exists z2. split; [done|]. cbn in Hc2.
    assert (circuit (if errors_is err ErrInflightFull then inc_limited (set_circuit (cancelProbe (circuit l2)) l2)
                     else set_circuit (cancelProbe (circuit l2)) l2) = cancelProbe c) as ->
      by (case_match; cbn; by rewrite Hc2).
    split_and!; [eauto| |apply (undone_inv (circuit l) _ Hbk); auto..].
    unfold may_leak. unfold leaks in Ha. repeat case_match; lia. }
  destruct Ha as [Hz2' Hlt].
  pose proof (allowRate_inflight (rate_call e) (TrimSpace player) r2 l2 t Hrt) as H1r.
  assert (circuit (allowRate (rate_call e) (TrimSpace player) r2 l2).1.2 = circuit l2) as Hcr
    by (unfold allowRate; repeat case_match; by simplify_eq).
  destruct (allowRate _ _ _ _) as [[r3 l3] [err|]]; cbn [fst snd] in H1r, Hcr;
    assert (zset_at r3 t inflightKey = Some z2) as Hz3 by (unfold zset_at; by rewrite H1r).
  2: { exists z2. split_and!; [done|done|done|done|]. by rewrite Hcr, Hc2. }
  destruct (undo_count t z token (inflightTTL l) Hpos Ht Hfresh) as [Hkept Hgiven].
  assert (z2 = <[token := t + at_least_1ms (inflightTTL l)]> (purge t z)) as Ez2 by exact Hz2'.
  rewrite <- Ez2 in Hkept, Hgiven.
  destruct (releaseInflight_at (undo_call e) r3 l3 z2 t Huc Hut Hz3) as (Hc4 & z4 & Hz4 & Hle).
  destruct (releaseInflight _ _ _) as [[r4 l4] x]; cbn [fst snd] in *.
  exists z4. split; [by destruct (errors_is err ErrRateLimited)|].
  match goal with |- context [circuit ?x] => assert (circuit x = cancelProbe c) as ->
    by (case_match; cbn; by rewrite Hc4, Hcr, Hc2) end.
  split_and!; [eauto| |apply (undone_inv (circuit l) _ Hbk); auto..].
  unfold may_leak. destruct Hle as [Hle|[-> [x' Hx]]]; [lia|]. rewrite Hx. case_match; lia.
Qed.
End Admission.

(** Two requests a minute: a's and b's are let in, c's is refused. *)
Lemma rate_limit_sliding_window_witness :
  let lim := {| limit := 2; window := Minute |} in
  let s0 := {| Window.srv := Keyspace.empty; Window.now := 1000; Window.members := ∅; Window.counted := [] |} in
  let s := (Window.request "p" (Slots.call_at 1000) (Slots.process "bb" 0)
             (Window.request "p" (Slots.call_at 1000) (Slots.process "aa" 0) s0).1).1 in
  Window.reachable lim "p" Keyspace.empty 1000 s /\
  Z.of_nat (Window.in_window (at_least_1ms Minute) 1000 (Window.counted s)) <= 2 /\
  (allowRate (Slots.call_at 1000) "p" (Window.srv s) (Slots.process "cc" 0)).2
    = Some (ESentinel ErrRateLimited).
Proof.
  intros lim s0 s.
  assert (forall id (m : gset string), bool_decide (id ∈ m) = false -> id ∉ m) as Hni
    by (intros id m; by rewrite bool_decide_eq_false).
  assert (Window.reachable lim "p" Keyspace.empty 1000 s) as Hr.
  { eapply Window.reach_step; [eapply Window.reach_step; [by apply Window.reach_init|]|].
    - apply (Window.step_request lim "p" s0 (Slots.call_at 1000) (Slots.process "aa" 0));
        [reflexivity..|]. apply Hni. vm_compute. reflexivity.
    - apply (Window.step_request lim "p" _ (Slots.call_at 1000) (Slots.process "bb" 0));
        [reflexivity..|]. apply Hni. vm_compute. reflexivity. }
  split; [done|].
  destruct (Window.rate_limit_sliding_window lim "p" Keyspace.empty 1000 s ltac:(done) Hr) as [Hb Ha].
  split; [apply Hb|].
  rewrite (Ha (Slots.call_at 1000) (Slots.process "cc" 0)); [reflexivity..|].
  apply Hni. vm_compute. reflexivity.
Defined.

(** An [Allow] by a fresh process at 1 s. *)
Lemma Allow_all_or_nothing_witness :
  let e := {| ready_at := Second; budget_call := Slots.call_at 1000; allow_at := (Second, Second);
              acquire_call := Slots.call_at 1000; rate_call := Slots.call_at 1000;
              undo_call := Slots.call_at 1000 |} in
  exists z', zset_at (Allow (R := Keyspace.state) e "p" 0 Keyspace.empty (Slots.process "aa" 0)).1.1
               1000 inflightKey = Some z' /\
    z' = <["aa:1000:1" := 1100]> (purge 1000 ∅).
Proof.
  intros e.
  assert (breaker_inv (circuit (Slots.process "aa" 0))) as Hb.
  { split; cbn; try done. }
  pose proof (Allow_all_or_nothing (R := Keyspace.state) e "p" 0 Keyspace.empty (Slots.process "aa" 0) ∅ 1000
                Hb) as H.
  destruct (Allow e "p" 0 Keyspace.empty (Slots.process "aa" 0)) as [[r' l'] [ok err]] eqn:E.
  assert (ok = true) as ->.
  { apply (f_equal (fun x => x.2.1)) in E. vm_compute in E. done. }
  destruct H as (z' & Hz & _ & Hz' & _).
  - intros c Hc. repeat (apply elem_of_cons in Hc as [->|Hc]; [split; reflexivity|]).
    by apply elem_of_nil in Hc.
  - reflexivity.
  - by intros m s Hm.
  - done.
  - reflexivity.
  - exists z'. split; [exact Hz|]. rewrite Hz'. reflexivity.
Defined.
