(* ===== verification/ContextAsm.v ===== *)
(** * internal/context/context.go: the inputs of a request

    Providers are parameters; what a context reports at each check and the order in which
    Go ranges over a map are too.  Log output is not modelled. *)

From S2P Require Import Prelude GoNum GoErr.

Definition VarPlayerLevel : string := "player_level".
Definition VarCurrentQuest : string := "current_quest".
Definition VarAffinity : string := "affinity".
Definition VarScene : string := "scene".
Definition VarRecentEvents : string := "recent_events".

Definition DefaultContract : list string :=
  [VarPlayerLevel; VarCurrentQuest; VarAffinity; VarScene; VarRecentEvents].

Record Provider := {
  Name : string;
  Fetch : string -> string -> res error (gmap string string)
}.

(** [ProviderFunc]. *)
Definition provider_func (name : string)
    (f : string -> string -> res error (gmap string string)) : Provider :=
  {| Name := name; Fetch := f |}.

Record Assembler := { providers : list Provider; allowed : gset string }.

Definition New (contract : list string) (ps : list Provider) : Assembler :=
  {| providers := ps; allowed := foldl (fun s k => {[k]} ∪ s) ∅ contract |}.

Section Build.
(** [ctx.Err()] at the i-th check, and the order of the i-th [range]. *)
Context (ctx_err : nat -> option error).
Context (range : nat -> gmap string string -> list (string * string)).

Definition admit_vals (allowed : gset string) (kvs : list (string * string))
    (inputs : gmap string string) : gmap string string :=
  foldl (fun inputs kv => if bool_decide (kv.1 ∈ allowed) then <[kv.1 := kv.2]> inputs else inputs)
    inputs kvs.

Fixpoint Build_loop (allowed : gset string) (i : nat) (ps : list Provider) (playerID npcID : string)
    (inputs : gmap string string) : gmap string string * option error :=
  match ps with
  | [] => (inputs, None)
  | p :: ps =>
      match ctx_err i with
      | Some err => (inputs, Some err)
      | None =>
          match Fetch p playerID npcID with
          | Err _ => Build_loop allowed (S i) ps playerID npcID inputs
          | Ok vals =>
              Build_loop allowed (S i) ps playerID npcID (admit_vals allowed (range i vals) inputs)
          end
      end
  end.

Definition Build (a : Assembler) (playerID npcID : string) : gmap string string * option error :=
  Build_loop (allowed a) 0 (providers a) playerID npcID ∅.

(** ** Lemmas *)

Lemma allowed_contract contract ps k : k ∈ allowed (New contract ps) <-> k ∈ contract.
Proof.
  cbn. assert (forall s, k ∈ foldl (fun s k => {[k]} ∪ s) s contract <-> k ∈ contract \/ k ∈ (s : gset string))
    as Hf; [|rewrite Hf; set_solver].
  induction contract as [|c contract IH]; intros s; cbn; [set_solver|]. rewrite IH. set_solver.
Qed.

(** Admitting a map, in whatever order, overrides the admitted keys with its values. *)
Lemma admit_vals_lookup allowed (kvs : list (string * string)) inputs k :
  NoDup (kvs.*1) ->
  admit_vals allowed kvs inputs !! k =
    if bool_decide (k ∈ allowed) then
      match (list_to_map kvs : gmap string string) !! k with Some v => Some v | None => inputs !! k end
    else inputs !! k.
Proof.
  revert inputs. induction kvs as [|[k' v'] kvs IH]; intros inputs Hnd; cbn.
  { rewrite lookup_empty. by case_bool_decide. }
  apply NoDup_cons in Hnd as [Hk' Hnd]. unfold admit_vals in IH |- *. cbn. rewrite IH by done.
  destruct (decide (k = k')) as [->|Hne].
  - rewrite lookup_insert_eq. change ((k', v').1) with k' in Hk'.
    apply not_elem_of_list_to_map_1 in Hk' as ->.
    case_bool_decide; [by rewrite lookup_insert_eq|done].
  - rewrite lookup_insert_ne by done. repeat case_bool_decide; try done; by rewrite lookup_insert_ne.
Qed.

Context (range_perm : forall i m, range i m ≡ₚ map_to_list m).

Lemma admit_range allowed i vals inputs k :
  admit_vals allowed (range i vals) inputs !! k =
    if bool_decide (k ∈ allowed) then
      match vals !! k with Some v => Some v | None => inputs !! k end
    else inputs !! k.
Proof.
  assert (NoDup (range i vals).*1) as Hnd
    by (rewrite range_perm; apply NoDup_fst_map_to_list).
  rewrite admit_vals_lookup by done.
  by rewrite (list_to_map_proper _ _ Hnd (range_perm i vals)), list_to_map_to_list.
Qed.

(** What provider [p] offers for [k]. *)
Definition offer (playerID npcID k : string) (p : Provider) : option string :=
  match Fetch p playerID npcID with Ok vals => vals !! k | Err _ => None end.


Lemma Build_loop_spec a i ps player npc inputs :
  let '(m, err) := Build_loop a i ps player npc inputs in
  exists n, (n <= length ps)%nat /\
    (forall j, (j < n)%nat -> ctx_err (i + j) = None) /\
    ((n = length ps /\ err = None) \/
     ((n < length ps)%nat /\ is_Some (ctx_err (i + n)) /\ err = ctx_err (i + n))) /\
    forall k, m !! k =
      if bool_decide (k ∈ a) then
        match last (omap (offer player npc k) (take n ps)) with Some v => Some v | None => inputs !! k end
      else inputs !! k.
Proof.
  revert i inputs. induction ps as [|p ps IH]; intros i inputs; cbn [Build_loop].
  { exists 0%nat. split_and!; [done|lia|by left|]. intros k. by case_bool_decide. }
  destruct (ctx_err i) as [e|] eqn:Ee.
  { exists 0%nat. rewrite Nat.add_0_r, Ee. split_and!; [cbn; lia|lia|right; cbn; split_and!; eauto; lia|].
    intros k. by case_bool_decide. }
  assert (forall inputs', (forall k, inputs' !! k = if bool_decide (k ∈ a) then
              match offer player npc k p with Some v => Some v | None => inputs !! k end else inputs !! k) ->
    let '(m, err) := Build_loop a (S i) ps player npc inputs' in
    exists n, (n <= length (p :: ps))%nat /\
    (forall j, (j < n)%nat -> ctx_err (i + j) = None) /\
    ((n = length (p :: ps) /\ err = None) \/
     ((n < length (p :: ps))%nat /\ is_Some (ctx_err (i + n)) /\ err = ctx_err (i + n))) /\
    forall k, m !! k =
      if bool_decide (k ∈ a) then
        match last (omap (offer player npc k) (take n (p :: ps))) with
        | Some v => Some v | None => inputs !! k end
      else inputs !! k) as Hstep.
  { intros inputs' Hin. specialize (IH (S i) inputs').
    destruct (Build_loop a (S i) ps player npc inputs') as [m err].
    destruct IH as (n & Hn & Hj & He & Hm). exists (S n).
    replace (i + S n)%nat with (S i + n)%nat by lia. split_and!; [cbn; lia| | |].
    - intros [|j] Hlt; [by rewrite Nat.add_0_r|].
      replace (i + S j)%nat with (S i + j)%nat by lia. apply Hj. lia.
    - destruct He as [[-> ->]|(? & ? & ->)]; [by left|right]. split_and!; [cbn; lia|done|done].
    - intros k. rewrite Hm, Hin. case_bool_decide; [|done]. cbn [take omap list_omap].
      destruct (offer player npc k p) as [v|]; [|done].
      rewrite last_cons. by destruct (last (omap _ _)). }
  unfold offer in Hstep at 1. destruct (Fetch p player npc) as [vals|e].
  - apply Hstep. intros k. apply admit_range.
  - apply Hstep. intros k. by case_bool_decide.
Qed.

(** C37: the inputs are exactly the contract's variables: whatever the providers return
    and in whatever order their maps are ranged over, a key outside the contract is never
    there, and a contract key has the value of the last provider, among those queried, that
    succeeded and had it; a failing provider is skipped; the build fails only when the
    context ends, with the context's error. *)
Theorem Build_inputs contract ps player npc :
  let '(m, err) := Build (New contract ps) player npc in
  exists n, (n <= length ps)%nat /\
    (forall j, (j < n)%nat -> ctx_err j = None) /\
    ((n = length ps /\ err = None) \/
     ((n < length ps)%nat /\ is_Some (ctx_err n) /\ err = ctx_err n)) /\
    forall k, m !! k =
      if bool_decide (k ∈ contract) then last (omap (offer player npc k) (take n ps)) else None.
Proof.
  unfold Build. pose proof (Build_loop_spec (allowed (New contract ps)) 0 ps player npc ∅) as H.
  cbn [providers New]. destruct (Build_loop _ _ _ _ _ _) as [m err].
  destruct H as (n & Hn & Hj & He & Hm). exists n. split_and!; [done|done|done|].
  intros k. rewrite Hm, lookup_empty, (bool_decide_ext _ _ (allowed_contract contract ps k)).
  case_bool_decide; [|done]. by destruct (last _).
Qed.
End Build.

(** A failing provider, one that sets a control variable too, and a later one. *)
Lemma Build_inputs_witness :
  let ps := [provider_func "quest" (fun _ _ => Err (EText "down"));
             provider_func "state" (fun _ _ => Ok {[ VarScene := "inn"; "system_prompt" := "x" ]});
             provider_func "scene" (fun _ _ => Ok {[ VarScene := "forest" ]})] in
  let m := (Build (fun _ => None) (fun _ => map_to_list) (New DefaultContract ps) "p" "n").1 in
  m !! VarScene = Some "forest" /\ m !! "system_prompt" = None.
Proof.
  intros ps m.
  pose proof (Build_inputs (fun _ => None) (fun _ => map_to_list) (fun _ _ => Permutation_refl _)
                DefaultContract ps "p" "n") as H.
  subst m. destruct (Build _ _ _ _ _) as [m err]. destruct H as (n & _ & _ & He & Hm).
  assert (n = 3%nat) as -> by (destruct He as [[-> _]|(_ & [? [=]] & _)]; done).
  rewrite !Hm. split; vm_compute; reflexivity.
Defined.
