(* ===== verification/Pipeline.v ===== *)
(** * internal/pipeline/handler.go: the life of a chat request

    The handler is a program that performs effects: calls of its dependencies (limiter,
    store, context assembler, Dify client), reads of the request context, frames sent and
    counters incremented.  [M] is the monad of such programs; a run is the list of the
    effects performed with the answers they got, the answers being those of an arbitrary
    environment that may look at everything done so far.  So a theorem about every
    environment covers every interleaving with other requests, every fault and every
    cancellation.

    [ChatStream] answers with a [stream]: the callbacks it makes, one after the other, each
    continuation told whether the handler has cancelled the stream's context, then its
    result.  The moderator is a pure function.  Latency histograms and log lines are not
    modelled. *)

From S2P Require Import Prelude GoNum GoStrings GoErr Proto Auth Moderation Sse.

(** ** Effects *)

Inductive stream :=
| Finish (r : ChatResult) (err : option error)
| Callback (c : callback) (k : bool -> stream).

(** [detached]: the call runs on a context that the end of the request does not cancel. *)
Inductive eff : Type -> Type :=
| Limiter_Allow (playerID : string) (est : Z) : eff (bool * option error)
| Limiter_Record (detached : bool) (playerID : string) (tokens : Z) : eff (option error)
| Limiter_RecordFailure (detached : bool) : eff (option error)
| Limiter_Release (detached : bool) : eff (option error)
| Store_Get (playerID npcID : string) : eff (res error string)
| Store_Set (detached : bool) (playerID npcID convID : string) (ttl : Z) : eff (option error)
| Store_Delete (playerID npcID : string) : eff (option error)
| Store_Lock (playerID npcID : string) (ttl : Z) : eff (res error nat)
| Store_Unlock (lock : nat) : eff unit
| Context_Build (playerID npcID : string) : eff (gmap string string * option error)
| Dify_ChatStream (req : ChatReq) : eff stream
| Dify_Stop (detached : bool) (taskID user : string) : eff (option error)
| Ctx_Canceled : eff bool
| Ctx_UntilDeadline : eff (option Z)
| Send_Frame (env : ServerEnvelope) : eff (option error)
| Count_Request (status : string) : eff unit
| Count_Tokens (n : Z) : eff unit.

Inductive event := Ev (X : Type) (e : eff X) (x : X).
Arguments Ev {X} e x.

(** The answers, given what has happened. *)
Definition environment : Type := forall X, list event -> eff X -> X.

(** A program: from what has happened to what it does and returns. *)
Definition M (A : Type) : Type := environment -> list event -> list event * A.

Definition ret {A} (a : A) : M A := fun _ _ => ([], a).
Definition bind {A B} (m : M A) (k : A -> M B) : M B := fun env h =>
  let '(l1, a) := m env h in
  let '(l2, b) := k a env (h ++ l1) in (l1 ++ l2, b).
Definition perform {X} (e : eff X) : M X := fun env h =>
  let x := env X h e in ([Ev e x], x).

Declare Scope eff_scope.
Delimit Scope eff_scope with eff.
Notation "'let!' x := m 'in' k" := (bind m (fun x => k))
  (at level 10, x pattern, m at level 100, k at level 200) : eff_scope.
Notation "m ;; k" := (bind m (fun _ => k)) (at level 100, right associativity) : eff_scope.
#[local] Open Scope eff_scope.

(** ** Envelopes and error codes *)

Definition chunk (requestID delta : string) : ServerEnvelope :=
  Server_Chunk {| CC_RequestId := requestID; CC_Delta := delta |}.

Definition done (requestID conversationID : string) (totalTokens : Z) : ServerEnvelope :=
  let totalTokens := if totalTokens <? 0 then 0 else totalTokens in
  Server_Done {| CD_RequestId := requestID; CD_ConversationId := conversationID;
                 CD_TotalTokens := wrap_uint32 totalTokens |}.

Definition errorMsg (requestID code message : string) : ServerEnvelope :=
  Server_Error {| EM_RequestId := requestID; EM_Code := code; EM_Message := message |}.

Definition blockedEnvelope (requestID fallback : string) : ServerEnvelope :=
  Server_Blocked {| CB_RequestId := requestID; CB_Fallback := fallback |}.

Definition blocked (requestID fallback : string) : ServerEnvelope := blockedEnvelope requestID fallback.

Definition clientErrorCode (err : error) : string :=
  if errors_is err ErrRateLimited || errors_is err ErrBudgetExceeded ||
     errors_is err ErrInflightFull || errors_is err ErrCircuitOpen
  then "RATE_LIMITED"
  else if errors_is err CtxDeadlineExceeded then "UPSTREAM_TIMEOUT"
  else
    match as_upstream err with
    | Some u =>
        if StatusCode u =? 429 then "RATE_LIMITED"
        else if (StatusCode u =? 504) || (StatusCode u =? 408) then "UPSTREAM_TIMEOUT"
        else "UPSTREAM_ERROR"
    | None =>
        match as_stream err with
        | Some s => if EqualFold_ascii (SE_Code s) "rate_limited" then "RATE_LIMITED" else "UPSTREAM_ERROR"
        | None => "UPSTREAM_ERROR"
        end
    end.

Definition clientErrorMessage (err : error) : string :=
  let code := clientErrorCode err in
  if bool_decide (code = "RATE_LIMITED") then "rate limited"
  else if bool_decide (code = "UPSTREAM_TIMEOUT") then "upstream timeout"
  else if bool_decide (code = "BAD_REQUEST") then "bad request"
  else "upstream error".

Definition messageReplace (err : error) : string * bool :=
  match as_replace err with Some r => (Fallback r, true) | None => ("", false) end.

Definition userID (playerID npcID : string) : string := playerID +:+ ":" +:+ npcID.

Definition maxQueryRunes : nat := 4096.

(** The counting loop of [queryTooLong] over the runes left. *)
Fixpoint too_long_loop (rs : list Z) (count : nat) : bool :=
  match rs with
  | [] => false
  | _ :: rs => if (maxQueryRunes <? S count)%nat then true else too_long_loop rs (S count)
  end.
Definition queryTooLong (query : string) : bool := too_long_loop (runes query) 0.

(** ** The handler *)

Definition defaultConversationTTL : Z := 24 * Hour.
Definition defaultConversationLockTTL : Z := 15 * Second.

(** [has_...]: the dependency was given (the interface is not nil). *)
Record Handler := {
  has_auth : bool;
  has_limiter : bool;
  has_store : bool;
  has_context : bool;
  has_dify : bool;
  moderator : Moderator;
  conversationTTL : Z;
  conversationLockTTL : Z
}.

Record HandlerConfig := {
  cfg_auth : bool;
  cfg_limiter : bool;
  cfg_store : bool;
  cfg_context : bool;
  cfg_dify : bool;
  cfg_moderator : option Moderator;
  ConversationTTL : Z;
  ConversationLockTTL : Z
}.

Definition New (cfg : HandlerConfig) : Handler := {|
  has_auth := cfg_auth cfg;
  has_limiter := cfg_limiter cfg;
  has_store := cfg_store cfg;
  has_context := cfg_context cfg;
  has_dify := cfg_dify cfg;
  moderator := match cfg_moderator cfg with Some m => m | None => AllowAll end;
  conversationTTL := if ConversationTTL cfg =? 0 then defaultConversationTTL else ConversationTTL cfg;
  conversationLockTTL :=
    if ConversationLockTTL cfg =? 0 then defaultConversationLockTTL else ConversationLockTTL cfg
|}.

Definition ready (h : Handler) : option error :=
  if negb (has_limiter h) then Some (EText "limiter is nil")
  else if negb (has_store h) then Some (EText "store is nil")
  else if negb (has_context h) then Some (EText "context assembler is nil")
  else if negb (has_dify h) then Some (EText "dify client is nil")
  else None.

Definition Authenticate (h : Handler) (verify : string -> res error string) (sess : Session)
    (req : AuthRequest) : Session * (bool * string) :=
  if negb (has_auth h) then (sess, (false, "authenticator unavailable"))
  else BindSession verify sess (SessionToken req).

Section Handle.
(** [send] is the function the frames go to, possibly nil. *)
Context (h : Handler) (has_send : bool).

Definition send (env : ServerEnvelope) : M unit :=
  if has_send then let! _ := perform (Send_Frame env) in ret tt else ret tt.

(** A frame and its counter. *)
Definition answer (env : ServerEnvelope) (status : string) : M unit :=
  send env ;; perform (Count_Request status).

Definition recordSuccess (playerID : string) (tokens : Z) : M (option error) :=
  perform (Limiter_Record true playerID tokens).

Definition recordFailure : M unit := let! _ := perform (Limiter_RecordFailure true) in ret tt.

Definition releaseSlot : M unit := let! _ := perform (Limiter_Release true) in ret tt.

Definition persistConversation (playerID npcID convID : string) : M unit :=
  if bool_decide (convID = "") then ret tt
  else let! _ := perform (Store_Set true playerID npcID convID (conversationTTL h)) in ret tt.

Definition stopUpstream (taskID user : string) : M unit :=
  if bool_decide (taskID = "") then ret tt
  else let! _ := perform (Dify_Stop true taskID user) in ret tt.

(** The lock's TTL: to a second past the deadline, if that is longer. *)
Definition lock_ttl (until_deadline : option Z) : Z :=
  match until_deadline with
  | Some d => let u := wrap_int64 (d + Second) in
              if conversationLockTTL h <? u then u else conversationLockTTL h
  | None => conversationLockTTL h
  end.

(** The conversation id and, when it returns one, the lock to release. *)
Definition resolveConversation (playerID npcID clientConvID : string) :
    M (res error string * option nat) :=
  let! stored := perform (Store_Get playerID npcID) in
  match stored with
  | Err err => ret (Err err, None)
  | Ok conversationID =>
      if negb (bool_decide (conversationID = "")) then ret (Ok conversationID, None)
      else
        let trimmed := TrimSpace clientConvID in
        if negb (bool_decide (trimmed = "")) then ret (Ok trimmed, None)
        else
          let! deadline := perform Ctx_UntilDeadline in
          let! lock := perform (Store_Lock playerID npcID (lock_ttl deadline)) in
          match lock with
          | Err err => ret (Err err, None)
          | Ok unlock =>
              let! stored := perform (Store_Get playerID npcID) in
              match stored with
              | Err err => perform (Store_Unlock unlock) ;; ret (Err err, None)
              | Ok conversationID =>
                  if negb (bool_decide (conversationID = ""))
                  then perform (Store_Unlock unlock) ;; ret (Ok conversationID, None)
                  else ret (Ok conversationID, Some unlock)
              end
          end
  end.

(** The variables the callbacks share. *)
Record stream_vars := { outputBlocked : bool; filter_ : OutputFilter; taskID : string }.

Definition start_vars : stream_vars :=
  {| outputBlocked := false; filter_ := NewOutputFilter; taskID := "" |}.

Definition set_task (t : string) (v : stream_vars) : stream_vars :=
  {| outputBlocked := outputBlocked v; filter_ := filter_ v; taskID := t |}.

(** [onDelta]: the variables and whether the stream's context is cancelled. *)
Definition onDelta (reqID delta : string) (v : stream_vars) (cancelled : bool) :
    M (stream_vars * bool) :=
  if outputBlocked v then ret (v, cancelled)
  else
    let '(f, (emit, blocked, fallback)) := Push (moderator h) delta (filter_ v) in
    if (blocked : bool) then
      answer (blockedEnvelope reqID fallback) "blocked" ;;
      ret ({| outputBlocked := true; filter_ := f; taskID := taskID v |}, true)
    else
      let v := {| outputBlocked := false; filter_ := f; taskID := taskID v |} in
      if negb (bool_decide (emit = "")) then send (chunk reqID emit) ;; ret (v, cancelled)
      else ret (v, cancelled).

Fixpoint run_stream (reqID : string) (s : stream) (v : stream_vars) (cancelled : bool) :
    M (stream_vars * (ChatResult * option error)) :=
  match s with
  | Finish r err => ret (v, (r, err))
  | Callback (OnEvent t _) k => run_stream reqID (k cancelled) (set_task t v) cancelled
  | Callback (OnDelta d) k =>
      let! (v, cancelled) := onDelta reqID d v cancelled in
      run_stream reqID (k cancelled) v cancelled
  end.

(** After a stream that returned an error. *)
Definition finish_error (reqID playerID npcID : string) (v : stream_vars) (result : ChatResult)
    (err : error) : M unit :=
  let '(replace, ok) := messageReplace err in
  if (ok : bool) then
    let! _ := recordSuccess playerID (R_TotalTokens result) in
    answer (blocked reqID replace) "blocked"
  else if outputBlocked v then
    let! _ := recordSuccess playerID (R_TotalTokens result) in ret tt
  else
    let! canceled := perform Ctx_Canceled in
    if (canceled : bool) then
      stopUpstream (taskID v) (userID playerID npcID) ;;
      releaseSlot ;;
      persistConversation playerID npcID (R_ConversationID result) ;;
      answer (done reqID (R_ConversationID result) (R_TotalTokens result)) "stopped"
    else
      recordFailure ;;
      answer (errorMsg reqID (clientErrorCode err) (clientErrorMessage err)) "error".

(** The held back output and the last frame. *)
Definition flush_and_done (reqID : string) (v : stream_vars) (result : ChatResult) : M unit :=
  let '(_, (emit, blocked, fallback)) := Flush (moderator h) (filter_ v) in
  if (blocked : bool) then answer (blockedEnvelope reqID fallback) "blocked"
  else
    (if negb (bool_decide (emit = "")) then send (chunk reqID emit) else ret tt) ;;
    answer (done reqID (R_ConversationID result) (R_TotalTokens result)) "ok".

(** After a stream that completed. *)
Definition finish_ok (reqID playerID npcID : string) (v : stream_vars) (result : ChatResult) : M unit :=
  let! err := recordSuccess playerID (R_TotalTokens result) in
  match err with
  | Some _ => answer (errorMsg reqID "INTERNAL" "usage accounting failed") "error"
  | None =>
      (if 0 <? R_TotalTokens result then perform (Count_Tokens (R_TotalTokens result)) else ret tt) ;;
      let! set :=
        if negb (bool_decide (R_ConversationID result = ""))
        then perform (Store_Set false playerID npcID (R_ConversationID result) (conversationTTL h))
        else ret None in
      match set with
      | Some _ => answer (errorMsg reqID "INTERNAL" "conversation state unavailable") "error"
      | None => if outputBlocked v then ret tt else flush_and_done reqID v result
      end
  end.

(** The upstream call, once everything before it has passed. *)
Definition converse (reqID playerID npcID query conversationID : string)
    (inputs : gmap string string) : M unit :=
  let! s := perform (Dify_ChatStream
    {| Query := query; Inputs := Some inputs; User := userID playerID npcID;
       ConversationID := conversationID; Files := []; AutoGenerateName := None |}) in
  let! (v, (result, err)) := run_stream reqID s start_vars false in
  match err with
  | Some err => finish_error reqID playerID npcID v result err
  | None => finish_ok reqID playerID npcID v result
  end.

(** From the resolved conversation on; the deferred unlock is in [HandleChat]. *)
Definition with_conversation (reqID playerID npcID query : string) (conv : res error string) : M unit :=
  match conv with
  | Err _ =>
      let! _ := recordSuccess playerID 0 in
      answer (errorMsg reqID "INTERNAL" "conversation state unavailable") "error"
  | Ok conversationID =>
      let! (inputs, err) := perform (Context_Build playerID npcID) in
      match err with
      | Some _ =>
          let! _ := recordSuccess playerID 0 in
          answer (errorMsg reqID "INTERNAL" "context unavailable") "error"
      | None =>
          let '(ok, fallback) := CheckInput (moderator h) query in
          if negb ok then
            let! _ := recordSuccess playerID 0 in
            answer (blocked reqID fallback) "blocked"
          else converse reqID playerID npcID query conversationID inputs
      end
  end.

Definition HandleChat (sess : Session) (req : ChatRequest) : M unit :=
  let reqID := Chat_RequestId req in
  let playerID := PlayerID sess in
  let npcID := TrimSpace (Chat_NpcId req) in
  let query := TrimSpace (Chat_Query req) in
  if bool_decide (npcID = "")
  then answer (errorMsg reqID "BAD_REQUEST" "npc_id is required") "bad_request"
  else if bool_decide (query = "")
  then answer (errorMsg reqID "BAD_REQUEST" "query is required") "bad_request"
  else if queryTooLong query
  then answer (errorMsg reqID "BAD_REQUEST" "query is too long") "bad_request"
  else
    match ready h with
    | Some _ => answer (errorMsg reqID "INTERNAL" "gateway is not ready") "error"
    | None =>
        let! (ok, err) := perform (Limiter_Allow playerID 0) in
        match err, ok with
        | None, true =>
            let! (conv, unlock) :=
              resolveConversation playerID npcID (Chat_ConversationId req) in
            with_conversation reqID playerID npcID query conv ;;
            match unlock with
            | Some lock => perform (Store_Unlock lock)
            | None => ret tt
            end
        | _, _ =>
            let err := match err with Some e => e | None => ESentinel ErrRateLimited end in
            answer (errorMsg reqID (clientErrorCode err) (clientErrorMessage err)) "rate_limited"
        end
    end.

Definition HandleReset (sess : Session) (req : ResetRequest) : M unit :=
  let reqID := Reset_RequestId req in
  let npcID := TrimSpace (Reset_NpcId req) in
  if bool_decide (npcID = "")
  then answer (errorMsg reqID "BAD_REQUEST" "npc_id is required") "bad_request"
  else if negb (has_store h)
  then answer (errorMsg reqID "INTERNAL" "gateway is not ready") "error"
  else
    let! err := perform (Store_Delete (PlayerID sess) npcID) in
    match err with
    | Some _ => answer (errorMsg reqID "INTERNAL" "conversation reset failed") "error"
    | None => answer (done reqID "" 0) "ok"
    end.
End Handle.
