(* ===== verification/PipelineTheory.v ===== *)
(** * What every run of the chat handler does

    Projections of a run (the frames sent, the limiter's slot, the conversation and its
    lock, the upstream call) and theorems about them for every environment.  [holds] is
    the program logic: a property of the effects performed and the result, whatever the
    answers. *)

From S2P Require Import Prelude GoNum GoStrings GoErr Proto Auth Moderation Sse Pipeline.

(** ** The program logic *)

Definition holds {A} (m : M A) (P : list event -> A -> Prop) : Prop :=
  forall env h, P (m env h).1 (m env h).2.

Lemma holds_ret {A} (a : A) P : P [] a -> holds (ret a) P.
Proof. by intros HP env h. Qed.

Lemma holds_perform {X} (e : eff X) P : (forall x, P [Ev e x] x) -> holds (perform e) P.
Proof. intros HP env h. apply HP. Qed.

Lemma holds_bind {A B} (m : M A) (k : A -> M B) P :
  holds m (fun l1 a => holds (k a) (fun l2 b => P (l1 ++ l2) b)) -> holds (bind m k) P.
Proof.
  intros Hm env h. unfold bind. specialize (Hm env h).
  destruct (m env h) as [l1 a]. cbn in Hm. specialize (Hm env (h ++ l1)).
  by destruct (k a env (h ++ l1)).
Qed.

Lemma holds_mono {A} (m : M A) (P Q : list event -> A -> Prop) :
  holds m P -> (forall l a, P l a -> Q l a) -> holds m Q.
Proof. intros HP HPQ env h. apply HPQ, HP. Qed.

Lemma holds_and {A} (m : M A) (P Q : list event -> A -> Prop) :
  holds m P -> holds m Q -> holds m (fun l a => P l a /\ Q l a).
Proof. intros HP HQ env h. split; [apply HP|apply HQ]. Qed.

(** Runs a straight-line program symbolically. *)
Ltac run_step :=
  match goal with
  | |- holds (ret _) _ => apply holds_ret
  | |- holds (bind _ _) _ => apply holds_bind
  | |- holds (perform _) _ => apply holds_perform; intros ?
  | |- holds (let '(_, _) := ?x in _) _ => destruct x eqn:?
  | |- holds (match ?x with _ => _ end) _ => destruct x eqn:?
  end.
Ltac run := repeat (run_step; cbv beta).

(** ** Projections *)

(** The frames a run sends. *)
Definition frame_of (ev : event) : option ServerEnvelope :=
  match ev with
  | Ev e _ => match e with Send_Frame f => Some f | _ => None end
  end.
Definition frames (l : list event) : list ServerEnvelope := omap frame_of l.

(** The statuses it counts. *)
Definition status_of (ev : event) : option string :=
  match ev with
  | Ev e _ => match e with Count_Request s => Some s | _ => None end
  end.
Definition statuses (l : list event) : list string := omap status_of l.

(** The limiter's slot and the upstream call. *)
Inductive settlement := AsSuccess (playerID : string) (tokens : Z) | AsFailure | AsNeither.

Inductive slot_step := Granted (playerID : string) | Upstream | Settled (detached : bool) (s : settlement).

Definition slot_step_of (ev : event) : option slot_step :=
  match ev with
  | @Ev X e x =>
      match e in eff X return X -> option slot_step with
      | Limiter_Allow p _ => fun x => match x with (true, None) => Some (Granted p) | _ => None end
      | Dify_ChatStream _ => fun _ => Some Upstream
      | Limiter_Record d p n => fun _ => Some (Settled d (AsSuccess p n))
      | Limiter_RecordFailure d => fun _ => Some (Settled d AsFailure)
      | Limiter_Release d => fun _ => Some (Settled d AsNeither)
      | _ => fun _ => None
      end x
  end.
Definition slot_steps (l : list event) : list slot_step := omap slot_step_of l.

(** The conversation of [player] with [npc]: what the store says, the lock, the id used
    and the id stored; a call about anyone else is [Foreign]. *)
Inductive conv_step :=
| Stored (r : res error string)
| Locked (r : res error nat)
| Unlocked (lock : nat)
| Used (convID : string)
| Kept (convID : string)
| Foreign.

Definition conv_step_of (player npc : string) (ev : event) : option conv_step :=
  let own p n (s : conv_step) := Some (if bool_decide (p = player /\ n = npc) then s else Foreign) in
  match ev with
  | @Ev X e x =>
      match e in eff X return X -> option conv_step with
      | Store_Get p n => fun x => own p n (Stored x)
      | Store_Lock p n _ => fun x => own p n (Locked x)
      | Store_Unlock k => fun _ => Some (Unlocked k)
      | Dify_ChatStream req => fun _ =>
          Some (if bool_decide (User req = userID player npc) then Used (ConversationID req) else Foreign)
      | Store_Set _ p n c _ => fun _ => own p n (Kept c)
      | Store_Delete p n => fun _ => Some Foreign
      | _ => fun _ => None
      end x
  end.
Definition conv_steps (player npc : string) (l : list event) : list conv_step :=
  omap (conv_step_of player npc) l.

(** The mappings deleted. *)
Definition reset_of (ev : event) : option (string * string * bool) :=
  match ev with
  | @Ev X e x =>
      match e in eff X return X -> option (string * string * bool) with
      | Store_Delete p n => fun x => Some (p, n, match x with None => true | Some _ => false end)
      | _ => fun _ => None
      end x
  end.

(** Frames and counters are all that streaming does. *)
Definition quiet (ev : event) : Prop :=
  match ev with
  | Ev e _ => match e with Send_Frame _ | Count_Request _ => True | _ => False end
  end.

Lemma slot_steps_app l k : slot_steps (l ++ k) = slot_steps l ++ slot_steps k.
Proof. apply omap_app. Qed.
Lemma conv_steps_app p n l k : conv_steps p n (l ++ k) = conv_steps p n l ++ conv_steps p n k.
Proof. apply omap_app. Qed.
Lemma frames_app l k : frames (l ++ k) = frames l ++ frames k.
Proof. apply omap_app. Qed.
Lemma statuses_app l k : statuses (l ++ k) = statuses l ++ statuses k.
Proof. apply omap_app. Qed.

Lemma quiet_nothing l : Forall quiet l ->
  slot_steps l = [] /\ forall p n, conv_steps p n l = [].
Proof.
  induction 1 as [|[X e x] l He _ [IH1 IH2]]; [done|].
  split; [|intros p n]; destruct e; try done; first [exact IH1|exact (IH2 p n)].
Qed.

(** ** Streaming *)

Section Stream.
Context (h : Handler) (has_send : bool).

Lemma send_quiet f : holds (send has_send f) (fun l _ => Forall quiet l).
Proof. unfold send. run; repeat constructor. Qed.

Lemma answer_quiet f s : holds (answer has_send f s) (fun l _ => Forall quiet l).
Proof.
  unfold answer. apply holds_bind. eapply holds_mono; [apply send_quiet|]. intros l ? Hl.
  run. apply Forall_app_2; [done|]. repeat constructor.
Qed.

Lemma onDelta_quiet reqID d v c : holds (onDelta h has_send reqID d v c) (fun l _ => Forall quiet l).
Proof.
  unfold onDelta. run; try constructor.
  - eapply holds_mono; [apply answer_quiet|]. intros l ? Hl. run. by rewrite app_nil_r.
  - eapply holds_mono; [apply send_quiet|]. intros l' ? Hl. run. by rewrite app_nil_r.
Qed.

Lemma run_stream_quiet reqID s v c :
  holds (run_stream h has_send reqID s v c) (fun l _ => Forall quiet l).
Proof.
  revert v c. induction s as [r err|cb k IH]; intros v c; cbn [run_stream].
  { apply holds_ret. constructor. }
  destruct cb as [t cv|d]; [apply IH|].
  apply holds_bind. eapply holds_mono; [apply onDelta_quiet|]. intros l [v' c'] Hl.
  eapply holds_mono; [apply IH|]. intros l' ? Hl'. by apply Forall_app_2.
Qed.
End Stream.

(** Symbolic execution with the sends and the stream summarised as quiet. *)
Ltac run_quiet :=
  repeat first
    [ match goal with
      | |- holds (send _ _) _ => eapply holds_mono; [apply send_quiet|cbv beta]
      | |- holds (answer _ _ _) _ => eapply holds_mono; [apply answer_quiet|cbv beta]
      | |- holds (run_stream _ _ _ _ _ _) _ => eapply holds_mono; [apply run_stream_quiet|cbv beta]
      | |- forall (_ : list event) (_ : _), Forall quiet _ -> _ =>
          let H1 := fresh "Hs" in let H2 := fresh "Hc" in
          intros ? ? [H1 H2]%quiet_nothing
      end
    | run_step; cbv beta ].

(** ** The slot *)

Section Slots.
Context (h : Handler) (has_send : bool).

(** A run that settles a slot once, without and with an upstream call. *)
Definition settles_once (playerID : string) (l : list slot_step) : Prop :=
  l = [Settled true (AsSuccess playerID 0)] \/
  exists s, l = [Upstream; Settled true s] /\
    match s with AsSuccess p _ => p = playerID | _ => True end.

Ltac slots := repeat (rewrite ?slot_steps_app; cbn [slot_steps omap list_omap slot_step_of app];
                      repeat match goal with H : slot_steps _ = [] |- _ => rewrite H end; cbn [app]).

Lemma converse_slots reqID p n q c i :
  holds (converse h has_send reqID p n q c i) (fun l _ => settles_once p (slot_steps l)).
Proof.
  unfold converse, finish_error, finish_ok, flush_and_done, recordSuccess, recordFailure, releaseSlot,
    stopUpstream, persistConversation.
  run_quiet; right; eexists; (split; [slots; reflexivity|done]).
Qed.

Lemma with_conversation_slots reqID p n q conv :
  holds (with_conversation h has_send reqID p n q conv) (fun l _ => settles_once p (slot_steps l)).
Proof.
  unfold with_conversation, recordSuccess.
  run_quiet; try (left; by slots).
  eapply holds_mono; [apply converse_slots|]. cbv beta. intros l ? Hl. by slots.
Qed.

Lemma resolve_slots p n c :
  holds (resolveConversation h p n c) (fun l _ => slot_steps l = []).
Proof. unfold resolveConversation. run; by slots. Qed.

Lemma chat_slots sess req :
  holds (HandleChat h has_send sess req) (fun l _ =>
    slot_steps l = [] \/
    slot_steps l = [Granted (PlayerID sess); Settled true (AsSuccess (PlayerID sess) 0)] \/
    exists s, slot_steps l = [Granted (PlayerID sess); Upstream; Settled true s] /\
      match s with AsSuccess p _ => p = PlayerID sess | _ => True end).
Proof.
  unfold HandleChat. run_quiet; try (left; by slots); try (left; destruct b; by slots).
  eapply holds_mono; [apply resolve_slots|]. cbv beta. intros l1 [conv unlock] H1.
  apply holds_bind. eapply holds_mono; [apply with_conversation_slots|]. cbv beta.
  intros l2 ? [H2|(s & H2 & Hp)]; run_quiet; right;
    [left; slots; by rewrite H2|left; slots; by rewrite H2|right|right];
    exists s; (split; [|done]); slots; by rewrite H2.
Qed.

(** C2: every admission is settled exactly once.  A request the limiter has not admitted
    touches neither the slot nor Dify.  For an admitted one the limiter hears of its end
    exactly once (as a success of the same player, a failure, or neither), on a detached
    context, so that a client that disconnects or stops cannot leak the slot; the
    upstream is called at most once, after the admission and before the settlement; and
    without an upstream call the settlement is a success with no tokens. *)
Theorem HandleChat_settles_once sess req :
  holds (HandleChat h has_send sess req) (fun l _ =>
    slot_steps l = [] \/
    slot_steps l = [Granted (PlayerID sess); Settled true (AsSuccess (PlayerID sess) 0)] \/
    exists s, slot_steps l = [Granted (PlayerID sess); Upstream; Settled true s] /\
      match s with AsSuccess p _ => p = PlayerID sess | _ => True end).
Proof. apply chat_slots. Qed.
End Slots.

(** ** The conversation *)

Section Conversations.
Context (h : Handler) (has_send : bool).

(** The upstream call with conversation [c], and the id it returned stored. *)
Definition upstream_part (c : string) (l : list conv_step) : Prop :=
  l = [] \/ l = [Used c] \/ exists c', c' <> "" /\ l = [Used c; Kept c'].

Inductive conversation_run (client : string) : list conv_step -> Prop :=
| cr_not_admitted : conversation_run client []
| cr_store_down e : conversation_run client [Stored (Err e)]
| cr_stored c l : c <> "" -> upstream_part c l -> conversation_run client (Stored (Ok c) :: l)
| cr_client l : TrimSpace client <> "" -> upstream_part (TrimSpace client) l ->
    conversation_run client (Stored (Ok "") :: l)
| cr_no_lock e : TrimSpace client = "" ->
    conversation_run client [Stored (Ok ""); Locked (Err e)]
| cr_store_down_locked n e : TrimSpace client = "" ->
    conversation_run client [Stored (Ok ""); Locked (Ok n); Stored (Err e); Unlocked n]
| cr_lost_race n c l : TrimSpace client = "" -> c <> "" -> upstream_part c l ->
    conversation_run client (Stored (Ok "") :: Locked (Ok n) :: Stored (Ok c) :: Unlocked n :: l)
| cr_created n l : TrimSpace client = "" -> upstream_part "" l ->
    conversation_run client (Stored (Ok "") :: Locked (Ok n) :: Stored (Ok "") :: l ++ [Unlocked n]).

Ltac convs := repeat (rewrite ?conv_steps_app; cbn [conv_steps omap list_omap conv_step_of app User];
                      rewrite ?bool_decide_eq_true_2 by done;
                      repeat match goal with H : forall p n, conv_steps p n _ = [] |- _ => rewrite H end;
                      cbn [app]).

Lemma converse_conv reqID p n q c i :
  holds (converse h has_send reqID p n q c i) (fun l _ => upstream_part c (conv_steps p n l)).
Proof.
  unfold converse, finish_error, finish_ok, flush_and_done, recordSuccess, recordFailure, releaseSlot,
    stopUpstream, persistConversation.
  run_quiet; convs; unfold upstream_part; try (by auto);
    right; right; eexists; (split; [|reflexivity]);
    match goal with
    | H : bool_decide (_ = "") = false |- _ => by apply bool_decide_eq_false in H
    | H : negb (bool_decide (_ = "")) = true |- _ => by apply negb_true_iff, bool_decide_eq_false in H
    end.
Qed.

Lemma with_conversation_conv reqID p n q conv :
  holds (with_conversation h has_send reqID p n q conv) (fun l _ =>
    match conv with
    | Ok c => upstream_part c (conv_steps p n l)
    | Err _ => conv_steps p n l = []
    end).
Proof.
  unfold with_conversation, recordSuccess. run_quiet; convs; unfold upstream_part; auto.
  eapply holds_mono; [apply converse_conv|]. cbv beta. intros l ? Hl. by convs.
Qed.

(** What [resolveConversation] has done when it returns. *)
Definition resolved (client : string) (l : list conv_step) (r : res error string * option nat) : Prop :=
  match r with
  | (Err _, None) => conversation_run client l
  | (Err _, Some _) => False
  | (Ok c, None) =>
      c <> "" /\
      (l = [Stored (Ok c)] \/
       (c = TrimSpace client /\ l = [Stored (Ok "")]) \/
       (TrimSpace client = "" /\
        exists k, l = [Stored (Ok ""); Locked (Ok k); Stored (Ok c); Unlocked k]))
  | (Ok c, Some k) =>
      c = "" /\ TrimSpace client = "" /\ l = [Stored (Ok ""); Locked (Ok k); Stored (Ok "")]
  end.

Lemma resolve_conv p n client :
  holds (resolveConversation h p n client) (fun l r => resolved client (conv_steps p n l) r).
Proof.
  unfold resolveConversation. run; convs; unfold resolved;
    repeat match goal with
    | H : negb _ = true |- _ => apply negb_true_iff, bool_decide_eq_false in H
    | H : negb _ = false |- _ => apply negb_false_iff, bool_decide_eq_true in H; subst
    end; rewrite ?H; try (by constructor); eauto 10.
Qed.

Lemma chat_conv sess req :
  holds (HandleChat h has_send sess req) (fun l _ =>
    conversation_run (Chat_ConversationId req)
      (conv_steps (PlayerID sess) (TrimSpace (Chat_NpcId req)) l)).
Proof.
  unfold HandleChat. set (p := PlayerID sess). set (n := TrimSpace (Chat_NpcId req)).
  set (client := Chat_ConversationId req).
  run_quiet; try (convs; by constructor).
  eapply holds_mono; [apply resolve_conv|]. cbv beta. intros l1 [conv unlock] H1.
  apply holds_bind. eapply holds_mono; [apply with_conversation_conv|]. cbv beta.
  intros l2 ? H2. run_quiet; convs; destruct conv as [c|e]; unfold resolved in H1; try done.
  - destruct H1 as (-> & Hc & ->). by constructor.
  - destruct H1 as (Hc & [->|[[-> ->]|(Hcl & k & ->)]]); rewrite ?app_nil_r; by constructor.
  - by rewrite H2, ?app_nil_r.
Qed.

(** C5: which conversation a request continues, and the creation lock.  The id sent to
    Dify is the one stored for this player and npc; only if there is none, the client's; and
    only if there is none either, no id, sent while the player's and npc's creation lock
    is held, the store having been read again under it.  Every lock obtained is released
    exactly once, whatever fails, and after the new id is stored; nothing about another
    player or npc is read, stored, locked or sent. *)
Theorem HandleChat_conversation sess req :
  holds (HandleChat h has_send sess req) (fun l _ =>
    conversation_run (Chat_ConversationId req)
      (conv_steps (PlayerID sess) (TrimSpace (Chat_NpcId req)) l)).
Proof. apply chat_conv. Qed.
End Conversations.

(** ** What the client is sent *)

(** A run of a stream: the callbacks it makes for some answers, and its result. *)
Inductive branch : stream -> list callback -> ChatResult -> option error -> Prop :=
| branch_finish r e : branch (Finish r e) [] r e
| branch_callback c k b cs r e : branch (k b) cs r e -> branch (Callback c k) (c :: cs) r e.

(** The task id of the last event callback. *)
Definition task_after (t0 : string) (cs : list callback) : string :=
  foldl (fun t c => match c with OnEvent t' _ => t' | OnDelta _ => t end) t0 cs.

Lemma Push_flag m d f f' emit bl fb :
  Moderation.blocked f = false -> Push m d f = (f', (emit, bl, fb)) ->
  Moderation.blocked f' = bl /\ (bl = true -> emit = "").
Proof.
  intros Hf. unfold Push. rewrite Hf. unfold drain. cbn [buf Moderation.blocked].
  repeat (case_match; try (intros; by simplify_eq)).
Qed.

Lemma Flush_flag m f f' emit bl fb :
  Flush m f = (f', (emit, bl, fb)) -> Moderation.blocked f' = bl /\ (bl = true -> emit = "").
Proof.
  unfold Flush. destruct (Moderation.blocked f) eqn:Hf; [intros; by simplify_eq|].
  unfold drain. repeat (case_match; try (intros; by simplify_eq)).
Qed.

Section Frames.
Context (h : Handler).
Let m : Moderator := moderator h.

Ltac fr := repeat (rewrite ?frames_app, ?statuses_app;
                   cbn [frames statuses omap list_omap frame_of status_of app]).

(** What streaming has sent: the chunks, and one ChatBlocked if it came to block. *)
Definition streamed (reqID : string) (v v' : stream_vars) (l : list event) (text : string) : Prop :=
  exists ds fb, stream_text ds = text /\ Forall (fun d => d <> "") ds /\
    frames l = (chunk reqID <$> ds) ++
               (if negb (outputBlocked v) && outputBlocked v' then [blockedEnvelope reqID fb] else []) /\
    statuses l = if negb (outputBlocked v) && outputBlocked v' then ["blocked"] else [].

Definition consistent (v : stream_vars) : Prop := outputBlocked v = Moderation.blocked (filter_ v).

Lemma onDelta_spec reqID d v c :
  consistent v ->
  holds (onDelta h true reqID d v c) (fun l r =>
    let '(v', _) := r in
    let '(f, (emit, _, _)) := Push m d (filter_ v) in
    consistent v' /\ filter_ v' = f /\ taskID v' = taskID v /\ streamed reqID v v' l emit).
Proof.
  intros Hv. unfold onDelta, answer, send. fold m. unfold consistent in Hv.
  destruct (outputBlocked v) eqn:Eb.
  - apply holds_ret. unfold Push. rewrite <- Hv. split_and!; try done; [unfold consistent; congruence|].
    exists [], "". by rewrite Eb.
  - destruct (Push m d (filter_ v)) as [f [[emit bl] fb]] eqn:Ep.
    destruct (Push_flag _ _ _ _ _ _ _ (eq_sym Hv) Ep) as [Hf He].
    run; (split_and!; [by unfold consistent; cbn|done|done|]); unfold streamed; rewrite Eb; cbn [negb andb outputBlocked].
    + exists [], fb. rewrite He by done. by fr.
    + exists [emit], "". cbn [stream_text foldr]. rewrite string_app_nil_r.
      apply negb_true_iff, bool_decide_eq_false in Heqb0. fr. split_and!; auto.
    + exists [], "". apply negb_false_iff, bool_decide_eq_true in Heqb0. fr. split_and!; auto.
Qed.

Lemma streamed_trans reqID v v1 v2 l1 l2 t1 t2 :
  (outputBlocked v = true -> outputBlocked v1 = true) ->
  (outputBlocked v1 = true -> outputBlocked v2 = true /\ t2 = "" /\ frames l2 = []) ->
  streamed reqID v v1 l1 t1 -> streamed reqID v1 v2 l2 t2 -> streamed reqID v v2 (l1 ++ l2) (t1 +:+ t2).
Proof.
  intros Hm1 Hm2 (ds1 & fb1 & <- & N1 & F1 & S1) (ds2 & fb2 & <- & N2 & F2 & S2). unfold streamed. fr.
  rewrite F1, S1, S2.
  assert (forall a b, stream_text (a ++ b) = stream_text a +:+ stream_text b) as Happ.
  { intros a b. unfold stream_text. induction a as [|x a IH]; [done|]. cbn. by rewrite IH, string_app_assoc. }
  destruct (outputBlocked v1) eqn:E1.
  - destruct (Hm2 eq_refl) as (-> & Ht & ->). cbn [negb andb]. rewrite !app_nil_r, andb_true_r.
    exists ds1, fb1. by rewrite Ht, string_app_nil_r.
  - rewrite F2. cbn [negb andb]. rewrite !andb_false_r.
    assert (outputBlocked v = false) as ->
      by (destruct (outputBlocked v); [specialize (Hm1 eq_refl); congruence|done]).
    exists (ds1 ++ ds2), fb2. rewrite Happ, fmap_app, <- !app_assoc. split_and!; auto using Forall_app_2.
Qed.

Lemma run_stream_spec reqID s v c :
  consistent v ->
  holds (run_stream h true reqID s v c) (fun l r =>
    let '(v', (result, err)) := r in
    exists cs, branch s cs result err /\ consistent v' /\
      filter_ v' = (push_all m (deltas_of cs) (filter_ v)).1 /\
      taskID v' = task_after (taskID v) cs /\
      streamed reqID v v' l (push_all m (deltas_of cs) (filter_ v)).2).
Proof.
  revert v c. induction s as [r err|cb k IH]; intros v c Hv; cbn [run_stream].
  { apply holds_ret. exists []. split_and!; try done; [constructor|].
    exists [], "". by destruct (outputBlocked v). }
  destruct cb as [t cv|d].
  - eapply holds_mono; [apply (IH c (set_task t v)); exact Hv|].
    intros l [v' [r err]] (cs & Hb & Hc & Hf & Ht & Hs). exists (OnEvent t cv :: cs).
    split_and!; try done. by econstructor.
  - apply holds_bind. eapply holds_mono; [by apply onDelta_spec|]. intros l1 [v1 c1] H1.
    destruct (Push m d (filter_ v)) as [f1 [[emit bl] fb]] eqn:Ep.
    destruct H1 as (Hc1 & Hf1 & Ht1 & Hs1).
    eapply holds_mono; [by apply IH|]. intros l2 [v2 [r err]] (cs & Hb & Hc & Hf & Ht & Hs).
    exists (OnDelta d :: cs). change (deltas_of (OnDelta d :: cs)) with (d :: deltas_of cs).
    cbn [push_all]. rewrite Ep. rewrite <- Hf1. rewrite Ht1 in Ht.
    pose proof (push_all_blocked m (deltas_of cs) (filter_ v1)) as Hpb.
    assert (outputBlocked v1 = true -> outputBlocked v2 = true /\
      (push_all m (deltas_of cs) (filter_ v1)).2 = "" /\ frames l2 = []) as Hm2.
    { intros Hb1. rewrite Hpb in Hf by (by rewrite <- Hc1). unfold consistent in Hc1, Hc.
      assert (outputBlocked v2 = true) as Hb2 by (rewrite Hc, Hf; cbn [fst]; congruence).
      rewrite Hpb in Hs |- * by congruence. split_and!; [done|done|].
      destruct Hs as (ds & fb' & Hds & Hne & -> & _). rewrite Hb1. cbn [negb andb]. rewrite app_nil_r.
      destruct Hne as [|x ds Hx _]; [done|]. by destruct x. }
    assert (outputBlocked v = true -> outputBlocked v1 = true) as Hm1.
    { intros Hb0. unfold consistent in *. unfold Push in Ep. rewrite <- Hv, Hb0 in Ep. simplify_eq. congruence. }
    destruct (push_all m (deltas_of cs) (filter_ v1)) as [f2 rest]. cbn [fst snd] in *.
    split_and!; [by econstructor|done|done|done|]. by eapply streamed_trans.
Qed.

(** A frame that ends the turn of [reqID]. *)
Definition ends (reqID : string) (f : ServerEnvelope) : Prop :=
  terminal f = true /\ envelope_request f = Some reqID.

(** The frames that may follow a ChatBlocked. *)
Definition after_blocked (reqID : string) (f : ServerEnvelope) : Prop :=
  f = errorMsg reqID "INTERNAL" "usage accounting failed" \/
  f = errorMsg reqID "INTERNAL" "conversation state unavailable" \/
  exists fb, f = blockedEnvelope reqID fb.

Definition turn (reqID : string) (l : list event) : Prop :=
  exists ds tail,
    frames l = (chunk reqID <$> ds) ++ tail /\ Forall (fun d => d <> "") ds /\
    Forall (ends reqID) tail /\ length (statuses l) = length tail /\
    ((exists t, tail = [t]) \/
     exists fb t, tail = [blockedEnvelope reqID fb; t] /\ after_blocked reqID t).

(** What follows the stream, blocked or not. *)
Definition finished (reqID : string) (v : stream_vars) (l : list event) : Prop :=
  if outputBlocked v
  then (frames l = [] /\ statuses l = []) \/
       exists t, frames l = [t] /\ length (statuses l) = 1%nat /\ ends reqID t /\ after_blocked reqID t
  else exists ds t, frames l = (chunk reqID <$> ds) ++ [t] /\ Forall (fun d => d <> "") ds /\
       length (statuses l) = 1%nat /\ ends reqID t.

Ltac unfold_sends := unfold answer, send, recordSuccess, recordFailure, releaseSlot, stopUpstream,
  persistConversation.

Lemma finish_error_frames reqID p n v r e :
  holds (finish_error h true reqID p n v r e) (fun l _ => finished reqID v l).
Proof.
  unfold finish_error, finished. unfold_sends. run; fr;
    repeat match goal with H : outputBlocked v = _ |- _ => rewrite H end;
    try (right; eexists; split_and!; try done; right; right; eexists; reflexivity);
    try (by left); try (eexists [], _; split_and!; by try constructor).
  destruct (outputBlocked v).
  - right. eexists. split_and!; try done. right. right. by eexists.
  - eexists [], _. split_and!; by try constructor.
Qed.

Lemma finish_ok_frames reqID p n v r :
  holds (finish_ok h true reqID p n v r) (fun l _ => finished reqID v l).
Proof.
  unfold finish_ok, flush_and_done, finished. unfold_sends. run; fr;
    repeat match goal with H : outputBlocked v = _ |- _ => rewrite H end;
    try (by left); try (eexists [], _; split_and!; by try constructor).
  all: try (eexists [_], _; split_and!; [reflexivity| |done|done];
            match goal with H : negb (bool_decide (_ = "")) = true |- _ =>
              apply negb_true_iff, bool_decide_eq_false in H end; by repeat constructor).
  all: destruct (outputBlocked v);
    [right; eexists; split_and!; try done; unfold after_blocked; auto
    |eexists [], _; split_and!; by try constructor].
Qed.

(** A stream followed by its finish. *)
Lemma streamed_finished reqID v l1 l2 text :
  streamed reqID start_vars v l1 text -> finished reqID v l2 -> turn reqID (l1 ++ l2).
Proof.
  intros (ds & fb & _ & Hne & F1 & S1) Hf. cbn [negb andb outputBlocked start_vars] in F1, S1.
  unfold turn, finished in *. fr. rewrite F1, S1. destruct (outputBlocked v).
  - destruct Hf as [[-> ->]|(t & -> & Hs & Ht & Ha)].
    + exists ds, [blockedEnvelope reqID fb]. rewrite app_nil_r.
      split_and!; eauto. by repeat constructor.
    + exists ds, [blockedEnvelope reqID fb; t]. rewrite <- app_assoc. rewrite length_app, Hs.
      split_and!; eauto. rewrite !Forall_cons. split_and!; done.
  - destruct Hf as (ds2 & t & -> & Hne2 & Hs & Ht). exists (ds ++ ds2), [t].
    rewrite app_nil_r, fmap_app, <- app_assoc. rewrite length_app, Hs.
    split_and!; eauto using Forall_app_2.
Qed.

Lemma converse_turn reqID p n q c i :
  holds (converse h true reqID p n q c i) (fun l _ => turn reqID l).
Proof.
  unfold converse. apply holds_bind, holds_perform. intros s.
  apply holds_bind. eapply holds_mono; [by apply run_stream_spec|].
  intros l1 [v [r err]] (cs & _ & _ & _ & _ & Hs).
  assert (forall l, turn reqID l -> turn reqID ([Ev (Dify_ChatStream
    {| Query := q; Inputs := Some i; User := userID p n; ConversationID := c; Files := [];
       AutoGenerateName := None |}) s] ++ l)) as Hcons by (unfold turn; intros; by fr).
  destruct err as [e|].
  - eapply holds_mono; [apply finish_error_frames|]. intros l2 ? H2.
    apply Hcons. by eapply streamed_finished.
  - eapply holds_mono; [apply finish_ok_frames|]. intros l2 ? H2.
    apply Hcons. by eapply streamed_finished.
Qed.

Lemma with_conversation_turn reqID p n q conv :
  holds (with_conversation h true reqID p n q conv) (fun l _ => turn reqID l).
Proof.
  unfold with_conversation. unfold_sends. run;
    try (unfold turn; fr; eexists [], _; split_and!; [reflexivity|by constructor| |reflexivity|eauto];
         by repeat constructor).
  eapply holds_mono; [apply converse_turn|]. intros l ? Hl. unfold turn in *. by fr.
Qed.

Lemma resolve_silent p n c :
  holds (resolveConversation h p n c) (fun l _ => frames l = [] /\ statuses l = []).
Proof. unfold resolveConversation. run; by fr. Qed.

Lemma chat_turn sess req : holds (HandleChat h true sess req) (fun l _ => turn (Chat_RequestId req) l).
Proof.
  unfold HandleChat. unfold_sends. run;
    try (unfold turn; fr; eexists [], _; split_and!; [reflexivity|by constructor| |reflexivity|eauto];
         by repeat constructor).
  eapply holds_mono; [apply resolve_silent|]. cbv beta. intros l1 [conv unlock] [F1 S1].
  apply holds_bind. eapply holds_mono; [apply with_conversation_turn|]. intros l2 ? H2.
  run; unfold turn in *; fr; rewrite F1, S1; cbn [app]; by rewrite ?app_nil_r.
Qed.

Lemma reset_turn sess reset :
  holds (HandleReset h true sess reset) (fun l _ =>
    exists t, frames l = [t] /\ ends (Reset_RequestId reset) t /\ length (statuses l) = 1%nat /\
      (t = done (Reset_RequestId reset) "" 0 <->
       omap reset_of l = [(PlayerID sess, TrimSpace (Reset_NpcId reset), true)])).
Proof.
  unfold HandleReset. unfold_sends.
  run; fr; unfold ends; eexists; split_and!; try reflexivity;
      first [done|by intros [=]].
Qed.

(** C4: the protocol of a turn.  Whatever happens, the client of a chat request is sent
    zero or more non-empty chunks and then the frame that ends the turn, all with the
    request's id; nothing follows it, except that a ChatBlocked sent while streaming may be
    followed by one more frame, an accounting or persistence error or a second ChatBlocked;
    and every frame that ends a turn is counted once.  A reset is answered by exactly one
    frame, a ChatDone if and only if the mapping was deleted. *)
Theorem HandleChat_turn sess req reset :
  holds (HandleChat h true sess req) (fun l _ => turn (Chat_RequestId req) l) /\
  holds (HandleReset h true sess reset) (fun l _ =>
    exists t, frames l = [t] /\ ends (Reset_RequestId reset) t /\ length (statuses l) = 1%nat /\
      (t = done (Reset_RequestId reset) "" 0 <->
       omap reset_of l = [(PlayerID sess, TrimSpace (Reset_NpcId reset), true)])).
Proof. split; [apply chat_turn|apply reset_turn]. Qed.
End Frames.

(** ** The upstream call *)

(** The upstream calls and the streams they got; the inputs built. *)
Definition upstream_of (ev : event) : option (ChatReq * stream) :=
  match ev with
  | @Ev X e x =>
      match e in eff X return X -> option (ChatReq * stream) with
      | Dify_ChatStream q => fun s => Some (q, s)
      | _ => fun _ => None
      end x
  end.
Definition upstreams (l : list event) : list (ChatReq * stream) := omap upstream_of l.

Definition build_of (ev : event) : option (string * string * (gmap string string * option error)) :=
  match ev with
  | @Ev X e x =>
      match e in eff X return X -> option (string * string * (gmap string string * option error)) with
      | Context_Build p n => fun x => Some (p, n, x)
      | _ => fun _ => None
      end x
  end.
Definition builds (l : list event) : list (string * string * (gmap string string * option error)) :=
  omap build_of l.

(** How an upstream call ends: what the limiter is told, what the request's context said,
    and the stop sent to Dify. *)
Inductive end_step := Told (s : settlement) | Canceled (b : bool) | StopSent (taskID user : string).

Definition end_of (ev : event) : option end_step :=
  match ev with
  | @Ev X e x =>
      match e in eff X return X -> option end_step with
      | Limiter_Record _ p n => fun _ => Some (Told (AsSuccess p n))
      | Limiter_RecordFailure _ => fun _ => Some (Told AsFailure)
      | Limiter_Release _ => fun _ => Some (Told AsNeither)
      | Ctx_Canceled => fun b => Some (Canceled b)
      | Dify_Stop _ t u => fun _ => Some (StopSent t u)
      | _ => fun _ => None
      end x
  end.
Definition end_steps (l : list event) : list end_step := omap end_of l.

Lemma quiet_upstream l : Forall quiet l -> upstreams l = [] /\ builds l = [] /\ end_steps l = [].
Proof.
  induction 1 as [|[X e x] l He _ (IH1 & IH2 & IH3)]; [done|].
  destruct e; try done; split_and!; first [exact IH1|exact IH2|exact IH3].
Qed.

Lemma too_long_loop_spec rs count :
  (count <= maxQueryRunes)%nat ->
  too_long_loop rs count = false <-> (count + length rs <= maxQueryRunes)%nat.
Proof.
  revert count. induction rs as [|r rs IH]; intros count Hc; cbn [too_long_loop length].
  { split; [lia|done]. }
  destruct (Nat.ltb_spec maxQueryRunes (S count)); [split; [done|lia]|]. rewrite IH by lia. lia.
Qed.

Section Upstream.
Context (h : Handler).
Let m : Moderator := moderator h.

Ltac proj := repeat (rewrite ?frames_app, ?statuses_app; unfold upstreams, builds, end_steps;
                     rewrite ?omap_app;
                     cbn [frames statuses omap list_omap frame_of status_of upstream_of build_of end_of app]).

(** The text of the chunks sent. *)
Definition delta_of (f : ServerEnvelope) : option string :=
  match f with Server_Chunk c => Some (CC_Delta c) | _ => None end.
Definition forwarded (l : list event) : string := stream_text (omap delta_of (frames l)).

(** A run of a program. *)
Definition run_of {A} (p : M A) (l : list event) : Prop := exists env hist, l = (p env hist).1.

Lemma run_of_holds {A} (p : M A) : holds p (fun l _ => run_of p l).
Proof. intros env hist. by exists env, hist. Qed.

Lemma holds_run_of {A} (p : M A) P l : holds p (fun l _ => P l) -> run_of p l -> P l.
Proof. intros Hp (env & hist & ->). apply Hp. Qed.

(** Events that concern neither the client nor the upstream call. *)
Definition aside (l : list event) : Prop :=
  frames l = [] /\ statuses l = [] /\ upstreams l = [] /\ end_steps l = [].

(** A turn without an upstream call forwards nothing and does not count as served. *)
Definition refused (l : list event) : Prop :=
  upstreams l = [] /\ forwarded l = "" /\ "ok" ∉ statuses l.

Lemma with_conversation_cases reqID p n q conv :
  holds (with_conversation h true reqID p n q conv) (fun l _ =>
    refused l \/
    exists c i mid, l = Ev (Context_Build p n) (i, None) :: mid /\ (CheckInput m q).1 = true /\
      run_of (converse h true reqID p n q c i) mid).
Proof.
  unfold with_conversation, answer, send, recordSuccess. fold m.
  run; try (left; unfold refused, forwarded; proj; split_and!; [done|done|set_solver]).
  eapply holds_mono; [apply run_of_holds|]. cbv beta. intros mid ? Hmid. right.
  eexists _, _, mid. split_and!; [reflexivity| |exact Hmid].
  repeat match goal with
    | H : negb _ = false |- _ => apply negb_false_iff in H
    | H : CheckInput _ _ = _ |- _ => rewrite H end. done.
Qed.

Lemma resolve_aside p n c :
  holds (resolveConversation h p n c) (fun l _ => aside l /\ builds l = []).
Proof. unfold resolveConversation, aside. run; by proj. Qed.

(** A chat request is refused, or it is one upstream call with events aside around it. *)
Lemma HandleChat_cases sess req :
  let p := PlayerID sess in
  let n := TrimSpace (Chat_NpcId req) in
  let q := TrimSpace (Chat_Query req) in
  holds (HandleChat h true sess req) (fun l _ =>
    refused l \/
    exists pre mid post c i, l = pre ++ mid ++ post /\ aside pre /\ aside post /\
      builds pre = [(p, n, (i, None))] /\ builds post = [] /\ n <> "" /\ q <> "" /\
      (length (runes q) <= maxQueryRunes)%nat /\ (CheckInput m q).1 = true /\
      run_of (converse h true (Chat_RequestId req) p n q c i) mid).
Proof.
  intros p n q. unfold HandleChat, answer, send. fold p n q.
  run; try (left; unfold refused, forwarded; proj; split_and!; [done|done|set_solver]).
  apply bool_decide_eq_false in Heqb, Heqb0. apply too_long_loop_spec in Heqb1; [|lia].
  eapply holds_mono; [apply resolve_aside|]. cbv beta. intros l1 [conv unlock] [(F1 & S1 & U1 & E1) B1].
  apply holds_bind. eapply holds_mono; [apply with_conversation_cases|]. cbv beta.
  intros l2 ? H2.
  assert (forall lu, aside lu -> builds lu = [] ->
    refused ([Ev (Limiter_Allow p 0) (true, None)] ++ l1 ++ l2 ++ lu) \/
    exists pre mid post c i, [Ev (Limiter_Allow p 0) (true, None)] ++ l1 ++ l2 ++ lu = pre ++ mid ++ post /\
      aside pre /\ aside post /\ builds pre = [(p, n, (i, None))] /\ builds post = [] /\ n <> "" /\ q <> "" /\
      (length (runes q) <= maxQueryRunes)%nat /\ (CheckInput m q).1 = true /\
      run_of (converse h true (Chat_RequestId req) p n q c i) mid) as Hlu.
  { intros lu (Fu & Su & Uu & Eu) Bu. destruct H2 as [(H2 & H3 & H4)|(c & i & mid & -> & Hin & Hmid)].
    - left. unfold refused, forwarded in *. unfold upstreams in *. proj.
      rewrite F1, S1, U1, Fu, Su, Uu. cbn [app]. rewrite !app_nil_r. done.
    - right. exists ([Ev (Limiter_Allow p 0) (true, None)] ++ l1 ++ [Ev (Context_Build p n) (i, None)]), mid, lu, c, i.
      split_and!; try done.
      + cbn [app]. by rewrite <- !app_assoc.
      + unfold aside. unfold upstreams, end_steps in *. proj. by rewrite F1, S1, U1, E1.
      + unfold builds in *. proj. by rewrite B1. }
  run; apply Hlu; unfold aside; by proj.
Qed.

(** The end of an upstream call that made the callbacks [cs] and returned [r] and [err]. *)
Definition ended (p user : string) (blocked : bool) (task : string) (r : ChatResult)
    (err : option error) (l : list end_step) : Prop :=
  match err with
  | None => l = [Told (AsSuccess p (R_TotalTokens r))]
  | Some e =>
      if bool_decide (is_Some (as_replace e)) || blocked
      then l = [Told (AsSuccess p (R_TotalTokens r))]
      else l = [Canceled false; Told AsFailure] \/
           l = [Canceled true] ++ (if bool_decide (task = "") then [] else [StopSent task user]) ++
               [Told AsNeither]
  end.

Definition unserved (l : list event) : Prop := forwarded l = "" /\ "ok" ∉ statuses l.

Lemma finish_error_end reqID p n v r e :
  holds (finish_error h true reqID p n v r e) (fun l _ =>
    upstreams l = [] /\ builds l = [] /\ unserved l /\
    ended p (userID p n) (outputBlocked v) (taskID v) r (Some e) (end_steps l)).
Proof.
  unfold finish_error, messageReplace, answer, send, recordSuccess, recordFailure, releaseSlot,
    stopUpstream, persistConversation, unserved, forwarded, ended.
  destruct (as_replace e) as [x|] eqn:Ee;
    [rewrite (bool_decide_eq_true_2 (is_Some (Some x))) by eauto
    |rewrite (bool_decide_eq_false_2 (is_Some None)) by apply is_Some_None];
    cbn [orb]; run; proj; repeat match goal with H : _ = _ :> bool |- _ => rewrite ?H; clear H end;
    split_and!; try done; try (set_solver); auto.
Qed.

Lemma finish_ok_end reqID p n v r :
  holds (finish_ok h true reqID p n v r) (fun l _ =>
    upstreams l = [] /\ builds l = [] /\ end_steps l = [Told (AsSuccess p (R_TotalTokens r))] /\
    (unserved l \/
     (outputBlocked v = false /\ exists f fb, Flush m (filter_ v) = (f, (forwarded l, false, fb))))).
Proof.
  unfold finish_ok, flush_and_done, answer, send, recordSuccess, unserved, forwarded. fold m.
  run; proj; split_and!; try done; try (left; split; [done|set_solver]);
    right; (split; [done|]); eexists _, _; cbn [delta_of chunk done CC_Delta app stream_text foldr];
    rewrite ?string_app_nil_r; try done.
  all: match goal with H : negb (bool_decide (_ = "")) = false |- _ =>
         apply negb_false_iff, bool_decide_eq_true in H; by rewrite H end.
Qed.


Lemma omap_chunks reqID ds fs :
  omap delta_of ((chunk reqID <$> ds) ++ fs) = ds ++ omap delta_of fs.
Proof. induction ds as [|d ds IH]; [done|]. cbn. f_equal. apply IH. Qed.

Lemma stream_text_app a b : stream_text (a ++ b) = stream_text a +:+ stream_text b.
Proof.
  unfold stream_text. induction a as [|x a IH]; [done|]. cbn. by rewrite IH, string_app_assoc.
Qed.

(** The whole of an upstream call. *)
Lemma converse_spec reqID p n q c i :
  holds (converse h true reqID p n q c i) (fun l _ => exists s cs r err,
    upstreams l = [({| Query := q; Inputs := Some i; User := userID p n; ConversationID := c; Files := [];
                       AutoGenerateName := None |}, s)] /\
    builds l = [] /\ branch s cs r err /\
    let '(f, out) := push_all m (deltas_of cs) NewOutputFilter in
    ended p (userID p n) (Moderation.blocked f) (task_after "" cs) r err (end_steps l) /\
    ((forwarded l = out /\ "ok" ∉ statuses l) \/
     (err = None /\ exists f', filter_stream m (deltas_of cs) = (f', forwarded l) /\
                              Moderation.blocked f' = false))).
Proof.
  unfold converse. apply holds_bind, holds_perform. intros s.
  apply holds_bind.
  pose proof (run_stream_quiet h true reqID s start_vars false) as Hq.
  pose proof (run_stream_spec h reqID s start_vars false eq_refl) as Hsp.
  eapply holds_mono; [exact (holds_and _ _ _ Hq Hsp)|]. cbv beta.
  intros l1 [v [r err]] [(U1 & B1 & E1)%quiet_upstream (cs & Hb & Hc & Hf & Ht & Hs)].
  cbn [filter_ taskID start_vars] in Hf, Ht, Hs. fold m in Hf, Hs.
  destruct Hs as (ds & fb & Hds & _ & F1 & S1). cbn [negb andb outputBlocked start_vars] in F1, S1.
  assert (forwarded l1 = (push_all m (deltas_of cs) NewOutputFilter).2) as T1.
  { unfold forwarded. rewrite F1, omap_chunks, <- Hds. destruct (outputBlocked v); by rewrite app_nil_r. }
  assert ("ok" ∉ statuses l1) as O1 by (rewrite S1; destruct (outputBlocked v); set_solver).
  unfold consistent in Hc. rewrite Hf in Hc.
  assert (forall l2, forwarded (l1 ++ l2) = forwarded l1 +:+ forwarded l2) as Hfw
    by (intros; unfold forwarded; by rewrite frames_app, omap_app, stream_text_app).
  destruct err as [e|].
  - eapply holds_mono; [apply finish_error_end|]. intros l2 ? (U2 & B2 & [Tx2 O2] & E2).
    exists s, cs, r, (Some e). unfold upstreams, builds, end_steps in *. proj. rewrite U1, B1, E1, U2, B2.
    split_and!; try done. rewrite Hc, Ht in E2. clear Hc Hf.
    destruct (push_all m (deltas_of cs) NewOutputFilter) as [f out]. cbn [fst snd] in *.
    split; [done|]. left. unfold forwarded in *. proj.
    rewrite ?omap_app, stream_text_app, T1, Tx2, string_app_nil_r. set_solver.
  - eapply holds_mono; [apply finish_ok_end|]. intros l2 ? (U2 & B2 & E2 & Hfin).
    exists s, cs, r, None. unfold upstreams, builds, end_steps in *. proj. rewrite U1, B1, E1, U2, B2.
    split_and!; try done. rewrite E2.
    destruct (push_all m (deltas_of cs) NewOutputFilter) as [f out] eqn:Ep. cbn [fst snd] in *.
    split; [done|]. destruct Hfin as [[Tx2 O2]|(Hb2 & f' & fb' & Hfl)].
    + left. unfold forwarded in *. proj. rewrite ?omap_app, stream_text_app, T1, Tx2, string_app_nil_r.
      set_solver.
    + right. split; [done|]. exists f'. rewrite Hf in Hfl. unfold filter_stream. rewrite Ep, Hfl.
      destruct (Flush_flag _ _ _ _ _ _ Hfl) as [-> _]. split; [|done].
      rewrite <- T1, <- Hfw. unfold forwarded. by proj.
Qed.
End Upstream.

(** ** Theorems about the upstream call *)

Section UpstreamTheorems.
Context (h : Handler).

(** What aside events around a run change. *)
Lemma around pre mid post :
  aside pre -> aside post ->
  upstreams (pre ++ mid ++ post) = upstreams mid /\ end_steps (pre ++ mid ++ post) = end_steps mid /\
  forwarded (pre ++ mid ++ post) = forwarded mid /\ statuses (pre ++ mid ++ post) = statuses mid.
Proof.
  intros (F1 & S1 & U1 & E1) (F2 & S2 & U2 & E2). unfold forwarded, upstreams, end_steps in *.
  rewrite !frames_app, !statuses_app, !omap_app, F1, S1, U1, E1, F2, S2, U2, E2. cbn [app omap list_omap].
  by rewrite !app_nil_r.
Qed.

Lemma chat_upstream sess req :
  holds (HandleChat h true sess req) (fun l _ =>
    (length (upstreams l) <= 1)%nat /\
    forall q s, (q, s) ∈ upstreams l ->
      Query q = TrimSpace (Chat_Query req) /\ Query q <> "" /\
      (length (runes (Query q)) <= 4096)%nat /\ (CheckInput (moderator h) (Query q)).1 = true /\
      User q = userID (PlayerID sess) (TrimSpace (Chat_NpcId req)) /\
      Files q = [] /\
      exists i, Inputs q = Some i /\
        builds l = [(PlayerID sess, TrimSpace (Chat_NpcId req), (i, None))]).
Proof.
  eapply holds_mono; [apply HandleChat_cases|]. cbv beta.
  intros l ? [(U & _)|(pre & mid & post & c & i & -> & Ha1 & Ha2 & B1 & B3 & Hn & Hq & Hlen & Hin & Hmid)].
  { rewrite U. split; [cbn; lia|]. by intros q s ?%elem_of_nil. }
  destruct (around pre mid post Ha1 Ha2) as (-> & _).
  destruct (holds_run_of _ _ _ (converse_spec h _ _ _ _ _ _) Hmid)
    as (s & cs & r & err & -> & B2 & _).
  split; [done|]. intros q s' [= -> ->]%list_elem_of_singleton. cbn [Query User Files Inputs].
  split_and!; try done. exists i. split; [done|].
  unfold builds in *. by rewrite !omap_app, B1, B2, B3.
Qed.

(** C8: what reaches Dify.  A chat request makes at most one upstream call, whose query
    is the client's, trimmed, not empty, of at most 4096 runes and passed by the moderator;
    whose inputs are those the context assembler built for this player and npc without
    error, and nothing of the request's own context map; whose user is the authenticated
    player's, scoped by the npc. *)
Theorem upstream_request sess req :
  holds (HandleChat h true sess req) (fun l _ =>
    (length (upstreams l) <= 1)%nat /\
    forall q s, (q, s) ∈ upstreams l ->
      Query q = TrimSpace (Chat_Query req) /\ Query q <> "" /\
      (length (runes (Query q)) <= 4096)%nat /\ (CheckInput (moderator h) (Query q)).1 = true /\
      User q = userID (PlayerID sess) (TrimSpace (Chat_NpcId req)) /\
      Files q = [] /\
      exists i, Inputs q = Some i /\
        builds l = [(PlayerID sess, TrimSpace (Chat_NpcId req), (i, None))]).
Proof. apply chat_upstream. Qed.

(** C7: how a request's outcome is booked.  The call made some callbacks and returned a
    result; the limiter is told of a success, with the tokens used, exactly when the
    stream completed, was replaced by Dify's moderation or blocked by the gateway's; of a
    failure when it failed with the request's context alive; and when it failed because
    the request was cancelled, of neither, after a stop of the task the callbacks named, if
    any, for the same Dify user. *)
Theorem upstream_outcome sess req :
  holds (HandleChat h true sess req) (fun l _ =>
    forall q s, (q, s) ∈ upstreams l -> exists cs r err, branch s cs r err /\
      ended (PlayerID sess) (User q)
        (Moderation.blocked (push_all (moderator h) (deltas_of cs) NewOutputFilter).1)
        (task_after "" cs) r err (end_steps l)).
Proof.
  eapply holds_mono; [apply HandleChat_cases|]. cbv beta.
  intros l ? [(U & _)|(pre & mid & post & c & i & -> & Ha1 & Ha2 & _ & _ & _ & _ & _ & _ & Hmid)].
  { rewrite U. by intros q s ?%elem_of_nil. }
  destruct (around pre mid post Ha1 Ha2) as (-> & -> & _).
  destruct (holds_run_of _ _ _ (converse_spec h _ _ _ _ _ _) Hmid)
    as (s & cs & r & err & -> & _ & Hb & Hrest).
  intros q s' [= -> ->]%list_elem_of_singleton. exists cs, r, err. split; [done|]. cbn [User].
  destruct (push_all _ _ _) as [f out]. apply Hrest.
Qed.
End UpstreamTheorems.

(** ** Moderated replies *)

Section Moderated.
Context `{UnicodeCase} (words : list string).
Hypothesis words_short : Forall short_word words.

(** The keyword filter on a stream of well-formed deltas, before and after the flush. *)
Lemma pushed_clean ds : Forall valid_utf8 ds ->
  Allowed (NewKeywordPolicy words) (push_all (keyword_moderator words) ds NewOutputFilter).2 = true.
Proof.
  intros Hd. destruct (words_runes _ words_short) as (bs & Hbs & Hok & Hs).
  destruct (deltas_runes _ Hd) as (Ds & HDs & -> & _). unfold keyword_moderator. rewrite Hbs.
  match goal with |- context [push_all ?m ?d ?f] => destruct (push_all m d f) as [f' out] eqn:Ep end.
  assert (stream_ok bs NewOutputFilter [] []) as Hok0.
  { split; [|constructor|left; exists []; by split_and!; [apply NewOutputFilter_tracks|..]].
    intros w Hw (a & b & Hin). symmetry in Hin. apply app_nil in Hin as [_ Hin].
    apply app_nil in Hin as [-> _]. by destruct (Hok _ Hw). }
  destruct (push_all_stream bs Hok Hs _ Ds _ _ _ _ _ HDs eq_refl Hok0 Ep) as (O & -> & [Hc Hv Hst]).
  cbn [snd app] in *. apply Allowed_clean; [done| |done].
  destruct Hst as [(B & _ & HT & _)|(_ & [k Hk] & _)];
    [rewrite HT in Hv|rewrite Hk in Hv]; by apply Forall_app in Hv as [Hv _].
Qed.

Lemma filtered_clean ds f out : Forall valid_utf8 ds ->
  filter_stream (keyword_moderator words) ds = (f, out) ->
  Allowed (NewKeywordPolicy words) out = true /\ (Moderation.blocked f = false -> out = stream_text ds).
Proof.
  intros Hd Hf. destruct (words_runes _ words_short) as (bs & Hbs & Hok & Hs).
  destruct (deltas_runes _ Hd) as (Ds & HDs & -> & Htext).
  unfold keyword_moderator in Hf. rewrite Hbs in *.
  destruct (filter_stream_runes bs Hok Hs _ _ _ HDs Hf) as (O & -> & [k Hk] & Hc & _ & Hall).
  assert (Forall valid_rune (O ++ k)) as Hv by (rewrite <- Hk; by apply Forall_concat).
  apply Forall_app in Hv as [HO _]. split; [by apply Allowed_clean|].
  intros Hb. by rewrite Htext, Hall.
Qed.

(** C3: end-to-end moderation.  With the keyword moderator (words of at most 33
    characters) and a Dify that sends well-formed text, in every run of a chat request the
    text of the chunks sent to the client contains no banned word, whatever fails or is
    cancelled on the way; and a request counted as served ([ok]) has sent the client the
    whole text of the stream. *)
Theorem reply_is_moderated h sess req :
  moderator h = keyword_moderator words ->
  holds (HandleChat h true sess req) (fun l _ =>
    (forall q s cs r err, (q, s) ∈ upstreams l -> branch s cs r err -> Forall valid_utf8 (deltas_of cs)) ->
    Allowed (NewKeywordPolicy words) (forwarded l) = true /\
    ("ok" ∈ statuses l -> exists q s cs r, (q, s) ∈ upstreams l /\ branch s cs r None /\
       forwarded l = stream_text (deltas_of cs))).
Proof.
  intros Hm. eapply holds_mono; [apply HandleChat_cases|]. cbv beta.
  intros l ? [(_ & -> & Hok)|(pre & mid & post & c & i & -> & Ha1 & Ha2 & _ & _ & _ & _ & _ & _ & Hmid)].
  { intros _. split; [exact (pushed_clean [] (List.Forall_nil _))|done]. }
  destruct (around pre mid post Ha1 Ha2) as (-> & _ & -> & ->).
  destruct (holds_run_of _ _ _ (converse_spec h _ _ _ _ _ _) Hmid)
    as (s & cs & r & err & -> & _ & Hb & Hrest).
  intros Hvalid. specialize (Hvalid _ s cs r err ltac:(by apply list_elem_of_singleton) Hb).
  rewrite Hm in Hrest. pose proof (pushed_clean _ Hvalid) as Hp.
  destruct (push_all _ _ _) as [f out]. cbn [snd] in Hp.
  destruct Hrest as (_ & [[-> Hno]|(-> & f' & Hf & Hbl)]); [done|].
  destruct (filtered_clean _ _ _ Hvalid Hf) as [Hc Hall]. split; [done|]. intros _.
  eexists _, s, cs, r. split_and!; [by apply list_elem_of_singleton|done|auto].
Qed.
End Moderated.

(** ** A run *)

(** A stream that makes given callbacks whatever it is told. *)
Fixpoint linear (cs : list callback) (r : ChatResult) (err : option error) : stream :=
  match cs with
  | [] => Finish r err
  | c :: cs => Callback c (fun _ => linear cs r err)
  end.

Lemma branch_linear cs r err cs' r' err' : branch (linear cs r err) cs' r' err' -> cs' = cs.
Proof.
  revert cs'. induction cs as [|c cs IH]; intros cs' Hb; inversion Hb; subst; [done|].
  f_equal. by apply IH.
Qed.

(** Dependencies that all succeed, a new conversation, and a reply in four deltas. *)
Definition demo_environment : environment := fun X _ e =>
  match e in eff X return X with
  | Limiter_Allow _ _ => (true, None)
  | Store_Get _ _ => Ok ""
  | Store_Lock _ _ _ => Ok 7%nat
  | Store_Unlock _ => tt
  | Context_Build _ _ => ({[ "scene" := "inn" ]}, None)
  | Dify_ChatStream _ =>
      linear (OnEvent "task" "conv" :: (OnDelta <$> demo_deltas)) (mkChatResult "" "conv" "m" 12) None
  | Ctx_Canceled => false
  | Ctx_UntilDeadline => None
  | Count_Request _ => tt
  | Count_Tokens _ => tt
  | Limiter_Record _ _ _ => None
  | Limiter_RecordFailure _ => None
  | Limiter_Release _ => None
  | Store_Set _ _ _ _ _ => None
  | Store_Delete _ _ => None
  | Dify_Stop _ _ _ => None
  | Send_Frame _ => None
  end.

Definition demo_handler : Handler :=
  {| has_auth := true; has_limiter := true; has_store := true; has_context := true; has_dify := true;
     moderator := @keyword_moderator ascii_case [" FORBIDDEN "];
     conversationTTL := defaultConversationTTL; conversationLockTTL := defaultConversationLockTTL |}.

Definition demo_run : list event :=
  (HandleChat demo_handler true (mkSession "c" "r" 0 "player" true)
     {| Chat_RequestId := "r1"; Chat_ConversationId := ""; Chat_NpcId := " smith "; Chat_Query := "hello";
        Chat_Context := ∅ |} demo_environment []).1.

(** The model says a banned word: the client is told the reply is blocked, the slot is
    settled and the lock released. *)
Example demo_run_frames :
  frames demo_run = [blockedEnvelope "r1" DefaultOutputFallback].
Proof. vm_compute. reflexivity. Qed.

Lemma reply_is_moderated_witness :
  moderator demo_handler = @keyword_moderator ascii_case [" FORBIDDEN "] /\
  @Allowed ascii_case (@NewKeywordPolicy ascii_case [" FORBIDDEN "]) (forwarded demo_run) = true.
Proof.
  split; [reflexivity|].
  apply (@reply_is_moderated ascii_case [" FORBIDDEN "] demo_words_short demo_handler
           (mkSession "c" "r" 0 "player" true)
           {| Chat_RequestId := "r1"; Chat_ConversationId := ""; Chat_NpcId := " smith ";
              Chat_Query := "hello"; Chat_Context := ∅ |} eq_refl demo_environment []).
  intros q s cs r err Hin Hb.
  assert (s = linear (OnEvent "task" "conv" :: (OnDelta <$> demo_deltas)) (mkChatResult "" "conv" "m" 12) None) as ->.
  { revert Hin. unfold upstreams. vm_compute. intros Hin.
    apply list_elem_of_singleton in Hin. by injection Hin. }
  apply branch_linear in Hb as ->. exact demo_deltas_valid.
Defined.
