(* ===== verification/Router.v ===== *)
(** * internal/gateway/dify_router.go: a Dify key per npc

    The router is built from the key map in whatever order Go ranges over it; it finds
    the npc in the Dify user the pipeline composes ([userID]). *)

From S2P Require Import Prelude GoNum GoStrings GoDecimal GoErr Sse Moderation Retry Pipeline.

Record DifyRouter := { clients : gmap string Client; defaultClient : option Client }.

(** The loop over the mappings. *)
Fixpoint router_clients (base : string) (kvs : list (string * string)) (acc : gmap string Client) :
    res error (gmap string Client) :=
  match kvs with
  | [] => Ok acc
  | (npcID0, key0) :: kvs =>
      let npcID := TrimSpace npcID0 in
      let key := TrimSpace key0 in
      if bool_decide (npcID = "") || bool_decide (key = "")
      then Err (EText "gateway: Dify app key mapping contains empty name or key")
      else router_clients base kvs (<[npcID := NewClient base key]> acc)
  end.

(** [range_] lists the entries of the map, in the order of the loop. *)
Definition NewDifyRouter (range_ : gmap string string -> list (string * string))
    (base : string) (appKeys : gmap string string) : res error DifyRouter :=
  if bool_decide (TrimSpace base = "") then Err (EText "gateway: DIFY_BASE_URL is required")
  else if bool_decide (size appKeys = 0%nat)
  then Err (EText "gateway: at least one Dify app key is required")
  else
    try cs := router_clients base (range_ appKeys) ∅ in
    Ok {| clients := cs; defaultClient := cs !! "default" |}.

Definition npcIDFromUser (user0 : string) : string :=
  let user := TrimSpace user0 in
  if bool_decide (user = "") then ""
  else
    match last_index_byte 58 (bytes user) with
    | Some idx =>
        if Z.of_nat idx <? str_len user - 1
        then TrimSpace (of_bytes (drop (idx + 1) (bytes user))) else ""
    | None => ""
    end.

(** The text of the error quotes the npc ([%q]); errors are compared by what they wrap, and
    this one wraps nothing. *)
Definition clientForUser (r : DifyRouter) (user : string) : res error Client :=
  let npcID := npcIDFromUser user in
  match (if bool_decide (npcID = "") then None else clients r !! npcID) with
  | Some client => Ok client
  | None =>
      match defaultClient r with
      | Some client => Ok client
      | None => Err (EText ("gateway: no Dify app key configured for npc_id " +:+ npcID))
      end
  end.

(** [ChatStream] and [Stop], given the client's. *)
Definition router_ChatStream (chat : Client -> ChatReq -> list callback * (ChatResult * option error))
    (r : DifyRouter) (req : ChatReq) : list callback * (ChatResult * option error) :=
  match clientForUser r (User req) with
  | Err err => ([], (zero_result, Some err))
  | Ok client => chat client req
  end.

Definition router_Stop (stop : Client -> string -> string -> option error)
    (r : DifyRouter) (taskID user : string) : option error :=
  match clientForUser r user with
  | Err err => Some err
  | Ok client => stop client taskID user
  end.

(** ** Lemmas *)

Lemma drop_while_keep {A} (f : A -> bool) a x b : f x = false -> exists a', drop_while f (a ++ x :: b) = a' ++ x :: b.
Proof.
  intros Hx. induction a as [|y a IH]; cbn [app drop_while].
  - rewrite Hx. by exists [].
  - destruct (f y); [done|]. by exists (y :: a).
Qed.

Lemma drop_while_end_app {A} (f : A -> bool) a b : b <> [] -> drop_while_end f b = b ->
  drop_while_end f (a ++ b) = a ++ b.
Proof.
  intros Hb He. unfold drop_while_end in *. rewrite reverse_app.
  apply (f_equal reverse) in He. rewrite reverse_involutive in He.
  destruct (reverse b) as [|x l] eqn:El; [by apply (f_equal reverse) in El; rewrite reverse_involutive in El|].
  cbn [app drop_while] in *. destruct (f x) eqn:Ef.
  - exfalso. pose proof (drop_while_suffix f l) as [k Hk]. apply (f_equal length) in He, Hk.
    rewrite length_app in Hk. cbn in He. lia.
  - change (x :: l ++ reverse a) with ((x :: l) ++ reverse a). by rewrite <- El, <- reverse_app, reverse_involutive.
Qed.

Lemma drop_while_length {A} (f : A -> bool) l : (length (drop_while f l) <= length l)%nat.
Proof. destruct (drop_while_suffix f l) as [k Hk]. rewrite Hk at 2. rewrite length_app. lia. Qed.

(** A trimmed text keeps both its ends. *)
Lemma trimmed_end rs : trim_runes rs = rs -> drop_while_end is_space rs = rs.
Proof.
  unfold trim_runes, drop_while_end. intros He.
  assert (drop_while is_space rs = rs) as Hd; [|by rewrite Hd in He].
  pose proof (drop_while_suffix is_space rs) as [k Hk].
  apply (f_equal length) in He. rewrite length_reverse in He.
  pose proof (drop_while_length is_space (reverse (drop_while is_space rs))) as Hl.
  rewrite length_reverse in Hl.
  pose proof (f_equal length Hk) as Hlen. rewrite length_app in Hlen.
  destruct k; [done|cbn in Hlen; lia].
Qed.

Lemma last_index_byte_app c a b : Forall (fun x => x <> c) b ->
  last_index_byte c (a ++ c :: b) = Some (length a).
Proof.
  intros Hb.
  assert (last_index_byte c b = None) as Hn.
  { induction Hb as [|x b Hx _ IH]; [done|]. cbn. by rewrite IH, (proj2 (Z.eqb_neq x c)). }
  induction a as [|x a IH]; cbn; [by rewrite Hn, Z.eqb_refl|by rewrite IH].
Qed.

(** The npc of a user the pipeline composed. *)
Lemma npcIDFromUser_userID player npc :
  valid_utf8 player -> valid_utf8 npc -> no_colon npc -> TrimSpace npc = npc -> npc <> "" ->
  npcIDFromUser (userID player npc) = npc.
Proof.
  intros (ps & Hp & ->) (ns & Hn & ->) Hc Ht Hne. unfold npcIDFromUser, userID.
  assert (trim_runes ns = ns) as Htr.
  { rewrite TrimSpace_runes in Ht by done. apply string_of_runes_inj in Ht; [done|by apply trim_runes_valid|done]. }
  assert (ns <> []) as Hnn by (intros ->; by apply Hne).
  assert (Forall valid_rune (ps ++ 58 :: ns)) as Hv
    by (apply Forall_app_2; [done|constructor; [unfold valid_rune; lia|done]]).
  assert (string_of_runes ps +:+ ":" +:+ string_of_runes ns = string_of_runes (ps ++ 58 :: ns)) as ->.
  { change (58 :: ns) with ([58] ++ ns). by rewrite !string_of_runes_app. }
  rewrite TrimSpace_runes by done. unfold trim_runes.
  destruct (drop_while_keep is_space ps 58 ns) as [p' Hp']; [done|]. rewrite Hp'.
  replace (p' ++ 58 :: ns) with ((p' ++ [58]) ++ ns) by (by rewrite <- app_assoc).
  rewrite drop_while_end_app by (done || by apply trimmed_end).
  rewrite <- app_assoc. cbn [app].
  unfold no_colon in Hc. rewrite bytes_string_of_runes in Hc.
  case_bool_decide as Hnil; [by apply string_of_runes_nil_inv, app_nil in Hnil as [_ ?]|].
  rewrite bytes_string_of_runes, encode_all_app, encode_all_cons.
  change (encode 58) with [58]. cbn [app]. rewrite last_index_byte_app by done.
  unfold str_len. rewrite bytes_string_of_runes, encode_all_app, encode_all_cons, length_app.
  change (encode 58) with [58]. cbn [app length].
  assert (encode_all ns <> []) as Hen by (intros He; by apply encode_all_nil_inv in He).
  destruct (encode_all ns) as [|b l] eqn:Ens; [done|].
  rewrite (proj2 (Z.ltb_lt _ _)) by (cbn [length]; lia).
  replace (length (encode_all p') + 1)%nat with (length (encode_all p' ++ [58])) by (rewrite length_app; done).
  replace (encode_all p' ++ 58 :: b :: l) with ((encode_all p' ++ [58]) ++ b :: l) by (by rewrite <- app_assoc).
  rewrite drop_app_length, <- Ens. exact Ht.
Qed.

(** What the construction loop builds from trimmed, non-empty mappings. *)
Definition mapping_ok (kv : string * string) : Prop :=
  TrimSpace kv.1 = kv.1 /\ kv.1 <> "" /\ TrimSpace kv.2 = kv.2 /\ kv.2 <> "".

Lemma router_clients_ok base (kvs : list (string * string)) acc :
  NoDup kvs.*1 -> Forall mapping_ok kvs ->
  exists cs, router_clients base kvs acc = Ok cs /\
    forall n, cs !! n = match (list_to_map kvs : gmap string string) !! n with
                        | Some key => Some (NewClient base key)
                        | None => acc !! n
                        end.
Proof.
  intros Hnd Hok. revert acc Hnd. induction Hok as [|[n k] kvs (H1 & H2 & H3 & H4) _ IH]; intros acc Hnd.
  { by exists acc. }
  cbn [router_clients]. cbn [fst snd] in H1, H2, H3, H4.
  rewrite H1, H3, !bool_decide_eq_false_2 by done. cbn [orb].
  rewrite fmap_cons in Hnd. apply NoDup_cons in Hnd as [Hn Hnd]. cbn [fst] in Hn.
  destruct (IH (<[n := NewClient base k]> acc) Hnd) as (cs & -> & Hcs).
  exists cs. split; [done|]. intros n'. rewrite Hcs.
  change (list_to_map ((n, k) :: kvs) : gmap string string)
    with (<[n := k]> (list_to_map kvs : gmap string string)).
  destruct (decide (n = n')) as [<-|Hne].
  - apply not_elem_of_list_to_map_1 in Hn. rewrite Hn. by rewrite !lookup_insert_eq.
  - by rewrite !lookup_insert_ne.
Qed.

(** C38: routing.  A router built from a map of trimmed, non-empty names and keys, in
    whatever order the map is ranged over, exists; and for the Dify user of any player and
    any npc named without a colon it uses the client of that npc's key if there is one,
    otherwise the default key's, and otherwise fails; so that an npc's requests never go
    out with the key of another npc's app. *)
Theorem router_picks_npc_key range_ base keys player npc :
  range_ keys ≡ₚ map_to_list keys -> TrimSpace base <> "" -> keys <> ∅ ->
  (forall n k, keys !! n = Some k -> mapping_ok (n, k)) ->
  valid_utf8 player -> valid_utf8 npc -> no_colon npc -> TrimSpace npc = npc -> npc <> "" ->
  exists r, NewDifyRouter range_ base keys = Ok r /\
    match keys !! npc, keys !! "default" with
    | Some key, _ => clientForUser r (userID player npc) = Ok (NewClient base key)
    | None, Some key => clientForUser r (userID player npc) = Ok (NewClient base key)
    | None, None => exists err, clientForUser r (userID player npc) = Err err
    end.
Proof.
  intros Hrange Hbase Hkeys Hok Hp Hn Hc Ht Hne.
  assert (NoDup (range_ keys).*1) as Hnd by (rewrite Hrange; apply NoDup_fst_map_to_list).
  destruct (router_clients_ok base (range_ keys) ∅ Hnd) as (cs & Hcs & Hl).
  { apply Forall_forall. intros [n k] Hin. apply Hok. rewrite Hrange in Hin. by apply elem_of_map_to_list. }
  unfold NewDifyRouter. rewrite !bool_decide_eq_false_2; [|by rewrite map_size_empty_iff|done].
  rewrite Hcs. cbn [res_bind]. eexists. split; [done|].
  assert (forall n, cs !! n = NewClient base <$> keys !! n) as Hcs'.
  { intros n. rewrite Hl, (list_to_map_proper _ _ Hnd Hrange), list_to_map_to_list, lookup_empty.
    by destruct (keys !! n). }
  unfold clientForUser. rewrite npcIDFromUser_userID by done. cbn [clients defaultClient].
  rewrite bool_decide_eq_false_2, !Hcs' by done.
  destruct (keys !! npc); cbn; [done|]. destruct (keys !! "default"); cbn; eauto.
Qed.

Definition demo_keys : gmap string string := {[ "smith" := "app-1"; "default" := "app-0" ]}.

Lemma router_picks_npc_key_witness :
  exists r, NewDifyRouter map_to_list "http://dify/v1" demo_keys = Ok r /\
    clientForUser r (userID "p:1" "smith") = Ok (NewClient "http://dify/v1" "app-1").
Proof.
  assert (valid_utf8 "p:1" /\ valid_utf8 "smith") as [H1 H2]
    by (split; apply utf8_of_ascii; vm_compute; repeat constructor).
  apply (router_picks_npc_key map_to_list "http://dify/v1" demo_keys "p:1" "smith").
  - done.
  - vm_compute. discriminate.
  - discriminate.
  - intros n k Hk. unfold demo_keys in Hk.
    apply lookup_insert_Some in Hk as [[<- <-]|[_ Hk]]; [split_and!; vm_compute; congruence|].
    apply lookup_singleton_Some in Hk as [<- <-]. split_and!; vm_compute; congruence.
  - exact H1.
  - exact H2.
  - vm_compute. repeat constructor; discriminate.
  - vm_compute. reflexivity.
  - discriminate.
Defined.

(** An npc id with a colon is routed by what follows the last colon. *)
Lemma npcIDFromUser_last_colon : npcIDFromUser (userID "p" "evil:smith") = "smith".
Proof. vm_compute. reflexivity. Qed.

(** Two players' Dify users coincide when an id holds a colon. *)
Lemma userID_ambiguous : userID "a" "b:c" = userID "a:b" "c".
Proof. reflexivity. Qed.
