(* ===== verification/Telemetry.v ===== *)
(** * internal/telemetry/telemetry.go: the metrics and the admin mux

    The collectors as the data they are declared with; [Init] registers them in order and
    adds the /metrics route.  The Prometheus registry is a parameter: what it promises
    ([PrometheusLaws]) is that a well-formed descriptor whose name is new is accepted and a
    name already there is refused.  An http.ServeMux is the patterns it holds with what
    answers them; Handle on a pattern already there panics. *)

From S2P Require Import Prelude GoNum GoStrings GoErr.

Inductive collector_kind := CounterVec | Counter | Gauge | Histogram.

(** [DefBuckets]: whether the histogram takes the library's default buckets. *)
Record Collector := {
  Kind : collector_kind;
  MetricName : string;
  Help : string;
  Labels : list string;
  DefBuckets : bool
}.

#[export] Instance collector_kind_eq_dec : EqDecision collector_kind.
Proof. solve_decision. Defined.
#[export] Instance collector_eq_dec : EqDecision Collector.
Proof. solve_decision. Defined.

Definition scalar (k : collector_kind) (name help : string) : Collector :=
  {| Kind := k; MetricName := name; Help := help; Labels := []; DefBuckets := false |}.
Definition histogram (name help : string) : Collector :=
  {| Kind := Histogram; MetricName := name; Help := help; Labels := []; DefBuckets := true |}.

Definition RequestsTotal : Collector :=
  {| Kind := CounterVec; MetricName := "gateway_requests_total";
     Help := "Total gateway requests by status."; Labels := ["status"]; DefBuckets := false |}.
Definition UpstreamLatencySeconds : Collector :=
  histogram "gateway_upstream_latency_seconds" "Dify upstream request latency in seconds.".
Definition FirstTokenLatencySeconds : Collector :=
  histogram "gateway_first_token_latency_seconds" "Latency to first streamed token in seconds.".
Definition TokensTotal : Collector :=
  scalar Counter "gateway_tokens_total" "Total upstream tokens consumed.".
Definition CostUSDTotal : Collector :=
  scalar Counter "gateway_cost_usd_total" "Total estimated upstream cost in USD.".
Definition ActiveConnections : Collector :=
  scalar Gauge "gateway_active_connections" "Currently active client connections.".
Definition InflightUpstream : Collector :=
  scalar Gauge "gateway_inflight_upstream" "Currently inflight upstream requests.".
Definition RateLimitedTotal : Collector :=
  scalar Counter "gateway_ratelimited_total" "Total requests rejected by rate limiting.".
Definition CircuitState : Collector :=
  scalar Gauge "gateway_circuit_state" "Circuit breaker state: 0 closed, 1 half-open, 2 open.".

(** The list [Init] ranges over. *)
Definition collectors : list Collector :=
  [RequestsTotal; UpstreamLatencySeconds; FirstTokenLatencySeconds; TokensTotal; CostUSDTotal;
   ActiveConnections; InflightUpstream; RateLimitedTotal; CircuitState].

(** ** The registry *)

(** [prometheus.NewRegistry] and [Registry.Register]. *)
Class Prometheus := {
  registry : Type;
  NewRegistry : registry;
  Register : Collector -> registry -> res error registry
}.

(** The names Prometheus' data model allows: letters, digits, underscores and colons for a
    metric, without colons for a label, no digit first. *)
Definition name_char (colon : bool) (b : Z) : bool :=
  ((65 <=? b) && (b <=? 90)) || ((97 <=? b) && (b <=? 122)) || ((48 <=? b) && (b <=? 57)) ||
  (b =? 95) || (colon && (b =? 58)).
Definition name_ok (colon : bool) (s : string) : bool :=
  match bytes s with
  | [] => false
  | b :: l => negb ((48 <=? b) && (b <=? 57)) && forallb (name_char colon) (b :: l)
  end.
Definition descriptor_ok (c : Collector) : bool :=
  name_ok true (MetricName c) && forallb (name_ok false) (Labels c) && bool_decide (NoDup (Labels c)).

Class PrometheusLaws `{Prometheus} := {
  registered : registry -> gset string;
  NewRegistry_empty : registered NewRegistry = ∅;
  Register_new c r : descriptor_ok c = true -> MetricName c ∉ registered r ->
    exists r', Register c r = Ok r' /\ registered r' = {[MetricName c]} ∪ registered r;
  Register_duplicate c r : MetricName c ∈ registered r -> is_ok (Register c r) = false
}.

(** ** The admin mux *)

(** What answers a pattern. *)
Inductive admin_handler := Metrics | Healthz | Readyz.

Definition ServeMux := list (string * admin_handler).

(** [None]: it panics. *)
Definition mux_Handle (pattern : string) (h : admin_handler) (mux : ServeMux) : option ServeMux :=
  if bool_decide (pattern ∈ mux.*1) then None else Some (mux ++ [(pattern, h)]).

(** ** [Init] and the rest *)

Section Init.
Context `{Prometheus}.

Fixpoint register_all (cs : list Collector) (r : registry) : res error registry :=
  match cs with
  | [] => Ok r
  | c :: cs => match Register c r with
               | Err err => Err err
               | Ok r => register_all cs r
               end
  end.

(** What [Init] leaves: the mux (http.DefaultServeMux if it was given nil), and the series
    of [RequestsTotal] by status. *)
Definition Init (mux : ServeMux) (series : gmap string Z) :
    option (res error (ServeMux * gmap string Z)) :=
  match register_all collectors NewRegistry with
  | Err err => Some (Err err)
  | Ok _ =>
      let series := <["init" := default 0 (series !! "init") + 0]> series in
      match mux_Handle "/metrics" Metrics mux with
      | None => None
      | Some mux => Some (Ok (mux, series))
      end
  end.
End Init.

Definition Redact (value : string) : string :=
  if bool_decide (value = "") then "" else "[REDACTED]".

(** ** Lemmas *)

Section Laws.
Context `{PrometheusLaws}.

Lemma register_all_ok cs r :
  Forall (fun c => descriptor_ok c = true) cs -> NoDup (MetricName <$> cs) ->
  (forall c, c ∈ cs -> MetricName c ∉ registered r) ->
  exists r', register_all cs r = Ok r' /\
    registered r' = list_to_set (MetricName <$> cs) ∪ registered r.
Proof.
  intros Hok. revert r. induction Hok as [|c cs Hc _ IH]; intros r Hnd Hnew.
  - exists r. split; [done|]. set_solver.
  - cbn in Hnd. apply NoDup_cons in Hnd as [Hn Hnd].
    destruct (Register_new c r Hc) as (r1 & Hr1 & Hs1); [apply Hnew; left|].
    destruct (IH r1 Hnd) as (r' & Hr' & Hs').
    { intros d Hd. rewrite Hs1, elem_of_union, elem_of_singleton. intros [E|Hd'].
      - apply Hn. rewrite <- E. by apply list_elem_of_fmap_2.
      - by apply (Hnew d); [right|]. }
    exists r'. cbn [register_all]. rewrite Hr1. split; [done|]. rewrite Hs', Hs1. cbn. set_solver.
Qed.

(** A collector whose name was already registered stops the loop. *)
Lemma register_all_duplicate pre c suf r r1 :
  register_all pre r = Ok r1 -> MetricName c ∈ registered r1 ->
  is_ok (register_all (pre ++ c :: suf) r) = false.
Proof.
  revert r. induction pre as [|d pre IH]; intros r; cbn.
  - intros [= <-] Hc. pose proof (Register_duplicate c r Hc) as E. by destruct (Register c r).
  - destruct (Register d r) as [r2|e]; [apply IH|done].
Qed.

(** The gateway's metrics are well formed and have different names, so they register. *)
Lemma collectors_register :
  exists r, register_all collectors NewRegistry = Ok r /\
    registered r = list_to_set (MetricName <$> collectors).
Proof.
  destruct (register_all_ok collectors NewRegistry) as (r & Hr & Hs).
  - repeat constructor.
  - apply (bool_decide_unpack _). vm_compute. exact I.
  - intros c _. rewrite NewRegistry_empty. set_solver.
  - exists r. split; [done|]. rewrite Hs, NewRegistry_empty. set_solver.
Qed.

(** [Init] never returns an error; it panics exactly on a mux that has the route. *)
Lemma Init_result mux series :
  if decide ("/metrics" ∈ mux.*1) then Init mux series = None
  else Init mux series =
         Some (Ok (mux ++ [("/metrics", Metrics)], <["init" := default 0 (series !! "init")]> series)).
Proof.
  unfold Init, mux_Handle. destruct collectors_register as (r & -> & _).
  rewrite Z.add_0_r. by case_decide; [rewrite bool_decide_eq_true_2|rewrite bool_decide_eq_false_2].
Qed.
End Laws.

(** A registry that is the set of its names. *)
#[export] Instance name_registry : Prometheus := {|
  registry := gset string;
  NewRegistry := ∅;
  Register c r := if bool_decide (MetricName c ∈ r) || negb (descriptor_ok c)
                  then Err (EText "duplicate metrics collector registration attempted")
                  else Ok ({[MetricName c]} ∪ r)
|}.

#[export] Instance name_registry_laws : PrometheusLaws.
Proof.
  refine {| registered := fun r : registry => r |}.
  - reflexivity.
  - intros c r Hc Hn. cbn. rewrite bool_decide_eq_false_2 by done. rewrite Hc. by eexists.
  - intros c r Hd. cbn. by rewrite bool_decide_eq_true_2.
Defined.

Lemma Redact_hides value : value <> "" -> Redact value = "[REDACTED]".
Proof. intros Hv. unfold Redact. by rewrite bool_decide_eq_false_2. Qed.
