(* ===== verification/Config.v ===== *)
(** * internal/config/config.go: configuration from the environment

    [Load] over an environment [Getenv]; the errors it joins are kept as a list.  The
    router's and the limiter's constructors are proved to accept what it accepts. *)

From S2P Require Import Prelude GoNum GoStrings GoErr Sse Moderation Retry Router.

Record Config := {
  GatewayAddr : string;
  GatewayAdminAddr : string;
  DifyBaseURL : string;
  DifyAppKeys : gmap string string;
  RedisAddr : string;
  AuthJWTPubKey : string;
  UpstreamTimeoutSec : Z;
  RatePerPlayer : string;
  TokenBudgetDaily : Z;
  MaxInflightUpstream : Z;
  ModerationEnabled : bool;
  GatewayServiceName : string;
  OTELExporterOTLPEndpoint : string
}.

Definition defaultGatewayAddr : string := ":9000".
Definition defaultGatewayAdminAddr : string := ":9001".
Definition defaultUpstreamTimeoutSec : Z := 60.
Definition defaultRatePerPlayer : string := "1r/2s".
Definition defaultTokenBudgetDaily : Z := 100000.
Definition defaultMaxInflight : Z := 200.
Definition defaultModerationEnabled : bool := true.
Definition defaultGatewayServiceName : string := "game-ai-gateway".

Definition missing (name : string) : error :=
  EText ("missing required environment variable " +:+ name).

Definition envString (Getenv : string -> string) (name fallback : string) : string :=
  let value := TrimSpace (Getenv name) in
  if bool_decide (value = "") then fallback else value.

(** Backslash-n becomes a newline. *)
Definition normalizePEMEnv (raw : string) : string :=
  ReplaceAll (TrimSpace raw) (of_bytes [92; 110]) (of_bytes [10]).

(** The loop over the pairs from position [i]. *)
Fixpoint app_keys_loop (pairs : list string) (i : Z) (keys : gmap string string) :
    res error (gmap string string) :=
  match pairs with
  | [] => Ok keys
  | pair0 :: pairs =>
      let pair := TrimSpace pair0 in
      if bool_decide (pair = "") then app_keys_loop pairs (i + 1) keys
      else
        let '(name0, key0, ok) := Cut pair "=" in
        let name := TrimSpace name0 in
        let key := TrimSpace key0 in
        if negb ok || bool_decide (name = "") || bool_decide (key = "")
        then Err (EText ("DIFY_APP_KEYS contains invalid mapping at position " +:+ format_int (i + 1)))
        else app_keys_loop pairs (i + 1) (<[name := key]> keys)
  end.

Definition parseAppKeys (raw0 : string) : res error (gmap string string) :=
  let raw := TrimSpace raw0 in
  if bool_decide (raw = "") then Err (missing "DIFY_APP_KEYS")
  else
    try keys := app_keys_loop (Split raw (Ascii.ascii_of_nat 59)) 0 ∅ in
    if bool_decide (size keys = 0%nat) then Err (missing "DIFY_APP_KEYS") else Ok keys.

Definition positiveInt (name raw : string) : res error Z :=
  match parse_int64 raw with
  | None => Err (EWrap (name +:+ " must be a positive integer") (EText "strconv.Atoi"))
  | Some value =>
      if value <=? 0 then Err (EText (name +:+ " must be a positive integer")) else Ok value
  end.

(** [strconv.ParseBool]. *)
Definition ParseBool (s : string) : res error bool :=
  if bool_decide (s ∈ ["1"; "t"; "T"; "true"; "TRUE"; "True"]) then Ok true
  else if bool_decide (s ∈ ["0"; "f"; "F"; "false"; "FALSE"; "False"]) then Ok false
  else Err (EText "strconv.ParseBool: invalid syntax").

(** An optional variable: the default if empty, and the error if it does not parse. *)
Definition optional {A} (Getenv : string -> string) (name : string) (dflt zero : A)
    (parse : string -> res error A) : A * list error :=
  let value := TrimSpace (Getenv name) in
  if bool_decide (value = "") then (dflt, [])
  else match parse value with Ok a => (a, []) | Err e => (zero, [e]) end.

Definition required (name value : string) : list error :=
  if bool_decide (value = "") then [missing name] else [].

Definition Load (Getenv : string -> string) : res (list error) Config :=
  let base := TrimSpace (Getenv "DIFY_BASE_URL") in
  let redis := TrimSpace (Getenv "REDIS_ADDR") in
  let pem := normalizePEMEnv (Getenv "AUTH_JWT_PUBKEY") in
  let '(keys, e4) := match parseAppKeys (Getenv "DIFY_APP_KEYS") with
                     | Ok keys => (keys, [])
                     | Err e => (∅, [e])
                     end in
  let '(timeout, e5) := optional Getenv "UPSTREAM_TIMEOUT_SEC" defaultUpstreamTimeoutSec 0
                          (positiveInt "UPSTREAM_TIMEOUT_SEC") in
  let '(budget, e6) := optional Getenv "TOKEN_BUDGET_DAILY" defaultTokenBudgetDaily 0
                         (positiveInt "TOKEN_BUDGET_DAILY") in
  let '(inflight, e7) := optional Getenv "MAX_INFLIGHT_UPSTREAM" defaultMaxInflight 0
                           (positiveInt "MAX_INFLIGHT_UPSTREAM") in
  let '(mod_enabled, e8) := optional Getenv "MODERATION_ENABLED" defaultModerationEnabled false
      (fun v => match ParseBool v with
                | Ok b => Ok b
                | Err e => Err (EWrap "MODERATION_ENABLED must be a boolean" e)
                end) in
  match required "DIFY_BASE_URL" base ++ required "REDIS_ADDR" redis ++
        required "AUTH_JWT_PUBKEY" pem ++ e4 ++ e5 ++ e6 ++ e7 ++ e8 with
  | [] => Ok {|
      GatewayAddr := envString Getenv "GATEWAY_ADDR" defaultGatewayAddr;
      GatewayAdminAddr := envString Getenv "GATEWAY_ADMIN_ADDR" defaultGatewayAdminAddr;
      DifyBaseURL := base;
      DifyAppKeys := keys;
      RedisAddr := redis;
      AuthJWTPubKey := pem;
      UpstreamTimeoutSec := timeout;
      RatePerPlayer := envString Getenv "RATE_PER_PLAYER" defaultRatePerPlayer;
      TokenBudgetDaily := budget;
      MaxInflightUpstream := inflight;
      ModerationEnabled := mod_enabled;
      GatewayServiceName := envString Getenv "GATEWAY_SERVICE_NAME" defaultGatewayServiceName;
      OTELExporterOTLPEndpoint := TrimSpace (Getenv "OTEL_EXPORTER_OTLP_ENDPOINT") |}
  | errs => Err errs
  end.

(** ** TrimSpace is idempotent *)

Lemma decode_step l c rest : decode l = c :: rest -> exists l', l = c.2 ++ l' /\ decode l' = rest.
Proof.
  destruct l as [|b0 l1]; [done|]. rewrite decode_cons.
  destruct (b0 <? 128); [intros [= <- <-]; by exists l1|].
  destruct l1 as [|b1 l2]; [intros [= <- <-]; by exists []|].
  case_match; [intros [= <- <-]; by exists l2|].
  destruct l2 as [|b2 l3]; [intros [= <- <-]; by exists [b1]|].
  case_match; [intros [= <- <-]; by exists l3|].
  destruct l3 as [|b3 l4]; [intros [= <- <-]; by exists [b1; b2]|].
  case_match; intros [= <- <-]; by eexists.
Qed.

Lemma decode_chunks l : decode l ≫= snd = l.
Proof.
  remember (decode l) as d eqn:E. symmetry in E. revert l E.
  induction d as [|c d IH]; intros l E.
  - destruct l as [|b l]; [done|]. rewrite decode_cons in E. repeat case_match; done.
  - apply decode_step in E as (l' & -> & E). rewrite bind_cons. by rewrite (IH l').
Qed.

Lemma decode_suffix l a b : decode l = a ++ b -> decode (b ≫= snd) = b.
Proof.
  revert l. induction a as [|c a IH]; intros l E.
  - cbn in E. rewrite <- E at 1. by rewrite decode_chunks.
  - apply decode_step in E as (l' & -> & E). by apply (IH l').
Qed.

(** The first step does not change when the text is cut after it. *)
Lemma decode_shorten w r l' x y :
  decode (w ++ l') = (r, w) :: decode l' -> w <> [] -> l' = x ++ y ->
  decode (w ++ x) = (r, w) :: decode x.
Proof.
  intros E Hw ->. destruct w as [|b0 w]; [done|]. cbn [app] in *. rewrite decode_cons in E |- *.
  destruct (b0 <? 128); [simplify_eq; done|].
  destruct w as [|w1 [|w2 [|w3 [|]]]]; cbn [app] in *.
  - destruct x as [|x1 [|x2 [|x3 x]]]; cbn [app] in *; repeat (case_match; simplify_eq); try done;
      destruct y as [|? [|? [|? ?]]]; repeat (case_match; simplify_eq); done.
  - repeat (case_match; simplify_eq); done.
  - repeat (case_match; simplify_eq); done.
  - repeat (case_match; simplify_eq); done.
  - repeat (case_match; simplify_eq).
Qed.

Lemma decode_nonempty l c rest : decode l = c :: rest -> c.2 <> [].
Proof.
  destruct l as [|b0 l1]; [done|]. rewrite decode_cons.
  repeat case_match; intros; by simplify_eq.
Qed.

Lemma decode_prefix l a b : decode l = a ++ b -> decode (a ≫= snd) = a.
Proof.
  revert l. induction a as [|[r w] a IH]; intros l E; [done|].
  cbn [app] in E. pose proof (decode_nonempty _ _ _ E) as Hw. pose proof E as E0.
  apply decode_step in E as (l' & -> & E). cbn [snd] in *. rewrite bind_cons. cbn [snd].
  assert (l' = (a ≫= snd) ++ (b ≫= snd)) as Hl'
    by (rewrite <- bind_app, <- E; by rewrite decode_chunks).
  rewrite (decode_shorten w r l' (a ≫= snd) (b ≫= snd)); [by rewrite (IH l')|rewrite E0; cbn [app]; f_equal; symmetry; exact E|done|done].
Qed.

Lemma decode_middle l a m b : decode l = a ++ m ++ b -> decode (m ≫= snd) = m.
Proof. intros E. apply decode_suffix in E. by apply decode_prefix in E. Qed.

Lemma drop_while_prefix {A} (f : A -> bool) l : exists k, l = k ++ drop_while f l /\ forallb f k = true.
Proof.
  induction l as [|x l [k [Hk Hf]]]; [by exists []|]. cbn. destruct (f x) eqn:E; [|by exists []].
  exists (x :: k). cbn. by rewrite E, Hf, <- Hk.
Qed.

Lemma drop_while_idem {A} (f : A -> bool) l : drop_while f (drop_while f l) = drop_while f l.
Proof. induction l as [|x l IH]; [done|]. cbn. destruct (f x) eqn:E; [done|]. cbn. by rewrite E. Qed.

Lemma drop_while_id_prefix {A} (f : A -> bool) a b :
  drop_while f (a ++ b) = a ++ b -> drop_while f a = a.
Proof.
  destruct a as [|x a]; [done|]. cbn. destruct (f x); [|done]. intros E. exfalso.
  destruct (drop_while_suffix f (a ++ b)) as [k Hk]. rewrite E in Hk.
  apply (f_equal length) in Hk. rewrite !length_app in Hk. cbn [length] in Hk.
  rewrite length_app in Hk. lia.
Qed.

(** Trimming both ends leaves nothing to trim. *)
Lemma drop_both_idem {A} (f : A -> bool) l :
  let m := drop_while_end f (drop_while f l) in
  drop_while_end f (drop_while f m) = m /\ exists a b, l = a ++ m ++ b.
Proof.
  intros m. unfold m, drop_while_end.
  destruct (drop_while_suffix f l) as [a Ha].
  destruct (drop_while_suffix f (reverse (drop_while f l))) as [b Hb].
  apply (f_equal reverse) in Hb. rewrite reverse_involutive, reverse_app in Hb.
  set (mid := reverse (drop_while f (reverse (drop_while f l)))) in *.
  assert (drop_while f mid = mid) as Hmid.
  { eapply (drop_while_id_prefix f mid (reverse b)). rewrite <- Hb. apply drop_while_idem. }
  split.
  - rewrite Hmid. unfold mid at 1. rewrite reverse_involutive, drop_while_idem. done.
  - exists a, (reverse b). by rewrite <- Hb.
Qed.

Lemma TrimSpace_idem s : TrimSpace (TrimSpace s) = TrimSpace s.
Proof.
  unfold TrimSpace. set (sp := fun c : Z * list Z => is_space c.1).
  set (d := decode (bytes s)).
  destruct (drop_both_idem sp d) as [Hidem (a & b & Hab)].
  set (mid := drop_while_end sp (drop_while sp d)) in *.
  assert (decode (mid ≫= snd) = mid) as Hd by (eapply (decode_middle (bytes s)); exact Hab).
  assert (Forall is_byte (mid ≫= snd)) as Hb.
  { pose proof (bytes_range s) as Hr. rewrite <- (decode_chunks (bytes s)) in Hr. fold d in Hr.
    rewrite Hab, !bind_app in Hr. apply Forall_app in Hr as [_ Hr]. by apply Forall_app in Hr as [Hr _]. }
  rewrite bytes_of_bytes by done. rewrite Hd. by rewrite Hidem.
Qed.

(** ** Theorems *)

Lemma app_keys_loop_ok pairs i keys keys' :
  (forall n k, keys !! n = Some k -> mapping_ok (n, k)) ->
  app_keys_loop pairs i keys = Ok keys' -> forall n k, keys' !! n = Some k -> mapping_ok (n, k).
Proof.
  revert i keys. induction pairs as [|p pairs IH]; intros i keys Hk; cbn [app_keys_loop].
  { by intros [= <-]. }
  case_bool_decide; [by apply IH|]. destruct (Cut _ _) as [[name key] ok]. destruct ok; [|done].
  cbn [negb orb]. case_bool_decide as Hn; [done|]. case_bool_decide as Hkey; [done|]. cbn [orb].
  apply IH. intros n k [[<- <-]|[_ Hl]]%lookup_insert_Some; [|by apply Hk].
  unfold mapping_ok. cbn [fst snd]. by rewrite !TrimSpace_idem.
Qed.

Lemma parseAppKeys_ok raw keys :
  parseAppKeys raw = Ok keys -> keys <> ∅ /\ forall n k, keys !! n = Some k -> mapping_ok (n, k).
Proof.
  unfold parseAppKeys. case_bool_decide; [done|].
  destruct (app_keys_loop _ _ _) as [ks|] eqn:E; [|done]. cbn [res_bind].
  case_bool_decide as Hs; [done|]. intros [= <-]. split; [by rewrite map_size_empty_iff in Hs|].
  eapply app_keys_loop_ok; [|exact E]. by intros n k Hk.
Qed.

Lemma optional_spec {A} Getenv name (dflt zero : A) parse a e :
  optional Getenv name dflt zero parse = (a, e) ->
  (TrimSpace (Getenv name) = "" /\ a = dflt /\ e = []) \/
  (TrimSpace (Getenv name) <> "" /\ parse (TrimSpace (Getenv name)) = Ok a /\ e = []) \/
  (TrimSpace (Getenv name) <> "" /\ exists x, parse (TrimSpace (Getenv name)) = Err x /\ e = [x]).
Proof.
  unfold optional. case_bool_decide; [intros [= <- <-]; auto|].
  destruct (parse _) eqn:E; intros [= <- <-]; eauto 10.
Qed.

Lemma positiveInt_ok name raw v : positiveInt name raw = Ok v -> 0 < v <= max_int64.
Proof.
  unfold positiveInt. destruct (parse_int64 raw) as [w|] eqn:E; [|done].
  apply parse_int64_range in E. unfold in_int64 in E. case_match; [done|]. intros [= ->]. lia.
Qed.

(** What the environment must provide. *)
Definition env_valid (Getenv : string -> string) : Prop :=
  TrimSpace (Getenv "DIFY_BASE_URL") <> "" /\ TrimSpace (Getenv "REDIS_ADDR") <> "" /\
  normalizePEMEnv (Getenv "AUTH_JWT_PUBKEY") <> "" /\
  (exists keys, parseAppKeys (Getenv "DIFY_APP_KEYS") = Ok keys) /\
  (forall name, name ∈ ["UPSTREAM_TIMEOUT_SEC"; "TOKEN_BUDGET_DAILY"; "MAX_INFLIGHT_UPSTREAM"] ->
     TrimSpace (Getenv name) = "" \/ exists v, positiveInt name (TrimSpace (Getenv name)) = Ok v) /\
  (TrimSpace (Getenv "MODERATION_ENABLED") = "" \/
   exists b, ParseBool (TrimSpace (Getenv "MODERATION_ENABLED")) = Ok b).

Lemma required_nil name v : required name v = [] <-> v <> "".
Proof. unfold required. case_bool_decide; naive_solver. Qed.

Lemma optional_nil {A} Getenv name (dflt zero : A) parse :
  (optional Getenv name dflt zero parse).2 = [] <->
  TrimSpace (Getenv name) = "" \/ exists a, parse (TrimSpace (Getenv name)) = Ok a.
Proof.
  unfold optional. case_bool_decide; [naive_solver|]. destruct (parse _); naive_solver.
Qed.

(** [Load]'s reading of MODERATION_ENABLED. *)
Definition moderation_flag (v : string) : res error bool :=
  match ParseBool v with
  | Ok b => Ok b
  | Err e => Err (EWrap "MODERATION_ENABLED must be a boolean" e)
  end.

Lemma moderation_flag_ok v : (exists b, moderation_flag v = Ok b) <-> exists b, ParseBool v = Ok b.
Proof. unfold moderation_flag. destruct (ParseBool v); naive_solver. Qed.

(** The parts of a configuration that loaded. *)
Record loaded (Getenv : string -> string) (cfg : Config) : Prop := {
  ld_base : DifyBaseURL cfg = TrimSpace (Getenv "DIFY_BASE_URL") /\ DifyBaseURL cfg <> "";
  ld_redis : RedisAddr cfg = TrimSpace (Getenv "REDIS_ADDR") /\ RedisAddr cfg <> "";
  ld_pem : AuthJWTPubKey cfg = normalizePEMEnv (Getenv "AUTH_JWT_PUBKEY") /\ AuthJWTPubKey cfg <> "";
  ld_keys : parseAppKeys (Getenv "DIFY_APP_KEYS") = Ok (DifyAppKeys cfg);
  ld_timeout : optional Getenv "UPSTREAM_TIMEOUT_SEC" defaultUpstreamTimeoutSec 0
                 (positiveInt "UPSTREAM_TIMEOUT_SEC") = (UpstreamTimeoutSec cfg, []);
  ld_budget : optional Getenv "TOKEN_BUDGET_DAILY" defaultTokenBudgetDaily 0
                (positiveInt "TOKEN_BUDGET_DAILY") = (TokenBudgetDaily cfg, []);
  ld_inflight : optional Getenv "MAX_INFLIGHT_UPSTREAM" defaultMaxInflight 0
                  (positiveInt "MAX_INFLIGHT_UPSTREAM") = (MaxInflightUpstream cfg, []);
  ld_moderation : optional Getenv "MODERATION_ENABLED" defaultModerationEnabled false
                    moderation_flag = (ModerationEnabled cfg, [])
}.

Lemma Load_loaded Getenv cfg : Load Getenv = Ok cfg -> loaded Getenv cfg.
Proof.
  unfold Load. change (fun v => match ParseBool v with Ok b => _ | Err e => _ end) with moderation_flag.
  destruct (parseAppKeys _) as [keys|ek] eqn:Ek; cycle 1.
  { do 4 (destruct (optional _ _ _ _ _)). do 3 (destruct (required _ _); [|done]). done. }
  destruct (optional Getenv "UPSTREAM_TIMEOUT_SEC" _ _ _) as [timeout e5] eqn:E5.
  destruct (optional Getenv "TOKEN_BUDGET_DAILY" _ _ _) as [budget e6] eqn:E6.
  destruct (optional Getenv "MAX_INFLIGHT_UPSTREAM" _ _ _) as [inflight e7] eqn:E7.
  destruct (optional Getenv "MODERATION_ENABLED" _ _ _) as [men e8] eqn:E8.
  destruct (required "DIFY_BASE_URL" _) eqn:R1; [|done].
  destruct (required "REDIS_ADDR" _) eqn:R2; [|done].
  destruct (required "AUTH_JWT_PUBKEY" _) eqn:R3; [|done].
  destruct e5; [|done]. destruct e6; [|done]. destruct e7; [|done]. destruct e8; [|done].
  apply required_nil in R1, R2, R3. intros [= <-]. by split.
Qed.

Lemma loaded_valid Getenv cfg : loaded Getenv cfg -> env_valid Getenv.
Proof.
  intros [[H1 H1'] [H2 H2'] [H3 H3'] H4 H5 H6 H7 H8].
  assert (forall {A} name (d z a : A) parse, optional Getenv name d z parse = (a, []) ->
    TrimSpace (Getenv name) = "" \/ exists a, parse (TrimSpace (Getenv name)) = Ok a) as Hopt
    by (intros A name d z a parse E; apply (optional_nil _ _ d z); by rewrite E).
  split_and!; [congruence..|eauto| |].
  - intros name Hin. rewrite !elem_of_cons, elem_of_nil in Hin.
    destruct Hin as [->|[->|[->|[]]]]; eauto.
  - rewrite <- moderation_flag_ok. eauto.
Qed.

Lemma valid_Load Getenv : env_valid Getenv -> exists cfg, Load Getenv = Ok cfg.
Proof.
  intros (H1 & H2 & H3 & [keys H4] & H5 & H8). unfold Load.
  change (fun v => match ParseBool v with Ok b => _ | Err e => _ end) with moderation_flag.
  rewrite <- moderation_flag_ok in H8.
  apply (optional_nil Getenv "MODERATION_ENABLED" defaultModerationEnabled false) in H8.
  pose proof (fun name dflt H => proj2 (optional_nil Getenv name dflt 0 (positiveInt name)) (H5 name H)) as N.
  pose proof (N "UPSTREAM_TIMEOUT_SEC" defaultUpstreamTimeoutSec ltac:(set_solver)) as N5.
  pose proof (N "TOKEN_BUDGET_DAILY" defaultTokenBudgetDaily ltac:(set_solver)) as N6.
  pose proof (N "MAX_INFLIGHT_UPSTREAM" defaultMaxInflight ltac:(set_solver)) as N7. clear N.
  do 4 (destruct (optional _ _ _ _ _)). cbn [snd] in *. subst.
  rewrite H4, !(proj2 (required_nil _ _)) by done. by eexists.
Qed.

Lemma optional_positive Getenv name d a :
  optional Getenv name d 0 (positiveInt name) = (a, []) -> 0 < d <= max_int64 -> 0 < a <= max_int64.
Proof.
  intros [(_ & -> & _)|[(_ & Hp & _)|(_ & x & _ & [=])]]%optional_spec Hd; [done|].
  by eapply positiveInt_ok.
Qed.

Lemma loaded_router Getenv cfg range_ :
  loaded Getenv cfg -> range_ (DifyAppKeys cfg) ≡ₚ map_to_list (DifyAppKeys cfg) ->
  exists r, NewDifyRouter range_ (DifyBaseURL cfg) (DifyAppKeys cfg) = Ok r.
Proof.
  intros [[H1 H1'] _ _ H4 _ _ _ _] Hr. set (keys := DifyAppKeys cfg) in *.
  destruct (parseAppKeys_ok _ _ H4) as [Hne Hok].
  unfold NewDifyRouter. rewrite H1, TrimSpace_idem, <- H1.
  rewrite !bool_decide_eq_false_2; [|by rewrite map_size_empty_iff|done].
  assert (NoDup (range_ keys).*1) as Hnd by (rewrite Hr; apply NoDup_fst_map_to_list).
  destruct (router_clients_ok (DifyBaseURL cfg) (range_ keys) ∅ Hnd) as (cs & -> & _); [|by eexists].
  apply Forall_forall. intros [n k] Hin. apply Hok. rewrite Hr in Hin. by apply elem_of_map_to_list.
Qed.

(** C39: configuration.  [Load] succeeds exactly for the environments that provide every
    required variable and only well-formed optional ones; the configuration it then
    returns has a positive timeout, budget and in-flight limit within int64, and app keys
    from which the router is built, in whatever order the map is ranged over. *)
Theorem Load_valid Getenv :
  (env_valid Getenv <-> exists cfg, Load Getenv = Ok cfg) /\
  forall cfg, Load Getenv = Ok cfg ->
    0 < UpstreamTimeoutSec cfg <= max_int64 /\ 0 < TokenBudgetDaily cfg <= max_int64 /\
    0 < MaxInflightUpstream cfg <= max_int64 /\ RedisAddr cfg <> "" /\ AuthJWTPubKey cfg <> "" /\
    forall range_, range_ (DifyAppKeys cfg) ≡ₚ map_to_list (DifyAppKeys cfg) ->
      exists r, NewDifyRouter range_ (DifyBaseURL cfg) (DifyAppKeys cfg) = Ok r.
Proof.
  split.
  { split; [apply valid_Load|]. intros [cfg Hcfg]. by eapply loaded_valid, Load_loaded. }
  intros cfg Hcfg%Load_loaded. pose proof Hcfg as [_ [_ H2] [_ H3] _ H5 H6 H7 _].
  split_and!; try done; try (eapply optional_positive; [eassumption|]; split; done).
  intros range_ Hr. by eapply loaded_router.
Qed.

Definition demo_getenv (name : string) : string :=
  match (list_to_map [("DIFY_BASE_URL", "http://dify/v1 "); ("REDIS_ADDR", "redis:6379");
      ("AUTH_JWT_PUBKEY", "pem"); ("DIFY_APP_KEYS", "smith=app-1; default = app-0;");
      ("MAX_INFLIGHT_UPSTREAM", " 50 ")] : gmap string string) !! name with
  | Some v => v
  | None => ""
  end.

Lemma Load_valid_witness :
  env_valid demo_getenv /\
  exists cfg, Load demo_getenv = Ok cfg /\ MaxInflightUpstream cfg = 50 /\
    exists r, NewDifyRouter map_to_list (DifyBaseURL cfg) (DifyAppKeys cfg) = Ok r.
Proof.
  destruct (Load_valid demo_getenv) as [Hv Hl].
  destruct (Load demo_getenv) as [cfg|e] eqn:E; [|vm_compute in E; discriminate E].
  split; [apply Hv; by exists cfg|]. exists cfg. split; [done|]. split.
  - vm_compute in E. injection E as <-. reflexivity.
  - destruct (Hl cfg eq_refl) as (_ & _ & _ & _ & _ & H). by apply H.
Defined.
