(* ===== verification/Listener.v ===== *)
(** * internal/listener: one connection

    [dispatch] is the reaction to one frame: the connection after it and what it does (a
    reply, a request goroutine created, a reset run).  A connection's life is the
    interleaving of what its read loop meets with the starts and ends of its request
    goroutines; [on_input] is one such step ([ServeConn]'s loop body, its deferred
    teardown, the goroutine of [handleChat]) and [life] runs a list of them.  A goroutine
    reads the player from the session when it starts, not when it is created.  The frames
    it sends are [HandleChat]'s (Pipeline). *)

From S2P Require Import Prelude GoNum GoErr Proto Auth Mux Pipeline.

Definition DefaultIdleTimeout : Z := 60 * Second.

(** ** Envelopes *)

Definition pong : ServerEnvelope := Server_Pong.
Definition authResult (ok : bool) (reason : string) : ServerEnvelope :=
  Server_AuthResult {| AR_Ok := ok; AR_Reason := reason |}.
Definition errorMsg (requestID code message : string) : ServerEnvelope :=
  Server_Error {| EM_RequestId := requestID; EM_Code := code; EM_Message := message |}.

(** ** Dispatch *)

(** [RunChat], [RunReset]: the handler's methods called, with the session of that moment. *)
Inductive act :=
| Reply (e : ServerEnvelope)
| Spawn (instance : nat) (req : ChatRequest)
| RunChat (instance : nat) (req : ChatRequest) (s : Session)
| RunReset (req : ResetRequest) (s : Session).

(** [created]: goroutines that have not started; [serving]: those inside [HandleChat];
    [closed]: the read loop has exited and the deferred cancellations have run. *)
Record conn := {
  sess : Session;
  registry : Registry.state;
  created : list (nat * ChatRequest);
  serving : list (nat * ChatRequest);
  closed : bool
}.

Definition set_sess (s : Session) (c : conn) : conn :=
  {| sess := s; registry := registry c; created := created c; serving := serving c;
     closed := closed c |}.
Definition set_registry (r : Registry.state) (c : conn) : conn :=
  {| sess := sess c; registry := r; created := created c; serving := serving c;
     closed := closed c |}.

Section Server.
(** The handler and the token check behind its [Authenticate]. *)
Context (h : Handler) (verify : string -> res error string).

Definition handleChat (c : conn) (req : ChatRequest) : conn * list act :=
  let reqID := Chat_RequestId req in
  if bool_decide (reqID = "") then (c, [Reply (errorMsg "" "BAD_REQUEST" "request_id is required")])
  else if negb (Authenticated (sess c))
  then (c, [Reply (errorMsg reqID "UNAUTHENTICATED" "authenticate before chatting")])
  else
    match Registry.Begin reqID (registry c) with
    | (_, None) => (c, [Reply (errorMsg reqID "BAD_REQUEST" "duplicate request_id in flight")])
    | (r, Some i) =>
        ({| sess := sess c; registry := r; created := created c ++ [(i, req)];
            serving := serving c; closed := closed c |}, [Spawn i req])
    end.

Definition handleReset (c : conn) (req : ResetRequest) : conn * list act :=
  let reqID := Reset_RequestId req in
  if bool_decide (reqID = "") then (c, [Reply (errorMsg "" "BAD_REQUEST" "request_id is required")])
  else if negb (Authenticated (sess c))
  then (c, [Reply (errorMsg reqID "UNAUTHENTICATED" "authenticate before resetting")])
  else (c, [RunReset req (sess c)]).

Definition dispatch (c : conn) (env : ClientEnvelope) : conn * list act :=
  match env with
  | Some Client_Ping => (c, [Reply pong])
  | Some (Client_Auth m) =>
      let '(s, (ok, reason)) := Authenticate h verify (sess c) m in
      (set_sess s c, [Reply (authResult ok reason)])
  | Some (Client_Stop m) =>
      (set_registry (Registry.Stop (Stop_RequestId m) (registry c)).1 c, [])
  | Some (Client_Chat m) => handleChat c m
  | Some (Client_Reset m) => handleReset c m
  | None => (c, [])
  end.

(** ** A connection's life *)

Definition open (connID remote : string) (now : Z) : conn :=
  {| sess := session_New connID remote now; registry := Registry.NewRegistry;
     created := []; serving := []; closed := false |}.

(** The loop returns: the deferred [CancelAll]; [Wait] then waits for the goroutines. *)
Definition teardown (c : conn) : conn :=
  {| sess := sess c; registry := Registry.CancelAll (registry c);
     created := created c; serving := serving c; closed := true |}.

(** What happens next: setting the deadline or the read fails, a frame is read (with the
    connection's context cancelled or not), the [k]th created goroutine starts, the [k]th
    serving one returns from [HandleChat]. *)
Inductive input :=
| In_DeadlineError
| In_ReadError (e : error)
| In_Frame (ctx_cancelled : bool) (env : ClientEnvelope)
| In_Start (k : nat)
| In_Return (k : nat).

Definition start_goroutine (k : nat) (c : conn) : conn * list act :=
  match created c !! k with
  | Some (i, req) =>
      ({| sess := sess c; registry := registry c; created := delete k (created c);
          serving := serving c ++ [(i, req)]; closed := closed c |}, [RunChat i req (sess c)])
  | None => (c, [])
  end.

(** The goroutine's deferred [done]. *)
Definition end_goroutine (k : nat) (c : conn) : conn * list act :=
  match serving c !! k with
  | Some (i, req) =>
      ({| sess := sess c; registry := Registry.done (Chat_RequestId req) i (registry c);
          created := created c; serving := delete k (serving c); closed := closed c |}, [])
  | None => (c, [])
  end.

Definition on_input (x : input) (c : conn) : conn * list act :=
  match x with
  | In_Start k => start_goroutine k c
  | In_Return k => end_goroutine k c
  | In_DeadlineError | In_ReadError _ | In_Frame true _ =>
      if closed c then (c, []) else (teardown c, [])
  | In_Frame false env => if closed c then (c, []) else dispatch c env
  end.

Fixpoint life (inputs : list input) (c : conn) : conn * list act :=
  match inputs with
  | [] => (c, [])
  | x :: inputs =>
      let '(c, acts) := on_input x c in
      let '(c, rest) := life inputs c in (c, acts ++ rest)
  end.

(** ** Who acts *)

(** The tokens the client presents. *)
Definition token_of (x : input) : list string :=
  match x with In_Frame false (Some (Client_Auth m)) => [SessionToken m] | _ => [] end.
Definition presented (inputs : list input) : list string := inputs ≫= token_of.

(** The session is unauthenticated, or its player comes from one of [tokens], verified. *)
Definition sess_ok (tokens : list string) (s : Session) : Prop :=
  Authenticated s = true ->
  exists token, token ∈ tokens /\ token <> "" /\ verify token = Ok (PlayerID s).

Definition act_ok (tokens : list string) (a : act) : Prop :=
  match a with
  | Reply _ => True
  | Spawn _ req => Chat_RequestId req <> ""
  | RunChat _ req s => Chat_RequestId req <> "" /\ Authenticated s = true /\ sess_ok tokens s
  | RunReset req s => Reset_RequestId req <> "" /\ Authenticated s = true /\ sess_ok tokens s
  end.

(** [created] goroutines are an authenticated session's. *)
Record gate_inv (tokens : list string) (c : conn) : Prop := {
  gate_sess : sess_ok tokens (sess c);
  gate_created : forall i req, (i, req) ∈ created c ->
    Chat_RequestId req <> "" /\ Authenticated (sess c) = true
}.

Lemma sess_ok_more tokens more s : sess_ok tokens s -> sess_ok (tokens ++ more) s.
Proof. intros Hs Ha. destruct (Hs Ha) as (t & Hin & Ht). exists t. split; [|done]. apply elem_of_app. by left. Qed.

Lemma act_ok_more tokens more a : act_ok tokens a -> act_ok (tokens ++ more) a.
Proof. destruct a; cbn; try done; intros (? & ? & ?); (split_and!; [done..|by apply sess_ok_more]). Qed.

Lemma gate_inv_more tokens more c : gate_inv tokens c -> gate_inv (tokens ++ more) c.
Proof. intros [? ?]. split; [by apply sess_ok_more|done]. Qed.

Lemma Authenticate_ok tokens s m s' r :
  sess_ok tokens s -> Authenticate h verify s m = (s', r) ->
  sess_ok (tokens ++ [SessionToken m]) s' /\ (Authenticated s = true -> Authenticated s' = true).
Proof.
  intros Hs%(sess_ok_more _ [SessionToken m]). unfold Authenticate, BindSession.
  destruct (has_auth h); cbn [negb]; [|by intros [= <- _]].
  case_bool_decide as Ht; [by intros [= <- _]|].
  destruct (verify (SessionToken m)) as [p|e] eqn:Ev.
  - intros [= <- _]. split; [|done]. intros _. exists (SessionToken m). split; [|done].
    apply elem_of_app. right. left.
  - case_match; by intros [= <- _].
Qed.

Ltac decided := repeat match goal with
  | H : bool_decide _ = false |- _ => apply bool_decide_eq_false in H
  | H : negb _ = false |- _ => apply negb_false_iff in H
  end.

Lemma dispatch_gate tokens c env :
  gate_inv tokens c ->
  let tokens' := tokens ++ token_of (In_Frame false env) in
  gate_inv tokens' (dispatch c env).1 /\ Forall (act_ok tokens') (dispatch c env).2.
Proof.
  cbv zeta. intros Hg. pose proof (gate_inv_more _ (token_of (In_Frame false env)) _ Hg) as Hg'.
  destruct Hg as [Hs0 Hc]. pose proof (gate_sess _ _ Hg') as Hs. unfold dispatch, handleChat, handleReset.
  destruct env as [[m|m|m| |m]|]; cbn [fst snd token_of] in *; try by split; [|repeat constructor].
  - destruct (Authenticate h verify (sess c) m) as [s [ok reason]] eqn:E.
    destruct (Authenticate_ok _ _ _ _ _ Hs0 E) as [Hs' Ha].
    split; [|by repeat constructor]. split; [done|]. intros i req Hin. cbn in *.
    destruct (Hc i req Hin). auto.
  - destruct (bool_decide (Chat_RequestId m = "")) eqn:Er; [by split; [|repeat constructor]|].
    destruct (negb _) eqn:Ea; [by split; [|repeat constructor]|]. decided.
    destruct (Registry.Begin _ _) as [r [i|]]; [|by split; [|repeat constructor]].
    split; [|by repeat constructor]. split; [done|]. intros j req. cbn.
    rewrite elem_of_app, list_elem_of_singleton. intros [?|[= -> ->]]; [by eapply Hc|done].
  - destruct (bool_decide (Reset_RequestId m = "")) eqn:Er; [by split; [|repeat constructor]|].
    destruct (negb _) eqn:Ea; [by split; [|repeat constructor]|]. decided.
    split; [done|]. by repeat constructor.
Qed.

Lemma on_input_gate tokens x c :
  gate_inv tokens c -> let tokens' := tokens ++ token_of x in
  gate_inv tokens' (on_input x c).1 /\ Forall (act_ok tokens') (on_input x c).2.
Proof.
  cbv zeta. intros Hg. pose proof (gate_inv_more _ (token_of x) _ Hg) as Hg'.
  destruct x as [|e|[] env|k|k]; cbn [on_input].
  1-4: destruct (closed c); try (by split; [|constructor]).
  1-3: destruct Hg'; by split; [|constructor].
  - by apply dispatch_gate.
  - unfold start_goroutine. destruct (created c !! k) as [[i req]|] eqn:E; [|by split; [|constructor]].
    destruct Hg' as [Hs Hc]. destruct (Hc i req) as [H1 H2]; [by eapply list_elem_of_lookup_2|].
    split; [|by repeat constructor]. split; [done|]. intros j r Hin. cbn in Hin.
    eapply Hc. rewrite (delete_Permutation _ _ _ E). by right.
  - unfold end_goroutine. destruct (serving c !! k) as [[i req]|]; [|by split; [|constructor]].
    destruct Hg'; by split; [|constructor].
Qed.

Lemma life_gate tokens inputs c :
  gate_inv tokens c -> let tokens' := tokens ++ presented inputs in
  gate_inv tokens' (life inputs c).1 /\ Forall (act_ok tokens') (life inputs c).2.
Proof.
  cbv zeta. unfold presented. revert tokens c.
  induction inputs as [|x inputs IH]; intros tokens c Hc; cbn [life mbind list_bind].
  { rewrite app_nil_r. by split; [|constructor]. }
  destruct (on_input_gate tokens x c Hc) as [H1 H2]. destruct (on_input x c) as [c' acts].
  destruct (IH _ c' H1) as [H3 H4]. destruct (life inputs c') as [c'' rest].
  rewrite <- app_assoc in H3, H4. split; [done|]. apply Forall_app_2; [|done].
  eapply Forall_impl; [exact H2|]. intros a Ha. rewrite app_assoc. by apply act_ok_more.
Qed.

Lemma gate_open connID remote now : gate_inv [] (open connID remote now).
Proof. split; [done|]. intros i req Hin. by apply elem_of_nil in Hin. Qed.

(** What a frame calls for, a rule per case: the connection after it and what is done. *)
Inductive reaction (c : conn) : ClientEnvelope -> conn -> list act -> Prop :=
| on_ping : reaction c (Some Client_Ping) c [Reply pong]
| on_unknown : reaction c None c []
| on_stop m i : Registry.inflight (registry c) !! Stop_RequestId m = Some i ->
    reaction c (Some (Client_Stop m)) (set_registry (Registry.cancel i (registry c)) c) []
| on_stop_unknown m : Registry.inflight (registry c) !! Stop_RequestId m = None ->
    reaction c (Some (Client_Stop m)) c []
  (* authentication *)
| on_auth_unavailable m : has_auth h = false ->
    reaction c (Some (Client_Auth m)) c [Reply (authResult false "authenticator unavailable")]
| on_auth_no_token m : has_auth h = true -> SessionToken m = "" ->
    reaction c (Some (Client_Auth m)) c [Reply (authResult false "missing session token")]
| on_auth_expired m e : has_auth h = true -> SessionToken m <> "" -> verify (SessionToken m) = Err e ->
    errors_is e ErrExpiredToken = true ->
    reaction c (Some (Client_Auth m)) c [Reply (authResult false "session token expired")]
| on_auth_invalid m e : has_auth h = true -> SessionToken m <> "" -> verify (SessionToken m) = Err e ->
    errors_is e ErrExpiredToken = false ->
    reaction c (Some (Client_Auth m)) c [Reply (authResult false "invalid session token")]
| on_auth_ok m p : has_auth h = true -> SessionToken m <> "" -> verify (SessionToken m) = Ok p ->
    reaction c (Some (Client_Auth m)) (set_sess (Bind p (sess c)) c) [Reply (authResult true "")]
  (* chat *)
| on_chat_no_id m : Chat_RequestId m = "" ->
    reaction c (Some (Client_Chat m)) c [Reply (errorMsg "" "BAD_REQUEST" "request_id is required")]
| on_chat_unauthenticated m : Chat_RequestId m <> "" -> Authenticated (sess c) = false ->
    reaction c (Some (Client_Chat m)) c
      [Reply (errorMsg (Chat_RequestId m) "UNAUTHENTICATED" "authenticate before chatting")]
| on_chat_duplicate m i : Chat_RequestId m <> "" -> Authenticated (sess c) = true ->
    Registry.inflight (registry c) !! Chat_RequestId m = Some i ->
    reaction c (Some (Client_Chat m)) c
      [Reply (errorMsg (Chat_RequestId m) "BAD_REQUEST" "duplicate request_id in flight")]
| on_chat m c' : Chat_RequestId m <> "" -> Authenticated (sess c) = true ->
    Registry.inflight (registry c) !! Chat_RequestId m = None ->
    let i := Registry.next (registry c) in
    Registry.inflight (registry c') = <[Chat_RequestId m := i]> (Registry.inflight (registry c)) ->
    Registry.next (registry c') = S i -> Registry.wg (registry c') = Registry.wg (registry c) + 1 ->
    Registry.cancelled (registry c') = Registry.cancelled (registry c) ->
    Registry.fired (registry c') = Registry.fired (registry c) ->
    created c' = created c ++ [(i, m)] -> serving c' = serving c -> sess c' = sess c ->
    closed c' = closed c ->
    reaction c (Some (Client_Chat m)) c' [Spawn i m]
  (* reset *)
| on_reset_no_id m : Reset_RequestId m = "" ->
    reaction c (Some (Client_Reset m)) c [Reply (errorMsg "" "BAD_REQUEST" "request_id is required")]
| on_reset_unauthenticated m : Reset_RequestId m <> "" -> Authenticated (sess c) = false ->
    reaction c (Some (Client_Reset m)) c
      [Reply (errorMsg (Reset_RequestId m) "UNAUTHENTICATED" "authenticate before resetting")]
| on_reset m : Reset_RequestId m <> "" -> Authenticated (sess c) = true ->
    reaction c (Some (Client_Reset m)) c [RunReset m (sess c)].

Lemma dispatch_reaction c env : reaction c env (dispatch c env).1 (dispatch c env).2.
Proof.
  unfold dispatch, handleChat, handleReset. destruct env as [[m|m|m| |m]|]; try constructor.
  - unfold Authenticate, BindSession. destruct (has_auth h) eqn:Eh; cbn [negb]; [|by destruct c; constructor].
    case_bool_decide; [by destruct c; constructor|].
    destruct (verify (SessionToken m)) as [p|e] eqn:Ev; [by constructor|].
    destruct (errors_is e ErrExpiredToken) eqn:Ee; destruct c; by econstructor.
  - case_bool_decide; [by constructor|]. destruct (Authenticated (sess c)) eqn:Ea; cbn [negb]; [|by constructor].
    unfold Registry.Begin. destruct (Registry.inflight (registry c) !! Chat_RequestId m) eqn:Ei;
      [by econstructor|by constructor].
  - unfold Registry.Stop. destruct (Registry.inflight (registry c) !! Stop_RequestId m) eqn:Ei; [by constructor|].
    destruct c. by constructor.
  - case_bool_decide; [by constructor|]. destruct (Authenticated (sess c)) eqn:Ea; cbn [negb]; by constructor.
Qed.

(** The rules exclude each other. *)
Lemma reaction_unique c env c1 l1 c2 l2 : reaction c env c1 l1 -> reaction c env c2 l2 -> c1 = c2 /\ l1 = l2.
Proof.
  intros H1 H2. destruct H1; inversion H2; subst; try (split; congruence); try congruence.
  split; [|done]. destruct c' as [? [] ? ? ?], c2 as [? [] ? ? ?]. cbn in *. by simplify_eq.
Qed.

(** ** What runs

    The goroutines of a connection against its registry. *)

Definition goroutines (c : conn) : list (nat * string) :=
  (fun x => (x.1, Chat_RequestId x.2)) <$> created c ++ serving c.

Record tracked (gs : list (nat * string)) (cl : bool) (r : Registry.state) : Prop := {
  tr_inflight : forall rid i, Registry.inflight r !! rid = Some i <-> (i, rid) ∈ gs;
  tr_nodup : NoDup gs.*1;
  tr_next : forall i, i ∈ gs.*1 -> (i < Registry.next r)%nat;
  tr_fired : forall i, i ∈ Registry.fired r -> (i < Registry.next r)%nat /\ i ∉ gs.*1;
  tr_wg : Registry.wg r = Z.of_nat (length gs);
  tr_closed : cl = true -> forall i, i ∈ gs.*1 -> i ∈ Registry.cancelled r
}.

#[export] Instance tracked_proper cl r : Proper ((≡ₚ) ==> iff) (fun gs => tracked gs cl r).
Proof.
  assert (forall gs gs', gs ≡ₚ gs' -> tracked gs cl r -> tracked gs' cl r) as Himp.
  { intros gs gs' Hp [H1 H2 H3 H4 H5 H6]. split.
    - intros rid i. by rewrite H1, Hp.
    - by rewrite <- Hp.
    - intros i. rewrite <- Hp. auto.
    - intros i Hi. rewrite <- Hp. auto.
    - by rewrite <- Hp.
    - intros Hc i. rewrite <- Hp. auto. }
  intros gs gs' Hp. split; apply Himp; by rewrite Hp.
Qed.

Lemma tracked_begin gs r rid r' i :
  tracked gs false r -> Registry.Begin rid r = (r', Some i) -> tracked ((i, rid) :: gs) false r'.
Proof.
  intros [H1 H2 H3 H4 H5 H6]. unfold Registry.Begin.
  destruct (Registry.inflight r !! rid) eqn:E; intros [= <- <-].
  assert (Registry.next r ∉ gs.*1) as Hfresh by (intros Hin; apply H3 in Hin; lia).
  assert (forall j, (j, rid) ∉ gs) as Hrid by (intros j Hj; apply H1 in Hj; congruence).
  split; cbn.
  - intros rid' j. rewrite elem_of_cons, <- H1. destruct (decide (rid = rid')) as [<-|Hne].
    + rewrite lookup_insert_eq, E. naive_solver.
    + rewrite lookup_insert_ne by done. naive_solver.
  - by constructor.
  - intros j. rewrite elem_of_cons. intros [->|Hj]; [lia|]. apply H3 in Hj. lia.
  - intros j Hj. destruct (H4 j Hj). split; [lia|]. rewrite elem_of_cons. intros [->|?]; [lia|done].
  - lia.
  - done.
Qed.

Lemma tracked_done gs cl r rid i :
  tracked ((i, rid) :: gs) cl r -> tracked gs cl (Registry.done rid i r).
Proof.
  intros [H1 H2 H3 H4 H5 H6]. unfold Registry.done.
  assert (i ∉ Registry.fired r) as Hi by (intros Hi; apply (H4 i Hi); cbn; left).
  rewrite decide_False by done. cbn in H2. apply NoDup_cons in H2 as [Hn Hnd].
  split; cbn.
  - intros rid' j. rewrite lookup_delete_Some, H1, elem_of_cons. split; [naive_solver|].
    intros Hj. split; [|by right]. intros <-.
    assert (Registry.inflight r !! rid = Some i) by (apply H1; by left).
    assert (Registry.inflight r !! rid = Some j) by (apply H1; by right).
    assert (j = i) as -> by congruence. apply Hn. apply list_elem_of_fmap. by exists (i, rid).
  - done.
  - intros j Hj. apply H3. cbn. by right.
  - intros j. rewrite elem_of_union, elem_of_singleton. intros [->|Hj].
    + split; [|done]. apply H3. cbn. by left.
    + destruct (H4 j Hj) as [? Hj']. split; [done|]. intros ?. apply Hj'. cbn. by right.
  - rewrite H5. cbn [length]. lia.
  - intros Hcl j Hj. apply elem_of_union. right. apply H6; [done|]. cbn. by right.
Qed.

Lemma tracked_cancel gs cl r i : tracked gs cl r -> tracked gs cl (Registry.cancel i r).
Proof. intros [H1 H2 H3 H4 H5 H6]. split; cbn; set_solver. Qed.

Lemma tracked_Stop gs cl r rid : tracked gs cl r -> tracked gs cl (Registry.Stop rid r).1.
Proof. intros Hr. unfold Registry.Stop. case_match; [by apply tracked_cancel|done]. Qed.

Lemma tracked_CancelAll gs cl r : tracked gs cl r -> tracked gs true (Registry.CancelAll r).
Proof.
  intros Hr. assert (tracked gs cl (Registry.CancelAll r)) as [K1 K2 K3 K4 K5 _].
  { unfold Registry.CancelAll. by induction (Registry.inflight_cancels r); [|apply tracked_cancel]. }
  split; try done. intros _ i Hi. apply Registry.cancelled_CancelAll. right.
  apply list_elem_of_fmap in Hi as ([j rid] & -> & Hi). exists rid. by apply Hr.
Qed.

Definition tracks (c : conn) : Prop := tracked (goroutines c) (closed c) (registry c).

Lemma tracks_input x c : tracks c -> tracks (on_input x c).1.
Proof.
  unfold tracks, goroutines. intros Ht. destruct x as [|e|cc env|k|k]; cbn [on_input].
  1-2: destruct (closed c) eqn:E; cbn [fst]; [by rewrite E|by eapply tracked_CancelAll].
  - assert (closed c = false -> tracks (dispatch c env).1) as Hd.
    { intros E. unfold dispatch, handleChat, handleReset, tracks, goroutines. rewrite E in Ht.
      destruct env as [[m|m|m| |m]|]; cbn; try by rewrite E.
      - destruct (Authenticate _ _ _ _) as [s [ok reason]]. cbn. by rewrite E.
      - case_bool_decide; [by cbn; rewrite E|]. destruct (negb _); [by cbn; rewrite E|].
        destruct (Registry.Begin _ _) as [r [i|]] eqn:Eb; cbn; rewrite E; [|done].
        apply (tracked_begin _ _ _ _ _ Ht) in Eb.
        eapply tracked_proper; [|exact Eb]. rewrite !fmap_app, <- app_assoc.
        symmetry. apply Permutation_middle.
      - rewrite E. by apply tracked_Stop.
      - case_bool_decide; [by cbn; rewrite E|]. by destruct (negb _); cbn; rewrite E. }
    destruct cc, (closed c) eqn:E; cbn [fst]; try (by rewrite E); [by eapply tracked_CancelAll|].
    by apply Hd.
  - unfold start_goroutine. destruct (created c !! k) as [[i req]|] eqn:E; [|done]. cbn.
    eapply tracked_proper; [|exact Ht]. apply fmap_Permutation.
    pose proof (delete_Permutation _ _ _ E) as Hp. revert Hp. generalize (delete k (created c)).
    intros l Hp. rewrite Hp, app_assoc. symmetry. apply Permutation_cons_append.
  - unfold end_goroutine. destruct (serving c !! k) as [[i req]|] eqn:E; [|done]. cbn.
    apply tracked_done. eapply tracked_proper; [|exact Ht].
    change ((i, Chat_RequestId req)) with ((fun x => (x.1, Chat_RequestId x.2)) (i, req)).
    rewrite <- fmap_cons. apply fmap_Permutation.
    pose proof (delete_Permutation _ _ _ E) as Hp. revert Hp. generalize (delete k (serving c)).
    intros l Hp. rewrite Hp. apply Permutation_middle.
Qed.

Lemma tracks_life inputs c : tracks c -> tracks (life inputs c).1.
Proof.
  revert c. induction inputs as [|x inputs IH]; intros c Hc; cbn [life]; [done|].
  apply (tracks_input x), IH in Hc. destruct (on_input x c) as [c' acts]. cbn [fst] in Hc.
  by destruct (life inputs c') as [c'' rest].
Qed.

Lemma tracks_open connID remote now : tracks (open connID remote now).
Proof.
  split; cbn; try done.
  - intros rid i. by rewrite lookup_empty, elem_of_nil.
  - constructor.
  - intros i Hi. by apply elem_of_nil in Hi.
Qed.

Lemma life_app xs ys c :
  (life (xs ++ ys) c).1 = (life ys (life xs c).1).1.
Proof.
  revert c. induction xs as [|x xs IH]; intros c; [done|]. cbn [life app].
  destruct (on_input x c) as [c' acts]. specialize (IH c').
  destruct (life (xs ++ ys) c') as [c1 l1], (life xs c') as [c2 l2]. done.
Qed.

(** Every created goroutine starts and every one then returns. *)
Definition run_out (c : conn) : list input :=
  repeat (In_Start 0) (length (created c)) ++
  repeat (In_Return 0) (length (created c) + length (serving c)).

Lemma life_starts n c :
  n = length (created c) ->
  let c' := (life (repeat (In_Start 0) n) c).1 in
  created c' = [] /\ (length (serving c') = n + length (serving c))%nat /\ closed c' = closed c.
Proof.
  revert c. induction n as [|n IH]; intros c Hn; cbn [repeat life].
  - cbn. destruct (created c); [done|discriminate].
  - cbn [on_input]. unfold start_goroutine.
    destruct (created c) as [|[i req] l] eqn:E; [done|]. cbn [lookup list_lookup].
    set (c1 := {| sess := _ |}). specialize (IH c1). cbn zeta in IH.
    destruct (life (repeat (In_Start 0) n) c1) as [c2 l2]. cbn [fst] in *.
    destruct IH as (H1 & H2 & H3); [by injection Hn|]. split; [done|].
    rewrite H2. unfold c1 at 1. cbn. rewrite length_app. cbn. split; [lia|done].
Qed.

Lemma life_returns n c :
  n = length (serving c) ->
  let c' := (life (repeat (In_Return 0) n) c).1 in
  serving c' = [] /\ created c' = created c /\ closed c' = closed c.
Proof.
  revert c. induction n as [|n IH]; intros c Hn; cbn [repeat life].
  - cbn. destruct (serving c); [done|discriminate].
  - cbn [on_input]. unfold end_goroutine.
    destruct (serving c) as [|[i req] l] eqn:E; [done|]. cbn [lookup list_lookup].
    set (c1 := {| sess := _ |}). specialize (IH c1). cbn zeta in IH.
    destruct (life (repeat (In_Return 0) n) c1) as [c2 l2]. cbn [fst] in *.
    apply IH. by injection Hn.
Qed.

Lemma run_out_empty c :
  let c' := (life (run_out c) c).1 in
  created c' = [] /\ serving c' = [] /\ closed c' = closed c.
Proof.
  unfold run_out. cbn zeta. rewrite life_app.
  destruct (life_starts (length (created c)) c eq_refl) as (H1 & H2 & H3).
  set (c1 := (life (repeat (In_Start 0) _) c).1) in *.
  destruct (life_returns (length (created c) + length (serving c)) c1) as (K1 & K2 & K3); [done|].
  rewrite K1, K2, K3. done.
Qed.

(** C21: the gate of a connection.  From its opening on, whatever frames it reads and
    however its goroutines interleave, [HandleChat] is entered and a reset run only for a
    request with an id and with a session whose player comes from a token that this client
    has presented before and that verified; and what a frame does is exactly what the rules
    of [reaction] say, case by case: which reply, which goroutine, which reset, and the
    session and registry after it. *)
Theorem connection_gate inputs connID remote now :
  Forall (act_ok (presented inputs)) (life inputs (open connID remote now)).2 /\
  forall c env c' acts, dispatch c env = (c', acts) <-> reaction c env c' acts.
Proof.
  split; [by apply (life_gate []), gate_open|]. intros c env c' acts.
  pose proof (dispatch_reaction c env) as Hd. split.
  - by intros E; rewrite E in Hd.
  - intros Hr. destruct (reaction_unique _ _ _ _ _ _ Hd Hr) as [<- <-]. by destruct (dispatch c env).
Qed.

(** C23: the end of a connection.  At every moment of its life the registry holds exactly
    the goroutines not yet returned, under their request ids, which are pairwise different;
    once the read loop has exited, no frame has any effect and the context of every such
    goroutine is cancelled; and [Wait] returns exactly when none is left, which is the
    case once each has started and returned. *)
Theorem connection_teardown inputs connID remote now :
  let c := (life inputs (open connID remote now)).1 in
  (forall rid i, Registry.inflight (registry c) !! rid = Some i <-> (i, rid) ∈ goroutines c) /\
  (closed c = true ->
     (forall b env, on_input (In_Frame b env) c = (c, [])) /\
     forall i rid, (i, rid) ∈ goroutines c -> i ∈ Registry.cancelled (registry c)) /\
  (Registry.wait_returns (registry c) <-> goroutines c = []) /\
  Registry.wait_returns (registry (life (run_out c) c).1).
Proof.
  intros c. assert (tracks c) as Ht by apply tracks_life, tracks_open.
  assert (forall c, tracks c -> Registry.wait_returns (registry c) <-> goroutines c = []) as Hw.
  { intros c0 H0. unfold Registry.wait_returns. rewrite (tr_wg _ _ _ H0).
    rewrite <- length_zero_iff_nil. lia. }
  split_and!; [apply (tr_inflight _ _ _ Ht)| |by apply Hw|].
  - intros Hc. split; [by intros [] env; cbn [on_input]; rewrite Hc|].
    intros i rid Hi. apply (tr_closed _ _ _ Ht Hc). apply list_elem_of_fmap. by exists (i, rid).
  - apply Hw; [by apply tracks_life|]. unfold goroutines.
    by destruct (run_out_empty c) as (-> & -> & _).
Qed.
End Server.

(** ** An example life: a player authenticates, sends a chat twice under one id, and the
    connection drops while it is being served. *)

Definition demo_verify (token : string) : res error string :=
  if bool_decide (token = "t") then Ok "p1" else Err (ESentinel ErrInvalidToken).

Definition demo_config : HandlerConfig :=
  {| cfg_auth := true; cfg_limiter := true; cfg_store := true; cfg_context := true;
     cfg_dify := true; cfg_moderator := None; ConversationTTL := 0; ConversationLockTTL := 0 |}.

Definition demo_chat : ChatRequest :=
  {| Chat_RequestId := "r1"; Chat_ConversationId := ""; Chat_NpcId := "smith"; Chat_Query := "hi";
     Chat_Context := ∅ |}.

Definition demo_inputs : list input :=
  [In_Frame false (Some (Client_Chat demo_chat));
   In_Frame false (Some (Client_Auth {| SessionToken := "t"; Auth_PlayerId := "" |}));
   In_Frame false (Some (Client_Chat demo_chat)); In_Start 0;
   In_Frame false (Some (Client_Chat demo_chat)); In_ReadError (EText "EOF")].

Example demo_life :
  (life (New demo_config) demo_verify demo_inputs (open "conn-1" "10.0.0.1" 0)).2 =
  [Reply (errorMsg "r1" "UNAUTHENTICATED" "authenticate before chatting");
   Reply (authResult true "");
   Spawn 0 demo_chat;
   RunChat 0 demo_chat (mkSession "conn-1" "10.0.0.1" 0 "p1" true);
   Reply (errorMsg "r1" "BAD_REQUEST" "duplicate request_id in flight")].
Proof. vm_compute. reflexivity. Qed.

Lemma connection_gate_witness :
  act_ok demo_verify ["t"] (RunChat 0 demo_chat (mkSession "conn-1" "10.0.0.1" 0 "p1" true)) /\
  exists token, demo_verify token = Ok "p1".
Proof.
  destruct (connection_gate (New demo_config) demo_verify demo_inputs "conn-1" "10.0.0.1" 0) as [H _].
  rewrite demo_life in H.
  do 3 apply Forall_inv_tail in H. apply Forall_inv in H. split; [exact H|].
  destruct H as (_ & Ha & Hs). destruct (Hs Ha) as (token & _ & _ & Hv). by exists token.
Defined.

Lemma connection_teardown_witness :
  let c := (life (New demo_config) demo_verify demo_inputs (open "conn-1" "10.0.0.1" 0)).1 in
  0%nat ∈ Registry.cancelled (registry c) /\ ~ Registry.wait_returns (registry c) /\
  Registry.wait_returns (registry (life (New demo_config) demo_verify (run_out c) c).1).
Proof.
  intros c.
  destruct (connection_teardown (New demo_config) demo_verify demo_inputs "conn-1" "10.0.0.1" 0)
    as (_ & H2 & H3 & H4).
  split_and!; [|intros Hw; apply H3 in Hw; discriminate Hw|exact H4].
  destruct H2 as [_ H2]; [reflexivity|]. apply (H2 0%nat "r1"). left.
Defined.
