(* ===== verification/GoUrl.v ===== *)
(** * net/url and mime/multipart: what the Dify client uses of them

    Path-segment escaping and its inverse on bytes, the path cleaning of net/http's
    ServeMux, [filepath.Ext], and the body a [multipart.Writer] produces. *)

From S2P Require Import Prelude GoNum GoStrings.

(** ** Path segments *)

(** The bytes [url.PathEscape] keeps: letters, digits, [- _ . ~] and [$ & + : = @]. *)
Definition path_keeps (b : Z) : bool :=
  ((97 <=? b) && (b <=? 122)) || ((65 <=? b) && (b <=? 90)) || ((48 <=? b) && (b <=? 57)) ||
  bool_decide (b ∈ [45; 95; 46; 126; 36; 38; 43; 58; 61; 64]).

Definition upperhex (n : Z) : Z := if n <? 10 then 48 + n else 55 + n.

Definition escape_byte (b : Z) : list Z :=
  if path_keeps b then [b] else [37; upperhex (b / 16); upperhex (b mod 16)].

Definition PathEscape (s : string) : string := of_bytes (bytes s ≫= escape_byte).

(** [URL.EscapedPath] of a URL made from a path: as a segment, but [/ , ;] are kept. *)
Definition EscapedPath (s : string) : string :=
  of_bytes (bytes s ≫= fun b => if bool_decide (b ∈ [44; 47; 59]) then [b] else escape_byte b).

Definition unhex (b : Z) : option Z :=
  if (48 <=? b) && (b <=? 57) then Some (b - 48)
  else if (97 <=? b) && (b <=? 102) then Some (b - 97 + 10)
  else if (65 <=? b) && (b <=? 70) then Some (b - 65 + 10)
  else None.

Fixpoint unescape (l : list Z) : option (list Z) :=
  match l with
  | [] => Some []
  | b :: l =>
      if b =? 37 then
        match l with
        | h1 :: h2 :: l =>
            match unhex h1, unhex h2 with
            | Some x, Some y => cons (16 * x + y) <$> unescape l
            | _, _ => None
            end
        | _ => None
        end
      else cons b <$> unescape l
  end.

(** [url.PathUnescape]: [None] for a malformed escape. *)
Definition PathUnescape (s : string) : option string := of_bytes <$> unescape (bytes s).

(** [filepath.Ext] on a slash-separated path: from the last dot of the last element. *)
Fixpoint ext_bytes (rev acc : list Z) : list Z :=
  match rev with
  | [] => []
  | b :: rev => if b =? 47 then [] else if b =? 46 then b :: acc else ext_bytes rev (b :: acc)
  end.
Definition Ext (path : string) : string := of_bytes (ext_bytes (reverse (bytes path)) []).

(** [strings.TrimSuffix]. *)
Definition TrimSuffix (s suffix : string) : string :=
  let n := (length (bytes s) - length (bytes suffix))%nat in
  if bool_decide (drop n (bytes s) = bytes suffix) then of_bytes (take n (bytes s)) else s.

(** ** Path cleaning

    [path.Clean] on a rooted path, by its segments: empty ones and "." go, ".." takes the
    one before it away. *)

Definition clean_segments (segs : list (list Z)) : list (list Z) :=
  reverse (foldl (fun done seg =>
    if bool_decide (seg = []) || bool_decide (seg = [46]) then done
    else if bool_decide (seg = [46; 46]) then tail done else seg :: done) [] segs).

Definition path_Clean (l : list Z) : list Z :=
  match clean_segments (split_bytes 47 [] l) with
  | [] => [47]
  | segs => segs ≫= cons 47
  end.

(** net/http's [cleanPath]: rooted, cleaned, a trailing slash kept. *)
Definition cleanPath (p : string) : string :=
  match bytes p with
  | [] => "/"
  | b :: l =>
      let l := if b =? 47 then b :: l else 47 :: b :: l in
      let np := path_Clean l in
      if bool_decide (last l = Some 47) && negb (bool_decide (np = [47]))
      then of_bytes (np ++ [47]) else of_bytes np
  end.

(** ** multipart.Writer *)

Definition crlf : string := of_bytes [13; 10].
Definition quoted (s : string) : string := of_bytes [34] +:+ s +:+ of_bytes [34].

(** A part: its header lines and its content. *)
Record part := { part_header : list (string * string); part_content : string }.

Definition header_lines (hs : list (string * string)) : string :=
  foldr (fun kv acc => kv.1 +:+ ": " +:+ kv.2 +:+ crlf +:+ acc) "" hs.

(** [CreatePart] writes a line break before every boundary but the first. *)
Fixpoint multipart_parts (boundary : string) (first : bool) (ps : list part) : string :=
  match ps with
  | [] => ""
  | p :: ps =>
      (if first then "" else crlf) +:+ "--" +:+ boundary +:+ crlf +:+
      header_lines (part_header p) +:+ crlf +:+ part_content p +:+
      multipart_parts boundary false ps
  end.

Definition multipart_body (boundary : string) (ps : list part) : string :=
  multipart_parts boundary true ps +:+ crlf +:+ "--" +:+ boundary +:+ "--" +:+ crlf.

Definition FormDataContentType (boundary : string) : string :=
  "multipart/form-data; boundary=" +:+ boundary.

(** ** Lemmas *)

Lemma unhex_upperhex n : 0 <= n < 16 -> unhex (upperhex n) = Some n.
Proof.
  intros Hn. unfold unhex, upperhex.
  destruct (Z.ltb_spec n 10); repeat case_match; bool_lia || (f_equal; lia) || lia.
Qed.

Lemma path_keeps_not_percent b : path_keeps b = true -> b <> 37.
Proof. intros Hk ->. vm_compute in Hk. discriminate. Qed.

Lemma escape_byte_range b : is_byte b -> Forall is_byte (escape_byte b).
Proof.
  intros Hb. unfold escape_byte. destruct (path_keeps b); [by apply Forall_singleton|].
  unfold is_byte in *. assert (0 <= b / 16 < 16) by (split; [apply Z.div_pos|apply Z.div_lt_upper_bound]; lia).
  pose proof (Z.mod_pos_bound b 16 ltac:(lia)).
  unfold upperhex. rewrite !Forall_cons, Forall_nil. split_and!; try done; repeat case_match; lia.
Qed.

Lemma unescape_byte b l : is_byte b -> unescape (escape_byte b ++ l) = cons b <$> unescape l.
Proof.
  intros Hb. unfold escape_byte, is_byte in *.
  destruct (path_keeps b) eqn:Hk; cbn [app unescape].
  - apply path_keeps_not_percent in Hk. by rewrite (proj2 (Z.eqb_neq _ _) Hk).
  - assert (0 <= b / 16 < 16) by (split; [apply Z.div_pos|apply Z.div_lt_upper_bound]; lia).
    pose proof (Z.mod_pos_bound b 16 ltac:(lia)).
    rewrite !unhex_upperhex by done. change (37 =? 37) with true. cbn iota.
    by rewrite <- Z.div_mod by lia.
Qed.

Lemma unescape_escape l : Forall is_byte l -> unescape (l ≫= escape_byte) = Some l.
Proof.
  induction 1 as [|b l Hb Hl IH]; [done|]. rewrite bind_cons, unescape_byte, IH by done. done.
Qed.

Lemma escape_bytes l : Forall is_byte l -> Forall is_byte (l ≫= escape_byte).
Proof.
  induction 1; [constructor|]. rewrite bind_cons. apply Forall_app_2; [|done].
  by apply escape_byte_range.
Qed.

Lemma bytes_PathEscape s : bytes (PathEscape s) = bytes s ≫= escape_byte.
Proof. unfold PathEscape. apply bytes_of_bytes, escape_bytes, bytes_range. Qed.

Lemma PathUnescape_PathEscape s : PathUnescape (PathEscape s) = Some s.
Proof.
  unfold PathUnescape. rewrite bytes_PathEscape, unescape_escape by apply bytes_range.
  cbn. by rewrite of_bytes_bytes.
Qed.

(** An escaped segment has no slash: it stays one segment of the path. *)
Lemma PathEscape_one_segment s : 47 ∉ bytes (PathEscape s).
Proof.
  rewrite bytes_PathEscape. pose proof (bytes_range s) as Hr.
  induction Hr as [|b l Hb Hl IH]; [by intros ?%elem_of_nil|].
  rewrite bind_cons, elem_of_app. intros [Hin|Hin]; [|by apply IH].
  unfold escape_byte, is_byte in *. destruct (path_keeps b) eqn:Hk.
  - apply list_elem_of_singleton in Hin as <-. vm_compute in Hk. discriminate.
  - assert (0 <= b / 16 < 16) by (split; [apply Z.div_pos|apply Z.div_lt_upper_bound]; lia).
    pose proof (Z.mod_pos_bound b 16 ltac:(lia)).
    rewrite !elem_of_cons, elem_of_nil in Hin. unfold upperhex in Hin.
    destruct Hin as [?|[?|[?|[]]]]; repeat case_match; lia.
Qed.

Lemma TrimSuffix_app s suffix : TrimSuffix (s +:+ suffix) suffix = s.
Proof.
  unfold TrimSuffix. rewrite bytes_app, length_app.
  replace (length (bytes s) + length (bytes suffix) - length (bytes suffix))%nat
    with (length (bytes s)) by lia.
  rewrite bool_decide_eq_true_2 by apply drop_app_length.
  by rewrite take_app_length, of_bytes_bytes.
Qed.

Lemma TrimPrefix_app p s : TrimPrefix (p +:+ s) p = s.
Proof.
  unfold TrimPrefix, HasPrefix. rewrite bytes_app.
  assert (forall a b, prefix_b a (a ++ b) = true) as Hp.
  { intros a b. apply prefix_b_spec. by exists b. }
  by rewrite Hp, drop_app_length, of_bytes_bytes.
Qed.

(** ** Lemmas: path cleaning *)

Lemma split_bytes_free c cur a : c ∉ a -> split_bytes c cur a = [cur ++ a].
Proof.
  revert cur. induction a as [|b a IH]; intros cur Ha; cbn; [by rewrite app_nil_r|].
  apply not_elem_of_cons in Ha as [Hb Ha]. rewrite (proj2 (Z.eqb_neq b c)) by done.
  by rewrite IH, <- app_assoc.
Qed.

Lemma split_bytes_at c cur a l : c ∉ a ->
  split_bytes c cur (a ++ c :: l) = (cur ++ a) :: split_bytes c [] l.
Proof.
  revert cur. induction a as [|b a IH]; intros cur Ha; cbn; [by rewrite Z.eqb_refl, app_nil_r|].
  apply not_elem_of_cons in Ha as [Hb Ha]. rewrite (proj2 (Z.eqb_neq b c)) by done.
  by rewrite IH, <- app_assoc.
Qed.

(** The three segments of a stop's path. *)
Definition stop_path (enc : list Z) : list Z := bytes "/chat-messages/" ++ enc ++ bytes "/stop".

Lemma split_stop_path enc : 47 ∉ enc ->
  split_bytes 47 [] (stop_path enc) = [[]; bytes "chat-messages"; enc; bytes "stop"].
Proof.
  intros He. unfold stop_path.
  change (bytes "/chat-messages/" ++ enc ++ bytes "/stop") with
    ([] ++ 47 :: (bytes "chat-messages" ++ 47 :: (enc ++ 47 :: bytes "stop"))).
  assert (forall w, w = bytes "chat-messages" \/ w = bytes "stop" -> 47 ∉ w) as Hw.
  { intros w [->| ->] Hin; vm_compute in Hin;
      repeat (apply elem_of_cons in Hin as [Hin|Hin]; [done|]); by apply elem_of_nil in Hin. }
  rewrite split_bytes_at by (by intros ?%elem_of_nil). rewrite split_bytes_at by auto.
  rewrite split_bytes_at by done. by rewrite split_bytes_free by auto.
Qed.

(** It is clean unless its task id is a dot or two. *)
Lemma cleanPath_stop enc : 47 ∉ enc -> Forall is_byte enc -> enc <> [] -> enc <> [46] -> enc <> [46; 46] ->
  cleanPath (of_bytes (stop_path enc)) = of_bytes (stop_path enc).
Proof.
  intros He Hb H0 H1 H2. unfold cleanPath.
  assert (Forall is_byte (stop_path enc)) as Hall.
  { unfold stop_path. apply Forall_app_2; [apply bytes_range|]. apply Forall_app_2; [done|apply bytes_range]. }
  rewrite bytes_of_bytes by done.
  assert (exists l, stop_path enc = 47 :: l) as [l El] by (by eexists). rewrite El. cbn [Z.eqb Pos.eqb].
  rewrite <- El. unfold path_Clean. rewrite split_stop_path by done.
  assert (clean_segments [[]; bytes "chat-messages"; enc; bytes "stop"] =
    [bytes "chat-messages"; enc; bytes "stop"]) as ->.
  { unfold clean_segments. cbn [foldl].
    rewrite (bool_decide_eq_false_2 (enc = [])), (bool_decide_eq_false_2 (enc = [46])),
      (bool_decide_eq_false_2 (enc = [46; 46])) by done. reflexivity. }
  assert (last (stop_path enc) = Some 112) as Hl.
  { unfold stop_path. by rewrite !last_app. }
  assert ([bytes "chat-messages"; enc; bytes "stop"] ≫= cons 47 = stop_path enc) as ->.
  { rewrite !bind_cons. unfold stop_path. change (bytes "/chat-messages/") with (47 :: bytes "chat-messages" ++ [47]).
    cbn [app]. rewrite <- app_assoc. cbn [app]. by rewrite app_nil_r. }
  by rewrite Hl.
Qed.
