(* ===== verification/Json.v ===== *)
(** * encoding/json as the Dify client and its mock use it

    Values, [json.Marshal]'s text (HTML escaping, sorted map keys) and the parser behind
    [json.Unmarshal] (its grammar, its escapes with surrogate pairs, its nesting limit), on
    the code points of the text.  Decoding is by Go's rules: a member goes to the field
    whose tag its key equals up to case folding, an unknown one is skipped, a later one
    overrides an earlier one, null changes nothing, and a value of another type is an
    error that leaves the field as it was.  [parse_print]: what is printed is parsed back;
    [value_enough]: the parser's fuel, the text's length, never runs out. *)

From stdpp Require Import sorting pretty.
From S2P Require Import Prelude GoNum GoStrings GoDecimal GoErr Moderation Sse Retry.

(** ** Values *)

(** A number is its literal. *)
Inductive json :=
| JNull
| JBool (b : bool)
| JNumber (literal : string)
| JString (s : string)
| JArray (l : list json)
| JObject (members : list (string * json)).

Section json_ind'.
Variable P : json -> Prop.
Hypothesis (Hnull : P JNull) (Hbool : forall b, P (JBool b)) (Hnumber : forall n, P (JNumber n))
  (Hstring : forall s, P (JString s)) (Harray : forall l, Forall P l -> P (JArray l))
  (Hobject : forall ms, Forall (fun m => P m.2) ms -> P (JObject ms)).

Fixpoint json_ind' (j : json) : P j :=
  match j with
  | JNull => Hnull
  | JBool b => Hbool b
  | JNumber n => Hnumber n
  | JString s => Hstring s
  | JArray l => Harray l ((fix go l : Forall P l :=
      match l with [] => Forall_nil_2 _ | x :: l => Forall_cons_2 _ _ _ (json_ind' x) (go l) end) l)
  | JObject ms => Hobject ms ((fix go ms : Forall (fun m => P m.2) ms :=
      match ms with [] => Forall_nil_2 _ | m :: ms => Forall_cons_2 _ _ _ (json_ind' m.2) (go ms) end) ms)
  end.
End json_ind'.

(** A Go map with string keys: [json.Marshal] sorts them. *)
Definition key_le (m n : string * json) : Prop := String.leb m.1 n.1 = true.
#[export] Instance key_le_dec m n : Decision (key_le m n).
Proof. unfold key_le. apply _. Defined.

Definition JMap (members : list (string * json)) : json := JObject (merge_sort key_le members).

Definition JInt (z : Z) : json := JNumber (format_int z).

(** ** json.Marshal *)

Definition hex_lower (n : Z) : Z := if n <? 10 then 48 + n else 87 + n.
Definition hex4 (r : Z) : list Z :=
  [hex_lower (r / 4096); hex_lower ((r / 256) mod 16); hex_lower ((r / 16) mod 16); hex_lower (r mod 16)].

(** One step of the range over a string: the rune and the bytes it was read from. *)
Definition escape_rune (c : Z * list Z) : list Z :=
  let '(r, w) := c in
  if (r =? 34) || (r =? 92) then [92; r]
  else if r =? 8 then [92; 98]
  else if r =? 12 then [92; 102]
  else if r =? 10 then [92; 110]
  else if r =? 13 then [92; 114]
  else if r =? 9 then [92; 116]
  else if (r <? 32) || (r =? 60) || (r =? 62) || (r =? 38) || (r =? 8232) || (r =? 8233) ||
          ((r =? RuneError) && bool_decide (length w = 1%nat))
  then 92 :: 117 :: hex4 r
  else [r].

Definition print_string (s : string) : list Z := 34 :: (decode (bytes s) ≫= escape_rune) ++ [34].

Fixpoint commas (l : list (list Z)) : list Z :=
  match l with
  | [] => []
  | [x] => x
  | x :: l => x ++ 44 :: commas l
  end.

Fixpoint print (j : json) : list Z :=
  match j with
  | JNull => bytes "null"
  | JBool true => bytes "true"
  | JBool false => bytes "false"
  | JNumber n => bytes n
  | JString s => print_string s
  | JArray l => 91 :: commas (map print l) ++ [93]
  | JObject ms => 123 :: commas (map (fun m => print_string m.1 ++ 58 :: print m.2) ms) ++ [125]
  end.

Definition Marshal (j : json) : string := string_of_runes (print j).

(** ** The parser *)

Definition is_ws (r : Z) : bool := (r =? 32) || (r =? 9) || (r =? 10) || (r =? 13).
Definition skip_ws : list Z -> list Z := drop_while is_ws.

Definition is_digit (r : Z) : bool := (48 <=? r) && (r <=? 57).

Definition unhex_digit (r : Z) : option Z :=
  if is_digit r then Some (r - 48)
  else if (97 <=? r) && (r <=? 102) then Some (r - 87)
  else if (65 <=? r) && (r <=? 70) then Some (r - 55)
  else None.

Definition getu4 (a b c d : Z) : option Z :=
  match unhex_digit a, unhex_digit b, unhex_digit c, unhex_digit d with
  | Some a, Some b, Some c, Some d => Some (a * 4096 + b * 256 + c * 16 + d)
  | _, _, _, _ => None
  end.

Definition is_surrogate (r : Z) : bool := (55296 <=? r) && (r <? 57344).

(** [utf16.DecodeRune], [None] for its replacement character. *)
Definition pair_of (r1 r2 : Z) : option Z :=
  if (55296 <=? r1) && (r1 <? 56320) && (56320 <=? r2) && (r2 <? 57344)
  then Some ((r1 - 55296) * 1024 + (r2 - 56320) + 65536) else None.

(** The character after a backslash, other than u. *)
Definition unescape_char (e : Z) : option Z :=
  if (e =? 34) || (e =? 92) || (e =? 47) then Some e
  else if e =? 98 then Some 8
  else if e =? 102 then Some 12
  else if e =? 110 then Some 10
  else if e =? 114 then Some 13
  else if e =? 116 then Some 9
  else None.

Definition then_rune (r : Z) (x : option (list Z * list Z)) : option (list Z * list Z) :=
  match x with Some (rs, rest) => Some (r :: rs, rest) | None => None end.

(** The rest of a string literal: its runes, and what follows the closing quote. *)
Fixpoint string_body (l : list Z) : option (list Z * list Z) :=
  match l with
  | [] => None
  | r :: l1 =>
      if r =? 34 then Some ([], l1)
      else if r =? 92 then
        match l1 with
        | [] => None
        | e :: l2 =>
            if e =? 117 then
              match l2 with
              | a :: b :: c :: d :: l3 =>
                  match getu4 a b c d with
                  | None => None
                  | Some u =>
                      if is_surrogate u then
                        match l3 with
                        | 92 :: 117 :: a2 :: b2 :: c2 :: d2 :: l4 =>
                            match getu4 a2 b2 c2 d2 with
                            | None => None
                            | Some u2 =>
                                match pair_of u u2 with
                                | Some p => then_rune p (string_body l4)
                                | None => then_rune RuneError (string_body l3)
                                end
                            end
                        | _ => then_rune RuneError (string_body l3)
                        end
                      else then_rune u (string_body l3)
                  end
              | _ => None
              end
            else match unescape_char e with
                 | Some x => then_rune x (string_body l2)
                 | None => None
                 end
        end
      else if r <? 32 then None
      else then_rune r (string_body l1)
  end.

Definition string_literal (l : list Z) : option (string * list Z) :=
  match l with
  | 34 :: l => match string_body l with
               | Some (rs, rest) => Some (string_of_runes rs, rest)
               | None => None
               end
  | _ => None
  end.

Fixpoint take_digits (l : list Z) : list Z * list Z :=
  match l with
  | r :: l' => if is_digit r then let '(ds, rest) := take_digits l' in (r :: ds, rest) else ([], l)
  | [] => ([], [])
  end.

(** The parts of a number: each gives what it read and what follows, [None] if ill-formed. *)
Definition int_part (l : list Z) : option (list Z * list Z) :=
  match l with
  | r :: l' => if r =? 48 then Some ([48], l')
               else if is_digit r then Some (take_digits l) else None
  | [] => None
  end.

Definition digits1 (l : list Z) : option (list Z * list Z) :=
  match take_digits l with ([], _) => None | x => Some x end.

Definition frac_part (l : list Z) : option (list Z * list Z) :=
  match l with
  | 46 :: l => match digits1 l with Some (ds, rest) => Some (46 :: ds, rest) | None => None end
  | _ => Some ([], l)
  end.

Definition exp_part (l : list Z) : option (list Z * list Z) :=
  match l with
  | e :: l' =>
      if (e =? 101) || (e =? 69) then
        let '(sg, l2) := match l' with
                         | s :: l2 => if (s =? 43) || (s =? 45) then ([s], l2) else ([], l')
                         | [] => ([], l')
                         end in
        match digits1 l2 with Some (ds, rest) => Some (e :: sg ++ ds, rest) | None => None end
      else Some ([], l)
  | [] => Some ([], l)
  end.

Definition number_literal (l : list Z) : option (list Z * list Z) :=
  let '(sg, l) := match l with 45 :: l' => ([45], l') | _ => ([], l) end in
  match int_part l with
  | None => None
  | Some (i, l) =>
      match frac_part l with
      | None => None
      | Some (f, l) =>
          match exp_part l with
          | None => None
          | Some (e, l) => Some (sg ++ i ++ f ++ e, l)
          end
      end
  end.

Definition word (w : string) (v : json) (l : list Z) : option (json * list Z) :=
  if prefix_b (bytes w) l then Some (v, drop (length (bytes w)) l) else None.

Definition maxNestingDepth : Z := 10000.

(** A value after white space; [members] and [elements] start after the opening bracket
    or a comma. *)
Fixpoint value (fuel : nat) (depth : Z) (l : list Z) : option (json * list Z) :=
  match fuel with
  | O => None
  | S fuel =>
      match skip_ws l with
      | [] => None
      | r :: l1 =>
          if r =? 123 then
            if maxNestingDepth <=? depth then None
            else match skip_ws l1 with
                 | 125 :: l2 => Some (JObject [], l2)
                 | l2 => match members fuel (depth + 1) l2 with
                         | Some (ms, rest) => Some (JObject ms, rest)
                         | None => None
                         end
                 end
          else if r =? 91 then
            if maxNestingDepth <=? depth then None
            else match skip_ws l1 with
                 | 93 :: l2 => Some (JArray [], l2)
                 | l2 => match elements fuel (depth + 1) l2 with
                         | Some (vs, rest) => Some (JArray vs, rest)
                         | None => None
                         end
                 end
          else if r =? 34 then
            match string_literal (r :: l1) with
            | Some (s, rest) => Some (JString s, rest)
            | None => None
            end
          else if r =? 110 then word "null" JNull (r :: l1)
          else if r =? 116 then word "true" (JBool true) (r :: l1)
          else if r =? 102 then word "false" (JBool false) (r :: l1)
          else match number_literal (r :: l1) with
               | Some (n, rest) => Some (JNumber (of_bytes n), rest)
               | None => None
               end
      end
  end
with members (fuel : nat) (depth : Z) (l : list Z) : option (list (string * json) * list Z) :=
  match fuel with
  | O => None
  | S fuel =>
      match string_literal (skip_ws l) with
      | None => None
      | Some (k, l1) =>
          match skip_ws l1 with
          | 58 :: l2 =>
              match value fuel depth l2 with
              | None => None
              | Some (v, l3) =>
                  match skip_ws l3 with
                  | 44 :: l4 => match members fuel depth l4 with
                                | Some (ms, rest) => Some ((k, v) :: ms, rest)
                                | None => None
                                end
                  | 125 :: l4 => Some ([(k, v)], l4)
                  | _ => None
                  end
              end
          | _ => None
          end
      end
  end
with elements (fuel : nat) (depth : Z) (l : list Z) : option (list json * list Z) :=
  match fuel with
  | O => None
  | S fuel =>
      match value fuel depth l with
      | None => None
      | Some (v, l1) =>
          match skip_ws l1 with
          | 44 :: l2 => match elements fuel depth l2 with
                        | Some (vs, rest) => Some (v :: vs, rest)
                        | None => None
                        end
          | 93 :: l2 => Some ([v], l2)
          | _ => None
          end
      end
  end.

(** The first value of a text, as a [json.Decoder] takes it, and the only one, as
    [json.Unmarshal] does. *)
Definition first_value (s : string) : option (json * list Z) :=
  let l := runes s in value (2 * length l + 2)%nat 0 l.

Definition parse (s : string) : option json :=
  match first_value s with
  | Some (j, rest) => if bool_decide (skip_ws rest = []) then Some j else None
  | None => None
  end.

(** ** Decoding into a struct *)

(** Case folding as far as a tag of ASCII letters can tell: the long s and the Kelvin sign
    fold to letters. *)
Definition fold_rune (r : Z) : Z :=
  if (65 <=? r) && (r <=? 90) then r + 32
  else if r =? 383 then 115 else if r =? 8490 then 107 else r.

Definition key_is (tag key : string) : bool := bool_decide (fold_rune <$> runes key = bytes tag).

(** The values offered to the field of a tag, in order. *)
Definition matching (tag : string) (ms : list (string * json)) : list json :=
  omap (fun m => if key_is tag m.1 then Some m.2 else None) ms.

Definition store_string (old : string) (v : json) : string :=
  match v with JString s => s | _ => old end.
Definition store_int (old : Z) (v : json) : Z :=
  match v with JNumber n => match parse_int64 n with Some z => z | None => old end | _ => old end.
Definition members_of (v : json) : list (string * json) :=
  match v with JObject ms => ms | _ => [] end.

Definition string_field (tag : string) (ms : list (string * json)) : string :=
  foldl store_string "" (matching tag ms).
Definition int_field (tag : string) (ms : list (string * json)) : Z :=
  foldl store_int 0 (matching tag ms).
(** A struct in the struct: later objects are decoded over earlier ones. *)
Definition struct_field (tag : string) (ms : list (string * json)) : list (string * json) :=
  matching tag ms ≫= members_of.

(** Values a field of each type accepts. *)
Definition is_string (v : json) : bool := match v with JString _ | JNull => true | _ => false end.
Definition is_int (v : json) : bool :=
  match v with JNumber n => bool_decide (is_Some (parse_int64 n)) | JNull => true | _ => false end.
Definition is_struct (v : json) : bool := match v with JObject _ | JNull => true | _ => false end.

Definition accepts (tag : string) (ok : json -> bool) (ms : list (string * json)) : bool :=
  forallb ok (matching tag ms).

(** [sseEvent], by the tags of its fields. *)
Definition event_of (ms : list (string * json)) : sseEvent :=
  mkEvent (string_field "event" ms) (string_field "task_id" ms) (string_field "message_id" ms)
    (string_field "conversation_id" ms) (string_field "answer" ms) (string_field "code" ms)
    (string_field "message" ms)
    (int_field "total_tokens" (struct_field "usage" (struct_field "metadata" ms))).

Definition event_accepts (ms : list (string * json)) : bool :=
  forallb (fun tag => accepts tag is_string ms)
    ["event"; "task_id"; "message_id"; "conversation_id"; "answer"; "code"; "message"] &&
  accepts "metadata" is_struct ms &&
  accepts "usage" is_struct (struct_field "metadata" ms) &&
  accepts "total_tokens" is_int (struct_field "usage" (struct_field "metadata" ms)).

(** [json.Unmarshal(data, &event)] for a fresh [sseEvent]. *)
Definition unmarshal_event (data : string) : res error sseEvent :=
  match parse data with
  | None => Err (EText "json: syntax error")
  | Some JNull => Ok (event_of [])
  | Some (JObject ms) =>
      if event_accepts ms then Ok (event_of ms) else Err (EText "json: cannot unmarshal")
  | Some _ => Err (EText "json: cannot unmarshal")
  end.

(** ** Lemmas: the runes of a text *)

Lemma cont_bounds b : cont b = true -> 128 <= b < 192.
Proof. unfold cont. intros. bool_lia. Qed.

Lemma second_ok_bounds b0 b1 : second_ok b0 b1 = true -> 128 <= b1 < 192 /\
  (b0 = 224 -> 160 <= b1) /\ (b0 = 240 -> 144 <= b1) /\ (b0 = 237 -> b1 < 160) /\ (b0 = 244 -> b1 < 144).
Proof. unfold second_ok. intros H. repeat case_in H; bool_lia. Qed.

(** The rune read at the head of a text, and how much of it is left. *)
Lemma decode_head b0 l1 : Forall is_byte (b0 :: l1) -> exists c l',
  decode (b0 :: l1) = c :: decode l' /\ valid_rune c.1 /\ Forall is_byte l' /\ (length l' <= length l1)%nat.
Proof.
  intros [Hb0 H1]%Forall_cons. unfold is_byte in Hb0. rewrite decode_cons.
  assert (exists c l', (RuneError, [b0]) :: decode l1 = c :: decode l' /\ valid_rune c.1 /\
    Forall is_byte l' /\ (length l' <= length l1)%nat) as Hbad.
  { eexists _, l1. split_and!; try done. cbn. unfold valid_rune, RuneError. lia. }
  destruct (Z.ltb_spec b0 128).
  { eexists _, l1. split_and!; try done. cbn. unfold valid_rune. lia. }
  destruct l1 as [|b1 l2]; [exact Hbad|]. apply Forall_cons in H1 as [Hb1 H2].
  destruct (_ && cont b1) eqn:E1.
  { apply andb_prop in E1 as [E1 Hc%cont_bounds]. eexists _, l2.
    split_and!; try done; [|cbn; lia]. cbn. unfold valid_rune, rune2. bool_lia. }
  destruct l2 as [|b2 l3]; [exact Hbad|]. apply Forall_cons in H2 as [Hb2 H3].
  destruct (_ && cont b2) eqn:E2.
  { apply andb_prop in E2 as [[E2 Hs%second_ok_bounds]%andb_prop Hc%cont_bounds]. eexists _, l3.
    split_and!; try done; [|cbn; lia]. cbn. unfold valid_rune, rune3. bool_lia. }
  destruct l3 as [|b3 l4]; [exact Hbad|]. apply Forall_cons in H3 as [Hb3 H4].
  destruct (_ && cont b3) eqn:E3; [|exact Hbad].
  apply andb_prop in E3 as [[[E3 Hs%second_ok_bounds]%andb_prop Hc%cont_bounds]%andb_prop Hc'%cont_bounds].
  eexists _, l4. split_and!; try done; [|cbn; lia]. cbn. unfold valid_rune, rune4. bool_lia.
Qed.

Lemma decode_valid l : Forall is_byte l -> Forall (fun c => valid_rune c.1) (decode l).
Proof.
  remember (length l) as n eqn:En. revert l En.
  induction (lt_wf n) as [n _ IH]; intros l -> Hl. destruct l as [|b0 l1]; [constructor|].
  destruct (decode_head b0 l1 Hl) as (c & l' & -> & Hc & Hl' & Hlen). constructor; [done|].
  eapply IH; [|reflexivity|done]. cbn. lia.
Qed.

Lemma runes_valid s : Forall valid_rune (runes s).
Proof. unfold runes. apply Forall_fmap. apply (decode_valid _ (bytes_range s)). Qed.

(** A string as JSON carries it: ill-formed bytes become U+FFFD. *)
Definition text (s : string) : string := string_of_runes (runes s).

Lemma text_utf8 s : valid_utf8 s -> text s = s.
Proof. intros (rs & Hr & ->). unfold text. by rewrite runes_string_of_runes. Qed.

Lemma runes_text s : runes (text s) = runes s.
Proof. apply runes_string_of_runes, runes_valid. Qed.

Lemma text_nonempty s : s <> "" -> text s <> "".
Proof.
  intros Hs Ht. apply string_of_runes_nil_inv in Ht. unfold runes in Ht. apply fmap_nil_inv in Ht.
  apply Hs, bytes_nil. destruct (bytes s) as [|b l]; [done|]. rewrite decode_cons in Ht.
  by repeat case_match.
Qed.

(** ** Lemmas: strings *)

Lemma unhex_lower n : 0 <= n < 16 -> unhex_digit (hex_lower n) = Some n.
Proof.
  intros Hn. unfold unhex_digit, hex_lower, is_digit.
  destruct (Z.ltb_spec n 10); repeat (case_goal; try (exfalso; bool_lia)); f_equal; lia.
Qed.

Lemma getu4_hex4 r : 0 <= r < 65536 -> 
  match hex4 r with [a; b; c; d] => getu4 a b c d = Some r | _ => False end.
Proof.
  intros Hr. unfold hex4, getu4. rewrite !unhex_lower; [f_equal|..]; Z.div_mod_to_equations; lia.
Qed.

Lemma string_body_escape c l : valid_rune c.1 ->
  string_body (escape_rune c ++ l) = then_rune c.1 (string_body l).
Proof.
  destruct c as [r w]. cbn [fst]. intros Hr. unfold escape_rune.
  destruct ((r =? 34) || (r =? 92)) eqn:E1.
  { apply orb_prop in E1 as [->%Z.eqb_eq| ->%Z.eqb_eq]; reflexivity. }
  apply orb_false_iff in E1 as [E34 E92].
  do 5 (case_goal; [match goal with H : (r =? _) = true |- _ => apply Z.eqb_eq in H as ->; reflexivity end|]).
  case_goal.
  - assert (0 <= r < 65536 /\ is_surrogate r = false) as [Hr' Hs].
    { unfold valid_rune in Hr. unfold is_surrogate, RuneError in *.
      repeat match goal with H : (_ || _) = true |- _ => apply orb_prop in H as [H|H] end; bool_lia. }
    pose proof (getu4_hex4 r Hr') as Hg. destruct (hex4 r) as [|a [|b [|c [|d [|]]]]]; try done.
    cbn [app string_body Z.eqb Pos.eqb]. by rewrite Hg, Hs.
  - cbn [app string_body]. rewrite E34, E92.
    assert ((r <? 32) = false) as -> by (repeat match goal with H : (_ || _) = false |- _ => apply orb_false_iff in H as [H _] end; done).
    done.
Qed.

Lemma string_body_escapes cs rest : Forall (fun c => valid_rune c.1) cs ->
  string_body ((cs ≫= escape_rune) ++ 34 :: rest) = Some (cs.*1, rest).
Proof.
  induction 1 as [|c cs Hc _ IH]; [done|].
  rewrite bind_cons, <- app_assoc, string_body_escape, IH by done. done.
Qed.

Lemma string_literal_print s rest : string_literal (print_string s ++ rest) = Some (text s, rest).
Proof.
  unfold print_string. cbn [app string_literal]. rewrite <- app_assoc. cbn [app].
  by rewrite string_body_escapes by apply decode_valid, bytes_range.
Qed.

(** ** Lemmas: numbers *)

Lemma pretty_N_go_first x s : x <> 0%N -> exists c l,
  String.list_ascii_of_string (pretty_N_go x s) = c :: l /\ byte_of_ascii c <> 48.
Proof.
  revert s. induction (N.lt_wf_0 x) as [x _ IH]; intros s Hx. rewrite pretty_N_go_step by lia.
  destruct (decide (x / 10 = 0)%N) as [E|E]; [|apply IH; [apply N.div_lt; lia|done]].
  rewrite E, pretty_N_go_0. eexists _, _. split; [reflexivity|].
  assert (x < 10)%N as Hlt by (by apply N.div_small_iff in E).
  rewrite N.mod_small, pretty_N_char_value by done. lia.
Qed.

Lemma format_int_shape z : exists sg d ds, bytes (format_int z) = sg ++ d :: ds /\
  (sg = [] \/ sg = [45]) /\ Forall (fun r => is_digit r = true) (d :: ds) /\ (d = 48 -> ds = []).
Proof.
  assert (forall p, exists d ds, bytes (pretty (N.pos p)) = d :: ds /\
    Forall (fun r => is_digit r = true) (d :: ds) /\ d <> 48) as Hp.
  { intros p. destruct (pretty_N_digits (N.pos p)) as (d & ds & E & Hd & _).
    destruct (pretty_N_go_first (N.pos p) "" ltac:(done)) as (c & l & Ec & Hc).
    exists (byte_of_ascii d), (byte_of_ascii <$> ds).
    change (bytes (pretty (N.pos p))) with (byte_of_ascii <$> String.list_ascii_of_string (pretty (N.pos p))).
    split_and!.
    - by rewrite E.
    - change (Forall (fun r => is_digit r = true) (byte_of_ascii <$> (d :: ds))).
      apply Forall_fmap. eapply Forall_impl; [exact Hd|]. intros a Ha. unfold digit_char in Ha. cbn.
      unfold is_digit. bool_lia.
    - unfold pretty, pretty_N in E. rewrite decide_False in E by done. rewrite Ec in E. congruence. }
  unfold format_int. destruct z as [|p|p].
  - exists [], 48, []. split_and!; auto.
  - destruct (Hp p) as (d & ds & E & Hd & Hn). exists [], d, ds. split_and!; auto. done.
  - destruct (Hp p) as (d & ds & E & Hd & Hn). exists [45], d, ds. split_and!; auto; [|done].
    change (pretty (Z.neg p)) with (String (Ascii.ascii_of_nat 45) (pretty (N.pos p))).
    change (bytes (String ?c ?s)) with ([45] ++ bytes s). by rewrite E.
Qed.

(** What may follow a value in a printed text. *)
Definition ends (rest : list Z) : Prop :=
  match rest with [] => True | r :: _ => r = 44 \/ r = 93 \/ r = 125 end.

Lemma take_digits_app ds rest : Forall (fun r => is_digit r = true) ds -> ends rest ->
  take_digits (ds ++ rest) = (ds, rest).
Proof.
  intros Hd Hr. induction Hd as [|r ds Hr' _ IH]; cbn [app].
  - destruct rest as [|r rest]; [done|]. by destruct Hr as [->|[->| ->]].
  - cbn. by rewrite Hr', IH.
Qed.

Lemma number_literal_print z rest : ends rest ->
  number_literal (bytes (format_int z) ++ rest) = Some (bytes (format_int z), rest).
Proof.
  intros Hr. destruct (format_int_shape z) as (sg & d & ds & -> & Hsg & Hd & H0).
  assert (int_part (d :: ds ++ rest) = Some (d :: ds, rest)) as Hi.
  { unfold int_part. case_match eqn:E.
    - apply Z.eqb_eq in E as ->. by rewrite H0.
    - pose proof (take_digits_app _ _ Hd Hr) as Ht. apply Forall_cons in Hd as [-> _].
      by rewrite app_comm_cons, Ht. }
  assert (frac_part rest = Some ([], rest) /\ exp_part rest = Some ([], rest)) as [Hf He].
  { destruct rest as [|r rest]; [done|]. by destruct Hr as [->|[->| ->]]. }
  assert (d <> 45) as Hne by (intros ->; by apply Forall_cons in Hd as [? _]).
  unfold number_literal. rewrite <- app_assoc. destruct Hsg as [->| ->]; cbn [app].
  - assert ((match d :: ds ++ rest with 45 :: l' => ([45], l') | _ => ([], d :: ds ++ rest) end) =
      ([], d :: ds ++ rest)) as ->.
    { destruct d as [|p|p]; try done. repeat (destruct p as [p|p|]; try done). }
    by rewrite Hi, Hf, He, !app_nil_r.
  - by rewrite Hi, Hf, He, !app_nil_r.
Qed.

(** ** What is printed is parsed back *)

(** A value with its strings as JSON carries them. *)
Fixpoint sent (j : json) : json :=
  match j with
  | JString s => JString (text s)
  | JArray l => JArray (map sent l)
  | JObject ms => JObject (map (fun m => (text m.1, sent m.2)) ms)
  | _ => j
  end.

Definition all_of (l : list Prop) : Prop := foldr and True l.

(** Numbers are integers. *)
Fixpoint integral (j : json) : Prop :=
  match j with
  | JNumber n => exists z, n = format_int z
  | JArray l => all_of (map integral l)
  | JObject ms => all_of (map (fun m => integral m.2) ms)
  | _ => True
  end.

Fixpoint nesting (j : json) : Z :=
  match j with
  | JArray l => 1 + foldr Z.max 0 (map nesting l)
  | JObject ms => 1 + foldr Z.max 0 (map (fun m => nesting m.2) ms)
  | _ => 0
  end.

Definition value_reads (j : json) : Prop := forall fuel d rest,
  integral j -> (length (print j) < fuel)%nat -> d + nesting j <= maxNestingDepth -> ends rest ->
  value fuel d (print j ++ rest) = Some (sent j, rest).

Lemma commas_cons x l : l <> [] -> commas (x :: l) = x ++ 44 :: commas l.
Proof. by destruct l. Qed.

Lemma foldr_max_le (l : list Z) : 0 <= foldr Z.max 0 l.
Proof. induction l; cbn; lia. Qed.

Definition print_member (m : string * json) : list Z := print_string m.1 ++ 58 :: print m.2.

Lemma members_print ms fuel d rest : ms <> [] -> Forall (fun m => value_reads m.2) ms ->
  all_of (map (fun m => integral m.2) ms) -> (length (commas (map print_member ms)) < fuel)%nat ->
  d + foldr Z.max 0 (map (fun m => nesting m.2) ms) <= maxNestingDepth ->
  members fuel d (commas (map print_member ms) ++ 125 :: rest) =
    Some (map (fun m => (text m.1, sent m.2)) ms, rest).
Proof.
  intros Hne Hms. revert fuel. induction Hms as [|[k v] ms Hv Hms IH]; intros fuel Hi Hf Hd; [done|].
  cbn [map] in *. destruct Hi as [Hiv Hi]. cbn [foldr snd fst] in *.
  pose proof (foldr_max_le (map (fun m => nesting m.2) ms)).
  destruct fuel as [|fuel]; [lia|]. destruct (decide (ms = [])) as [->|Hnn].
  - cbn [map commas] in *. unfold print_member in *. cbn [fst snd] in *.
    rewrite length_app in Hf. cbn [length] in Hf. rewrite <- app_assoc. cbn [members].
    change (skip_ws (print_string k ++ ?x)) with (print_string k ++ x).
    rewrite string_literal_print. cbn [app]. change (skip_ws (58 :: ?x)) with (58 :: x). cbv iota.
    rewrite Hv; [done|done|lia|lia|cbn; auto].
  - assert (map print_member ms <> []) as Hnm by (by destruct ms).
    rewrite commas_cons in * by done. unfold print_member at 1 in Hf. unfold print_member at 1.
    cbn [fst snd] in *. rewrite !length_app in Hf. cbn [length] in Hf.
    rewrite <- !app_assoc. cbn [members].
    change (skip_ws (print_string k ++ ?x)) with (print_string k ++ x).
    rewrite string_literal_print. cbn [app]. change (skip_ws (58 :: ?x)) with (58 :: x). cbv iota.
    rewrite Hv; [|done|lia|lia|cbn; auto]. cbn [app].
    change (skip_ws (44 :: ?x)) with (44 :: x). cbv iota.
    rewrite IH; [done|done|done|lia|lia].
Qed.

Lemma first_not_ws j : integral j -> exists r l, print j = r :: l /\ is_ws r = false /\ r <> 93 /\ r <> 125.
Proof.
  destruct j as [|[]|n|t|l|ms]; cbn [print integral]; try (intros _; by eexists _, _).
  intros [z ->]. destruct (format_int_shape z) as (sg & d & ds & -> & [->| ->] & Hd & _); cbn [app].
  - apply Forall_cons in Hd as [Hd _]. exists d, ds. unfold is_digit in Hd. unfold is_ws.
    split_and!; try done; bool_lia.
  - by eexists _, _.
Qed.

Lemma skip_ws_print j rest : integral j -> skip_ws (print j ++ rest) = print j ++ rest.
Proof.
  intros Hi. destruct (first_not_ws j Hi) as (r & l & -> & Hr & _). unfold skip_ws. cbn [app drop_while].
  by rewrite Hr.
Qed.

Lemma elements_print l fuel d rest : l <> [] -> Forall value_reads l ->
  all_of (map integral l) -> (length (commas (map print l)) < pred fuel)%nat ->
  d + foldr Z.max 0 (map nesting l) <= maxNestingDepth ->
  elements fuel d (commas (map print l) ++ 93 :: rest) = Some (map sent l, rest).
Proof.
  intros Hne Hl. revert fuel. induction Hl as [|v l Hv Hl IH]; intros fuel Hi Hf Hd; [done|].
  cbn [map] in *. destruct Hi as [Hiv Hi]. cbn [foldr] in *.
  pose proof (foldr_max_le (map nesting l)).
  destruct fuel as [|fuel]; [cbn in Hf; lia|]. cbn [pred] in Hf. destruct (decide (l = [])) as [->|Hnn].
  - cbn [map commas] in *. cbn [elements]. rewrite Hv; [done|done|lia|lia|cbn; auto].
  - assert (map print l <> []) as Hnm by (by destruct l).
    rewrite commas_cons in * by done. rewrite length_app in Hf. cbn [length] in Hf.
    rewrite <- app_assoc. cbn [elements]. rewrite Hv; [|done|lia|lia|cbn; auto]. cbn [app].
    change (skip_ws (44 :: ?x)) with (44 :: x). cbv iota.
    rewrite IH; [done|done|done|lia|lia].
Qed.

Lemma commas_first {A} (f : A -> list Z) x l : exists t, commas (map f (x :: l)) = f x ++ t.
Proof. destruct l; cbn [map commas]; [exists []; by rewrite app_nil_r|by eexists]. Qed.

Lemma value_number n rest fuel d : (exists z, n = format_int z) -> (0 < fuel)%nat -> ends rest ->
  value fuel d (bytes n ++ rest) = Some (JNumber n, rest).
Proof.
  intros [z ->] Hf Hr. destruct fuel as [|fuel]; [lia|].
  pose proof (number_literal_print z rest Hr) as Hn.
  pose proof (skip_ws_print (JNumber (format_int z)) rest ltac:(by exists z)) as Hs. cbn [print] in Hs.
  destruct (format_int_shape z) as (sg & d0 & ds & E & Hsg & Hd & _).
  assert (exists r l, bytes (format_int z) = r :: l /\ (r = 45 \/ is_digit r = true)) as (r & l & El & Hrr).
  { rewrite E. apply Forall_cons in Hd as [Hd _]. destruct Hsg as [->| ->]; cbn [app]; eauto 10. }
  cbn [value]. rewrite Hs. rewrite El in Hn |- *. cbn [app] in Hn |- *. unfold is_digit in Hrr.
  do 6 (case_goal; [exfalso; bool_lia|]). rewrite Hn, <- El. by rewrite of_bytes_bytes.
Qed.

Lemma value_print j : value_reads j.
Proof.
  induction j as [|b|n|t|l IH|ms IH] using json_ind'; intros fuel d rest Hi Hf Hd Hr.
  - destruct fuel; [lia|]. reflexivity.
  - destruct fuel; [lia|]. by destruct b.
  - apply value_number; [done|lia|done].
  - destruct fuel; [lia|]. cbn [print value]. 
    change (skip_ws (print_string t ++ ?x)) with (print_string t ++ x).
    pose proof (string_literal_print t rest) as Hs. unfold print_string in *. cbn [app] in *.
    cbn [Z.eqb Pos.eqb]. by rewrite Hs.
  - destruct fuel as [|fuel]; [lia|]. cbn [print nesting integral sent] in *. cbn [app value].
    change (skip_ws (91 :: ?x)) with (91 :: x). cbv iota. cbn [Z.eqb Pos.eqb].
    pose proof (foldr_max_le (map nesting l)).
    rewrite (proj2 (Z.leb_gt _ _)) by lia. rewrite <- app_assoc. cbn [app].
    destruct l as [|v l]; [done|]. cbn [length] in Hf. rewrite length_app in Hf. cbn [length] in Hf.
    pose proof (elements_print (v :: l) fuel (d + 1) rest ltac:(done) IH Hi ltac:(lia) ltac:(lia)) as He.
    destruct (commas_first print v l) as [t Ht]. rewrite Ht in He |- *. rewrite <- app_assoc in He |- *.
    destruct Hi as [Hiv _]. rewrite skip_ws_print by done.
    destruct (first_not_ws v Hiv) as (r & x & Hx & _ & H93 & _). rewrite Hx in He |- *. cbn [app] in He |- *.
    destruct r as [|p|p]; try (by rewrite He). repeat (destruct p as [p|p|]; try (by rewrite He)). done.
  - destruct fuel as [|fuel]; [lia|]. cbn [print nesting integral sent] in *. cbn [app value].
    change (skip_ws (123 :: ?x)) with (123 :: x). cbv iota. cbn [Z.eqb Pos.eqb].
    pose proof (foldr_max_le (map (fun m => nesting m.2) ms)).
    rewrite (proj2 (Z.leb_gt _ _)) by lia. rewrite <- app_assoc. cbn [app].
    change (fun m => print_string m.1 ++ 58 :: print m.2) with print_member in *.
    destruct ms as [|m ms]; [done|]. cbn [length] in Hf. rewrite length_app in Hf. cbn [length] in Hf.
    pose proof (members_print (m :: ms) fuel (d + 1) rest ltac:(done) IH Hi ltac:(lia) ltac:(lia)) as He.
    destruct (commas_first print_member m ms) as [t Ht]. rewrite Ht in He |- *. rewrite <- app_assoc in He |- *.
    change (skip_ws (print_member m ++ ?x)) with (print_member m ++ x).
    assert (exists x, print_member m = 34 :: x) as [x Hx] by (by eexists). rewrite Hx in He |- *.
    cbn [app] in He |- *. by rewrite He.
Qed.

(** Text without control characters. *)
Definition plain (rs : list Z) : Prop := Forall (fun r => valid_rune r /\ 32 <= r) rs.

Lemma plain_app a b : plain (a ++ b) <-> plain a /\ plain b.
Proof. unfold plain. by rewrite Forall_app. Qed.

Lemma plain_nil : plain [].
Proof. constructor. Qed.

Lemma plain_cons r l : plain (r :: l) <-> (valid_rune r /\ 32 <= r) /\ plain l.
Proof. unfold plain. by rewrite Forall_cons. Qed.

Lemma plain_escape c : valid_rune c.1 -> plain (escape_rune c).
Proof.
  assert (forall n, 0 <= n < 16 -> valid_rune (hex_lower n) /\ 32 <= hex_lower n) as Hh.
  { intros n Hn. unfold valid_rune, hex_lower. case_match; bool_lia. }
  destruct c as [r w]. cbn [fst]. intros Hr. unfold escape_rune.
  do 6 (case_goal; [unfold valid_rune in *; rewrite !plain_cons; unfold valid_rune;
    (split_and!; try lia); [bool_lia..|constructor]|]).
  case_goal.
  - assert (0 <= r < 65536) by (unfold valid_rune, RuneError in *; bool_lia).
    unfold hex4. rewrite !plain_cons.
    split_and!; first [apply plain_nil|apply Hh; Z.div_mod_to_equations; lia|unfold valid_rune; lia].
  - rewrite !plain_cons. split; [|constructor]. split; [done|]. bool_lia.
Qed.

Lemma plain_string s : plain (print_string s).
Proof.
  unfold print_string. rewrite plain_cons, plain_app, plain_cons. unfold valid_rune at 1 2.
  split_and!; try lia; [|constructor]. apply Forall_bind.
  eapply Forall_impl; [apply decode_valid, bytes_range|]. intros c Hc. by apply plain_escape.
Qed.

Lemma plain_commas l : Forall plain l -> plain (commas l).
Proof.
  induction 1 as [|x l Hx Hl IH]; [constructor|]. destruct (decide (l = [])) as [->|Hne]; [done|].
  rewrite commas_cons, plain_app, plain_cons by done. unfold valid_rune. split_and!; done || lia.
Qed.

Lemma plain_print j : integral j -> plain (print j).
Proof.
  assert (forall a b l, 32 <= a < 128 -> 32 <= b < 128 -> plain l -> plain (a :: l ++ [b])) as Hbr.
  { intros a b l Ha Hb Hl. rewrite plain_cons, plain_app, plain_cons. unfold valid_rune.
    split_and!; try lia; [done|constructor]. }
  induction j as [|b|n|t|l IH|ms IH] using json_ind'; cbn [print integral]; intros Hi.
  - repeat constructor; unfold valid_rune; vm_compute; intuition congruence.
  - destruct b; repeat constructor; unfold valid_rune; vm_compute; intuition congruence.
  - destruct Hi as [z ->]. destruct (format_int_shape z) as (sg & d & ds & -> & Hsg & Hd & _).
    rewrite plain_app. split.
    + destruct Hsg as [->| ->]; [constructor|]. rewrite plain_cons. unfold valid_rune. split; [lia|constructor].
    + eapply Forall_impl; [exact Hd|]. intros r Hr. cbn in Hr. unfold is_digit in Hr. unfold valid_rune. bool_lia.
  - apply plain_string.
  - apply Hbr; [lia..|]. apply plain_commas.
    induction IH as [|v l Hv _ IHl]; cbn [map] in *; constructor; [apply Hv|apply IHl]; apply Hi.
  - apply Hbr; [lia..|]. apply plain_commas.
    induction IH as [|m ms Hm _ IHm]; cbn [map] in *; constructor; [|apply IHm, Hi].
    rewrite plain_app, plain_cons. split_and!; [apply plain_string|unfold valid_rune; lia|lia|apply Hm, Hi].
Qed.

Lemma plain_runes rs : plain rs -> runes (string_of_runes rs) = rs.
Proof. intros Hp. apply runes_string_of_runes. eapply Forall_impl; [exact Hp|]. by intros r [? _]. Qed.

Lemma first_value_Marshal j : integral j -> nesting j <= maxNestingDepth ->
  first_value (Marshal j) = Some (sent j, []).
Proof.
  intros Hi Hn. unfold first_value, Marshal. rewrite plain_runes by (by apply plain_print).
  pose proof (value_print j (2 * length (print j) + 2)%nat 0 [] Hi ltac:(lia) ltac:(lia) I) as Hv.
  by rewrite app_nil_r in Hv.
Qed.

(** [json.Unmarshal] reads what [json.Marshal] wrote. *)
Lemma parse_print j : integral j -> nesting j <= maxNestingDepth -> parse (Marshal j) = Some (sent j).
Proof. intros Hi Hn. unfold parse. by rewrite first_value_Marshal. Qed.

(** ** The fuel is enough *)

Definition shorter {A} (x : option (A * list Z)) (l : list Z) : Prop :=
  match x with Some (_, rest) => (length rest < length l)%nat | None => True end.

Lemma skip_ws_length l : (length (skip_ws l) <= length l)%nat.
Proof. unfold skip_ws. induction l as [|r l IH]; cbn; [lia|]. case_match; cbn; lia. Qed.

Lemma then_rune_shorter r x l k : shorter x k -> (length k <= length l)%nat -> shorter (then_rune r x) l.
Proof. destruct x as [[rs rest]|]; cbn; [lia|done]. Qed.

Lemma string_body_shorter l : shorter (string_body l) l.
Proof.
  remember (length l) as n eqn:En. revert l En.
  induction (lt_wf n) as [n _ IH]; intros l ->.
  assert (forall r k, (length k < length l)%nat -> shorter (then_rune r (string_body k)) l) as Hthen.
  { intros r k Hk. eapply then_rune_shorter; [by eapply (IH (length k))|lia]. }
  destruct l as [|r l1]; [done|]. cbn [string_body].
  repeat first [done | (cbn; lia) | (apply Hthen; cbn [length]; lia) | case_match; subst].
Qed.

Lemma string_literal_shorter l : shorter (string_literal l) l.
Proof.
  destruct l as [|r l]; [done|]. unfold string_literal.
  destruct r as [|p|p]; try done. repeat (destruct p as [p|p|]; try done).
  pose proof (string_body_shorter l) as H. destruct (string_body l) as [[rs rest]|]; [|done]. cbn in *. lia.
Qed.

Lemma take_digits_length l : (length (take_digits l).2 <= length l)%nat.
Proof. induction l as [|r l IH]; cbn; [lia|]. case_match; [|cbn; lia]. destruct (take_digits l). cbn in *. lia. Qed.

Lemma digits1_shorter l : shorter (digits1 l) l.
Proof.
  unfold digits1. destruct l as [|r l]; [done|]. cbn [take_digits].
  destruct (is_digit r); [|done]. pose proof (take_digits_length l). destruct (take_digits l). cbn in *. lia.
Qed.

Lemma int_part_shorter l : shorter (int_part l) l.
Proof.
  destruct l as [|r l]; [done|]. unfold int_part. case_match; [cbn; lia|]. case_match; [|done].
  cbn [take_digits]. rewrite H0. pose proof (take_digits_length l). destruct (take_digits l). cbn in *. lia.
Qed.

Lemma frac_part_length l x rest : frac_part l = Some (x, rest) -> (length rest <= length l)%nat.
Proof.
  unfold frac_part. destruct l as [|r l]; [intros [= <- <-]; lia|]. pose proof (digits1_shorter l) as H.
  repeat case_match; intros; simplify_eq/=; lia.
Qed.

Lemma exp_part_length l x rest : exp_part l = Some (x, rest) -> (length rest <= length l)%nat.
Proof.
  unfold exp_part. destruct l as [|e l]; [intros [= <- <-]; lia|].
  destruct (_ || _); [|intros [= <- <-]; lia].
  assert (forall sg l2, (length l2 <= length l)%nat ->
    match digits1 l2 with Some (ds, rest0) => Some (e :: sg ++ ds, rest0) | None => None end = Some (x, rest) ->
    (length rest <= S (length l))%nat) as Hd.
  { intros sg l2 Hl. pose proof (digits1_shorter l2) as H. destruct (digits1 l2) as [[ds r]|]; [|done].
    intros [= <- <-]. cbn in H. lia. }
  destruct l as [|s l]; [by apply Hd|]. destruct (_ || _); apply Hd; cbn; lia.
Qed.

Lemma number_literal_shorter l : shorter (number_literal l) l.
Proof.
  assert (forall sg k, (length k <= length l)%nat ->
    shorter (match int_part k with
      | None => None
      | Some (i, l) => match frac_part l with
          | None => None
          | Some (f, l) => match exp_part l with
              | None => None
              | Some (e, l) => Some (sg ++ i ++ f ++ e, l) end end end) l) as Hk.
  { intros sg k Hl. pose proof (int_part_shorter k) as H. destruct (int_part k) as [[i l1]|]; [|done].
    destruct (frac_part l1) as [[f l2]|] eqn:E2; [|done]. apply frac_part_length in E2.
    destruct (exp_part l2) as [[e l3]|] eqn:E3; [|done]. apply exp_part_length in E3. cbn in *. lia. }
  unfold number_literal. destruct l as [|r l]; [by apply Hk|].
  destruct r as [|p|p]; try (by apply Hk). repeat (destruct p as [p|p|]; try (by apply Hk)).
  apply Hk. cbn. lia.
Qed.

Lemma word_shorter w v l : w <> "" -> shorter (word w v l) l.
Proof.
  intros Hw. unfold word. destruct (prefix_b (bytes w) l) eqn:E; [|done].
  apply prefix_b_spec in E as [k ->]. cbn. rewrite drop_app_length, length_app.
  destruct (bytes w) eqn:Eb; [by apply bytes_nil in Eb|]. cbn. lia.
Qed.

Lemma shorter_le {A} (x : option (A * list Z)) l k :
  shorter x k -> (length k <= length l)%nat -> shorter x l.
Proof. destruct x as [[a rest]|]; cbn; [lia|done]. Qed.

Lemma shorter_map {A B} (f : A -> B) (x : option (A * list Z)) l : shorter x l ->
  shorter (match x with Some (a, rest) => Some (f a, rest) | None => None end) l.
Proof. by destruct x as [[a rest]|]. Qed.

Lemma parser_shorter fuel : forall d,
  (forall l, shorter (value fuel d l) l) /\ (forall l, shorter (members fuel d l) l) /\
  (forall l, shorter (elements fuel d l) l).
Proof.
  induction fuel as [|fuel IH]; intros d; [done|]. split_and!; intros l.
  - cbn [value]. pose proof (skip_ws_length l) as Hs. destruct (skip_ws l) as [|r l1] eqn:El; [done|].
    cbn [length] in Hs. pose proof (skip_ws_length l1) as Hs1. destruct (IH (d + 1)) as (_ & IHm & IHe).
    assert (forall k, (length k <= length l1)%nat -> shorter (match members fuel (d + 1) k with
        Some (ms, rest) => Some (JObject ms, rest) | None => None end) l) as Hm.
    { intros k Hk. apply shorter_map. eapply shorter_le; [apply IHm|lia]. }
    assert (forall k, (length k <= length l1)%nat -> shorter (match elements fuel (d + 1) k with
        Some (ms, rest) => Some (JArray ms, rest) | None => None end) l) as He.
    { intros k Hk. apply shorter_map. eapply shorter_le; [apply IHe|lia]. }
    repeat (destruct (r =? _)).
    + destruct (_ <=? _); [done|]. destruct (skip_ws l1) as [|c l2]; [by apply Hm|]. cbn [length] in Hs1.
      destruct c as [|p|p]; try (by apply Hm). repeat (destruct p as [p|p|]; try (by apply Hm)). cbn. lia.
    + destruct (_ <=? _); [done|]. destruct (skip_ws l1) as [|c l2]; [by apply He|]. cbn [length] in Hs1.
      destruct c as [|p|p]; try (by apply He). repeat (destruct p as [p|p|]; try (by apply He)). cbn. lia.
    + apply shorter_map. eapply shorter_le; [apply string_literal_shorter|done].
    + eapply shorter_le; [by apply word_shorter|done].
    + eapply shorter_le; [by apply word_shorter|done].
    + eapply shorter_le; [by apply word_shorter|done].
    + apply shorter_map. eapply shorter_le; [apply number_literal_shorter|done].
  - cbn [members]. pose proof (skip_ws_length l) as Hs. pose proof (string_literal_shorter (skip_ws l)) as Hk.
    destruct (string_literal _) as [[k l1]|]; [|done]. cbn in Hk. pose proof (skip_ws_length l1).
    destruct (skip_ws l1) as [|c l2]; [done|]. cbn [length] in *.
    destruct c as [|p|p]; try done. repeat (destruct p as [p|p|]; try done).
    destruct (IH d) as (IHv & IHm & _). specialize (IHv l2). destruct (value fuel d l2) as [[v l3]|]; [|done].
    cbn in IHv. pose proof (skip_ws_length l3). destruct (skip_ws l3) as [|c l4]; [done|]. cbn [length] in *.
    destruct c as [|p|p]; try done. repeat (destruct p as [p|p|]; try done); [cbn; lia|].
    apply (shorter_map (cons (k, v))). eapply shorter_le; [apply IHm|lia].
  - cbn [elements]. destruct (IH d) as (IHv & _ & IHe). specialize (IHv l).
    destruct (value fuel d l) as [[v l1]|]; [|done].
    cbn in IHv. pose proof (skip_ws_length l1). destruct (skip_ws l1) as [|c l2]; [done|]. cbn [length] in *.
    destruct c as [|p|p]; try done. repeat (destruct p as [p|p|]; try done); [cbn; lia|].
    apply (shorter_map (cons v)). eapply shorter_le; [apply IHe|lia].
Qed.

(** More fuel than twice the text's length changes nothing. *)
Lemma parser_enough fuel : forall d,
  (forall l, (2 * length l + 1 < fuel)%nat -> value (S fuel) d l = value fuel d l) /\
  (forall l, (2 * length l + 1 < fuel)%nat -> members (S fuel) d l = members fuel d l) /\
  (forall l, (2 * length l + 2 < fuel)%nat -> elements (S fuel) d l = elements fuel d l).
Proof.
  induction fuel as [|fuel IH]; intros d; [split_and!; intros; lia|]. split_and!; intros l Hl.
  - cbn [value]. pose proof (skip_ws_length l) as Hs. destruct (skip_ws l) as [|r l1] eqn:El; [done|].
    cbn [length] in Hs. pose proof (skip_ws_length l1) as Hs1. destruct (IH (d + 1)) as (_ & IHm & IHe).
    destruct (r =? 123); [destruct (_ <=? _); [done|]|destruct (r =? 91); [destruct (_ <=? _); [done|]|done]].
    + destruct (skip_ws l1) as [|c l2]; [by rewrite IHm by (cbn; lia)|]. cbn [length] in Hs1.
      destruct c as [|p|p]; try (by rewrite IHm by (cbn; lia)).
      repeat (destruct p as [p|p|]; try (by rewrite IHm by (cbn; lia))). done.
    + destruct (skip_ws l1) as [|c l2]; [by rewrite IHe by (cbn; lia)|]. cbn [length] in Hs1.
      destruct c as [|p|p]; try (by rewrite IHe by (cbn; lia)).
      repeat (destruct p as [p|p|]; try (by rewrite IHe by (cbn; lia))). done.
  - remember (S fuel) as f1 eqn:Ef.
    assert (members f1 d l = members (S fuel) d l) as -> by (by rewrite Ef). cbn [members].
    pose proof (skip_ws_length l) as Hs. pose proof (string_literal_shorter (skip_ws l)) as Hk.
    destruct (string_literal _) as [[k l1]|]; [|done]. cbn in Hk. pose proof (skip_ws_length l1).
    destruct (skip_ws l1) as [|c l2]; [done|]. cbn [length] in *.
    destruct c as [|p|p]; try done. repeat (destruct p as [p|p|]; try done).
    destruct (IH d) as (IHv & IHm & _). rewrite IHv by lia.
    destruct (parser_shorter fuel d) as (Hv & _ & _). specialize (Hv l2).
    destruct (value fuel d l2) as [[v l3]|]; [|done].
    cbn in Hv. pose proof (skip_ws_length l3). destruct (skip_ws l3) as [|c l4]; [done|]. cbn [length] in *.
    destruct c as [|p|p]; try done. repeat (destruct p as [p|p|]; try done).
    by rewrite IHm by lia.
  - remember (S fuel) as f1 eqn:Ef.
    assert (elements f1 d l = elements (S fuel) d l) as -> by (by rewrite Ef). cbn [elements].
    destruct (IH d) as (IHv & _ & IHe). rewrite IHv by lia.
    destruct (parser_shorter fuel d) as (Hv & _ & _). specialize (Hv l).
    destruct (value fuel d l) as [[v l1]|]; [|done].
    cbn in Hv. pose proof (skip_ws_length l1). destruct (skip_ws l1) as [|c l2]; [done|]. cbn [length] in *.
    destruct c as [|p|p]; try done. repeat (destruct p as [p|p|]; try done).
    by rewrite IHe by lia.
Qed.

Lemma value_enough l fuel : (2 * length l + 2 <= fuel)%nat ->
  value fuel 0 l = value (2 * length l + 2)%nat 0 l.
Proof.
  intros Hf. induction Hf as [|fuel Hf IH]; [done|]. rewrite <- IH.
  destruct (parser_enough fuel 0) as [Hv _]. by rewrite Hv by lia.
Qed.

(** ** Members of a map *)

Definition sent_members (ms : list (string * json)) : list (string * json) :=
  map (fun m => (text m.1, sent m.2)) ms.

Lemma matching_sent tag ms : matching tag (sent_members ms) = sent <$> matching tag ms.
Proof.
  induction ms as [|[k v] ms IH]; [done|]. unfold matching in *. cbn [sent_members map omap list_omap fst snd].
  unfold key_is at 1 2. rewrite runes_text. fold (key_is tag k). destruct (key_is tag k); [|exact IH].
  cbn. f_equal. exact IH.
Qed.

(** Sorting does not change what the one member with a key says. *)
Lemma matching_sorted tag ms l : matching tag ms = l -> (length l <= 1)%nat ->
  matching tag (sent_members (merge_sort key_le ms)) = sent <$> l.
Proof.
  intros <- Hl. rewrite matching_sent. f_equal.
  assert (matching tag (merge_sort key_le ms) ≡ₚ matching tag ms) as Hp.
  { unfold matching. by rewrite merge_sort_Permutation. }
  destruct (matching tag ms) as [|v [|]]; cbn in Hl; [|..|lia].
  - by apply Permutation_nil_r in Hp.
  - by apply Permutation_singleton_r in Hp.
Qed.

Lemma matching_app tag a b : matching tag (a ++ b) = matching tag a ++ matching tag b.
Proof. unfold matching. apply omap_app. Qed.

(** ** What the client sends *)

(** [FileRef] and [chatRequestPayload], in the order of their fields; the fields marked
    omitempty are left out when empty. *)
Definition file_json (f : FileRef) : json :=
  JObject [("type", JString (FileType f)); ("transfer_method", JString (TransferMethod f));
           ("upload_file_id", JString (UploadFileID f))].

Definition string_map (m : gmap string string) : json :=
  JMap ((fun kv => (kv.1, JString kv.2)) <$> map_to_list m).

Definition payload_json (p : chatRequestPayload) : json :=
  JObject ([("query", JString (P_Query p));
            ("inputs", match P_Inputs p with Some m => string_map m | None => JNull end);
            ("user", JString (P_User p));
            ("response_mode", JString (P_ResponseMode p))] ++
           (if bool_decide (P_ConversationID p = "") then []
            else [("conversation_id", JString (P_ConversationID p))]) ++
           (match P_Files p with [] => [] | fs => [("files", JArray (map file_json fs))] end) ++
           (match P_AutoGenerate p with Some b => [("auto_generate_name", JBool b)] | None => [] end)).

Definition marshal_chat (p : chatRequestPayload) : res error string := Ok (Marshal (payload_json p)).

(** [map[string]string{"user": user}]. *)
Definition user_json (user : string) : json := JMap [("user", JString user)].
Definition marshal_user (user : string) : res error string := Ok (Marshal (user_json user)).

Lemma all_of_In {A} (P : A -> Prop) l : (forall x, x ∈ l -> P x) -> all_of (map P l).
Proof.
  induction l as [|x l IH]; intros H; [done|]. split; [apply H; left|]. apply IH. intros y Hy. apply H. by right.
Qed.

Lemma all_of_app l k : all_of l -> all_of k -> all_of (l ++ k).
Proof. induction l as [|P l IH]; [done|]. intros [HP Hl] Hk. split; [done|by apply IH]. Qed.

Lemma nesting_leaves {A} (f : A -> Z) l n : 0 <= n -> (forall x, x ∈ l -> f x <= n) -> foldr Z.max 0 (map f l) <= n.
Proof.
  intros Hn. induction l as [|x l IH]; intros H; cbn; [lia|].
  assert (f x <= n) by (apply H; left). assert (foldr Z.max 0 (map f l) <= n); [|lia].
  apply IH. intros y Hy. apply H. by right.
Qed.

Lemma string_map_flat m : integral (string_map m) /\ nesting (string_map m) <= 1.
Proof.
  unfold string_map, JMap. cbn [integral nesting].
  assert (forall x, x ∈ merge_sort key_le ((fun kv => (kv.1, JString kv.2)) <$> map_to_list m) ->
    exists s, x.2 = JString s) as Hs.
  { intros x Hx. rewrite merge_sort_Permutation in Hx. apply list_elem_of_fmap in Hx as (kv & -> & _). by eexists. }
  split.
  - apply (all_of_In (fun x => integral x.2)). intros x Hx. by destruct (Hs x Hx) as [s ->].
  - apply (Z.add_le_mono_l _ 0 1). apply (nesting_leaves (fun x => nesting x.2)); [lia|].
    intros x Hx. by destruct (Hs x Hx) as [s ->].
Qed.

(** No object or array of a request is more than two deep. *)
Definition shallow (j : json) : Prop := integral j /\ nesting j <= 2.

Lemma shallow_object ms : Forall (fun m => shallow m.2) ms ->
  integral (JObject ms) /\ nesting (JObject ms) <= maxNestingDepth.
Proof.
  intros Hms. rewrite Forall_forall in Hms. cbn [integral nesting]. split.
  - apply (all_of_In (fun m => integral m.2)). intros x Hx. by apply Hms.
  - transitivity (1 + 2); [apply (Z.add_le_mono_l _ 2 1)|by vm_compute].
    apply (nesting_leaves (fun m => nesting m.2)); [lia|]. intros x Hx. by apply Hms.
Qed.

Lemma shallow_files l : shallow (JArray (map file_json l)).
Proof.
  split; cbn [integral nesting].
  - apply all_of_In. intros j Hj. apply list_elem_of_In, in_map_iff in Hj as (fr & <- & _). cbn. by split_and!.
  - apply (Z.add_le_mono_l _ 1 1), nesting_leaves; [lia|].
    intros j Hj. apply list_elem_of_In, in_map_iff in Hj as (fr & <- & _). cbn. lia.
Qed.

Lemma payload_ok p : integral (payload_json p) /\ nesting (payload_json p) <= maxNestingDepth.
Proof.
  assert (forall s, shallow (JString s)) as Hs by (intros s; split; cbn; [done|lia]).
  apply shallow_object. repeat apply Forall_app_2.
  - repeat apply Forall_cons_2; try apply Forall_nil_2; try apply Hs. cbn [snd].
    destruct (P_Inputs p) as [m|]; [|split; cbn; [done|lia]]. destruct (string_map_flat m). split; [done|lia].
  - case_bool_decide; repeat apply Forall_cons_2; try apply Forall_nil_2. apply Hs.
  - destruct (P_Files p); repeat apply Forall_cons_2; try apply Forall_nil_2. apply (shallow_files (_ :: _)).
  - destruct (P_AutoGenerate p); repeat apply Forall_cons_2; try apply Forall_nil_2. split; cbn; [done|lia].
Qed.

(** ** Examples *)

Definition dq : string := String (Ascii.ascii_of_nat 34) "".

(** Duplicate and case-variant keys, a surrogate pair, an unknown field. *)
Example unmarshal_example :
  unmarshal_event (" {" +:+ dq +:+ "Event" +:+ dq +:+ ":" +:+ dq +:+ "ping" +:+ dq +:+ ", " +:+
    dq +:+ "x" +:+ dq +:+ ":[1e3,{}], " +:+ dq +:+ "event" +:+ dq +:+ ":" +:+ dq +:+ "\ud83d\ude00\n" +:+ dq +:+ "} ") =
  Ok (mkEvent (of_bytes [240; 159; 152; 128; 10]) "" "" "" "" "" "" 0).
Proof. vm_compute. reflexivity. Qed.

(** A number in a string field is an error. *)
Example unmarshal_ill_typed :
  is_ok (unmarshal_event ("{" +:+ dq +:+ "event" +:+ dq +:+ ":3}")) = false.
Proof. vm_compute. reflexivity. Qed.

Example marshal_example :
  Marshal (JMap [("b", JInt (-7)); ("a", JString (of_bytes [60; 34; 255]))]) =
  "{" +:+ dq +:+ "a" +:+ dq +:+ ":" +:+ dq +:+ "\u003c\" +:+ dq +:+ "\ufffd" +:+ dq +:+ "," +:+ dq +:+ "b" +:+ dq +:+ ":-7}".
Proof. vm_compute. reflexivity. Qed.
