(* ===== verification/DifyApi.v ===== *)
(** * internal/dify/api.go: stop, upload and parameters

    The calls of the Dify client that are not chat messages, each one round trip without
    retries.  The JSON encoder (the stop's is in [Json]) and decoders, [strconv.Quote] ([%q]), the
    system's MIME table and the random multipart boundary are parameters. *)

From S2P Require Import Prelude GoNum GoStrings GoErr Sse Moderation Retry GoUrl.

(** ** Data *)

Record UploadFileReq := {
  Up_User : string;
  Up_Filename : string;
  Up_Reader : option body;
  Up_ContentType : string
}.

Record UploadFileResult := { Up_ID : string; Up_Name : string; Up_Size : Z }.
Definition zero_upload : UploadFileResult := {| Up_ID := ""; Up_Name := ""; Up_Size := 0 |}.

Record ParameterFormItem := {
  PF_Type : string;
  PF_Label : string;
  PF_Variable : string;
  PF_Required : bool;
  PF_Default : string
}.

Record FileUploadConfig := { Image_Enabled : bool; Image_NumberLimits : Z }.

Record Parameters := {
  UserInputForm : list ParameterFormItem;
  FileUpload : FileUploadConfig;
  OpeningStatement : string
}.
Definition zero_parameters : Parameters :=
  {| UserInputForm := []; FileUpload := {| Image_Enabled := false; Image_NumberLimits := 0 |};
     OpeningStatement := "" |}.

(** The wire forms. *)
Record parameterFormItem := {
  W_Label : string;
  W_Variable : string;
  W_Required : bool;
  W_Default : string
}.

Record parametersPayload := {
  W_UserInputForm : list (gmap string parameterFormItem);
  W_FileUpload : FileUploadConfig;
  W_OpeningStatement : string
}.

Section Api.
Context (env : http_env) (c : Client).

(** One round trip: the request made, if one can be, and a 2xx response's body. *)
Definition round_trip (operation : string) (req : http_request) :
    list action * res error body :=
  match NewRequest env (Method req) (URL req) with
  | Some err => ([], Err (EWrap ("create Dify " +:+ operation +:+ " request") err))
  | None =>
      ([Attempt 0 req],
       match Do env req 0 with
       | Err err => Err (EWrap ("call Dify " +:+ operation) err)
       | Ok resp =>
           if negb (is_2xx resp)
           then Err (EText ("Dify " +:+ operation +:+ " returned HTTP " +:+
                            format_int (Resp_StatusCode resp) +:+ ": " +:+ readErrorBody (Resp_Body resp)))
           else Ok (Resp_Body resp)
       end)
  end.

(** ** Stop *)

(** [json.Marshal(map[string]string{"user": user})]. *)
Context (MarshalUser : string -> res error string).

Definition stop_request (taskID b : string) : http_request := {|
  Method := "POST";
  URL := baseURL c +:+ "/chat-messages/" +:+ PathEscape taskID +:+ "/stop";
  Req_Body := b;
  Authorization := "Bearer " +:+ apiKey c;
  Content_Type := "application/json";
  Accept := ""
|}.

Definition Stop (taskID user : string) : list action * option error :=
  if bool_decide (TrimSpace taskID = "") then ([], Some (EText "task ID is required"))
  else if bool_decide (TrimSpace user = "") then ([], Some (EText "user is required"))
  else
    match MarshalUser user with
    | Err err => ([], Some (EWrap "marshal Dify stop request" err))
    | Ok b =>
        match round_trip "stop" (stop_request taskID b) with
        | (acts, Err err) => (acts, Some err)
        | (acts, Ok _) => (acts, None)
        end
    end.

(** ** Upload *)

Context (Quote : string -> string) (TypeByExtension : string -> string).
Context (DecodeUpload : body -> res error UploadFileResult).

Definition fileContentType (req : UploadFileReq) : string :=
  let ct := TrimSpace (Up_ContentType req) in
  if negb (bool_decide (ct = "")) then ct
  else
    let ct := TypeByExtension (Ext (Up_Filename req)) in
    if negb (bool_decide (ct = "")) then ct else "application/octet-stream".

Definition upload_parts (req : UploadFileReq) (content : string) : list part :=
  [{| part_header := [("Content-Disposition", "form-data; name=" +:+ quoted "user")];
      part_content := Up_User req |};
   {| part_header :=
        [("Content-Disposition",
          "form-data; name=" +:+ quoted "file" +:+ "; filename=" +:+ Quote (Up_Filename req));
         ("Content-Type", fileContentType req)];
      part_content := content |}].

Definition upload_request (boundary b : string) : http_request := {|
  Method := "POST";
  URL := baseURL c +:+ "/files/upload";
  Req_Body := b;
  Authorization := "Bearer " +:+ apiKey c;
  Content_Type := FormDataContentType boundary;
  Accept := "application/json"
|}.

Definition UploadFile (boundary : string) (req : UploadFileReq) :
    list action * (UploadFileResult * option error) :=
  if bool_decide (TrimSpace (Up_User req) = "")
  then ([], (zero_upload, Some (EText "user is required")))
  else if bool_decide (TrimSpace (Up_Filename req) = "")
  then ([], (zero_upload, Some (EText "filename is required")))
  else
    match Up_Reader req with
    | None => ([], (zero_upload, Some (EText "file reader is required")))
    | Some r =>
        if negb (bool_decide (body_err r = ESentinel IoEOF))
        then ([], (zero_upload, Some (EWrap "write upload file content" (body_err r))))
        else
          let b := multipart_body boundary (upload_parts req (body_bytes r)) in
          match round_trip "upload" (upload_request boundary b) with
          | (acts, Err err) => (acts, (zero_upload, Some err))
          | (acts, Ok resp) =>
              match DecodeUpload resp with
              | Err err => (acts, (zero_upload, Some (EWrap "decode Dify upload response" err)))
              | Ok result => (acts, (result, None))
              end
          end
    end.

End Api.

(** ** Parameters *)

Section Parameters.
Context (env : http_env) (c : Client) (Quote : string -> string).

(** The wire payload's decoder, and the order in which Go ranges over a map. *)
Context (DecodeParameters : body -> res error parametersPayload).
Context (range : nat -> gmap string parameterFormItem -> list (string * parameterFormItem)).

Definition form_item (kv : string * parameterFormItem) : ParameterFormItem := {|
  PF_Type := kv.1;
  PF_Label := W_Label kv.2;
  PF_Variable := W_Variable kv.2;
  PF_Required := W_Required kv.2;
  PF_Default := W_Default kv.2
|}.

(** The nested loops, from the [i]-th wrapped item on. *)
Fixpoint form_items (i : nat) (form : list (gmap string parameterFormItem)) : list ParameterFormItem :=
  match form with
  | [] => []
  | wrapped :: form => (form_item <$> range i wrapped) ++ form_items (S i) form
  end.

Definition toParameters (p : parametersPayload) : Parameters := {|
  UserInputForm := form_items 0 (W_UserInputForm p);
  FileUpload := W_FileUpload p;
  OpeningStatement := W_OpeningStatement p
|}.

Definition parameters_request : http_request := {|
  Method := "GET";
  URL := baseURL c +:+ "/parameters";
  Req_Body := "";
  Authorization := "Bearer " +:+ apiKey c;
  Content_Type := "";
  Accept := "application/json"
|}.

Definition GetParameters : list action * (Parameters * option error) :=
  match round_trip env "parameters" parameters_request with
  | (acts, Err err) => (acts, (zero_parameters, Some err))
  | (acts, Ok resp) =>
      match DecodeParameters resp with
      | Err err => (acts, (zero_parameters, Some (EWrap "decode Dify parameters response" err)))
      | Ok raw => (acts, (toParameters raw, None))
      end
  end.

(** ** The variable contract *)

Context (range_set : gset string -> list string).

Definition missing_variable (v : string) : string :=
  "Dify parameter contract missing variable " +:+ Quote v.
Definition unexpected_variable (v : string) : string :=
  "Dify parameter contract has unexpected variable " +:+ Quote v.

Definition defined_variables (items : list ParameterFormItem) : gset string :=
  foldl (fun s item => if negb (bool_decide (PF_Variable item = "")) then {[PF_Variable item]} ∪ s else s)
    ∅ items.

(** The loop over the expected variables: the set gathered and the warnings. *)
Fixpoint expected_loop (defined : gset string) (vars : list string) (expected : gset string) :
    gset string * list string :=
  match vars with
  | [] => (expected, [])
  | variable0 :: vars =>
      let variable := TrimSpace variable0 in
      if bool_decide (variable = "") then expected_loop defined vars expected
      else
        let '(e, ws) := expected_loop defined vars ({[variable]} ∪ expected) in
        (e, if bool_decide (variable ∈ defined) then ws else missing_variable variable :: ws)
  end.

(** [has_warn]: the callback is not nil; the warnings it is given are returned. *)
Definition CheckParameterContract (expectedVariables : list string) (has_warn : bool) :
    list action * (list string * option error) :=
  let '(acts, (params, err)) := GetParameters in
  match err with
  | Some err => (acts, ([], Some err))
  | None =>
      if negb has_warn then (acts, ([], None))
      else
        let defined := defined_variables (UserInputForm params) in
        let '(expected, ws) := expected_loop defined expectedVariables ∅ in
        let extra := filter (fun v => v ∉ expected) (range_set defined) in
        (acts, (ws ++ (unexpected_variable <$> extra), None))
  end.

(** ** Lemmas *)

(** The variables the contract names: trimmed, blank ones dropped. *)
Definition contract_variables (vars : list string) : list string :=
  filter (fun v => v <> "") (TrimSpace <$> vars).

Lemma defined_variables_elem items v :
  v ∈ defined_variables items <-> v <> "" /\ exists item : ParameterFormItem, item ∈ items /\ PF_Variable item = v.
Proof.
  unfold defined_variables.
  assert (forall s : gset string, v ∈ foldl (fun s item => if negb (bool_decide (PF_Variable item = ""))
      then {[PF_Variable item]} ∪ s else s) s items <->
    v ∈ s \/ v <> "" /\ exists item : ParameterFormItem, item ∈ items /\ PF_Variable item = v) as H; [|rewrite H; set_solver].
  induction items as [|i items IH]; intros s; cbn [foldl]; [set_solver|].
  rewrite IH. case_bool_decide as Hi; cbn [negb].
  - split; [set_solver|]. intros [?|(Hv & item & Hin & <-)]; [by left|right].
    apply elem_of_cons in Hin as [->|Hin]; [done|]. eauto.
  - rewrite elem_of_union, elem_of_singleton. split.
    + intros [[->|?]|(? & j & ? & ?)]; [right; split; [done|exists i; set_solver]|by left|].
      right. split; [done|]. exists j. set_solver.
    + intros [?|(Hv & j & Hin & <-)]; [auto|].
      apply elem_of_cons in Hin as [->|Hin]; eauto.
Qed.

Lemma expected_loop_spec (defined : gset string) vars e0 :
  let '(e, ws) := expected_loop defined vars e0 in
  (forall v, v ∈ e <-> v ∈ e0 \/ v ∈ contract_variables vars) /\
  ws = missing_variable <$> filter (fun v => v ∉ defined) (contract_variables vars).
Proof.
  revert e0. induction vars as [|v0 vars IH]; intros e0; cbn [expected_loop].
  { split; [|done]. intros v. unfold contract_variables. cbn. set_solver. }
  unfold contract_variables. rewrite fmap_cons, filter_cons. fold (contract_variables vars).
  case_bool_decide as Hb.
  - rewrite decide_False by naive_solver. apply IH.
  - rewrite decide_True by done. specialize (IH ({[TrimSpace v0]} ∪ e0)).
    destruct (expected_loop _ _ _) as [e ws]. destruct IH as [He ->]. split.
    + intros v. rewrite He. set_solver.
    + rewrite filter_cons. case_bool_decide; [rewrite decide_False by naive_solver; done|].
      by rewrite decide_True.
Qed.

Lemma form_items_elem (range_perm : forall i m, range i m ≡ₚ map_to_list m) i form item :
  item ∈ form_items i form <->
  exists m ty it, m ∈ form /\ (m : gmap string parameterFormItem) !! ty = Some it /\
                  item = form_item (ty, it).
Proof.
  revert i. induction form as [|m form IH]; intros i; cbn [form_items].
  { split; [by intros ?%elem_of_nil|]. intros (m & _ & _ & Hin & _). by apply elem_of_nil in Hin. }
  rewrite elem_of_app, IH, list_elem_of_fmap. split.
  - intros [([ty it] & -> & Hin)|(m' & ty & it & Hin & Hl & ->)].
    + exists m, ty, it. rewrite range_perm in Hin. apply elem_of_map_to_list in Hin.
      split; [by left|done].
    + exists m', ty, it. split; [by right|done].
  - intros (m' & ty & it & [->|Hin]%elem_of_cons & Hl & ->); [left|right; eauto 10].
    exists (ty, it). split; [done|]. rewrite range_perm. by apply elem_of_map_to_list.
Qed.

(** The Dify app's form defines the variable. *)
Definition defines (raw : parametersPayload) (v : string) : Prop :=
  v <> "" /\ exists (m : gmap string parameterFormItem) ty it,
    m ∈ W_UserInputForm raw /\ m !! ty = Some it /\ W_Variable it = v.

Lemma toParameters_defines (range_perm : forall i m, range i m ≡ₚ map_to_list m) raw v :
  v ∈ defined_variables (UserInputForm (toParameters raw)) <-> defines raw v.
Proof.
  rewrite defined_variables_elem. cbn [toParameters UserInputForm]. unfold defines.
  setoid_rewrite (form_items_elem range_perm). split.
  - intros (Hv & item & (m & ty & it & Hm & Hl & ->) & <-). eauto 10.
  - intros (Hv & m & ty & it & Hm & Hl & <-). split; [done|].
    exists (form_item (ty, it)). eauto 10.
Qed.

Lemma fmap_nil {A B} (f : A -> B) l : f <$> l = [] <-> l = [].
Proof. by destruct l. Qed.

(** The contract check.  When the app's parameters are fetched, the warnings are, in
    order, each expected variable (trimmed, blanks ignored) that the app's form does not
    define, and then, each once, the variables the form defines and nobody expects, in
    whatever order Go ranges over its maps; so there is no warning exactly when the two
    sets are the same.  One request is made, with the client's key. *)
Lemma CheckParameterContract_warnings vars resp raw :
  (forall i m, range i m ≡ₚ map_to_list m) -> (forall s, range_set s ≡ₚ elements s) ->
  NewRequest env "GET" (baseURL c +:+ "/parameters") = None ->
  Do env parameters_request 0 = Ok resp -> is_2xx resp = true ->
  DecodeParameters (Resp_Body resp) = Ok raw ->
  exists (defined : gset string) extra,
    (forall v, v ∈ defined <-> defines raw v) /\
    NoDup extra /\ (forall v, v ∈ extra <-> defines raw v /\ v ∉ contract_variables vars) /\
    CheckParameterContract vars true =
      ([Attempt 0 parameters_request],
       ((missing_variable <$> filter (fun v => v ∉ defined) (contract_variables vars)) ++
        (unexpected_variable <$> extra), None)) /\
    ((CheckParameterContract vars true).2.1 = [] <->
     forall v, defines raw v <-> v ∈ contract_variables vars).
Proof.
  intros Hr Hs Hreq Hdo H2 Hd.
  unfold CheckParameterContract, GetParameters, round_trip. cbn [Method URL parameters_request].
  rewrite Hreq, Hdo, H2. cbn [negb]. rewrite Hd.
  set (defined := defined_variables (UserInputForm (toParameters raw))).
  pose proof (expected_loop_spec defined vars ∅) as He.
  destruct (expected_loop defined vars ∅) as [e ws]. destruct He as [He ->].
  assert (forall v, v ∈ defined <-> defines raw v) as Hdef by (intros; by apply toParameters_defines).
  set (extra := filter (fun v => v ∉ e) (range_set defined)).
  assert (forall v, v ∈ extra <-> defines raw v /\ v ∉ contract_variables vars) as Hex.
  { intros v. unfold extra. rewrite list_elem_of_filter, Hs, elem_of_elements, Hdef, He. set_solver. }
  exists defined, extra. split_and!; [done| |done|done|].
  - apply NoDup_filter. rewrite Hs. apply NoDup_elements.
  - cbn [snd fst]. rewrite app_nil, !fmap_nil. split.
    + intros [Hm Hu] v. split; intros Hv.
      * destruct (decide (v ∈ contract_variables vars)) as [|Hn]; [done|].
        assert (v ∈ extra) as Hx by by apply Hex. rewrite Hu in Hx. by apply elem_of_nil in Hx.
      * apply Hdef. destruct (decide (v ∈ defined)) as [|Hn]; [done|].
        assert (v ∈ filter (fun v => v ∉ defined) (contract_variables vars)) as Hx
          by by apply list_elem_of_filter. rewrite Hm in Hx. by apply elem_of_nil in Hx.
    + intros Heq. split; apply elem_of_nil_inv; intros v Hv.
      * apply list_elem_of_filter in Hv as [Hn Hv]. by apply Hn, Hdef, Heq.
      * apply Hex in Hv as [Hv Hn]. by apply Hn, Heq.
Qed.
End Parameters.

Definition demo_parameters_env : http_env := {|
  NewRequest := fun _ _ => None;
  Do := fun _ _ => Ok {| Resp_StatusCode := 200;
                         Resp_Body := {| body_bytes := "{}"; body_err := ESentinel IoEOF |};
                         Resp_RetryAfter := "" |};
  interrupted := fun _ => None
|}.

Definition demo_raw : parametersPayload := {|
  W_UserInputForm :=
    [{[ "text-input" := {| W_Label := "Scene"; W_Variable := "scene"; W_Required := true; W_Default := "" |} ]};
     {[ "select" := {| W_Label := "Mood"; W_Variable := "mood"; W_Required := false; W_Default := "" |} ]}];
  W_FileUpload := {| Image_Enabled := false; Image_NumberLimits := 0 |};
  W_OpeningStatement := ""
|}.

Definition demo_check : list action * (list string * option error) :=
  CheckParameterContract demo_parameters_env demo_client quoted (fun _ => Ok demo_raw)
    (fun _ => map_to_list) elements [" scene "; ""; "affinity"] true.

Example demo_check_warns :
  demo_check.2.1 = [missing_variable quoted "affinity"; unexpected_variable quoted "mood"].
Proof. vm_compute. reflexivity. Qed.

Lemma CheckParameterContract_warnings_witness :
  exists defined extra : list string,
    demo_check.2 = ((missing_variable quoted <$> defined) ++ (unexpected_variable quoted <$> extra), None) /\
    ("mood" ∈ extra) /\ demo_check.2.1 <> [].
Proof.
  destruct (CheckParameterContract_warnings demo_parameters_env demo_client quoted
    (fun _ => Ok demo_raw) (fun _ => map_to_list) elements [" scene "; ""; "affinity"]
    {| Resp_StatusCode := 200; Resp_Body := {| body_bytes := "{}"; body_err := ESentinel IoEOF |};
       Resp_RetryAfter := "" |} demo_raw)
    as (defined & extra & _ & _ & Hx & Hc & _); try reflexivity.
  assert ("mood" ∈ extra) as Hmood.
  { apply Hx. split.
    - split; [discriminate|]. eexists _, "select", _. split; [right; left|]. split; reflexivity.
    - vm_compute. intros H. repeat (apply elem_of_cons in H as [H|H]; [discriminate H|]).
      by apply elem_of_nil in H. }
  eexists _, extra. unfold demo_check. rewrite Hc. split; [reflexivity|]. split; [exact Hmood|].
  cbn [snd fst]. intros Hn. apply app_nil in Hn as [_ Hn]. apply fmap_nil in Hn. subst extra.
  by apply elem_of_nil in Hmood.
Defined.
