(* ===== verification/DifyMock.v ===== *)
(** * internal/difymock: the scriptable Dify, and the client against it

    The mock's state and its handlers, each a function of the request and the state, with
    the JSON they read and write ([Json]).  [serve] is the ServeMux: it redirects a path it
    cleans and else chooses the handler; [visit] is the server as the client's transport
    meets it, which follows redirects. *)

From S2P Require Import Prelude GoNum GoStrings GoDecimal GoErr Sse Moderation Retry GoUrl DifyApi Json.

(** ** State *)

Record Event := mkMockEvent {
  V_Event : string;
  V_Delay : Z;
  V_Answer : string;
  V_TaskID : string;
  V_MessageID : string;
  V_ConversationID : string;
  V_Code : string;
  V_Message : string;
  V_TotalTokens : Z
}.

Record ChatBehavior := {
  B_Status : Z;
  B_Body : string;
  B_RetryAfter : string;
  FailTimes : Z;
  FailForever : bool;
  Hang : bool;
  Events : list Event
}.

Record ChatRequest := {
  C_Authorization : string;
  C_Accept : string;
  C_Query : string;
  C_User : string;
  C_ConversationID : string;
  C_ResponseMode : string;
  C_Inputs : gmap string string
}.

Record StopCall := { S_TaskID : string; S_User : string }.

Record Server := {
  m_apiKey : string;
  chat : ChatBehavior;
  chatN : Z;
  chatReqs : list ChatRequest;
  stopCalls : list StopCall
}.

Definition empty_behavior : ChatBehavior := {|
  B_Status := 0; B_Body := ""; B_RetryAfter := ""; FailTimes := 0; FailForever := false;
  Hang := false; Events := []
|}.

Definition New (apiKey : string) : Server :=
  {| m_apiKey := apiKey; chat := empty_behavior; chatN := 0; chatReqs := []; stopCalls := [] |}.

Definition SetChat (b : ChatBehavior) (s : Server) : Server :=
  {| m_apiKey := m_apiKey s; chat := b; chatN := 0; chatReqs := chatReqs s; stopCalls := stopCalls s |}.

(** Copies of what was captured. *)
Definition ChatRequests (s : Server) : list ChatRequest := chatReqs s.
Definition StopCalls (s : Server) : list StopCall := stopCalls s.

Definition authorized (s : Server) (r : http_request) : bool :=
  if bool_decide (m_apiKey s = "") then true
  else bool_decide (Authorization r = "Bearer " +:+ m_apiKey s).

(** ** Events on the wire *)

(** A field that is left out when empty. *)
Definition given (k v : string) : list (string * json) :=
  if bool_decide (v = "") then [] else [(k, JString v)].

Definition event_fields (ev : Event) : list (string * json) :=
  [("event", JString (V_Event ev))] ++
  given "task_id" (V_TaskID ev) ++ given "message_id" (V_MessageID ev) ++
  given "conversation_id" (V_ConversationID ev) ++ given "answer" (V_Answer ev) ++
  given "code" (V_Code ev) ++ given "message" (V_Message ev) ++
  (if bool_decide (V_Event ev = "message_end")
   then [("metadata", JMap [("usage", JMap [("total_tokens", JInt (V_TotalTokens ev))])])]
   else []).

Definition with_task (t : string) (ev : Event) : Event :=
  mkMockEvent (V_Event ev) (V_Delay ev) (V_Answer ev) t (V_MessageID ev) (V_ConversationID ev)
    (V_Code ev) (V_Message ev) (V_TotalTokens ev).

(** The task id of the stream so far, put on the events that have none. *)
Fixpoint stamp (streamTaskID : string) (events : list Event) : list Event :=
  match events with
  | [] => []
  | ev :: events =>
      if bool_decide (V_TaskID ev = "") then with_task streamTaskID ev :: stamp streamTaskID events
      else ev :: stamp (V_TaskID ev) events
  end.

Definition nl : string := of_bytes [10].

Definition http_error (msg : string) (code : Z) (retry_after : string) : http_response := {|
  Resp_StatusCode := code;
  Resp_Body := {| body_bytes := msg +:+ nl; body_err := ESentinel IoEOF |};
  Resp_RetryAfter := retry_after
|}.

Definition encodeEvent (ev : Event) : string := Marshal (JMap (event_fields ev)).

Definition data_line (ev : Event) : string := "data: " +:+ encodeEvent ev +:+ nl +:+ nl.

(** What is written of the events, [written] of them if the request's context ends or a
    write fails. *)
Definition streamSSE (written : option nat) (events : list Event) : http_response :=
  let evs := stamp "" events in
  let evs := match written with Some n => take n evs | None => evs end in
  {| Resp_StatusCode := 200;
     Resp_Body := {| body_bytes := foldr (fun ev acc => data_line ev +:+ acc) "" evs;
                     body_err := ESentinel IoEOF |};
     Resp_RetryAfter := "" |}.

(** ** Handlers *)

(** A map of strings in the struct: a null empties it, an element of another type leaves
    an empty string, another value leaves it as it was. *)
Definition store_map (old : gmap string string) (v : json) : gmap string string :=
  match v with
  | JObject ms => foldl (fun acc m => <[m.1 := match m.2 with JString s => s | _ => "" end]> acc) old ms
  | JNull => ∅
  | _ => old
  end.

(** [_ = json.NewDecoder(r.Body).Decode(&captured)]: what could be decoded. *)
Definition body_members (b : string) : list (string * json) :=
  match first_value b with Some (JObject ms, _) => ms | _ => [] end.

Definition capture (r : http_request) : ChatRequest :=
  let ms := body_members (Req_Body r) in
  {| C_Authorization := Authorization r; C_Accept := Accept r; C_Query := string_field "query" ms;
     C_User := string_field "user" ms; C_ConversationID := string_field "conversation_id" ms;
     C_ResponseMode := string_field "response_mode" ms;
     C_Inputs := foldl store_map ∅ (matching "inputs" ms) |}.

Inductive answer := Answered (resp : http_response) | Hung | Redirected (path : string).

(** [Hung]: no answer before the client gives up. *)
Definition handleChat (written : option nat) (r : http_request) (s : Server) :
    Server * answer :=
  if negb (bool_decide (Method r = "POST")) then (s, Answered (http_error "method not allowed" 405 ""))
  else
    let captured := capture r in
    let s := {| m_apiKey := m_apiKey s; chat := chat s; chatN := chatN s + 1;
                chatReqs := chatReqs s ++ [captured]; stopCalls := stopCalls s |} in
    let attempt := chatN s in
    let b := chat s in
    if negb (authorized s r)
    then (s, Answered (http_error ("{" +:+ quoted "code" +:+ ":" +:+ quoted "unauthorized" +:+ "}") 401 ""))
    else if bool_decide (C_Query captured = "") || bool_decide (C_User captured = "")
    then (s, Answered (http_error ("{" +:+ quoted "code" +:+ ":" +:+ quoted "invalid_param" +:+ "}") 400 ""))
    else if (400 <=? B_Status b) && (FailForever b || (attempt <=? FailTimes b))
    then (s, Answered (http_error (B_Body b) (B_Status b) (B_RetryAfter b)))
    else if Hang b then (s, Hung)
    else (s, Answered (streamSSE written (Events b))).

(** [path]: the request's escaped path. *)
Definition handleStop (path : string) (r : http_request) (s : Server) : Server * answer :=
  if negb (bool_decide (Method r = "POST")) then (s, Answered (http_error "method not allowed" 405 ""))
  else if negb (authorized s r)
  then (s, Answered (http_error ("{" +:+ quoted "code" +:+ ":" +:+ quoted "unauthorized" +:+ "}") 401 ""))
  else
    let rest := TrimPrefix path "/chat-messages/" in
    let enc := TrimSuffix rest "/stop" in
    if bool_decide (enc = rest) || bool_decide (enc = "")
    then (s, Answered (http_error "404 page not found" 404 ""))
    else
      match PathUnescape enc with
      | None => (s, Answered (http_error ("{" +:+ quoted "code" +:+ ":" +:+ quoted "invalid_param" +:+ "}") 400 ""))
      | Some taskID =>
          ({| m_apiKey := m_apiKey s; chat := chat s; chatN := chatN s; chatReqs := chatReqs s;
              stopCalls := stopCalls s ++ [{| S_TaskID := taskID; S_User := string_field "user" (body_members (Req_Body r)) |}] |},
           Answered {| Resp_StatusCode := 200;
                       Resp_Body := {| body_bytes := "{" +:+ quoted "result" +:+ ":" +:+ quoted "success" +:+ "}";
                                       body_err := ESentinel IoEOF |};
                       Resp_RetryAfter := "" |})
      end.

(** The ServeMux of [New], for a server at [base]; a redirect leads to the URL that has the
    cleaned path. *)
Definition serve (base : string) (written : option nat) (r : http_request) (s : Server) : Server * answer :=
  let path := TrimPrefix (URL r) base in
  if negb (bool_decide (cleanPath path = path)) then (s, Redirected (EscapedPath (cleanPath path)))
  else if bool_decide (path = "/chat-messages") then handleChat written r s
  else if HasPrefix path "/chat-messages/" then handleStop path r s
  else (s, Answered (http_error "404 page not found" 404 "")).

(** [http.Client.Do]: a 301 is followed by a GET without a body, ten times at most. *)
Fixpoint visit (hops : nat) (base : string) (gives_up : error) (r : http_request) (s : Server) :
    Server * res error http_response :=
  match serve base None r s with
  | (s, Answered resp) => (s, Ok resp)
  | (s, Hung) => (s, Err gives_up)
  | (s, Redirected path) =>
      match hops with
      | O => (s, Err (EText "stopped after 10 redirects"))
      | S hops =>
          visit hops base gives_up
            {| Method := "GET"; URL := base +:+ path; Req_Body := ""; Authorization := Authorization r;
               Content_Type := Content_Type r; Accept := Accept r |} s
      end
  end.

(** The world of a client of the mock that repeats one request: the k-th round trip finds
    the mock as the k-1 before it left it; [gives_up] is the client's error on a hang. *)
Definition mock_env (base : string) (gives_up : error) (s : Server) : http_env := {|
  NewRequest := fun _ _ => None;
  Do := fun r k =>
    (visit 10 base gives_up r (Nat.iter (k - 1) (fun s => (visit 10 base gives_up r s).1) s)).2;
  interrupted := fun _ => None
|}.
