(* ===== verification/DifyMockTheory.v ===== *)
(** * The client against the mock

    What the mock writes, the client's scanner cuts into the lines written, the JSON of
    each line is found and decoded into the event sent ([payloads_streamed]); so a chat
    against the mock gives the callbacks and the outcome of the scripted events, retried
    over the injected failures; and a stop reaches the mock with its task id intact, or is
    redirected away when that is one dot or two. *)

From stdpp Require Import sorting.
From S2P Require Import Prelude GoNum GoStrings GoDecimal GoErr Sse Moderation Retry Router GoUrl DifyApi Json DifyMock.

(** ** Lines *)

Lemma scan_line max room cur l rest :
  10 ∉ l -> (length l < room)%nat ->
  scan_lines max room cur (l ++ 10 :: rest) =
  (let '(ls, long) := scan_lines max max [] rest in (drop_cr (cur ++ l) :: ls, long)).
Proof.
  revert room cur. induction l as [|b l IH]; intros room cur Hn Hl.
  - cbn. by rewrite app_nil_r.
  - cbn [app scan_lines]. rewrite not_elem_of_cons in Hn. destruct Hn as [Hb Hn].
    rewrite (proj2 (Z.eqb_neq b 10)) by done. cbn [length] in Hl.
    destruct room as [|[|room]]; [lia|lia|]. rewrite IH by (done || lia).
    by rewrite <- app_assoc.
Qed.

Lemma scan_written max ls :
  Forall (fun l : list Z => (10 ∉ l) /\ (length l < max)%nat) ls ->
  scan_lines max max [] (ls ≫= (fun l => l ++ [10])) = (drop_cr <$> ls, false).
Proof.
  induction 1 as [|l ls [Hn Hl] _ IH]; [done|].
  rewrite bind_cons, <- app_assoc. cbn [app]. rewrite scan_line, IH by done. done.
Qed.

(** ** A JSON text on a data line *)

Definition json_line (rs : list Z) : list Z := 123 :: rs ++ [125].

Lemma plain_split rs : plain rs <-> Forall valid_rune rs /\ Forall (fun r => 32 <= r) rs.
Proof. unfold plain. by rewrite Forall_and. Qed.

Lemma encode_no_newline r : 32 <= r -> 10 ∉ encode r.
Proof.
  intros Hr Hin. unfold encode in Hin. case_decide as Hv.
  - unfold encode_valid in Hin. unfold valid_rune in Hv.
    repeat case_match; repeat (apply elem_of_cons in Hin as [Hin|Hin]);
      try (by apply elem_of_nil in Hin); Z.div_mod_to_equations; lia.
  - vm_compute in Hin. repeat (apply elem_of_cons in Hin as [Hin|Hin]; [done|]).
    by apply elem_of_nil in Hin.
Qed.

Lemma encode_all_no_newline rs : Forall (fun r => 32 <= r) rs -> 10 ∉ encode_all rs.
Proof.
  induction 1 as [|r rs Hr _ IH]; [by intros ?%elem_of_nil|].
  rewrite encode_all_cons, elem_of_app. intros [H|H]; [by apply encode_no_newline in H|done].
Qed.

Lemma json_line_plain rs : plain rs -> plain (json_line rs).
Proof.
  intros Hp. unfold json_line. rewrite plain_cons, plain_app, plain_cons. unfold valid_rune.
  split_and!; try lia; [done|apply plain_nil].
Qed.

Lemma trim_ends a x b : is_space a = false -> is_space b = false ->
  trim_runes (a :: x ++ [b]) = a :: x ++ [b].
Proof.
  intros Ha Hb. unfold trim_runes. cbn [drop_while]. rewrite Ha.
  change (a :: x ++ [b]) with ((a :: x) ++ [b]).
  apply drop_while_end_app; [done|]. unfold drop_while_end. cbn. by rewrite Hb.
Qed.

Lemma TrimSpace_json rs : plain rs ->
  TrimSpace (string_of_runes (json_line rs)) = string_of_runes (json_line rs).
Proof.
  intros Hp. pose proof (json_line_plain _ Hp) as [Hv _]%plain_split.
  rewrite TrimSpace_runes by done. unfold json_line. by rewrite trim_ends.
Qed.

Definition data_prefix : list Z := [100; 97; 116; 97; 58].

Lemma line_data_json rs : plain rs ->
  line_data ("data: " +:+ string_of_runes (json_line rs)) = Some (string_of_runes (json_line rs)).
Proof.
  intros Hp. pose proof (json_line_plain _ Hp) as [Hv _]%plain_split.
  assert ("data: " +:+ string_of_runes (json_line rs) =
          "data:" +:+ string_of_runes (32 :: json_line rs)) as E.
  { change (32 :: json_line rs) with ([32] ++ json_line rs). rewrite string_of_runes_app.
    by rewrite string_app_assoc. }
  assert ("data: " +:+ string_of_runes (json_line rs) =
          string_of_runes (data_prefix ++ 32 :: json_line rs)) as E2.
  { change (data_prefix ++ 32 :: json_line rs) with ((data_prefix ++ [32]) ++ json_line rs).
    by rewrite string_of_runes_app. }
  assert (TrimSpace ("data: " +:+ string_of_runes (json_line rs)) =
          "data: " +:+ string_of_runes (json_line rs)) as Ht.
  { rewrite E2. unfold data_prefix, json_line. cbn [app].
    change (100 :: 97 :: 116 :: 97 :: 58 :: 32 :: 123 :: rs ++ [125]) with
      (100 :: ([97; 116; 97; 58; 32; 123] ++ rs) ++ [125]).
    assert (Forall valid_rune (100 :: ([97; 116; 97; 58; 32; 123] ++ rs) ++ [125])) as Hall.
    { apply plain_split in Hp as [Hr _]. cbn [app]. rewrite !Forall_cons, Forall_app, Forall_singleton.
      unfold valid_rune. split_and!; try done; lia. }
    rewrite TrimSpace_runes by done. by rewrite trim_ends. }
  unfold line_data. rewrite Ht, E.
  assert (HasPrefix ("data:" +:+ string_of_runes (32 :: json_line rs)) ":" = false) as ->.
  { unfold HasPrefix. by rewrite bytes_app. }
  assert (HasPrefix ("data:" +:+ string_of_runes (32 :: json_line rs)) "data:" = true) as ->.
  { unfold HasPrefix. rewrite bytes_app. apply prefix_b_spec. by eexists. }
  rewrite bool_decide_eq_false_2 by done. cbn [orb negb].
  rewrite TrimPrefix_app.
  assert (TrimSpace (string_of_runes (32 :: json_line rs)) = string_of_runes (json_line rs)) as ->.
  { rewrite TrimSpace_runes by (constructor; [unfold valid_rune; lia|done]).
    rewrite <- (TrimSpace_json rs Hp), TrimSpace_runes by done. done. }
  assert (exists t, string_of_runes (json_line rs) = String (Ascii.ascii_of_nat 123) t) as [t ->].
  { exists (string_of_runes (rs ++ [125])). unfold json_line.
    change (123 :: rs ++ [125]) with ([123] ++ (rs ++ [125])). by rewrite string_of_runes_app. }
  rewrite !bool_decide_eq_false_2; [done|discriminate|discriminate].
Qed.

Lemma drop_cr_json rs : drop_cr (encode_all (json_line rs)) = encode_all (json_line rs).
Proof.
  unfold json_line. change (123 :: rs ++ [125]) with ((123 :: rs) ++ [125]).
  rewrite encode_all_app. change (encode_all [125]) with [125].
  unfold drop_cr. by rewrite last_snoc.
Qed.

(** ** The events sent are the events read *)

(** What the client is to read of an event. *)
Definition sse_of (ev : Event) : sseEvent :=
  mkEvent (V_Event ev) (V_TaskID ev) (V_MessageID ev) (V_ConversationID ev) (V_Answer ev)
    (V_Code ev) (V_Message ev) (if bool_decide (V_Event ev = "message_end") then V_TotalTokens ev else 0).

(** Strings are well-formed and token counts are int64. *)
Definition event_ok (ev : Event) : Prop :=
  valid_utf8 (V_Event ev) /\ valid_utf8 (V_TaskID ev) /\ valid_utf8 (V_MessageID ev) /\
  valid_utf8 (V_ConversationID ev) /\ valid_utf8 (V_Answer ev) /\ valid_utf8 (V_Code ev) /\
  valid_utf8 (V_Message ev) /\ in_int64 (V_TotalTokens ev).

Lemma event_shallow ev : Forall (fun m => integral m.2 /\ nesting m.2 <= 2) (event_fields ev).
Proof.
  assert (forall k v, Forall (fun m => integral m.2 /\ nesting m.2 <= 2) (given k v)) as Hg.
  { intros k v. unfold given. case_bool_decide; repeat apply Forall_cons_2; try apply Forall_nil_2.
    split; cbn; [done|lia]. }
  unfold event_fields. repeat apply Forall_app_2; try apply Hg.
  - apply Forall_singleton. split; cbn; [done|lia].
  - case_bool_decide; [|constructor]. apply Forall_singleton. split; [|vm_compute; congruence].
    cbn. split; [|done]. cbn. split; [|done]. by eexists.
Qed.

Lemma event_json_ok ev : integral (JMap (event_fields ev)) /\
  nesting (JMap (event_fields ev)) <= maxNestingDepth.
Proof. apply shallow_object. unfold shallow. rewrite merge_sort_Permutation. apply event_shallow. Qed.

(** What each tag finds among the event's members. *)
Lemma matching_given tag k v :
  matching tag (given k v) = if key_is tag k && negb (bool_decide (v = "")) then [JString v] else [].
Proof. unfold given. case_bool_decide; cbn; by destruct (key_is tag k). Qed.

Lemma string_field_event tag ev v :
  matching tag (event_fields ev) = [JString v] \/ (matching tag (event_fields ev) = [] /\ v = "") ->
  valid_utf8 v ->
  let ms := sent_members (merge_sort key_le (event_fields ev)) in
  string_field tag ms = v /\ accepts tag is_string ms = true.
Proof.
  intros Hm Hv. unfold string_field, accepts. destruct Hm as [Hm|[Hm ->]];
    rewrite (matching_sorted tag _ _ Hm) by (cbn; lia); [|done]. cbn. by rewrite text_utf8.
Qed.

Ltac find_tag := unfold event_fields; rewrite !matching_app, !matching_given;
  repeat match goal with |- context [key_is ?t ?k] =>
    let b := eval vm_compute in (key_is t k) in change (key_is t k) with b end;
  cbn [andb]; repeat case_bool_decide; subst; auto.

Lemma unmarshal_sent ev : event_ok ev -> unmarshal_event (encodeEvent ev) = Ok (sse_of ev).
Proof.
  intros (H1 & H2 & H3 & H4 & H5 & H6 & H7 & H8). unfold unmarshal_event, encodeEvent.
  destruct (event_json_ok ev) as [Hi Hn]. rewrite parse_print by done. cbn [sent JMap].
  change (map (fun m => (text m.1, sent m.2)) ?l) with (sent_members l).
  set (ms := sent_members _).
  destruct (string_field_event "event" ev (V_Event ev)) as [E1 A1]; [find_tag|done|].
  destruct (string_field_event "task_id" ev (V_TaskID ev)) as [E2 A2]; [find_tag|done|].
  destruct (string_field_event "message_id" ev (V_MessageID ev)) as [E3 A3]; [find_tag|done|].
  destruct (string_field_event "conversation_id" ev (V_ConversationID ev)) as [E4 A4]; [find_tag|done|].
  destruct (string_field_event "answer" ev (V_Answer ev)) as [E5 A5]; [find_tag|done|].
  destruct (string_field_event "code" ev (V_Code ev)) as [E6 A6]; [find_tag|done|].
  destruct (string_field_event "message" ev (V_Message ev)) as [E7 A7]; [find_tag|done|].
  fold ms in E1, E2, E3, E4, E5, E6, E7, A1, A2, A3, A4, A5, A6, A7.
  assert (matching "metadata" ms = if bool_decide (V_Event ev = "message_end")
    then [JObject [("usage", JObject [("total_tokens", JInt (V_TotalTokens ev))])]] else []) as Em.
  { unfold ms. destruct (bool_decide (V_Event ev = "message_end")) eqn:Ee.
    - rewrite (matching_sorted "metadata" _ [JMap [("usage", JMap [("total_tokens", JInt (V_TotalTokens ev))])]]);
        [reflexivity| |cbn; lia]. find_tag; discriminate.
    - rewrite (matching_sorted "metadata" _ []); [done| |cbn; lia]. find_tag; discriminate. }
  assert (event_accepts ms = true /\ event_of ms = sse_of ev) as [-> ->]; [|done].
  unfold event_accepts, event_of, sse_of, accepts, struct_field in *. cbn [forallb].
  rewrite E1, E2, E3, E4, E5, E6, E7, A1, A2, A3, A4, A5, A6, A7, Em.
  case_bool_decide; [|split; reflexivity].
  assert (parse_int64 (format_int (V_TotalTokens ev)) = Some (V_TotalTokens ev)) as Ei by (by apply parse_format_int).
  assert (key_is "usage" "usage" = true) as Hu by (by vm_compute).
  assert (key_is "total_tokens" "total_tokens" = true) as Ht by (by vm_compute).
  unfold int_field, JInt, matching. cbn -[parse_int64 format_int key_is]. rewrite Hu.
  cbn -[parse_int64 format_int key_is]. rewrite Ht. cbn -[parse_int64 format_int key_is]. by rewrite Ei.
Qed.

Lemma stamp_ok t evs : valid_utf8 t -> Forall event_ok evs -> Forall event_ok (stamp t evs).
Proof.
  intros Ht Hev. revert t Ht. induction Hev as [|ev evs Hev _ IH]; intros t Ht; cbn [stamp]; [constructor|].
  case_bool_decide; constructor.
  - destruct Hev as (? & ? & ? & ? & ? & ? & ? & ?). by split_and!.
  - by apply IH.
  - done.
  - by apply IH, Hev.
Qed.

(** ** The stream written and scanned *)

(** The event's line fits the scanner's buffer. *)
Definition fits (ev : Event) : Prop :=
  (6 + length (bytes (encodeEvent ev)) < maxLine)%nat.

Definition written_bytes (evs : list Event) : list Z :=
  bytes (foldr (fun ev acc => data_line ev +:+ acc) "" evs).

Definition line_bytes (ev : Event) : list Z := bytes ("data: " +:+ encodeEvent ev).

Lemma written_lines evs :
  written_bytes evs = (evs ≫= (fun ev => [line_bytes ev; []])) ≫= (fun l => l ++ [10]).
Proof.
  unfold written_bytes, line_bytes. induction evs as [|ev evs IH]; [done|].
  cbn [foldr]. rewrite bytes_app, IH, bind_cons. unfold data_line.
  cbn [app]. rewrite !bind_cons. rewrite !bytes_app. change (bytes nl) with [10].
  by rewrite <- !app_assoc.
Qed.

Lemma encodeEvent_json ev :
  exists rs, encodeEvent ev = string_of_runes (json_line rs) /\ plain rs.
Proof.
  destruct (event_json_ok ev) as [Hi _]. apply plain_print in Hi. unfold JMap in Hi. cbn [print] in Hi.
  eexists. split; [reflexivity|]. apply plain_cons in Hi as [_ Hi]. by apply plain_app in Hi as [Hi _].
Qed.

Lemma line_bytes_ok ev : event_ok ev -> fits ev ->
  (10 ∉ line_bytes ev) /\ (length (line_bytes ev) < maxLine)%nat /\
  drop_cr (line_bytes ev) = line_bytes ev /\
  line_data (of_bytes (line_bytes ev)) = Some (encodeEvent ev).
Proof.
  intros Hev Hf. destruct (encodeEvent_json ev) as (rs & E & Hp).
  assert (line_bytes ev = [100; 97; 116; 97; 58; 32] ++ encode_all (json_line rs)) as Hl.
  { unfold line_bytes. by rewrite bytes_app, E, bytes_string_of_runes. }
  split_and!.
  - rewrite Hl, elem_of_app. intros [H|H].
    + repeat (apply elem_of_cons in H as [H|H]; [done|]). by apply elem_of_nil in H.
    + by apply encode_all_no_newline in H; [|apply plain_split, json_line_plain].
  - unfold line_bytes. rewrite bytes_app, length_app. exact Hf.
  - rewrite Hl. unfold json_line. change (123 :: rs ++ [125]) with ((123 :: rs) ++ [125]).
    rewrite encode_all_app, app_assoc. change (encode_all [125]) with [125].
    unfold drop_cr. by rewrite last_snoc.
  - unfold line_bytes. rewrite of_bytes_bytes, E. by apply line_data_json.
Qed.

(** What the client's scanner makes of the lines written. *)
Lemma scan_streamed evs :
  Forall event_ok evs -> Forall fits evs ->
  scan {| body_bytes := foldr (fun ev acc => data_line ev +:+ acc) "" evs;
          body_err := ESentinel IoEOF |} =
  (evs ≫= (fun ev => [of_bytes (line_bytes ev); ""]), None).
Proof.
  intros Hok Hfit. unfold scan. cbn [body_bytes body_err].
  change (bytes (foldr _ _ _)) with (written_bytes evs). rewrite written_lines, scan_written.
  - rewrite bool_decide_eq_true_2 by done. f_equal.
    induction Hok as [|ev evs Hev _ IH]; [done|]. apply Forall_cons in Hfit as [Hf Hfit].
    rewrite !bind_cons. cbn [app]. rewrite !fmap_cons, IH by done.
    by destruct (line_bytes_ok ev Hev Hf) as (_ & _ & -> & _).
  - induction Hok as [|ev evs Hev _ IH]; [constructor|]. apply Forall_cons in Hfit as [Hf Hfit].
    rewrite bind_cons. cbn [app]. destruct (line_bytes_ok ev Hev Hf) as (H1 & H2 & _).
    constructor; [done|]. constructor; [|by apply IH].
    split; [by intros ?%elem_of_nil|]. unfold maxLine. cbn [length]. lia.
Qed.

(** What is read of a written stream is what was sent. *)
Lemma payloads_streamed evs :
  Forall event_ok evs -> Forall fits evs ->
  payloads unmarshal_event {| body_bytes := foldr (fun ev acc => data_line ev +:+ acc) "" evs;
                        body_err := ESentinel IoEOF |} =
  (fun ev => Ok (sse_of ev)) <$> evs.
Proof.
  intros Hok Hfit. unfold payloads. rewrite scan_streamed by done. cbn [fst].
  induction Hok as [|ev evs Hev _ IH]; [done|]. apply Forall_cons in Hfit as [Hf Hfit].
  rewrite bind_cons, omap_app. cbn [omap list_omap].
  destruct (line_bytes_ok ev Hev Hf) as (_ & _ & _ & ->).
  change (line_data "") with (@None string). cbn [app].
  rewrite !fmap_cons, IH by done. by rewrite unmarshal_sent.
Qed.

(** ** A chat against the mock *)

(** ** The requests the mock reads *)

Lemma body_members_object ms :
  integral (JObject ms) -> nesting (JObject ms) <= maxNestingDepth ->
  body_members (Marshal (JObject ms)) = sent_members ms.
Proof. intros Hi Hn. unfold body_members. by rewrite first_value_Marshal. Qed.

Ltac keys := repeat match goal with |- context [key_is ?t ?k] =>
  let b := eval vm_compute in (key_is t k) in change (key_is t k) with b end.

(** The fields of the request as the mock captures them. *)
Lemma captured_payload r p : Req_Body r = Marshal (payload_json p) ->
  C_Query (capture r) = text (P_Query p) /\ C_User (capture r) = text (P_User p) /\
  C_ConversationID (capture r) = text (P_ConversationID p) /\
  C_ResponseMode (capture r) = text (P_ResponseMode p).
Proof.
  intros Hb. unfold capture. cbn [C_Query C_User C_ConversationID C_ResponseMode]. rewrite Hb.
  destruct (payload_ok p) as [Hi Hn]. unfold payload_json in *. rewrite body_members_object by done.
  unfold string_field. rewrite !matching_sent, !matching_app.
  unfold matching. cbn [omap list_omap fst snd]. keys. cbv iota.
  split_and!; destruct (P_Files p), (P_AutoGenerate p); case_bool_decide as Hc;
    cbn [omap list_omap fst snd]; keys; cbv iota; try done; by rewrite Hc.
Qed.

Lemma captured_user user : string_field "user" (body_members (Marshal (user_json user))) = text user.
Proof.
  change (user_json user) with (JObject [("user", JString user)]).
  rewrite body_members_object; [|by split|by vm_compute].
  unfold string_field. rewrite matching_sent. unfold matching. cbn [omap list_omap fst snd]. by keys.
Qed.

Section Chat.
Context (gives_up : error) (v : backoff_vars) (c : Client) (s : Server).

Abbreviation env := (mock_env (baseURL c) gives_up s).
Abbreviation url := (baseURL c +:+ "/chat-messages").

(** The [k]-th attempt gets the injected status. *)
Definition injected (k : nat) : bool :=
  (400 <=? B_Status (chat s)) && (FailForever (chat s) || (Z.of_nat k <=? FailTimes (chat s))).

(** A request the mock does not refuse. *)
Definition acceptable (r : http_request) : Prop :=
  Method r = "POST" /\ URL r = url /\ authorized s r = true /\
  C_Query (capture r) <> "" /\ C_User (capture r) <> "".

Lemma handleChat_state w r s' :
  chat (handleChat w r s').1 = chat s' /\
  m_apiKey (handleChat w r s').1 = m_apiKey s' /\
  (Method r = "POST" -> chatN (handleChat w r s').1 = chatN s' + 1 /\
     chatReqs (handleChat w r s').1 = chatReqs s' ++ [capture r]).
Proof. unfold handleChat. repeat case_match; cbn; split_and!; try done; by case_bool_decide. Qed.

Lemma serve_chat w r s' : URL r = url -> serve (baseURL c) w r s' = handleChat w r s'.
Proof.
  intros Hu. unfold serve. rewrite Hu, TrimPrefix_app.
  replace (cleanPath "/chat-messages") with "/chat-messages" by (by vm_compute).
  by rewrite bool_decide_eq_true_2.
Qed.

Lemma visit_chat hops r s' : URL r = url ->
  visit hops (baseURL c) gives_up r s' =
  ((handleChat None r s').1,
   match (handleChat None r s').2 with Answered resp => Ok resp | _ => Err gives_up end).
Proof.
  intros Hu.
  assert (forall p, (handleChat None r s').2 <> Redirected p) as Hr
    by (intros p; unfold handleChat; repeat case_match; done).
  destruct hops; cbn [visit]; rewrite serve_chat by done;
    destruct (handleChat None r s') as [s1 []]; try done; by destruct (Hr path).
Qed.

Lemma iter_visit r j :
  acceptable r ->
  let s' := Nat.iter j (fun s => (visit 10 (baseURL c) gives_up r s).1) s in
  chat s' = chat s /\ m_apiKey s' = m_apiKey s /\ chatN s' = chatN s + Z.of_nat j /\
  chatReqs s' = chatReqs s ++ repeat (capture r) j.
Proof.
  intros (Hm & Hu & _). induction j as [|j IH].
  { cbn. split_and!; [done|done|lia|by rewrite app_nil_r]. }
  cbv zeta in IH |- *. rewrite Nat.iter_succ. set (s1 := Nat.iter j _ s) in *.
  rewrite visit_chat by done. cbn [fst].
  destruct (handleChat_state None r s1) as (H1 & H2 & [H3 H4]%(fun f => f Hm)). rewrite H1, H2, H3, H4.
  destruct IH as (-> & -> & -> & ->). split_and!; try done; [lia|].
  replace (S j) with (j + 1)%nat by lia. by rewrite repeat_app, app_assoc.
Qed.

Lemma Do_mock r k :
  acceptable r -> chatN s = 0 -> (1 <= k)%nat -> Hang (chat s) = false ->
  Do env r k =
    Ok (if injected k then http_error (B_Body (chat s)) (B_Status (chat s)) (B_RetryAfter (chat s))
        else streamSSE None (Events (chat s))).
Proof.
  intros Hr Hn Hk Hh. unfold mock_env. cbn beta iota delta [Do].
  destruct (iter_visit r (k - 1) Hr) as (H1 & H2 & H3 & _). set (s1 := Nat.iter (k - 1) _ s) in *.
  destruct Hr as (Hm & Hu & Ha & Hq & Hus). rewrite visit_chat by done. cbn [snd].
  unfold handleChat, authorized in *. cbn [chatN chat m_apiKey].
  rewrite H1, H2, H3, Hn, Hm, Ha, Hh. cbn [negb bool_decide].
  rewrite (bool_decide_eq_true_2 ("POST" = "POST")) by done. cbn [negb].
  rewrite !bool_decide_eq_false_2 by done. cbn [orb]. unfold injected.
  replace (0 + Z.of_nat (k - 1) + 1) with (Z.of_nat k) by lia.
  by destruct ((400 <=? _) && _).
Qed.

Context (req : ChatReq).

Abbreviation b := (Marshal (payload_json (payload_of streamingResponseMode req))).

Abbreviation rq := (request_of c "POST" url b "text/event-stream").

Lemma outcome_mock k :
  acceptable rq -> chatN s = 0 -> (1 <= k)%nat -> Hang (chat s) = false ->
  outcome env c "stream" "POST" url b "text/event-stream" k =
    if injected k
    then Err (EUpstream (upstream_failure "stream"
           (http_error (B_Body (chat s)) (B_Status (chat s)) (B_RetryAfter (chat s)))))
    else Ok (streamSSE None (Events (chat s))).
Proof.
  intros Hr Hn Hk Hh. unfold outcome, doRequest. cbn [NewRequest mock_env].
  rewrite Do_mock by done. cbn [snd]. destruct (injected k) eqn:Ei; [|done].
  assert (is_2xx (http_error (B_Body (chat s)) (B_Status (chat s)) (B_RetryAfter (chat s))) = false) as ->; [|done].
  unfold injected in Ei. apply andb_prop in Ei as [Ei _]. unfold is_2xx. cbn [Resp_StatusCode http_error].
  apply Z.leb_le in Ei. rewrite (proj2 (Z.ltb_ge _ 300)) by lia. apply andb_false_r.
Qed.

(** How many attempts the injected failures take, of at most three. *)
Definition attempts_needed : nat :=
  if FailForever (chat s) then 3%nat else Z.to_nat (Z.min 3 (Z.max 0 (FailTimes (chat s)) + 1)).

Lemma request_mock :
  acceptable rq -> chatN s = 0 -> Hang (chat s) = false ->
  B_Status (chat s) = 429 \/ 500 <= B_Status (chat s) ->
  exists acts, doRequestWithRetry env v c "stream" "POST" url b "text/event-stream" =
      (acts, outcome env c "stream" "POST" url b "text/event-stream" attempts_needed) /\
    attempts acts = (fun k => (k, rq)) <$> seq 1 attempts_needed.
Proof.
  intros Hr Hn Hh Hst. pose proof (retry_loop_spec env v c "stream" "POST" url b "text/event-stream"
    eq_refl (maxUpstreamAttempts - 1) 1) as H. unfold doRequestWithRetry.
  destruct (retry_loop _ _ _ _ _ _ _ _ _ _) as [acts r]. exists acts.
  destruct H as (n & Hk & Ha & Hbefore & Hr'). change (1 + (maxUpstreamAttempts - 1))%nat with 3%nat in *.
  assert (forall k, (1 <= k)%nat -> is_Some (retryable env c "stream" "POST" url b "text/event-stream" k) <->
    injected k = true) as Hret.
  { intros k H1. unfold retryable. rewrite outcome_mock by done. destruct (injected k).
    - cbn [as_upstream]. unfold Retryable. cbn [StatusCode upstream_failure Resp_StatusCode http_error].
      destruct Hst as [->|Hst]; [by split; eauto|].
      apply Z.leb_le in Hst. rewrite Hst, orb_true_r. by split; eauto.
    - split; [by intros [? [=]]|done]. }
  assert (n = attempts_needed) as ->.
  { assert (forall j, injected j = true <-> FailForever (chat s) = true \/ Z.of_nat j <= FailTimes (chat s)) as Hinj.
    { intros j. unfold injected. rewrite andb_true_iff, orb_true_iff, !Z.leb_le.
      split; [by intros [_ ?]|]. intros Hi. split; [|done]. destruct Hst; lia. }
    assert (forall j, (1 <= j < n)%nat -> injected j = true) as Hb
      by (intros j Hj; apply Hret; [lia|by apply Hbefore]).
    assert (n = 3%nat \/ injected n <> true) as Hlast.
    { destruct Hr' as [(_ & [->|Hno] & _)|(_ & _ & (e & He & _) & _)]; [by left|right|discriminate He].
      rewrite <- Hret by lia. rewrite Hno. by intros [? [=]]. }
    unfold attempts_needed. rewrite Hinj in Hlast. setoid_rewrite Hinj in Hb.
    destruct (FailForever (chat s)); [destruct Hlast as [->|[]]; auto|].
    assert (n = 1%nat \/ Z.of_nat (n - 1) <= FailTimes (chat s)) as HF.
    { destruct (decide (n = 1%nat)); [by left|right]. by destruct (Hb (n - 1)%nat ltac:(lia)). }
    assert (n = 3%nat \/ FailTimes (chat s) < Z.of_nat n) as HL.
    { destruct Hlast as [|Hl]; [by left|right]. apply Z.nle_gt. intros Hle. apply Hl. by right. }
    lia. }
  split.
  - destruct Hr' as [(-> & _)|(_ & _ & (e & He & _) & _)]; [done|discriminate He].
  - rewrite Ha. by replace (S attempts_needed - 1)%nat with attempts_needed by lia.
Qed.

Lemma injected_last :
  B_Status (chat s) = 429 \/ 500 <= B_Status (chat s) ->
  injected attempts_needed = FailForever (chat s) || (3 <=? FailTimes (chat s)).
Proof.
  intros Hst. unfold injected, attempts_needed. rewrite (proj2 (Z.leb_le 400 _)) by lia. cbn [andb].
  destruct (FailForever (chat s)); [done|]. cbn [orb].
  destruct (Z.leb_spec 3 (FailTimes (chat s))); [apply Z.leb_le|apply Z.leb_gt]; lia.
Qed.

Lemma TrimSpace_nonempty t : TrimSpace t <> "" -> t <> "".
Proof. intros H ->. by apply H. Qed.

Lemma ready_to_chat :
  m_apiKey s = "" \/ m_apiKey s = apiKey c ->
  validateChatReq req = None -> TrimSpace (baseURL c) <> "" -> TrimSpace (apiKey c) <> "" ->
  acceptable rq /\ prepare marshal_chat "stream" streamingResponseMode c req = Ok b.
Proof.
  intros Hk Hv Hb Ha. unfold prepare. rewrite Hv, !bool_decide_eq_false_2 by done.
  split; [|done]. unfold validateChatReq in Hv.
  case_bool_decide as H1; [done|]. case_bool_decide; [done|]. case_bool_decide as H3; [done|].
  destruct (captured_payload rq (payload_of streamingResponseMode req) eq_refl) as (Hq & Hu & _).
  unfold acceptable, authorized. rewrite Hq, Hu. cbn [Method URL Authorization request_of payload_of P_Query P_User].
  split_and!; [done|done| |by apply text_nonempty, TrimSpace_nonempty..].
  case_bool_decide as H4; [done|]. apply bool_decide_eq_true_2. by destruct Hk as [?| ->].
Qed.

(** C27: the client against a scripted Dify.  Whatever 429 or 5xx failures are injected, the
    client makes the attempts they take, at most three, each with its query, user and
    conversation (ill-formed UTF-8 in them replaced, as JSON does); if they outlast it the call returns
    the injected status, without a callback; otherwise what the handler sees and what is
    returned are those of the scripted events, in order and with their task id, as if no
    failure, no JSON and no framing had been between: every event is written as JSON on a
    data line, scanned and decoded again. *)
Theorem client_reads_mock :
  chatN s = 0 -> Hang (chat s) = false ->
  B_Status (chat s) = 429 \/ 500 <= B_Status (chat s) < 600 ->
  m_apiKey s = "" \/ m_apiKey s = apiKey c ->
  validateChatReq req = None -> TrimSpace (baseURL c) <> "" -> TrimSpace (apiKey c) <> "" ->
  Forall event_ok (Events (chat s)) -> Forall fits (stamp "" (Events (chat s))) ->
  let '(acts, (calls, (result, err))) := ChatStream marshal_chat unmarshal_event env v c req in
  length (attempts acts) = attempts_needed /\
  (forall k q, (k, q) ∈ attempts acts -> C_Query (capture q) = text (Query req) /\
     C_User (capture q) = text (User req) /\ C_ConversationID (capture q) = text (ConversationID req)) /\
  if FailForever (chat s) || (3 <=? FailTimes (chat s)) then
    calls = [] /\ result = zero_result /\
    exists u, err = Some (EUpstream u) /\ StatusCode u = B_Status (chat s)
  else
    let '(pre, stop) := before_stop ((fun ev => Ok (sse_of ev)) <$> stamp "" (Events (chat s))) in
    deltas_of calls = answers (messages pre) /\
    events_of calls =
      (match messages pre with [] => [] | e :: _ => [(TaskID e, E_ConversationID e)] end) /\
    err = stop_error None stop /\
    R_TotalTokens result = (match ended stop with Some e => TotalTokens e | None => 0 end) /\
    R_ConversationID result =
      (match ended stop with
       | Some e => set_if_given (gathered zero_result (messages pre)) (E_ConversationID e)
       | None => gathered zero_result (messages pre) end).
Proof.
  intros Hn Hh Hst' Hk Hv Hb Ha Hok Hfit.
  assert (B_Status (chat s) = 429 \/ 500 <= B_Status (chat s)) as Hst by lia.
  destruct (ready_to_chat Hk Hv Hb Ha) as [Hacc Hp].
  destruct (request_mock Hacc Hn Hh Hst) as (acts & Hr & Hl).
  assert (1 <= attempts_needed)%nat by (unfold attempts_needed; case_match; lia).
  unfold ChatStream. rewrite Hp, Hr, outcome_mock, injected_last by done.
  assert (length (attempts acts) = attempts_needed) as Hlen by (by rewrite Hl, length_fmap, length_seq).
  assert (forall k q, (k, q) ∈ attempts acts -> C_Query (capture q) = text (Query req) /\
     C_User (capture q) = text (User req) /\ C_ConversationID (capture q) = text (ConversationID req)) as Hcap.
  { rewrite Hl. intros k q (k' & [= -> ->] & _)%list_elem_of_fmap.
    by destruct (captured_payload rq (payload_of streamingResponseMode req) eq_refl) as (? & ? & ? & _). }
  destruct (FailForever (chat s) || (3 <=? FailTimes (chat s))).
  { split; [done|]. split; [done|]. split; [done|]. split; [done|]. by eexists. }
  assert (Forall event_ok (stamp "" (Events (chat s)))) as Hok' by (apply stamp_ok; [by exists []|done]).
  unfold script, parseSSE, streamSSE. cbn [Resp_Body]. rewrite scan_streamed by done.
  pose proof (payloads_streamed (stamp "" (Events (chat s))) Hok' Hfit) as Hpay.
  unfold payloads in Hpay. rewrite scan_streamed in Hpay by done. cbn [fst] in Hpay.
  pose proof (sse_loop_spec unmarshal_event (stamp "" (Events (chat s)) ≫=
    (fun ev => [of_bytes (line_bytes ev); ""])) None zero_result false []) as Hs.
  rewrite Hpay in Hs. destruct (before_stop _) as [pre stop].
  destruct Hs as (new & r' & -> & Hd & He & _ & Ht & Hc). cbn [app].
  split_and!; done.
Qed.

(** ** A stop against the mock *)

Lemma visit_answered hops r s1 resp : serve (baseURL c) None r s = (s1, Answered resp) ->
  visit hops (baseURL c) gives_up r s = (s1, Ok resp).
Proof. intros Hs. by destruct hops; cbn [visit]; rewrite Hs. Qed.

Lemma visit_redirected hops r path : serve (baseURL c) None r s = (s, Redirected path) ->
  visit (S hops) (baseURL c) gives_up r s = visit hops (baseURL c) gives_up
    {| Method := "GET"; URL := baseURL c +:+ path; Req_Body := ""; Authorization := Authorization r;
       Content_Type := Content_Type r; Accept := Accept r |} s.
Proof. intros Hs. cbn [visit]. by rewrite Hs. Qed.

(** A task id of one dot or two: the ServeMux cleans the path, the transport follows with a
    GET, and that is refused. *)
Lemma visit_dots taskID b0 : taskID = "." \/ taskID = ".." -> exists resp,
  visit 10 (baseURL c) gives_up (stop_request c taskID b0) s = (s, Ok resp) /\ is_2xx resp = false.
Proof.
  intros Ht.
  assert (exists path, EscapedPath (cleanPath ("/chat-messages/" +:+ PathEscape taskID +:+ "/stop")) = path /\
    cleanPath ("/chat-messages/" +:+ PathEscape taskID +:+ "/stop") <> "/chat-messages/" +:+ PathEscape taskID +:+ "/stop" /\
    (path = "/chat-messages/stop" \/ path = "/stop")) as (path & Hc & Hne & Hp).
  { destruct Ht as [->| ->]; (eexists; split; [vm_compute; reflexivity|]); split; auto; by vm_compute. }
  assert (serve (baseURL c) None (stop_request c taskID b0) s = (s, Redirected path)) as Hs.
  { unfold serve, stop_request. cbn [URL]. rewrite TrimPrefix_app, bool_decide_eq_false_2 by done. cbn [negb]. by rewrite Hc. }
  change 10%nat with (S 9). rewrite (visit_redirected 9 _ path Hs).
  assert (exists resp, serve (baseURL c) None {| Method := "GET"; URL := baseURL c +:+ path; Req_Body := "";
    Authorization := "Bearer " +:+ apiKey c; Content_Type := "application/json"; Accept := "" |} s =
    (s, Answered resp) /\ is_2xx resp = false) as (resp & Ha & H2).
  { unfold serve. cbn [URL Method]. rewrite TrimPrefix_app.
    destruct Hp as [->| ->]; eexists; (split; [vm_compute; reflexivity|reflexivity]). }
  exists resp. split; [|done]. by apply visit_answered.
Qed.

(** Any other task id is routed to the stop handler and recorded. *)
Lemma serve_stop taskID user :
  TrimSpace taskID <> "" -> taskID <> "." -> taskID <> ".." ->
  m_apiKey s = "" \/ m_apiKey s = apiKey c ->
  exists resp, is_2xx resp = true /\
  serve (baseURL c) None (stop_request c taskID (Marshal (user_json user))) s =
    ({| m_apiKey := m_apiKey s; chat := chat s; chatN := chatN s; chatReqs := chatReqs s;
        stopCalls := stopCalls s ++ [{| S_TaskID := taskID; S_User := text user |}] |}, Answered resp).
Proof.
  intros Ht Hd Hdd Hk.
  assert (forall t, t = PathEscape taskID -> PathUnescape t = Some taskID) as Hun
    by (intros t ->; apply PathUnescape_PathEscape).
  assert (PathEscape taskID <> "") as Hne.
  { intros E. symmetry in E. apply Hun in E. injection E as E. by rewrite <- E in Ht. }
  assert ("/chat-messages/" +:+ PathEscape taskID +:+ "/stop" =
    of_bytes (stop_path (bytes (PathEscape taskID)))) as Hpath.
  { unfold stop_path. by rewrite !of_bytes_app, !of_bytes_bytes. }
  assert (forall t, bytes (PathEscape taskID) = bytes t -> PathUnescape t = Some taskID) as Hunb
    by (intros t E; apply Hun; by apply bytes_inj in E).
  unfold serve, stop_request. cbn [URL]. rewrite TrimPrefix_app, Hpath, cleanPath_stop.
  2: apply PathEscape_one_segment.
  2: apply bytes_range.
  2: by rewrite bytes_nil.
  2: { intros E. destruct Hd. specialize (Hunb "." E). vm_compute in Hunb. congruence. }
  2: { intros E. destruct Hdd. specialize (Hunb ".." E). vm_compute in Hunb. congruence. }
  rewrite <- Hpath, bool_decide_eq_true_2 by done. cbn [negb].
  rewrite bool_decide_eq_false_2.
  2: { intros E. apply (f_equal bytes), (f_equal length) in E. rewrite !bytes_app, !length_app in E.
       cbn in E. lia. }
  assert (HasPrefix ("/chat-messages/" +:+ PathEscape taskID +:+ "/stop") "/chat-messages/" = true) as ->.
  { unfold HasPrefix. apply prefix_b_spec. rewrite !bytes_app. by eexists. }
  unfold handleStop. cbn [Method].
  rewrite (bool_decide_eq_true_2 ("POST" = "POST")) by done. cbn [negb].
  assert (authorized s (stop_request c taskID (Marshal (user_json user))) = true) as Hauth.
  { unfold authorized, stop_request. cbn [Authorization]. case_bool_decide; [done|].
    apply bool_decide_eq_true_2. by destruct Hk as [?| ->]. }
  unfold stop_request in Hauth. rewrite Hauth. cbn [negb].
  rewrite TrimPrefix_app, TrimSuffix_app, (bool_decide_eq_false_2 (PathEscape taskID = "")) by done.
  rewrite bool_decide_eq_false_2.
  2: { intros E. apply (f_equal bytes), (f_equal length) in E. rewrite bytes_app, length_app in E.
       cbn in E. lia. }
  cbn [orb]. rewrite PathUnescape_PathEscape. cbn [Req_Body].
  rewrite captured_user. eexists. split; [|reflexivity]. done.
Qed.

(** C36: what a stop comes to at the mock, for any task id and user.  A blank one makes no
    request.  Otherwise there is one request: with "." or ".." as task id it is redirected
    away from the stop handler, nothing is recorded and [Stop] fails; with any other
    (slashes, percent signs and "/stop" in it included) the stop handler records exactly
    that task id and that user (ill-formed UTF-8 in it replaced, as JSON does), and [Stop]
    succeeds. *)
Theorem Stop_reaches_mock taskID user :
  m_apiKey s = "" \/ m_apiKey s = apiKey c ->
  let r := stop_request c taskID (Marshal (user_json user)) in
  let s' := (visit 10 (baseURL c) gives_up r s).1 in
  let '(acts, err) := DifyApi.Stop env c marshal_user taskID user in
  if bool_decide (TrimSpace taskID = "" \/ TrimSpace user = "") then acts = [] /\ is_Some err
  else
    acts = [Attempt 0 r] /\ ChatRequests s' = ChatRequests s /\ chatN s' = chatN s /\
    if bool_decide (taskID = "." \/ taskID = "..")
    then is_Some err /\ StopCalls s' = StopCalls s
    else err = None /\ StopCalls s' = StopCalls s ++ [{| S_TaskID := taskID; S_User := text user |}].
Proof.
  intros Hk r s'. unfold DifyApi.Stop, marshal_user.
  case_bool_decide as Ht; [rewrite bool_decide_eq_true_2 by auto; by eauto|].
  case_bool_decide as Hu; [rewrite bool_decide_eq_true_2 by auto; by eauto|].
  rewrite (bool_decide_eq_false_2 (_ \/ _)) by naive_solver. fold r.
  unfold round_trip, mock_env. cbn beta iota delta [NewRequest Do].
  change (Nat.iter (0 - 1) _ s) with s. unfold s'. case_bool_decide as Hd.
  - destruct (visit_dots taskID (Marshal (user_json user)) Hd) as (resp & Hv & H2). fold r in Hv.
    rewrite Hv. cbn [fst snd]. rewrite H2. cbn [negb]. by eauto 10.
  - destruct (serve_stop taskID user) as (resp & H2 & Hs); [done|naive_solver..|done|]. fold r in Hs.
    rewrite (visit_answered 10 _ _ _ Hs). cbn [fst snd]. rewrite H2. by split_and!.
Qed.
End Chat.

(** ** An example: two 503s, then a short reply *)

Definition demo_script : list Event :=
  [mkMockEvent "message" 0 "Hello, " "task-1" "m1" "c9" "" "" 0;
   mkMockEvent "ping" 0 "" "" "" "" "" "" 0;
   mkMockEvent "message" 0 "traveller." "" "m1" "c9" "" "" 0;
   mkMockEvent "message_end" 0 "" "" "m1" "c9" "" "" 42].

Definition demo_mock : Server :=
  SetChat {| B_Status := 503; B_Body := "busy"; B_RetryAfter := ""; FailTimes := 2;
             FailForever := false; Hang := false; Events := demo_script |} (New "app-key").

Definition demo_req : ChatReq := mkChatReq "hi" (Some ∅) "p1" "" [] None.

Lemma demo_script_ok : Forall event_ok demo_script.
Proof.
  repeat apply Forall_cons_2; try apply Forall_nil_2; unfold event_ok;
    repeat match goal with |- _ /\ _ => split end;
    try (apply utf8_of_ascii; vm_compute; repeat constructor);
    unfold in_int64, min_int64, max_int64; cbn [V_TotalTokens]; lia.
Qed.

Lemma demo_script_fits : Forall fits (stamp "" demo_script).
Proof.
  repeat apply Forall_cons_2; try apply Forall_nil_2; unfold fits; apply Nat.ltb_lt; vm_compute; reflexivity.
Qed.

Lemma client_reads_mock_witness :
  exists acts calls result,
    ChatStream marshal_chat unmarshal_event
      (mock_env (baseURL demo_client) (ESentinel CtxDeadlineExceeded) demo_mock)
      production_backoff demo_client demo_req = (acts, (calls, (result, None))) /\
    length (attempts acts) = 3%nat /\ deltas_of calls = ["Hello, "; "traveller."] /\
    R_TotalTokens result = 42 /\ R_ConversationID result = "c9".
Proof.
  pose proof (client_reads_mock (ESentinel CtxDeadlineExceeded) production_backoff demo_client demo_mock
    demo_req eq_refl eq_refl ltac:(right; vm_compute; split; congruence) (or_intror eq_refl) eq_refl
    ltac:(vm_compute; discriminate) ltac:(vm_compute; discriminate)
    demo_script_ok demo_script_fits) as H.
  destruct (ChatStream _ _ _ _ _ _) as [acts [calls [result err]]].
  destruct H as (Hl & _ & Hd & _ & He & Ht & Hc). vm_compute in He. subst err.
  exists acts, calls, result. split; [reflexivity|]. split; [exact Hl|].
  split; [exact Hd|]. split; [exact Ht|exact Hc].
Defined.

Lemma Stop_reaches_mock_witness :
  let r id := stop_request demo_client id (Marshal (user_json "p1")) in
  let after id := (visit 10 (baseURL demo_client) (ESentinel CtxDeadlineExceeded) (r id) demo_mock).1 in
  stopCalls (after "a/b%/stop") = [{| S_TaskID := "a/b%/stop"; S_User := "p1" |}] /\
  stopCalls (after "..") = [].
Proof.
  pose proof (Stop_reaches_mock (ESentinel CtxDeadlineExceeded) demo_client demo_mock) as H. split.
  - specialize (H "a/b%/stop" "p1" (or_intror eq_refl)). cbv zeta in H.
    destruct (DifyApi.Stop _ _ _ _ _) as [acts err].
    rewrite (bool_decide_eq_false_2 (TrimSpace _ = "" \/ _)) in H by (vm_compute; intuition congruence).
    destruct H as (_ & _ & _ & H). rewrite bool_decide_eq_false_2 in H by intuition congruence.
    exact (proj2 H).
  - specialize (H ".." "p1" (or_intror eq_refl)). cbv zeta in H.
    destruct (DifyApi.Stop _ _ _ _ _) as [acts err].
    rewrite (bool_decide_eq_false_2 (TrimSpace _ = "" \/ _)) in H by (vm_compute; intuition congruence).
    destruct H as (_ & _ & _ & H). rewrite bool_decide_eq_true_2 in H by auto.
    exact (proj2 H).
Defined.
