(* ===== verification/Runtime.v ===== *)
(** * internal/gateway/runtime.go: the process is put together

    [Build] makes the parts from the configuration, in the code's order, and says what has
    become of the Redis client when it fails; [Run] is what the select of the main
    goroutine does with the first thing it receives.  The admin mux and its health routes,
    and cmd/gateway/main.go, which loads the configuration and calls [Run]. *)

From Stdlib Require Import SpecFloat.
From S2P Require Import Prelude GoNum GoStrings GoErr Auth Circuit Moderation Sse Retry ContextAsm.
From S2P Require Import Pipeline Router Telemetry.
From S2P Require Limiter Config.

Inductive client_state := NotCreated | Open | Closed.

#[export] Instance client_state_eq_dec : EqDecision client_state.
Proof. solve_decision. Defined.

Section Runtime.
Context `{JwtEnv} `{UnicodeCase} `{Prometheus}.

(** The parts of the Go record: [Handler] holds the authenticator, the limiter, the router
    and the assembler behind its interfaces, so they are kept beside it here; the listener
    is the handler's, and the logger holds no state of ours.  [Series]: the counts of
    [RequestsTotal] by status, a variable of the telemetry package. *)
Record Runtime := {
  Cfg : Config.Config;
  Redis_ : client_state;
  AuthN : JWTAuthenticator;
  RateLimiter : Limiter.RedisLimiter;
  Dify : DifyRouter;
  HttpTimeout : Z;
  Contexts : Assembler;
  PipelineHandler : Handler;
  AdminMux : ServeMux;
  AdminAddr : string;
  Series : gmap string Z
}.

(** [MODERATION_ENABLED] chooses the moderator; the word list is [nil]. *)
Definition moderator_of (enabled : bool) : Moderator :=
  let mod_ := policy_moderator (NewPolicyModerator (Allowed (NewKeywordPolicy []))) in
  if negb enabled then AllowAll else mod_.

(** The limiter's configuration; the fields not set take their zero values. *)
Definition zero_circuit : CircuitConfig := mkCircuitConfig 0 0 (S754_zero false) 0.
Definition limiter_config (cfg : Config.Config) : Limiter.Config := {|
  Limiter.RatePerPlayer := Config.RatePerPlayer cfg;
  Limiter.TokenBudgetDaily := Config.TokenBudgetDaily cfg;
  Limiter.MaxInflightUpstream := Config.MaxInflightUpstream cfg;
  Limiter.InflightLease := 0;
  Limiter.CircuitCfg := zero_circuit
|}.

Definition pipeline_config (enabled : bool) : HandlerConfig := {|
  cfg_auth := true;
  cfg_limiter := true;
  cfg_store := true;
  cfg_context := true;
  cfg_dify := true;
  cfg_moderator := Some (moderator_of enabled);
  ConversationTTL := 0;
  ConversationLockTTL := 0
|}.

(** ** The health routes *)

(** [/readyz], given whether Redis answers the ping: the status and the body. *)
Definition readyz (ping_ok : bool) : Z * string :=
  if ping_ok then (200, "ok" +:+ newline) else (503, "redis unavailable" +:+ newline).
Definition healthz : Z * string := (200, "ok" +:+ newline).

Definition addHealthHandlers (mux : ServeMux) : option ServeMux :=
  mux ← mux_Handle "/healthz" Healthz mux; mux_Handle "/readyz" Readyz mux.

(** What a request for a registered path is answered; [metrics]: what promhttp writes. *)
Definition serve_admin (mux : ServeMux) (metrics : Z * string) (ping_ok : bool) (path : string) :
    option (Z * string) :=
  (fun h => match h with Metrics => metrics | Healthz => healthz | Readyz => readyz ping_ok end) <$>
    (list_to_map mux : gmap string admin_handler) !! path.

(** ** Building *)

(** [range_]: the order in which Go ranges over the key map; [rand_read], [nano]: what
    naming the limiter's instance draws; [series]: [RequestsTotal] so far.  A failure says
    what state the Redis client is left in; [None] is a panic. *)
Definition Build (range_ : gmap string string -> list (string * string))
    (rand_read : res error (list Z)) (nano : Z) (series : gmap string Z)
    (cfg : Config.Config) : option (res (error * client_state) Runtime) :=
  match auth_New (Config.AuthJWTPubKey cfg) with
  | Err err => Some (Err (err, NotCreated))
  | Ok authn =>
      match Limiter.New true (limiter_config cfg) rand_read nano with
      | Err err => Some (Err (err, Closed))
      | Ok redisLimiter =>
          match NewDifyRouter range_ (Config.DifyBaseURL cfg) (Config.DifyAppKeys cfg) with
          | Err err => Some (Err (err, Closed))
          | Ok difyClient =>
              init ← Init [] series;
              match init with
              | Err err => Some (Err (err, Closed))
              | Ok (adminMux, series) =>
                  adminMux ← addHealthHandlers adminMux;
                  Some (Ok
                    {| Cfg := cfg;
                       Redis_ := Open;
                       AuthN := authn;
                       RateLimiter := redisLimiter;
                       Dify := difyClient;
                       HttpTimeout := wrap_int64 (Config.UpstreamTimeoutSec cfg * Second);
                       Contexts := ContextAsm.New DefaultContract [];
                       PipelineHandler := Pipeline.New (pipeline_config (Config.ModerationEnabled cfg));
                       AdminMux := adminMux;
                       AdminAddr := Config.GatewayAdminAddr cfg;
                       Series := series |})
              end
          end
      end
  end.

(** ** Running *)

(** What the select of [Run] receives first: the context's end, or the result of one of
    the two server goroutines. *)
Inductive first_event :=
| CtxDone
| AdminReturned (err : option error)
| ListenerReturned (err : option error).

(** The result of [Run], and whether the admin server is shut down. *)
Definition Runtime_Run (ev : first_event) : option error * bool :=
  let received := fun (err : option error) =>
    match err with Some e => (Some e, true) | None => (None, false) end in
  match ev with
  | CtxDone => (None, true)
  | AdminReturned err => received (EWrap "admin server" <$> err)
  | ListenerReturned err => received (EWrap "gateway listener" <$> err)
  end.

Definition Close (st : client_state) : client_state :=
  match st with Open => Closed | st => st end.

(** [Run]: build, run, and the deferred close. *)
Definition Run (b : res (error * client_state) Runtime) (ev : first_event) :
    option error * client_state :=
  match b with
  | Err (err, st) => (Some err, st)
  | Ok rt => ((Runtime_Run ev).1, Close (Redis_ rt))
  end.

(** ** cmd/gateway/main.go *)

(** [log.Fatalf], with the errors it prints ([Load] joins several), or the end of [main]. *)
Inductive exit := Fatal (what : string) (errs : list error) | Finished.

(** [None]: a panic. *)
Definition main (Getenv : string -> string) (range_ : gmap string string -> list (string * string))
    (rand_read : res error (list Z)) (nano : Z) (ev : first_event) : option exit :=
  match Config.Load Getenv with
  | Err errs => Some (Fatal "load config" errs)
  | Ok cfg =>
      b ← Build range_ rand_read nano ∅ cfg;
      match (Run b ev).1 with
      | Some err => Some (Fatal "run gateway" [err])
      | None => Some Finished
      end
  end.

(** ** Lemmas *)

(** The defaults the zero configuration stands for are a valid breaker's. *)
Lemma default_circuit : exists c, newCircuitBreaker zero_circuit = Ok c /\
  cstate c = CircuitClosed /\ cfg c = default_config.
Proof.
  destruct (newCircuitBreaker zero_circuit) as [c|e] eqn:E; [|vm_compute in E; discriminate E].
  exists c. split; [done|]. vm_compute in E. injection E as <-. split; vm_compute; reflexivity.
Qed.

Lemma limiter_New_ok cfg rand_read nano :
  0 < Config.TokenBudgetDaily cfg -> 0 < Config.MaxInflightUpstream cfg ->
  match Limiter.parseRate (Config.RatePerPlayer cfg) with
  | Err e => Limiter.New true (limiter_config cfg) rand_read nano = Err e
  | Ok r => exists l, Limiter.New true (limiter_config cfg) rand_read nano = Ok l /\
      Limiter.rate l = r /\ Limiter.tokenBudget l = Config.TokenBudgetDaily cfg /\
      Limiter.maxInflight l = Config.MaxInflightUpstream cfg /\
      Limiter.inflightTTL l = 2 * Minute /\ breaker_inv (Limiter.circuit l) /\
      Circuit.cfg (Limiter.circuit l) = default_config /\
      cstate (Limiter.circuit l) = CircuitClosed
  end.
Proof.
  intros Hb Hm. unfold Limiter.New. cbn [negb Limiter.RatePerPlayer Limiter.TokenBudgetDaily
    Limiter.MaxInflightUpstream Limiter.InflightLease Limiter.CircuitCfg limiter_config].
  destruct (Limiter.parseRate _) as [r|e]; [|done]. cbn [res_bind].
  rewrite !(proj2 (Z.leb_gt _ 0)) by (done || (vm_compute; done)).
  destruct default_circuit as (c & Hc & Hs & Hcf). rewrite Hc. cbn [res_bind].
  eexists. split; [done|]. cbn. split_and!; [reflexivity..|by eapply new_inv|exact Hcf|exact Hs].
Qed.

(** With an empty word list the moderator lets everything through. *)
Lemma moderator_of_allows enabled text :
  CheckInput (moderator_of enabled) text = (true, "") /\
  CheckOutput (moderator_of enabled) text = (true, "").
Proof. by destruct enabled. Qed.

(** What the parts of a process built from [cfg] are. *)
Record wired (cfg : Config.Config) (rt : Runtime) : Prop := {
  w_ready : Pipeline.ready (PipelineHandler rt) = None;
  w_auth : has_auth (PipelineHandler rt) = true /\ auth_New (Config.AuthJWTPubKey cfg) = Ok (AuthN rt);
  w_ttl : conversationTTL (PipelineHandler rt) = 24 * Hour /\
          conversationLockTTL (PipelineHandler rt) = 15 * Second;
  w_limiter : Limiter.parseRate (Config.RatePerPlayer cfg) = Ok (Limiter.rate (RateLimiter rt)) /\
              Limiter.tokenBudget (RateLimiter rt) = Config.TokenBudgetDaily cfg /\
              Limiter.maxInflight (RateLimiter rt) = Config.MaxInflightUpstream cfg /\
              Limiter.inflightTTL (RateLimiter rt) = 2 * Minute;
  w_circuit : breaker_inv (Limiter.circuit (RateLimiter rt)) /\
              Circuit.cfg (Limiter.circuit (RateLimiter rt)) = default_config /\
              cstate (Limiter.circuit (RateLimiter rt)) = CircuitClosed;
  w_moderator : forall text, CheckInput (moderator (PipelineHandler rt)) text = (true, "") /\
                             CheckOutput (moderator (PipelineHandler rt)) text = (true, "");
  w_admin : forall metrics ping_ok path, serve_admin (AdminMux rt) metrics ping_ok path =
    if bool_decide (path = "/metrics") then Some metrics
    else if bool_decide (path = "/healthz") then Some healthz
    else if bool_decide (path = "/readyz") then Some (readyz ping_ok)
    else None
}.

(** The metrics register and no admin route collides. *)
Lemma admin_built `{!PrometheusLaws} series :
  exists mux series', Init [] series = Some (Ok (mux, series')) /\
    addHealthHandlers mux = Some [("/metrics", Metrics); ("/healthz", Healthz); ("/readyz", Readyz)].
Proof.
  pose proof (Init_result [] series) as E. cbn in E.
  eexists _, _. split; [exact E|]. reflexivity.
Qed.

Lemma admin_routes metrics ping_ok path :
  serve_admin [("/metrics", Metrics); ("/healthz", Healthz); ("/readyz", Readyz)] metrics ping_ok path =
    if bool_decide (path = "/metrics") then Some metrics
    else if bool_decide (path = "/healthz") then Some healthz
    else if bool_decide (path = "/readyz") then Some (readyz ping_ok)
    else None.
Proof.
  unfold serve_admin. cbn [list_to_map foldr uncurry curry fst snd].
  repeat (case_bool_decide; [subst; by simplify_map_eq|]). by simplify_map_eq.
Qed.

(** [Build] succeeds exactly with a usable key and rate, and what it makes is wired. *)
Lemma Build_makes_wired `{!PrometheusLaws} Getenv cfg range_ rand_read nano series :
  Config.Load Getenv = Ok cfg -> range_ (Config.DifyAppKeys cfg) ≡ₚ map_to_list (Config.DifyAppKeys cfg) ->
  exists b, Build range_ rand_read nano series cfg = Some b /\
    is_ok b = is_ok (auth_New (Config.AuthJWTPubKey cfg)) && is_ok (Limiter.parseRate (Config.RatePerPlayer cfg)) /\
    (forall rt, b = Ok rt -> wired cfg rt) /\
    (forall ev, (Run b ev).2 <> Open).
Proof.
  intros Hload Hrange. apply Config.Load_loaded in Hload.
  destruct (Config.loaded_router _ _ _ Hload Hrange) as [r Hr].
  pose proof Hload as [_ _ _ _ _ Hbud Hinf _].
  destruct (Config.optional_positive _ _ _ _ Hbud ltac:(split; done)) as [Hb _].
  destruct (Config.optional_positive _ _ _ _ Hinf ltac:(split; done)) as [Hi _].
  pose proof (limiter_New_ok cfg rand_read nano Hb Hi) as Hl.
  unfold Build. rewrite Hr.
  destruct (auth_New (Config.AuthJWTPubKey cfg)) as [authn|e] eqn:Ea; [|eexists; split_and!; by intros].
  destruct (Limiter.parseRate (Config.RatePerPlayer cfg)) as [rl|e] eqn:Er;
    [|rewrite Hl; eexists; split_and!; by intros].
  destruct Hl as (l & Hl & H1' & H2' & H3' & H4' & H5' & H6' & H7'). rewrite Hl.
  destruct (admin_built series) as (mux & series' & -> & Hm). cbn. rewrite Hm. cbn.
  eexists. split_and!; [done|done| |done]. intros rt [= <-].
  split; cbn; try done; [by rewrite H1'|intros text; apply moderator_of_allows|apply admin_routes].
Qed.

(** C40: start-up.  The process ends with "load config" exactly when [Load] fails.  From a
    configuration it accepts, [Build] never panics and succeeds exactly when the public key
    is usable and the rate parses (the metrics always register); the handler it makes is
    then ready (no request is answered "gateway is not ready"), with the default TTLs, the
    configured limits and a closed, well-formed breaker, and the admin mux answers its
    three routes; the moderator it is given lets every text through whatever
    MODERATION_ENABLED says, the word list being empty.  However building and running end,
    the Redis client is not left open; the process finishes exactly when it was built and
    no server failed, else it ends with "run gateway". *)
Theorem gateway_starts `{!PrometheusLaws} Getenv range_ rand_read nano ev :
  (forall m, range_ m ≡ₚ map_to_list m) ->
  let process := main Getenv range_ rand_read nano ev in
  match Config.Load Getenv with
  | Err errs => process = Some (Fatal "load config" errs)
  | Ok cfg =>
      exists b, Build range_ rand_read nano ∅ cfg = Some b /\
        is_ok b = is_ok (auth_New (Config.AuthJWTPubKey cfg)) &&
                  is_ok (Limiter.parseRate (Config.RatePerPlayer cfg)) /\
        (forall rt, b = Ok rt -> wired cfg rt) /\
        (Run b ev).2 <> Open /\
        if is_ok b && bool_decide ((Runtime_Run ev).1 = None) then process = Some Finished
        else exists err, process = Some (Fatal "run gateway" [err])
  end.
Proof.
  intros Hrange process. subst process. unfold main.
  destruct (Config.Load Getenv) as [cfg|err] eqn:Hload; [|done].
  destruct (Build_makes_wired Getenv cfg range_ rand_read nano ∅ Hload (Hrange _)) as (b & Hb & Hok & Hw & Hc).
  exists b. rewrite Hb. cbn [mbind option_bind]. split_and!; [done..|].
  destruct b as [rt|[err st]]; cbn [is_ok andb Run fst]; [|by eexists].
  case_bool_decide as E; [by rewrite E|]. destruct (Runtime_Run ev).1; [by eexists|done].
Qed.
End Runtime.

Definition demo_pem_getenv (name : string) : string :=
  match (list_to_map [("DIFY_BASE_URL", "http://dify/v1"); ("REDIS_ADDR", "redis:6379");
      ("AUTH_JWT_PUBKEY", "rsa"); ("DIFY_APP_KEYS", "default=app-0")] : gmap string string) !! name with
  | Some v => v
  | None => ""
  end.

(** A process that starts, and ends when its context does. *)
Lemma gateway_starts_witness :
  @main toy_jwt ascii_case name_registry demo_pem_getenv map_to_list (Ok [1; 2; 3; 4; 5; 6; 7; 8]) 0 CtxDone
    = Some Finished /\
  exists cfg (rt : @Runtime toy_jwt), Config.Load demo_pem_getenv = Ok cfg /\ Pipeline.ready (PipelineHandler rt) = None /\
    serve_admin (AdminMux rt) (200, "") false "/readyz" = Some (503, "redis unavailable" +:+ newline).
Proof.
  pose proof (@gateway_starts toy_jwt ascii_case name_registry name_registry_laws demo_pem_getenv
    map_to_list (Ok [1; 2; 3; 4; 5; 6; 7; 8]) 0 CtxDone (fun m => Permutation_refl _)) as Hs.
  cbn zeta in Hs. destruct (Config.Load demo_pem_getenv) as [cfg|e] eqn:E; [|vm_compute in E; discriminate E].
  destruct Hs as (b & Hb & Hok & Hw & _ & Hp).
  assert (is_ok b = true) as Hok'.
  { rewrite Hok. vm_compute in E. injection E as <-. vm_compute. reflexivity. }
  rewrite Hok' in Hp. split; [exact Hp|].
  destruct b as [rt|e]; [|discriminate Hok']. destruct (Hw rt eq_refl) as [Hr _ _ _ _ _ Ha].
  exists cfg, rt. split; [done|]. split; [exact Hr|]. by rewrite Ha.
Defined.
