(* ===== verification/World.v ===== *)
(** * Conversations across requests: the handler with the store

    A run of the chat handler is a list of effects with the answers they got.  [history]
    says that the answers of its conversation calls are those of the store
    ([GetConversation], [SetConversation], [DeleteConversation]) on one Redis server, with
    network faults, while time passes and everything else that happens to the server (the
    locks, the limiter, other players' requests) leaves the mapping of one player and npc
    alone.  Composing it with what every run does gives the property players see: the npc
    remembers the conversation until a reset or the TTL. *)

From S2P Require Import Prelude GoNum GoStrings GoErr Proto Auth Moderation Sse Redis Store.
From S2P Require Import Pipeline PipelineTheory.

(** No fault of the network is redis.Nil, the reply for a missing key. *)
Definition network_fault (f : fault) : bool :=
  match f with NoFault => true | LostRequest e | LostReply e => negb (errors_is e RedisNil) end.

(** The calls that change a mapping. *)
Definition writes_mapping (ev : event) : bool :=
  match ev with
  | Ev e _ => match e with Store_Set _ _ _ _ _ | Store_Delete _ _ => true | _ => false end
  end.

Section World.
Context {R : Type} `{RedisLaws R}.
Implicit Types r : R.

(** An event of a run, at server time [t]: what it does to the server and is answered. *)
Definition store_call (t : Z) (r : R) (ev : event) (r' : R) : Prop :=
  match ev with
  | @Ev X e x =>
      match e in eff X return X -> Prop with
      | Store_Get p n => fun x =>
          exists f, network_fault f = true /\ GetConversation f t p n r = (r', x)
      | Store_Set _ p n c ttl => fun x =>
          exists f, network_fault f = true /\ SetConversation f t p n c ttl r = (r', x)
      | Store_Delete p n => fun x =>
          exists f, network_fault f = true /\ DeleteConversation f t p n r = (r', x)
      | _ => fun _ => r' = r
      end x
  end.

(** The events, from a server and a time to a server and a time. *)
Inductive history (key : string) : R -> Z -> list event -> R -> Z -> Prop :=
| history_nil r t : history key r t [] r t
| history_time r t d l r' t' : 0 <= d -> history key r (t + d) l r' t' -> history key r t l r' t'
| history_others r t r1 l r' t' : entry r1 t key = entry r t key ->
    history key r1 t l r' t' -> history key r t l r' t'
| history_event r t ev r1 l r' t' : store_call t r ev r1 ->
    history key r1 t l r' t' -> history key r t (ev :: l) r' t'.

Lemma history_app key r t l k r' t' : history key r t (l ++ k) r' t' ->
  exists r1 t1, history key r t l r1 t1 /\ history key r1 t1 k r' t'.
Proof.
  remember (l ++ k) as lk eqn:E. intros Hh. revert l E.
  induction Hh as [r t|r t d lk r' t' Hd Hh IH|r t r1 lk r' t' He Hh IH|r t ev r1 lk r' t' Hc Hh IH]; intros l E.
  - symmetry in E. apply app_nil in E as [-> ->]. exists r, t. split; constructor.
  - destruct (IH l E) as (r2 & t2 & H1 & H2). exists r2, t2. split; [by eapply history_time|done].
  - destruct (IH l E) as (r2 & t2 & H1 & H2). exists r2, t2. split; [by eapply history_others|done].
  - destruct l as [|ev' l]; cbn in E.
    + subst k. exists r, t. split; [constructor|by eapply history_event].
    + injection E as <- ->. destruct (IH l eq_refl) as (r2 & t2 & H1 & H2).
      exists r2, t2. split; [by eapply history_event|done].
Qed.

Lemma history_time_le key r t l r' t' : history key r t l r' t' -> t <= t'.
Proof. induction 1; lia. Qed.

Lemma entry_agrees r r1 t t' k : t <= t' -> entry r1 t k = entry r t k -> entry r1 t' k = entry r t' k.
Proof. intros Ht E. by rewrite !(entry_later _ t t'), E by done. Qed.

(** ** What the store's calls do to the mapping *)

Lemma GetConversation_reads f t p n r r' x : network_fault f = true ->
  GetConversation f t p n r = (r', x) ->
  (forall k, entry r' t k = entry r t k) /\
  match entry r t (conversationKey p n) with
  | Some (RStr c, _) => x = Ok c \/ is_ok x = false
  | None => x = Ok "" \/ is_ok x = false
  | Some (RZset _, _) => is_ok x = false
  end.
Proof.
  unfold GetConversation, run, script_call. intros Hf.
  destruct f as [|e|e]; cbn [network_fault] in Hf; try apply negb_true_iff in Hf.
  2: { rewrite Hf. intros [= <- <-]. split; [done|]. by repeat case_match; auto. }
  all: redis_step r1 E Ek Eo; cbn [command_effect key_of fst snd] in *; rewrite ?Hf;
    (assert (forall k, entry r1 t k = entry r t k) as Ha;
     [intros k; destruct (decide (k = conversationKey p n)) as [->|]; [|by apply Eo];
      rewrite Ek; by repeat case_match|]);
    destruct (entry r t (conversationKey p n)) as [[[s|z] o]|] eqn:En; cbn;
    intros Hx; simplify_eq; auto.
Qed.

Lemma SetConversation_stores f t p n c ttl r r' :
  SetConversation f t p n c ttl r = (r', None) ->
  entry r' t (conversationKey p n) = Some (RStr c, Some (t + ttl_ms ttl)).
Proof.
  unfold SetConversation, run, script_call. destruct (ttl <=? 0); [done|].
  destruct f as [|e|e]; [|done|by destruct (exec _ _ _)].
  redis_step r1 E Ek Eo. cbn in *. by intros [= <-].
Qed.

Lemma DeleteConversation_clears f t p n r r' :
  DeleteConversation f t p n r = (r', None) -> entry r' t (conversationKey p n) = None.
Proof.
  unfold DeleteConversation, run, script_call.
  destruct f as [|e|e]; [|done|by destruct (exec _ _ _)].
  redis_step r1 E Ek Eo. cbn in *. by intros [= <-].
Qed.

(** Events that write nothing leave the mapping to the clock. *)
Lemma history_keeps key r t l r' t' : Forall (fun ev => writes_mapping ev = false) l ->
  history key r t l r' t' -> entry r' t' key = entry r t' key.
Proof.
  intros Hl Hh. induction Hh as [r t|r t d l r' t' Hd Hh IH|r t r1 l r' t' He Hh IH|r t ev r1 l r' t' Hc Hh IH].
  - done.
  - by apply IH.
  - rewrite IH by done. apply (entry_agrees r r1 t); [by eapply history_time_le|done].
  - inversion Hl as [|? ? Hev Hl']; subst. rewrite IH by done.
    apply (entry_agrees r r1 t); [by eapply history_time_le|].
    destruct ev as [X e x]. destruct e; cbn in Hc, Hev; try (by subst); try done.
    destruct Hc as (f & Hf & Hg). by eapply GetConversation_reads.
Qed.

Lemma history_cons key r t ev l r' t' : history key r t (ev :: l) r' t' ->
  exists r1 r2 t1, t <= t1 /\ entry r1 t1 key = entry r t1 key /\ store_call t1 r1 ev r2 /\
    history key r2 t1 l r' t'.
Proof.
  remember (ev :: l) as evl eqn:E. intros Hh.
  induction Hh as [r t|r t d lk r' t' Hd Hh IH|r t r1 lk r' t' He Hh IH|r t ev' r1 lk r' t' Hc Hh IH]; [done| | |].
  - destruct (IH E) as (r1 & r2 & t1 & ? & ? & ? & ?). exists r1, r2, t1. split_and!; try done. lia.
  - destruct (IH E) as (ra & r2 & t1 & ? & Ha & ? & ?). exists ra, r2, t1. split_and!; try done.
    rewrite Ha. by eapply entry_agrees.
  - injection E as -> ->. exists r, r1, t. split_and!; done || lia.
Qed.

(** What a read answers when nothing has been written before it. *)
Lemma history_read p n r t a x b r' t' :
  let key := conversationKey p n in
  Forall (fun ev => writes_mapping ev = false) a ->
  history key r t (a ++ Ev (Store_Get p n) x :: b) r' t' ->
  exists t1, t <= t1 <= t' /\
    match entry r t1 key with
    | Some (RStr c, _) => x = Ok c \/ is_ok x = false
    | None => x = Ok "" \/ is_ok x = false
    | Some (RZset _, _) => is_ok x = false
    end.
Proof.
  intros key Ha (ra & ta & Ha1 & Hb)%history_app.
  pose proof (history_time_le _ _ _ _ _ _ Ha1).
  apply history_cons in Hb as (r1 & r2 & t1 & Ht & He & Hc & Hb).
  pose proof (history_time_le _ _ _ _ _ _ Hb). exists t1. split; [lia|].
  destruct Hc as (f & Hf & Hg). apply GetConversation_reads in Hg as [_ Hg]; [|done].
  fold key in Hg. rewrite He in Hg.
  by rewrite <- (entry_agrees _ _ _ _ _ Ht (history_keeps key r t a ra ta Ha Ha1)).
Qed.

(** ** What a run writes *)

(** Steps of the conversation that write, or concern somebody else. *)
Definition writing (s : conv_step) : bool :=
  match s with Kept _ | Foreign => true | _ => false end.

Lemma upstream_part_writes c l : upstream_part c l -> (length (List.filter writing l) <= 1)%nat.
Proof. intros [->|[->|(c' & _ & ->)]]; cbn; lia. Qed.

Lemma conversation_run_writes client l :
  conversation_run client l -> (length (List.filter writing l) <= 1)%nat.
Proof.
  induction 1; cbn; rewrite ?List.filter_app, ?length_app; cbn;
    repeat match goal with H : upstream_part _ _ |- _ => apply upstream_part_writes in H end; lia.
Qed.

Lemma conv_steps_quiet p n l : List.filter writing (conv_steps p n l) = [] ->
  Forall (fun ev => writes_mapping ev = false) l.
Proof.
  induction l as [|[X e x] l IH]; [by constructor|]. unfold conv_steps in *. cbn [omap list_omap].
  intros Hf. constructor.
  - destruct e; try done; cbn in Hf; by case_bool_decide.
  - apply IH. destruct (conv_step_of p n (Ev e x)); [|done].
    cbn in Hf. by destruct (writing c).
Qed.

(** Frames and counters sent while streaming: no ChatDone, no "ok". *)
Definition midstream (ev : event) : Prop :=
  match ev with
  | Ev e _ => match e with
              | Send_Frame (Server_Done _) => False
              | Send_Frame _ => True
              | Count_Request s => s <> "ok"
              | _ => False
              end
  end.

(** Cases on a membership in a list that is spelled out. *)
Ltac in_list H :=
  repeat first
    [ apply elem_of_app in H as [H|H] | apply elem_of_cons in H as [H|H] | by apply elem_of_nil in H ].

#[export] Instance Server_Done_inj : Inj (=) (=) Server_Done.
Proof. by intros ? ? [=]. Qed.

Section Runs.
Context (h : Handler).

Lemma run_stream_midstream reqID s v c :
  holds (run_stream h true reqID s v c) (fun l _ => Forall midstream l).
Proof.
  revert v c. induction s as [r err|cb k IH]; intros v c; cbn [run_stream].
  { apply holds_ret. constructor. }
  destruct cb as [t cv|d]; [apply IH|]. apply holds_bind.
  eapply (holds_mono _ (fun l _ => Forall midstream l)).
  - unfold onDelta, answer, send. run; by repeat constructor.
  - intros l [v' c'] Hl. eapply holds_mono; [apply IH|]. intros l' ? Hl'. by apply Forall_app_2.
Qed.

Lemma midstream_frames l : Forall midstream l ->
  ("ok" ∉ statuses l) /\ (forall d, Server_Done d ∉ frames l).
Proof.
  induction 1 as [|[X e x] l He _ [IH1 IH2]]; [split; [|intros d]; by intros ?%elem_of_nil|].
  unfold statuses, frames in *. cbn [omap list_omap].
  destruct e; try done; cbn [status_of frame_of] in *.
  - split; [done|]. intros d [E|?]%elem_of_cons; [by subst|by eapply IH2].
  - split; [|done]. intros [E|?]%elem_of_cons; [by subst|done].
Qed.

(** A request counted ok has stored the conversation its ChatDone names, if any. *)
Definition kept (p n : string) (l : list event) : Prop :=
  "ok" ∈ statuses l -> forall d, Server_Done d ∈ frames l -> CD_ConversationId d <> "" ->
  Ev (Store_Set false p n (CD_ConversationId d) (conversationTTL h)) None ∈ l.

Lemma converse_kept reqID p n q c i :
  holds (converse h true reqID p n q c i) (fun l _ => kept p n l).
Proof.
  unfold converse. apply holds_bind, holds_perform. intros s. apply holds_bind.
  eapply holds_mono; [apply run_stream_midstream|]. intros l [v [r err]] [Hok Hdone]%midstream_frames.
  unfold finish_error, finish_ok, flush_and_done, answer, send, recordSuccess, recordFailure,
    releaseSlot, stopUpstream, persistConversation, kept.
  run; unfold statuses, frames in *; rewrite ?omap_app; cbn [omap list_omap status_of frame_of app];
    intros Hs d Hd Hc; in_list Hs; try done; in_list Hd; try done; try (by destruct (Hdone d));
    apply (inj Server_Done) in Hd; subst d; cbn [CD_ConversationId] in *;
    repeat match goal with
      | H : negb (bool_decide (_ = "")) = false |- _ => by apply negb_false_iff, bool_decide_eq_true in H
      end;
    right; apply elem_of_app; right; repeat first [left; reflexivity|right].
Qed.

Lemma HandleChat_kept sess req :
  holds (HandleChat h true sess req) (fun l _ => kept (PlayerID sess) (TrimSpace (Chat_NpcId req)) l).
Proof.
  eapply holds_mono; [apply HandleChat_cases|]. cbv beta zeta.
  intros l _ [(_ & _ & Hs)|(pre & mid & post & c & i & -> & (Fp & Sp & _) & (Fq & Sq & _) & _ & _ & _ & _ & _ & _ & Hm)].
  { by intros ?. }
  unfold kept. rewrite !statuses_app, !frames_app, Fp, Sp, Fq, Sq, !app_nil_r. cbn [app].
  intros Hok d Hd Hc.
  apply elem_of_app; right; apply elem_of_app; left.
  revert Hok d Hd Hc. change (kept (PlayerID sess) (TrimSpace (Chat_NpcId req)) mid).
  eapply holds_run_of; [apply converse_kept|exact Hm].
Qed.
End Runs.

(** ** Which conversation a run uses *)

Lemma upstream_part_uses c c' l : upstream_part c l ->
  (Foreign ∉ l) /\ (Used c' ∈ l -> c' = c).
Proof. intros [->|[->|(d & _ & ->)]]; split; set_solver. Qed.

Lemma conversation_run_uses client l c : conversation_run client l ->
  (Foreign ∉ l) /\
  (Used c ∈ l -> exists rest,
    (l = Stored (Ok c) :: rest /\ c <> "") \/
    (l = Stored (Ok "") :: rest /\
     (c = TrimSpace client \/
      exists k rest', TrimSpace client = "" /\ rest = Locked (Ok k) :: Stored (Ok c) :: rest'))).
Proof.
  intros Hr. destruct Hr as [|e|c0 l Hc0 Hu|l Ht Hu|e Ht|k e Ht|k c0 l Ht Hc0 Hu|k l Ht Hu];
    try apply (upstream_part_uses _ c) in Hu as [Hf Hu];
    (split; [set_solver|]); intros Hin; in_list Hin; try done; rewrite (Hu Hin).
  - eexists. by left.
  - eexists. right. split; [done|]. by left.
  - eexists. right. split; [done|]. right. by eauto.
  - eexists. right. split; [done|]. right. by eauto.
Qed.

Lemma conv_steps_split p n l a s b : conv_steps p n l = a ++ s :: b ->
  exists l1 ev l2, l = l1 ++ ev :: l2 /\ conv_steps p n l1 = a /\ conv_step_of p n ev = Some s.
Proof.
  revert a. induction l as [|ev l IH]; intros a E; [by destruct a|].
  unfold conv_steps in *. cbn [omap list_omap] in E.
  destruct (conv_step_of p n ev) as [s'|] eqn:Es.
  - destruct a as [|s1 a]; cbn in E; injection E as -> E.
    + exists [], ev, l. done.
    + destruct (IH a E) as (l1 & ev' & l2 & -> & <- & Hs). exists (ev :: l1), ev', l2.
      split_and!; [done| |done]. cbn [omap list_omap]. by rewrite Es.
  - destruct (IH a E) as (l1 & ev' & l2 & -> & <- & Hs). exists (ev :: l1), ev', l2.
    split_and!; [done| |done]. cbn [omap list_omap]. by rewrite Es.
Qed.

Lemma conv_step_stored p n ev x : conv_step_of p n ev = Some (Stored x) -> ev = Ev (Store_Get p n) x.
Proof.
  destruct ev as [X e y]. destruct e; cbn; try done; case_bool_decide as Hb; try done; try by intros [=].
  destruct Hb as [-> ->]. by intros [= ->].
Qed.

(** The calls upstream are steps of the conversation. *)
Lemma upstreams_used p n l q s : (Foreign ∉ conv_steps p n l) ->
  (q, s) ∈ upstreams l -> Used (ConversationID q) ∈ conv_steps p n l.
Proof.
  unfold upstreams, conv_steps. rewrite !list_elem_of_omap. intros Hf (ev & Hin & Hu).
  destruct ev as [X e x]. destruct e; try done. cbn in Hu. injection Hu as -> ->.
  exists (Ev (Dify_ChatStream q) s). split; [done|]. cbn.
  case_bool_decide as Hb; [done|]. destruct Hf. exists (Ev (Dify_ChatStream q) s).
  split; [done|]. cbn. by rewrite bool_decide_eq_false_2.
Qed.

Lemma conv_steps_before p n l a : conv_steps p n l = a -> List.filter writing a = [] ->
  Forall (fun ev => writes_mapping ev = false) l.
Proof. intros <-. apply conv_steps_quiet. Qed.

Ltac settle x Hx := destruct x as [[[?|?] ?]|]; [|discriminate Hx|]; destruct Hx as [Hx|Hx]; try discriminate Hx; intros; congruence.

(** The conversation a request continues, by what the server holds when it is read. *)
Lemma chat_uses h sess req env hist r t r' t' q s :
  let key := conversationKey (PlayerID sess) (TrimSpace (Chat_NpcId req)) in
  let l := (HandleChat h true sess req env hist).1 in
  history key r t l r' t' -> (q, s) ∈ upstreams l ->
  exists t1, t <= t1 <= t' /\
    match entry r t1 key with
    | Some (RStr c, _) => c <> "" -> ConversationID q = c
    | None => ConversationID q = TrimSpace (Chat_ConversationId req)
    | Some (RZset _, _) => False
    end.
Proof.
  intros key l Hh Hq. pose proof (chat_conv h true sess req env hist) as Hr. cbv beta in Hr.
  set (p := PlayerID sess) in *. set (n := TrimSpace (Chat_NpcId req)) in *. fold l in Hr.
  apply (conversation_run_uses _ _ (ConversationID q)) in Hr as [Hf Hu].
  assert (forall a x c, conv_steps p n l = a ++ Stored x :: c -> List.filter writing a = [] ->
    exists t1, t <= t1 <= t' /\
      match entry r t1 key with
      | Some (RStr c, _) => x = Ok c \/ is_ok x = false
      | None => x = Ok "" \/ is_ok x = false
      | Some (RZset _, _) => is_ok x = false
      end) as Hread.
  { intros a x c E Ha. destruct (conv_steps_split p n l a _ _ E) as (l1 & ev & l2 & El & E1 & Hev).
    apply conv_step_stored in Hev as ->. rewrite El in Hh.
    exact (history_read _ _ _ _ _ _ _ _ _ (conv_steps_before _ _ _ _ E1 Ha) Hh). }
  destruct (Hu (upstreams_used _ _ _ _ _ Hf Hq)) as (rest & [[E Hc]|[E [Hc|(k & rest' & Hcl & ->)]]]).
  - destruct (Hread [] _ _ E eq_refl) as (t1 & Ht1 & Hx). exists t1. split; [done|].
    settle (entry r t1 key) Hx.
  - destruct (Hread [] _ _ E eq_refl) as (t1 & Ht1 & Hx). exists t1. split; [done|].
    settle (entry r t1 key) Hx.
  - destruct (Hread [Stored (Ok ""); Locked (Ok k)] _ _ E eq_refl) as (t1 & Ht1 & Hx).
    exists t1. split; [done|].
    settle (entry r t1 key) Hx.
Qed.

(** ** What a run leaves *)

(** After a request counted ok the server holds the conversation of its ChatDone. *)
Lemma chat_leaves h sess req env hist r t r' t' d :
  let key := conversationKey (PlayerID sess) (TrimSpace (Chat_NpcId req)) in
  let l := (HandleChat h true sess req env hist).1 in
  history key r t l r' t' -> "ok" ∈ statuses l -> Server_Done d ∈ frames l -> CD_ConversationId d <> "" ->
  exists e, t + ttl_ms (conversationTTL h) <= e /\
    entry r' t' key = live t' (Some (RStr (CD_ConversationId d), Some e)).
Proof.
  intros key l Hh Hok Hd Hc. pose proof (HandleChat_kept h sess req env hist Hok d Hd Hc) as Hin.
  pose proof (conversation_run_writes _ _ (chat_conv h true sess req env hist)) as Hw. cbv beta in Hw.
  set (p := PlayerID sess) in *. set (n := TrimSpace (Chat_NpcId req)) in *. fold l in Hw.
  apply list_elem_of_split in Hin as (a & b & E). fold l in E. rewrite E in Hh, Hw.
  change (Ev ?e ?x :: b) with ([Ev e x] ++ b) in Hw.
  rewrite !conv_steps_app, !List.filter_app, !length_app in Hw. cbn in Hw.
  rewrite bool_decide_eq_true_2 in Hw by done. cbn in Hw.
  assert (Forall (fun ev => writes_mapping ev = false) b) as Hb.
  { apply (conv_steps_quiet p n), nil_length_inv. lia. }
  apply history_app in Hh as (ra & ta & Ha & Hh). apply history_time_le in Ha.
  apply history_cons in Hh as (r1 & r2 & t1 & Ht & _ & (f & _ & Hset) & Hh).
  apply SetConversation_stores in Hset. pose proof (history_time_le _ _ _ _ _ _ Hh) as Hle.
  exists (t1 + ttl_ms (conversationTTL h)). split; [lia|].
  rewrite (history_keeps _ _ _ _ _ _ Hb Hh), (entry_later r2 t1 t') by done. unfold key. by rewrite Hset.
Qed.

(** After a reset answered with ChatDone the server holds nothing. *)
Lemma reset_leaves h sess req env hist r t r' t' :
  let key := conversationKey (PlayerID sess) (TrimSpace (Reset_NpcId req)) in
  let l := (HandleReset h true sess req env hist).1 in
  history key r t l r' t' -> done (Reset_RequestId req) "" 0 ∈ frames l -> entry r' t' key = None.
Proof.
  intros key l. enough (holds (HandleReset h true sess req) (fun l _ =>
    history key r t l r' t' -> done (Reset_RequestId req) "" 0 ∈ frames l -> entry r' t' key = None)) as Hl
    by exact (Hl env hist).
  unfold HandleReset, answer, send. run; intros Hh Hd; in_list Hd; try done.
  apply history_cons in Hh as (r1 & r2 & t1 & Ht & _ & (f & _ & Hdel) & Hh).
  apply DeleteConversation_clears in Hdel. pose proof (history_time_le _ _ _ _ _ _ Hh).
  assert (entry r' t' key = entry r2 t' key) as -> by (eapply history_keeps; [|exact Hh]; by repeat constructor).
  rewrite (entry_later r2 t1 t') by done. unfold key. by rewrite Hdel.
Qed.

(** C6: the npc remembers the conversation.  When a chat request of a player with an npc
    has been counted ok and its ChatDone named a conversation, the next chat request of
    that player with that npc sends Dify that conversation and no other, whatever
    conversation its client names, as long as it ends within the TTL of the first one's
    start: across any environments, faults and clocks, and whatever else happens to the
    server that leaves this mapping alone. *)
Theorem conversation_continues h sess1 sess2 req1 req2 env1 env2 hist1 hist2 r0 t0 r1 t1 r2 t2 d :
  let key := conversationKey (PlayerID sess1) (TrimSpace (Chat_NpcId req1)) in
  let l1 := (HandleChat h true sess1 req1 env1 hist1).1 in
  let l2 := (HandleChat h true sess2 req2 env2 hist2).1 in
  PlayerID sess2 = PlayerID sess1 -> TrimSpace (Chat_NpcId req2) = TrimSpace (Chat_NpcId req1) ->
  history key r0 t0 l1 r1 t1 -> history key r1 t1 l2 r2 t2 ->
  t2 < t0 + ttl_ms (conversationTTL h) ->
  "ok" ∈ statuses l1 -> Server_Done d ∈ frames l1 -> CD_ConversationId d <> "" ->
  forall q s, (q, s) ∈ upstreams l2 -> ConversationID q = CD_ConversationId d.
Proof.
  intros key l1 l2 Hp Hn H1 H2 Ht Hok Hd Hc q s Hq.
  destruct (chat_leaves h sess1 req1 env1 hist1 _ _ _ _ d H1 Hok Hd Hc) as (e & He & E).
  assert (history (conversationKey (PlayerID sess2) (TrimSpace (Chat_NpcId req2))) r1 t1 l2 r2 t2)
    as H2' by (by rewrite Hp, Hn).
  destruct (chat_uses _ _ _ _ _ _ _ _ _ q s H2' Hq) as (t' & Ht' & Hx). rewrite Hp, Hn in Hx.
  rewrite (entry_later r1 t1 t'), E in Hx by lia.
  cbn in Hx. rewrite (proj2 (Z.ltb_lt t1 e)) in Hx by lia. cbn in Hx.
  rewrite (proj2 (Z.ltb_lt t' e)) in Hx by lia. by apply Hx.
Qed.

(** C29: a reset forgets what the gateway had stored.  When no other request of the player
    with the npc writes the mapping meanwhile ([history]; a chat still running when the reset
    comes may, [late_persist_undoes_reset]), the next chat after a reset answered with
    ChatDone sends Dify the conversation id its client names, and so none, which starts a
    fresh conversation, exactly when the client names none. *)
Theorem reset_forgets h sess1 sess2 req1 req2 env1 env2 hist1 hist2 r0 t0 r1 t1 r2 t2 :
  let key := conversationKey (PlayerID sess1) (TrimSpace (Reset_NpcId req1)) in
  let l1 := (HandleReset h true sess1 req1 env1 hist1).1 in
  let l2 := (HandleChat h true sess2 req2 env2 hist2).1 in
  PlayerID sess2 = PlayerID sess1 -> TrimSpace (Chat_NpcId req2) = TrimSpace (Reset_NpcId req1) ->
  history key r0 t0 l1 r1 t1 -> history key r1 t1 l2 r2 t2 ->
  done (Reset_RequestId req1) "" 0 ∈ frames l1 ->
  forall q s, (q, s) ∈ upstreams l2 -> ConversationID q = TrimSpace (Chat_ConversationId req2).
Proof.
  intros key l1 l2 Hp Hn H1 H2 Hd q s Hq.
  pose proof (reset_leaves h sess1 req1 env1 hist1 _ _ _ _ H1 Hd) as E.
  assert (history (conversationKey (PlayerID sess2) (TrimSpace (Chat_NpcId req2))) r1 t1 l2 r2 t2)
    as H2' by (by rewrite Hp, Hn).
  destruct (chat_uses _ _ _ _ _ _ _ _ _ q s H2' Hq) as (t' & Ht' & Hx). rewrite Hp, Hn in Hx.
  rewrite (entry_later r1 t1 t'), E in Hx by lia. exact Hx.
Qed.
End World.

(** ** Runs against a server *)

(** Replays a run's calls, fault-free and at one time; [None]: an answer was another. *)
Definition replay_event {R} `{Redis R} (t : Z) (r : R) (ev : event) : option R :=
  match ev with
  | @Ev X e x =>
      match e in eff X return X -> option R with
      | Store_Get p n => fun x =>
          let '(r', y) := GetConversation NoFault t p n r in if decide (y = x) then Some r' else None
      | Store_Set _ p n c ttl => fun x =>
          let '(r', y) := SetConversation NoFault t p n c ttl r in if decide (y = x) then Some r' else None
      | Store_Delete p n => fun x =>
          let '(r', y) := DeleteConversation NoFault t p n r in if decide (y = x) then Some r' else None
      | _ => fun _ => Some r
      end x
  end.

Fixpoint replay {R} `{Redis R} (t : Z) (r : R) (l : list event) : option R :=
  match l with
  | [] => Some r
  | ev :: l => match replay_event t r ev with Some r => replay t r l | None => None end
  end.

Lemma replay_history {R} `{Redis R} key t (r : R) l r' : replay t r l = Some r' -> history key r t l r' t.
Proof.
  revert r. induction l as [|[X e x] l IH]; intros r Hr; cbn [replay] in Hr.
  { injection Hr as ->. constructor. }
  destruct (replay_event t r (Ev e x)) as [r1|] eqn:E; [|done].
  apply history_event with r1; [|by apply IH].
  destruct e; cbn in E |- *; try (by injection E as ->);
    match type of E with (let '(_, _) := ?c in _) = _ => destruct c as [r2 y] eqn:Ec end;
    destruct (decide (y = x)) as [->|]; try done; injection E as <-; by exists NoFault.
Qed.

(** The demo's dependencies, the store holding a conversation. *)
Definition stored_environment (c : string) : environment := fun X hist e =>
  match e in eff X return X -> X with
  | Store_Get _ _ => fun _ => Ok c
  | _ => fun x => x
  end (demo_environment X hist e).

Definition open_handler : Handler :=
  {| has_auth := true; has_limiter := true; has_store := true; has_context := true; has_dify := true;
     moderator := AllowAll;
     conversationTTL := defaultConversationTTL; conversationLockTTL := defaultConversationLockTTL |}.

Definition demo_session : Session := mkSession "c" "r" 0 "player" true.
Definition demo_chat (id conv : string) : ChatRequest :=
  {| Chat_RequestId := id; Chat_ConversationId := conv; Chat_NpcId := " smith "; Chat_Query := "hello";
     Chat_Context := ∅ |}.
Definition demo_reset : ResetRequest := {| Reset_RequestId := "r2"; Reset_NpcId := "smith" |}.

Definition first_chat : list event :=
  (HandleChat open_handler true demo_session (demo_chat "r1" "") demo_environment []).1.
Definition second_chat : list event :=
  (HandleChat open_handler true demo_session (demo_chat "r2" "mine") (stored_environment "conv") []).1.
Definition after_reset : list event :=
  (HandleChat open_handler true demo_session (demo_chat "r3" "mine") demo_environment []).1.
Definition reset_run : list event :=
  (HandleReset open_handler true demo_session demo_reset demo_environment []).1.

Definition replayed (l : list event) (r : Keyspace.state) : Keyspace.state :=
  default ∅ (replay 0 r l).

(** The mapping of the reset is written again by a chat that was running when it came: the
    first chat up to its [Store_Set], the reset, the rest of the first chat, and then the
    second chat is sent the conversation the reset was to forget. *)
Fixpoint before_write (l : list event) : list event * list event :=
  match l with
  | ev :: l' => if writes_mapping ev then ([], l)
                else let '(a, b) := before_write l' in (ev :: a, b)
  | [] => ([], [])
  end.

Lemma late_persist_undoes_reset :
  let '(a, b) := before_write first_chat in
  first_chat = a ++ b /\
  is_Some (replay 0 (∅ : Keyspace.state) (a ++ reset_run ++ b ++ second_chat)) /\
  done "r2" "" 0 ∈ frames reset_run /\
  ConversationID <$> (upstreams second_chat).*1 = ["conv"].
Proof. vm_compute. split_and!; [done|by eexists|repeat (left || right)|done]. Qed.

Lemma conversation_continues_witness :
  exists q s, (q, s) ∈ upstreams second_chat /\ ConversationID q = "conv".
Proof.
  set (s1 := replayed first_chat ∅).
  assert (exists q s, (q, s) ∈ upstreams second_chat) as (q & s & Hq)
    by (eexists _, _; vm_compute; left).
  exists q, s. split; [exact Hq|].
  apply (conversation_continues open_handler demo_session demo_session (demo_chat "r1" "")
    (demo_chat "r2" "mine") demo_environment (stored_environment "conv") [] []
    ∅ 0 s1 0 (replayed second_chat s1) 0
    {| CD_RequestId := "r1"; CD_ConversationId := "conv"; CD_TotalTokens := 12 |}) with s.
  - reflexivity.
  - reflexivity.
  - apply replay_history. vm_compute. reflexivity.
  - apply replay_history. vm_compute. reflexivity.
  - vm_compute. reflexivity.
  - vm_compute. repeat (left || right).
  - vm_compute. repeat (left || right).
  - discriminate.
  - exact Hq.
Defined.

Lemma reset_forgets_witness :
  exists q s, (q, s) ∈ upstreams after_reset /\ ConversationID q = "mine".
Proof.
  set (s1 := replayed first_chat ∅). set (s2 := replayed reset_run s1).
  assert (exists q s, (q, s) ∈ upstreams after_reset) as (q & s & Hq)
    by (eexists _, _; vm_compute; left).
  exists q, s. split; [exact Hq|].
  apply (reset_forgets open_handler demo_session demo_session demo_reset (demo_chat "r3" "mine")
    demo_environment demo_environment [] [] s1 0 s2 0 (replayed after_reset s2) 0) with s.
  - reflexivity.
  - reflexivity.
  - apply replay_history. vm_compute. reflexivity.
  - apply replay_history. vm_compute. reflexivity.
  - vm_compute. left.
  - exact Hq.
Defined.
