(* ===== verification/TestClient.v ===== *)
(** * internal/testsupport: the client's side of the protocol

    The helpers that drive the whole access stack: the dependencies that admit and record
    nothing, and a client that authenticates, sends a chat and reads the turn it is
    answered with.  Composed with the handler and the codec they give the end-to-end
    property of the protocol: what the handler sends is what a client reads. *)

From Stdlib Require Import Strings.Byte.
From S2P Require Import Prelude GoNum GoStrings GoErr Proto Codec Auth Moderation Sse.
From S2P Require Import Pipeline PipelineTheory.

Definition handshakeTimeout : Z := 5 * Second.

(** ** Dependencies *)

(** [Auth.Verify]: the token is the player. *)
Definition noop_Verify (token : string) : res error string := Ok token.

(** [Limiter], [Store] and [Assembler] in place of an environment's. *)
Definition with_noops (Conversation : string) (env : environment) : environment := fun X hist e =>
  match e in eff X return X -> X with
  | Limiter_Allow _ _ => fun _ => (true, None)
  | Limiter_Record _ _ _ => fun _ => None
  | Limiter_RecordFailure _ => fun _ => None
  | Limiter_Release _ => fun _ => None
  | Store_Get _ _ => fun _ => Ok Conversation
  | Store_Set _ _ _ _ _ => fun _ => None
  | Store_Delete _ _ => fun _ => None
  | Store_Lock _ _ _ => fun _ => Ok 0%nat
  | Store_Unlock _ => fun _ => tt
  | Context_Build _ _ => fun _ => (∅, None)
  | _ => fun x => x
  end (env X hist e).

(** ** The client

    The protobuf library: an envelope whose body is unset or unknown is [None]. *)

Section Client.
Context (MarshalClient : ClientEnvelope -> res error (list byte)).
Context (Unmarshal : list byte -> res error (option ServerEnvelope)).
Context {W : Type} (Write : W -> list byte -> W * option error).

Definition auth_request (player : string) : ClientEnvelope :=
  Some (Client_Auth {| SessionToken := player; Auth_PlayerId := player |}).

(** [Authenticate] on a connection's two directions. *)
Definition Authenticate_client (player : string) (w : W) (r : reader) : W * reader * option error :=
  match WriteEnvelope MarshalClient Write w (auth_request player) with
  | (w, Some err) => (w, r, Some err)
  | (w, None) =>
      match ReadServerEnvelope Unmarshal r with
      | (r, Err err) => (w, r, Some err)
      | (r, Ok env) =>
          let '(ok, reason) := match env with
                               | Some (Server_AuthResult m) => (AR_Ok m, AR_Reason m)
                               | _ => (false, "")
                               end in
          (w, r, if (ok : bool) then None else Some (EText ("auth rejected: " +:+ reason)))
      end
  end.

Definition SendChat (reqID npc query : string) (w : W) : W * option error :=
  WriteEnvelope MarshalClient Write w
    (Some (Client_Chat {| Chat_RequestId := reqID; Chat_ConversationId := ""; Chat_NpcId := npc;
                          Chat_Query := query; Chat_Context := ∅ |})).

(** [ReadTurn] from its [k]-th frame on, [clock k] being what the clock says when that
    frame has been read; [None]: out of fuel. *)
Fixpoint ReadTurn (clock : nat -> Z) (start : Z) (fuel k : nat) (firstToken : Z) (sawToken : bool)
    (r : reader) : option (reader * (bool * Z * bool)) :=
  match fuel with
  | O => None
  | S fuel =>
      match ReadServerEnvelope Unmarshal r with
      | (r, Err _) => Some (r, (false, 0, sawToken))
      | (r, Ok env) =>
          match env with
          | Some (Server_Chunk _) =>
              if negb sawToken
              then ReadTurn clock start fuel (S k) (time_sub (clock k) start) true r
              else ReadTurn clock start fuel (S k) firstToken sawToken r
          | Some (Server_Done _) | Some (Server_Blocked _) => Some (r, (true, firstToken, sawToken))
          | Some (Server_Error _) => Some (r, (false, firstToken, sawToken))
          | _ => ReadTurn clock start fuel (S k) firstToken sawToken r
          end
      end
  end.
End Client.

(** ** A turn over the wire *)

(** What the protobuf library promises: an envelope that marshals is read back. *)
Class ProtoLaws (Marshal : ServerEnvelope -> res error (list byte))
    (Unmarshal : list byte -> res error (option ServerEnvelope)) : Prop := {
  proto_roundtrip m b : Marshal m = Ok b -> Unmarshal b = Ok (Some m)
}.

Section Wire.
Context (Marshal : ServerEnvelope -> res error (list byte)).
Context (Unmarshal : list byte -> res error (option ServerEnvelope)) `{!ProtoLaws Marshal Unmarshal}.

(** The frames [ConnWriter.Send] puts on the connection, one after the other. *)
Definition written (fs : list ServerEnvelope) : list byte :=
  foldl (fun w f => (WriteEnvelope Marshal append_writer w f).1) [] fs.

(** An envelope that [Send] does not refuse. *)
Definition sendable (f : ServerEnvelope) : Prop :=
  exists b, Marshal f = Ok b /\ Z.of_nat (length b) <= MaxFrameSize.

Lemma written_app_acc w fs : Forall sendable fs ->
  foldl (fun w f => (WriteEnvelope Marshal append_writer w f).1) w fs = w ++ written fs.
Proof.
  intros Hs. unfold written. revert w. induction Hs as [|f fs (b & Hm & Hb) _ IH]; intros w; cbn [foldl].
  { by rewrite app_nil_r. }
  rewrite IH. symmetry. rewrite IH. unfold WriteEnvelope. rewrite Hm. unfold WriteFrame, append_writer.
  rewrite (proj2 (Z.ltb_ge _ _)) by done. cbn [fst]. by rewrite app_assoc.
Qed.

Lemma written_cons f fs b : Marshal f = Ok b -> Z.of_nat (length b) <= MaxFrameSize ->
  Forall sendable fs -> written (f :: fs) = frame b ++ written fs.
Proof.
  intros Hm Hb Hs. unfold written at 1. cbn [foldl]. rewrite written_app_acc by done.
  unfold WriteEnvelope, WriteFrame, append_writer. rewrite Hm.
  by rewrite (proj2 (Z.ltb_ge _ _)) by done.
Qed.

(** The client reads the envelope that was sent. *)
Lemma read_written f fs rest r : sendable f -> Forall sendable fs ->
  flat r = written (f :: fs) ++ rest ->
  exists r', ReadServerEnvelope Unmarshal r = (r', Ok (Some f)) /\ flat r' = written fs ++ rest.
Proof.
  intros (b & Hm & Hb) Hs Hr. rewrite (written_cons f fs b), <- app_assoc in Hr by done.
  destruct (ReadFrame_flat r) as (r' & _ & Hf & Hr'). exists r'.
  rewrite Hr, Spec_read_frame in Hf, Hr' by done. cbn in Hf, Hr'.
  unfold ReadServerEnvelope, ReadEnvelope. rewrite Hf. by rewrite (proto_roundtrip f b).
Qed.

(** What a terminal frame tells [ReadTurn]. *)
Definition turn_ok (f : ServerEnvelope) : bool :=
  match f with Server_Done _ | Server_Blocked _ => true | _ => false end.

Lemma ReadTurn_reads clock start reqID ds t after rest : Forall sendable ((chunk reqID <$> ds) ++ t :: after) ->
  terminal t = true -> forall fuel k first saw r,
  (length ds < fuel)%nat -> flat r = written ((chunk reqID <$> ds) ++ t :: after) ++ rest ->
  exists r', flat r' = written after ++ rest /\
    ReadTurn Unmarshal clock start fuel k first saw r =
      Some (r', (turn_ok t,
                 if negb saw && negb (bool_decide (ds = [])) then time_sub (clock k) start else first,
                 saw || negb (bool_decide (ds = [])))).
Proof.
  intros Hs Ht. induction ds as [|d ds IH]; intros fuel k first saw r Hf Hr; destruct fuel as [|fuel];
    cbn [length] in Hf; try lia; cbn [fmap list_fmap app ReadTurn] in *.
  - apply Forall_cons in Hs as [H1 H2].
    destruct (read_written t after rest r H1 H2 Hr) as (r' & -> & Hr'). exists r'. split; [done|].
    rewrite andb_false_r, orb_false_r. by destruct t.
  - apply Forall_cons in Hs as [H1 H2].
    destruct (read_written _ _ rest r H1 H2 Hr) as (r1 & -> & Hr1). unfold chunk at 1.
    destruct saw; cbn [negb andb orb bool_decide].
    + destruct (IH H2 fuel (S k) first true r1) as (r' & Hr' & ->); [lia|done|]. by exists r'.
    + destruct (IH H2 fuel (S k) (time_sub (clock k) start) true r1) as (r' & Hr' & ->); [lia|done|].
      by exists r'.
Qed.

(** Every frame read takes at least its prefix off the connection. *)
Lemma Spec_read_consumes l e rest p : Spec.read l e = (rest, Ok p) -> (length rest < length l)%nat.
Proof.
  unfold Spec.read. destruct (Nat.ltb_spec (length l) 4); [done|].
  case_goal; [done|]. case_goal; [done|]. intros [= <- _]. rewrite !length_drop. lia.
Qed.

Lemma ReadTurn_terminates clock start fuel k first saw r : (length (flat r) < fuel)%nat ->
  is_Some (ReadTurn Unmarshal clock start fuel k first saw r).
Proof.
  revert k first saw r. induction fuel as [|fuel IH]; intros k first saw r Hf; [lia|]. cbn [ReadTurn].
  unfold ReadServerEnvelope, ReadEnvelope.
  destruct (ReadFrame_flat r) as (r' & _ & -> & Hr').
  destruct (Spec.read (flat r) (fin r)) as [rest [p|e]] eqn:E; cbn [fst snd] in *; [|done].
  apply Spec_read_consumes in E. rewrite <- Hr' in E.
  destruct (Unmarshal p) as [[[]|]|]; try done; try (apply IH; lia). destruct saw; apply IH; lia.
Qed.

(** C24: the turn a client sees.  On a connection on which every frame can be sent, whatever
    the environment does and however the bytes are cut into reads, the client that reads
    the turn of a chat request returns after its first terminal frame, with what was
    written behind it left unread; it reports success exactly for a ChatDone or a
    ChatBlocked, and a first token exactly when the handler forwarded some text.  On any
    bytes whatever it returns. *)
Theorem turn_reaches_client h sess req env hist clock start r rest :
  let fs := frames (HandleChat h true sess req env hist).1 in
  Forall sendable fs -> flat r = written fs ++ rest ->
  (exists ds t after r' fuel,
    fs = (chunk (Chat_RequestId req) <$> ds) ++ t :: after /\
    Forall (fun d => d <> "") ds /\ ends (Chat_RequestId req) t /\ (length after <= 1)%nat /\
    ReadTurn Unmarshal clock start fuel 0 0 false r =
      Some (r', (turn_ok t, if bool_decide (ds = []) then 0 else time_sub (clock 0%nat) start,
                 negb (bool_decide (ds = [])))) /\
    flat r' = written after ++ rest) /\
  forall r', is_Some (ReadTurn Unmarshal clock start (S (length (flat r'))) 0 0 false r').
Proof.
  intros fs Hs Hr. split; [|intros r'; apply ReadTurn_terminates; lia].
  destruct (chat_turn h sess req env hist) as (ds & tail & E & Hds & He & _ & Htail). fold fs in E.
  assert (exists t after, tail = t :: after /\ (length after <= 1)%nat) as (t & after & -> & Hl).
  { destruct Htail as [[t ->]|(fb & t & -> & _)]; eexists _, _; (split; [done|]); cbn; lia. }
  apply Forall_cons in He as [Ht _]. rewrite E in Hs, Hr.
  destruct (ReadTurn_reads clock start _ ds t after rest Hs (proj1 Ht) (S (length ds)) 0 0 false r)
    as (r' & Hr' & Hread); [lia|done|].
  exists ds, t, after, r', (S (length ds)). split_and!; try done. rewrite Hread.
  by destruct (bool_decide (ds = [])).
Qed.
End Wire.

(** ** A turn

    The handler with the no-op dependencies and a reply in four deltas; a codec that
    numbers the frames of that run. *)

Definition noop_handler : Handler :=
  {| has_auth := true; has_limiter := true; has_store := true; has_context := true; has_dify := true;
     moderator := AllowAll;
     conversationTTL := defaultConversationTTL; conversationLockTTL := defaultConversationLockTTL |}.
Definition noop_session : Session := mkSession "c" "r" 0 "player" true.
Definition noop_chat : ChatRequest :=
  {| Chat_RequestId := "r1"; Chat_ConversationId := ""; Chat_NpcId := "smith"; Chat_Query := "hello";
     Chat_Context := ∅ |}.
Definition noop_frames : list ServerEnvelope := Eval vm_compute in
  frames (HandleChat noop_handler true noop_session noop_chat (with_noops "conv" demo_environment) []).1.

Lemma noop_frames_run :
  frames (HandleChat noop_handler true noop_session noop_chat (with_noops "conv" demo_environment) []).1 =
  noop_frames.
Proof. vm_compute. reflexivity. Qed.

Definition table_marshal (m : ServerEnvelope) : res error (list byte) :=
  match list_find (eq m) noop_frames with
  | Some (i, _) => Ok [byte_of_Z (Z.of_nat i)]
  | None => Err (EText "not in the table")
  end.
Definition table_unmarshal (l : list byte) : res error (option ServerEnvelope) :=
  match l with
  | [b] => Ok (noop_frames !! Z.to_nat (byte_to_Z b))
  | _ => Err (EText "malformed")
  end.

#[export] Instance table_laws : ProtoLaws table_marshal table_unmarshal.
Proof.
  split. intros m b. unfold table_marshal.
  destruct (list_find (eq m) noop_frames) as [[i m']|] eqn:E; [|done]. intros [= <-].
  apply list_find_Some in E as (Hl & -> & _). unfold table_unmarshal.
  assert (i < 256)%nat as Hi
    by (apply lookup_lt_Some in Hl; eapply Nat.lt_le_trans; [exact Hl|vm_compute; lia]).
  rewrite byte_to_of_Z, Z.mod_small, Nat2Z.id by lia. by rewrite Hl.
Qed.

Definition noop_wire : list byte := written table_marshal noop_frames.

Lemma turn_reaches_client_witness :
  exists r' fuel first,
    ReadTurn table_unmarshal (fun k => 100 + Z.of_nat k) 40 fuel 0 0 false
      {| pending := chop 3 noop_wire; fin := ESentinel IoEOF |} = Some (r', (true, first, true)).
Proof.
  pose proof (turn_reaches_client table_marshal table_unmarshal noop_handler noop_session noop_chat
    (with_noops "conv" demo_environment) [] (fun k => 100 + Z.of_nat k) 40
    {| pending := chop 3 noop_wire; fin := ESentinel IoEOF |} []) as Hturn.
  cbv zeta in Hturn. rewrite noop_frames_run in Hturn. destruct Hturn as [Hturn _].
  - unfold sendable. repeat (constructor; [eexists; split; [reflexivity|discriminate]|]). constructor.
  - vm_compute. reflexivity.
  - destruct Hturn as (ds & t & after & r' & fuel & E & _ & [Ht _] & _ & Hread & _).
    assert (forallb (fun f => negb (terminal f) || turn_ok f) noop_frames = true) as Hok by reflexivity.
    rewrite forallb_forall in Hok.
    assert (turn_ok t = true) as Htok.
    { specialize (Hok t). rewrite Ht in Hok. apply Hok, list_elem_of_In.
      rewrite E. apply elem_of_app. right. left. }
    rewrite Htok in Hread. destruct ds as [|d ds]; [|by eexists _, _, _].
    exfalso. assert (terminal <$> head noop_frames = Some false) as Hhead by reflexivity.
    rewrite E in Hhead. cbn in Hhead. congruence.
Defined.
