(* ===== verification/AcceptLoop.v ===== *)
(** * internal/listener: the server and its connections

    The accept loop of [ListenAndServe], the connection ids, how a read loop's exit is
    logged, and the process: connections being accepted, their goroutines opening them
    ([ServeConn]'s first lines), living ([Listener.on_input]) and, once their registry's
    [Wait] returns, gone.  [ActiveConnections] is the telemetry gauge. *)

From stdpp Require Import pretty.
From S2P Require Import Prelude GoNum GoStrings GoErr Auth Mux Pipeline Listener.

(** ** The server *)

Record Server := { idleTimeout : Z; connSeq : Z }.

Definition New : Server := {| idleTimeout := DefaultIdleTimeout; connSeq := 0 |}.

Definition SetIdleTimeout (d : Z) (s : Server) : Server := {| idleTimeout := d; connSeq := connSeq s |}.

Definition conn_id (n : Z) : string := "conn-" +:+ format_int n.

Definition nextConnID (s : Server) : Server * string :=
  let n := wrap_uint64 (connSeq s + 1) in
  ({| idleTimeout := idleTimeout s; connSeq := n |}, conn_id n).

(** ** Accepting *)

(** What [Accept] returns: a connection, or an error, which is a [net.Error] with
    [Timeout()] or not, with the context ended by then or not. *)
Inductive accept_result :=
| Accepted (remote : string)
| AcceptError (err : error) (timeout ctx_done : bool).

(** One turn of the loop: a connection to serve, another turn, or the loop's result. *)
Inductive turn_of_loop := Serve (remote : string) | Continue | Return (err : option error).

Definition on_accept (a : accept_result) : turn_of_loop :=
  match a with
  | Accepted remote => Serve remote
  | AcceptError err timeout ctx_done =>
      if (ctx_done : bool) then Return None
      else if (timeout : bool) then Continue
      else Return (Some err)
  end.

(** The connections the loop hands to goroutines, and its result, if it has one yet. *)
Fixpoint accept_loop (accepts : list accept_result) : list string * option (option error) :=
  match accepts with
  | [] => ([], None)
  | a :: accepts =>
      match on_accept a with
      | Serve remote => let '(rs, res) := accept_loop accepts in (remote :: rs, res)
      | Continue => accept_loop accepts
      | Return err => ([], Some err)
      end
  end.

(** [listen]: the error of [lc.Listen]. *)
Definition ListenAndServe (listen : option error) (accepts : list accept_result) :
    list string * option (option error) :=
  match listen with
  | Some err => ([], Some (Some err))
  | None => accept_loop accepts
  end.

(** [logReadExit]: the level and the message; [net_timeout]: a [net.Error] with [Timeout()]
    is in the chain. *)
Definition logReadExit (err : error) (net_timeout : bool) : string * string :=
  if errors_is err IoEOF then ("INFO", "connection EOF")
  else if errors_is err IoErrUnexpectedEOF then ("INFO", "connection truncated")
  else if net_timeout then ("INFO", "connection idle timeout")
  else ("WARN", "connection read error").

(** ** The process *)

(** [result]: what the accept loop has returned; [accepted]: connections whose goroutine
    has not started; [conns]: those being served; [opened]: every id given, in order. *)
Record process := {
  srv : Server;
  result : option (option error);
  accepted : list string;
  conns : list (string * conn);
  opened : list string;
  ActiveConnections : Z
}.

Section Process.
Context (h : Handler) (verify : string -> res error string).

Definition start : process :=
  {| srv := New; result := None; accepted := []; conns := []; opened := []; ActiveConnections := 0 |}.

Definition do_accept (a : accept_result) (p : process) : process :=
  match on_accept a with
  | Serve remote =>
      {| srv := srv p; result := result p; accepted := accepted p ++ [remote]; conns := conns p;
         opened := opened p; ActiveConnections := ActiveConnections p |}
  | Continue => p
  | Return err =>
      {| srv := srv p; result := Some err; accepted := accepted p; conns := conns p;
         opened := opened p; ActiveConnections := ActiveConnections p |}
  end.

(** The first lines of [ServeConn]. *)
Definition do_open (k : nat) (remote : string) (now : Z) (p : process) : process :=
  let '(s, connID) := nextConnID (srv p) in
  {| srv := s; result := result p; accepted := delete k (accepted p);
     conns := conns p ++ [(connID, Listener.open connID remote now)];
     opened := opened p ++ [connID]; ActiveConnections := ActiveConnections p + 1 |}.

Definition do_conn (k : nat) (x : input) (id : string) (c : conn) (p : process) : process :=
  {| srv := srv p; result := result p; accepted := accepted p;
     conns := <[k := (id, (on_input h verify x c).1)]> (conns p);
     opened := opened p; ActiveConnections := ActiveConnections p |}.

(** The end of [ServeConn]'s deferred function, after [Wait]. *)
Definition do_close (k : nat) (p : process) : process :=
  {| srv := srv p; result := result p; accepted := accepted p; conns := delete k (conns p);
     opened := opened p; ActiveConnections := ActiveConnections p - 1 |}.

Inductive step (p : process) : process -> Prop :=
| step_accept a : result p = None -> step p (do_accept a p)
| step_open k remote now : accepted p !! k = Some remote -> step p (do_open k remote now p)
| step_conn k x id c : conns p !! k = Some (id, c) -> step p (do_conn k x id c p)
| step_close k id c : conns p !! k = Some (id, c) -> closed c = true ->
    Registry.wait_returns (registry c) -> step p (do_close k p).

(** ** Lemmas *)

Record process_inv (p : process) : Prop := {
  pi_gauge : ActiveConnections p = Z.of_nat (length (conns p));
  pi_seq : connSeq (srv p) = wrap_uint64 (Z.of_nat (length (opened p)));
  pi_opened k id : opened p !! k = Some id -> id = conn_id (wrap_uint64 (Z.of_nat k + 1));
  pi_conns : (conns p).*1 ⊆+ opened p;
  pi_tracks id c : (id, c) ∈ conns p -> tracks c
}.

Lemma step_inv p p' : step p p' -> process_inv p -> process_inv p'.
Proof.
  intros Hs [H1 H2 H3 H4 H5].
  destruct Hs as [a _|k remote now _|k x id c Hk|k id c Hk _ _].
  - unfold do_accept. by destruct (on_accept a).
  - unfold do_open, nextConnID. split; cbn.
    + rewrite length_app. cbn. lia.
    + rewrite length_app. cbn. rewrite H2. unfold wrap_uint64.
      rewrite Zplus_mod_idemp_l. f_equal. lia.
    + intros j id. rewrite lookup_app_Some. intros [Hj|[Hj Hl]]; [by apply H3|].
      apply list_lookup_singleton_Some in Hl as [Hj' <-]. f_equal. rewrite H2.
      unfold wrap_uint64. rewrite Zplus_mod_idemp_l. f_equal. lia.
    + rewrite fmap_app. by apply submseteq_app.
    + intros id c. rewrite elem_of_app, list_elem_of_singleton.
      intros [Hin|[= -> ->]]; [by eapply H5|apply tracks_open].
  - unfold do_conn. split; cbn; try done.
    + by rewrite length_insert.
    + rewrite list_fmap_insert. cbn. rewrite list_insert_id; [done|]. by rewrite list_lookup_fmap, Hk.
    + intros id' c' [j Hj]%list_elem_of_lookup_1. apply list_lookup_insert_Some in Hj.
      destruct Hj as [(-> & [= <- <-] & _)|[_ Hj]].
      * apply tracks_input, (H5 id). by eapply list_elem_of_lookup_2.
      * eapply H5. by eapply list_elem_of_lookup_2.
  - pose proof (delete_Permutation _ _ _ Hk) as Hp. unfold do_close. split; cbn; try done;
      revert Hp; generalize (delete k (conns p)); intros l Hp.
    + rewrite H1, (Permutation_length Hp). cbn. lia.
    + etrans; [|exact H4]. rewrite (fmap_Permutation fst _ _ Hp). cbn. by apply submseteq_cons.
    + intros id' c' Hin. apply (H5 id'). rewrite Hp. by right.
Qed.

Lemma process_reachable p : rtc step start p -> process_inv p.
Proof.
  apply (rtc_ind_r process_inv); [|by intros; eapply step_inv].
  split; cbn; try done. intros id c Hin. by apply elem_of_nil in Hin.
Qed.

Lemma conn_id_inj n m : conn_id n = conn_id m -> n = m.
Proof.
  unfold conn_id. intros E. apply (f_equal bytes) in E. rewrite !bytes_app in E.
  apply app_inv_head, bytes_inj in E. by apply (inj pretty).
Qed.

(** The connections of the process.  In every reachable state the gauge counts the
    connections being served; the ids given are pairwise different up to 2^64 of them,
    and no two connections being served share one; every connection's registry holds
    exactly the goroutines it has not seen return. *)
Lemma process_connections p :
  rtc step start p ->
  ActiveConnections p = Z.of_nat (length (conns p)) /\
  (Z.of_nat (length (opened p)) <= 2 ^ 64 -> NoDup (opened p) /\ NoDup (conns p).*1) /\
  (forall id c, (id, c) ∈ conns p ->
     forall rid i, Registry.inflight (registry c) !! rid = Some i <-> (i, rid) ∈ goroutines c).
Proof.
  intros [H1 _ H3 H4 H5]%process_reachable. split_and!; [done| |].
  - intros Hlen. assert (NoDup (opened p)) as Hn.
    { apply NoDup_alt. intros i j id Hi Hj. pose proof (lookup_lt_Some _ _ _ Hi).
      pose proof (lookup_lt_Some _ _ _ Hj). apply H3 in Hi, Hj. rewrite Hi in Hj.
      apply conn_id_inj in Hj. unfold wrap_uint64 in Hj.
      revert Hj. Z.to_euclidean_division_equations. lia. }
    split; [done|]. apply submseteq_Permutation in H4 as [k Hk]. rewrite Hk in Hn.
    by apply NoDup_app in Hn as [? _].
  - intros id c Hin. exact (tr_inflight _ _ _ (H5 id c Hin)).
Qed.
End Process.

(** The loop's connections are those accepted before the event that ends it; it returns nil
    exactly when that event finds the context ended. *)
Lemma accept_loop_result accepts :
  (exists rs, accept_loop accepts = (rs, None) /\
     Forall (fun a => forall err, on_accept a <> Return err) accepts) \/
  exists before err timeout ctx_done after,
    accepts = before ++ AcceptError err timeout ctx_done :: after /\
    Forall (fun a => forall e, on_accept a <> Return e) before /\
    (accept_loop accepts).1 = omap (fun a => match a with Accepted r => Some r | _ => None end) before /\
    (accept_loop accepts).2 = Some (if (ctx_done : bool) then None else Some err).
Proof.
  induction accepts as [|a accepts IH]; [left; by eexists|]. cbn [accept_loop].
  destruct a as [remote|err timeout [|]].
  - cbn [on_accept]. destruct IH as [(rs & -> & Hf)|(b & e & t & c & af & -> & Hb & H1 & H2)].
    + left. eexists. split; [done|]. by constructor.
    + right. exists (Accepted remote :: b), e, t, c, af. destruct (accept_loop _) as [rs res]. cbn in *.
      split_and!; [done|by constructor|by rewrite H1|done].
  - right. exists [], err, timeout, true, accepts. split_and!; by try constructor.
  - destruct timeout; cbn [on_accept].
    + destruct IH as [(rs & -> & Hf)|(b & e & t & c & af & -> & Hb & H1 & H2)].
      * left. eexists. split; [done|]. by constructor.
      * right. exists (AcceptError err true false :: b), e, t, c, af. split_and!; [done|by constructor|done|done].
    + right. exists [], err, false, false, accepts. split_and!; by try constructor.
Qed.
