(* ===== verification/Admission.v ===== *)
(** * The limiter's slots and the handler's upstream calls

    The composition of [Limiter] and [Pipeline].  First, [Slots] is what the limiter's
    methods do: every [Allow], [Record], [RecordFailure] and [Release] is a sequence of
    steps of that system ([methods_refine_slots]).  Then the requests: any number of runs of
    the chat handler, in any processes, whose effects interleave with each other and with
    admissions that fail; a granted [Allow] takes a slot, a settlement gives it back. *)

From S2P Require Import Prelude GoNum GoStrings GoErr Proto Auth Circuit Moderation Sse Redis.
From S2P Require Import Pipeline PipelineTheory.
From S2P Require Limiter.
Import Limiter(RedisLimiter, call_env, net, clock, server_time, inflightKey, allow_env, record_env,
  budget_call, acquire_call, rate_call, undo_call, release_call, tokens_call).
Import Limiter.Slots.

(** ** The limiter's methods as steps of the slots *)

Section Methods.
Context {R : Type} `{RedisLaws R} (max ttl : Z).
Implicit Types s : sys (R := R).

Abbreviation steps := (rtc (step max ttl)).

Definition set_srv (r : R) s : sys :=
  {| srv := r; now := now s; tokens := tokens s; holders := holders s |}.

Lemma srv_set_srv s : set_srv (srv s) s = s.
Proof. by destruct s. Qed.

(** Commands on other keys. *)
Definition elsewhere {A} (m : script R A) : Prop :=
  forall s, steps s (set_srv (m (now s) (srv s)).1 s).

Lemma elsewhere_ret {A} (a : A) : elsewhere (script_ret a).
Proof. intros s. cbn. rewrite srv_set_srv. constructor. Qed.

Lemma elsewhere_call c : key_of c <> inflightKey -> elsewhere (script_call c).
Proof. intros Hc s. apply rtc_once. by apply step_other. Qed.

Lemma elsewhere_bind {A B} (m : script R A) (k : A -> script R B) :
  elsewhere m -> (forall a, elsewhere (k a)) -> elsewhere (script_bind m k).
Proof.
  intros Hm Hk s. unfold script_bind. specialize (Hm s).
  destruct (m (now s) (srv s)) as [r1 [a|e]]; [|done]. cbn [fst] in Hm.
  etrans; [exact Hm|]. apply (Hk a (set_srv r1 s)).
Qed.

Lemma elsewhere_run {A} (m : script R A) f s :
  elsewhere m -> steps s (set_srv (run m f (now s) (srv s)).1 s).
Proof. intros Hm. destruct f; cbn [run fst]; [apply Hm|rewrite srv_set_srv; constructor|apply Hm]. Qed.

Ltac elsewhere := repeat first
  [ apply elsewhere_bind; [|intros ?] | apply elsewhere_ret | apply elsewhere_call; done
  | case_match ].

Lemma checkBudget_steps c p est l s : server_time c = now s ->
  steps s (set_srv (Limiter.checkBudget c p est (srv s) l).1 s).
Proof.
  intros Hc. unfold Limiter.checkBudget, Limiter.currentBudget, Limiter.run_call. rewrite Hc.
  assert (elsewhere (script_call (R := R) (GET (Limiter.budgetKey p (clock c))))) as Hm
    by (by apply elsewhere_call).
  pose proof (elsewhere_run _ (net c) s Hm) as Hs.
  destruct (run _ _ _ _) as [r [[]|]]; cbn [fst] in *; repeat case_match; by simplify_eq/=.
Qed.

Lemma allowRate_steps c p l s : server_time c = now s ->
  steps s (set_srv (Limiter.allowRate c p (srv s) l).1.1 s).
Proof.
  intros Hc. unfold Limiter.allowRate, Limiter.run_call. rewrite Hc.
  match goal with |- context [run ?m _ _ _] => assert (elsewhere m) as Hm end.
  { unfold Limiter.rateLimitScript. elsewhere. }
  pose proof (elsewhere_run _ (net c) s Hm) as Hs.
  by destruct (run _ _ _ _) as [r [x|e]]; cbn [fst] in *.
Qed.

Lemma recordTokens_steps c t p n s : server_time c = now s ->
  steps s (set_srv (Limiter.recordTokens c t p n (srv s)).1 s).
Proof.
  intros Hc. unfold Limiter.recordTokens, Limiter.run_call. rewrite Hc.
  case_match; [cbn; rewrite srv_set_srv; constructor|].
  match goal with |- context [run ?m _ _ _] => assert (elsewhere m) as Hm end.
  { unfold Limiter.recordBudgetScript. elsewhere. }
  pose proof (elsewhere_run _ (net c) s Hm) as Hs.
  by destruct (run _ _ _ _) as [r [x|e]]; cbn [fst] in *.
Qed.

(** A release for a holder. *)
Lemma release_steps c l tok e s : on_time c s -> holders s !! tok = Some e ->
  steps s (do_release c l tok s).
Proof. intros Hc Hh. apply rtc_once. by eapply step_release. Qed.

Lemma releaseInflight_config c r l : configured max ttl l ->
  configured max ttl (Limiter.releaseInflight c r l).1.2.
Proof.
  intros Hl. unfold Limiter.releaseInflight. by destruct (Limiter.run_call _ _ _) as [r' [n|e]].
Qed.

(** The calls of an [Allow] and of a settlement, made at the system's time. *)
Definition allow_on_time (e : allow_env) s : Prop :=
  on_time (budget_call e) s /\ on_time (acquire_call e) s /\ on_time (rate_call e) s /\
  on_time (undo_call e) s.
Definition record_on_time (e : record_env) s : Prop :=
  on_time (release_call e) s /\ on_time (tokens_call e) s.

(** The slots after a method that took a slot under [tok], or none. *)
Definition took (tok : string) (ok : bool) s s' : Prop :=
  now s' = now s /\
  holders s' = if ok then <[tok := now s + Limiter.at_least_1ms ttl]> (holders s) else holders s.
Definition gave (tok : string) s s' : Prop :=
  now s' = now s /\ holders s' = delete tok (holders s).

Lemma Allow_steps e p est l s :
  allow_on_time e s -> configured max ttl l ->
  token_of l (now s) ∉ tokens s -> holders s !! token_of l (now s) = None ->
  let '(r', l', (ok, err)) := Limiter.Allow e p est (srv s) l in
  (ok = true -> err = None /\ TrimSpace p <> "") /\ configured max ttl l' /\
  exists s', steps s s' /\ srv s' = r' /\ took (token_of l (now s)) ok s s'.
Proof.
  intros (Hb & Ha & Hr & Hu) Hl Hf Hn. unfold Limiter.Allow.
  assert (exists s', steps s s' /\ srv s' = srv s /\ took (token_of l (now s)) false s s') as Hsame
    by (exists s; split; [constructor|done]).
  case_bool_decide as Hp; [by split_and!|].
  destruct (est <? 0); [by split_and!|]. destruct (negb (Circuit.ready _ _)); [by split_and!|].
  pose proof (checkBudget_steps (budget_call e) (TrimSpace p) est l s (proj2 Hb)) as H1.
  destruct (Limiter.checkBudget _ _ _ _ _) as [r1 [err|]]; cbn [fst] in H1.
  { destruct (errors_is _ _); (split; [done|split; [done|]]); eexists; (split; [exact H1|done]). }
  destruct (Circuit.allow _ _ _) as [c ok]. cbn [negb].
  destruct ok; cbn [negb].
  2: { split; [done|]. split; [done|]. eexists; split; [exact H1|done]. }
  set (l1 := Limiter.set_circuit c l). set (s1 := set_srv r1 s) in *.
  assert (steps s1 (do_acquire ttl (acquire_call e) l1 s1).1) as H2.
  { apply rtc_once, step_acquire; [exact Ha|exact Hl|exact Hf]. }
  revert H2. unfold do_acquire. change (srv s1) with r1. change (now s1) with (now s).
  change (token_of l1 (now s)) with (token_of l (now s)).
  assert (configured max ttl (Limiter.acquireInflight (acquire_call e) r1 l1).1.2) as Hc2.
  { unfold Limiter.acquireInflight. destruct (Limiter.run_call _ _ _) as [r' [n|x]]; [|done]. by case_match. }
  destruct (Limiter.acquireInflight _ r1 l1) as [[r2 l2] [err|]]; cbn [fst snd] in *; intros H2.
  { split; [done|]. split; [by destruct (errors_is err _)|].
    eexists. split; [etrans; [exact H1|exact H2]|]. done. }
  set (s2 := {| srv := r2; now := now s; tokens := _; holders := _ |}) in H2.
  pose proof (allowRate_steps (rate_call e) (TrimSpace p) l2 s2 (proj2 Hr)) as H3.
  change (srv s2) with r2 in H3.
  assert (configured max ttl (Limiter.allowRate (rate_call e) (TrimSpace p) r2 l2).1.2) as Hc3.
  { unfold Limiter.allowRate. by destruct (Limiter.run_call _ _ _) as [r' [n|x]]. }
  destruct (Limiter.allowRate _ _ r2 l2) as [[r3 l3] [err|]]; cbn [fst snd] in *.
  2: { split; [done|]. split; [done|]. eexists. split; [etrans; [exact H1|etrans; [exact H2|exact H3]]|]. done. }
  set (s3 := set_srv r3 s2) in H3.
  assert (holders s3 !! token_of l (now s) = Some (now s + Limiter.at_least_1ms ttl)) as Hh3
    by apply lookup_insert_eq.
  pose proof (release_steps (undo_call e) l3 _ _ s3 Hu Hh3) as H4. unfold do_release in H4.
  change (srv s3) with r3 in H4.
  pose proof (releaseInflight_config (undo_call e) r3 l3 Hc3) as Hc4.
  destruct (Limiter.releaseInflight _ r3 l3) as [[r4 l4] x]; cbn [fst snd] in *.
  split; [done|]. split; [by destruct (errors_is err _)|].
  eexists. split; [etrans; [exact H1|etrans; [exact H2|etrans; [exact H3|exact H4]]]|].
  split; [done|]. split; [done|]. cbn. by rewrite delete_insert_id.
Qed.

Lemma set_srv_gave tok s s' r : gave tok s s' -> gave tok s (set_srv r s').
Proof. done. Qed.

Lemma Record_steps e p n l s tok x :
  record_on_time e s -> TrimSpace p <> "" -> holders s !! tok = Some x ->
  exists s', steps s s' /\ srv s' = (Limiter.Record_ e p n (srv s) l).1.1 /\ gave tok s s'.
Proof.
  intros [Hr Ht] Hp Hh. unfold Limiter.Record_. rewrite bool_decide_eq_false_2 by done.
  pose proof (release_steps (release_call e) l tok x s Hr Hh) as K1. unfold do_release in K1.
  destruct (Limiter.releaseInflight _ _ _) as [[r1 l1] y]; cbn [fst snd] in *.
  set (s1 := {| srv := r1; now := now s; tokens := _; holders := _ |}) in K1.
  case_match; cbn [fst].
  - exists s1. by split.
  - pose proof (recordTokens_steps (tokens_call e) (Limiter.ttl_clock e) (TrimSpace p) n s1 (proj2 Ht)) as K2.
    change (srv s1) with r1 in K2.
    destruct (Limiter.recordTokens _ _ _ _ _) as [r2 z]; cbn [fst] in *.
    eexists. split; [etrans; [exact K1|exact K2]|]. done.
Qed.

Lemma settle_steps e l s tok x :
  record_on_time e s -> holders s !! tok = Some x ->
  exists s', steps s s' /\ srv s' = (Limiter.releaseInflight (release_call e) (srv s) l).1.1 /\ gave tok s s'.
Proof.
  intros [Hr _] Hh. exists (do_release (release_call e) l tok s).
  split; [by eapply release_steps|done].
Qed.

(** C10: the slots are what the limiter's methods do.  From any reachable state of the
    processes sharing Redis, each method called at the system's time moves it by steps of
    the slots: an [Allow] that answers true has taken a slot under its own fresh token (and
    its player is not blank), one that answers false has taken none; a [Record], a
    [RecordFailure] and a [Release] each give back one; whatever faults their calls meet,
    nothing else about the holders changes, so the bound proved of the slots holds of
    whatever the methods do. *)
Theorem methods_refine_slots r0 t0 s l :
  0 <= max -> reachable max ttl r0 t0 s -> configured max ttl l ->
  (forall e p est, allow_on_time e s -> token_of l (now s) ∉ tokens s ->
     let '(r', l', (ok, err)) := Limiter.Allow e p est (srv s) l in
     (ok = true -> err = None /\ TrimSpace p <> "") /\ configured max ttl l' /\
     exists s', reachable max ttl r0 t0 s' /\ srv s' = r' /\ took (token_of l (now s)) ok s s') /\
  (forall e tok x, record_on_time e s -> holders s !! tok = Some x ->
     (forall p n, TrimSpace p <> "" -> exists s', reachable max ttl r0 t0 s' /\
        srv s' = (Limiter.Record_ e p n (srv s) l).1.1 /\ gave tok s s') /\
     (exists s', reachable max ttl r0 t0 s' /\
        srv s' = (Limiter.RecordFailure e (srv s) l).1.1 /\ gave tok s s') /\
     (exists s', reachable max ttl r0 t0 s' /\
        srv s' = (Limiter.Release e (srv s) l).1.1 /\ gave tok s s')).
Proof.
  intros Hmax Hr Hl.
  assert (forall s', steps s s' -> reachable max ttl r0 t0 s') as Hreach.
  { intros s' Hs. induction Hs as [|s1 s2 s3 H12 _ IH] in Hr |- *; [done|]. apply IH. by eapply reach_step. }
  split.
  - intros e p est He Hf. destruct (slots_reachable_inv max ttl r0 t0 s Hmax Hr) as [z I].
    assert (holders s !! token_of l (now s) = None) as Hn.
    { destruct (holders s !! _) eqn:E; [|done]. destruct Hf. by eapply (inv_holders _ _ _ _ I). }
    pose proof (Allow_steps e p est l s He Hl Hf Hn) as HA.
    destruct (Limiter.Allow _ _ _ _ _) as [[r' l'] [ok err]].
    destruct HA as (H1 & H2 & s' & Hs & H3 & H4). eauto 10.
  - intros e tok x He Hh. split_and!.
    + intros p n Hp. destruct (Record_steps e p n l s tok x He Hp Hh) as (s' & Hs & ? & ?). eauto.
    + destruct (settle_steps e l s tok x He Hh) as (s' & Hs & Hsrv & ?). exists s'.
      split; [auto|]. split; [|done]. rewrite Hsrv. unfold Limiter.RecordFailure.
      by destruct (Limiter.releaseInflight _ _ _) as [[? ?] ?].
    + destruct (settle_steps e (Limiter.set_circuit (cancelProbe (Limiter.circuit l)) l) s tok x He Hh)
        as (s' & Hs & Hsrv & ?). eauto.
Qed.
End Methods.

(** ** Requests *)

Section Requests.
Context {R : Type} `{RedisLaws R} (max ttl : Z).

(** A request being handled: the effects its run has still to perform, the token of the
    slot it holds, and whether its upstream call has begun and has not been settled. *)
Record request := { rest : list event; slot : option string; calling : bool }.

(** [undoing]: the slots taken by [Allow]s that will answer false. *)
Record world := { slots : sys (R := R); requests : list request; undoing : gset string }.

Definition set_request (i : nat) (q : request) (w : world) : world :=
  {| slots := slots w; requests := <[i := q]> (requests w); undoing := undoing w |}.
Definition set_slots (s : sys) (w : world) : world :=
  {| slots := s; requests := requests w; undoing := undoing w |}.

(** A run of the handler for some request, in some process, against some environment. *)
Definition chat_run (l : list event) : Prop :=
  exists h has_send sess req env hist, l = (HandleChat h has_send sess req env hist).1.

(** [g_time] lets time pass only while every slot is held within its lease, and the calls
    are [on_time]: the limiter enforces neither, and without the first the bound fails
    ([stale_release_frees_anothers_slot]). *)
Inductive gstep (w : world) : world -> Prop :=
| g_time d : 0 <= d -> in_lease (now (slots w) + d) (slots w) ->
    gstep w (set_slots {| srv := srv (slots w); now := now (slots w) + d;
                          tokens := tokens (slots w); holders := holders (slots w) |} w)
| g_other c : key_of c <> inflightKey ->
    gstep w (set_slots (set_srv (exec (now (slots w)) c (srv (slots w))).1 (slots w)) w)
  (* a request arrives *)
| g_arrive l : chat_run l ->
    gstep w {| slots := slots w; requests := requests w ++ [{| rest := l; slot := None; calling := false |}];
               undoing := undoing w |}
  (* an effect that does not concern the slots *)
| g_aside i q ev evs : requests w !! i = Some q -> rest q = ev :: evs -> slot_step_of ev = None ->
    gstep w (set_request i {| rest := evs; slot := slot q; calling := calling q |} w)
  (* an Allow that answers true: its script granted a slot *)
| g_granted i q ev evs p c l : requests w !! i = Some q -> rest q = ev :: evs ->
    slot_step_of ev = Some (Granted p) -> TrimSpace p <> "" ->
    on_time c (slots w) -> configured max ttl l -> token_of l (now (slots w)) ∉ tokens (slots w) ->
    (do_acquire ttl c l (slots w)).2 = None ->
    gstep w (set_request i {| rest := evs; slot := Some (token_of l (now (slots w))); calling := calling q |}
               (set_slots (do_acquire ttl c l (slots w)).1 w))
  (* the acquisition of an Allow that answers false, refused or to be undone *)
| g_attempt c l : on_time c (slots w) -> configured max ttl l ->
    token_of l (now (slots w)) ∉ tokens (slots w) ->
    gstep w {| slots := (do_acquire ttl c l (slots w)).1; requests := requests w;
               undoing := match (do_acquire ttl c l (slots w)).2 with
                          | None => {[token_of l (now (slots w))]} ∪ undoing w
                          | Some _ => undoing w
                          end |}
| g_undo c l token : on_time c (slots w) -> token ∈ undoing w ->
    gstep w {| slots := do_release c l token (slots w); requests := requests w;
               undoing := undoing w ∖ {[token]} |}
| g_upstream i q ev evs : requests w !! i = Some q -> rest q = ev :: evs -> slot_step_of ev = Some Upstream ->
    gstep w (set_request i {| rest := evs; slot := slot q; calling := true |} w)
| g_settled i q ev evs d st c l token : requests w !! i = Some q -> rest q = ev :: evs ->
    slot_step_of ev = Some (Settled d st) -> on_time c (slots w) -> slot q = Some token ->
    gstep w (set_request i {| rest := evs; slot := None; calling := false |}
               (set_slots (do_release c l token (slots w)) w)).

Definition no_requests (r0 : R) (t0 : Z) : world :=
  {| slots := {| srv := r0; now := t0; tokens := ∅; holders := ∅ |}; requests := []; undoing := ∅ |}.

Definition finished (w : world) : Prop :=
  undoing w = ∅ /\ forall i q, requests w !! i = Some q -> rest q = [].

(** ** The invariant *)

(** A settlement by the player admitted; one that does give the slot back ([Record] returns
    early for a blank player). *)
Definition settles (p : string) (st : settlement) : Prop :=
  match st with AsSuccess p' _ => p' = p | _ => True end.
Definition gives_back (st : settlement) : Prop :=
  match st with AsSuccess p _ => TrimSpace p <> "" | _ => True end.

(** What a request may still do, by what it holds. *)
Definition phase (q : request) : Prop :=
  let l := slot_steps (rest q) in
  match slot q, calling q with
  | None, false =>
      l = [] \/ (exists p d st, l = [Granted p; Settled d st] /\ settles p st) \/
      exists p d st, l = [Granted p; Upstream; Settled d st] /\ settles p st
  | Some _, false =>
      (exists d st, l = [Settled d st] /\ gives_back st) \/
      exists d st, l = [Upstream; Settled d st] /\ gives_back st
  | Some _, true => exists d st, l = [Settled d st] /\ gives_back st
  | None, true => False
  end.

(** The tokens of the slots held. *)
Definition held (w : world) : list string := omap slot (requests w) ++ elements (undoing w).

Record winv (r0 : R) (t0 : Z) (w : world) : Prop := {
  w_slots : reachable max ttl r0 t0 (slots w);
  w_phase : Forall phase (requests w);
  w_held : held w ≡ₚ (map_to_list (holders (slots w))).*1
}.

Lemma chat_phase l : chat_run l -> phase {| rest := l; slot := None; calling := false |}.
Proof.
  intros (h & b & sess & req & env & hist & ->). unfold phase. cbn.
  destruct (chat_slots h b sess req env hist) as [E|[E|(s & E & Hs)]].
  - by left.
  - right. left. eexists _, _, _. by split; [exact E|].
  - right. right. eexists _, _, _. by split; [exact E|].
Qed.

Lemma phase_cons ev evs sl c : slot_step_of ev = None ->
  phase {| rest := ev :: evs; slot := sl; calling := c |} -> phase {| rest := evs; slot := sl; calling := c |}.
Proof. intros He. unfold phase, slot_steps. cbn [rest slot calling omap list_omap]. by rewrite He. Qed.

Lemma omap_insert_perm (l : list request) i q q' :
  l !! i = Some q -> omap slot (<[i := q']> l) ++ option_list (slot q) ≡ₚ
                     omap slot l ++ option_list (slot q').
Proof.
  intros Hi. pose proof (lookup_lt_Some _ _ _ Hi) as Hlt.
  rewrite (insert_take_drop l i q') by done.
  assert (omap slot l = omap slot (take i l) ++ option_list (slot q) ++ omap slot (drop (S i) l)) as ->.
  { rewrite <- (take_drop_middle l i q Hi) at 1. rewrite omap_app. cbn. by destruct (slot q). }
  rewrite omap_app. cbn. destruct (slot q), (slot q'); cbn; solve_Permutation.
Qed.

(** A request moves on without touching the slots. *)
Lemma winv_move r0 t0 w i q q' : requests w !! i = Some q -> slot q' = slot q -> phase q' ->
  winv r0 t0 w -> winv r0 t0 (set_request i q' w).
Proof.
  intros Hi Hs Hp [W1 W2 W3]. split; cbn; [done|by apply Forall_insert|].
  unfold held in *. cbn. rewrite <- W3. pose proof (omap_insert_perm _ _ _ q' Hi) as E.
  rewrite Hs in E. apply Permutation_app_inv_r in E. by rewrite E.
Qed.

(** The tokens after an acquisition and after a release. *)
Lemma fst_insert (m : gmap string Z) k v : m !! k = None ->
  (map_to_list (<[k := v]> m)).*1 ≡ₚ k :: (map_to_list m).*1.
Proof. intros Hk. by rewrite (map_to_list_insert m k v Hk). Qed.

Lemma fst_delete (m : gmap string Z) k v : m !! k = Some v ->
  (map_to_list m).*1 ≡ₚ k :: (map_to_list (delete k m)).*1.
Proof. intros Hk. by rewrite <- (map_to_list_delete m k v Hk). Qed.

Lemma held_holder r0 t0 w token : winv r0 t0 w -> token ∈ held w ->
  exists e, holders (slots w) !! token = Some e.
Proof.
  intros [_ _ W3]. rewrite W3, list_elem_of_fmap. intros ([k e] & -> & Hin).
  exists e. by apply elem_of_map_to_list.
Qed.

Lemma fresh_not_holder r0 t0 w token : 0 <= max -> winv r0 t0 w -> token ∉ tokens (slots w) ->
  holders (slots w) !! token = None.
Proof.
  intros Hmax [W1 _ _] Hf. destruct (slots_reachable_inv max ttl r0 t0 _ Hmax W1) as [z I].
  destruct (holders (slots w) !! token) eqn:E; [|done]. destruct Hf. by eapply (inv_holders _ _ _ _ I).
Qed.

Lemma winv_step r0 t0 w w' : 0 <= max -> gstep w w' -> winv r0 t0 w -> winv r0 t0 w'.
Proof.
  intros Hmax Hs W. pose proof W as [W1 W2 W3].
  destruct Hs as [d Hd Hal|c Hc|l Hl|i q ev evs Hi Hr He|i q ev evs p c l Hi Hr He Hp Hc Hl Hf Hok|
                  c l Hc Hl Hf|c l token Hc Hin|i q ev evs Hi Hr He|i q ev evs d st c l token Hi Hr He Hc Hsl].
  - split; cbn; [eapply reach_step; [done|by apply step_time]|exact W2|done].
  - split; cbn; [eapply reach_step; [done|by apply step_other]|exact W2|done].
  - split; cbn; [done| |].
    + apply Forall_app_2; [exact W2|]. apply Forall_singleton. by apply chat_phase.
    + unfold held in *. cbn. by rewrite omap_app, app_nil_r.
  - apply winv_move with q; try done. pose proof (Forall_lookup_1 _ _ _ _ W2 Hi) as Hph. destruct q as [rs sl ca]. cbn in *.
    subst rs. by eapply phase_cons.
  - (* granted *)
    pose proof (Forall_lookup_1 _ _ _ _ W2 Hi) as Hph. destruct q as [rs sl ca]. cbn in Hr. subst rs.
    assert (sl = None /\ ca = false) as [-> ->].
    { unfold phase, slot_steps in Hph. cbn [rest slot calling omap list_omap] in Hph. rewrite He in Hph.
      destruct sl, ca; cbn in Hph; naive_solver. }
    unfold do_acquire in *. destruct (Limiter.acquireInflight c _ l) as [[r1 l1] err] eqn:Ea. cbn in Hok. subst err.
    split; cbn.
    + pose proof (step_acquire max ttl (slots w) c l Hc Hl Hf) as Hst. unfold do_acquire in Hst.
      rewrite Ea in Hst. by eapply reach_step.
    + apply Forall_insert; [exact W2|]. unfold phase, slot_steps in Hph |- *.
      cbn [rest slot calling omap list_omap] in Hph |- *. rewrite He in Hph.
      destruct Hph as [?|[(p' & d & st & [= -> E] & Hst)|(p' & d & st & [= -> E] & Hst)]]; [done|left|right];
        eexists _, _; (split; [exact E|]); unfold gives_back; unfold settles in Hst; destruct st; by subst.
    + rewrite fst_insert by (by eapply fresh_not_holder). rewrite <- W3. unfold held. cbn.
      pose proof (omap_insert_perm _ _ _
        {| rest := evs; slot := Some (token_of l (now (slots w))); calling := false |} Hi) as E.
      cbn in E. rewrite app_nil_r in E. rewrite E. solve_Permutation.
  - (* attempt *)
    pose proof (step_acquire max ttl (slots w) c l Hc Hl Hf) as Hst.
    unfold do_acquire in *. destruct (Limiter.acquireInflight c _ l) as [[r1 l1] err] eqn:Ea. cbn in *.
    split; cbn; [by eapply reach_step|exact W2|].
    destruct err as [err|]; [done|].
    rewrite fst_insert by (by eapply fresh_not_holder). rewrite <- W3. unfold held. cbn.
    rewrite elements_union_singleton; [solve_Permutation|].
    intros Hin. destruct (held_holder r0 t0 w (token_of l (now (slots w))) W) as [e He].
    { unfold held. apply elem_of_app. right. by apply elem_of_elements. }
    by rewrite (fresh_not_holder _ _ _ _ Hmax W Hf) in He.
  - (* undo *)
    destruct (held_holder r0 t0 w token W) as [e He].
    { unfold held. apply elem_of_app. right. by apply elem_of_elements. }
    split; cbn; [eapply reach_step; [done|by eapply step_release]|exact W2|].
    apply (Permutation_cons_inv (a := token)). rewrite <- (fst_delete _ _ _ He), <- W3. unfold held. cbn.
    rewrite (union_difference_singleton_L token (undoing w) Hin) at 2.
    rewrite elements_union_singleton by set_solver. solve_Permutation.
  - (* upstream *)
    apply winv_move with q; try done. pose proof (Forall_lookup_1 _ _ _ _ W2 Hi) as Hph. destruct q as [rs sl ca]. cbn in *. subst rs.
    unfold phase, slot_steps in Hph |- *. cbn [rest slot calling omap list_omap] in Hph |- *. rewrite He in Hph.
    destruct sl, ca; cbn in Hph; naive_solver.
  - (* settled *)
    destruct (held_holder r0 t0 w token W) as [e Hh].
    { unfold held. apply elem_of_app. left. apply list_elem_of_omap. exists q.
      split; [by eapply list_elem_of_lookup_2|done]. }
    split; cbn; [eapply reach_step; [done|by eapply step_release]| |].
    + apply Forall_insert; [exact W2|]. pose proof (Forall_lookup_1 _ _ _ _ W2 Hi) as Hph. destruct q as [rs sl ca].
      cbn in Hr, Hsl. subst. unfold phase, slot_steps in Hph |- *.
      cbn [rest slot calling omap list_omap] in Hph |- *. rewrite He in Hph. destruct ca; cbn in Hph; naive_solver.
    + apply (Permutation_cons_inv (a := token)). rewrite <- (fst_delete _ _ _ Hh), <- W3. unfold held. cbn.
      pose proof (omap_insert_perm _ _ _ {| rest := evs; slot := None; calling := false |} Hi) as E.
      rewrite Hsl in E. cbn in E. rewrite app_nil_r in E. rewrite <- E. solve_Permutation.
Qed.

(** Reachable worlds keep the invariant. *)
Lemma world_inv r0 t0 w : 0 <= max -> entry r0 t0 inflightKey = None -> 0 <= t0 ->
  rtc gstep (no_requests r0 t0) w -> winv r0 t0 w.
Proof.
  intros Hmax He Ht. apply (rtc_ind_r (winv r0 t0)); [|by intros; eapply winv_step].
  split; cbn; [by apply reach_init|constructor|done].
Qed.

Lemma calling_held (qs : list request) : Forall phase qs ->
  (length (List.filter calling qs) <= length (omap slot qs))%nat.
Proof.
  induction 1 as [|[rs sl ca] qs Hq _ IH]; [done|]. unfold phase in Hq. cbn in *.
  destruct sl, ca; cbn; done || lia.
Qed.

Lemma calls_bounded r0 t0 w : 0 <= max -> winv r0 t0 w ->
  Z.of_nat (length (List.filter calling (requests w))) <= max.
Proof.
  intros Hmax [W1 W2 W3]. pose proof (slots_bounded max ttl r0 t0 _ Hmax W1).
  pose proof (calling_held _ W2). apply Permutation_length in W3. unfold held in W3.
  rewrite length_app, length_fmap, length_map_to_list in W3. lia.
Qed.

(** C9: the bound on concurrent upstream calls.  Any number of chat requests, in any
    processes that share Redis, run against any environments with their effects interleaved
    with each other, with refused admissions, with lost requests and replies, and time: as
    long as no request has outlived the lease of its slot ([g_time]) and the processes'
    clocks agree with the server's ([on_time]), at most [max] of them are between the start of their
    Dify call and its settlement; every settlement finds its request holding a slot, which
    it gives back; and when every request has finished no slot is held. *)
Theorem upstream_calls_bounded r0 t0 w :
  0 <= max -> entry r0 t0 inflightKey = None -> 0 <= t0 -> rtc gstep (no_requests r0 t0) w ->
  Z.of_nat (length (List.filter calling (requests w))) <= max /\
  (forall i q ev evs d st, requests w !! i = Some q -> rest q = ev :: evs ->
     slot_step_of ev = Some (Settled d st) ->
     gives_back st /\ exists token e, slot q = Some token /\ holders (slots w) !! token = Some e) /\
  (finished w -> holders (slots w) = ∅).
Proof.
  intros Hmax He Ht Hr. pose proof (world_inv r0 t0 w Hmax He Ht Hr) as W. pose proof W as [W1 W2 W3].
  split_and!.
  - by eapply calls_bounded.
  - intros i q ev evs d st Hi Hrq Hev. rewrite Forall_lookup in W2. specialize (W2 i q Hi).
    assert (gives_back st /\ is_Some (slot q)) as [Hg [token Hsl]].
    { destruct q as [rs sl ca]. cbn in Hrq |- *. subst rs. unfold phase, slot_steps in W2.
      cbn [rest slot calling omap list_omap] in W2. rewrite Hev in W2. destruct sl, ca; cbn in W2; naive_solver. }
    split; [done|]. exists token.
    destruct (held_holder r0 t0 w token W) as [e Hh]; [|by exists e].
    unfold held. apply elem_of_app. left. apply list_elem_of_omap. exists q.
    split; [by eapply list_elem_of_lookup_2|done].
  - intros [Hu Hq]. assert (omap slot (requests w) = []) as Hn.
    { destruct (omap slot (requests w)) as [|token l] eqn:E; [done|]. exfalso.
      assert (token ∈ omap slot (requests w)) as Hin by (rewrite E; left).
      apply list_elem_of_omap in Hin as (q & Hin & Hsl). rewrite Forall_forall in W2.
      specialize (W2 q Hin). apply list_elem_of_lookup in Hin as [i Hi]. specialize (Hq i q Hi).
      unfold phase in W2. rewrite Hq, Hsl in W2. cbn in W2. destruct (calling q); naive_solver. }
    unfold held in W3. rewrite Hn, Hu, elements_empty in W3. cbn in W3.
    apply Permutation_nil_l in W3. symmetry in W3. by apply fmap_nil_inv, map_to_list_empty_iff in W3.
Qed.
End Requests.

(** ** Examples *)

Definition example_calls : allow_env :=
  {| Limiter.ready_at := Second; budget_call := call_at 1000; Limiter.allow_at := (Second, Second);
     acquire_call := call_at 1000; rate_call := call_at 1000; undo_call := call_at 1000 |}.

Lemma methods_refine_slots_witness :
  exists s', reachable 1 (100 * Millisecond) Keyspace.empty 1000 s' /\
    holders s' = {[ "aa:1000:1" := 1100 ]}.
Proof.
  destruct (methods_refine_slots 1 (100 * Millisecond) Keyspace.empty 1000 start (process "aa" 0))
    as [HA _]; [lia|by apply reach_init|by split|].
  assert (on_time (call_at 1000) start) as Ht by (split; reflexivity).
  specialize (HA example_calls "p" 0 (conj Ht (conj Ht (conj Ht Ht))) ltac:(set_solver)).
  destruct (Limiter.Allow example_calls "p" 0 (srv start) (process "aa" 0)) as [[r' l'] [ok err]] eqn:E.
  assert (ok = true) as -> by (apply (f_equal (fun x => x.2.1)) in E; vm_compute in E; done).
  destruct HA as (_ & _ & s' & Hr & _ & _ & Hh). exists s'. split; [exact Hr|].
  rewrite Hh. vm_compute. reflexivity.
Defined.

(** A run that is admitted and comes to its upstream call. *)
Fixpoint reaches_upstream (l : list event) : bool :=
  match l with
  | [] => false
  | ev :: l' => match slot_step_of ev with
                | None => reaches_upstream l'
                | Some Upstream => true
                | Some _ => false
                end
  end.

Definition admitted_first (l : list event) : bool :=
  match l with
  | ev :: l' => match slot_step_of ev with
                | Some (Granted p) => negb (String.eqb (TrimSpace p) "") && reaches_upstream l'
                | _ => false
                end
  | [] => false
  end.

Lemma upstream_reached {R} `{Redis R} max ttl l tok (w : world (R := R)) :
  reaches_upstream l = true -> requests w = [{| rest := l; slot := Some tok; calling := false |}] ->
  exists w', rtc (gstep max ttl) w w' /\ length (List.filter calling (requests w')) = 1%nat.
Proof.
  revert w. induction l as [|ev l IH]; intros w Hl Hw; [done|]. cbn in Hl.
  destruct (slot_step_of ev) as [[]|] eqn:He; try done.
  - eexists. split; [apply rtc_once, (g_upstream _ _ _ 0
      {| rest := ev :: l; slot := Some tok; calling := false |} ev l); [by rewrite Hw|done|exact He]|].
    cbn. by rewrite Hw.
  - edestruct (IH (set_request 0 {| rest := l; slot := Some tok; calling := false |} w)) as (w' & Hr & Hc);
      [done|cbn; by rewrite Hw|].
    exists w'. split; [|exact Hc]. eapply rtc_l; [|exact Hr].
    refine (g_aside _ _ _ 0 {| rest := ev :: l; slot := Some tok; calling := false |} ev l _ eq_refl He).
    by rewrite Hw.
Qed.

Lemma run_calls l : chat_run l -> admitted_first l = true ->
  exists w, rtc (gstep 1 (100 * Millisecond)) (no_requests Keyspace.empty 1000) w /\
    length (List.filter calling (requests w)) = 1%nat.
Proof.
  intros Hrun Ha. destruct l as [|ev l]; [done|]. cbn in Ha.
  destruct (slot_step_of ev) as [[p| |]|] eqn:He; try done. apply andb_prop in Ha as [Hp Ha].
  set (w0 := {| slots := start; requests := [{| rest := ev :: l; slot := None; calling := false |}];
                undoing := ∅ |}).
  assert (rtc (gstep 1 (100 * Millisecond)) (no_requests Keyspace.empty 1000) w0) as H0
    by exact (rtc_once _ _ (g_arrive 1 (100 * Millisecond) (no_requests Keyspace.empty 1000) _ Hrun)).
  pose proof (g_granted 1 (100 * Millisecond) w0 0 _ ev l p (call_at 1000) (process "aa" 0)
    eq_refl eq_refl He (proj1 (String.eqb_neq _ _) (proj1 (negb_true_iff _) Hp))
    (conj eq_refl eq_refl) (conj eq_refl eq_refl)
    ltac:(set_solver) ltac:(vm_compute; reflexivity)) as H1.
  edestruct (upstream_reached 1 (100 * Millisecond) l) as (w & Hr & Hc); [exact Ha| |].
  2: { exists w. split; [|exact Hc]. etrans; [exact H0|]. eapply rtc_l; [exact H1|exact Hr]. }
  reflexivity.
Qed.

(** The demo request is admitted and in its upstream call, with one slot in all. *)
Lemma upstream_calls_bounded_witness :
  exists w, length (List.filter calling (requests w)) = 1%nat /\
    Z.of_nat (length (List.filter calling (requests (R := Keyspace.state) w))) <= 1.
Proof.
  destruct (run_calls demo_run) as (w & Hr & Hl); [by repeat eexists|vm_compute; reflexivity|].
  exists w. split; [exact Hl|].
  exact (proj1 (upstream_calls_bounded 1 (100 * Millisecond) Keyspace.empty 1000 w
    ltac:(lia) eq_refl ltac:(lia) Hr)).
Defined.
