(* ===== verification/Connection.v ===== *)
(** * A connection and its requests: what one client reads

    The composition of [Listener] and [Pipeline].  A world is a connection, the frames each
    goroutine inside [HandleChat] has still to send, and what has been handed to the
    connection's writer, in lock order ([Mux.ConnWriter] makes that the order of the frames
    on the wire).  A goroutine that starts runs [HandleChat] against any environment; a
    reset runs in the read loop; between any two frames anything else may happen. *)

From S2P Require Import Prelude GoNum GoErr Proto Auth Mux Pipeline PipelineTheory Listener.

(** Who sent a frame: the goroutine of an instance, or the read loop. *)
Abbreviation sender := (option nat).

Record world := {
  cn : conn;
  pending : gmap nat (list ServerEnvelope);
  sent : list (sender * ServerEnvelope)
}.

Definition set_conn (c : conn) (w : world) : world :=
  {| cn := c; pending := pending w; sent := sent w |}.
Definition from_loop (fs : list ServerEnvelope) (w : world) : world :=
  {| cn := cn w; pending := pending w; sent := sent w ++ ((fun f => (None, f)) <$> fs) |}.
Definition starts (i : nat) (fs : list ServerEnvelope) (w : world) : world :=
  {| cn := cn w; pending := <[i := fs]> (pending w); sent := sent w |}.

(** The frames that make a whole turn of [rid]. *)
Definition whole_turn (rid : string) (fs : list ServerEnvelope) : Prop :=
  exists ds tail, fs = (chunk rid <$> ds) ++ tail /\ Forall (fun d => d <> "") ds /\
    Forall (ends rid) tail /\
    ((exists t, tail = [t]) \/ exists fb t, tail = [blockedEnvelope rid fb; t] /\ after_blocked rid t).

Section Connection.
Context (h : Handler) (verify : string -> res error string).

(** What an act does to the world. *)
Inductive acts : list act -> world -> world -> Prop :=
| acts_nil w : acts [] w w
| acts_reply e l w w' : acts l (from_loop [e] w) w' -> acts (Reply e :: l) w w'
| acts_spawn i req l w w' : acts l w w' -> acts (Spawn i req :: l) w w'
| acts_chat i req s env hist l w w' :
    acts l (starts i (frames (HandleChat h true s req env hist).1) w) w' ->
    acts (RunChat i req s :: l) w w'
| acts_reset req s env hist l w w' :
    acts l (from_loop (frames (HandleReset h true s req env hist).1) w) w' ->
    acts (RunReset req s :: l) w w'.

(** The frame's request id is not that of a request in flight. *)
Definition fresh_id (x : input) (c : conn) : Prop :=
  match x with
  | In_Frame _ (Some (Client_Chat m)) => Registry.inflight (registry c) !! Chat_RequestId m = None
  | In_Frame _ (Some (Client_Reset m)) => Registry.inflight (registry c) !! Reset_RequestId m = None
  | _ => True
  end.

(** A goroutine returns when [HandleChat] does, its frames sent. *)
Definition may_happen (x : input) (w : world) : Prop :=
  match x with
  | In_Return k => forall i req, serving (cn w) !! k = Some (i, req) -> pending w !! i = Some []
  | _ => True
  end.

(** [polite]: the client does not use a request id that is in flight. *)
Inductive step (polite : bool) (w : world) : world -> Prop :=
| step_input x w' : (polite = true -> fresh_id x (cn w)) -> may_happen x w ->
    acts (on_input h verify x (cn w)).2 (set_conn (on_input h verify x (cn w)).1 w) w' ->
    step polite w w'
| step_send i f fs : pending w !! i = Some (f :: fs) ->
    step polite w {| cn := cn w; pending := <[i := fs]> (pending w);
                     sent := sent w ++ [(Some i, f)] |}.

Definition opened (connID remote : string) (now : Z) : world :=
  {| cn := Listener.open connID remote now; pending := ∅; sent := [] |}.

(** The frames of a request id: the goroutines', and the read loop's if [all]. *)
Definition frame_for (all : bool) (rid : string) (x : sender * ServerEnvelope) : option ServerEnvelope :=
  if (all || bool_decide (is_Some x.1)) && bool_decide (envelope_request x.2 = Some rid)
  then Some x.2 else None.
Definition stream_of (all : bool) (rid : string) (l : list (sender * ServerEnvelope)) : list ServerEnvelope :=
  omap (frame_for all rid) l.

(** ** Lemmas *)

Lemma chat_whole s req env hist :
  whole_turn (Chat_RequestId req) (frames (HandleChat h true s req env hist).1).
Proof. destruct (chat_turn h s req env hist) as (ds & tail & H1 & H2 & H3 & _ & H4). by exists ds, tail. Qed.

Lemma reset_one s req env hist :
  exists f, frames (HandleReset h true s req env hist).1 = [f] /\ ends (Reset_RequestId req) f.
Proof.
  revert env hist. change (holds (HandleReset h true s req)
    (fun l _ => exists f, frames l = [f] /\ ends (Reset_RequestId req) f)).
  eapply holds_mono; [apply reset_turn|]. cbv beta. intros l _ (f & H1 & H2 & _). by exists f.
Qed.

Lemma single_turn rid f : ends rid f -> whole_turn rid [f].
Proof. intros Hf. exists [], [f]. split_and!; [done|constructor|by constructor|left; by exists f]. Qed.

Lemma whole_turn_ids rid fs f : whole_turn rid fs -> f ∈ fs -> envelope_request f = Some rid.
Proof.
  intros (ds & tail & -> & _ & Ht & _) [Hf|Hf]%elem_of_app.
  - by apply list_elem_of_fmap in Hf as (d & -> & _).
  - rewrite Forall_forall in Ht. by apply (Ht f Hf).
Qed.

Lemma stream_app all rid l l' : stream_of all rid (l ++ l') = stream_of all rid l ++ stream_of all rid l'.
Proof. apply omap_app. Qed.

Lemma stream_goroutine all rid i f : envelope_request f = Some rid ->
  stream_of all rid [(Some i, f)] = [f].
Proof. intros Hf. cbn. unfold frame_for. cbn. rewrite orb_true_r, bool_decide_eq_true_2 by done. done. Qed.

Lemma stream_other all rid src f : envelope_request f <> Some rid -> stream_of all rid [(src, f)] = [].
Proof. intros Hf. cbn. unfold frame_for. cbn. rewrite (bool_decide_eq_false_2 (_ = _)) by done. by rewrite andb_false_r. Qed.

Lemma stream_loop_hidden rid fs : stream_of false rid ((fun f => (None, f)) <$> fs) = [].
Proof. induction fs as [|f fs IH]; [done|]. cbn. exact IH. Qed.

(** ** The invariant *)

(** What has been sent for [rid] is whole turns, then [part]. *)
Definition turns_then (all : bool) (rid : string) (part : list ServerEnvelope) (w : world) : Prop :=
  exists turns, Forall (whole_turn rid) turns /\ stream_of all rid (sent w) = concat turns ++ part.

Record inv (all : bool) (w : world) : Prop := {
  inv_tracks : tracks (cn w);
  inv_live : forall i req, (i, req) ∈ serving (cn w) -> exists part rest,
    pending w !! i = Some rest /\ whole_turn (Chat_RequestId req) (part ++ rest) /\
    turns_then all (Chat_RequestId req) part w;
  inv_idle : forall rid, (forall i req, (i, req) ∈ serving (cn w) -> Chat_RequestId req <> rid) ->
    turns_then all rid [] w;
  inv_pending : forall i f fs, pending w !! i = Some (f :: fs) -> exists req, (i, req) ∈ serving (cn w)
}.

Lemma serving_goroutine c i req : (i, req) ∈ serving c -> (i, Chat_RequestId req) ∈ goroutines c.
Proof.
  intros Hin. apply list_elem_of_fmap. exists (i, req). split; [done|]. apply elem_of_app. by right.
Qed.

(** A request id has one goroutine, a goroutine one request id. *)
Lemma live_same_id c i j rid : tracks c -> (i, rid) ∈ goroutines c -> (j, rid) ∈ goroutines c -> i = j.
Proof. intros Ht Hi Hj. apply (tr_inflight _ _ _ Ht) in Hi, Hj. congruence. Qed.

Lemma live_same_instance c i rid rid' : tracks c ->
  (i, rid) ∈ goroutines c -> (i, rid') ∈ goroutines c -> rid = rid'.
Proof.
  intros Ht Hi Hj. pose proof (tr_nodup _ _ _ Ht) as Hn.
  apply list_elem_of_lookup in Hi as [a Ha], Hj as [b Hb].
  assert (a = b) as -> by (eapply NoDup_lookup; [exact Hn|..]; by rewrite list_lookup_fmap, ?Ha, ?Hb).
  congruence.
Qed.

Lemma turns_then_sent all rid part f part' w w' :
  sent w' = sent w ++ [f] -> part' = part ++ stream_of all rid [f] ->
  turns_then all rid part w -> turns_then all rid part' w'.
Proof.
  intros Hs -> (turns & Ht & E). exists turns. split; [done|]. by rewrite Hs, stream_app, E, app_assoc.
Qed.

Lemma turns_then_whole all rid part w :
  whole_turn rid part -> turns_then all rid part w -> turns_then all rid [] w.
Proof.
  intros Hp (turns & Ht & E). exists (turns ++ [part]). split; [by apply Forall_app_2; [|constructor]|].
  by rewrite concat_app, E; cbn; rewrite !app_nil_r.
Qed.

(** The connection changes and serves the same goroutines. *)
Lemma inv_conn all c w : tracks c -> serving c = serving (cn w) -> inv all w -> inv all (set_conn c w).
Proof.
  intros Ht Hs [I1 I2 I3 I4]. split; cbn; [done|rewrite Hs..]; [exact I2|exact I3|exact I4].
Qed.

(** The read loop sends a frame, about no request or one not in flight. *)
Lemma inv_reply all f w :
  (all = true -> envelope_request f = None \/ exists rid, ends rid f /\ Registry.inflight (registry (cn w)) !! rid = None) ->
  inv all w -> inv all (from_loop [f] w).
Proof.
  intros Hf [I1 I2 I3 I4].
  assert (forall rid, stream_of all rid [(None, f)] = [] \/
    (stream_of all rid [(None, f)] = [f] /\ ends rid f /\
     forall i req, (i, req) ∈ serving (cn w) -> Chat_RequestId req <> rid)) as Hstream.
  { intros rid. destruct all; [|by left]. destruct (Hf eq_refl) as [Hn|(rid' & He & Hfree)].
    - left. apply stream_other. congruence.
    - destruct (decide (rid' = rid)) as [->|Hne].
      + right. split_and!; [|done|].
        * cbn. unfold frame_for. cbn. by rewrite bool_decide_eq_true_2 by apply He.
        * intros i req Hin <-. apply serving_goroutine, (tr_inflight _ _ _ I1) in Hin. congruence.
      + left. apply stream_other. destruct He as [_ He]. congruence. }
  split; cbn; [done| | |done].
  - intros i req Hin. destruct (I2 i req Hin) as (part & rest & H1 & H2 & H3).
    exists part, rest. split_and!; [done..|]. eapply turns_then_sent; [done| |exact H3].
    destruct (Hstream (Chat_RequestId req)) as [->|(_ & _ & Hno)]; [by rewrite app_nil_r|].
    by destruct (Hno i req Hin).
  - intros rid Hrid. pose proof (I3 rid Hrid) as H3.
    destruct (Hstream rid) as [E|(E & He & _)].
    + eapply turns_then_sent; [done| |exact H3]. by rewrite E.
    + apply (turns_then_whole _ _ [f]); [by apply single_turn|].
      eapply turns_then_sent; [done| |exact H3]. by rewrite E.
Qed.

Lemma inv_send all w i f fs : pending w !! i = Some (f :: fs) -> inv all w ->
  inv all {| cn := cn w; pending := <[i := fs]> (pending w); sent := sent w ++ [(Some i, f)] |}.
Proof.
  intros Hp [I1 I2 I3 I4]. destruct (I4 i f fs Hp) as [req Hin].
  pose proof (serving_goroutine _ _ _ Hin) as Hg.
  destruct (I2 i req Hin) as (part & rest & H1 & H2 & H3). rewrite Hp in H1. injection H1 as <-.
  assert (envelope_request f = Some (Chat_RequestId req)) as Hid.
  { eapply whole_turn_ids; [exact H2|]. apply elem_of_app. right. left. }
  split; cbn; [done| | |].
  - intros j req' Hj. pose proof (serving_goroutine _ _ _ Hj) as Hg'.
    destruct (decide (Chat_RequestId req' = Chat_RequestId req)) as [E|Hne].
    + rewrite E in *. assert (j = i) as -> by (by eapply live_same_id).
      exists (part ++ [f]), fs. rewrite lookup_insert_eq, <- app_assoc. split_and!; [done..|].
      eapply turns_then_sent; [done| |exact H3]. by rewrite stream_goroutine.
    + assert (j <> i) as Hji by (intros ->; apply Hne; by eapply live_same_instance).
      rewrite lookup_insert_ne by done. destruct (I2 j req' Hj) as (p' & r' & K1 & K2 & K3).
      exists p', r'. split_and!; [done..|]. eapply turns_then_sent; [done| |exact K3].
      by rewrite stream_other, app_nil_r by congruence.
  - intros rid Hrid. eapply turns_then_sent; [done| |by apply I3].
    rewrite stream_other; [done|]. rewrite Hid. intros [= E]. by apply (Hrid i req).
  - intros j g gs. destruct (decide (i = j)) as [<-|Hne]; [intros _; by exists req|].
    rewrite lookup_insert_ne by done. apply I4.
Qed.

(** A goroutine enters [HandleChat]. *)
Lemma inv_start all w k i req fs : created (cn w) !! k = Some (i, req) ->
  whole_turn (Chat_RequestId req) fs -> inv all w ->
  inv all (starts i fs (set_conn (start_goroutine k (cn w)).1 w)).
Proof.
  intros Hk Hfs [I1 I2 I3 I4].
  pose proof (tracks_input h verify (In_Start k) (cn w) I1) as Ht. cbn [on_input] in Ht.
  unfold start_goroutine in *. rewrite Hk in *. cbn [fst] in *.
  assert ((i, Chat_RequestId req) ∈ goroutines (cn w)) as Hg.
  { apply list_elem_of_fmap. exists (i, req). split; [done|]. apply elem_of_app. left.
    by eapply list_elem_of_lookup_2. }
  assert (forall j r, (j, r) ∈ serving (cn w) -> j <> i /\ Chat_RequestId r <> Chat_RequestId req) as Hnew.
  { assert (forall r, (i, r) ∉ serving (cn w)) as Hni.
    { intros r Hr. pose proof (tr_nodup _ _ _ I1) as Hn. unfold goroutines in Hn.
      rewrite fmap_app, fmap_app in Hn. apply NoDup_app in Hn as (_ & Hn & _).
      eapply (Hn i); apply list_elem_of_fmap.
      - exists (i, Chat_RequestId req). split; [done|]. apply list_elem_of_fmap. exists (i, req).
        split; [done|by eapply list_elem_of_lookup_2].
      - exists (i, Chat_RequestId r). split; [done|]. apply list_elem_of_fmap. by exists (i, r). }
    intros j r Hj. split; [intros ->; by eapply Hni|]. intros E.
    pose proof (serving_goroutine _ _ _ Hj) as Hg'. rewrite E in Hg'.
    assert (j = i) as -> by exact (live_same_id _ _ _ _ I1 Hg' Hg). by eapply Hni. }
  split; cbn; [exact Ht| | |].
  - intros j r [Hj|[= -> ->]%list_elem_of_singleton]%elem_of_app.
    + destruct (Hnew j r Hj) as [Hji _]. rewrite lookup_insert_ne by done. by apply I2.
    + exists [], fs. rewrite lookup_insert_eq. split_and!; [done..|]. apply I3.
      intros j r Hj. by apply (Hnew j r Hj).
  - intros rid Hrid. apply I3. intros j r Hj. apply (Hrid j r), elem_of_app. by left.
  - intros j f gs. destruct (decide (i = j)) as [<-|Hne].
    + intros _. exists req. apply elem_of_app. right. by left.
    + rewrite lookup_insert_ne by done. intros Hj. destruct (I4 j f gs Hj) as [r Hr].
      exists r. apply elem_of_app. by left.
Qed.

(** A goroutine returns from [HandleChat], its turn sent. *)
Lemma inv_return all w k : may_happen (In_Return k) w -> inv all w ->
  inv all (set_conn (end_goroutine k (cn w)).1 w).
Proof.
  intros Hm [I1 I2 I3 I4]. pose proof (tracks_input h verify (In_Return k) (cn w) I1) as Ht.
  cbn [on_input] in Ht. cbn in Hm. unfold end_goroutine in *.
  destruct (serving (cn w) !! k) as [[i req]|] eqn:Hk; [|by split].
  specialize (Hm i req eq_refl). pose proof (delete_Permutation _ _ _ Hk) as Hp. cbn [fst] in *.
  assert ((i, req) ∈ serving (cn w)) as Hin by (by eapply list_elem_of_lookup_2).
  split; cbn; [exact Ht| | |].
  - intros j r Hj. apply I2. rewrite Hp. by right.
  - intros rid Hrid. destruct (decide (Chat_RequestId req = rid)) as [<-|Hne].
    + destruct (I2 i req Hin) as (part & rest & H1 & H2 & H3). rewrite Hm in H1. injection H1 as <-.
      rewrite app_nil_r in H2. by eapply turns_then_whole.
    + apply I3. intros j r. rewrite Hp, elem_of_cons. intros [[= -> ->]|Hj]; [done|by eapply Hrid].
  - intros j f fs Hj. destruct (I4 j f fs Hj) as [r Hr]. exists r. rewrite Hp, elem_of_cons in Hr.
    destruct Hr as [[= -> ->]|Hr]; [congruence|done].
Qed.

(** A frame is dispatched. *)
Lemma inv_dispatch all w env w' : closed (cn w) = false ->
  (all = true -> fresh_id (In_Frame false env) (cn w)) ->
  acts (dispatch h verify (cn w) env).2 (set_conn (dispatch h verify (cn w) env).1 w) w' ->
  inv all w -> inv all w'.
Proof.
  intros Hcl Hfresh Ha I.
  pose proof (tracks_input h verify (In_Frame false env) (cn w) (inv_tracks _ _ I)) as Ht.
  cbn [on_input] in Ht. rewrite Hcl in Ht.
  assert (forall c f, tracks c -> serving c = serving (cn w) ->
    (all = true -> envelope_request f = None \/
       exists rid, ends rid f /\ Registry.inflight (registry c) !! rid = None) ->
    acts [Reply f] (set_conn c w) w' -> inv all w') as Hreply.
  { intros c f Hc Hs Hf Hacts. inversion_clear Hacts as [|? ? ? ? Hacts'| | |]. inversion_clear Hacts'.
    apply inv_reply; [exact Hf|]. by apply inv_conn. }
  revert Ha Ht. unfold dispatch, handleChat, handleReset.
  destruct env as [[m|m|m| |m]|]; cbn [fst snd] in *.
  - destruct (Authenticate _ _ _ _) as [s [ok reason]]. cbn [fst snd]. intros Ha Ht.
    eapply Hreply; [exact Ht| | |exact Ha]; [done|by left].
  - case_bool_decide as Hr; [|destruct (negb _); [|destruct (Registry.Begin _ _) as [r [i|]] eqn:E]];
      cbn [fst snd]; intros Ha Ht.
    1-2,4: eapply Hreply; [exact Ht|done| |exact Ha]; intros Hall; right; eexists; split; [done|];
      apply Hfresh in Hall; cbn in Hall; by rewrite ?Hr in Hall.
    inversion_clear Ha as [| |? ? ? ? ? Hacts| |]. inversion_clear Hacts. by apply inv_conn.
  - intros Ha Ht. inversion_clear Ha. by apply inv_conn.
  - intros Ha Ht. eapply Hreply; [exact Ht| | |exact Ha]; [done|by left].
  - case_bool_decide as Hr; [|destruct (negb _)]; cbn [fst snd]; intros Ha Ht.
    1-2: eapply Hreply; [exact Ht|done| |exact Ha]; intros Hall; right; eexists; split; [done|];
      apply Hfresh in Hall; cbn in Hall; by rewrite ?Hr in Hall.
    inversion_clear Ha as [| | | |? ? ? ? ? ? ? Hacts]. inversion_clear Hacts.
    destruct (reset_one (sess (cn w)) m env hist) as (f & -> & Hf).
    apply inv_reply; [|by apply inv_conn]. intros Hall. right. eexists. split; [exact Hf|].
    by apply Hfresh in Hall.
  - intros Ha Ht. inversion_clear Ha. by apply inv_conn.
Qed.

Lemma client_inv_step all w w' : step all w w' -> inv all w -> inv all w'.
Proof.
  intros [x w1 Hfresh Hm Ha|i f fs Hp] I; [|by apply inv_send].
  pose proof (tracks_input h verify x (cn w) (inv_tracks _ _ I)) as Ht.
  assert (forall c, tracks c -> serving c = serving (cn w) -> acts [] (set_conn c w) w1 -> inv all w1) as Hquiet.
  { intros c Hc Hs Hacts. inversion_clear Hacts. by apply inv_conn. }
  destruct x as [|e|[] env|k|k]; cbn [on_input] in *.
  1-3: destruct (closed (cn w)) eqn:Hcl; cbn [fst snd] in *; by eapply Hquiet.
  - destruct (closed (cn w)) eqn:Hcl; cbn [fst snd] in *; [by eapply Hquiet|].
    by eapply inv_dispatch.
  - destruct (created (cn w) !! k) as [[i req]|] eqn:Hk.
    + pose proof (fun fs Hfs => inv_start all w k i req fs Hk Hfs I) as Hst.
      unfold start_goroutine in *. rewrite Hk in *. cbn [fst snd] in *.
      inversion_clear Ha as [| | |? ? ? ? ? ? ? ? Hacts|]. inversion_clear Hacts. apply Hst, chat_whole.
    + unfold start_goroutine in *. rewrite Hk in *. by eapply Hquiet.
  - assert (snd (end_goroutine k (cn w)) = []) as E by (unfold end_goroutine; by repeat case_match).
    rewrite E in Ha. inversion_clear Ha. by apply inv_return.
Qed.

Lemma reachable_inv all connID remote now w : rtc (step all) (opened connID remote now) w -> inv all w.
Proof.
  apply (rtc_ind_r (inv all)); [|by intros; eapply client_inv_step].
  split; cbn; [apply tracks_open| | |].
  - intros i req Hin. by apply elem_of_nil in Hin.
  - intros rid _. by exists [].
  - intros i f fs. by rewrite lookup_empty.
Qed.

Lemma stream_turns (polite : bool) connID remote now w rid :
  rtc (step polite) (opened connID remote now) w ->
  exists turns part, Forall (whole_turn rid) turns /\
    stream_of polite rid (sent w) = concat turns ++ part /\
    (forall i req, (i, req) ∈ serving (cn w) -> Chat_RequestId req = rid ->
       exists rest, pending w !! i = Some rest /\ whole_turn rid (part ++ rest)) /\
    ((forall i req, (i, req) ∈ serving (cn w) -> Chat_RequestId req <> rid) -> part = []).
Proof.
  intros Hr. apply reachable_inv in Hr as [I1 I2 I3 _].
  destruct (decide (Exists (fun x => Chat_RequestId x.2 = rid) (serving (cn w)))) as [He|Hn].
  - apply Exists_exists in He as ([i req] & Hin & Hid). cbn in Hid. subst rid.
    destruct (I2 i req Hin) as (part & rest & Hp & Hw & turns & Ht & E).
    exists turns, part. split_and!; [done..| |].
    + intros j req' Hj Hid. pose proof (serving_goroutine _ _ _ Hj) as Hg. rewrite Hid in Hg.
      assert (j = i) as -> by (eapply live_same_id; [done..|by apply serving_goroutine]). by exists rest.
    + intros Hno. by destruct (Hno i req Hin).
  - assert (forall i req, (i, req) ∈ serving (cn w) -> Chat_RequestId req <> rid) as Hno.
    { intros i req Hin Hid. apply Hn, Exists_exists. by exists (i, req). }
    destruct (I3 rid Hno) as (turns & Ht & E). exists turns, []. split_and!; [done..| |done].
    intros i req Hin Hid. by destruct (Hno i req Hin).
Qed.

(** C22: what one client reads.  However the frames of a connection's requests interleave,
    with each other and with the read loop's replies, the frames its goroutines send for a
    request id are whole turns, one after another, and then, exactly while a goroutine for
    that id is inside [HandleChat], the beginning of its turn, which what it has still to
    send completes.  If the client never uses the id of a request in flight, the same holds
    of all the frames with that id, the error replies and the answers to resets
    included. *)
Theorem client_stream_is_turns (polite : bool) connID remote now w rid :
  rtc (step polite) (opened connID remote now) w ->
  exists turns part, Forall (whole_turn rid) turns /\
    stream_of polite rid (sent w) = concat turns ++ part /\
    (forall i req, (i, req) ∈ serving (cn w) -> Chat_RequestId req = rid ->
       exists rest, pending w !! i = Some rest /\ whole_turn rid (part ++ rest)) /\
    ((forall i req, (i, req) ∈ serving (cn w) -> Chat_RequestId req <> rid) -> part = []).
Proof. apply stream_turns. Qed.
End Connection.

(** ** An example: a chat whose first chunk has been sent *)

Abbreviation demo_handler := (New demo_config).
Definition demo_auth : ClientEnvelope := Some (Client_Auth {| SessionToken := "t"; Auth_PlayerId := "" |}).
Definition demo_request : ClientEnvelope := Some (Client_Chat demo_chat).
Definition demo_session : Session := mkSession "conn-1" "10.0.0.1" 0 "p1" true.
Definition demo_frames : list ServerEnvelope :=
  frames (HandleChat demo_handler true demo_session demo_chat demo_environment []).1.

Definition demo_conn : conn :=
  (life demo_handler demo_verify [In_Frame false demo_auth; In_Frame false demo_request; In_Start 0]
     (Listener.open "conn-1" "10.0.0.1" 0)).1.

Definition demo_chunk : ServerEnvelope := chunk "r1" "The forbidden fruit.".

Definition demo_world : world :=
  {| cn := demo_conn; pending := {[ 0%nat := drop 1 demo_frames ]};
     sent := [(None, authResult true ""); (Some 0%nat, demo_chunk)] |}.

Lemma demo_world_reachable polite :
  rtc (step demo_handler demo_verify polite) (opened "conn-1" "10.0.0.1" 0) demo_world.
Proof.
  assert (demo_frames = demo_chunk :: drop 1 demo_frames) as E by (vm_compute; reflexivity).
  eapply rtc_l; [apply (step_input _ _ _ _ (In_Frame false demo_auth)); [done|done|]|].
  { apply acts_reply, acts_nil. }
  eapply rtc_l; [apply (step_input _ _ _ _ (In_Frame false demo_request)); [done|done|]|].
  { apply acts_spawn, acts_nil. }
  eapply rtc_l; [apply (step_input _ _ _ _ (In_Start 0)); [done|done|]|].
  { apply (acts_chat _ _ _ _ demo_environment []), acts_nil. }
  eapply rtc_l; [|constructor].
  refine (eq_rect _ (fun w => step _ _ _ _ w) (step_send _ _ _ _ 0 demo_chunk (drop 1 demo_frames) _) _ _).
  - cbn. rewrite lookup_insert_eq. exact (f_equal Some E).
  - unfold demo_world. cbn. by rewrite insert_insert_eq.
Qed.

Lemma client_stream_is_turns_witness :
  exists rest, pending demo_world !! 0%nat = Some rest /\ whole_turn "r1" (demo_chunk :: rest).
Proof.
  destruct (client_stream_is_turns demo_handler demo_verify true "conn-1" "10.0.0.1" 0 demo_world "r1"
    (demo_world_reachable true)) as (turns & part & Ht & E & Hlive & _).
  destruct (Hlive 0%nat demo_chat) as (rest & Hp & Hw); [left|reflexivity|].
  exists rest. split; [exact Hp|].
  change (stream_of true "r1" (sent demo_world)) with [demo_chunk] in E.
  destruct turns as [|t turns]; [cbn in E; by rewrite <- E in Hw|].
  exfalso. apply Forall_cons in Ht as [(ds & tail & -> & _ & Hends & Htail) _].
  assert (Exists (fun f => terminal f = true) [demo_chunk]) as Hx.
  { rewrite E. cbn [concat]. apply Exists_app. left. apply Exists_app. left. apply Exists_app. right.
    destruct Htail as [[f ->]|(fb & f & -> & _)]; constructor; by apply Forall_cons in Hends as [[] _]. }
  apply Exists_cons in Hx as [Hx|Hx]; [discriminate Hx|by apply Exists_nil in Hx].
Defined.

(** A client that reuses the id is told "duplicate request_id in flight" under that id, in
    the middle of the turn that goes on. *)
Lemma duplicate_breaks_turn :
  exists w, rtc (step demo_handler demo_verify false) (opened "conn-1" "10.0.0.1" 0) w /\
    stream_of true "r1" (sent w) =
      [demo_chunk; errorMsg "r1" "BAD_REQUEST" "duplicate request_id in flight"] /\
    pending w !! 0%nat = Some (drop 1 demo_frames) /\ drop 1 demo_frames <> [].
Proof.
  eexists. split.
  - eapply rtc_r; [apply demo_world_reachable|].
    apply (step_input _ _ _ _ (In_Frame false demo_request)); [done|done|].
    apply acts_reply, acts_nil.
  - split_and!; [reflexivity|reflexivity|]. vm_compute. discriminate.
Qed.
