(* ===== verification/Gateway.v ===== *)
(** * The whole gateway

    Clients on their connections ([Connection]) and the limiter's slots ([Admission]) in one
    system.  A goroutine that enters [HandleChat] is at once the limiter's request and the
    connection's sender: each effect of its run that happens is a step of the slots, and, if
    it sends a frame, of its connection.  So the gateway projects on the two, and what holds
    of each holds of both together. *)

From S2P Require Import Prelude GoNum GoStrings GoErr Proto Auth Moderation Mux Sse Redis.
From S2P Require Import Pipeline PipelineTheory Listener Connection Admission.
From S2P Require Limiter.

Section Gateway.
Context {R : Type} `{RedisLaws R} (max ttl : Z) (h : Handler) (verify : string -> res error string).

(** A connection, and the tokens its client has presented. *)
Record client := { wire : Connection.world; tokens : list string }.

(** Whose request a run of the handler is: the connection, the registry's instance, the
    frame that asked for it, the session of the moment it started. *)
Record owner := {
  of_client : nat;
  instance : nat;
  asked : ChatRequest;
  session : Session;
  run_ : list event
}.

(** [owners]: in the order of the limiter's [requests]; [calls]: every upstream call. *)
Record gateway := {
  adm : Admission.world (R := R);
  clients : list client;
  owners : list owner;
  calls : list (owner * ChatReq)
}.

Definition set_client (k : nat) (c : client) (g : gateway) : gateway :=
  {| adm := adm g; clients := <[k := c]> (clients g); owners := owners g; calls := calls g |}.

(** What the read loop meets; the rest are the goroutines' inputs. *)
Definition of_loop (x : input) : Prop :=
  match x with In_Start _ | In_Return _ => False | _ => True end.

Definition arrives (l : list event) (a : Admission.world (R := R)) : Admission.world (R := R) :=
  {| slots := slots a;
     requests := requests a ++ [{| rest := l; slot := None; calling := false |}];
     undoing := undoing a |}.

(** A frame sent, if the effect is one. *)
Definition sends (i : nat) (ev : event) (evs : list event) (w : Connection.world) : Connection.world :=
  match frame_of ev with
  | Some f => {| cn := cn w; pending := <[i := frames evs]> (pending w); sent := sent w ++ [(Some i, f)] |}
  | None => w
  end.

Definition called (o : owner) (ev : event) : list (owner * ChatReq) :=
  match upstream_of ev with Some (q, _) => [(o, q)] | None => [] end.

Inductive step (g : gateway) : gateway -> Prop :=
  (* time, other commands, admissions that fail *)
| s_quiet a : gstep max ttl (adm g) a -> requests a = requests (adm g) ->
    step g {| adm := a; clients := clients g; owners := owners g; calls := calls g |}
| s_open connID remote now :
    step g {| adm := adm g;
              clients := clients g ++ [{| wire := opened connID remote now; tokens := [] |}];
              owners := owners g; calls := calls g |}
| s_read k c x w : clients g !! k = Some c -> of_loop x ->
    acts h (on_input h verify x (cn (wire c))).2
      (set_conn (on_input h verify x (cn (wire c))).1 (wire c)) w ->
    step g (set_client k {| wire := w; tokens := tokens c ++ token_of x |} g)
  (* a goroutine enters HandleChat *)
| s_start k c j i m env hist : clients g !! k = Some c ->
    created (cn (wire c)) !! j = Some (i, m) ->
    let s := sess (cn (wire c)) in
    let l := (HandleChat h true s m env hist).1 in
    step g {| adm := arrives l (adm g);
              clients := <[k := {| wire := starts i (frames l)
                                     (set_conn (start_goroutine j (cn (wire c))).1 (wire c));
                                   tokens := tokens c |}]> (clients g);
              owners := owners g ++
                [{| of_client := k; instance := i; asked := m; session := s; run_ := l |}];
              calls := calls g |}
  (* the next effect of a run happens *)
| s_effect n o q ev evs a q' c : owners g !! n = Some o ->
    requests (adm g) !! n = Some q -> rest q = ev :: evs ->
    gstep max ttl (adm g) a -> requests a = <[n := q']> (requests (adm g)) -> rest q' = evs ->
    clients g !! of_client o = Some c ->
    step g {| adm := a;
              clients := <[of_client o := {| wire := sends (instance o) ev evs (wire c);
                                             tokens := tokens c |}]> (clients g);
              owners := owners g; calls := calls g ++ called o ev |}
  (* HandleChat returns *)
| s_return k c j n o q : clients g !! k = Some c -> owners g !! n = Some o -> of_client o = k ->
    requests (adm g) !! n = Some q -> rest q = [] ->
    serving (cn (wire c)) !! j = Some (instance o, asked o) ->
    step g (set_client k {| wire := set_conn (end_goroutine j (cn (wire c))).1 (wire c);
                            tokens := tokens c |} g).

Definition no_clients (r0 : R) (t0 : Z) : gateway :=
  {| adm := no_requests r0 t0; clients := []; owners := []; calls := [] |}.

(** ** The invariant *)

(** A request of a client that has presented a token which verified to the player. *)
Definition authorised (c : client) (o : owner) : Prop :=
  exists token, token ∈ tokens c /\ token <> "" /\ verify token = Ok (PlayerID (session o)).

Definition is_run (o : owner) : Prop :=
  exists env hist, run_ o = (HandleChat h true (session o) (asked o) env hist).1.

Record placed (o : owner) (q : request) (c : client) : Prop := {
  p_pending : pending (wire c) !! instance o = Some (frames (rest q));
  p_old : (instance o < Registry.next (registry (cn (wire c))))%nat;
  p_started : forall m, (instance o, m) ∉ created (cn (wire c));
  p_auth : authorised c o;
  p_run : is_run o;
  p_rest : exists pre, run_ o = pre ++ rest q
}.

Definition wire_ok (c : client) : Prop :=
  (exists connID remote now, rtc (Connection.step h verify false) (opened connID remote now) (wire c)) /\
  gate_inv verify (tokens c) (cn (wire c)).

Record ginv (r0 : R) (t0 : Z) (g : gateway) : Prop := {
  i_adm : rtc (gstep max ttl) (no_requests r0 t0) (adm g);
  i_wires : forall k c, clients g !! k = Some c -> wire_ok c;
  i_owned : forall n q, requests (adm g) !! n = Some q -> exists o c,
    owners g !! n = Some o /\ clients g !! of_client o = Some c /\ placed o q c;
  i_length : length (owners g) = length (requests (adm g));
  i_apart : forall n n' o o', owners g !! n = Some o -> owners g !! n' = Some o' ->
    of_client o = of_client o' -> instance o = instance o' -> n = n';
  i_calls : forall o cq, (o, cq) ∈ calls g -> o ∈ owners g /\ exists s, (cq, s) ∈ upstreams (run_ o);
  i_sent : forall k c i f, clients g !! k = Some c -> (Some i, f) ∈ sent (wire c) ->
    exists o, o ∈ owners g /\ of_client o = k /\ instance o = i /\ f ∈ frames (run_ o)
}.
(** ** What the read loop does *)

(** It starts no run: it only sends frames of its own. *)
Lemma acts_quiet l w w' : Forall (fun a => match a with RunChat _ _ _ => False | _ => True end) l ->
  acts h l w w' ->
  cn w' = cn w /\ pending w' = pending w /\
  forall i f, (Some i, f) ∈ sent w' -> (Some i, f) ∈ sent w.
Proof.
  intros Hl Ha. induction Ha as [w|f l w w' _ IH|i req l w w' _ IH|i req s env hist l w w' _ IH|
                                 req s env hist l w w' _ IH];
    apply Forall_cons in Hl as [Hx Hl] || clear Hl; try done.
  - destruct (IH Hl) as (-> & -> & Hs). split_and!; [done..|]. intros i g Hg.
    apply Hs in Hg. cbn in Hg. apply elem_of_app in Hg as [?|Hg]; [done|].
    by apply list_elem_of_singleton in Hg.
  - by apply IH.
  - destruct (IH Hl) as (-> & -> & Hs). split_and!; [done..|]. intros i g Hg.
    apply Hs in Hg. cbn in Hg. apply elem_of_app in Hg as [?|Hg]; [done|].
    by apply list_elem_of_fmap in Hg as (? & [=] & _).
Qed.

Lemma cancel_all_next r : Registry.next (Registry.CancelAll r) = Registry.next r.
Proof. unfold Registry.CancelAll. by induction (Registry.inflight_cancels r). Qed.

Lemma stop_next rid r : Registry.next (Registry.Stop rid r).1 = Registry.next r.
Proof. unfold Registry.Stop. by case_match. Qed.

(** The instances it creates are new. *)
Lemma loop_input x c : of_loop x ->
  Forall (fun a => match a with RunChat _ _ _ => False | _ => True end) (on_input h verify x c).2 /\
  (Registry.next (registry c) <= Registry.next (registry (on_input h verify x c).1))%nat /\
  forall i m, (i, m) ∈ created (on_input h verify x c).1 ->
    (i, m) ∈ created c \/ (Registry.next (registry c) <= i)%nat.
Proof.
  intros Hx. assert (forall c' : conn, Registry.next (registry c') = Registry.next (registry c) ->
    created c' = created c -> (Registry.next (registry c) <= Registry.next (registry c'))%nat /\
    forall i m, (i, m) ∈ created c' -> (i, m) ∈ created c \/ (Registry.next (registry c) <= i)%nat) as Hsame.
  { intros c' Hn Hc. rewrite Hn, Hc. split; [lia|by left]. }
  destruct x as [|e|[] env|k|k]; try done; cbn [on_input].
  1-4: destruct (closed c); [split; [constructor|by apply Hsame]|].
  1-3: split; [constructor|apply Hsame; [apply cancel_all_next|done]].
  unfold dispatch, handleChat, handleReset. destruct env as [[m|m|m| |m]|]; cbn [fst snd].
  - destruct (Authenticate _ _ _ _) as [s [ok reason]]. split; [by repeat constructor|by apply Hsame].
  - case_bool_decide; [split; [by repeat constructor|by apply Hsame]|].
    destruct (negb _); [split; [by repeat constructor|by apply Hsame]|].
    unfold Registry.Begin. destruct (Registry.inflight (registry c) !! _); cbn [fst snd].
    + split; [by repeat constructor|by apply Hsame].
    + split; [by repeat constructor|]. split; [cbn; lia|]. intros i m'. cbn.
      rewrite elem_of_app, list_elem_of_singleton. intros [?|[= -> _]]; [by left|right; lia].
  - split; [constructor|apply Hsame; [apply stop_next|done]].
  - split; [by repeat constructor|by apply Hsame].
  - case_bool_decide; [split; [by repeat constructor|by apply Hsame]|].
    destruct (negb _); (split; [by repeat constructor|by apply Hsame]).
  - split; [constructor|by apply Hsame].
Qed.

Lemma created_goroutine c i m : (i, m) ∈ created c -> (i, Chat_RequestId m) ∈ goroutines c.
Proof. intros Hin. apply list_elem_of_fmap. exists (i, m). split; [done|]. apply elem_of_app. by left. Qed.

(** A goroutine that has been created is new to the registry's numbering and is created once. *)
Lemma created_fresh c j i m : tracks c -> created c !! j = Some (i, m) ->
  (i < Registry.next (registry c))%nat /\ forall m', (i, m') ∉ delete j (created c).
Proof.
  intros Ht Hj. split.
  - apply (tr_next _ _ _ Ht). apply list_elem_of_fmap. exists (i, Chat_RequestId m). split; [done|].
    apply created_goroutine. by eapply list_elem_of_lookup_2.
  - intros m' Hin. pose proof (tr_nodup _ _ _ Ht) as Hn. unfold goroutines in Hn.
    rewrite (delete_Permutation _ _ _ Hj) in Hn. cbn in Hn. apply NoDup_cons in Hn as [Hn _].
    apply Hn. rewrite <- list_fmap_compose. apply list_elem_of_fmap. exists (i, m'). split; [done|].
    apply elem_of_app. by left.
Qed.

Lemma wire_tracks c : wire_ok c -> tracks (cn (wire c)).
Proof. intros [(? & ? & ? & Hr) _]. by apply reachable_inv, inv_tracks in Hr. Qed.
(** ** Every step keeps the invariant *)

(** A connection's step. *)
Lemma client_wire_step c x w : may_happen x (wire c) ->
  acts h (on_input h verify x (cn (wire c))).2 (set_conn (on_input h verify x (cn (wire c))).1 (wire c)) w ->
  cn w = (on_input h verify x (cn (wire c))).1 ->
  wire_ok c -> wire_ok {| wire := w; tokens := tokens c ++ token_of x |}.
Proof.
  intros Hm Ha Hc [(connID & remote & now & Hr) Hg]. split; cbn.
  - exists connID, remote, now. eapply rtc_r; [exact Hr|]. by eapply step_input.
  - rewrite Hc. by apply on_input_gate.
Qed.

Lemma authorised_more c c' o more : tokens c' = tokens c ++ more -> authorised c o -> authorised c' o.
Proof.
  intros Ht (token & Hin & Hv). exists token. split; [|done]. rewrite Ht. apply elem_of_app. by left.
Qed.

Lemma placed_move o q c c' more :
  pending (wire c') !! instance o = pending (wire c) !! instance o ->
  (Registry.next (registry (cn (wire c))) <= Registry.next (registry (cn (wire c'))))%nat ->
  (forall m, (instance o, m) ∈ created (cn (wire c')) ->
     (instance o, m) ∈ created (cn (wire c)) \/ (Registry.next (registry (cn (wire c))) <= instance o)%nat) ->
  tokens c' = tokens c ++ more -> placed o q c -> placed o q c'.
Proof.
  intros Hp Hn Hc Ht [P1 P2 P3 P4 P5 P6].
  split; [by rewrite Hp|lia| |by eapply authorised_more|done|done].
  intros m Hin. destruct (Hc m Hin) as [Hin'|?]; [by apply (P3 m)|lia].
Qed.

(** One client moves, the limiter's requests do not. *)
Lemma ginv_client r0 t0 g k c c' : clients g !! k = Some c -> wire_ok c' ->
  (forall o q, placed o q c -> placed o q c') ->
  (forall i f, (Some i, f) ∈ sent (wire c') -> (Some i, f) ∈ sent (wire c)) ->
  ginv r0 t0 g -> ginv r0 t0 (set_client k c' g).
Proof.
  intros Hk Hw Hp Hs [I1 I2 I3 I4 I5 I6 I7]. pose proof (lookup_lt_Some _ _ _ Hk) as Hlt.
  split; cbn; try done.
  - intros k' d [(<- & <- & _)|[_ Hd]]%list_lookup_insert_Some; [done|by eapply I2].
  - intros n q Hq. destruct (I3 n q Hq) as (o & d & Ho & Hd & Hpl). exists o.
    destruct (decide (k = of_client o)) as [E|Hne].
    + exists c'. rewrite <- E, list_lookup_insert_eq by done. rewrite <- E, Hk in Hd.
      injection Hd as <-. auto.
    + exists d. by rewrite list_lookup_insert_ne.
  - intros k' d i f [(<- & <- & _)|[_ Hd]]%list_lookup_insert_Some Hf; [|by eapply I7].
    eapply I7; [exact Hk|by apply Hs].
Qed.

Lemma ginv_read r0 t0 g k c x w : clients g !! k = Some c -> of_loop x ->
  acts h (on_input h verify x (cn (wire c))).2 (set_conn (on_input h verify x (cn (wire c))).1 (wire c)) w ->
  ginv r0 t0 g -> ginv r0 t0 (set_client k {| wire := w; tokens := tokens c ++ token_of x |} g).
Proof.
  intros Hk Hx Ha I. destruct (loop_input x (cn (wire c)) Hx) as (Hq & Hn & Hc).
  destruct (acts_quiet _ _ _ Hq Ha) as (Hcn & Hpend & Hsent). cbn in Hcn, Hpend, Hsent.
  apply (ginv_client _ _ _ _ c); try done.
  - eapply client_wire_step; [by destruct x|done..|by eapply i_wires].
  - intros o q Hp. eapply placed_move; [..|exact Hp]; cbn; [by rewrite Hpend|by rewrite Hcn| |done].
    intros m. rewrite Hcn. apply Hc.
Qed.

Lemma done_next rid i r : Registry.next (Registry.done rid i r) = Registry.next r.
Proof. unfold Registry.done. by case_decide. Qed.

Lemma ginv_return r0 t0 g k c j n o q : clients g !! k = Some c -> owners g !! n = Some o ->
  of_client o = k -> requests (adm g) !! n = Some q -> rest q = [] ->
  serving (cn (wire c)) !! j = Some (instance o, asked o) ->
  ginv r0 t0 g ->
  ginv r0 t0 (set_client k {| wire := set_conn (end_goroutine j (cn (wire c))).1 (wire c);
                              tokens := tokens c |} g).
Proof.
  intros Hk Ho Hok Hq Hr Hj I. destruct (i_owned _ _ _ I n q Hq) as (o' & c' & Ho' & Hc' & P).
  rewrite Ho in Ho'. injection Ho' as <-. rewrite Hok, Hk in Hc'. injection Hc' as <-.
  apply (ginv_client _ _ _ _ c); try done.
  - rewrite <- (app_nil_r (tokens c)). apply (client_wire_step c (In_Return j)); cbn.
    + intros i m. rewrite Hj. intros [= <- <-]. rewrite (p_pending _ _ _ P), Hr. done.
    + unfold end_goroutine. rewrite Hj. cbn. constructor.
    + done.
    + by eapply i_wires.
  - intros o' q' Hp. apply (placed_move o' q' c _ []); cbn; unfold end_goroutine; try rewrite Hj; cbn;
      [done|by rewrite done_next|by left|by rewrite app_nil_r|done].
Qed.

Lemma ginv_start r0 t0 g k c j i m env hist : clients g !! k = Some c ->
  created (cn (wire c)) !! j = Some (i, m) ->
  let s := sess (cn (wire c)) in
  let l := (HandleChat h true s m env hist).1 in
  ginv r0 t0 g ->
  ginv r0 t0
    {| adm := arrives l (adm g);
       clients := <[k := {| wire := starts i (frames l) (set_conn (start_goroutine j (cn (wire c))).1 (wire c));
                            tokens := tokens c |}]> (clients g);
       owners := owners g ++ [{| of_client := k; instance := i; asked := m; session := s; run_ := l |}];
       calls := calls g |}.
Proof.
  intros Hk Hj s l I. pose proof I as [I1 I2 I3 I4 I5 I6 I7].
  set (c' := {| wire := starts i _ _; tokens := tokens c |}). set (o' := {| of_client := k; instance := i |}).
  pose proof (lookup_lt_Some _ _ _ Hk) as Hlt. pose proof (I2 k c Hk) as Hw.
  destruct (created_fresh _ _ _ _ (wire_tracks c Hw) Hj) as [Hi Hfresh].
  assert ((i, m) ∈ created (cn (wire c))) as Hin by (by eapply list_elem_of_lookup_2).
  assert (forall n o, owners g !! n = Some o -> of_client o = k -> instance o <> i) as Hnew.
  { intros n o Ho Hok Hoi. destruct (lookup_lt_is_Some_2 (requests (adm g)) n) as [q Hq].
    { rewrite <- I4. by eapply lookup_lt_Some. }
    destruct (I3 n q Hq) as (o2 & d & Ho2 & Hd & P). rewrite Ho in Ho2. injection Ho2 as <-.
    rewrite Hok, Hk in Hd. injection Hd as <-. apply (p_started _ _ _ P m). by rewrite Hoi. }
  assert (start_goroutine j (cn (wire c)) =
    ({| sess := s; registry := registry (cn (wire c)); created := delete j (created (cn (wire c)));
        serving := serving (cn (wire c)) ++ [(i, m)]; closed := closed (cn (wire c)) |},
     [RunChat i m s])) as E by (unfold start_goroutine; by rewrite Hj).
  assert (wire_ok c') as Hw'.
  { unfold c'. rewrite <- (app_nil_r (tokens c)). apply (client_wire_step c (In_Start j)); cbn [on_input]; try done.
    rewrite E at 1. cbn [snd]. eapply acts_chat, acts_nil. }
  assert (forall o q, instance o <> i -> placed o q c -> placed o q c') as Hmove.
  { intros o q Hne P. apply (placed_move o q c c' []); [| | |by rewrite app_nil_r|done];
      unfold c'; cbn; rewrite ?E; cbn; [by rewrite lookup_insert_ne|done|].
    intros m' Hm'. left. rewrite (delete_Permutation _ _ _ Hj). by right. }
  split; cbn.
  - eapply rtc_r; [exact I1|]. apply g_arrive. by repeat eexists.
  - intros k' d [(<- & <- & _)|[_ Hd]]%list_lookup_insert_Some; [done|by eapply I2].
  - intros n q [Hq|(Hn & Hq)]%lookup_app_Some.
    + destruct (I3 n q Hq) as (o & d & Ho & Hd & P). exists o.
      destruct (decide (k = of_client o)) as [Ek|Hne].
      * exists c'. rewrite <- Ek, list_lookup_insert_eq by done. rewrite <- Ek, Hk in Hd. injection Hd as <-.
        split_and!; [by apply lookup_app_l_Some|done|]. apply Hmove; [by eapply Hnew|done].
      * exists d. rewrite list_lookup_insert_ne by done. by split; [apply lookup_app_l_Some|].
    + apply list_lookup_singleton_Some in Hq as [Hn0 <-].
      exists o', c'. assert (n = length (owners g)) as -> by lia.
      split; [by apply list_lookup_middle|]. split; [by apply list_lookup_insert_eq|].
      split; unfold c'; cbn; rewrite ?E; cbn; try done.
      * by rewrite lookup_insert_eq.
      * destruct Hw as [_ [Hs Hc]]. destruct (Hc i m Hin) as [_ Ha]. exact (Hs Ha).
      * by exists env, hist.
      * by exists [].
  - rewrite !length_app, I4. done.
  - intros n n' o1 o2 [Ho1|(Hn1 & Ho1)]%lookup_app_Some [Ho2|(Hn2 & Ho2)]%lookup_app_Some.
    + by apply (I5 n n' o1 o2).
    + apply list_lookup_singleton_Some in Ho2 as [_ <-]. cbn. intros E1 E2. by destruct (Hnew n o1 Ho1 E1).
    + apply list_lookup_singleton_Some in Ho1 as [_ <-]. cbn. intros E1 E2.
      by destruct (Hnew n' o2 Ho2 (eq_sym E1)).
    + apply list_lookup_singleton_Some in Ho1 as [? _], Ho2 as [? _]. intros _ _. lia.
  - intros o cq Hin'. destruct (I6 o cq Hin') as [? ?]. split; [|done]. apply elem_of_app. by left.
  - intros k' d i' f Hd Hf.
    assert (exists d', clients g !! k' = Some d' /\ (Some i', f) ∈ sent (wire d')) as (d' & Hd' & Hf').
    { apply list_lookup_insert_Some in Hd as [(<- & <- & _)|[_ Hd]]; [by exists c|by exists d]. }
    destruct (I7 k' d' i' f Hd' Hf') as (o & Hin' & Ho). exists o. split; [|done]. apply elem_of_app. by left.
Qed.
Lemma sends_cn i ev evs w : cn (sends i ev evs w) = cn w.
Proof. unfold sends. by case_match. Qed.

Lemma ginv_effect r0 t0 g n o q ev evs a q' c : owners g !! n = Some o ->
  requests (adm g) !! n = Some q -> rest q = ev :: evs ->
  gstep max ttl (adm g) a -> requests a = <[n := q']> (requests (adm g)) -> rest q' = evs ->
  clients g !! of_client o = Some c -> ginv r0 t0 g ->
  ginv r0 t0
    {| adm := a;
       clients := <[of_client o := {| wire := sends (instance o) ev evs (wire c);
                                      tokens := tokens c |}]> (clients g);
       owners := owners g; calls := calls g ++ called o ev |}.
Proof.
  intros Ho Hq Hr Hst Ha Hr' Hc I. pose proof I as [I1 I2 I3 I4 I5 I6 I7].
  set (c' := {| wire := sends _ _ _ _; tokens := _ |}).
  destruct (I3 n q Hq) as (o2 & d & Ho2 & Hd & P). rewrite Ho in Ho2. injection Ho2 as <-.
  rewrite Hc in Hd. injection Hd as <-.
  pose proof (lookup_lt_Some _ _ _ Hc) as Hlt. pose proof (lookup_lt_Some _ _ _ Hq) as Hltq.
  assert (o ∈ owners g) as Hin by (by eapply list_elem_of_lookup_2).
  destruct (p_rest _ _ _ P) as [pre Hpre]. rewrite Hr in Hpre.
  pose proof (p_pending _ _ _ P) as Hpend. rewrite Hr in Hpend. unfold frames in Hpend.
  cbn [omap list_omap] in Hpend. fold (frames evs) in Hpend.
  assert (pending (wire c') !! instance o = Some (frames evs)) as Hpend'.
  { unfold c', sends. cbn. destruct (frame_of ev); [cbn; by rewrite lookup_insert_eq|exact Hpend]. }
  assert (forall i, i <> instance o -> pending (wire c') !! i = pending (wire c) !! i) as Hother.
  { intros i Hi. unfold c', sends. cbn. destruct (frame_of ev); [cbn; by rewrite lookup_insert_ne|done]. }
  assert (wire_ok c') as Hw'.
  { destruct (I2 _ _ Hc) as [(connID & remote & now & Hw) Hg]. split; [|unfold c'; cbn; by rewrite sends_cn].
    exists connID, remote, now. unfold c', sends. cbn. destruct (frame_of ev) as [f|] eqn:Ef; [|done].
    eapply rtc_r; [exact Hw|]. by apply step_send. }
  assert (forall o1 q1, pending (wire c') !! instance o1 = pending (wire c) !! instance o1 ->
    placed o1 q1 c -> placed o1 q1 c') as Hmove.
  { intros o1 q1 He P1. apply (placed_move o1 q1 c c' []); [done| | |by rewrite app_nil_r|done];
      unfold c'; cbn; rewrite sends_cn; [done|by left]. }
  split; cbn; [by eapply rtc_r| | |by rewrite Ha, length_insert|done| |].
  - intros k d [(<- & <- & _)|[_ Hd]]%list_lookup_insert_Some; [done|by eapply I2].
  - intros n' q1. rewrite Ha. intros [(<- & <- & _)|[Hne Hq1]]%list_lookup_insert_Some.
    + exists o, c'. split; [done|]. split; [by apply list_lookup_insert_eq|].
      destruct P as [_ P2 P3 P4 P5 _].
      split; unfold c'; cbn; rewrite ?sends_cn, ?Hr'; try done.
      exists (pre ++ [ev]). by rewrite <- app_assoc.
    + destruct (I3 n' q1 Hq1) as (o1 & d & Ho1 & Hd & P1). exists o1.
      destruct (decide (of_client o = of_client o1)) as [E|Hoc].
      * exists c'. rewrite <- E, list_lookup_insert_eq by done. rewrite <- E, Hc in Hd. injection Hd as <-.
        split_and!; [done..|]. apply Hmove; [|done]. apply Hother. intros Hi. apply Hne.
        by apply (I5 n n' o o1).
      * exists d. by rewrite list_lookup_insert_ne.
  - intros o1 cq [Hcq|Hcq]%elem_of_app; [by apply I6|]. unfold called in Hcq.
    destruct (upstream_of ev) as [[q2 s]|] eqn:Eu; [|by apply elem_of_nil in Hcq].
    apply list_elem_of_singleton in Hcq as [= -> ->]. split; [done|]. exists s.
    rewrite Hpre. unfold upstreams. apply list_elem_of_omap. exists ev. split; [|done].
    apply elem_of_app. right. left.
  - intros k d i f [(<- & <- & _)|[_ Hd]]%list_lookup_insert_Some Hf; [|by eapply I7].
    unfold c', sends in Hf. cbn in Hf. destruct (frame_of ev) as [f'|] eqn:Ef; [|by eapply I7].
    cbn in Hf. apply elem_of_app in Hf as [Hf|[= -> ->]%list_elem_of_singleton]; [by eapply I7|].
    exists o. split_and!; [done..|]. rewrite Hpre. apply list_elem_of_omap. exists ev. split; [|done].
    apply elem_of_app. right. left.
Qed.

Lemma ginv_step r0 t0 g g' : step g g' -> ginv r0 t0 g -> ginv r0 t0 g'.
Proof.
  intros Hs I. destruct Hs; [| |by eapply ginv_read|by eapply ginv_start|by eapply ginv_effect|by eapply ginv_return];
    destruct I as [I1 I2 I3 I4 I5 I6 I7].
  - split; cbn; try done; [by eapply rtc_r|intros n q|]; match goal with E : requests a = _ |- _ => rewrite E end;
      [apply I3|done].
  - split; cbn; try done.
    + intros k c [Hk|[_ Hk]]%lookup_app_Some; [by eapply I2|].
      apply list_lookup_singleton_Some in Hk as [_ <-]. split; [by exists connID, remote, now|apply gate_open].
    + intros n q Hq. destruct (I3 n q Hq) as (o & c & Ho & Hc & P). exists o, c.
      split_and!; [done|by apply lookup_app_l_Some|done].
    + intros k c i f [Hk|[_ Hk]]%lookup_app_Some; [by eapply I7|].
      apply list_lookup_singleton_Some in Hk as [_ <-]. cbn. by intros ?%elem_of_nil.
Qed.

Lemma gateway_inv r0 t0 g : rtc step (no_clients r0 t0) g -> ginv r0 t0 g.
Proof.
  apply (rtc_ind_r (ginv r0 t0)); [|by intros; eapply ginv_step].
  split; cbn; [constructor|done..| |done]. intros o cq. by intros ?%elem_of_nil.
Qed.

(** An owner's client has presented the token its player comes from. *)
Lemma owner_authorised r0 t0 g o : ginv r0 t0 g -> o ∈ owners g ->
  is_run o /\ exists c, clients g !! of_client o = Some c /\ authorised c o.
Proof.
  intros I [n Ho]%list_elem_of_lookup.
  destruct (lookup_lt_is_Some_2 (requests (adm g)) n) as [q Hq].
  { rewrite <- (i_length _ _ _ I). by eapply lookup_lt_Some. }
  destruct (i_owned _ _ _ I n q Hq) as (o' & c & Ho' & Hc & P). rewrite Ho in Ho'. injection Ho' as <-.
  split; [apply P|]. exists c. split; [done|apply P].
Qed.

(** C1: the gateway as a whole.  Any number of clients, with any behaviour, on gateway
    processes that share Redis and whose clocks agree with its, their requests interleaved
    effect by effect: as long as no request has outlived the lease of its slot ([g_time];
    the limiter does not see to that itself), at every moment
    - at most [max] requests are in their Dify call;
    - every call made to Dify was made for a client that has presented, on that connection,
      a token that verified to the player whose user id the call carries, with the query
      that client sent, passed by the moderator;
    - every frame a goroutine has sent on a connection belongs to the run of a request of
      that connection's client, under the player of a token presented on it, and for each
      request id those frames are whole turns and then the beginning of one. *)
Theorem gateway_safe r0 t0 g :
  0 <= max -> entry r0 t0 Limiter.inflightKey = None -> 0 <= t0 -> rtc step (no_clients r0 t0) g ->
  Z.of_nat (length (List.filter calling (requests (adm g)))) <= max /\
  (forall o cq, (o, cq) ∈ calls g ->
     (exists c, clients g !! of_client o = Some c /\ authorised c o) /\
     User cq = userID (PlayerID (session o)) (TrimSpace (Chat_NpcId (asked o))) /\
     Query cq = TrimSpace (Chat_Query (asked o)) /\ (CheckInput (moderator h) (Query cq)).1 = true) /\
  (forall k c, clients g !! k = Some c ->
     (forall i f, (Some i, f) ∈ sent (wire c) -> exists o,
        o ∈ owners g /\ of_client o = k /\ instance o = i /\ is_run o /\ f ∈ frames (run_ o) /\ authorised c o) /\
     forall rid, exists turns part, Forall (whole_turn rid) turns /\
       stream_of false rid (sent (wire c)) = concat turns ++ part).
Proof.
  intros Hmax He Ht I%gateway_inv. split_and!.
  - eapply calls_bounded; [done|]. eapply world_inv; [done..|apply I].
  - intros o cq Hcq. destruct (i_calls _ _ _ I o cq Hcq) as [Hin [s Hs]].
    destruct (owner_authorised _ _ _ _ I Hin) as [(env & hist & Hrun) Hauth]. split; [exact Hauth|].
    rewrite Hrun in Hs.
    destruct (proj2 (chat_upstream h (session o) (asked o) env hist) cq s Hs) as (-> & _ & _ & Hm & -> & _).
    by split_and!.
  - intros k c Hk. split.
    + intros i f Hf. destruct (i_sent _ _ _ I k c i f Hk Hf) as (o & Hin & <- & <- & Hfr).
      destruct (owner_authorised _ _ _ _ I Hin) as [Hrun (c' & Hc' & Hauth)]. exists o.
      rewrite Hk in Hc'. injection Hc' as <-. done.
    + intros rid. destruct (i_wires _ _ _ I k c Hk) as [(connID & remote & now & Hr) _].
      destruct (stream_turns h verify false connID remote now (wire c) rid Hr) as (turns & part & H1' & H2' & _).
      by exists turns, part.
Qed.
End Gateway.

(** ** An example: a client signs in, chats and comes to its Dify call *)

Lemma upstream_step ev : slot_step_of ev = Some Upstream -> exists q s, upstream_of ev = Some (q, s).
Proof.
  destruct ev as [X e x]. destruct e; cbn; try discriminate; [|by eexists _, _].
  by destruct x as [[] []].
Qed.

(** Alone, a run that is admitted comes to its upstream call. *)
Lemma call_reached {R} `{Redis R} max ttl h verify o l tok (g : gateway (R := R)) c :
  reaches_upstream l = true ->
  requests (adm g) = [{| rest := l; slot := Some tok; calling := false |}] ->
  owners g = [o] -> of_client o = 0%nat -> clients g = [c] ->
  exists g', rtc (step max ttl h verify) g g' /\ owners g' = [o] /\
    length (List.filter calling (requests (adm g'))) = 1%nat /\ exists cq, (o, cq) ∈ calls g'.
Proof.
  revert g c. induction l as [|ev l IH]; intros g c Hl Hq Ho Hz Hc; [done|]. cbn in Hl.
  set (q := {| rest := ev :: l; slot := Some tok; calling := false |}) in *.
  assert (owners g !! 0%nat = Some o) as Ho0 by (by rewrite Ho).
  assert (requests (adm g) !! 0%nat = Some q) as Hq0 by (by rewrite Hq).
  pose proof (fun a q' => s_effect max ttl h verify g 0 o q ev l a q' c Ho0 Hq0 eq_refl) as Heff.
  destruct (slot_step_of ev) as [[]|] eqn:He; try done.
  - set (q' := {| rest := l; slot := Some tok; calling := true |}).
    eexists. split; [apply rtc_once, (Heff (set_request 0 q' (adm g)) q')|].
    + by apply (g_upstream _ _ _ 0 q ev l).
    + done.
    + done.
    + by rewrite Hz, Hc.
    + cbn. rewrite Hq, Ho. split_and!; [done..|].
      destruct (upstream_step ev He) as (cq & s & E). exists cq. unfold called. rewrite E.
      apply elem_of_app. right. left.
  - set (q' := {| rest := l; slot := Some tok; calling := false |}).
    edestruct (IH {| adm := set_request 0 q' (adm g); owners := owners g; calls := calls g ++ called o ev;
                     clients := <[of_client o := {| wire := sends (instance o) ev l (wire c);
                                                    tokens := tokens c |}]> (clients g) |})
      as (g' & Hr & Hg); [done|cbn; by rewrite Hq|done|done|cbn; by rewrite Hz, Hc|].
    exists g'. split; [|exact Hg]. eapply rtc_l; [|exact Hr].
    apply (Heff _ q'); [|done|done|by rewrite Hz, Hc].
    by apply (g_aside _ _ _ 0 q ev l).
Qed.

(** A run that begins with a granted slot, on an idle server. *)
Lemma call_admitted h verify o (g : gateway (R := Keyspace.state)) c :
  admitted_first (run_ o) = true -> adm g = arrives (run_ o) (no_requests Keyspace.empty 1000) ->
  owners g = [o] -> of_client o = 0%nat -> clients g = [c] ->
  exists g', rtc (step 1 (100 * Millisecond) h verify) g g' /\ owners g' = [o] /\
    length (List.filter calling (requests (adm g'))) = 1%nat /\ exists cq, (o, cq) ∈ calls g'.
Proof.
  destruct (run_ o) as [|ev l]; [done|]. intros Ha Hadm Ho Hz Hc. cbn in Ha.
  destruct (slot_step_of ev) as [[p| |]|] eqn:He; try done. apply andb_prop in Ha as [Hp Ha].
  set (q := {| rest := ev :: l; slot := None; calling := false |}).
  assert (requests (adm g) = [q]) as Hq by (by rewrite Hadm).
  assert (Admission.slots (adm g) = Limiter.Slots.start) as Hs by (by rewrite Hadm).
  pose proof (g_granted 1 (100 * Millisecond) (adm g) 0 q ev l p
    (Limiter.Slots.call_at 1000) (Limiter.Slots.process "aa" 0)
    ltac:(by rewrite Hq) eq_refl He (proj1 (String.eqb_neq _ _) (proj1 (negb_true_iff _) Hp))) as Hg.
  rewrite Hs in Hg.
  specialize (Hg (conj eq_refl eq_refl) (conj eq_refl eq_refl) ltac:(set_solver) ltac:(vm_compute; reflexivity)).
  assert (owners g !! 0%nat = Some o) as Ho0 by (by rewrite Ho).
  assert (requests (adm g) !! 0%nat = Some q) as Hq0 by (by rewrite Hq).
  pose proof (s_effect 1 (100 * Millisecond) h verify g 0 o q ev l _ _ c Ho0 Hq0 eq_refl Hg eq_refl eq_refl
    ltac:(by rewrite Hz, Hc)) as Hst.
  edestruct (call_reached 1 (100 * Millisecond) h verify o l) as (g' & Hr & Hg'); [exact Ha| | | | |].
  5: { exists g'. split; [|exact Hg']. eapply rtc_l; [exact Hst|exact Hr]. }
  - cbn. rewrite Hq. reflexivity.
  - exact Ho.
  - exact Hz.
  - cbn. rewrite Hz, Hc. reflexivity.
Qed.

Definition demo_owner : owner :=
  {| of_client := 0; instance := 0; asked := demo_chat; session := demo_session;
     run_ := (HandleChat demo_handler true demo_session demo_chat demo_environment []).1 |}.

Definition demo_gateway : gateway (R := Keyspace.state) :=
  {| adm := arrives (run_ demo_owner) (no_requests Keyspace.empty 1000);
     clients := [{| wire := starts 0 (frames (run_ demo_owner))
                       {| cn := demo_conn; pending := ∅; sent := [(None, authResult true "")] |};
                    tokens := ["t"] |}];
     owners := [demo_owner]; calls := [] |}.

(** Signed in, the chat request read. *)
Definition demo_waiting : gateway (R := Keyspace.state) :=
  {| adm := no_requests Keyspace.empty 1000;
     clients := [{| wire := {| cn := (life demo_handler demo_verify
                                        [In_Frame false demo_auth; In_Frame false demo_request]
                                        (Listener.open "conn-1" "10.0.0.1" 0)).1;
                               pending := ∅; sent := [(None, authResult true "")] |};
                    tokens := ["t"] |}];
     owners := []; calls := [] |}.

Abbreviation demo_step := (step 1 (100 * Millisecond) demo_handler demo_verify).

Lemma demo_waiting_reachable : rtc demo_step (no_clients Keyspace.empty 1000) demo_waiting.
Proof.
  eapply rtc_l; [apply (s_open _ _ _ _ _ "conn-1" "10.0.0.1" 0)|].
  eapply rtc_l; [eapply (s_read _ _ _ _ _ 0 _ (In_Frame false demo_auth)); [reflexivity|exact I|]|].
  { apply acts_reply, acts_nil. }
  eapply rtc_l; [eapply (s_read _ _ _ _ _ 0 _ (In_Frame false demo_request)); [reflexivity|exact I|]|].
  { apply acts_spawn, acts_nil. }
  exact (rtc_refl demo_step demo_waiting).
Qed.

Lemma demo_gateway_reachable : rtc demo_step (no_clients Keyspace.empty 1000) demo_gateway.
Proof.
  eapply rtc_r; [exact demo_waiting_reachable|].
  exact (s_start _ _ _ _ demo_waiting 0 _ 0 0 demo_chat demo_environment [] eq_refl eq_refl).
Qed.

(** The demo client's call to Dify carries the user id of the player of its token. *)
Lemma gateway_safe_witness :
  exists g cq, rtc (step 1 (100 * Millisecond) demo_handler demo_verify) (no_clients Keyspace.empty 1000) g /\
    length (List.filter calling (requests (adm g))) = 1%nat /\ (demo_owner, cq) ∈ calls g /\
    User cq = "p1:smith" /\ Query cq = "hi".
Proof.
  assert (exists g cq, rtc (step 1 (100 * Millisecond) demo_handler demo_verify) (no_clients Keyspace.empty 1000) g /\
    length (List.filter calling (requests (adm g))) = 1%nat /\ (demo_owner, cq) ∈ calls g) as (g & cq & Hr & Hn & Hc).
  { destruct (call_admitted demo_handler demo_verify demo_owner demo_gateway _ ltac:(vm_compute; reflexivity)
      eq_refl eq_refl eq_refl eq_refl) as (g & Hr & _ & Hn & cq & Hc).
    exists g, cq. split; [|done]. etrans; [exact demo_gateway_reachable|exact Hr]. }
  exists g, cq. split; [exact Hr|]. split; [exact Hn|]. split; [exact Hc|].
  assert (entry Keyspace.empty 1000 Limiter.inflightKey = None) as He by reflexivity.
  destruct (gateway_safe 1 (100 * Millisecond) demo_handler demo_verify Keyspace.empty 1000 g
    ltac:(lia) He ltac:(lia) Hr) as (_ & Hcalls & _).
  destruct (Hcalls demo_owner cq Hc) as (_ & Hu & Hq & _). rewrite Hu, Hq. split; reflexivity.
Defined.
